(* ===== verification/_CoqProject ===== *)
-Q . S2P
Prelude.v
Text.v
Net.v
Common.v
InFlight.v
Kahn.v
Db.v
Prune.v
DbOps.v
Prog.v
Storage.v
World.v
Narinfo.v
Deletion.v
Fsck.v
Admin.v
Verify.v
Pusher.v
Protocol.v
Bookkeeping.v
Refine.v
Browse.v
Puller.v
Config.v
Auth.v
Upload.v
PathInfo.v
Push.v
Files.v
Watch.v
Backup.v
AdminCli.v
Settings.v
Token.v
Doctor.v
Stall.v
Commands.v
WatchStore.v
AdminWire.v
Report.v
Metrics.v
Serve.v
Corpus.v
Bench.v
Routes.v
Startup.v
Handover.v
