(* ===== verification/Prelude.v ===== *)
(** * Verification of garret, a Nix binary cache

    Garret is four programs over one S3 bucket and one SQLite database, with a
    benchmark that loads them (crates/garret-bench). The Pusher
    (crates/garret-pusher) takes uploads, answers Negotiations, runs garbage
    collection and serves the admin socket. The Puller
    (crates/garret-puller) serves narinfos, redirects NAR downloads to the
    bucket and answers browse queries. The client (crates/garret-client) pushes
    closures, by command or from a watcher of the Nix store. garret-admin sends
    commands to the admin socket. garret-server and garret-common hold what they
    share.

    ** How code becomes definitions

    A pure function is a function. Code that touches the outside is a [Prog]
    (Prog.v): a tree of requests, one per lock taken, query, S3 request, system
    call or HTTP request, in the order the code makes them. A relation per
    signature says what may answer a request and what it does to the world;
    failures are among the answers. Properties of a handler hold for every
    answer; [always] properties also hold wherever the process is killed.
    Errors are values of [Result]. Integers are [Z]; where machine width matters
    (upload budgets, cursors, permits, page sizes) the bound or the wrap-around is
    written out. Loops carry fuel, and a theorem says how much is enough:

    - [Deletion.evict_loop]: one round more than there are rows;
    - [Kahn], [Prune]: the number of nodes and edges, supplied by the definitions;
    - [Upload.push_one]: 901 attempts for each retry allowed and the first, and
      one for a renewed token (waits are a second apart, for fifteen minutes);
    - [Watch.drain_collect]: the distance from the cursor to the target, supplied
      by the definition; [Watch.watch_loop] is the daemon, which ends only on an
      error: its fuel is a number of rounds, and its property holds for each;
    - [Stall.send_watched]: one lap per chunk and one, supplied by the definition;
    - [Startup.open_when_ready]: a lap per quarter second of the timeout and one;
      [abort_all] and [run_forever] take a number of laps as they have no other end;
    - [Token.device_poll]: a number of polls, since the human may never approve.

    Third-party code is a parameter (type classes [Zstd], [Jwt], [ClientLibs],
    [PathInfoJson], section variables for SHA-256, base64, Ed25519 and JSON), with
    the documented laws a theorem needs as its hypotheses.

    ** Files

    Shared: Prelude, Text ([str] operations), Net (the address parser of the
    standard library), Prog, Kahn (the topological sort both ends use).

    - Common: crates/garret-common/src/lib.rs and wire.rs. Store paths, Nix base
      32, routes, the framing of an upload's preamble. [to_framed] and
      [preamble_end] are the two ends of one protocol.
    - InFlight: garret-server/src/inflight.rs. [take_claim], [drop_claim],
      [quiesce], [drain_check] are the locked sections; [QuiesceGuard::drain] is
      a step relation with its wake-ups.
    - Db, Prune, DbOps: garret-server/src/db.rs. The four tables are a record of
      finite maps; each statement or transaction is a function of it. DbOps holds
      the contracts callers rely on.
    - Storage: garret-server/src/storage.rs. Upload budgets, body readers, single
      and multipart puts, listings, batch deletes, stale multiparts.
    - World: the database, bucket, clock and in-flight set that the Pusher's
      handlers share, with their interleavings ([pool_step]).
    - Narinfo: garret-server/src/narinfo.rs. Verify: garret-pusher/src/verify.rs.
    - Deletion: garret-pusher/src/deletion.rs and gc.rs. Fsck: fsck.rs.
      Admin: admin.rs. Pusher: main.rs. Each handler is one [Prog].
    - Protocol, Bookkeeping: all handlers of the services side by side, with
      failures, cancellations and restarts, and the invariants of every state.
    - Browse: garret-server/src/browse.rs. Puller: garret-puller/src/main.rs.
    - Config, Auth: garret-server/src/config.rs and auth.rs.
    - Refine: what the running services promise a reader, as an abstract
      write-once store shared by writers, one step of it for each step of theirs.
    - Upload, PathInfo, Push: garret-client/src/push.rs (one upload; what nix says
      of a path; a whole run). Files: files.rs. Watch: watcher.rs; WatchStore runs
      it as garret watch-store does.
    - Backup: the database copy of garret-pusher/src/admin.rs. AdminCli:
      garret-admin/src/main.rs. AdminWire: the admin socket's two ends, and what
      garret-admin prints.
    - Settings: garret-client/src/config.rs, discovery.rs and nixconf.rs, with the
      discovery document the Pusher serves. Token: garret-client/src/auth.rs.
    - Stall: the idle watch of an upload (push.rs). Report: what a push prints, as
      events and for a terminal (push.rs). Doctor: doctor.rs and
      discovery::fetch. Commands: garret-client/src/main.rs and browse.rs, which
      run the client's other parts by [prog_lift].
    - Routes: both routers and their middleware, Auth in front of the handlers of
      Pusher and Puller. Startup: runtime.rs, lib.rs and both mains, the opening
      and migration of the database (db.rs), the collector's timer (gc.rs). Serve:
      the accept loops, listen addresses and systemd's readiness (runtime.rs).
    - Handover: the client's upload loop against the Pusher's handler. A class,
      [Wire], states what the libraries of the two processes promise each other;
      [Calm] streams are those that bring their bytes without a fault.
    - Metrics: garret-server/src/metrics.rs, the labels of auth.rs and storage.rs,
      and the escaping of what is logged.
    - Corpus, Bench: garret-bench/src/corpus.rs and main.rs. A bench run is a [Prog]
      whose concurrent part is one request, answered by what the futures came to.

    ** What the theorems show

    - The services together: every row has its blob in every reachable state
      (Protocol), the books balance and no claim is lost (Bookkeeping), the whole
      is a refinement of a write-once store, where only the holder of a path's
      claim publishes it and what is shown never changes (Refine), a drain of the
      uploads loses no wake-up (InFlight), a
      served narinfo leads to a stored blob with the NAR it names (Puller).
    - Uploads: what each answer means (Pusher), the verifier accepts exactly the
      NARs claimed (Verify), streaming stores the whole body or nothing, also when an
      answer of S3 is lost (Storage),
      and a client that pushes what nix describes is never refused, whatever else
      the Pusher is doing (Handover).
    - Space: garbage collection frees what it says and terminates (Deletion),
      pruning equals deleting roots one by one and keeps closures (Prune), deletes,
      fsck and resign do exactly their work (Admin, Fsck).
    - The database: inserts are read back, a Negotiation protects what it named
      (DbOps).
    - Reading: narinfos render and sign reversibly (Narinfo), listings page
      exactly, trees show closures (Browse), probes are rate-limited (Puller).
    - Trust: policies grant exactly what is configured, a bearer is accepted only
      with a valid key of its issuer, key fetches are bounded (Auth), a bad
      configuration is refused (Config).
    - The client: an upload ends and reports the server's verdict (Upload), a
      clean push leaves the whole closure in the cache, references first (Push),
      files are replaced whole (Files), the watcher loses no path from its first
      start on (Watch), a drain
      that exits 0 leaves none to push (WatchStore), what a
      server advertises is checked before it is trusted (Settings), a login is not
      lost to a rotation, wherever its client is killed but in one gap, and goes to
      checked places only (Token), an upload is
      given up exactly when it is idle (Stall), doctor reports no failure exactly
      when every layer answers (Doctor), a push that exits 0 has pushed its closure
      and login overwrites only with consent (Commands).
    - At the doors: no handler of the Pusher and no browse route runs without a
      token its issuer vouches for (Routes); the Pusher opens only when everything
      it needs has worked, the Puller's wait for the database ends, a migration may
      be cut short (Startup); the accept loop stops with no connection left (Serve).
    - What is told: the NDJSON of a push is one whole report whose totals count its
      events (Report); gauges come back to zero, series stay bounded and a log line
      cannot be forged (Metrics); a bench that passes saw no failure, and its
      streamed bodies are frames a reader of RFC 8878 decompresses (Bench); the
      corpus is reproducible and its baseline the same work (Corpus).
    - Administration: dates and durations mean what they say, nothing is deleted
      without a flag (AdminCli), a backup overwrites nothing (Backup), the admin
      socket answers each request once and in order (AdminWire).

    ** Not modelled

    AWS client set-up and presigning, axum's matching and extractors, the Prometheus
    recorder, logging and tracing are calls into libraries without logic of their
    own; so are clap, how the progress bar is drawn and serde_json, which is a
    parameter. The JSON forms of doctor's, the browse commands' and fsck's reports
    are derived from their types. Query timers and upload gauges that only measure
    are left out of the handlers they wrap. Of the benchmark, the order in which a
    pool's pushes interleave and the criterion micro-benchmarks (hotpath.rs). The
    testing.rs files serve the repository's own tests. *)

From stdpp Require Export base option list numbers strings gmap sorting relations.
From Stdlib Require Export ZArith Lia.

#[export] Set Warnings "-clear-no-such-hyp".

(** ** Fallible code

    [anyhow::Result] and the program's own [Result]s. *)

Inductive Result (T E : Type) : Type :=
  | Ok (v : T)
  | Err (e : E).
Arguments Ok {T E} v.
Arguments Err {T E} e.

Declare Scope garret_scope.
Delimit Scope garret_scope with garret.

(** Rust's [?]: bind the value or return the error. *)
Notation "'let?' x ':=' e 'in' k" :=
  (match e with Ok x => k | Err err => Err err end)
  (at level 10, x pattern, e at level 100, k at level 200) : garret_scope.
Open Scope garret_scope.

Definition is_ok {T E} (r : Result T E) : bool :=
  match r with Ok _ => true | Err _ => false end.

(** [Option::ok_or]. *)
Definition ok_or {T E} (o : option T) (e : E) : Result T E :=
  match o with Some v => Ok v | None => Err e end.

(** [Result::map_err]. *)
Definition map_err {T E F} (f : E → F) (r : Result T E) : Result T F :=
  match r with Ok v => Ok v | Err e => Err (f e) end.

Definition is_nil {A} (l : list A) : bool := match l with [] => true | _ => false end.
Definition is_none {A} (o : option A) : bool := match o with None => true | Some _ => false end.

(** [iter().map(f).collect::<Result<Vec<_>, _>>()]: stops at the first error. *)
Fixpoint collect_results {A T E} (f : A → Result T E) (l : list A) : Result (list T) E :=
  match l with
  | [] => Ok []
  | a :: l =>
      let? v := f a in
      let? vs := collect_results f l in
      Ok (v :: vs)
  end.

Lemma collect_results_ok {A T E} (f : A → Result T E) l vs :
  collect_results f l = Ok vs ↔ Forall2 (λ a v, f a = Ok v) l vs.
Proof.
  revert vs. induction l as [|a l IH]; intros vs; simpl.
  - split; [intros [= <-]; constructor | by inversion 1].
  - split.
    + destruct (f a) as [v|] eqn:Ha; [|done].
      destruct (collect_results f l) as [ws|] eqn:Hl; [|done].
      intros [= <-]. constructor; [done|]. by apply IH.
    + inversion 1 as [|? v ? ws Hv Hws]; subst.
      rewrite Hv. apply IH in Hws. by rewrite Hws.
Qed.

(** ** Machine integers *)

Definition u64_max : Z := 2 ^ 64 - 1.
Definition usize_max : Z := 2 ^ 64 - 1.
Definition i64_min : Z := - 2 ^ 63.
Definition i64_max : Z := 2 ^ 63 - 1.

(** [clamp(lo, hi)]. *)
Definition clampZ (lo hi x : Z) : Z :=
  if (x <? lo)%Z then lo else if (hi <? x)%Z then hi else x.

Lemma clampZ_bounds lo hi x : (lo ≤ hi)%Z → (lo ≤ clampZ lo hi x ≤ hi)%Z.
Proof. unfold clampZ. destruct (Z.ltb_spec x lo), (Z.ltb_spec hi x); lia. Qed.

Lemma clampZ_min_max lo hi x : (lo ≤ hi)%Z → clampZ lo hi x = Z.max lo (Z.min hi x).
Proof. unfold clampZ. destruct (Z.ltb_spec x lo), (Z.ltb_spec hi x); lia. Qed.

Lemma clampZ_id lo hi x : (lo ≤ x ≤ hi)%Z → clampZ lo hi x = x.
Proof. unfold clampZ. destruct (Z.ltb_spec x lo), (Z.ltb_spec hi x); lia. Qed.

(** ** Sums and ordered results *)

Definition sum_Z (l : list Z) : Z := foldr Z.add 0%Z l.

Lemma sum_Z_cons x l : sum_Z (x :: l) = (x + sum_Z l)%Z.
Proof. done. Qed.

Lemma sum_Z_app l k : sum_Z (l ++ k) = (sum_Z l + sum_Z k)%Z.
Proof. induction l as [|x l IH]; simpl; [done|]. unfold sum_Z in *. simpl. lia. Qed.

Lemma sum_Z_nonneg l : Forall (λ x, 0 ≤ x)%Z l → (0 ≤ sum_Z l)%Z.
Proof. induction 1 as [|x l Hx _ IH]; unfold sum_Z in *; simpl; lia. Qed.

#[export] Instance sum_Z_Proper : Proper ((≡ₚ) ==> (=)) sum_Z.
Proof.
  induction 1 as [| x l k _ IH | x y l | l1 l2 l3 _ IH1 _ IH2];
    unfold sum_Z in *; simpl; try lia.
Qed.

(** [slice::chunks(n)]: consecutive pieces of [n], the last one shorter. *)
Fixpoint chunks_fuel {A} (fuel n : nat) (l : list A) : list (list A) :=
  match fuel, l with
  | _, [] => []
  | 0, _ => []
  | S fuel, _ => take n l :: chunks_fuel fuel n (drop n l)
  end.
Definition chunks {A} (n : nat) (l : list A) : list (list A) :=
  chunks_fuel (length l) n l.

Lemma chunks_fuel_concat {A} fuel n (l : list A) :
  n ≠ 0 → length l ≤ fuel → concat (chunks_fuel fuel n l) = l.
Proof.
  intros Hn. revert l. induction fuel as [|fuel IH]; intros l Hl.
  - by destruct l; [|simpl in Hl; lia].
  - destruct l as [|x l]; [done|]. cbn [chunks_fuel concat].
    rewrite IH; [apply take_drop|]. rewrite length_drop. simpl in *. lia.
Qed.

Lemma chunks_concat {A} n (l : list A) : n ≠ 0 → concat (chunks n l) = l.
Proof. intros Hn. by apply chunks_fuel_concat. Qed.

Lemma chunks_fuel_length {A} fuel n (l c : list A) :
  n ≠ 0 → c ∈ chunks_fuel fuel n l → 0 < length c ≤ n.
Proof.
  intros Hn. revert l. induction fuel as [|fuel IH]; intros l.
  - by destruct l; intros ?%elem_of_nil.
  - destruct l as [|x l]; [by intros ?%elem_of_nil|]. cbn [chunks_fuel].
    intros [->|Hc]%elem_of_cons; [|by eapply IH].
    rewrite length_take. simpl. lia.
Qed.

(** A query's rows [ORDER BY] a total order on a key. *)
Definition order_by {A} (R : relation A) `{!RelDecision R} (l : list A) : list A :=
  merge_sort R l.

Lemma elem_of_order_by {A} (R : relation A) `{!RelDecision R} (l : list A) x :
  x ∈ order_by R l ↔ x ∈ l.
Proof. unfold order_by. by rewrite merge_sort_Permutation. Qed.

Lemma order_by_perm {A} (R : relation A) `{!RelDecision R} (l : list A) :
  order_by R l ≡ₚ l.
Proof. apply merge_sort_Permutation. Qed.

Lemma order_by_id {A} (R : relation A) `{!RelDecision R, !Total R, !Transitive R,
    !AntiSymm (=) R} (l : list A) :
  Sorted R l → order_by R l = l.
Proof.
  intros Hl. apply (Sorted_unique R); [apply (Sorted_merge_sort R)|done|].
  apply merge_sort_Permutation.
Qed.

Lemma order_by_unique {A} (R : relation A) `{!RelDecision R, !Total R, !Transitive R,
    !AntiSymm (=) R} (l k : list A) :
  l ≡ₚ k → order_by R l = order_by R k.
Proof.
  intros Hlk. apply (Sorted_unique R); try apply (Sorted_merge_sort R).
  by rewrite !order_by_perm.
Qed.

(** [filter(|x| seen.insert(x))]: the first of each. *)
Fixpoint first_seen (seen : gset string) (hashes : list string) : list string :=
  match hashes with
  | [] => []
  | h :: hashes =>
      if bool_decide (h ∈ seen) then first_seen seen hashes else h :: first_seen ({[h]} ∪ seen) hashes
  end.

Lemma first_seen_elem seen hashes h : h ∈ first_seen seen hashes ↔ h ∈ hashes ∧ h ∉ seen.
Proof.
  revert seen. induction hashes as [|h' hashes IH]; intros seen; cbn [first_seen].
  - split; [by intros ?%elem_of_nil|by intros [?%elem_of_nil _]].
  - case_bool_decide; rewrite ?elem_of_cons, IH; [set_solver|].
    destruct (decide (h = h')); set_solver.
Qed.

Lemma first_seen_nodup seen hashes : NoDup (first_seen seen hashes).
Proof.
  revert seen. induction hashes as [|h hashes IH]; intros seen; cbn [first_seen]; [constructor|].
  case_bool_decide; [done|]. constructor; [|done]. rewrite first_seen_elem. set_solver.
Qed.

(** ** Automation *)

(** A filter depends on its predicate at the list's elements only. *)
Lemma filter_ext_elem {A} (P Q : A → Prop) `{!∀ x, Decision (P x), !∀ x, Decision (Q x)} (l : list A) :
  (∀ x, x ∈ l → P x ↔ Q x) → filter P l = filter Q l.
Proof.
  induction l as [|x l IH]; intros Hext; [done|].
  assert (Hx : P x ↔ Q x) by (apply Hext; by left).
  assert (Hl : filter P l = filter Q l) by (apply IH; intros y Hy; apply Hext; by right).
  destruct (decide (P x)) as [HP|HP].
  - rewrite !filter_cons_True by tauto. by rewrite Hl.
  - rewrite !filter_cons_False by tauto. done.
Qed.

Create HintDb garret.
#[export] Hint Resolve sum_Z_nonneg clampZ_bounds elem_of_order_by : garret.

(** Closes a ground decidable proposition by evaluating its decision. *)
Ltac by_decision := match goal with |- ?P => apply (bool_decide_unpack P); vm_cast_no_check I end.

(** Closes a ground equation by evaluation, without normalising its type. *)
Ltac by_computation := match goal with |- _ = ?y => vm_cast_no_check (eq_refl y) end.

(** Case analysis on the innermost [match] of a hypothesis, then clean up. *)
Ltac case_hyp H :=
  match type of H with
  | context [match ?x with _ => _ end] =>
      lazymatch x with
      | context [match _ with _ => _ end] => fail
      | _ => let E := fresh "E" in destruct x eqn:E
      end
  end; try discriminate H; simplify_eq/=.
Ltac case_hyps H := repeat case_hyp H.

(** The same on the goal. *)
Ltac case_goal :=
  match goal with
  | |- context [match ?x with _ => _ end] =>
      lazymatch x with
      | context [match _ with _ => _ end] => fail
      | _ => let E := fresh "E" in destruct x eqn:E
      end
  end; simplify_eq/=.

Lemma filter_all {A} (P : A → Prop) `{∀ x, Decision (P x)} l : Forall P l → filter P l = l.
Proof. induction 1 as [|x l Hx _ IH]; [done|]. by rewrite filter_cons_True, IH. Qed.
