(* ===== verification/Text.v ===== *)
(** * Text: the [str] operations the program uses

    A Rust [&str] or [String] is its sequence of UTF-8 bytes, a [string] here.
    Every operation below is the standard library's, restricted to the ASCII
    patterns the program searches for; comparison ([String.le]) is the byte
    order, which is both Rust's [Ord] on [str] and SQLite's BINARY collation. *)

From S2P Require Import Prelude.
From stdpp Require Export pretty.
From Stdlib Require Export Ascii.

Abbreviation chars := String.list_ascii_of_string.
Abbreviation str_len := String.length.

(** ** Operations *)

Definition str_all (p : ascii → bool) (s : string) : bool := forallb p (chars s).

Definition ascii_code (c : ascii) : nat := nat_of_ascii c.

Definition in_code_range (lo hi : nat) (c : ascii) : bool :=
  (lo <=? ascii_code c) && (ascii_code c <=? hi).

Definition is_ascii_digit : ascii → bool := in_code_range 48 57.
Definition is_ascii_alphanumeric (c : ascii) : bool :=
  is_ascii_digit c || in_code_range 65 90 c || in_code_range 97 122 c.

(** A digit of the standard base64 alphabet. *)
Definition is_base64_digit (c : ascii) : bool :=
  is_ascii_alphanumeric c || Ascii.eqb c "+" || Ascii.eqb c "/".

(** From [!] to [~]. *)
Definition is_ascii_graphic : ascii → bool := in_code_range 33 126.

Definition ascii_mem (c : ascii) (set : string) : bool :=
  existsb (Ascii.eqb c) (chars set).

(** [strip_prefix(p)]. *)
Fixpoint strip_prefix (p s : string) : option string :=
  match p, s with
  | EmptyString, _ => Some s
  | String a p, String b s => if Ascii.eqb a b then strip_prefix p s else None
  | String _ _, EmptyString => None
  end.

(** [strip_suffix(suf)]. *)
Fixpoint strip_suffix (suf s : string) : option string :=
  if bool_decide (s = suf) then Some ""
  else match s with
       | EmptyString => None
       | String a s => String a <$> strip_suffix suf s
       end.

Definition starts_with (p s : string) : bool := bool_decide (is_Some (strip_prefix p s)).
Definition ends_with (suf s : string) : bool := bool_decide (is_Some (strip_suffix suf s)).

(** [split(c)]: the pieces between the occurrences of [c]. *)
Fixpoint str_split (c : ascii) (s : string) : list string :=
  match s with
  | EmptyString => [""]
  | String a s =>
      if Ascii.eqb a c then "" :: str_split c s
      else match str_split c s with piece :: pieces => String a piece :: pieces | [] => [String a ""] end
  end.

(** [split_once(&str)]: around the first occurrence of [sep]. *)
Fixpoint str_split_once (sep s : string) : option (string * string) :=
  match strip_prefix sep s with
  | Some rest => Some ("", rest)
  | None =>
      match s with
      | EmptyString => None
      | String a s =>
          match str_split_once sep s with Some (l, r) => Some (String a l, r) | None => None end
      end
  end.

(** [contains(sub)]. *)
Fixpoint contains (sub s : string) : bool :=
  starts_with sub s || match s with EmptyString => false | String _ s => contains sub s end.

(** [split_once(c)]: around the first [c]. *)
Fixpoint split_once (c : ascii) (s : string) : option (string * string) :=
  match s with
  | EmptyString => None
  | String a s =>
      if Ascii.eqb a c then Some ("", s)
      else match split_once c s with
           | Some (l, r) => Some (String a l, r)
           | None => None
           end
  end.

(** [split(c).next()]: everything before the first [c], or the whole text. *)
Definition split_first (c : ascii) (s : string) : string :=
  match split_once c s with Some (l, _) => l | None => s end.

(** [rsplit(c).next()]: everything after the last [c], or the whole text. *)
Fixpoint rsplit_first (c : ascii) (s : string) : string :=
  match s with
  | EmptyString => EmptyString
  | String a s' =>
      if ascii_mem c s' then rsplit_first c s'
      else if Ascii.eqb a c then s' else s
  end.

(** [trim_end_matches(c)]. *)
Fixpoint trim_end_matches (c : ascii) (s : string) : string :=
  match s with
  | EmptyString => EmptyString
  | String a s =>
      match trim_end_matches c s with
      | EmptyString => if Ascii.eqb a c then EmptyString else String a EmptyString
      | s' => String a s'
      end
  end.

(** A UTF-8 continuation byte, [10xxxxxx]: no character starts there. *)
Definition is_continuation (c : ascii) : bool := in_code_range 128 191 c.

(** The first [n] characters ([chars().take(n)], SQLite's [substr(s, 1, n)]); a
    continuation byte belongs to the character before it. *)
Fixpoint prefix_chars (n : nat) (s : string) : string :=
  match s with
  | EmptyString => EmptyString
  | String c s =>
      if is_continuation c then String c (prefix_chars n s)
      else match n with
           | 0 => EmptyString
           | S n => String c (prefix_chars n s)
           end
  end.

Fixpoint str_take (n : nat) (s : string) : string :=
  match n, s with
  | S n, String a s => String a (str_take n s)
  | _, _ => EmptyString
  end.
Fixpoint str_drop (n : nat) (s : string) : string :=
  match n, s with
  | S n, String _ s => str_drop n s
  | 0, s => s
  | _, EmptyString => EmptyString
  end.

(** [get(..n)]: the first [n] bytes, [None] when there are fewer or when byte
    [n] is inside a character. *)
Definition str_get_to (n : nat) (s : string) : option string :=
  if n <=? str_len s then
    match str_drop n s with
    | String c _ => if is_continuation c then None else Some (str_take n s)
    | EmptyString => Some (str_take n s)
    end
  else None.

(** [replace(pat, rep)] for a non-empty [pat]: [skip] counts the characters of
    a match still to be dropped. *)
Fixpoint str_replace_from (pat rep : string) (skip : nat) (s : string) : string :=
  match s with
  | EmptyString => EmptyString
  | String a s' =>
      match skip with
      | S skip => str_replace_from pat rep skip s'
      | 0 =>
          if starts_with pat s then rep +:+ str_replace_from pat rep (str_len pat - 1) s'
          else String a (str_replace_from pat rep 0 s')
      end
  end.
Definition str_replace (pat rep s : string) : string := str_replace_from pat rep 0 s.

(** [parts.join(sep)]. *)
Fixpoint str_join (sep : string) (parts : list string) : string :=
  match parts with
  | [] => ""
  | [s] => s
  | s :: parts => s +:+ sep +:+ str_join sep parts
  end.

Definition byte_string (codes : list nat) : string :=
  String.string_of_list_ascii (map ascii_of_nat codes).

(** Characters with the Unicode White_Space property, encoded in UTF-8. *)
Definition whitespace : list string :=
  map byte_string
    ([[9]; [10]; [11]; [12]; [13]; [32]; [194; 133]; [194; 160]; [225; 154; 128]] ++
     map (λ n, [226; 128; n]) (seq 128 11) ++
     [[226; 128; 168]; [226; 128; 169]; [226; 128; 175]; [226; 129; 159]; [227; 128; 128]]).

Fixpoint strip_any (strip : string → string → option string) (pats : list string) (s : string)
    : option string :=
  match pats with
  | [] => None
  | pat :: pats => match strip pat s with Some s => Some s | None => strip_any strip pats s end
  end.

Fixpoint trim_with (strip : string → string → option string) (fuel : nat) (s : string) : string :=
  match fuel with
  | 0 => s
  | S fuel => match strip_any strip whitespace s with Some s => trim_with strip fuel s | None => s end
  end.

(** [trim()]. *)
Definition str_trim (s : string) : string :=
  let s := trim_with strip_prefix (str_len s) s in trim_with strip_suffix (str_len s) s.

Definition newline : ascii := ascii_of_nat 10.

(** [writeln!]. *)
Definition writeln (line : string) : string := line +:+ String newline "".

(** [lines()], for text whose every line ends in a newline. *)
Fixpoint str_lines_from (line : string) (s : string) : list string :=
  match s with
  | EmptyString => if bool_decide (line = "") then [] else [line]
  | String c s =>
      if Ascii.eqb c newline then line :: str_lines_from "" s
      else str_lines_from (line +:+ String c "") s
  end.
Definition str_lines (s : string) : list string := str_lines_from "" s.

Definition carriage_return : ascii := ascii_of_nat 13.
Definition strip_cr (line : string) : string :=
  default line (strip_suffix (String carriage_return "") line).

(** [lines()]: a line ends in a newline, or [\r\n]; the last one may have none. *)
Fixpoint text_lines_from (line : string) (s : string) : list string :=
  match s with
  | EmptyString => if bool_decide (line = "") then [] else [line]
  | String c s =>
      if Ascii.eqb c newline then strip_cr line :: text_lines_from "" s
      else text_lines_from (line +:+ String c "") s
  end.
Definition text_lines (s : string) : list string := text_lines_from "" s.

(** [split_whitespace()]. *)
Fixpoint split_whitespace_from (fuel : nat) (word s : string) : list string :=
  let flush := if bool_decide (word = "") then [] else [word] in
  match fuel, s with
  | S fuel, String c rest =>
      match strip_any strip_prefix whitespace s with
      | Some rest => flush ++ split_whitespace_from fuel "" rest
      | None => split_whitespace_from fuel (word +:+ String c "") rest
      end
  | _, _ => flush
  end.
Definition split_whitespace (s : string) : list string := split_whitespace_from (str_len s) "" s.

(** ** Appending *)

Create Rewrite HintDb text.

Lemma str_app_cons a s t : (String a s) +:+ t = String a (s +:+ t).
Proof. done. Qed.

Lemma str_app_nil_l t : "" +:+ t = t.
Proof. done. Qed.

Lemma str_app_nil_r s : s +:+ "" = s.
Proof. induction s as [|a s IH]; [done|]. by rewrite str_app_cons, IH. Qed.

Lemma str_app_assoc s t u : (s +:+ t) +:+ u = s +:+ (t +:+ u).
Proof. induction s as [|a s IH]; [done|]. by rewrite !str_app_cons, IH. Qed.

Lemma str_len_app s t : str_len (s +:+ t) = str_len s + str_len t.
Proof. induction s as [|a s IH]; [done|]. rewrite str_app_cons. simpl. by rewrite IH. Qed.

Lemma chars_app s t : chars (s +:+ t) = chars s ++ chars t.
Proof. induction s as [|a s IH]; [done|]. rewrite str_app_cons. simpl. by rewrite IH. Qed.

Lemma chars_length s : length (chars s) = str_len s.
Proof. induction s as [|a s IH]; [done|]. simpl. by rewrite IH. Qed.

Lemma str_app_inv_tail s t u : s +:+ u = t +:+ u → s = t.
Proof.
  intros H. apply (f_equal chars) in H. rewrite !chars_app in H.
  apply app_inv_tail in H. apply (f_equal String.string_of_list_ascii) in H.
  by rewrite !String.string_of_list_ascii_of_string in H.
Qed.

Lemma str_take_drop n s : str_take n s +:+ str_drop n s = s.
Proof. revert s. induction n as [|n IH]; intros [|a s]; try done. cbn. rewrite str_app_cons. by rewrite IH. Qed.

Lemma str_take_app n s t : str_len s = n → str_take n (s +:+ t) = s.
Proof. revert s. induction n as [|n IH]; intros [|a s] [=]; [done|]. rewrite str_app_cons. cbn. by rewrite IH. Qed.

Lemma str_drop_app n s t : str_len s = n → str_drop n (s +:+ t) = t.
Proof. revert s. induction n as [|n IH]; intros [|a s] [=]; [done|]. rewrite str_app_cons. cbn. by rewrite IH. Qed.

Lemma str_all_app p s t : str_all p (s +:+ t) = str_all p s && str_all p t.
Proof. unfold str_all. by rewrite chars_app, forallb_app. Qed.

Lemma str_all_cons p a s : str_all p (String a s) = p a && str_all p s.
Proof. done. Qed.

Lemma str_all_impl (p q : ascii → bool) s : (∀ c, p c = true → q c = true) → str_all p s = true → str_all q s = true.
Proof. unfold str_all. rewrite !forallb_forall. auto. Qed.

#[export] Hint Rewrite str_app_cons str_app_nil_l str_app_nil_r str_app_assoc str_len_app
  chars_app str_all_app : text.

(** ** What each operation finds *)

Lemma strip_prefix_Some p s t : strip_prefix p s = Some t ↔ s = p +:+ t.
Proof.
  revert s. induction p as [|a p IH]; intros s; cbn [strip_prefix].
  - rewrite str_app_nil_l. naive_solver.
  - destruct s as [|b s]; [done|]. rewrite str_app_cons.
    destruct (Ascii.eqb_spec a b) as [->|Hab]; [rewrite IH|]; naive_solver.
Qed.

Lemma strip_suffix_Some suf s t : strip_suffix suf s = Some t ↔ s = t +:+ suf.
Proof.
  revert t. induction s as [|a s IH]; intros t; cbn [strip_suffix].
  - case_bool_decide as Hs; split; intros Ht; simplify_eq; try done.
    + destruct t; [done|]. by rewrite str_app_cons in Ht.
    + exfalso. destruct t; [|by rewrite str_app_cons in Ht]. by rewrite str_app_nil_l in Ht.
  - case_bool_decide as Hs.
    + subst. split; [intros [= <-]; done|]. intros Ht.
      apply (str_app_inv_tail "") in Ht. by subst.
    + rewrite fmap_Some. split.
      * intros (t' & Ht' & ->). apply IH in Ht'. subst. done.
      * intros Ht. destruct t as [|b t]; [by rewrite str_app_nil_l in Ht|].
        rewrite str_app_cons in Ht. simplify_eq. exists t. by rewrite IH.
Qed.

Lemma split_once_Some c s l r :
  split_once c s = Some (l, r) ↔ s = l +:+ String c r ∧ ascii_mem c l = false.
Proof.
  revert l r. induction s as [|a s IH]; intros l r; cbn [split_once].
  - split; [done|]. intros [H _]. by destruct l.
  - destruct (Ascii.eqb_spec a c) as [->|Hac].
    + split; [intros [= <- <-]; done|]. intros [H Hl]. destruct l as [|b l].
      * rewrite str_app_nil_l in H. by simplify_eq.
      * rewrite str_app_cons in H. simplify_eq.
        unfold ascii_mem in Hl. simpl in Hl. by rewrite Ascii.eqb_refl in Hl.
    + split.
      * destruct (split_once c s) as [[l' r']|] eqn:Hs; [|done]. intros [= <- <-].
        destruct (proj1 (IH l' r') eq_refl) as [-> Hl]. split; [done|]. unfold ascii_mem in *. simpl.
        rewrite Hl. destruct (Ascii.eqb_spec c a); naive_solver.
      * intros [H Hl]. destruct l as [|b l].
        -- rewrite str_app_nil_l in H. by simplify_eq.
        -- rewrite str_app_cons in H. simplify_eq.
           unfold ascii_mem in Hl. simpl in Hl. apply orb_false_iff in Hl as [_ Hl].
           by rewrite (proj2 (IH l r) (conj eq_refl Hl)).
Qed.

Lemma split_once_None c s : split_once c s = None ↔ ascii_mem c s = false.
Proof.
  induction s as [|a s IH]; cbn [split_once]; [done|].
  unfold ascii_mem in *. simpl. rewrite orb_false_iff, Ascii.eqb_neq.
  destruct (Ascii.eqb_spec a c) as [->|Hac]; [naive_solver|].
  destruct (split_once c s) as [[]|]; naive_solver.
Qed.

Lemma ascii_mem_app c s t : ascii_mem c (s +:+ t) = ascii_mem c s || ascii_mem c t.
Proof. unfold ascii_mem. by rewrite chars_app, existsb_app. Qed.

Lemma ascii_mem_all_false c p s :
  str_all p s = true → p c = false → ascii_mem c s = false.
Proof.
  unfold str_all, ascii_mem. induction (chars s) as [|a l IH]; simpl; [done|].
  rewrite andb_true_iff. intros [Ha Hl] Hc. rewrite IH by done.
  destruct (Ascii.eqb_spec c a); naive_solver congruence.
Qed.

Lemma rsplit_first_none c s : ascii_mem c s = false → rsplit_first c s = s.
Proof.
  destruct s as [|a s]; [done|]. unfold ascii_mem. simpl. intros [Ha Hs]%orb_false_iff.
  unfold ascii_mem. rewrite Hs. apply Ascii.eqb_neq in Ha.
  destruct (Ascii.eqb_spec a c); naive_solver.
Qed.

Lemma rsplit_first_app c s t :
  ascii_mem c t = false → rsplit_first c (s +:+ String c t) = t.
Proof.
  intros Ht. induction s as [|a s IH].
  - rewrite str_app_nil_l. cbn [rsplit_first]. rewrite Ht, Ascii.eqb_refl. done.
  - rewrite str_app_cons. cbn [rsplit_first]. rewrite ascii_mem_app.
    assert (ascii_mem c (String c t) = true) as ->.
    { unfold ascii_mem. simpl. by rewrite Ascii.eqb_refl. }
    by rewrite orb_true_r.
Qed.

Lemma trim_end_matches_id c s :
  ascii_mem c s = false → trim_end_matches c s = s.
Proof.
  induction s as [|a s IH]; [done|]. unfold ascii_mem in *. simpl.
  intros [Ha Hs]%orb_false_iff. rewrite IH by done.
  destruct s; [|done]. apply Ascii.eqb_neq in Ha.
  destruct (Ascii.eqb_spec a c); naive_solver.
Qed.

Lemma trim_end_matches_app c s t :
  trim_end_matches c t ≠ "" → trim_end_matches c (s +:+ t) = s +:+ trim_end_matches c t.
Proof.
  intros Ht. induction s as [|a s IH]; [done|].
  rewrite !str_app_cons. cbn [trim_end_matches]. rewrite IH.
  destruct (s +:+ trim_end_matches c t) as [|b u] eqn:E; [|done].
  exfalso. apply Ht. destruct s; [done|by rewrite str_app_cons in E].
Qed.

Lemma split_first_app c s t :
  ascii_mem c s = false → split_first c (s +:+ String c t) = s.
Proof.
  intros Hs. unfold split_first.
  by rewrite (proj2 (split_once_Some c _ s t) (conj eq_refl Hs)).
Qed.

Lemma split_first_none c s : ascii_mem c s = false → split_first c s = s.
Proof. intros Hs. unfold split_first. by rewrite (proj2 (split_once_None c s) Hs). Qed.

Lemma str_get_to_app n s t :
  str_len s = n → (∀ c u, t = String c u → is_continuation c = false) →
  str_get_to n (s +:+ t) = Some s.
Proof.
  intros Hn Ht. unfold str_get_to. rewrite str_len_app.
  rewrite (proj2 (Nat.leb_le _ _)) by lia.
  rewrite str_drop_app, str_take_app by done.
  destruct t as [|c u]; [done|]. by rewrite (Ht c u).
Qed.

(** ** Lines and decimals *)

Definition no_newline (s : string) : Prop := ascii_mem newline s = false.

Lemma ascii_mem_cons c a s : ascii_mem c (String a s) = Ascii.eqb c a || ascii_mem c s.
Proof. done. Qed.

Lemma str_lines_from_writeln acc line s :
  no_newline line → str_lines_from acc (writeln line +:+ s) = (acc +:+ line) :: str_lines s.
Proof.
  unfold writeln. revert acc. induction line as [|c line IH]; intros acc Hn.
  - rewrite str_app_nil_r. done.
  - unfold no_newline in Hn. rewrite ascii_mem_cons in Hn. apply orb_false_iff in Hn as [Hc Hn].
    rewrite !str_app_cons. cbn [str_lines_from]. rewrite Ascii.eqb_sym, Hc, IH by done.
    by rewrite str_app_assoc.
Qed.

Lemma str_lines_writeln line s : no_newline line → str_lines (writeln line +:+ s) = line :: str_lines s.
Proof. apply (str_lines_from_writeln ""). Qed.

Lemma str_lines_writelns ls :
  Forall no_newline ls → str_lines (foldr (λ l s, writeln l +:+ s) "" ls) = ls.
Proof.
  induction 1 as [|l ls Hl _ IH]; [done|]. cbn [foldr]. by rewrite str_lines_writeln, IH.
Qed.

Lemma ascii_mem_join c sep parts :
  ascii_mem c sep = false → Forall (λ s, ascii_mem c s = false) parts →
  ascii_mem c (str_join sep parts) = false.
Proof.
  intros Hsep. induction 1 as [|s parts Hs Hp IH]; [done|].
  destruct parts as [|s' parts]; [done|]. cbn [str_join].
  rewrite !ascii_mem_app, Hs, Hsep. exact IH.
Qed.

(** Decimal text: digits, after an optional minus sign. *)
Definition is_decimal_char (c : ascii) : bool := is_ascii_digit c || Ascii.eqb c "-".

Lemma pretty_N_go_chars (x : N) s : str_all is_decimal_char s = true →
  str_all is_decimal_char (pretty_N_go x s) = true.
Proof.
  revert s. induction (N.lt_wf_0 x) as [x _ IH]. intros s Hs.
  destruct (decide (x = 0)%N) as [->|Hx]; [by rewrite pretty_N_go_0|].
  rewrite pretty_N_go_step by lia. apply IH; [apply N.div_lt; lia|].
  rewrite str_all_cons, Hs, andb_true_r.
  assert (x mod 10 < 10)%N as Hm by (apply N.mod_lt; lia).
  generalize dependent (x mod 10)%N. intros d Hd.
  destruct d as [|p]; [done|]. do 4 (destruct p as [p|p|]; try done; try lia).
Qed.

Lemma pretty_N_chars (x : N) : str_all is_decimal_char (pretty x) = true.
Proof.
  unfold pretty, pretty_N. destruct (decide (x = 0%N)); [done|]. by apply pretty_N_go_chars.
Qed.

Lemma pretty_Z_chars (z : Z) : str_all is_decimal_char (pretty z) = true.
Proof.
  destruct z as [|p|p]; [done|apply (pretty_N_chars (N.pos p))|].
  change (pretty (Z.neg p)) with ("-" +:+ pretty (N.pos p)).
  rewrite str_all_app, pretty_N_chars. done.
Qed.

Lemma pretty_Z_mem c (z : Z) : is_decimal_char c = false → ascii_mem c (pretty z) = false.
Proof. intros Hc. eapply ascii_mem_all_false; [apply pretty_Z_chars|done]. Qed.

(** ** Reading numbers *)

Definition digit_value (c : ascii) : Z := Z.of_nat (ascii_code c) - 48.

(** Decimal digits after the value [acc]; [None] at any other character. *)
Fixpoint digits_from (acc : Z) (s : string) : option Z :=
  match s with
  | EmptyString => Some acc
  | String c s => if is_ascii_digit c then digits_from (10 * acc + digit_value c) s else None
  end.

(** Digits, at least one. *)
Definition parse_digits (s : string) : option Z :=
  match s with EmptyString => None | _ => digits_from 0 s end.

(** [str::parse] to an integer between [lo] and [hi]: one sign, then digits. *)
Definition parse_int (lo hi : Z) (s : string) : option Z :=
  v ← match s with
      | String c rest =>
          if Ascii.eqb c "+" then parse_digits rest
          else if Ascii.eqb c "-" then Z.opp <$> parse_digits rest
          else parse_digits s
      | EmptyString => None
      end;
  if ((lo <=? v) && (v <=? hi))%Z then Some v else None.

(** [str::parse::<i64>]. *)
Definition parse_i64 : string → option Z := parse_int i64_min i64_max.
(** [str::parse::<u64>]: no sign but a plus. *)
Definition parse_u64 (s : string) : option Z :=
  match s with
  | String "-" _ => None
  | _ => parse_int 0 u64_max s
  end.

Lemma digit_value_pretty (d : N) : (d < 10)%N →
  is_ascii_digit (pretty_N_char d) = true ∧ digit_value (pretty_N_char d) = Z.of_N d.
Proof.
  intros Hd. assert (Hin : d ∈ [0; 1; 2; 3; 4; 5; 6; 7; 8; 9]%N).
  { rewrite !elem_of_cons, elem_of_nil. lia. }
  rewrite !elem_of_cons, elem_of_nil in Hin. by repeat destruct Hin as [->|Hin].
Qed.

Lemma digits_from_pretty (x : N) s : digits_from 0 (pretty_N_go x s) = digits_from (Z.of_N x) s.
Proof.
  revert s. induction (N.lt_wf_0 x) as [x _ IH]. intros s.
  destruct (decide (x = 0)%N) as [->|Hx]; [by rewrite pretty_N_go_0|].
  rewrite pretty_N_go_step by lia. rewrite IH by (apply N.div_lt; lia). cbn [digits_from].
  destruct (digit_value_pretty (x mod 10)) as [-> ->]; [apply N.mod_lt; lia|].
  f_equal. rewrite (N.div_mod x 10) at 3 by lia. lia.
Qed.

Lemma parse_digits_pretty (x : N) : parse_digits (pretty x) = Some (Z.of_N x).
Proof.
  unfold pretty, pretty_N. case_decide as Hx; [by subst|].
  pose proof (digits_from_pretty x "") as Hd. unfold parse_digits.
  destruct (pretty_N_go x "") as [|c s] eqn:E; [|done].
  simpl in Hd. destruct x; [done|]. by injection Hd.
Qed.

Lemma pretty_N_digit (x : N) : ∃ c s, pretty x = String c s ∧ is_ascii_digit c = true.
Proof.
  pose proof (parse_digits_pretty x) as Hp. unfold parse_digits in Hp.
  destruct (pretty x) as [|c s]; [done|]. cbn in Hp. exists c, s. split; [done|].
  by destruct (is_ascii_digit c).
Qed.

Lemma parse_int_pretty lo hi (z : Z) : (lo ≤ z ≤ hi)%Z → parse_int lo hi (pretty z) = Some z.
Proof.
  intros Hz. unfold parse_int.
  assert (Hin : ((lo <=? z) && (z <=? hi))%Z = true) by (apply andb_true_intro; split; apply Z.leb_le; lia).
  assert (Hpos : ∀ x : N, z = Z.of_N x → pretty z = pretty x → parse_int lo hi (pretty z) = Some z).
  { intros x Hx Hp. unfold parse_int. rewrite Hp. pose proof (parse_digits_pretty x) as Hd.
    destruct (pretty_N_digit x) as (c & s & Hs & Hc). rewrite Hs in *.
    destruct (Ascii.eqb_spec c "+") as [->|]; [done|]. destruct (Ascii.eqb_spec c "-") as [->|]; [done|].
    rewrite Hd. cbn. by rewrite <-Hx, Hin. }
  destruct z as [|p|p]; [by apply (Hpos 0%N)|by apply (Hpos (N.pos p))|].
  change (pretty (Z.neg p)) with (String "-" (pretty (N.pos p))).
  cbn [Ascii.eqb Bool.eqb]. change (Ascii.eqb "-" "+") with false. change (Ascii.eqb "-" "-") with true.
  cbn iota. rewrite parse_digits_pretty. cbn [fmap option_fmap option_map mbind option_bind].
  change (- Z.of_N (N.pos p))%Z with (Z.neg p). by rewrite Hin.
Qed.

(** ** Case *)

Definition ascii_lower (c : ascii) : ascii :=
  if in_code_range 65 90 c then ascii_of_nat (ascii_code c + 32) else c.

(** [to_ascii_lowercase]. *)
Fixpoint str_lower (s : string) : string :=
  match s with EmptyString => EmptyString | String c s => String (ascii_lower c) (str_lower s) end.

(** ** Lines of a file *)

(** What a line of a file can hold and be read back. *)
Definition plain_line (s : string) : Prop := no_newline s ∧ strip_cr s = s.

Lemma text_lines_from_writeln acc line s :
  no_newline line → text_lines_from acc (writeln line +:+ s) = strip_cr (acc +:+ line) :: text_lines s.
Proof.
  unfold writeln. revert acc. induction line as [|c line IH]; intros acc Hn.
  - rewrite str_app_nil_r. done.
  - unfold no_newline in Hn. rewrite ascii_mem_cons in Hn. apply orb_false_iff in Hn as [Hc Hn].
    rewrite !str_app_cons. cbn [text_lines_from]. rewrite Ascii.eqb_sym, Hc, IH by done.
    by rewrite str_app_assoc.
Qed.

Lemma text_lines_writelns ls :
  Forall plain_line ls → text_lines (foldr (λ l s, writeln l +:+ s) "" ls) = ls.
Proof.
  induction 1 as [|l ls [Hn Hcr] _ IH]; [done|]. cbn [foldr]. unfold text_lines.
  rewrite text_lines_from_writeln by done. by rewrite str_app_nil_l, Hcr, IH.
Qed.

(** ** Trimming a number *)

Lemma whitespace_not_decimal pat : pat ∈ whitespace → str_all is_decimal_char pat = false.
Proof.
  intros Hp. assert (H : forallb (λ p, negb (str_all is_decimal_char p)) whitespace = true) by (vm_compute; done).
  rewrite forallb_forall in H. apply list_elem_of_In, H, negb_true_iff in Hp. done.
Qed.

Lemma strip_any_decimal (strip : string → string → option string) pats s :
  (∀ pat r, strip pat s = Some r → str_all is_decimal_char pat = true) →
  (∀ pat, pat ∈ pats → str_all is_decimal_char pat = false) → strip_any strip pats s = None.
Proof.
  intros Hs. induction pats as [|pat pats IH]; intros Hp; [done|]. cbn [strip_any].
  destruct (strip pat s) as [r|] eqn:E; [|apply IH; intros; apply Hp; by right].
  apply Hs in E. rewrite (Hp pat) in E; [done|by left].
Qed.

Lemma str_trim_decimal s : str_all is_decimal_char s = true → str_trim s = s.
Proof.
  intros Hs. assert (Hno : ∀ strip : string → string → option string,
    (∀ pat r, strip pat s = Some r → s = pat +:+ r ∨ s = r +:+ pat) → ∀ fuel, trim_with strip fuel s = s).
  { intros strip Hstrip fuel. destruct fuel as [|fuel]; [done|]. cbn [trim_with].
    rewrite strip_any_decimal; [done| |apply whitespace_not_decimal].
    intros pat r [->| ->]%Hstrip; rewrite str_all_app in Hs; by apply andb_prop in Hs as [? ?]. }
  unfold str_trim. rewrite !Hno; [done|..]; intros pat r.
  - intros H%strip_suffix_Some. by right.
  - intros H%strip_prefix_Some. by left.
Qed.

Lemma parse_trimmed_pretty (z : Z) : (i64_min ≤ z ≤ i64_max)%Z → parse_i64 (str_trim (pretty z)) = Some z.
Proof. intros Hz. rewrite str_trim_decimal by apply pretty_Z_chars. by apply parse_int_pretty. Qed.

(** ** Trimming printable text *)

(** No whitespace character begins or ends with a printable byte. *)
Definition edge_graphic (s : string) : bool :=
  match chars s with [] => false | c :: l => is_ascii_graphic c || is_ascii_graphic (List.last l c) end.

Lemma whitespace_edges pat : pat ∈ whitespace → edge_graphic pat = false ∧ pat ≠ "".
Proof.
  intros Hp. assert (H : forallb (λ p, negb (edge_graphic p) && negb (bool_decide (p = ""))) whitespace = true) by (vm_compute; done).
  rewrite forallb_forall in H. apply list_elem_of_In, H, andb_prop in Hp as [He%negb_true_iff Hn%negb_true_iff].
  split; [done|]. by apply bool_decide_eq_false in Hn.
Qed.

Lemma strip_any_none (strip : string → string → option string) pats s :
  (∀ pat, pat ∈ pats → strip pat s = None) → strip_any strip pats s = None.
Proof.
  induction pats as [|pat pats IH]; intros Hp; [done|]. cbn [strip_any].
  rewrite (Hp pat) by left. apply IH. intros. apply Hp. by right.
Qed.

Lemma trim_with_none (strip : string → string → option string) fuel s :
  (∀ pat, pat ∈ whitespace → strip pat s = None) → trim_with strip fuel s = s.
Proof. intros H. destruct fuel as [|fuel]; [done|]. cbn [trim_with]. by rewrite strip_any_none. Qed.

Lemma trim_start_graphic c s fuel : is_ascii_graphic c = true → trim_with strip_prefix fuel (String c s) = String c s.
Proof.
  intros Hc. apply trim_with_none. intros pat [He Hn]%whitespace_edges. destruct (strip_prefix pat _) as [r|] eqn:E; [|done].
  apply strip_prefix_Some in E. destruct pat as [|c' pat]; [done|]. injection E as <- _.
  unfold edge_graphic in He. cbn in He. by rewrite Hc in He.
Qed.

Lemma chars_last_app s c d : List.last (chars (s +:+ String c "")) d = c.
Proof. rewrite chars_app. cbn. by rewrite List.last_last. Qed.

Lemma str_last s : s = "" ∨ ∃ s' c, s = s' +:+ String c "".
Proof.
  induction s as [|c s [->|(s' & c' & ->)]]; [by left|right; by exists "", c|right; by exists (String c s'), c'].
Qed.

Lemma str_snoc_inv s t c d : s +:+ String c "" = t +:+ String d "" → s = t ∧ c = d.
Proof.
  intros H. assert (Hl : str_len s = str_len t) by (apply (f_equal str_len) in H; rewrite !str_len_app in H; cbn in H; lia).
  pose proof (f_equal (str_take (str_len s)) H) as Ht. pose proof (f_equal (str_drop (str_len s)) H) as Hd.
  rewrite str_take_app, str_take_app in Ht by done. rewrite str_drop_app, str_drop_app in Hd by done.
  split; [done|by injection Hd].
Qed.

Lemma trim_end_graphic s c fuel :
  is_ascii_graphic c = true → trim_with strip_suffix fuel (s +:+ String c "") = s +:+ String c "".
Proof.
  intros Hc. apply trim_with_none. intros pat [He Hn]%whitespace_edges. destruct (strip_suffix pat _) as [r|] eqn:E; [|done].
  apply strip_suffix_Some in E. destruct (str_last pat) as [->|(p & c' & ->)]; [done|].
  rewrite <-str_app_assoc in E. apply str_snoc_inv in E as [_ <-]. exfalso. revert He.
  unfold edge_graphic. rewrite chars_app. destruct (chars p) as [|d l]; cbn; [by rewrite Hc|].
  by rewrite List.last_last, Hc, orb_true_r.
Qed.

(** A line of a file, read back and trimmed. *)
Lemma str_trim_writeln c s d s' :
  is_ascii_graphic c = true → is_ascii_graphic d = true → String c s = s' +:+ String d "" →
  str_trim (writeln (String c s)) = String c s.
Proof.
  intros Hc Hd Heq. unfold str_trim, writeln. rewrite str_app_cons, trim_start_graphic by done.
  rewrite <-str_app_cons, Heq. rewrite str_len_app. replace (_ + _) with (S (str_len (s' +:+ String d ""))) by (cbn; lia).
  cbn [trim_with]. set (line := s' +:+ String d "") in *.
  assert (Hs : strip_any strip_suffix whitespace (line +:+ String newline "") = Some line).
  { change whitespace with (String (ascii_of_nat 9) "" :: String newline "" :: drop 2 whitespace). cbn [strip_any].
    destruct (strip_suffix (String (ascii_of_nat 9) "") _) as [r|] eqn:E.
    - by apply strip_suffix_Some, str_snoc_inv in E as [_ ?].
    - by rewrite (proj2 (strip_suffix_Some _ _ line)). }
  rewrite Hs. by apply trim_end_graphic.
Qed.
