(* ===== verification/Net.v ===== *)
(** * Net: IP addresses and URLs

    [str::parse::<IpAddr>] and [is_loopback] of Rust's standard library, which
    the client's URL check uses; [reqwest::Url::parse], which both ends use, is a
    parameter. *)

From S2P Require Import Prelude Text.

(** [reqwest::Url::parse]: the scheme and host of a URL. *)
Class UrlParser := url_parse : string → option (string * option string).

(** ** Reading an address

    Each reader takes the text at its place and gives what it read and the rest;
    a reader that fails reads nothing. *)

(** [char::to_digit]. *)
Definition to_digit (radix : Z) (c : ascii) : option Z :=
  let d :=
    if is_ascii_digit c then Some (digit_value c)
    else if in_code_range 97 102 c then Some (Z.of_nat (ascii_code c) - 87)%Z
    else if in_code_range 65 70 c then Some (Z.of_nat (ascii_code c) - 55)%Z
    else None in
  d ← d; if (d <? radix)%Z then Some d else None.

(** The digits there are: their value and number. *)
Fixpoint read_digits (radix : Z) (s : string) (value : Z) (count : nat) : Z * nat * string :=
  match s with
  | EmptyString => (value, count, s)
  | String c rest =>
      match to_digit radix c with
      | Some d => read_digits radix rest (value * radix + d) (S count)
      | None => (value, count, s)
      end
  end.

Definition read_number (radix : Z) (max_digits : nat) (allow_zero_prefix : bool) (limit : Z) (s : string)
    : option (Z * string) :=
  let '(value, count, rest) := read_digits radix s 0 0 in
  if (count =? 0) || (max_digits <? count) then None
  else if negb allow_zero_prefix && starts_with "0" s && (1 <? count) then None
  else if (value <? limit)%Z then Some (value, rest) else None.

(** [read_separator]: all but the first item come after [sep]. *)
Definition read_separator {A} (sep : ascii) (index : nat) (inner : string → option (A * string)) (s : string)
    : option (A * string) :=
  match index with
  | 0 => inner s
  | S _ => match s with String c rest => if Ascii.eqb c sep then inner rest else None | EmptyString => None end
  end.

Definition read_octet : string → option (Z * string) := read_number 10 3 false 256.

Definition read_ipv4 (s : string) : option (list Z * string) :=
  '(a, s) ← read_separator "." 0 read_octet s;
  '(b, s) ← read_separator "." 1 read_octet s;
  '(c, s) ← read_separator "." 2 read_octet s;
  '(d, s) ← read_separator "." 3 read_octet s;
  Some ([a; b; c; d], s).

(** [read_groups] of at most [limit] 16-bit groups, [i] of them read so far:
    the groups, whether the last two were an IPv4 address, and the rest. *)
Fixpoint read_groups (room : nat) (i : nat) (s : string) : list Z * bool * string :=
  match room with
  | 0 => ([], false, s)
  | S room =>
      let ipv4 := match room with 0 => None | S _ => read_separator ":" i read_ipv4 s end in
      match ipv4 with
      | Some (octets, rest) =>
          let at_ n := nth n octets 0%Z in
          ([(at_ 0%nat * 256 + at_ 1%nat)%Z; (at_ 2%nat * 256 + at_ 3%nat)%Z], true, rest)
      | None =>
          match read_separator ":" i (read_number 16 4 true 65536) s with
          | Some (group, rest) => let '(groups, v4, rest) := read_groups room (S i) rest in (group :: groups, v4, rest)
          | None => ([], false, s)
          end
      end
  end.

Definition read_ipv6 (s : string) : option (list Z * string) :=
  let '(head, head_ipv4, s) := read_groups 8 0 s in
  if length head =? 8 then Some (head, s)
  else if head_ipv4 then None
  else
    s ← strip_prefix "::" s;
    let '(tail, _, s) := read_groups (8 - S (length head)) 0 s in
    Some (head ++ repeat 0%Z (8 - length head - length tail) ++ tail, s).

Inductive IpAddr := V4 (octets : list Z) | V6 (groups : list Z).

Definition parse_ip (s : string) : option IpAddr :=
  '(ip, rest) ←
    match read_ipv4 s with
    | Some (octets, rest) => Some (V4 octets, rest)
    | None => '(groups, rest) ← read_ipv6 s; Some (V6 groups, rest)
    end;
  if bool_decide (rest = "") then Some ip else None.

Definition is_loopback (ip : IpAddr) : bool :=
  match ip with
  | V4 octets => (nth 0 octets 0 =? 127)%Z
  | V6 groups => bool_decide (groups = [0; 0; 0; 0; 0; 0; 0; 1]%Z)
  end.

Lemma example_addresses :
  map (λ s, is_loopback <$> parse_ip s)
    ["127.0.0.1"; "127.8.9.255"; "::1"; "0:0::0001"; "::0.0.0.1"; "10.0.0.1"; "::"; "127.0.0.1.evil.example";
     "127.00.0.1"; "127.0.0.256"; "1:2:3:4:5:6:7:8"; "1::2::3"; "localhost"; "12345::"] =
  [Some true; Some true; Some true; Some true; Some true; Some false; Some false; None;
   None; None; Some false; None; None; None].
Proof. reflexivity. Qed.
