(* ===== verification/Common.v ===== *)
(** * Common: store paths, Nix base32 and the upload preamble

    [crates/garret-common/src/lib.rs] and the file names of
    [crates/garret-common/src/wire.rs]. Bytes are [Z] in [0, 256); text is
    [string] (see [Text]). JSON (serde_json) is a parameter of the framing. *)

From S2P Require Import Prelude Text.

(** ** Nix base32 *)

(** [NIX_BASE32_ALPHABET]. *)
Definition NIX_BASE32_ALPHABET : string := "0123456789abcdfghijklmnpqrsvwxyz".

Definition is_nix_base32 (s : string) : bool :=
  str_all (λ b, ascii_mem b NIX_BASE32_ALPHABET) s.

Definition nix_base32_len (bytes : nat) : nat :=
  if bytes =? 0 then 0 else (bytes * 8 - 1) / 5 + 1.

(** One character: group [n] of five bits, from byte [i] and its successor.
    The [u8] shift left drops the bits above the byte. *)
Definition base32_group (bytes : list Z) (n : nat) : Z :=
  let b := n * 5 in
  let i := b / 8 in
  let j := Z.of_nat (b mod 8) in
  let lo := Z.shiftr (nth i bytes 0%Z) j in
  let hi := if (j =? 0)%Z then 0%Z
            else match nth_error bytes (i + 1) with
                 | None => 0%Z
                 | Some next => Z.land (Z.shiftl next (8 - j)) 255
                 end in
  Z.land (Z.lor lo hi) 31.

Definition alphabet_char (d : Z) : ascii :=
  nth (Z.to_nat d) (chars NIX_BASE32_ALPHABET) "0"%char.

Definition nix_base32_encode (bytes : list Z) : string :=
  String.string_of_list_ascii
    (map (λ n, alphabet_char (base32_group bytes n)) (rev (seq 0 (nix_base32_len (length bytes))))).

Definition sha256_nix32 (digest : list Z) : string :=
  "sha256:" +:+ nix_base32_encode digest.

(** ** Store paths *)

Definition hash_of_store_path (path : string) : string :=
  let base := rsplit_first "/" path in
  match str_get_to 32 base with Some h => h | None => base end.

Definition is_store_hash (s : string) : bool :=
  (str_len s =? 32) && is_nix_base32 s.

(** The characters and length Nix allows in a store path's name. *)
Definition name_ok (name : string) : bool :=
  (1 <=? str_len name) && (str_len name <=? 211)
  && str_all (λ b, is_ascii_alphanumeric b || ascii_mem b "+-._?=") name.

Definition store_basename (path store_dir : string) : option string :=
  base ← strip_prefix store_dir path;
  base ← strip_prefix "/" base;
  '(hash, name) ← split_once "-" base;
  if is_store_hash hash && name_ok name then Some base else None.

Definition parse_store_hash (text : string) : option string :=
  let base := rsplit_first "/" (trim_end_matches "/" text) in
  let hash := split_first "-" base in
  if is_store_hash hash then Some hash else None.

(** ** File names of the wire contract *)

Definition NARINFO_SUFFIX : string := ".narinfo".
Definition NAR_SUFFIX : string := ".nar.zst".

Definition with_hash (route hash : string) : string := str_replace "{hash}" hash route.
Definition narinfo_file (hash : string) : string := hash +:+ NARINFO_SUFFIX.
Definition narinfo_hash (file : string) : option string := strip_suffix NARINFO_SUFFIX file.
Definition nar_url (hash : string) : string := "nar/" +:+ hash +:+ NAR_SUFFIX.
Definition nar_file_hash (file : string) : option string := strip_suffix NAR_SUFFIX file.

(** ** The framed preamble *)

Record Preamble := mkPreamble {
  pre_store_path : string;
  pre_nar_hash : string;
  pre_nar_size : Z;
  pre_references : list string;
  pre_deriver : option string;
  pre_ca : option string;
}.

Definition u32_to_le_bytes (n : Z) : list Z :=
  [Z.land n 255; Z.land (Z.shiftr n 8) 255; Z.land (Z.shiftr n 16) 255;
   Z.land (Z.shiftr n 24) 255].
Definition u32_from_le_bytes (a b c d : Z) : Z :=
  Z.lor a (Z.lor (Z.shiftl b 8) (Z.lor (Z.shiftl c 16) (Z.shiftl d 24))).

Definition len_Z {A} (l : list A) : Z := Z.of_nat (length l).

(** [Preamble::to_framed]; [to_json] is serde_json's [to_vec]. *)
Definition to_framed {E} (to_json : Preamble → Result (list Z) E) (p : Preamble)
    : Result (list Z) E :=
  let? json := to_json p in
  Ok (u32_to_le_bytes (len_Z json mod 2 ^ 32) ++ json).

Definition preamble_end (buf : list Z) (max : Z) : Result (option Z) Z :=
  match buf with
  | a :: b :: c :: d :: _ =>
      let len := u32_from_le_bytes a b c d in
      if (max <? len)%Z then Err len
      else Ok (if (len <=? len_Z buf - 4)%Z then Some (4 + len)%Z else None)
  | _ => Ok None
  end.

(** ** Upload acknowledgements *)

Definition NAR_UPLOAD : string := "/api/v1/nar/{hash}".
Definition MISSING_PATHS : string := "/api/v1/missing-paths".
Definition DISCOVERY : string := "/api/v1/discovery".
Definition OBJECTS : string := "/api/v1/objects".
Definition OBJECT : string := "/api/v1/objects/{hash}".
Definition OBJECT_TREE : string := "/api/v1/objects/{hash}/tree".
Definition OBJECT_REFERRERS : string := "/api/v1/objects/{hash}/referrers".
Definition PINS : string := "/api/v1/pins".
Definition NIX_CACHE_INFO : string := "/nix-cache-info".
Definition NAR_FILE : string := "/nar/{file}".

Inductive UploadAck := Ack_Created | Ack_Exists | Ack_InProgress.

(** ** Operator-facing sizes and grace *)

Definition PUSH_GRACE : Z := 86400.
Definition PUSH_GRACE_HOURS : Z := PUSH_GRACE / 3600.

(** What [symlink_metadata] reports of a path. *)
Inductive PathMeta := MetaSocket | MetaOther | MetaNotFound | MetaError (e : string).
(** What [remove_stale_socket] does, [remove] being [remove_file]'s answer. *)
Definition remove_stale_socket (meta : PathMeta) (remove : Result () string)
    : Result () string :=
  match meta with
  | MetaSocket => remove
  | MetaOther => Err "exists and is not a socket; refusing to replace it"
  | MetaNotFound => Ok ()
  | MetaError e => Err e
  end.

(** ** Facts about store hashes *)

Lemma is_store_hash_len h : is_store_hash h = true → str_len h = 32.
Proof. unfold is_store_hash. rewrite andb_true_iff, Nat.eqb_eq. tauto. Qed.

Lemma is_store_hash_chars h c :
  is_store_hash h = true → ascii_mem c NIX_BASE32_ALPHABET = false → ascii_mem c h = false.
Proof.
  unfold is_store_hash. intros [_ Hh]%andb_true_iff Hc.
  by eapply ascii_mem_all_false.
Qed.

Lemma name_ok_chars n c :
  name_ok n = true → is_ascii_alphanumeric c || ascii_mem c "+-._?=" = false →
  ascii_mem c n = false.
Proof.
  unfold name_ok. intros [_ Hn]%andb_true_iff Hc.
  exact (ascii_mem_all_false _ _ _ Hn Hc).
Qed.

Lemma name_ok_nonempty n : name_ok n = true → n ≠ "".
Proof. by intros H ->; vm_compute in H. Qed.

#[export] Hint Resolve is_store_hash_len is_store_hash_chars name_ok_chars : garret.

(** A store path's basename, taken apart. *)
Definition is_basename (base hash name : string) : Prop :=
  base = hash +:+ "-" +:+ name ∧ is_store_hash hash = true ∧ name_ok name = true.

Lemma store_basename_Some path store_dir base :
  store_basename path store_dir = Some base ↔
  ∃ hash name, is_basename base hash name ∧ path = store_dir +:+ "/" +:+ base.
Proof.
  unfold store_basename, is_basename. split.
  - intros (b1 & H1 & (b2 & H2 & ([hash name] & H3 & H4)%bind_Some)%bind_Some)%bind_Some.
    destruct (is_store_hash hash && name_ok name) eqn:Hok; [|done]. simplify_eq.
    apply strip_prefix_Some in H1, H2. apply split_once_Some in H3 as [H3 _].
    apply andb_true_iff in Hok. exists hash, name. naive_solver.
  - intros (hash & name & (-> & Hh & Hn) & ->).
    apply bind_Some. eexists. split; [by apply strip_prefix_Some|].
    apply bind_Some. eexists. split; [by apply strip_prefix_Some|].
    apply bind_Some. exists (hash, name). split; [|by rewrite Hh, Hn].
    apply split_once_Some. split; [done|]. by apply is_store_hash_chars.
Qed.

Lemma is_basename_no_slash base hash name :
  is_basename base hash name → ascii_mem "/" base = false.
Proof.
  intros (-> & Hh & Hn). rewrite !ascii_mem_app.
  rewrite (is_store_hash_chars _ _ Hh), (name_ok_chars _ _ Hn) by done. done.
Qed.

Lemma hash_of_basename pre base hash name :
  is_basename base hash name →
  hash_of_store_path (pre +:+ "/" +:+ base) = hash.
Proof.
  intros Hb. pose proof (is_basename_no_slash _ _ _ Hb) as Hs.
  unfold hash_of_store_path. change ("/" +:+ base) with (String "/" base).
  rewrite rsplit_first_app by done. destruct Hb as (-> & Hh & Hn).
  rewrite str_get_to_app; [done|by apply is_store_hash_len|].
  intros c u. change ("-" +:+ name) with (String "-" name). intros [= <- <-]. done.
Qed.

(** ** Properties: store paths *)

(** A store path store_basename accepts is the store directory, a slash, a 32 character
    store hash, a dash and a valid name, and hash_of_store_path and parse_store_hash give
    that hash for the path and for its basename. *)
Theorem store_path_fields store_dir path base :
  store_basename path store_dir = Some base →
  ∃ hash name,
    base = hash +:+ "-" +:+ name ∧
    path = store_dir +:+ "/" +:+ base ∧
    is_store_hash hash = true ∧ name_ok name = true ∧
    hash_of_store_path path = hash ∧
    parse_store_hash path = Some hash ∧
    parse_store_hash base = Some hash.
Proof.
  intros (hash & name & Hb & ->)%store_basename_Some.
  pose proof (is_basename_no_slash _ _ _ Hb) as Hs.
  exists hash, name. pose proof Hb as (Hbase & Hh & Hn).
  assert (Hsplit : split_first "-" base = hash).
  { subst base. change ("-" +:+ name) with (String "-" name).
    apply split_first_app. by apply is_store_hash_chars. }
  assert (Htrim : trim_end_matches "/" base = base) by by apply trim_end_matches_id.
  repeat split; try done.
  - by eapply hash_of_basename.
  - unfold parse_store_hash. rewrite trim_end_matches_app.
    2: { change ("/" +:+ base) with (String "/" base). cbn [trim_end_matches].
         rewrite Htrim. subst base. by destruct hash. }
    assert (trim_end_matches "/" ("/" +:+ base) = String "/" base) as ->.
    { change ("/" +:+ base) with (String "/" base). cbn [trim_end_matches].
      rewrite Htrim. subst base. by destruct hash. }
    rewrite rsplit_first_app by done. by rewrite Hsplit, Hh.
  - unfold parse_store_hash. rewrite Htrim, rsplit_first_none by done.
    by rewrite Hsplit, Hh.
Qed.

Lemma store_path_fields_witness :
  ∃ hash name,
    "0123456789abcdfghijklmnpqrsvwxyz-hello-1.0" = hash +:+ "-" +:+ name ∧
    parse_store_hash "/nix/store/0123456789abcdfghijklmnpqrsvwxyz-hello-1.0" = Some hash.
Proof.
  destruct (store_path_fields "/nix/store"
    "/nix/store/0123456789abcdfghijklmnpqrsvwxyz-hello-1.0"
    "0123456789abcdfghijklmnpqrsvwxyz-hello-1.0" ltac:(vm_compute; reflexivity))
    as (hash & name & Hb & _ & _ & _ & _ & Hp & _).
  exists hash, name. split; [exact Hb | exact Hp].
Defined.

(** ** Base32 *)

(** The number a byte string stands for, least significant byte first. *)
Fixpoint le_value (bytes : list Z) : Z :=
  match bytes with
  | [] => 0
  | b :: bytes => Z.lor b (Z.shiftl (le_value bytes) 8)
  end%Z.

Definition byte_ok (b : Z) : Prop := (0 ≤ b < 256)%Z.

Lemma le_value_nonneg bytes : Forall byte_ok bytes → (0 ≤ le_value bytes)%Z.
Proof.
  induction 1 as [|b bytes Hb _ IH]; [done|]. simpl.
  apply Z.lor_nonneg. split; [unfold byte_ok in Hb; lia|]. by apply Z.shiftl_nonneg.
Qed.

Lemma byte_testbit_high b k : byte_ok b → (8 ≤ k)%Z → Z.testbit b k = false.
Proof.
  intros [Hb1 Hb2] Hk. destruct (decide (b = 0)%Z) as [->|Hne]; [apply Z.bits_0|].
  apply Z.bits_above_log2; [done|].
  enough (Z.log2 b < 8)%Z by lia. apply Z.log2_lt_pow2; lia.
Qed.

Lemma le_value_testbit bytes i j :
  Forall byte_ok bytes → (0 ≤ j < 8)%Z →
  Z.testbit (le_value bytes) (8 * Z.of_nat i + j) = Z.testbit (nth i bytes 0%Z) j.
Proof.
  intros Hb. revert i. induction Hb as [|b bytes Hb Hbs IH]; intros i Hj; simpl.
  - rewrite Z.bits_0. destruct i; by rewrite Z.bits_0.
  - rewrite Z.lor_spec. destruct i as [|i].
    + rewrite Z.shiftl_spec_low by lia. rewrite orb_false_r. f_equal; lia.
    + rewrite (byte_testbit_high b) by (done || lia). rewrite orb_false_l.
      rewrite Z.shiftl_spec by lia. rewrite <-(IH i Hj). f_equal. lia.
Qed.

(** A group of the encoder is five bits of the number. *)
Lemma base32_group_value bytes n :
  Forall byte_ok bytes →
  base32_group bytes n = Z.land (Z.shiftr (le_value bytes) (5 * Z.of_nat n)) 31.
Proof.
  intros Hb. apply Z.bits_inj'. intros k Hk. unfold base32_group.
  rewrite !Z.land_spec. change 31%Z with (Z.ones 5).
  destruct (decide (k < 5)%Z) as [Hk5|Hk5].
  2: { rewrite Z.ones_spec_high by lia. by rewrite !andb_false_r. }
  rewrite Z.ones_spec_low by lia. rewrite !andb_true_r.
  rewrite (Z.shiftr_spec (le_value bytes)) by lia.
  set (i := n * 5 / 8). set (j := n * 5 mod 8).
  assert (Hij : n * 5 = 8 * i + j) by apply Nat.div_mod_eq.
  assert (Hj8 : j < 8) by (apply Nat.mod_upper_bound; lia).
  replace (k + 5 * Z.of_nat n)%Z with (8 * Z.of_nat i + (Z.of_nat j + k))%Z by lia.
  assert (Hbi : ∀ m, byte_ok (nth m bytes 0%Z)).
  { intros m. destruct (nth_in_or_default m bytes 0%Z) as [Hin| ->]; [|done].
    rewrite Forall_forall in Hb. apply Hb. by apply list_elem_of_In. }
  rewrite Z.lor_spec, Z.shiftr_spec by lia.
  destruct (decide (Z.of_nat j + k < 8)%Z) as [Hlo|Hhi].
  - rewrite le_value_testbit by (done || lia).
    replace (k + Z.of_nat j)%Z with (Z.of_nat j + k)%Z by lia.
    match goal with |- _ || ?h = _ => enough (h = false) as -> by apply orb_false_r end.
    destruct (Z.eqb_spec (Z.of_nat j) 0); [apply Z.bits_0|].
    destruct (nth_error bytes (i + 1)) as [next|]; [|apply Z.bits_0].
    rewrite Z.land_spec, Z.shiftl_spec_low by lia. done.
  - rewrite (byte_testbit_high (nth i bytes 0%Z)) by (done || lia). rewrite orb_false_l.
    replace (8 * Z.of_nat i + (Z.of_nat j + k))%Z
      with (8 * Z.of_nat (i + 1) + (Z.of_nat j + k - 8))%Z by lia.
    rewrite le_value_testbit by (done || lia).
    destruct (Z.eqb_spec (Z.of_nat j) 0); [lia|].
    destruct (nth_error bytes (i + 1)) as [next|] eqn:Hnext.
    + apply nth_error_nth with (d := 0%Z) in Hnext as <-.
      change 255%Z with (Z.ones 8).
      rewrite Z.land_spec, Z.shiftl_spec, Z.ones_spec_low, andb_true_r by lia.
      f_equal. lia.
    + apply nth_error_None in Hnext. rewrite nth_overflow by lia. by rewrite !Z.bits_0.
Qed.

(** The digits of [v] in base 32, [len] of them, least significant first. *)
Definition digit32 (v : Z) (n : nat) : Z := Z.land (Z.shiftr v (5 * Z.of_nat n)) 31.

Lemma digit32_range v n : (0 ≤ digit32 v n < 32)%Z.
Proof.
  unfold digit32. change 31%Z with (Z.ones 5). rewrite Z.land_ones by lia.
  apply Z.mod_pos_bound. lia.
Qed.

(** The reference decoder: read each character's digit, most significant
    first, and write the number as [n] little-endian bytes. *)
Fixpoint alphabet_index (c : ascii) (set : list ascii) : option Z :=
  match set with
  | [] => None
  | a :: set => if Ascii.eqb c a then Some 0%Z else Z.succ <$> alphabet_index c set
  end.

Definition base32_value (s : string) : option Z :=
  foldl (λ acc c,
    v ← acc; d ← alphabet_index c (chars NIX_BASE32_ALPHABET);
    Some (Z.lor (Z.shiftl v 5) d)) (Some 0%Z) (chars s).

Fixpoint le_bytes (n : nat) (v : Z) : list Z :=
  match n with
  | 0 => []
  | S n => Z.land v 255 :: le_bytes n (Z.shiftr v 8)
  end.

Definition nix_base32_decode (n : nat) (s : string) : option (list Z) :=
  le_bytes n <$> base32_value s.

Lemma alphabet_index_char d :
  (0 ≤ d < 32)%Z →
  alphabet_index (alphabet_char d) (chars NIX_BASE32_ALPHABET) = Some d.
Proof.
  intros Hd. rewrite <-(Z2Nat.id d) by lia.
  assert (Hn : Z.to_nat d < 32) by lia. generalize dependent (Z.to_nat d). intros n Hn.
  unfold alphabet_char. rewrite Nat2Z.id.
  do 32 (destruct n as [|n]; [reflexivity|]). lia.
Qed.

Lemma alphabet_char_in d :
  (0 ≤ d < 32)%Z → ascii_mem (alphabet_char d) NIX_BASE32_ALPHABET = true.
Proof.
  intros Hd. rewrite <-(Z2Nat.id d) by lia.
  assert (Hn : Z.to_nat d < 32) by lia. generalize dependent (Z.to_nat d). intros n Hn.
  unfold alphabet_char. rewrite Nat2Z.id.
  do 32 (destruct n as [|n]; [reflexivity|]). lia.
Qed.

Lemma le_bytes_value bytes :
  Forall byte_ok bytes → le_bytes (length bytes) (le_value bytes) = bytes.
Proof.
  induction 1 as [|b bytes Hb Hbs IH]; simpl; [done|]. f_equal.
  - apply Z.bits_inj'. intros k Hk. change 255%Z with (Z.ones 8).
    rewrite Z.land_spec, Z.lor_spec. destruct (decide (k < 8)%Z).
    + rewrite Z.ones_spec_low, Z.shiftl_spec_low by lia. by rewrite andb_true_r, orb_false_r.
    + rewrite Z.ones_spec_high, andb_false_r by lia. by rewrite byte_testbit_high by (done || lia).
  - transitivity (le_bytes (length bytes) (le_value bytes)); [f_equal|exact IH]. apply Z.bits_inj'. intros k Hk.
    rewrite Z.shiftr_spec, Z.lor_spec, Z.shiftl_spec by lia.
    rewrite byte_testbit_high by (done || lia). rewrite orb_false_l. f_equal. lia.
Qed.

Lemma le_value_bound bytes :
  Forall byte_ok bytes → (le_value bytes < 2 ^ (8 * len_Z bytes))%Z.
Proof.
  intros Hb. pose proof (le_value_nonneg bytes Hb) as Hpos.
  destruct (decide (le_value bytes = 0)%Z) as [->|Hne]; [apply Z.pow_pos_nonneg; unfold len_Z; lia|].
  apply Z.log2_lt_pow2; [lia|]. apply Z.nle_gt. intros Hle.
  set (p := Z.log2 (le_value bytes)) in *.
  assert (Hbit : Z.testbit (le_value bytes) p = true) by (apply Z.bit_log2; lia).
  assert (Hp : (0 ≤ p)%Z) by apply Z.log2_nonneg.
  replace p with (8 * Z.of_nat (Z.to_nat (p / 8)) + p mod 8)%Z in Hbit.
  2: { rewrite Z2Nat.id by (apply Z.div_pos; lia). symmetry. apply Z.div_mod. lia. }
  rewrite le_value_testbit in Hbit by (done || apply Z.mod_pos_bound; lia).
  rewrite nth_overflow, Z.bits_0 in Hbit; [done|].
  unfold len_Z in Hle.
  assert (Z.of_nat (length bytes) ≤ p / 8)%Z by (apply Z.div_le_lower_bound; lia). lia.
Qed.

Lemma nix_base32_len_enough n : 8 * n ≤ 5 * nix_base32_len n.
Proof.
  unfold nix_base32_len. destruct (Nat.eqb_spec n 0) as [->|Hn]; [lia|].
  pose proof (Nat.div_mod_eq (n * 8 - 1) 5).
  pose proof (Nat.mod_upper_bound (n * 8 - 1) 5). lia.
Qed.

(** Reading back the digits from [len] down to 0 rebuilds [v mod 32^len]. *)
Lemma base32_value_digits v len :
  (0 ≤ v)%Z →
  foldl (λ acc c, v ← acc; d ← alphabet_index c (chars NIX_BASE32_ALPHABET);
                  Some (Z.lor (Z.shiftl v 5) d))
    (Some (Z.shiftr v (5 * Z.of_nat len)))
    (map (λ n, alphabet_char (digit32 v n)) (rev (seq 0 len))) = Some v.
Proof.
  intros Hv. induction len as [|len IH]; [by rewrite Z.shiftr_0_r|].
  rewrite seq_S, rev_app_distr. simpl map. cbn [foldl mbind option_bind].
  rewrite alphabet_index_char by apply digit32_range. cbn [mbind option_bind].
  rewrite <-IH. f_equal. f_equal. apply Z.bits_inj'. intros k Hk.
  rewrite Z.lor_spec, (Z.shiftr_spec v) by lia. unfold digit32.
  rewrite Z.land_spec. change 31%Z with (Z.ones 5). destruct (decide (k < 5)%Z).
  - rewrite Z.shiftl_spec_low, Z.ones_spec_low, andb_true_r by lia.
    rewrite orb_false_l, Z.shiftr_spec by lia. done.
  - rewrite Z.ones_spec_high, andb_false_r, orb_false_r by lia.
    rewrite Z.shiftl_spec, Z.shiftr_spec by lia. f_equal. lia.
Qed.

(** The nix base-32 text of a byte string has the computed length, uses only the alphabet, and
    decodes back to the bytes. *)
Theorem nix_base32_roundtrip bytes :
  Forall byte_ok bytes →
  str_len (nix_base32_encode bytes) = nix_base32_len (length bytes) ∧
  is_nix_base32 (nix_base32_encode bytes) = true ∧
  nix_base32_decode (length bytes) (nix_base32_encode bytes) = Some bytes.
Proof.
  intros Hb.
  assert (Henc : chars (nix_base32_encode bytes) =
    map (λ n, alphabet_char (digit32 (le_value bytes) n))
      (rev (seq 0 (nix_base32_len (length bytes))))).
  { unfold nix_base32_encode. rewrite String.list_ascii_of_string_of_list_ascii.
    apply map_ext. intros n. by rewrite base32_group_value. }
  repeat split.
  - by rewrite <-chars_length, Henc, length_map, length_rev, length_seq.
  - unfold is_nix_base32, str_all. rewrite Henc, forallb_forall.
    intros c (n & <- & _)%in_map_iff. apply alphabet_char_in, digit32_range.
  - unfold nix_base32_decode, base32_value. rewrite Henc.
    replace (Some 0%Z) with
      (Some (Z.shiftr (le_value bytes) (5 * Z.of_nat (nix_base32_len (length bytes))))).
    + rewrite base32_value_digits by by apply le_value_nonneg. cbn [fmap option_fmap option_map].
      by rewrite le_bytes_value.
    + f_equal. rewrite Z.shiftr_div_pow2 by lia. apply Z.div_small.
      split; [by apply le_value_nonneg|]. eapply Z.lt_le_trans; [by apply le_value_bound|].
      apply Z.pow_le_mono_r; [lia|]. pose proof (nix_base32_len_enough (length bytes)).
      unfold len_Z. lia.
Qed.

Lemma nix_base32_roundtrip_witness :
  nix_base32_decode 3 (nix_base32_encode [255; 0; 17]%Z) = Some [255; 0; 17]%Z.
Proof.
  apply (nix_base32_roundtrip [255; 0; 17]%Z).
  repeat constructor; vm_compute; congruence.
Defined.

(** ** Framing *)

Lemma u32_le_roundtrip n :
  (0 ≤ n < 2 ^ 32)%Z →
  u32_from_le_bytes (Z.land n 255) (Z.land (Z.shiftr n 8) 255)
    (Z.land (Z.shiftr n 16) 255) (Z.land (Z.shiftr n 24) 255) = n.
Proof.
  intros Hn. unfold u32_from_le_bytes. change 255%Z with (Z.ones 8).
  apply Z.bits_inj'. intros k Hk. rewrite !Z.lor_spec.
  assert (Hhigh : (32 ≤ k)%Z → Z.testbit n k = false).
  { intros Hk32. destruct (decide (n = 0)%Z) as [->|]; [apply Z.bits_0|].
    apply Z.bits_above_log2; [lia|]. enough (Z.log2 n < 32)%Z by lia.
    apply Z.log2_lt_pow2; lia. }
  assert (Hpart : ∀ s, (0 ≤ s)%Z →
    Z.testbit (Z.shiftl (Z.land (Z.shiftr n s) (Z.ones 8)) s) k =
    Z.testbit n k && (s <=? k)%Z && (k <? s + 8)%Z).
  { intros s Hs. destruct (Z.leb_spec s k).
    - rewrite Z.shiftl_spec, Z.land_spec, Z.shiftr_spec by lia.
      replace (k - s + s)%Z with k by lia. rewrite andb_true_r.
      destruct (Z.ltb_spec k (s + 8)).
      + by rewrite Z.ones_spec_low by lia.
      + by rewrite Z.ones_spec_high by lia.
    - rewrite Z.shiftl_spec_low by lia. by rewrite andb_false_r. }
  rewrite !Hpart by lia.
  assert (Z.testbit (Z.land n (Z.ones 8)) k = Z.testbit n k && (k <? 8)%Z) as ->.
  { rewrite Z.land_spec. destruct (Z.ltb_spec k 8).
    - by rewrite Z.ones_spec_low by lia.
    - by rewrite Z.ones_spec_high by lia. }
  destruct (Z.testbit n k) eqn:Hbit; [|done]. simpl.
  assert (k < 32)%Z by (apply Z.nle_gt; intros H; by specialize (Hhigh H)).
  destruct (Z.ltb_spec k 8), (Z.leb_spec 8 k), (Z.ltb_spec k 16), (Z.leb_spec 16 k),
    (Z.ltb_spec k 24), (Z.leb_spec 24 k), (Z.ltb_spec k 32); done || lia.
Qed.

Section framing.
Context {E : Type} (to_json : Preamble → Result (list Z) E).

Lemma to_framed_Ok p framed :
  to_framed to_json p = Ok framed →
  ∃ json, to_json p = Ok json ∧
    framed = u32_to_le_bytes (len_Z json mod 2 ^ 32) ++ json.
Proof. unfold to_framed. destruct (to_json p) as [json|]; [|done]. intros [= <-]. eauto. Qed.

Lemma preamble_end_header n rest max :
  (0 ≤ n < 2 ^ 32)%Z →
  preamble_end (u32_to_le_bytes n ++ rest) max =
    if (max <? n)%Z then Err n
    else Ok (if (n <=? len_Z rest)%Z then Some (4 + n)%Z else None).
Proof.
  intros Hn. unfold preamble_end, u32_to_le_bytes. cbn [app].
  rewrite u32_le_roundtrip by done.
  assert (∀ a b c d : Z, (len_Z (a :: b :: c :: d :: rest) - 4)%Z = len_Z rest) as ->; [|done].
  intros. unfold len_Z. cbn [length]. lia.
Qed.

(** preamble_end finds the end of a framed preamble in any buffer that starts with it, asks for
    more on every shorter buffer, and refuses one over the limit as soon as its length prefix is
    read. *)
Theorem preamble_framing p json framed max :
  to_json p = Ok json → to_framed to_json p = Ok framed →
  (len_Z json < 2 ^ 32)%Z →
  ((len_Z json ≤ max)%Z →
    (∀ rest, preamble_end (framed ++ rest) max = Ok (Some (len_Z framed))) ∧
    (∀ n, n < length framed → preamble_end (take n framed) max = Ok None)) ∧
  ((max < len_Z json)%Z →
    ∀ n, 4 ≤ n → preamble_end (take n framed) max = Err (len_Z json)).
Proof.
  intros Hjson Hframed Hlen. apply to_framed_Ok in Hframed as (json' & Hj & ->).
  rewrite Hjson in Hj. injection Hj as <-.
  assert (Hpos : (0 ≤ len_Z json)%Z) by (unfold len_Z; lia).
  rewrite Z.mod_small by lia.
  assert (Htake : ∀ n, 4 ≤ n → take n (u32_to_le_bytes (len_Z json) ++ json) =
    u32_to_le_bytes (len_Z json) ++ take (n - 4) json).
  { intros n Hn. do 4 (destruct n as [|n]; [lia|]). cbn. by rewrite Nat.sub_0_r. }
  split.
  - intros Hmax. split.
    + intros rest. rewrite <-app_assoc, preamble_end_header by lia.
      rewrite (proj2 (Z.ltb_ge _ _)) by lia.
      rewrite (proj2 (Z.leb_le _ _)); [unfold len_Z; rewrite length_app; f_equal; f_equal; cbn [u32_to_le_bytes length]; lia|].
      unfold len_Z. rewrite length_app. lia.
    + intros n Hn. destruct (decide (4 ≤ n)) as [H4|H4].
      * rewrite Htake, preamble_end_header by lia.
        rewrite (proj2 (Z.ltb_ge _ _)) by lia.
        rewrite (proj2 (Z.leb_gt _ _)); [done|].
        rewrite length_app in Hn. cbn [u32_to_le_bytes length] in Hn.
        unfold len_Z. rewrite length_take. lia.
      * do 4 (destruct n as [|n]; [done|]). lia.
  - intros Hmax n Hn. rewrite Htake, preamble_end_header by lia.
    by rewrite (proj2 (Z.ltb_lt _ _)) by lia.
Qed.
End framing.

Lemma preamble_framing_witness :
  let to_json (p : Preamble) : Result (list Z) () := Ok [123; 125]%Z in
  let p := mkPreamble "" "" 0 [] None None in
  preamble_end ([2; 0; 0; 0; 123; 125] ++ [7])%Z 100 = Ok (Some 6%Z) ∧
  preamble_end [2; 0; 0; 0; 123]%Z 100 = Ok None.
Proof.
  intros to_json p.
  destruct (preamble_framing to_json p [123; 125]%Z [2; 0; 0; 0; 123; 125]%Z 100
    eq_refl eq_refl ltac:(vm_compute; reflexivity)) as [H _].
  destruct (H ltac:(vm_compute; congruence)) as [Hfull Hpart].
  split; [exact (Hfull [7]%Z)|]. exact (Hpart 5 ltac:(simpl; lia)).
Defined.

(** The wire's file names are inverted exactly: nothing but the suffix is lost. *)
Lemma narinfo_hash_Some file hash :
  narinfo_hash file = Some hash ↔ file = narinfo_file hash.
Proof. apply strip_suffix_Some. Qed.

Lemma nar_file_hash_Some file hash :
  nar_file_hash file = Some hash ↔ nar_url hash = "nar/" +:+ file.
Proof.
  unfold nar_file_hash, nar_url. rewrite strip_suffix_Some.
  split; [by intros ->|]. intros H. by apply (inj (String.app "nar/")) in H.
Qed.
