(* ===== verification/InFlight.v ===== *)
(** * InFlight: claims on store paths and the quiesce gate

    [crates/garret-server/src/inflight.rs]. The mutex-protected [State] is a
    record; each method that takes the lock is one function on it. A live
    [Claim] or [QuiesceGuard] value is a token of the step relation at the end
    of the file. Dropping a claim is two steps there, as in the code: the
    counter is decremented under the lock, and the waiters are notified after
    the lock is released. [QuiesceGuard::drain] is the state machine its loop
    runs through, [Notify] included. *)

From S2P Require Import Prelude.

(** ** State *)

Inductive Kind := Kind_Upload | Kind_Delete.
#[export] Instance Kind_eq_dec : EqDecision Kind.
Proof. solve_decision. Defined.

Inductive Refused := Refused_Uploading | Refused_Deleting | Refused_Quiescing.
Inductive Busy := Busy_Uploading | Busy_Deleting.

Definition refused_from (busy : Busy) : Refused :=
  match busy with
  | Busy_Uploading => Refused_Uploading
  | Busy_Deleting => Refused_Deleting
  end.

(** [uploads] and [quiescers] are [usize] in the code; as [Z] an underflow
    would show as a negative number, and [inflight_wf] excludes it. *)
Record State := mkState {
  claims : gmap string Kind;
  uploads : Z;
  quiescers : Z;
}.

Definition inflight_new : State := mkState ∅ 0 0.

(** ** Operations *)

(** [InFlight::take]; the new state is the [Claim]'s. *)
Definition take_claim (st : State) (hash : string) (kind : Kind) : Result State Busy :=
  match claims st !! hash with
  | Some Kind_Upload => Err Busy_Uploading
  | Some Kind_Delete => Err Busy_Deleting
  | None =>
      Ok (mkState (<[hash := kind]> (claims st))
            (match kind with Kind_Upload => uploads st + 1 | Kind_Delete => uploads st end)
            (quiescers st))
  end.

(** [InFlight::claim]: an upload claim, refused while quiescing. *)
Definition claim (st : State) (hash : string) : Result State Refused :=
  if (0 <? quiescers st)%Z then Err Refused_Quiescing
  else map_err refused_from (take_claim st hash Kind_Upload).

(** [InFlight::claim_delete]: the gate does not apply. *)
Definition claim_delete (st : State) (hash : string) : Result State Busy :=
  take_claim st hash Kind_Delete.

Definition inflight_contains (st : State) (hash : string) : bool :=
  bool_decide (is_Some (claims st !! hash)).

Definition is_quiescing (st : State) : bool := (0 <? quiescers st)%Z.

(** [InFlight::quiesce]. *)
Definition quiesce (st : State) : State :=
  mkState (claims st) (uploads st) (quiescers st + 1).

(** [Drop for QuiesceGuard]. *)
Definition drop_guard (st : State) : State :=
  mkState (claims st) (uploads st) (quiescers st - 1).

(** [Drop for Claim] as far as the lock is held: the new state, and whether
    [notify_waiters] is still to be called, which the code does once the lock
    is released. *)
Definition drop_claim (st : State) (hash : string) : State * bool :=
  match claims st !! hash with
  | Some Kind_Upload =>
      (mkState (delete hash (claims st)) (uploads st - 1) (quiescers st), true)
  | _ => (mkState (delete hash (claims st)) (uploads st) (quiescers st), false)
  end.

(** Dropping a vector of claims, front to back, as far as the locked state goes. *)
Definition drop_claims (st : State) (hashes : list string) : State :=
  foldl (λ st h, fst (drop_claim st h)) st hashes.

(** ** Well-formedness *)

Definition upload_count (cs : gmap string Kind) : nat :=
  size (filter (λ e, e.2 = Kind_Upload) cs).

Definition inflight_wf (st : State) : Prop :=
  uploads st = Z.of_nat (upload_count (claims st)) ∧ (0 ≤ quiescers st)%Z.

Lemma upload_count_insert cs h k :
  cs !! h = None →
  upload_count (<[h := k]> cs) =
    match k with Kind_Upload => S (upload_count cs) | Kind_Delete => upload_count cs end.
Proof.
  intros Hh. unfold upload_count. destruct k.
  - rewrite map_filter_insert_True by done.
    rewrite map_size_insert_None; [done|]. by apply map_lookup_filter_None; left.
  - rewrite map_filter_insert_not'; [done|done|by intros y Hy; rewrite Hh in Hy].
Qed.

Lemma upload_count_delete cs h :
  upload_count (delete h cs) =
    match cs !! h with
    | Some Kind_Upload => pred (upload_count cs)
    | _ => upload_count cs
    end.
Proof.
  destruct (cs !! h) as [k|] eqn:Hh; [|by rewrite delete_id].
  assert (upload_count cs = upload_count (<[h := k]> (delete h cs))) as ->
    by by rewrite insert_delete_id.
  rewrite upload_count_insert by apply lookup_delete_eq. by destruct k.
Qed.

Lemma upload_count_pos cs h : cs !! h = Some Kind_Upload → 0 < upload_count cs.
Proof.
  intros Hh. unfold upload_count. apply Nat.neq_0_lt_0. intros H0%map_size_empty_inv.
  assert (filter (λ e, e.2 = Kind_Upload) cs !! h = Some Kind_Upload) as Hf
    by by apply map_lookup_filter_Some.
  by rewrite H0 in Hf.
Qed.

Lemma upload_count_zero cs : upload_count cs = 0 ↔ ∀ h, cs !! h ≠ Some Kind_Upload.
Proof.
  split.
  - intros H0 h Hh. apply upload_count_pos in Hh. lia.
  - intros H. unfold upload_count. apply map_size_empty_iff, map_empty_filter_2.
    intros h k Hk. simpl. intros ->. by apply (H h).
Qed.

Lemma take_claim_Ok st h k st' :
  take_claim st h k = Ok st' →
  claims st !! h = None ∧ claims st' = <[h := k]> (claims st) ∧
  quiescers st' = quiescers st ∧
  uploads st' = match k with Kind_Upload => uploads st + 1 | Kind_Delete => uploads st end%Z.
Proof. unfold take_claim. intros H. case_hyps H. done. Qed.

Lemma take_claim_wf st h k st' :
  inflight_wf st → take_claim st h k = Ok st' → inflight_wf st'.
Proof.
  intros [Hu Hq] (Hn & Hc & Hqs & Hup)%take_claim_Ok. split; [|lia].
  rewrite Hup, Hc, upload_count_insert by done. destruct k; lia.
Qed.

Lemma claim_inv st h st' :
  claim st h = Ok st' →
  (quiescers st ≤ 0)%Z ∧ take_claim st h Kind_Upload = Ok st'.
Proof.
  unfold claim. destruct (Z.ltb_spec 0 (quiescers st)); [done|]. intros Hc. split; [done|].
  by destruct (take_claim st h Kind_Upload) eqn:E; simplify_eq/=.
Qed.

Lemma claim_delete_inv st h st' :
  claim_delete st h = Ok st' →
  claims st !! h = None ∧ claims st' = <[h := Kind_Delete]> (claims st).
Proof. intros H%take_claim_Ok. tauto. Qed.

Lemma drop_claim_claims st h : claims (drop_claim st h).1 = delete h (claims st).
Proof. unfold drop_claim. by destruct (claims st !! h) as [[]|]. Qed.

Lemma drop_claim_quiescers st h : quiescers (drop_claim st h).1 = quiescers st.
Proof. unfold drop_claim. by destruct (claims st !! h) as [[]|]. Qed.

Lemma drop_claim_wf st h : inflight_wf st → inflight_wf (drop_claim st h).1.
Proof.
  intros [Hu Hq]. split; [|by rewrite drop_claim_quiescers].
  rewrite drop_claim_claims, upload_count_delete. unfold drop_claim.
  destruct (claims st !! h) as [[]|] eqn:Hh; simpl; try done.
  apply upload_count_pos in Hh. lia.
Qed.

Lemma drop_claims_wf st hs : inflight_wf st → inflight_wf (drop_claims st hs).
Proof.
  revert st. induction hs as [|h hs IH]; intros st Hst; [done|].
  apply IH. by apply drop_claim_wf.
Qed.

Lemma drop_claims_claims st hs :
  claims (drop_claims st hs) = foldl (λ m h, delete h m) (claims st) hs.
Proof.
  unfold drop_claims. revert st. induction hs as [|h hs IH]; intros st; [done|].
  cbn [foldl]. by rewrite IH, drop_claim_claims.
Qed.

Lemma drop_claims_lookup st hs h :
  claims (drop_claims st hs) !! h = if bool_decide (h ∈ hs) then None else claims st !! h.
Proof.
  rewrite drop_claims_claims. generalize (claims st). induction hs as [|h' hs IH]; intros m.
  - by rewrite bool_decide_eq_false_2 by set_solver.
  - cbn [foldl]. rewrite IH. repeat case_bool_decide; try set_solver.
    + rewrite lookup_delete. case_decide; set_solver.
    + rewrite lookup_delete_ne by set_solver. done.
Qed.

#[export] Hint Resolve take_claim_wf drop_claim_wf drop_claims_wf : garret.

(** ** Claims, guards and drains as a system

    Any number of tasks claim, drop, quiesce and drain; each lock hold is one
    step, and so is each notification. [tokens] are the live [Claim] values;
    [guards] are the live [QuiesceGuard]s with where their [drain] stands;
    [notifying] are the drops that have given the lock back and have not called
    [notify_waiters] yet. *)

(** Where a guard's [drain] is: [woken] is the [Notified] future's flag. *)
Inductive Drain :=
  | Drain_Idle                       (* not draining *)
  | Drain_Registered (woken : bool)  (* [enable]d, not yet checked *)
  | Drain_Waiting (woken : bool)     (* checked, uploads were held: awaiting *)
  | Drain_Drained                    (* returned [true] *)
  | Drain_TimedOut.                  (* returned [false] *)

Record Sys := mkSys {
  sys_state : State;
  tokens : gset string;
  guards : gmap nat Drain;
  notifying : nat;
}.

Definition sys_init : Sys := mkSys inflight_new ∅ ∅ 0.

Definition wake (d : Drain) : Drain :=
  match d with
  | Drain_Registered _ => Drain_Registered true
  | Drain_Waiting _ => Drain_Waiting true
  | d => d
  end.

(** [notify_waiters]: every registered waiter is woken. *)
Definition notify_waiters (gs : gmap nat Drain) : gmap nat Drain := wake <$> gs.

(** One lap of [drain]'s loop after registration: the check under the lock. *)
Definition drain_check (st : State) (woken : bool) : Drain :=
  if (uploads st =? 0)%Z then Drain_Drained else Drain_Waiting woken.

Inductive sys_step : Sys → Sys → Prop :=
  | step_claim s h st' :
      claim (sys_state s) h = Ok st' →
      sys_step s (mkSys st' ({[h]} ∪ tokens s) (guards s) (notifying s))
  | step_claim_delete s h st' :
      claim_delete (sys_state s) h = Ok st' →
      sys_step s (mkSys st' ({[h]} ∪ tokens s) (guards s) (notifying s))
  | step_drop s h st' notify :
      h ∈ tokens s → drop_claim (sys_state s) h = (st', notify) →
      sys_step s (mkSys st' (tokens s ∖ {[h]}) (guards s)
        (if notify : bool then S (notifying s) else notifying s))
  | step_notify s n :
      notifying s = S n →
      sys_step s (mkSys (sys_state s) (tokens s) (notify_waiters (guards s)) n)
  | step_quiesce s g :
      guards s !! g = None →
      sys_step s (mkSys (quiesce (sys_state s)) (tokens s) (<[g := Drain_Idle]> (guards s)) (notifying s))
  | step_drop_guard s g d :
      guards s !! g = Some d →
      sys_step s (mkSys (drop_guard (sys_state s)) (tokens s) (delete g (guards s)) (notifying s))
  | step_register s g d :
      guards s !! g = Some d → d = Drain_Idle ∨ d = Drain_Waiting true →
      sys_step s (mkSys (sys_state s) (tokens s) (<[g := Drain_Registered false]> (guards s)) (notifying s))
  | step_check s g woken :
      guards s !! g = Some (Drain_Registered woken) →
      sys_step s (mkSys (sys_state s) (tokens s)
        (<[g := drain_check (sys_state s) woken]> (guards s)) (notifying s))
  | step_timeout s g woken :
      guards s !! g = Some (Drain_Waiting woken) →
      sys_step s (mkSys (sys_state s) (tokens s) (<[g := Drain_TimedOut]> (guards s)) (notifying s)).

Definition sys_reachable : Sys → Prop := rtc sys_step sys_init.

(** What every reachable system satisfies. *)
Record sys_inv (s : Sys) : Prop := {
  inv_wf : inflight_wf (sys_state s);
  inv_tokens : tokens s = dom (claims (sys_state s));
  inv_guards : quiescers (sys_state s) = Z.of_nat (size (guards s));
  inv_drained : ∀ g, guards s !! g = Some Drain_Drained → uploads (sys_state s) = 0%Z;
  inv_waiting : ∀ g, guards s !! g = Some (Drain_Waiting false) → uploads (sys_state s) ≠ 0%Z ∨ 0 < notifying s;
}.

Lemma sys_inv_init : sys_inv sys_init.
Proof. split; try done; by repeat split. Qed.

Lemma sys_inv_take s h k st' :
  sys_inv s → take_claim (sys_state s) h k = Ok st' →
  (k = Kind_Upload → (quiescers (sys_state s) ≤ 0)%Z) →
  sys_inv (mkSys st' ({[h]} ∪ tokens s) (guards s) (notifying s)).
Proof.
  intros [Hwf Ht Hg Hd Hw] Htake Hk.
  pose proof (take_claim_wf _ _ _ _ Hwf Htake) as Hwf'.
  apply take_claim_Ok in Htake as (Hn & Hc & Hq & Hu). split; simpl; try done.
  - by rewrite Hc, dom_insert_L, Ht.
  - by rewrite Hq.
  - intros g Hgd. rewrite Hu. destruct k; [|by eapply Hd].
    exfalso. specialize (Hk eq_refl). rewrite Hg in Hk.
    assert (guards s = ∅) as He by (apply map_size_empty_inv; lia).
    by rewrite He in Hgd.
  - intros g Hgw. pose proof (Hw g Hgw) as Hne. rewrite Hu. destruct k; [|done].
    destruct Hwf as [Hcnt _]. left. lia.
Qed.

Lemma wake_drained d : wake d = Drain_Drained → d = Drain_Drained.
Proof. by destruct d. Qed.

Lemma sys_inv_drop s h st' notify :
  sys_inv s → drop_claim (sys_state s) h = (st', notify) →
  sys_inv (mkSys st' (tokens s ∖ {[h]}) (guards s) (if notify : bool then S (notifying s) else notifying s)).
Proof.
  intros [Hwf Ht Hg Hd Hw] Hdrop.
  pose proof (drop_claim_wf (sys_state s) h Hwf) as Hwf'.
  pose proof (drop_claim_claims (sys_state s) h) as Hc.
  pose proof (drop_claim_quiescers (sys_state s) h) as Hq.
  assert (Hup : notify = true ∨ uploads st' = uploads (sys_state s)).
  { unfold drop_claim in Hdrop. destruct (claims (sys_state s) !! h) as [[]|]; simplify_eq/=; auto. }
  assert (Hle : (uploads (sys_state s) = 0 → uploads st' = 0)%Z).
  { intros H0. unfold drop_claim in Hdrop. destruct Hwf as [Hcnt _].
    destruct (claims (sys_state s) !! h) as [[]|] eqn:Hh; simplify_eq/=; try done. apply upload_count_pos in Hh. lia. }
  rewrite Hdrop in Hwf', Hc, Hq. simpl in *.
  split; simpl; [done | by rewrite Hc, dom_delete_L, Ht | by rewrite Hq, Hg | | ].
  - intros g Hgd. eauto.
  - intros g Hgw. destruct Hup as [->| ->]; [right; lia|]. destruct (Hw g Hgw); [by left|right]. destruct notify; lia.
Qed.

Lemma sys_inv_notify s n :
  sys_inv s → sys_inv (mkSys (sys_state s) (tokens s) (notify_waiters (guards s)) n).
Proof.
  intros [Hwf Ht Hg Hd Hw]. unfold notify_waiters. split; simpl; [done|done|by rewrite map_size_fmap| |].
  - intros g. rewrite lookup_fmap, fmap_Some. intros (d & Hgd & Hwd). symmetry in Hwd. apply wake_drained in Hwd as ->. eauto.
  - intros g. rewrite lookup_fmap, fmap_Some. intros (d & _ & Hwd). by destruct d.
Qed.

Lemma sys_inv_guard_update s g d :
  sys_inv s → is_Some (guards s !! g) →
  (d = Drain_Drained → uploads (sys_state s) = 0%Z) →
  (d = Drain_Waiting false → uploads (sys_state s) ≠ 0%Z) →
  sys_inv (mkSys (sys_state s) (tokens s) (<[g := d]> (guards s)) (notifying s)).
Proof.
  intros [Hwf Ht Hg Hd Hw] [d0 Hd0] H1 H2. split; simpl; try done.
  - rewrite Hg. by erewrite map_size_insert_Some.
  - intros g'. rewrite lookup_insert_Some. naive_solver.
  - intros g'. rewrite lookup_insert_Some. naive_solver.
Qed.

Lemma sys_inv_step s s' : sys_inv s → sys_step s s' → sys_inv s'.
Proof.
  intros Hinv Hstep. destruct Hstep as [s h st' Hc | s h st' Hc | s h st' notify Hin Hdrop
    | s n Hn | s g Hg | s g d Hg | s g d Hg Hd | s g woken Hg | s g woken Hg].
  - apply claim_inv in Hc as [Hq Hc]. by eapply sys_inv_take.
  - by eapply sys_inv_take.
  - by eapply sys_inv_drop.
  - by apply sys_inv_notify.
  - destruct Hinv as [[Hwf1 Hwf2] Ht Hgs Hd Hw].
    split; simpl; [split; simpl; [done|lia] | done | | |].
    + rewrite map_size_insert_None by done. lia.
    + intros g'. rewrite lookup_insert_Some. intros [[_ ?]|[_ ?]]; [done|by eapply Hd].
    + intros g'. rewrite lookup_insert_Some. intros [[_ ?]|[_ ?]]; [done|by eapply Hw].
  - destruct Hinv as [[Hwf1 Hwf2] Ht Hgs Hd Hw].
    assert (Hsz : size (guards s) = S (size (delete g (guards s)))).
    { rewrite <-(map_size_insert_None g d) by apply lookup_delete_eq.
      by rewrite insert_delete_id. }
    split; simpl; [split; simpl; [done|lia] | done | lia | |].
    + intros g'. rewrite lookup_delete_Some. intros [_ ?]. by eapply Hd.
    + intros g'. rewrite lookup_delete_Some. intros [_ ?]. by eapply Hw.
  - by apply sys_inv_guard_update.
  - apply sys_inv_guard_update; [done|by eexists| |]; unfold drain_check;
      destruct (Z.eqb_spec (uploads (sys_state s)) 0); naive_solver.
  - by apply sys_inv_guard_update.
Qed.

Lemma sys_reachable_inv s : sys_reachable s → sys_inv s.
Proof.
  unfold sys_reachable. generalize sys_inv_init. generalize sys_init.
  intros s0 H0 Hr. induction Hr as [|s0 s1 s2 Hs _ IH]; [done|].
  apply IH. by eapply sys_inv_step.
Qed.

(** A guard whose notification comes, and nothing else, drains. *)
Lemma notified_guard_drains s g woken :
  sys_inv s → guards s !! g = Some (Drain_Waiting woken) → uploads (sys_state s) = 0%Z →
  ∃ s', rtc sys_step s s' ∧ sys_state s' = sys_state s ∧ guards s' !! g = Some Drain_Drained.
Proof.
  intros Hinv Hg H0.
  assert (∃ s1, rtc sys_step s s1 ∧ sys_state s1 = sys_state s ∧ guards s1 !! g = Some (Drain_Waiting true)) as (s1 & Hr & Hst & Hg1).
  { destruct woken; [by exists s|]. destruct (inv_waiting _ Hinv g Hg) as [|Hn]; [done|].
    destruct (notifying s) as [|n] eqn:En; [lia|]. eexists. split; [by apply rtc_once, step_notify|].
    cbn. unfold notify_waiters. by rewrite lookup_fmap, Hg. }
  eexists. split; [|split].
  - etransitivity; [exact Hr|]. eapply rtc_l; [eapply step_register; [exact Hg1|by right]|].
    apply rtc_once. eapply step_check. cbn. apply lookup_insert_eq.
  - exact Hst.
  - cbn. rewrite lookup_insert_eq. unfold drain_check. by rewrite Hst, H0.
Qed.

(** ** Properties *)

(** C32: In every interleaving of claims, releases, notifications, quiesce guards and drains, the
    upload counter counts the upload claims, the claims are exactly the live tokens, a guard that
    has drained sees no upload, and no upload is admitted while a guard lives. No wake-up is lost: a
    guard that waits and was not woken has an upload still to wait for, or a release that has given
    back the lock and is about to notify it; and a guard that waits when no upload is left can drain
    with no other task's help but that notification. *)
Theorem quiesce_drain_sound s :
  sys_reachable s →
  uploads (sys_state s) = Z.of_nat (upload_count (claims (sys_state s))) ∧
  tokens s = dom (claims (sys_state s)) ∧
  (∀ g, guards s !! g = Some Drain_Drained →
    ∀ h, claims (sys_state s) !! h ≠ Some Kind_Upload) ∧
  (∀ g d, guards s !! g = Some d →
    ∀ h, claim (sys_state s) h = Err Refused_Quiescing) ∧
  (∀ g, guards s !! g = Some (Drain_Waiting false) →
    (∃ h, h ∈ tokens s ∧ claims (sys_state s) !! h = Some Kind_Upload) ∨ 0 < notifying s) ∧
  (∀ g woken, guards s !! g = Some (Drain_Waiting woken) → (∀ h, claims (sys_state s) !! h ≠ Some Kind_Upload) →
    ∃ s', rtc sys_step s s' ∧ sys_state s' = sys_state s ∧ guards s' !! g = Some Drain_Drained).
Proof.
  intros Hr. pose proof (sys_reachable_inv s Hr) as Hinv. pose proof Hinv as [[Hu Hq] Ht Hg Hd Hw].
  split_and!; [done|done| | | |].
  - intros g Hgd. apply upload_count_zero. apply Hd in Hgd. lia.
  - intros g d Hgd h. unfold claim.
    destruct (Z.ltb_spec 0 (quiescers (sys_state s))) as [|Hle]; [done|].
    rewrite Hg in Hle. assert (guards s = ∅) as He by (apply map_size_empty_inv; lia).
    by rewrite He in Hgd.
  - intros g Hgw. apply Hw in Hgw as [Hgw|]; [left|by right].
    destruct (map_choose (filter (λ e, e.2 = Kind_Upload) (claims (sys_state s))))
      as (h & k & Hf).
    { intros He. unfold upload_count in Hu. rewrite He, map_size_empty in Hu. by apply Hgw. }
    apply map_lookup_filter_Some in Hf as [Hh Hk]. simpl in Hk. subst k.
    exists h. split; [|done]. rewrite Ht. by apply elem_of_dom_2 in Hh.
  - intros g woken Hgw Hn%upload_count_zero. eapply notified_guard_drains; [done..|]. lia.
Qed.

(** An upload is claimed, a quiesce begins, its drain waits, the upload's claim
    drops, its notification wakes the drain, and the second check returns. *)
Lemma quiesce_drain_sound_witness :
  claims (mkState ∅ 0 1) !! "p" ≠ Some Kind_Upload.
Proof.
  set (up := {["p" := Kind_Upload]} : gmap string Kind).
  pose (mk := λ st t d n, mkSys st t ({[0 := d]} : gmap nat Drain) n).
  pose (s1 := mkSys (mkState up 1 0) {["p"]} ∅ 0).
  pose (s2 := mk (mkState up 1 1) {["p"]} Drain_Idle 0).
  pose (s3 := mk (mkState up 1 1) {["p"]} (Drain_Registered false) 0).
  pose (s4 := mk (mkState up 1 1) {["p"]} (Drain_Waiting false) 0).
  pose (s5 := mk (mkState ∅ 0 1) ∅ (Drain_Waiting false) 1).
  pose (s6 := mk (mkState ∅ 0 1) ∅ (Drain_Waiting true) 0).
  pose (s7 := mk (mkState ∅ 0 1) ∅ (Drain_Registered false) 0).
  pose (s8 := mk (mkState ∅ 0 1) ∅ Drain_Drained 0).
  assert (Hr : sys_reachable s8).
  { apply (rtc_l _ _ s1); [by apply (step_claim sys_init "p" (mkState up 1 0))|].
    apply (rtc_l _ _ s2); [by apply (step_quiesce s1 0)|].
    apply (rtc_l _ _ s3); [apply (step_register s2 0 Drain_Idle); [done|by left]|].
    apply (rtc_l _ _ s4); [by apply (step_check s3 0 false)|].
    apply (rtc_l _ _ s5); [apply (step_drop s4 "p" (mkState ∅ 0 1) true); [set_solver|done]|].
    apply (rtc_l _ _ s6); [by apply (step_notify s5 0)|].
    apply (rtc_l _ _ s7); [apply (step_register s6 0 (Drain_Waiting true)); [done|by right]|].
    apply (rtc_l _ _ s8); [by apply (step_check s7 0 false)|]. apply rtc_refl. }
  exact (proj1 (proj2 (proj2 (quiesce_drain_sound s8 Hr))) 0 eq_refl "p").
Defined.
