(* ===== verification/Kahn.v ===== *)
(** * Kahn: the topological sort both ends of the protocol share

    [referrers_first] (crates/garret-server/src/db.rs, a stack) and
    [references_first] (crates/garret-client/src/push.rs, a queue) are Kahn's
    algorithm with counters over the edges inside one batch. This file holds
    the parts they have in common (counting the edges in, and relaxing the
    successors of a placed index) and the invariant both loops keep; the two
    loops themselves are in [Prune] and [Push]. *)

From S2P Require Import Prelude.

Abbreviation occ := (count_occ Nat.eq_dec).

(** ** Operations *)

(** Edges [(a, b)]: [b] is placed only after [a]. [succs] and [waiting] as the
    nested loops over the input fill them. *)
Definition add_edge (g : list (list nat) * list nat) (e : nat * nat) : list (list nat) * list nat :=
  (alter (λ l, l ++ [e.2]) e.1 g.1, alter S e.2 g.2).
Definition build_graph (n : nat) (edges : list (nat * nat)) : list (list nat) * list nat :=
  foldl add_edge (replicate n [], replicate n 0) edges.

(** [waiting[k] -= 1; if waiting[k] == 0 { push(k) }] for each successor. *)
Definition relax_one (st : list nat * list nat) (k : nat) : list nat * list nat :=
  let w := pred (nth k st.1 0) in
  (<[k := w]> st.1, if w =? 0 then st.2 ++ [k] else st.2).
Definition relax (waiting ks : list nat) : list nat * list nat :=
  foldl relax_one (waiting, []) ks.

(** The indexes with no edge in: where both loops begin. *)
Definition sources (waiting : list nat) : list nat :=
  filter (λ i, nth i waiting 0 = 0) (seq 0 (length waiting)).

(** [enumerate().map(|(i, x)| (key(x), i)).collect::<HashMap<_, _>>()]: of equal
    keys the last counts. *)
Definition index_of {A} (key : A → string) (l : list A) : gmap string nat :=
  foldl (λ m e, <[key e.2 := e.1]> m) ∅ (imap pair l).

Lemma index_of_snoc {A} (key : A → string) l b :
  index_of key (l ++ [b]) = <[key b := length l]> (index_of key l).
Proof. unfold index_of. rewrite imap_app, foldl_app. simpl. by rewrite Nat.add_0_r. Qed.

Lemma index_of_Some {A} (key : A → string) l h i :
  NoDup (map key l) →
  index_of key l !! h = Some i ↔ ∃ b, l !! i = Some b ∧ key b = h.
Proof.
  induction l as [|b l IH] using rev_ind.
  - intros _. unfold index_of. simpl. split; [done|]. by intros (b & ? & _).
  - rewrite map_app. intros (Hnd & Hd & _)%NoDup_app. specialize (IH Hnd).
    rewrite index_of_snoc, lookup_insert_Some, IH. split.
    + intros [[<- <-]|[Hne (b' & Hb' & <-)]].
      * exists b. split; [|done]. by rewrite lookup_app_r, Nat.sub_diag by lia.
      * exists b'. split; [|done]. by apply lookup_app_l_Some.
    + intros (b' & Hb' & <-). apply lookup_app_Some in Hb' as [Hb'|[Hge Hb']].
      * right. split; [|eauto]. intros Heq. apply (Hd (key b')).
        -- apply list_elem_of_fmap. exists b'. split; [done|]. by eapply list_elem_of_lookup_2.
        -- rewrite <-Heq. by left.
      * left. apply list_lookup_singleton_Some in Hb' as [? <-]. split; [done|lia].
Qed.

Lemma omap_seq_lookup {A} (l : list A) : omap (λ i, l !! i) (seq 0 (length l)) = l.
Proof.
  induction l as [|x l IH] using rev_ind; [done|].
  rewrite length_app. simpl. rewrite seq_app, omap_app. simpl.
  rewrite (list_lookup_middle l [] x) by done. f_equal.
  rewrite <-IH at 2. apply list_omap_ext. apply Forall2_same_length_lookup_2; [done|].
  intros i a b Ha Hb. simplify_eq. apply lookup_seq in Ha as [-> Hlt].
  by rewrite lookup_app_l.
Qed.

Lemma index_of_sound {A} (key : A → string) l h i :
  index_of key l !! h = Some i → ∃ x, l !! i = Some x ∧ key x = h.
Proof.
  revert i. induction l as [|b l IH] using rev_ind; intros i; [done|].
  rewrite index_of_snoc, lookup_insert_Some. intros [[<- <-]|[_ (x & Hx & <-)%IH]].
  - exists b. by rewrite lookup_app_r, Nat.sub_diag by lia.
  - exists x. split; [by apply lookup_app_l_Some|done].
Qed.

(** ** Relaxing *)

Lemma occ_cons k ks j : occ (k :: ks) j = (if Nat.eq_dec k j then 1 else 0) + occ ks j.
Proof. simpl. by destruct (Nat.eq_dec k j). Qed.

Lemma nth_insert k w (waiting : list nat) j :
  k < length waiting → nth j (<[k := w]> waiting) 0 = if Nat.eq_dec k j then w else nth j waiting 0.
Proof.
  intros Hk. rewrite !nth_lookup. destruct (Nat.eq_dec k j) as [->|Hne].
  - by rewrite list_lookup_insert_eq.
  - by rewrite list_lookup_insert_ne.
Qed.

(** Whether [j] has just become free, when [k] is relaxed before the rest. *)
Lemma relaxed_first k ks waiting fresh j :
  occ (k :: ks) k ≤ nth k waiting 0 → k < length waiting →
  (j ∈ fresh ↔ j ∈ ks ∧ nth j (<[k := pred (nth k waiting 0)]> waiting) 0 = occ ks j) →
  j ∈ (if pred (nth k waiting 0) =? 0 then [k] else []) ++ fresh ↔
  j ∈ k :: ks ∧ nth j waiting 0 = occ (k :: ks) j.
Proof.
  intros Hle Hk Hin. rewrite elem_of_app, Hin, nth_insert, occ_cons, elem_of_cons by done.
  rewrite occ_cons in Hle. destruct (Nat.eq_dec k k) as [_|]; [|done]. destruct (Nat.eq_dec k j) as [<-|Hne].
  - destruct (Nat.eqb_spec (pred (nth k waiting 0)) 0) as [Hw|Hw].
    + split; [intros _; split; [by left|lia]|]. intros _. left. set_solver.
    + split.
      * intros [?%elem_of_nil|[Hk1 Hk2]]; [done|]. split; [by left|lia].
      * intros [_ Heq]. right. split; [|lia]. apply list_elem_of_In, (count_occ_In Nat.eq_dec). lia.
  - assert (j ∉ (if pred (nth k waiting 0) =? 0 then [k] else [])) by
      (destruct (pred (nth k waiting 0) =? 0); set_solver).
    naive_solver.
Qed.

Lemma relax_spec waiting ks fresh0 :
  (∀ k, k ∈ ks → k < length waiting) →
  (∀ k, occ ks k ≤ nth k waiting 0) →
  NoDup fresh0 → (∀ k, k ∈ fresh0 → occ ks k = 0) →
  ∃ w' fresh, foldl relax_one (waiting, fresh0) ks = (w', fresh0 ++ fresh) ∧
    length w' = length waiting ∧
    (∀ k, nth k w' 0 = nth k waiting 0 - occ ks k) ∧
    NoDup (fresh0 ++ fresh) ∧
    (∀ k, k ∈ fresh ↔ k ∈ ks ∧ nth k waiting 0 = occ ks k).
Proof.
  revert waiting fresh0. induction ks as [|k ks IH]; intros waiting fresh0 Hlt Hle Hnd H0.
  - exists waiting, []. split_and!; [by rewrite app_nil_r|done| |by rewrite app_nil_r|].
    + intros k. simpl. lia.
    + set_solver.
  - assert (Hk : k < length waiting) by set_solver.
    assert (Hoccs := occ_cons k ks).
    assert (Hnth := λ j w, nth_insert k w waiting j Hk).
    set (w := pred (nth k waiting 0)).
    assert (Hle' : ∀ j, occ ks j ≤ nth j (<[k := w]> waiting) 0).
    { intros j. rewrite Hnth. specialize (Hle j). rewrite Hoccs in Hle.
      unfold w. destruct (Nat.eq_dec k j) as [->|]; lia. }
    cbn [foldl]. unfold relax_one at 2. cbn [fst snd]. fold w.
    destruct (IH (<[k := w]> waiting) (if w =? 0 then fresh0 ++ [k] else fresh0))
      as (w' & fresh & Hf & Hlen & Hw' & Hnd' & Hin); clear IH.
    + intros j Hj. rewrite length_insert. set_solver.
    + done.
    + destruct (w =? 0); [|done]. apply NoDup_app. split_and!; [done| |apply NoDup_singleton].
      intros j Hj ->%list_elem_of_singleton. apply H0 in Hj. rewrite Hoccs in Hj.
      by destruct (Nat.eq_dec k k).
    + intros j Hj. destruct (Nat.eqb_spec w 0) as [Hw|Hw].
      * apply elem_of_app in Hj as [Hj| ->%list_elem_of_singleton].
        -- apply H0 in Hj. rewrite Hoccs in Hj. lia.
        -- specialize (Hle' k). rewrite Hnth in Hle'. destruct (Nat.eq_dec k k); [lia|done].
      * apply H0 in Hj. rewrite Hoccs in Hj. lia.
    + exists w', ((if w =? 0 then [k] else []) ++ fresh). split_and!.
      * rewrite Hf. f_equal. destruct (w =? 0); [by rewrite <-app_assoc|done].
      * by rewrite Hlen, length_insert.
      * intros j. rewrite Hw', Hnth, Hoccs. specialize (Hle j). rewrite Hoccs in Hle.
        unfold w. destruct (Nat.eq_dec k j) as [->|]; lia.
      * destruct (w =? 0); [by rewrite <-app_assoc in Hnd'|done].
      * intros j. by apply relaxed_first.
Qed.

(** ** The invariant *)

Section kahn.
Context (n : nat) (succs : list (list nat)).

Definition succ_of (j : nat) : list nat := nth j succs [].
Definition edge (j k : nat) : Prop := j < n ∧ k ∈ succ_of j.

(** Edges into [k] from indexes not yet placed. *)
Definition open_edges (D : list nat) (k : nat) : nat :=
  list_sum (map (λ j, if decide (j ∈ D) then 0 else occ (succ_of j) k) (seq 0 n)).

Record kahn_inv (waiting placed pending : list nat) : Prop := {
  k_len : length waiting = n;
  k_nodup : NoDup (placed ++ pending);
  k_bound : ∀ k, k ∈ placed ++ pending → k < n;
  k_wait : ∀ k, k < n → nth k waiting 0 = open_edges placed k;
  k_zero : ∀ k, k < n → k ∈ placed ++ pending ↔ nth k waiting 0 = 0;
  k_topo : ∀ pre k post, placed = pre ++ k :: post → ∀ j, edge j k → j ∈ pre;
}.

Context (succs_ok : ∀ j k, k ∈ succ_of j → k < n).

Lemma open_edges_zero D k j : open_edges D k = 0 → edge j k → j ∈ D.
Proof.
  unfold open_edges. intros H0 [Hj Hk]. destruct (decide (j ∈ D)) as [|Hn]; [done|]. exfalso.
  assert (Hin : In j (seq 0 n)) by (apply in_seq; lia).
  revert H0 Hin. generalize (seq 0 n). intros l H0 Hin. induction l as [|x l IH]; [done|].
  simpl in H0. destruct Hin as [->|Hin]; [|apply IH; [lia|done]].
  rewrite decide_False in H0 by done.
  apply list_elem_of_In, (count_occ_In Nat.eq_dec) in Hk. lia.
Qed.

Lemma open_edges_some D k : open_edges D k ≠ 0 → ∃ j, edge j k ∧ j ∉ D.
Proof.
  unfold open_edges. intros H.
  assert (Hl : ∀ x, In x (seq 0 n) → x < n) by (intros x Hx; apply in_seq in Hx; lia).
  revert H Hl. generalize (seq 0 n). intros l. induction l as [|x l IH]; simpl; [done|].
  intros H Hl. destruct (decide (x ∈ D)); [apply IH; [lia|naive_solver]|].
  destruct (decide (occ (succ_of x) k = 0)) as [Hz|Hz].
  - apply IH; [lia|naive_solver].
  - exists x. split; [|done]. split; [naive_solver|].
    apply list_elem_of_In, (count_occ_In Nat.eq_dec). lia.
Qed.

Lemma open_edges_snoc D i k :
  i ∉ D → i < n → open_edges D k = occ (succ_of i) k + open_edges (D ++ [i]) k.
Proof.
  intros Hi Hn. unfold open_edges.
  assert (Hnd : List.NoDup (seq 0 n)) by apply seq_NoDup.
  assert (Hin : In i (seq 0 n)) by (apply in_seq; lia).
  revert Hnd Hin. generalize (seq 0 n). intros l. induction l as [|x l IH]; [done|].
  intros Hnd Hin. apply List.NoDup_cons_iff in Hnd as [Hx Hnd]. simpl.
  destruct Hin as [->|Hin].
  - rewrite decide_False by done. rewrite (decide_True (P := i ∈ D ++ [i])) by set_solver.
    simpl. f_equal. f_equal. apply map_ext_in. intros j Hj.
    assert (j ≠ i) by congruence. repeat case_decide; set_solver.
  - rewrite (IH Hnd Hin). assert (x ≠ i) by congruence. repeat case_decide; set_solver by lia.
Qed.

Lemma occ_le_open i D k : i ∉ D → i < n → occ (succ_of i) k ≤ open_edges D k.
Proof. intros Hi Hn. rewrite (open_edges_snoc D i k) by done. lia. Qed.

(** Placing any pending index and relaxing its successors keeps the invariant. *)
Lemma kahn_step waiting placed pending i rest w' fresh :
  kahn_inv waiting placed pending → pending ≡ₚ i :: rest →
  relax waiting (succ_of i) = (w', fresh) →
  kahn_inv w' (placed ++ [i]) (rest ++ fresh).
Proof.
  intros [Hlen Hnd Hb Hw Hz Ht] Hp Hrelax.
  rewrite Hp in Hnd. assert (Hib : i < n) by (apply Hb; rewrite Hp; set_solver).
  assert (Hi : i ∉ placed).
  { apply NoDup_app in Hnd as (_ & Hd & _). intros Hi. by apply (Hd i Hi), elem_of_cons; left. }
  assert (Hwlt : ∀ k, ¬ k < n → nth k waiting 0 = 0) by (intros; apply nth_overflow; lia).
  destruct (relax_spec waiting (succ_of i) []) as (w1 & fresh1 & Hf & Hlen1 & Hw1 & Hnd1 & Hin1).
  { intros k Hk. rewrite Hlen. by eapply succs_ok. }
  { intros k. destruct (decide (k < n)).
    - rewrite Hw by done. by apply occ_le_open.
    - rewrite (proj1 (count_occ_not_In Nat.eq_dec (succ_of i) k)); [lia|].
      rewrite <-list_elem_of_In. intros Hk%succs_ok. lia. }
  { apply NoDup_nil_2. } { set_solver. }
  unfold relax in Hrelax. rewrite Hf in Hrelax. injection Hrelax as <- <-. simpl in *.
  assert (Hfresh : ∀ k, k ∈ fresh1 → k < n ∧ k ∉ placed ++ i :: rest).
  { intros k [Hk Heq]%Hin1. pose proof (succs_ok _ _ Hk) as Hkn. split; [done|].
    rewrite <-Hp, (Hz k Hkn). apply list_elem_of_In, (count_occ_In Nat.eq_dec) in Hk. lia. }
  split.
  - lia.
  - rewrite <-app_assoc. cbn [app]. rewrite app_comm_cons, app_assoc.
    apply NoDup_app. split_and!; [done| |done]. intros k Hk Hkf. by apply Hfresh in Hkf as [_ ?].
  - intros k. rewrite !elem_of_app, list_elem_of_singleton.
    intros [[Hk| ->]|[Hk|Hk]]; [apply Hb; set_solver|done| |by apply Hfresh].
    apply Hb. rewrite Hp. set_solver.
  - intros k Hk. rewrite Hw1, Hw by done. rewrite (open_edges_snoc placed i k) by done. lia.
  - intros k Hk. rewrite Hw1.
    assert (k ∈ (placed ++ [i]) ++ rest ++ fresh1 ↔ k ∈ placed ++ pending ∨ k ∈ fresh1) as ->
      by (rewrite Hp; set_solver).
    rewrite (Hz k Hk), Hin1. split; [intros [H0|[_ H0]]; lia|].
    intros H0. destruct (decide (nth k waiting 0 = 0)); [by left|right].
    assert (nth k waiting 0 = occ (succ_of i) k) as Heq.
    { rewrite Hw in * by done. rewrite (open_edges_snoc placed i k) in * by done. lia. }
    split; [|done]. apply list_elem_of_In, (count_occ_In Nat.eq_dec). lia.
  - intros pre k post Heq j Hj. destruct post as [|x post _] using rev_ind.
    + apply app_inj_tail in Heq as [-> <-]. apply (open_edges_zero pre i); [|done].
      rewrite <-Hw by done. apply Hz; [done|]. rewrite Hp. set_solver.
    + rewrite app_comm_cons, app_assoc in Heq. apply app_inj_tail in Heq as [-> <-].
      by eapply Ht.
Qed.

(** When nothing is pending, the indexes left out feed each other in a circle. *)
Lemma kahn_stuck waiting placed k :
  kahn_inv waiting placed [] → k < n → k ∉ placed → ∃ j, edge j k ∧ j ∉ placed.
Proof.
  intros [Hlen Hnd Hb Hw Hz Ht] Hk Hn. apply open_edges_some. rewrite <-Hw by done.
  intros H0. apply Hz in H0; [|done]. by rewrite app_nil_r in H0.
Qed.

Lemma kahn_placed_length waiting placed pending :
  kahn_inv waiting placed pending → length placed + length pending ≤ n.
Proof.
  intros [_ Hnd Hb _ _ _]. rewrite <-length_app, <-(length_seq n 0).
  apply submseteq_length, NoDup_submseteq; [done|].
  intros k Hk%Hb. apply elem_of_seq. lia.
Qed.

(** [rank] witnesses that the edges have no cycle. *)
Definition acyclic : Prop := ∃ rank : nat → nat, ∀ j k, edge j k → rank j < rank k.

Lemma kahn_complete waiting placed :
  kahn_inv waiting placed [] → acyclic → placed ≡ₚ seq 0 n.
Proof.
  intros Hinv [rank Hrank]. pose proof Hinv as [_ Hnd Hb _ _ _].
  rewrite app_nil_r in Hnd, Hb.
  apply NoDup_Permutation; [done|apply NoDup_seq|]. intros k. rewrite elem_of_seq.
  split; [intros ?%Hb; lia|]. intros [_ Hk]. simpl in Hk.
  remember (rank k) as r eqn:Hr. revert k Hk Hr.
  induction (lt_wf r) as [r _ IH]. intros k Hk ->.
  destruct (decide (k ∈ placed)) as [|Hn]; [done|].
  destruct (kahn_stuck waiting placed k Hinv Hk Hn) as (j & Hj & Hjn).
  exfalso. apply Hjn. eapply IH; [by apply Hrank|by destruct Hj|done].
Qed.

Lemma kahn_full_acyclic waiting placed :
  kahn_inv waiting placed [] → length placed = n → acyclic.
Proof.
  intros Hinv Hlen. pose proof Hinv as [_ Hnd Hb _ _ Ht].
  rewrite app_nil_r in Hnd, Hb.
  assert (Hall : ∀ k, k < n → k ∈ placed).
  { intros k Hk. assert (seq 0 n ≡ₚ placed) as <-; [|apply elem_of_seq; lia].
    symmetry. apply submseteq_length_Permutation; [|by rewrite length_seq, Hlen].
    apply NoDup_submseteq; [done|]. intros x Hx%Hb. apply elem_of_seq. lia. }
  exists (λ k, match list_find (k =.) placed with Some (i, _) => i | None => 0 end).
  intros j k Hjk. pose proof Hjk as [Hj Hk]. apply succs_ok in Hk.
  assert (Hpos : ∀ x, x < n → ∃ i, list_find (x =.) placed = Some (i, x) ∧ placed !! i = Some x).
  { intros x Hx. apply Hall in Hx.
    destruct (list_find_elem_of (x =.) placed x Hx eq_refl) as [[i y] Hi].
    exists i. pose proof Hi as (Hl & <- & _)%list_find_Some. done. }
  destruct (Hpos j Hj) as (i1 & -> & Hl1). destruct (Hpos k Hk) as (i2 & -> & Hl2).
  pose proof (take_drop_middle placed i2 k Hl2) as Hsplit.
  specialize (Ht _ _ _ (eq_sym Hsplit) j Hjk).
  apply list_elem_of_lookup in Ht as [i Hi]. pose proof (lookup_lt_Some _ _ _ Hi) as Hlt.
  rewrite length_take in Hlt. apply lookup_take_Some in Hi as [Hi _].
  pose proof (NoDup_lookup placed i1 i j Hnd Hl1 Hi) as ->. lia.
Qed.
End kahn.

(** ** Counting the edges in *)

Section build.
Context (n : nat).

Lemma open_edges_nil succs k :
  open_edges n succs [] k = list_sum (map (λ j, occ (nth j succs []) k) (seq 0 n)).
Proof. done. Qed.

Lemma list_sum_pointwise (f g : nat → nat) (a c : nat) l :
  NoDup l → a ∈ l → (∀ j, j ∈ l → g j = f j + if decide (j = a) then c else 0) →
  list_sum (map g l) = list_sum (map f l) + c.
Proof.
  induction l as [|x l IH]; [set_solver|].
  intros [Hx Hnd]%NoDup_cons Ha Hg. simpl. rewrite (Hg x) by set_solver.
  apply elem_of_cons in Ha as [->|Ha].
  - rewrite decide_True by done.
    assert (map g l = map f l) as ->; [|lia].
    apply map_ext_in. intros j Hj%list_elem_of_In. rewrite Hg by set_solver.
    rewrite decide_False by congruence. lia.
  - rewrite decide_False by congruence. rewrite IH; [lia|done|done|].
    intros j Hj. apply Hg. set_solver.
Qed.

Definition edges_ok (edges : list (nat * nat)) : Prop :=
  Forall (λ e, e.1 < n ∧ e.2 < n) edges.

Lemma build_graph_spec edges :
  edges_ok edges →
  let '(succs, waiting) := build_graph n edges in
  length succs = n ∧ length waiting = n ∧
  (∀ a b, b ∈ nth a succs [] ↔ (a, b) ∈ edges) ∧
  (∀ k, k < n → nth k waiting 0 = open_edges n succs [] k).
Proof.
  unfold build_graph. induction edges as [|[a b] edges IH] using rev_ind.
  - intros _. simpl. rewrite !length_replicate. split_and!; [done|done| |].
    + intros a b. rewrite nth_lookup. destruct (decide (a < n)).
      * rewrite lookup_replicate_2 by done. simpl. set_solver.
      * rewrite lookup_ge_None_2 by (rewrite length_replicate; lia). simpl. set_solver.
    + intros k Hk. rewrite open_edges_nil.
      assert (∀ l, list_sum (map (λ j, occ (nth j (replicate n []) []) k) l) = 0) as ->.
      { induction l as [|x l IH]; [done|]. simpl. rewrite IH.
        rewrite nth_lookup. destruct (decide (x < n)).
        - by rewrite lookup_replicate_2.
        - by rewrite lookup_ge_None_2 by (rewrite length_replicate; lia). }
      rewrite nth_lookup. by rewrite lookup_replicate_2.
  - intros [Hok [Hab _]%Forall_cons]%Forall_app. destruct Hab as [Ha Hb]. simpl in Ha, Hb.
    rewrite foldl_app. cbn [foldl].
    destruct (foldl add_edge (replicate n [], replicate n 0) edges) as [succs waiting].
    destruct (IH Hok) as (Hl1 & Hl2 & Hin & Hw). unfold add_edge. cbn [fst snd].
    assert (Hsucc : ∀ j, nth j (alter (λ l, l ++ [b]) a succs) [] =
      nth j succs [] ++ (if decide (j = a) then [b] else [])).
    { intros j. rewrite !nth_lookup. destruct (decide (j = a)) as [->|Hne].
      - rewrite list_lookup_alter_eq.
        destruct (lookup_lt_is_Some_2 succs a) as [l ->]; [by rewrite Hl1|done].
      - rewrite list_lookup_alter_ne by done. by rewrite app_nil_r. }
    split_and!; [by rewrite length_alter|by rewrite length_alter| |].
    + intros x y. rewrite Hsucc, !elem_of_app, Hin. case_decide; set_solver.
    + intros k Hk. rewrite open_edges_nil.
      rewrite (list_sum_pointwise (λ j, occ (nth j succs []) k) _ a
        (if decide (k = b) then 1 else 0)).
      * rewrite <-open_edges_nil, <-Hw by done. rewrite !nth_lookup.
        destruct (decide (k = b)) as [->|Hne].
        -- rewrite list_lookup_alter_eq.
           destruct (lookup_lt_is_Some_2 waiting b) as [w ->]; [by rewrite Hl2|]. simpl. lia.
        -- rewrite list_lookup_alter_ne by done. lia.
      * apply NoDup_seq.
      * apply elem_of_seq. lia.
      * intros j _. rewrite Hsucc, count_occ_app. f_equal.
        case_decide; simpl; [|done]. destruct (Nat.eq_dec b k), (decide (k = b)); congruence.
Qed.

Lemma kahn_start edges succs waiting :
  edges_ok edges → build_graph n edges = (succs, waiting) →
  kahn_inv n succs waiting [] (sources waiting).
Proof.
  intros Hok Hb. pose proof (build_graph_spec edges Hok) as H. rewrite Hb in H.
  destruct H as (Hl1 & Hl2 & Hin & Hw). unfold sources.
  assert (Hf : ∀ k, k ∈ filter (λ i, nth i waiting 0 = 0) (seq 0 (length waiting)) ↔
    k < n ∧ nth k waiting 0 = 0).
  { intros k. rewrite list_elem_of_filter, elem_of_seq, Hl2. naive_solver lia. }
  split; simpl.
  - done.
  - apply NoDup_filter, NoDup_seq.
  - intros k [? _]%Hf. done.
  - intros k Hk. by apply Hw.
  - intros k Hk. rewrite Hf. naive_solver.
  - intros pre k post Heq. by destruct pre.
Qed.

Lemma build_edge edges succs waiting a b :
  edges_ok edges → build_graph n edges = (succs, waiting) →
  edge n succs a b ↔ (a, b) ∈ edges.
Proof.
  intros Hok Hb. pose proof (build_graph_spec edges Hok) as H. rewrite Hb in H.
  destruct H as (_ & _ & Hin & _). unfold edge, succ_of. rewrite Hin.
  split; [tauto|]. intros He. split; [|done].
  unfold edges_ok in Hok. rewrite Forall_forall in Hok. by apply Hok in He as [? _].
Qed.

Lemma build_succs_ok edges succs waiting :
  edges_ok edges → build_graph n edges = (succs, waiting) →
  ∀ j k, k ∈ succ_of succs j → k < n.
Proof.
  intros Hok Hb. pose proof (build_graph_spec edges Hok) as H. rewrite Hb in H.
  destruct H as (_ & _ & Hin & _). intros j k. unfold succ_of. rewrite Hin. intros He.
  unfold edges_ok in Hok. rewrite Forall_forall in Hok. by apply Hok in He as [_ ?].
Qed.
End build.
