(* ===== verification/Db.v ===== *)
(** * Db: the metadata database

    [crates/garret-server/src/db.rs]: the four SQLite tables as finite maps and
    sets, and one function per statement family. A transaction is one function:
    it either returns the new database or an error with the old one kept, so
    nothing half-written is representable. Times are Unix seconds and sizes are
    bytes, both [Z]; text is [string] and [ORDER BY] is the byte order.

    Opening and migrating the file are in Startup. Not modelled: query timing, and SQLite's own failures (a busy or unreadable file). The
    [sigs] column holds a JSON array of strings; the model keeps the list. *)

From S2P Require Import Prelude Text Common.

(** ** Data *)

(** [Object]. *)
Record Object := mkObject {
  o_store_path_hash : string;
  o_store_path : string;
  o_name : string;
  o_nar_hash : string;
  o_nar_size : Z;
  o_file_hash : string;
  o_file_size : Z;
  o_deriver : option string;
  o_ca : option string;
  o_references : list string;
  o_sigs : list string;
  o_pushed_by : option string;
}.

(** A row of [objects], keyed by [store_path_hash]. *)
Record Row := mkRow {
  r_store_path : string;
  r_name : string;
  r_nar_hash : string;
  r_nar_size : Z;
  r_file_hash : string;
  r_file_size : Z;
  r_deriver : option string;
  r_ca : option string;
  r_sigs : list string;
  r_pushed_by : option string;
  r_created_at : Z;
  r_last_accessed_at : Z;
  r_pushed_at : Z;
}.

#[export] Instance row_eq_dec : EqDecision Row.
Proof. solve_decision. Defined.

(** A row of [pins], keyed by [name]. *)
Record PinRow := mkPin {
  p_store_path_hash : string;
  p_expires_at : option Z;
  p_created_at : Z;
}.

(** The schema: [object_refs] has primary key [(referrer, reference)]; both it
    and [pins] refer to [objects] with ON DELETE CASCADE; [stats] is one row. *)
Record Db := mkDb {
  objects : gmap string Row;
  object_refs : gset (string * string);
  pins : gmap string PinRow;
  total_bytes : Z;
}.

(** [migrate] on an empty file. *)
Definition db_empty : Db := mkDb ∅ ∅ ∅ 0.

(** The generated column [reference_hash]: [substr(reference, 1, 32)]. *)
Definition reference_hash (reference : string) : string := prefix_chars 32 reference.

(** ** Reads *)

Definition exists_ (db : Db) (hash : string) : bool := bool_decide (is_Some (objects db !! hash)).
Definition created_at (db : Db) (hash : string) : option Z := r_created_at <$> objects db !! hash.
Definition file_size (db : Db) (hash : string) : option Z := r_file_size <$> objects db !! hash.

(** [SELECT reference FROM object_refs WHERE referrer = ?1 ORDER BY reference]. *)
Definition references_of (db : Db) (hash : string) : list string :=
  order_by String.le (map snd (elements (filter (λ r, r.1 = hash) (object_refs db)))).

Definition get_object_and_last_accessed (db : Db) (hash : string) : option (Object * Z) :=
  match objects db !! hash with
  | None => None
  | Some row =>
      Some (mkObject hash (r_store_path row) (r_name row) (r_nar_hash row) (r_nar_size row)
              (r_file_hash row) (r_file_size row) (r_deriver row) (r_ca row)
              (references_of db hash) (r_sigs row) (r_pushed_by row),
            r_last_accessed_at row)
  end.

Definition get_object (db : Db) (hash : string) : option Object :=
  fst <$> get_object_and_last_accessed db hash.

(** [SUM(file_size)]. *)
Definition sum_file_size (rows : gmap string Row) : Z :=
  map_fold (λ _ row acc, r_file_size row + acc)%Z 0%Z rows.

Definition reconcile_total_bytes (db : Db) : Db * Z :=
  let actual := sum_file_size (objects db) in
  (mkDb (objects db) (object_refs db) (pins db) actual, actual).

Definition all_hashes (db : Db) : gset string := dom (objects db).
Definition object_count (db : Db) : Z := Z.of_nat (size (objects db)).

Record ObjectBrief := mkBrief {
  b_store_path_hash : string;
  b_name : string;
  b_created_at : Z;
  b_file_size : Z;
}.

(** [ObjectBrief::from_row]. *)
Definition brief_from_row (e : string * Row) : ObjectBrief :=
  mkBrief e.1 (r_name e.2) (r_created_at e.2) (r_file_size e.2).

Definition all_objects_brief (db : Db) : list ObjectBrief :=
  map brief_from_row (map_to_list (objects db)).

(** Lexicographic order on two sort keys. *)
Definition lex_le {A} (key1 : A → Z) (key2 : A → string) : relation A :=
  λ x y, (key1 x < key1 y)%Z ∨ key1 x = key1 y ∧ String.le (key2 x) (key2 y).
#[export] Instance lex_le_dec {A} (k1 : A → Z) (k2 : A → string) :
  RelDecision (lex_le k1 k2).
Proof. intros x y. unfold lex_le. apply _. Defined.

(** [ORDER BY created_at, store_path_hash]. *)
Definition brief_age_le : relation ObjectBrief := lex_le b_created_at b_store_path_hash.

Definition pushed_by (db : Db) (subject : string) (since : option Z) : list ObjectBrief :=
  order_by brief_age_le
    (map brief_from_row
      (filter (λ e, r_pushed_by e.2 = Some subject ∧ (default i64_min since ≤ r_created_at e.2)%Z)
        (map_to_list (objects db)))).

(** ** Writes *)

(** One [INSERT INTO object_refs] per reference; a repeat breaks the primary
    key and fails the transaction. *)
Fixpoint insert_refs (referrer : string) (references : list string)
    (refs : gset (string * string)) : Result (gset (string * string)) string :=
  match references with
  | [] => Ok refs
  | r :: references =>
      if bool_decide ((referrer, r) ∈ refs)
      then Err "UNIQUE constraint failed: object_refs.referrer, object_refs.reference"
      else insert_refs referrer references ({[(referrer, r)]} ∪ refs)
  end.

Definition row_of_object (obj : Object) (now : Z) : Row :=
  mkRow (o_store_path obj) (o_name obj) (o_nar_hash obj) (o_nar_size obj) (o_file_hash obj)
    (o_file_size obj) (o_deriver obj) (o_ca obj) (o_sigs obj) (o_pushed_by obj) now now now.

Definition insert_object (db : Db) (obj : Object) (now : Z) : Result Db string :=
  let hash := o_store_path_hash obj in
  let previous := default 0%Z (file_size db hash) in
  let refs := filter (λ r, r.1 ≠ hash) (object_refs db) in
  let? refs := insert_refs hash (o_references obj) refs in
  Ok (mkDb (<[hash := row_of_object obj now]> (objects db)) refs (pins db)
        (total_bytes db + (o_file_size obj - previous))).

(** [debit]: never below zero. *)
Definition debit (db : Db) (bytes : Z) : Db :=
  mkDb (objects db) (object_refs db) (pins db) (Z.max 0 (total_bytes db - bytes)).

(** [DELETE FROM objects]: the refs and pins of the row cascade. *)
Definition delete_row (db : Db) (hash : string) : Db :=
  mkDb (delete hash (objects db)) (filter (λ r, r.1 ≠ hash) (object_refs db))
    (filter (λ e, p_store_path_hash e.2 ≠ hash) (pins db)) (total_bytes db).

Definition remove_row (db : Db) (hash : string) (size : Z) : Db :=
  debit (delete_row db hash) size.

Definition delete_object (db : Db) (hash : string) : Db * option Z :=
  match file_size db hash with
  | Some size => (remove_row db hash size, Some size)
  | None => (db, None)
  end.

Definition pin_live (now : Z) (p : PinRow) : Prop :=
  match p_expires_at p with None => True | Some at_ => (now < at_)%Z end.
#[export] Instance pin_live_dec now p : Decision (pin_live now p).
Proof. unfold pin_live. destruct (p_expires_at p); apply _. Defined.

(** [evictable_where!]: whether object [hash] may be evicted at [now]. *)
Definition evictable_where (db : Db) (now grace : Z) (hash : string) (row : Row) : Prop :=
  ¬ set_Exists (λ r, reference_hash r.2 = hash ∧ r.1 ≠ hash) (object_refs db) ∧
  ¬ map_Exists (λ _ p, p_store_path_hash p = hash ∧ pin_live now p) (pins db) ∧
  (r_pushed_at row < now - grace)%Z.
#[export] Instance evictable_where_dec db now grace hash row :
  Decision (evictable_where db now grace hash row).
Proof. unfold evictable_where. apply _. Defined.

(** [ORDER BY last_accessed_at ASC, store_path_hash ASC]. *)
Definition lru_le : relation (string * Row) :=
  lex_le (λ e, r_last_accessed_at e.2) fst.

Definition evictable (db : Db) (limit : nat) (now : Z) : list (string * Z) :=
  map (λ e, (e.1, r_file_size e.2))
    (take limit (order_by lru_le
      (filter (λ e, evictable_where db now PUSH_GRACE e.1 e.2) (map_to_list (objects db))))).

Definition evict_object (db : Db) (hash : string) (now : Z) : Db * option Z :=
  match objects db !! hash with
  | Some row =>
      if bool_decide (evictable_where db now PUSH_GRACE hash row)
      then (remove_row db hash (r_file_size row), Some (r_file_size row))
      else (db, None)
  | None => (db, None)
  end.

(** [INSERT OR REPLACE INTO pins]. *)
Definition pin (db : Db) (name hash : string) (expires_at : option Z) (now : Z)
    : Result Db string :=
  if exists_ db hash
  then Ok (mkDb (objects db) (object_refs db)
             (<[name := mkPin hash expires_at now]> (pins db)) (total_bytes db))
  else Err (hash +:+ " is not in the cache — nothing to pin").

Definition unpin (db : Db) (name : string) : Db * bool :=
  (mkDb (objects db) (object_refs db) (delete name (pins db)) (total_bytes db),
   bool_decide (is_Some (pins db !! name))).

(** [UPDATE objects SET ... WHERE store_path_hash = ?1 ...]. *)
Definition update_row (f : Row → Row) (hash : string) (db : Db) : Db :=
  mkDb (alter f hash (objects db)) (object_refs db) (pins db) (total_bytes db).

Definition set_sigs (sigs : list string) (r : Row) : Row :=
  mkRow (r_store_path r) (r_name r) (r_nar_hash r) (r_nar_size r) (r_file_hash r) (r_file_size r)
    (r_deriver r) (r_ca r) sigs (r_pushed_by r) (r_created_at r) (r_last_accessed_at r)
    (r_pushed_at r).
Definition set_last_accessed (t : Z) (r : Row) : Row :=
  mkRow (r_store_path r) (r_name r) (r_nar_hash r) (r_nar_size r) (r_file_hash r) (r_file_size r)
    (r_deriver r) (r_ca r) (r_sigs r) (r_pushed_by r) (r_created_at r) t (r_pushed_at r).
Definition set_pushed_at (t : Z) (r : Row) : Row :=
  mkRow (r_store_path r) (r_name r) (r_nar_hash r) (r_nar_size r) (r_file_hash r) (r_file_size r)
    (r_deriver r) (r_ca r) (r_sigs r) (r_pushed_by r) (r_created_at r) (r_last_accessed_at r) t.

Definition update_sigs (db : Db) (hash : string) (sigs : list string) : Db :=
  update_row (set_sigs sigs) hash db.

Definition bump_row (now stale_after : Z) (r : Row) : Row :=
  if (r_last_accessed_at r <? now - stale_after)%Z then set_last_accessed now r else r.
Definition bump_last_accessed (db : Db) (hashes : list string) (now stale_after : Z) : Db :=
  foldl (λ db h, update_row (bump_row now stale_after) h db) db hashes.

(** [ORDER BY last_accessed_at DESC LIMIT 1]; SQL leaves ties open. *)
Definition mru_le : relation (string * Row) :=
  λ e f, (r_last_accessed_at f.2 ≤ r_last_accessed_at e.2)%Z.
#[export] Instance mru_le_dec : RelDecision mru_le.
Proof. intros e f. unfold mru_le. apply _. Defined.
Definition most_recently_accessed (db : Db) : option string :=
  fst <$> head (order_by mru_le (map_to_list (objects db))).

Definition PUSHED_AT_DEBOUNCE : Z := 3600.

(** Negotiation. The read pass splits [hashes] into the missing and the stale;
    the write pass, taken only when something is stale, touches the stale. *)
Definition missing_scan (db : Db) (now : Z) (acc : list string * list string) (hash : string)
    : list string * list string :=
  match r_pushed_at <$> objects db !! hash with
  | None => (acc.1 ++ [hash], acc.2)
  | Some at_ =>
      if (at_ <? now - PUSHED_AT_DEBOUNCE)%Z then (acc.1, acc.2 ++ [hash]) else acc
  end.

Definition missing (db : Db) (hashes : list string) (now : Z) : Db * list string :=
  let '(missing, stale) := foldl (missing_scan db now) ([], []) hashes in
  (foldl (λ db h, update_row (set_pushed_at now) h db) db stale, missing).

(** ** Well-formedness *)

(** What the schema's keys and the code's bookkeeping guarantee. *)
Record db_wf (db : Db) : Prop := {
  wf_total : total_bytes db = sum_file_size (objects db);
  wf_sizes : map_Forall (λ _ row, 0 ≤ r_file_size row)%Z (objects db);
  wf_refs : ∀ h r, (h, r) ∈ object_refs db → is_Some (objects db !! h);
  wf_pins : map_Forall (λ _ p, is_Some (objects db !! p_store_path_hash p)) (pins db);
}.

(** *** Sums *)

Lemma sum_file_size_empty : sum_file_size ∅ = 0%Z.
Proof. unfold sum_file_size. by rewrite map_fold_empty. Qed.

Lemma sum_file_size_insert rows h row :
  rows !! h = None → sum_file_size (<[h := row]> rows) = (r_file_size row + sum_file_size rows)%Z.
Proof.
  intros Hh. unfold sum_file_size. rewrite map_fold_insert_L; [done| |done].
  intros. lia.
Qed.

Lemma sum_file_size_delete rows h row :
  rows !! h = Some row → sum_file_size rows = (r_file_size row + sum_file_size (delete h rows))%Z.
Proof.
  intros Hh. rewrite <-(insert_delete_id rows h row) at 1 by done.
  by rewrite sum_file_size_insert by apply lookup_delete_eq.
Qed.

Lemma sum_file_size_overwrite rows h row :
  sum_file_size (<[h := row]> rows) =
    (sum_file_size rows + (r_file_size row - default 0 (r_file_size <$> rows !! h)))%Z.
Proof.
  destruct (rows !! h) as [old|] eqn:Hh; simpl.
  - rewrite <-insert_delete_eq, sum_file_size_insert by apply lookup_delete_eq.
    rewrite (sum_file_size_delete rows h old) by done. lia.
  - rewrite sum_file_size_insert by done. lia.
Qed.

Lemma sum_file_size_alter f rows h :
  (∀ r, r_file_size (f r) = r_file_size r) →
  sum_file_size (alter f h rows) = sum_file_size rows.
Proof.
  intros Hf. destruct (rows !! h) as [r|] eqn:Hh.
  - assert (alter f h rows = <[h := f r]> rows) as ->.
    { apply map_eq. intros i. rewrite lookup_alter, lookup_insert.
      case_decide; [subst; by rewrite Hh|done]. }
    rewrite sum_file_size_overwrite, Hh. simpl. rewrite Hf. lia.
  - assert (alter f h rows = rows) as ->; [|done].
    apply map_eq. intros i. rewrite lookup_alter. case_decide; [subst; by rewrite Hh|done].
Qed.

Lemma sum_file_size_nonneg rows :
  map_Forall (λ _ row, 0 ≤ r_file_size row)%Z rows → (0 ≤ sum_file_size rows)%Z.
Proof.
  induction rows as [|h row rows Hh IH] using map_ind.
  - by rewrite sum_file_size_empty.
  - rewrite map_Forall_insert by done. intros [? ?%IH]. rewrite sum_file_size_insert by done. lia.
Qed.

(** *** References *)

Lemma insert_refs_Ok h rs refs refs' :
  insert_refs h rs refs = Ok refs' ↔
  NoDup rs ∧ (∀ r, r ∈ rs → (h, r) ∉ refs) ∧
  refs' = list_to_set (pair h <$> rs) ∪ refs.
Proof.
  revert refs. induction rs as [|r rs IH]; intros refs; cbn [insert_refs].
  - split; [intros [= <-]|intros (_ & _ & ->)]; [|f_equal; set_solver].
    split; [apply NoDup_nil_2|split; set_solver].
  - rewrite NoDup_cons, fmap_cons, list_to_set_cons. case_bool_decide as Hin.
    + split; [done|]. intros (_ & H & _). exfalso. apply (H r); [set_solver|done].
    + rewrite IH. split.
      * intros (Hnd & Hr & ->). split_and!.
        -- intros Hi. apply (Hr r Hi). set_solver.
        -- done.
        -- intros r' [->|Hr']%elem_of_cons; [done|]. specialize (Hr r' Hr'). set_solver.
        -- set_solver.
      * intros ([Hi Hnd] & Hr & ->). split_and!; [done| |set_solver].
        intros r' Hr'. rewrite elem_of_union, elem_of_singleton.
        intros [[= ->]|Hx]; [done|]. apply (Hr r'); [set_solver|done].
Qed.

Lemma insert_refs_Err h rs refs :
  is_ok (insert_refs h rs refs) = false ↔
  ¬ (NoDup rs ∧ ∀ r, r ∈ rs → (h, r) ∉ refs).
Proof.
  split.
  - intros Hok [H1 H2]. assert (insert_refs h rs refs = Ok (list_to_set (pair h <$> rs) ∪ refs)) as E
      by by apply insert_refs_Ok. by rewrite E in Hok.
  - destruct (insert_refs h rs refs) as [refs'|] eqn:E; [|done].
    apply insert_refs_Ok in E as (H1 & H2 & _). intros H. exfalso. by apply H.
Qed.

Lemma references_of_elem db h r : r ∈ references_of db h ↔ (h, r) ∈ object_refs db.
Proof.
  unfold references_of. rewrite elem_of_order_by. rewrite list_elem_of_fmap. split.
  - intros ([h' r'] & -> & Hin). apply elem_of_elements, elem_of_filter in Hin as [Hh Hin].
    simpl in *. by subst.
  - intros Hin. exists (h, r). split; [done|]. apply elem_of_elements, elem_of_filter. done.
Qed.

Lemma NoDup_map_snd_same {A B} (l : list (A * B)) (a : A) :
  (∀ e, e ∈ l → e.1 = a) → NoDup l → NoDup (map snd l).
Proof.
  intros Ha Hnd. apply NoDup_fmap_2_strong; [|done].
  intros [x y] [x' y'] Hx Hy. simpl. intros ->.
  pose proof (Ha _ Hx). pose proof (Ha _ Hy). by simplify_eq/=.
Qed.

Lemma references_of_nodup db h : NoDup (references_of db h).
Proof.
  unfold references_of. rewrite order_by_perm. apply (NoDup_map_snd_same _ h).
  - intros e He%elem_of_elements%elem_of_filter. by destruct He.
  - apply NoDup_elements.
Qed.

Lemma references_of_sorted db h : Sorted String.le (references_of db h).
Proof. apply (Sorted_merge_sort String.le). Qed.

(** A sorted, duplicate-free list of references is what comes back. *)
Lemma references_of_unique db h rs :
  NoDup rs → (∀ r, (h, r) ∈ object_refs db ↔ r ∈ rs) →
  references_of db h = order_by String.le rs.
Proof.
  intros Hnd Hrs. apply (Sorted_unique String.le).
  - apply references_of_sorted.
  - apply (Sorted_merge_sort String.le).
  - rewrite order_by_perm. apply NoDup_Permutation; [apply references_of_nodup|done|].
    intros r. by rewrite references_of_elem, Hrs.
Qed.

(** *** Every write keeps the tables well-formed *)

Lemma db_wf_empty : db_wf db_empty.
Proof. split; simpl; [by rewrite sum_file_size_empty|by intros ?| |by intros ?]. set_solver. Qed.

Lemma file_size_Some db h s :
  file_size db h = Some s ↔ ∃ row, objects db !! h = Some row ∧ r_file_size row = s.
Proof. unfold file_size. rewrite fmap_Some. naive_solver. Qed.

Lemma insert_object_Ok db obj now db' :
  insert_object db obj now = Ok db' →
  NoDup (o_references obj) ∧
  objects db' = <[o_store_path_hash obj := row_of_object obj now]> (objects db) ∧
  object_refs db' = list_to_set (pair (o_store_path_hash obj) <$> o_references obj)
    ∪ filter (λ r, r.1 ≠ o_store_path_hash obj) (object_refs db) ∧
  pins db' = pins db ∧
  total_bytes db' =
    (total_bytes db + (o_file_size obj
      - default 0 (r_file_size <$> objects db !! o_store_path_hash obj)))%Z.
Proof.
  unfold insert_object. destruct (insert_refs _ _ _) as [refs|] eqn:E; [|done].
  apply insert_refs_Ok in E as (Hnd & _ & ->). intros [= <-]. done.
Qed.

Lemma db_wf_insert db obj now db' :
  db_wf db → (0 ≤ o_file_size obj)%Z → insert_object db obj now = Ok db' → db_wf db'.
Proof.
  intros [Ht Hs Hr Hp] Hsz (Hnd & Ho & Hrefs & Hpins & Htot)%insert_object_Ok.
  split; rewrite ?Ho, ?Hpins.
  - by rewrite Htot, Ht, sum_file_size_overwrite.
  - by apply map_Forall_insert_2.
  - intros h r. rewrite Hrefs, elem_of_union, elem_of_list_to_set, list_elem_of_fmap, elem_of_filter.
    intros [(r' & [= -> ->] & _)|[_ Hin]].
    + by rewrite lookup_insert_eq.
    + destruct (decide (h = o_store_path_hash obj)) as [->|Hne].
      * by rewrite lookup_insert_eq.
      * rewrite lookup_insert_ne by done. by eapply Hr.
  - intros n p Hn. rewrite lookup_insert_is_Some'. right. by eapply Hp.
Qed.

Lemma db_wf_remove_row db h row :
  db_wf db → objects db !! h = Some row → db_wf (remove_row db h (r_file_size row)).
Proof.
  intros [Ht Hs Hr Hp] Hh. split; simpl.
  - rewrite Ht, (sum_file_size_delete _ _ _ Hh).
    assert (0 ≤ sum_file_size (delete h (objects db)))%Z; [|lia].
    apply sum_file_size_nonneg. by apply map_Forall_delete.
  - by apply map_Forall_delete.
  - intros h' r. rewrite elem_of_filter. simpl. intros [Hne Hin].
    rewrite lookup_delete_ne by done. by eapply Hr.
  - intros n p [Hn Hne]%map_lookup_filter_Some. simpl in Hne.
    rewrite lookup_delete_ne by done. by eapply Hp.
Qed.

Lemma db_wf_delete_object db h : db_wf db → db_wf (delete_object db h).1.
Proof.
  intros Hwf. unfold delete_object. destruct (file_size db h) as [s|] eqn:E; [|done].
  apply file_size_Some in E as (row & Hrow & <-). by apply db_wf_remove_row.
Qed.

Lemma db_wf_evict_object db h now : db_wf db → db_wf (evict_object db h now).1.
Proof.
  intros Hwf. unfold evict_object. destruct (objects db !! h) as [row|] eqn:E; [|done].
  case_bool_decide; [|done]. by apply db_wf_remove_row.
Qed.

Lemma db_wf_pin db n h e now db' : db_wf db → pin db n h e now = Ok db' → db_wf db'.
Proof.
  intros [Ht Hs Hr Hp]. unfold pin, exists_. case_bool_decide as Hh; [|done]. intros [= <-].
  split; simpl; try done. by apply map_Forall_insert_2.
Qed.

Lemma db_wf_unpin db n : db_wf db → db_wf (unpin db n).1.
Proof. intros [Ht Hs Hr Hp]. split; simpl; try done. by apply map_Forall_delete. Qed.

Lemma db_wf_reconcile db : db_wf db → db_wf (reconcile_total_bytes db).1.
Proof. by intros [Ht Hs Hr Hp]. Qed.

Lemma update_row_lookup f h db i :
  objects (update_row f h db) !! i =
    if decide (h = i) then f <$> objects db !! i else objects db !! i.
Proof. unfold update_row. simpl. rewrite lookup_alter. by case_decide; subst. Qed.

Lemma update_row_dom f h db i :
  is_Some (objects (update_row f h db) !! i) ↔ is_Some (objects db !! i).
Proof. rewrite update_row_lookup. case_decide; [by rewrite fmap_is_Some|done]. Qed.

Lemma db_wf_update_row f h db :
  (∀ r, r_file_size (f r) = r_file_size r) → db_wf db → db_wf (update_row f h db).
Proof.
  intros Hf [Ht Hs Hr Hp]. split.
  - simpl. by rewrite sum_file_size_alter.
  - intros i r. rewrite update_row_lookup. case_decide; [|by apply Hs].
    intros (r0 & Hr0 & ->)%fmap_Some. rewrite Hf. by eapply Hs.
  - intros i r Hin. apply update_row_dom. by eapply Hr.
  - intros n p Hn. apply update_row_dom. by eapply Hp.
Qed.

Lemma db_wf_update_rows f hs db :
  (∀ r, r_file_size (f r) = r_file_size r) → db_wf db →
  db_wf (foldl (λ db h, update_row f h db) db hs).
Proof.
  intros Hf. revert db. induction hs as [|h hs IH]; intros db Hwf; [done|].
  apply IH. by apply db_wf_update_row.
Qed.

Lemma db_wf_update_sigs db h sigs : db_wf db → db_wf (update_sigs db h sigs).
Proof. by apply db_wf_update_row. Qed.

Lemma bump_row_size now stale r : r_file_size (bump_row now stale r) = r_file_size r.
Proof. unfold bump_row. by destruct (_ <? _)%Z. Qed.

Lemma db_wf_bump db hs now stale : db_wf db → db_wf (bump_last_accessed db hs now stale).
Proof. apply db_wf_update_rows, bump_row_size. Qed.

Lemma db_wf_missing db hs now : db_wf db → db_wf (missing db hs now).1.
Proof.
  unfold missing. destruct (foldl _ _ _) as [m st]. by apply db_wf_update_rows.
Qed.

#[export] Hint Resolve db_wf_empty db_wf_insert db_wf_remove_row db_wf_delete_object
  db_wf_evict_object db_wf_pin db_wf_unpin db_wf_reconcile db_wf_update_sigs db_wf_bump
  db_wf_missing : garret.

(** *** What a row update leaves alone *)

Lemma update_rows_lookup f hs db i :
  objects (foldl (λ db h, update_row f h db) db hs) !! i =
    Nat.iter (length (filter (i =.) hs)) (fmap f) (objects db !! i).
Proof.
  revert db. induction hs as [|h hs IH]; intros db; [done|].
  cbn [foldl]. rewrite IH, update_row_lookup, filter_cons.
  destruct (decide (h = i)) as [->|Hne].
  - rewrite decide_True by done. cbn [length]. by rewrite Nat.iter_succ_r.
  - by rewrite decide_False by done.
Qed.

Lemma update_rows_idem f hs db i :
  (∀ r, f (f r) = f r) →
  objects (foldl (λ db h, update_row f h db) db hs) !! i =
    if decide (i ∈ hs) then f <$> objects db !! i else objects db !! i.
Proof.
  intros Hf. rewrite update_rows_lookup. case_decide as Hi.
  - assert (∃ n, length (filter (i =.) hs) = S n) as [n ->].
    { assert (i ∈ filter (i =.) hs) as H by by apply list_elem_of_filter.
      destruct (filter (i =.) hs); [by apply elem_of_nil in H|]. by eexists. }
    induction n as [|n IH]; [done|]. rewrite Nat.iter_succ, IH.
    destruct (objects db !! i); simpl; [by rewrite Hf|done].
  - destruct (filter (i =.) hs) as [|x l] eqn:E; [done|]. exfalso. apply Hi.
    assert (x ∈ filter (i =.) hs) as [<- ?]%list_elem_of_filter by (rewrite E; by left). done.
Qed.

Lemma update_rows_refs f hs db :
  object_refs (foldl (λ db h, update_row f h db) db hs) = object_refs db ∧
  pins (foldl (λ db h, update_row f h db) db hs) = pins db ∧
  total_bytes (foldl (λ db h, update_row f h db) db hs) = total_bytes db.
Proof.
  revert db. induction hs as [|h hs IH]; intros db; [done|]. cbn [foldl].
  destruct (IH (update_row f h db)) as (-> & -> & ->). done.
Qed.

(** ** Reading back what was written *)

Lemma insert_object_is_ok db obj now :
  is_ok (insert_object db obj now) = bool_decide (NoDup (o_references obj)).
Proof.
  unfold insert_object.
  set (refs := filter (λ r, r.1 ≠ o_store_path_hash obj) (object_refs db)).
  assert (Hfresh : ∀ r, r ∈ o_references obj → (o_store_path_hash obj, r) ∉ refs).
  { intros r _ [Hne _]%elem_of_filter. by apply Hne. }
  destruct (insert_refs _ _ refs) as [refs'|e] eqn:E; simpl; symmetry.
  - apply insert_refs_Ok in E as (Hnd & _). by apply bool_decide_eq_true.
  - apply bool_decide_eq_false. intros Hnd.
    assert (is_ok (insert_refs (o_store_path_hash obj) (o_references obj) refs) = false) as Hf
      by by rewrite E.
    apply insert_refs_Err in Hf. by apply Hf.
Qed.

Lemma references_of_insert db obj now db' h :
  insert_object db obj now = Ok db' →
  references_of db' h =
    if decide (h = o_store_path_hash obj) then order_by String.le (o_references obj)
    else references_of db h.
Proof.
  intros (Hnd & _ & Hrefs & _)%insert_object_Ok. case_decide as Hh.
  - subst h. apply references_of_unique; [done|]. intros r.
    rewrite Hrefs, elem_of_union, elem_of_list_to_set, list_elem_of_fmap, elem_of_filter.
    simpl. naive_solver.
  - rewrite <-(order_by_id String.le (references_of db h)) by apply references_of_sorted.
    apply references_of_unique; [apply references_of_nodup|]. intros r.
    rewrite references_of_elem, Hrefs, elem_of_union, elem_of_list_to_set,
      list_elem_of_fmap, elem_of_filter. simpl. naive_solver.
Qed.

(** [obj] as the database gives it back: its references in order. *)
Definition with_sorted_refs (obj : Object) : Object :=
  mkObject (o_store_path_hash obj) (o_store_path obj) (o_name obj) (o_nar_hash obj)
    (o_nar_size obj) (o_file_hash obj) (o_file_size obj) (o_deriver obj) (o_ca obj)
    (order_by String.le (o_references obj)) (o_sigs obj) (o_pushed_by obj).

Lemma with_sorted_refs_id obj :
  Sorted String.le (o_references obj) → with_sorted_refs obj = obj.
Proof. intros Hs. unfold with_sorted_refs. rewrite (order_by_id String.le) by done. by destruct obj. Qed.

(** ** Negotiation *)

(** A present row whose [pushed_at] is due for a refresh. *)
Definition stale (db : Db) (now : Z) (h : string) : Prop :=
  match objects db !! h with
  | Some row => (r_pushed_at row < now - PUSHED_AT_DEBOUNCE)%Z
  | None => False
  end.
#[export] Instance stale_dec db now h : Decision (stale db now h).
Proof. unfold stale. destruct (objects db !! h); apply _. Defined.

Lemma missing_scan_fold db now hs m0 s0 :
  foldl (missing_scan db now) (m0, s0) hs =
    (m0 ++ filter (λ h, objects db !! h = None) hs, s0 ++ filter (stale db now) hs).
Proof.
  revert m0 s0. induction hs as [|h hs IH]; intros m0 s0; [by rewrite !app_nil_r|].
  cbn [foldl]. rewrite !filter_cons. unfold missing_scan at 2. cbn [fst snd].
  assert (stale db now h ↔ ∃ row, objects db !! h = Some row ∧
    (r_pushed_at row < now - PUSHED_AT_DEBOUNCE)%Z) as Hst.
  { unfold stale. destruct (objects db !! h); naive_solver. }
  destruct (objects db !! h) as [row|] eqn:E; cbn [fmap option_fmap option_map].
  - rewrite (decide_False (P := Some row = None)) by done.
    destruct (Z.ltb_spec (r_pushed_at row) (now - PUSHED_AT_DEBOUNCE)).
    + rewrite IH, decide_True by (apply Hst; eauto). by rewrite <-app_assoc.
    + rewrite IH, decide_False; [done|]. rewrite Hst. intros (r' & [= <-] & ?). lia.
  - rewrite IH, decide_True by done. rewrite decide_False by (rewrite Hst; naive_solver).
    by rewrite <-app_assoc.
Qed.

Lemma set_pushed_at_idem t r : set_pushed_at t (set_pushed_at t r) = set_pushed_at t r.
Proof. done. Qed.

Lemma missing_spec db hs now :
  (missing db hs now).2 = filter (λ h, objects db !! h = None) hs ∧
  (∀ i, objects (missing db hs now).1 !! i =
    if decide (i ∈ hs ∧ stale db now i)
    then set_pushed_at now <$> objects db !! i else objects db !! i) ∧
  object_refs (missing db hs now).1 = object_refs db ∧
  pins (missing db hs now).1 = pins db ∧
  total_bytes (missing db hs now).1 = total_bytes db.
Proof.
  unfold missing. rewrite missing_scan_fold. cbn [app fst snd].
  pose proof (update_rows_refs (set_pushed_at now) (filter (stale db now) hs) db) as (Hr & Hp & Ht).
  split_and!; try done. intros i. rewrite update_rows_idem by apply set_pushed_at_idem.
  assert (i ∈ filter (stale db now) hs ↔ i ∈ hs ∧ stale db now i) as Hiff
    by (rewrite list_elem_of_filter; naive_solver).
  repeat case_decide; naive_solver.
Qed.

(** ** Eviction keeps closures whole *)

Definition present (db : Db) (h : string) : Prop := is_Some (objects db !! h).
Definition ref_edge (db : Db) (h h' : string) : Prop :=
  ∃ r, (h, r) ∈ object_refs db ∧ reference_hash r = h'.

(** [x] belongs to the part of [root]'s closure that the cache holds. *)
Definition in_closure (db : Db) : string → string → Prop :=
  rtc (λ a b, ref_edge db a b ∧ present db b).

(** [db'] is [db] with some objects removed, cascades included, and no object
    that stays loses a reference the cache held. *)
Record shrinks (db db' : Db) : Prop := {
  sh_rows : objects db' ⊆ objects db;
  sh_refs : ∀ h r, (h, r) ∈ object_refs db' ↔ (h, r) ∈ object_refs db ∧ present db' h;
  sh_pins : ∀ n p, pins db' !! n = Some p ↔
    pins db !! n = Some p ∧ present db' (p_store_path_hash p);
  sh_closed : ∀ h h', present db' h → ref_edge db h h' → present db h' → present db' h';
}.

Lemma shrinks_present db db' h : shrinks db db' → present db' h → present db h.
Proof. intros Hs [row Hr]. exists row. by eapply lookup_weaken, sh_rows. Qed.

Lemma shrinks_refl db : db_wf db → shrinks db db.
Proof.
  intros [_ _ Hr Hp]. split; try done.
  - intros h r. split; [|tauto]. intros Hin. split; [done|]. by eapply Hr.
  - intros n p. split; [|tauto]. intros Hn. split; [done|]. by eapply Hp.
Qed.

Lemma shrinks_edge db db' h h' :
  shrinks db db' → ref_edge db' h h' ↔ ref_edge db h h' ∧ present db' h.
Proof.
  intros [_ Hr _ _]. unfold ref_edge. split.
  - intros (r & [? ?]%Hr & ?). eauto.
  - intros ((r & ? & ?) & ?). exists r. split; [|done]. by apply Hr.
Qed.

Lemma shrinks_trans db1 db2 db3 : shrinks db1 db2 → shrinks db2 db3 → shrinks db1 db3.
Proof.
  intros H1 H2. pose proof shrinks_present as Hp. split.
  - etrans; [apply H2|apply H1].
  - intros h r. rewrite (sh_refs _ _ H2), (sh_refs _ _ H1). split; [tauto|].
    intros [? ?]. split_and!; try done. by eapply Hp.
  - intros n p. rewrite (sh_pins _ _ H2), (sh_pins _ _ H1). split; [tauto|].
    intros [? ?]. split_and!; try done. by eapply Hp.
  - intros h h' H3 He Hb. pose proof (Hp _ _ _ H2 H3) as Hh2.
    apply (sh_closed _ _ H2 h h' H3).
    + by apply (shrinks_edge _ _ _ _ H1).
    + by eapply (sh_closed _ _ H1).
Qed.

Lemma shrinks_closure db db' root x :
  shrinks db db' → present db' root → in_closure db root x →
  present db' x ∧ in_closure db' root x.
Proof.
  intros Hs Hroot Hc. revert Hroot. induction Hc as [|a b c [He Hb] _ IH].
  - intros Hr. split; [done|apply rtc_refl].
  - intros Ha. assert (present db' b) as Hb' by by eapply (sh_closed _ _ Hs).
    destruct (IH Hb') as [? ?]. split; [done|]. eapply rtc_l; [|done].
    split; [|done]. by apply (shrinks_edge _ _ _ _ Hs).
Qed.

Lemma shrinks_row db db' h row : shrinks db db' → objects db' !! h = Some row → objects db !! h = Some row.
Proof. intros Hs Hh. by eapply lookup_weaken, sh_rows. Qed.

Lemma remove_row_present db h size i :
  present (remove_row db h size) i ↔ i ≠ h ∧ present db i.
Proof.
  unfold present. simpl. rewrite lookup_delete_is_Some. naive_solver.
Qed.

(** Removing one row no other row refers to shrinks the cache. *)
Lemma remove_row_shrinks db h size :
  db_wf db → (∀ a, ref_edge db a h → a = h) → shrinks db (remove_row db h size).
Proof.
  intros [_ _ Hr Hp] Hno. split.
  - simpl. apply delete_subseteq.
  - intros a r. rewrite remove_row_present. simpl. rewrite elem_of_filter. simpl. split.
    + intros [? Hin]. split_and!; try done. by eapply Hr.
    + naive_solver.
  - intros n p. rewrite remove_row_present. simpl. rewrite map_lookup_filter_Some. simpl. split.
    + intros [Hn ?]. split_and!; try done. by eapply Hp.
    + naive_solver.
  - intros a b. rewrite !remove_row_present. intros [Ha _] He Hb. split; [|done].
    intros ->. by apply Ha, Hno.
Qed.

Lemma evictable_where_edges db now grace h row :
  evictable_where db now grace h row → ∀ a, ref_edge db a h → a = h.
Proof.
  intros (Hr & _) a (r & Hin & Hh). destruct (decide (a = h)) as [|Hne]; [done|].
  exfalso. apply Hr. exists (a, r). done.
Qed.

Lemma evict_object_cases db h now :
  (∃ row, objects db !! h = Some row ∧ evictable_where db now PUSH_GRACE h row ∧
    evict_object db h now = (remove_row db h (r_file_size row), Some (r_file_size row))) ∨
  evict_object db h now = (db, None).
Proof.
  unfold evict_object. destruct (objects db !! h) as [row|] eqn:E; [|by right].
  case_bool_decide; [left; eauto|by right].
Qed.

Lemma evict_object_shrinks db h now : db_wf db → shrinks db (evict_object db h now).1.
Proof.
  intros Hwf. destruct (evict_object_cases db h now) as [(row & Hrow & He & ->)| ->].
  - apply remove_row_shrinks; [done|]. by eapply evictable_where_edges.
  - by apply shrinks_refl.
Qed.

(** What eviction at [now] may not remove. *)
Definition pinned_live (db : Db) (now : Z) (h : string) : Prop :=
  ∃ n p, pins db !! n = Some p ∧ p_store_path_hash p = h ∧ pin_live now p.

Lemma evict_object_protected db h now i :
  present db i →
  pinned_live db now i ∨ (∃ row, objects db !! i = Some row ∧ (now - PUSH_GRACE ≤ r_pushed_at row)%Z) →
  present (evict_object db h now).1 i.
Proof.
  intros Hi Hprot. destruct (evict_object_cases db h now) as [(row & Hrow & He & ->)| ->]; [|done].
  apply remove_row_present. split; [|done]. intros ->. destruct He as (_ & Hpin & Hold).
  destruct Hprot as [(n & p & Hn & Hp & Hl)|(row' & Hrow' & Hge)].
  - apply Hpin. exists n, p. done.
  - simplify_eq. lia.
Qed.

(** ** Eviction candidates *)

(** [c] is what [evictable] lists: a row that may go, with its size. *)
Definition candidate (db : Db) (now : Z) (c : string * Z) : Prop :=
  ∃ row, objects db !! c.1 = Some row ∧ r_file_size row = c.2 ∧
    evictable_where db now PUSH_GRACE c.1 row.

Lemma evictable_rows_elem db now e :
  e ∈ filter (λ e, evictable_where db now PUSH_GRACE e.1 e.2) (map_to_list (objects db)) ↔
  objects db !! e.1 = Some e.2 ∧ evictable_where db now PUSH_GRACE e.1 e.2.
Proof. rewrite list_elem_of_filter. destruct e. rewrite elem_of_map_to_list. naive_solver. Qed.

Lemma evictable_candidate db limit now c : c ∈ evictable db limit now → candidate db now c.
Proof.
  unfold evictable. intros (e & -> & He)%list_elem_of_fmap.
  apply list_elem_of_lookup in He as [i [He _]%lookup_take_Some].
  apply list_elem_of_lookup_2, elem_of_order_by, evictable_rows_elem in He as [Hr He].
  by exists e.2.
Qed.

Lemma evictable_nodup db limit now : NoDup (map fst (evictable db limit now)).
Proof.
  unfold evictable. rewrite map_map.
  rewrite (map_ext (λ x : string * Row, (x.1, r_file_size x.2).1) fst) by done.
  change (map fst) with (fmap (M := list) (@fst string Row)). rewrite fmap_take.
  eapply sublist_NoDup; [|apply sublist_take].
  rewrite order_by_perm. eapply sublist_NoDup; [apply (fin_maps.NoDup_fst_map_to_list (objects db))|].
  apply fmap_sublist, sublist_filter.
Qed.

Lemma lru_le_sorted (l : list (string * Row)) : StronglySorted (λ e f, r_last_accessed_at e.2 ≤ r_last_accessed_at f.2)%Z (order_by lru_le l).
Proof.
  assert (Total lru_le).
  { intros x y. unfold lru_le, lex_le. destruct (Z.lt_total (r_last_accessed_at x.2) (r_last_accessed_at y.2)) as [?|[?|?]];
      [by left; left| |by right; left]. destruct (total String.le x.1 y.1); [left|right]; right; by split. }
  assert (Hs : Sorted (λ e f, r_last_accessed_at e.2 ≤ r_last_accessed_at f.2)%Z (order_by lru_le l)).
  { assert (Hsub : ∀ l, Sorted lru_le l → Sorted (λ e f, r_last_accessed_at e.2 ≤ r_last_accessed_at f.2)%Z l).
    { intros l'. induction 1 as [|x l' _ IH Hhd]; constructor; [done|]. destruct Hhd as [|y l' [?|[? _]]]; constructor; lia. }
    apply Hsub, (Sorted_merge_sort lru_le). }
  apply Sorted_StronglySorted; [|done]. intros x y z ? ?. by etrans.
Qed.

(** The query takes the least recently used rows that may go. *)
Lemma evictable_first db limit now h row :
  objects db !! h = Some row → evictable_where db now PUSH_GRACE h row →
  h ∈ map fst (evictable db limit now) ∨
  length (evictable db limit now) = limit ∧
    ∀ c crow, c ∈ evictable db limit now → objects db !! c.1 = Some crow →
      (r_last_accessed_at crow ≤ r_last_accessed_at row)%Z.
Proof.
  intros Hrow He. unfold evictable. set (rows := filter _ _). pose proof (lru_le_sorted rows) as Hs.
  assert (Hin : (h, row) ∈ order_by lru_le rows) by (by apply elem_of_order_by, evictable_rows_elem).
  assert (Hrows : ∀ e, e ∈ order_by lru_le rows → objects db !! e.1 = Some e.2).
  { intros e Hel%elem_of_order_by. by apply evictable_rows_elem in Hel as [? _]. }
  rewrite <-(take_drop limit (order_by lru_le rows)) in Hs, Hin, Hrows. apply elem_of_app in Hin as [Hin|Hin].
  - left. rewrite map_map. apply list_elem_of_fmap. by exists (h, row).
  - right. apply StronglySorted_app in Hs as (Hle & _ & _). split.
    + rewrite length_map, length_take. assert (Hlen : 0 < length (drop limit (order_by lru_le rows)))
        by (destruct (drop _ _); [by apply elem_of_nil in Hin|cbn; lia]). rewrite length_drop in Hlen. lia.
    + intros c crow (e & -> & Hel)%list_elem_of_fmap Hc. cbn in Hc. specialize (Hle _ _ Hel Hin). cbn in Hle.
      rewrite (Hrows e) in Hc by (apply elem_of_app; by left). by simplify_eq.
Qed.

(** The query comes back empty only when nothing may go. *)
Lemma evictable_nil db limit now :
  limit ≠ 0 → evictable db limit now = [] →
  ∀ h row, objects db !! h = Some row → ¬ evictable_where db now PUSH_GRACE h row.
Proof.
  intros Hl Hnil h row Hrow He. unfold evictable in Hnil. apply map_eq_nil in Hnil.
  set (rows := order_by _ _) in Hnil.
  assert ((h, row) ∈ rows) as Hin by by apply elem_of_order_by, evictable_rows_elem.
  destruct rows; [by apply elem_of_nil in Hin|]. by destruct limit.
Qed.

(** Evicting one candidate leaves the others candidates. *)
Lemma candidate_remove db now h size c :
  c.1 ≠ h → candidate db now c → candidate (remove_row db h size) now c.
Proof.
  intros Hne (row & Hrow & Hsz & Href & Hpin & Hold). exists row. split_and!; [|done|].
  - simpl. by rewrite lookup_delete_ne.
  - split_and!; [| |done].
    + intros (r & [_ Hin]%elem_of_filter & Hr). apply Href. by exists r.
    + intros (n & p & [Hn _]%map_lookup_filter_Some & Hp). apply Hpin. by exists n, p.
Qed.

Lemma candidate_evict db now c :
  candidate db now c → evict_object db c.1 now = (remove_row db c.1 c.2, Some c.2).
Proof.
  intros (row & Hrow & Hsz & He). unfold evict_object. rewrite Hrow, bool_decide_eq_true_2 by done.
  by rewrite Hsz.
Qed.

Lemma remove_row_count db h bytes :
  present db h → size (objects db) = S (size (objects (remove_row db h bytes))).
Proof.
  intros [row Hrow]. simpl. rewrite <-(map_size_insert_None h row) by apply lookup_delete_eq.
  by rewrite insert_delete_id.
Qed.

Lemma remove_row_total db c now :
  db_wf db → candidate db now c → total_bytes (remove_row db c.1 c.2) = (total_bytes db - c.2)%Z ∧
  (0 ≤ c.2)%Z.
Proof.
  intros Hwf (row & Hrow & <- & _). pose proof (db_wf_remove_row db c.1 row Hwf Hrow) as Hwf'.
  rewrite (wf_total _ Hwf'), (wf_total _ Hwf). simpl. rewrite (sum_file_size_delete _ _ _ Hrow).
  split; [lia|]. by apply (wf_sizes _ Hwf c.1).
Qed.

(** *** Well-formedness is decidable, and an example *)

Lemma db_wf_alt db :
  db_wf db ↔
    total_bytes db = sum_file_size (objects db) ∧
    map_Forall (λ _ row, 0 ≤ r_file_size row)%Z (objects db) ∧
    set_Forall (λ e, is_Some (objects db !! e.1)) (object_refs db) ∧
    map_Forall (λ _ p, is_Some (objects db !! p_store_path_hash p)) (pins db).
Proof.
  split.
  - intros [? ? Hr ?]. split_and!; try done. intros [h r] Hin. by eapply Hr.
  - intros (? & ? & Hr & ?). split; try done. intros h r Hin. by apply (Hr (h, r)).
Qed.

#[export] Instance db_wf_dec db : Decision (db_wf db).
Proof.
  refine (cast_if (decide (total_bytes db = sum_file_size (objects db) ∧
    map_Forall (λ _ row, 0 ≤ r_file_size row)%Z (objects db) ∧
    set_Forall (λ e, is_Some (objects db !! e.1)) (object_refs db) ∧
    map_Forall (λ _ p, is_Some (objects db !! p_store_path_hash p)) (pins db))));
    by rewrite db_wf_alt.
Defined.

(** [root], pushed long ago, refers to [leaf]; [kept] is pinned. *)
Definition example_row (name : string) (size pushed_at : Z) : Row :=
  mkRow ("/nix/store/" +:+ name) name "sha256:n" 1 "f" size None None [] (Some "ci")
    pushed_at pushed_at pushed_at.
Definition example_db : Db :=
  mkDb {["root" := example_row "root" 10 0; "leaf" := example_row "leaf" 7 0;
         "kept" := example_row "kept" 5 0]}
    {[("root", "leaf"); ("root", "root")]} {["release" := mkPin "kept" None 0]} 22.

Lemma example_db_wf : db_wf example_db.
Proof. by_decision. Qed.
