(* ===== verification/Prune.v ===== *)
(** * Prune: marking and deleting old closures

    The prune half of [crates/garret-server/src/db.rs]: [prunable] (the
    recursive mark), [referrers_first] (Kahn's algorithm with a stack) and
    [delete_pruned] (batched deletes). *)

From S2P Require Import Prelude Text Common Kahn Db.

(** ** Operations *)

Definition PRUNE_BATCH : nat := 500.

(** The two base cases of the recursive [keep] table. *)
Definition keep_roots (db : Db) (before now : Z) : gset string :=
  dom (filter (λ e, (before ≤ r_pushed_at e.2)%Z) (objects db)) ∪
  list_to_set (map (λ e, p_store_path_hash e.2)
    (map_to_list (filter (λ e, pin_live now e.2) (pins db)))).

(** Its recursive case: one join of [object_refs] with the table so far. *)
Definition keep_next (db : Db) (keep : gset string) : gset string :=
  keep ∪ set_map (λ r, reference_hash r.2) (filter (λ r, r.1 ∈ keep) (object_refs db)).

(** [UNION] recursion runs until nothing is new: at most once per hash named. *)
Definition keep_bound (db : Db) (roots : gset string) : gset string :=
  roots ∪ set_map (λ r, reference_hash r.2) (object_refs db).
Definition keep (db : Db) (before now : Z) : gset string :=
  let roots := keep_roots db before now in
  Nat.iter (size (keep_bound db roots)) (keep_next db) roots.

(** [ORDER BY name, store_path_hash]. *)
Definition brief_name_le : relation ObjectBrief := λ x y,
  (b_name x ≠ b_name y ∧ String.le (b_name x) (b_name y)) ∨
  (b_name x = b_name y ∧ String.le (b_store_path_hash x) (b_store_path_hash y)).
#[export] Instance brief_name_le_dec : RelDecision brief_name_le.
Proof. intros x y. unfold brief_name_le. apply _. Defined.

Definition prunable (db : Db) (before now : Z) : Result (list ObjectBrief) string :=
  if (before <=? now - PUSH_GRACE)%Z then
    Ok (order_by brief_name_le
          (map brief_from_row
            (filter (λ e, e.1 ∉ keep db before now) (map_to_list (objects db)))))
  else Err "the cutoff must be at least 24 hours ago, so a push in progress keeps its closure".

(** [doomed]'s [HashMap] from hash to index. *)
Definition doomed_edges (db : Db) (doomed : list ObjectBrief) : list (nat * nat) :=
  let index := index_of b_store_path_hash doomed in
  concat (imap (λ i object,
    omap (λ reference,
      match index !! reference_hash reference with
      | Some j => if decide (j ≠ i) then Some (i, j) else None
      | None => None
      end) (references_of db (b_store_path_hash object))) doomed).

(** [Vec::pop]. *)
Definition pop {A} (l : list A) : option (A * list A) :=
  match reverse l with [] => None | x :: l => Some (x, reverse l) end.

(** [while let Some(i) = ready.pop()]. *)
Fixpoint place_stack (fuel : nat) (succs : list (list nat)) (waiting ready order : list nat)
    : list nat :=
  match fuel with
  | 0 => order
  | S fuel =>
      match pop ready with
      | None => order
      | Some (i, ready) =>
          let '(waiting, fresh) := relax waiting (succ_of succs i) in
          place_stack fuel succs waiting (ready ++ fresh) (order ++ [i])
      end
  end.

Definition referrers_first (db : Db) (doomed : list ObjectBrief) : Result (list nat) string :=
  let n := length doomed in
  let '(references, referrers) := build_graph n (doomed_edges db doomed) in
  let order := place_stack (S n) references referrers (sources referrers) [] in
  if length order =? n then Ok order
  else Err "reference cycle among objects to prune; nothing deleted".

(** One write transaction: delete the batch's rows, then debit their sizes. *)
Definition delete_batch (doomed : list ObjectBrief) (db : Db) (batch : list nat) : Db :=
  let rows := omap (λ i, doomed !! i) batch in
  debit (foldl delete_row db (map b_store_path_hash rows)) (sum_Z (map b_file_size rows)).

(** The database after each commit, the starting one first. *)
Fixpoint prune_commits (doomed : list ObjectBrief) (batches : list (list nat)) (db : Db) : list Db :=
  db :: match batches with
        | [] => []
        | batch :: batches => prune_commits doomed batches (delete_batch doomed db batch)
        end.

Definition delete_pruned (db : Db) (doomed : list ObjectBrief) : Result Db string :=
  let? order := referrers_first db doomed in
  Ok (foldl (delete_batch doomed) db (chunks PRUNE_BATCH order)).

(** ** The mark *)

Lemma keep_next_incl db X : X ⊆ keep_next db X.
Proof. unfold keep_next. set_solver. Qed.

Lemma iter_fixpoint {A} `{Countable A} (f : gset A → gset A) (U : gset A) n X :
  (∀ X, X ⊆ f X) → (∀ X, X ⊆ U → f X ⊆ U) → X ⊆ U → size U ≤ size X + n →
  f (Nat.iter n f X) = Nat.iter n f X.
Proof.
  intros Hinc HU. revert X. induction n as [|n IH]; intros X HX Hsz.
  - simpl. assert (X = U) as -> by (apply set_subseteq_size_eq; [done|lia]).
    apply set_eq_subseteq. split; [by apply HU|apply Hinc].
  - rewrite !Nat.iter_succ_r. destruct (decide (f X = X)) as [Heq|Hne].
    + rewrite Heq. assert (∀ m, Nat.iter m f X = X) as Hfix.
      { induction m as [|m IHm]; [done|]. simpl. by rewrite IHm. }
      by rewrite !Hfix.
    + apply IH; [by apply HU|]. assert (size X < size (f X)); [|lia].
      pose proof (subseteq_size X (f X) (Hinc X)). apply Nat.le_neq. split; [done|].
      intros Hsz'. apply Hne. symmetry. apply set_subseteq_size_eq; [apply Hinc|lia].
Qed.

Lemma keep_closed db before now : keep_next db (keep db before now) = keep db before now.
Proof.
  unfold keep. set (roots := keep_roots db before now).
  apply iter_fixpoint with (U := keep_bound db roots).
  - apply keep_next_incl.
  - intros X HX. unfold keep_next, keep_bound in *. set_solver.
  - unfold keep_bound. set_solver.
  - lia.
Qed.

Lemma keep_roots_incl db before now : keep_roots db before now ⊆ keep db before now.
Proof.
  unfold keep. generalize (size (keep_bound db (keep_roots db before now))). intros n.
  induction n as [|n IH]; [done|]. rewrite Nat.iter_succ. etrans; [done|apply keep_next_incl].
Qed.

Lemma elem_of_keep_next db X x :
  x ∈ keep_next db X ↔ x ∈ X ∨ ∃ h, h ∈ X ∧ ref_edge db h x.
Proof.
  unfold keep_next, ref_edge. rewrite elem_of_union, elem_of_map. split.
  - intros [?|([h r] & -> & [Hh Hin]%elem_of_filter)]; [by left|right]. simpl in *. eauto.
  - intros [?|(h & Hh & r & Hin & <-)]; [by left|right].
    exists (h, r). split; [done|]. by apply elem_of_filter.
Qed.

(** The executable mark is reachability from the roots that stay. *)
Lemma elem_of_keep db before now x :
  x ∈ keep db before now ↔
  ∃ root, root ∈ keep_roots db before now ∧ rtc (ref_edge db) root x.
Proof.
  split.
  - unfold keep. generalize (size (keep_bound db (keep_roots db before now))). intros n.
    revert x. induction n as [|n IH]; intros x; simpl.
    + intros Hx. exists x. split; [done|apply rtc_refl].
    + rewrite elem_of_keep_next. intros [Hx|(h & Hh & He)]; [by apply IH|].
      destruct (IH h Hh) as (root & ? & ?). exists root. split; [done|]. by eapply rtc_r.
  - intros (root & Hroot & Hr). apply (keep_roots_incl db before now) in Hroot.
    revert Hroot. induction Hr as [|a b c He _ IH]; [done|]. intros Ha. apply IH.
    rewrite <-keep_closed. apply elem_of_keep_next. right. eauto.
Qed.

Lemma elem_of_keep_roots db before now x :
  x ∈ keep_roots db before now ↔
  (∃ row, objects db !! x = Some row ∧ (before ≤ r_pushed_at row)%Z) ∨ pinned_live db now x.
Proof.
  unfold keep_roots, pinned_live. rewrite elem_of_union, elem_of_dom, elem_of_list_to_set.
  rewrite list_elem_of_fmap. split.
  - intros [[row [? ?]%map_lookup_filter_Some]|([n p] & -> & Hin)]; [left; eauto|right].
    apply elem_of_map_to_list, map_lookup_filter_Some in Hin as [? ?]. simpl in *. eauto.
  - intros [(row & ? & ?)|(n & p & Hn & <- & Hl)]; [left|right].
    + exists row. by apply map_lookup_filter_Some.
    + exists (n, p). split; [done|]. by apply elem_of_map_to_list, map_lookup_filter_Some.
Qed.

(** A kept object is a root, or another kept object refers to it. *)
Lemma keep_inv db before now x :
  x ∈ keep db before now →
  x ∈ keep_roots db before now ∨
  ∃ a, a ∈ keep db before now ∧ a ≠ x ∧ ref_edge db a x.
Proof.
  intros (root & Hroot & Hr)%elem_of_keep.
  revert x Hr. refine (rtc_ind_r _ root _ _); [by left|]. intros a x Hra He IH.
  destruct (decide (a = x)) as [->|Hne]; [done|]. right. exists a. split_and!; [|done|done].
  apply elem_of_keep. eauto.
Qed.

Lemma keep_edge db before now a x :
  a ∈ keep db before now → ref_edge db a x → x ∈ keep db before now.
Proof.
  intros Ha He. rewrite <-keep_closed. apply elem_of_keep_next. eauto.
Qed.

(** ** What [prunable] returns *)

#[export] Instance brief_name_le_total : Total brief_name_le.
Proof.
  intros x y. unfold brief_name_le.
  destruct (decide (b_name x = b_name y)) as [E|E].
  - destruct (total String.le (b_store_path_hash x) (b_store_path_hash y)); naive_solver.
  - destruct (total String.le (b_name x) (b_name y)); naive_solver.
Qed.

Lemma prunable_Ok db before now doomed :
  prunable db before now = Ok doomed →
  (before ≤ now - PUSH_GRACE)%Z ∧
  doomed ≡ₚ map brief_from_row
    (filter (λ e, e.1 ∉ keep db before now) (map_to_list (objects db))).
Proof.
  unfold prunable. destruct (Z.leb_spec before (now - PUSH_GRACE)); [|done].
  intros [= <-]. split; [done|apply order_by_perm].
Qed.

(** A brief that lists a row of [db]. *)
Definition lists_row (db : Db) (b : ObjectBrief) : Prop :=
  ∃ row, objects db !! b_store_path_hash b = Some row ∧ b = brief_from_row (b_store_path_hash b, row).

Lemma prunable_elem db before now doomed b :
  prunable db before now = Ok doomed →
  b ∈ doomed ↔ lists_row db b ∧ b_store_path_hash b ∉ keep db before now.
Proof.
  intros [_ Hp]%prunable_Ok. rewrite Hp, list_elem_of_fmap. unfold lists_row. split.
  - intros ([h row] & -> & [Hk Hin%elem_of_map_to_list]%list_elem_of_filter). simpl in *. eauto.
  - intros ((row & Hrow & Hb) & Hk). exists (b_store_path_hash b, row). split; [done|].
    apply list_elem_of_filter. split; [done|]. by apply elem_of_map_to_list.
Qed.

Lemma prunable_hash db before now doomed h :
  prunable db before now = Ok doomed →
  h ∈ map b_store_path_hash doomed ↔ present db h ∧ h ∉ keep db before now.
Proof.
  intros Hp. rewrite list_elem_of_fmap. split.
  - intros (b & -> & [(row & Hrow & _) Hk]%(prunable_elem _ _ _ _ b Hp)). by split; [eexists|].
  - intros [[row Hrow] Hk]. exists (brief_from_row (h, row)). split; [done|].
    apply (prunable_elem _ _ _ _ _ Hp). split; [|done]. by exists row.
Qed.

Lemma prunable_nodup db before now doomed :
  prunable db before now = Ok doomed → NoDup (map b_store_path_hash doomed).
Proof.
  intros [_ Hp]%prunable_Ok. rewrite Hp, map_map. simpl.
  apply (NoDup_fmap_2_strong fst).
  - intros [h r] [h' r'] [_ H1]%list_elem_of_filter [_ H2]%list_elem_of_filter. simpl. intros ->.
    apply elem_of_map_to_list in H1, H2. by simplify_eq.
  - apply NoDup_filter, NoDup_map_to_list.
Qed.

(** ** Ordering the doomed *)

Lemma doomed_edges_elem db doomed i j :
  NoDup (map b_store_path_hash doomed) →
  (i, j) ∈ doomed_edges db doomed ↔
  i ≠ j ∧ ∃ bi bj, doomed !! i = Some bi ∧ doomed !! j = Some bj ∧
    ref_edge db (b_store_path_hash bi) (b_store_path_hash bj).
Proof.
  intros Hnd. unfold doomed_edges. rewrite list_elem_of_In, in_concat. split.
  - intros (l & Hl & Hin). apply list_elem_of_In in Hl, Hin.
    apply elem_of_lookup_imap in Hl as (i' & bi & -> & Hbi).
    apply list_elem_of_omap in Hin as (r & Hr & Heq).
    destruct (index_of b_store_path_hash doomed !! reference_hash r) as [j'|] eqn:Hj; [|done].
    case_decide; [|done]. simplify_eq. apply index_of_Some in Hj as (bj & Hbj & Hh); [|done].
    split; [done|]. exists bi, bj. split_and!; [done|done|].
    exists r. split; [|done]. by apply references_of_elem.
  - intros (Hne & bi & bj & Hbi & Hbj & r & Hr & Hh).
    eexists. split.
    + apply list_elem_of_In, elem_of_lookup_imap. by exists i, bi.
    + apply list_elem_of_In, list_elem_of_omap. exists r.
      split; [by apply references_of_elem|].
      rewrite (proj2 (index_of_Some b_store_path_hash doomed (reference_hash r) j Hnd)) by eauto.
      by rewrite decide_True by done.
Qed.

Lemma doomed_edges_ok db doomed :
  NoDup (map b_store_path_hash doomed) → edges_ok (length doomed) (doomed_edges db doomed).
Proof.
  intros Hnd. apply Forall_forall. intros [i j] (_ & bi & bj & Hi & Hj & _)%doomed_edges_elem; [|done].
  split; by eapply lookup_lt_Some.
Qed.

Lemma pop_Some {A} (l l' : list A) x : pop l = Some (x, l') ↔ l = l' ++ [x].
Proof.
  unfold pop. split.
  - destruct (reverse l) as [|y k] eqn:E; [done|]. intros [= -> <-].
    apply (f_equal reverse) in E. by rewrite reverse_involutive, reverse_cons in E.
  - intros ->. by rewrite reverse_snoc, reverse_involutive.
Qed.

Lemma pop_None {A} (l : list A) : pop l = None ↔ l = [].
Proof.
  unfold pop. split; [|by intros ->]. destruct (reverse l) eqn:E; [|done]. intros _.
  apply (f_equal reverse) in E. by rewrite reverse_involutive in E.
Qed.

Lemma place_stack_inv n succs fuel waiting ready order :
  (∀ j k, k ∈ succ_of succs j → k < n) →
  kahn_inv n succs waiting order ready → n < fuel + length order →
  ∃ w', kahn_inv n succs w' (place_stack fuel succs waiting ready order) [].
Proof.
  intros Hok. revert waiting ready order. induction fuel as [|fuel IH]; intros waiting ready order Hinv Hf.
  - pose proof (kahn_placed_length _ _ _ _ _ Hinv). lia.
  - cbn [place_stack]. destruct (pop ready) as [[i rest]|] eqn:Hpop.
    + apply pop_Some in Hpop as ->. destruct (relax waiting (succ_of succs i)) as [w' fresh] eqn:Hr.
      apply IH; [|rewrite length_app; simpl; lia].
      eapply kahn_step; [done|done| |done]. by rewrite Permutation_app_comm.
    + apply pop_None in Hpop as ->. by exists waiting.
Qed.

(** A cycle-free ranking of the doomed along their references. *)
Definition doomed_acyclic (db : Db) (doomed : list ObjectBrief) : Prop :=
  ∃ rank : string → nat, ∀ bi bj, bi ∈ doomed → bj ∈ doomed →
    b_store_path_hash bi ≠ b_store_path_hash bj →
    ref_edge db (b_store_path_hash bi) (b_store_path_hash bj) →
    rank (b_store_path_hash bi) < rank (b_store_path_hash bj).

Lemma doomed_hash_inj doomed i j b b' :
  NoDup (map b_store_path_hash doomed) →
  doomed !! i = Some b → doomed !! j = Some b' →
  b_store_path_hash b = b_store_path_hash b' → i = j.
Proof.
  intros Hnd Hi Hj Heq. eapply (NoDup_lookup _ i j); [exact Hnd| |].
  - by rewrite list_lookup_fmap, Hi.
  - by rewrite list_lookup_fmap, Hj, Heq.
Qed.

Lemma referrers_first_spec db doomed :
  NoDup (map b_store_path_hash doomed) →
  match referrers_first db doomed with
  | Ok order =>
      order ≡ₚ seq 0 (length doomed) ∧
      (∀ pre k post bk, order = pre ++ k :: post → doomed !! k = Some bk →
        ∀ j bj, j ≠ k → doomed !! j = Some bj →
          ref_edge db (b_store_path_hash bj) (b_store_path_hash bk) → j ∈ pre)
  | Err _ => ¬ doomed_acyclic db doomed
  end.
Proof.
  intros Hnd. pose proof (doomed_edges_ok db doomed Hnd) as Hok. unfold referrers_first.
  destruct (build_graph (length doomed) (doomed_edges db doomed)) as [succs waiting] eqn:Hb.
  pose proof (build_succs_ok _ _ _ _ Hok Hb) as Hsok.
  destruct (place_stack_inv (length doomed) succs (S (length doomed)) waiting (sources waiting) [])
    as [w' Hinv]; [done|by eapply kahn_start|simpl; lia|].
  set (order := place_stack _ _ _ _ _) in *.
  pose proof Hinv as [_ Hon Hob _ _ Ht]. rewrite app_nil_r in Hon, Hob.
  destruct (Nat.eqb_spec (length order) (length doomed)) as [Hlen|Hlen].
  - split.
    + apply submseteq_length_Permutation; [|by rewrite length_seq, Hlen].
      apply NoDup_submseteq; [done|]. intros x Hx%Hob. apply elem_of_seq. lia.
    + intros pre k post bk Hsplit Hk j bj Hne Hj He. eapply Ht; [done|].
      apply (build_edge _ _ _ _ _ _ Hok Hb), doomed_edges_elem; [done|].
      split; [done|]. eauto 10.
  - intros [rank Hrank]. apply Hlen.
    rewrite (kahn_complete _ _ _ _ Hinv); [apply length_seq|].
    exists (λ i, match doomed !! i with Some b => rank (b_store_path_hash b) | None => 0 end).
    intros j k (Hne & bj & bk & Hj & Hk & He)%(build_edge _ _ _ _ _ _ Hok Hb)%doomed_edges_elem; [|done].
    rewrite Hj, Hk. apply Hrank; [by eapply list_elem_of_lookup_2..| |done].
    intros Heq. apply Hne. by eapply doomed_hash_inj.
Qed.

(** ** Deleting the doomed *)

Lemma delete_rows_lookup hs db i :
  objects (foldl delete_row db hs) !! i = if decide (i ∈ hs) then None else objects db !! i.
Proof.
  revert db. induction hs as [|h hs IH]; intros db; [done|]. cbn [foldl]. rewrite IH. simpl.
  rewrite lookup_delete. repeat case_decide; set_solver.
Qed.

Lemma delete_rows_refs hs db h r :
  (h, r) ∈ object_refs (foldl delete_row db hs) ↔ (h, r) ∈ object_refs db ∧ h ∉ hs.
Proof.
  revert db. induction hs as [|h' hs IH]; intros db; [set_solver|]. cbn [foldl]. rewrite IH. simpl.
  rewrite elem_of_filter. simpl. set_solver.
Qed.

Lemma delete_rows_pins hs db n p :
  pins (foldl delete_row db hs) !! n = Some p ↔
  pins db !! n = Some p ∧ p_store_path_hash p ∉ hs.
Proof.
  revert db. induction hs as [|h' hs IH]; intros db; [set_solver|]. cbn [foldl]. rewrite IH. simpl.
  rewrite map_lookup_filter_Some. simpl. set_solver.
Qed.

Lemma delete_rows_total hs db : total_bytes (foldl delete_row db hs) = total_bytes db.
Proof. revert db. induction hs as [|h hs IH]; intros db; [done|]. cbn [foldl]. by rewrite IH. Qed.

Lemma delete_rows_sum rows db :
  NoDup (map b_store_path_hash rows) → Forall (lists_row db) rows →
  sum_file_size (objects db) = (sum_Z (map b_file_size rows) +
    sum_file_size (objects (foldl delete_row db (map b_store_path_hash rows))))%Z.
Proof.
  revert db. induction rows as [|b rows IH]; intros db; [done|]. cbn [map foldl].
  intros [Hb Hnd]%NoDup_cons [(row & Hrow & Hbrow) Hall]%Forall_cons.
  rewrite (sum_file_size_delete _ _ _ Hrow), sum_Z_cons.
  assert (b_file_size b = r_file_size row) as -> by by rewrite Hbrow.
  change (delete (b_store_path_hash b) (objects db))
    with (objects (delete_row db (b_store_path_hash b))).
  rewrite IH; [lia|done|].
  rewrite Forall_forall in Hall |- *. intros b' Hb'. destruct (Hall b' Hb') as (row' & Hr' & ?).
  exists row'. split; [|done]. simpl. rewrite lookup_delete_ne; [done|].
  intros Heq. apply Hb. rewrite Heq. by apply list_elem_of_fmap_2.
Qed.

(** [db'] is [db] without the rows [hs], cascades and counter included. *)
Record minus (db : Db) (hs : list string) (db' : Db) : Prop := {
  m_rows : ∀ i, objects db' !! i = if decide (i ∈ hs) then None else objects db !! i;
  m_refs : ∀ h r, (h, r) ∈ object_refs db' ↔ (h, r) ∈ object_refs db ∧ h ∉ hs;
  m_pins : ∀ n p, pins db' !! n = Some p ↔ pins db !! n = Some p ∧ p_store_path_hash p ∉ hs;
  m_wf : db_wf db';
}.

Lemma minus_nil db : db_wf db → minus db [] db.
Proof. intros Hwf. split; [done|set_solver|set_solver|done]. Qed.

Lemma minus_present db hs db' h : minus db hs db' → present db' h ↔ present db h ∧ h ∉ hs.
Proof.
  intros Hm. unfold present. rewrite (m_rows _ _ _ Hm). case_decide; [|tauto].
  split; [by intros []|tauto].
Qed.

Lemma minus_batch db hs db1 rows :
  minus db hs db1 → NoDup (hs ++ map b_store_path_hash rows) → Forall (lists_row db) rows →
  minus db (hs ++ map b_store_path_hash rows)
    (debit (foldl delete_row db1 (map b_store_path_hash rows)) (sum_Z (map b_file_size rows))).
Proof.
  intros [Hr1 Hf1 Hp1 [Ht Hs Hwr Hwp]] (_ & Hdisj & Hnd)%NoDup_app Hall.
  assert (Hall1 : Forall (lists_row db1) rows).
  { rewrite Forall_forall in Hall |- *. intros b Hb. destruct (Hall b Hb) as (row & Hrow & ?).
    exists row. split; [|done]. rewrite Hr1, decide_False; [done|]. intros Hin.
    by apply (Hdisj _ Hin), list_elem_of_fmap_2. }
  split; simpl.
  - intros i. rewrite delete_rows_lookup, Hr1. repeat case_decide; set_solver.
  - intros h r. rewrite delete_rows_refs, Hf1. set_solver.
  - intros n p. rewrite delete_rows_pins, Hp1. set_solver.
  - assert (Hs' : map_Forall (λ _ row, 0 ≤ r_file_size row)%Z
      (objects (foldl delete_row db1 (map b_store_path_hash rows)))).
    { intros i row. rewrite delete_rows_lookup. case_decide; [done|]. apply Hs. }
    split; simpl.
    + rewrite delete_rows_total, Ht, (delete_rows_sum rows db1 Hnd Hall1).
      pose proof (sum_file_size_nonneg _ Hs'). lia.
    + done.
    + intros h r [Hin Hh]%delete_rows_refs. rewrite delete_rows_lookup, decide_False by done.
      by eapply Hwr.
    + intros n p [Hn Hh]%delete_rows_pins. rewrite delete_rows_lookup, decide_False by done.
      by eapply Hwp.
Qed.

Lemma minus_shrinks db hs db' :
  db_wf db → minus db hs db' →
  (∀ a b, present db a → a ∉ hs → ref_edge db a b → b ∉ hs) →
  shrinks db db'.
Proof.
  intros [_ _ Hwr Hwp] Hm Hcl. pose proof minus_present as Hpres.
  split.
  - apply map_subseteq_spec. intros i row. rewrite (m_rows _ _ _ Hm). by case_decide.
  - intros h r. rewrite (m_refs _ _ _ Hm), (Hpres _ _ _ _ Hm). split; [|tauto].
    intros [Hin Hh]. split_and!; try done. by eapply Hwr.
  - intros n p. rewrite (m_pins _ _ _ Hm), (Hpres _ _ _ _ Hm). split; [|tauto].
    intros [Hin Hh]. split_and!; try done. by eapply Hwp.
  - intros a b. rewrite !(Hpres _ _ _ _ Hm). intros [Ha Hna] He Hb. split; [done|]. exact (Hcl a b Ha Hna He).
Qed.

Definition hashes_of (doomed : list ObjectBrief) (order : list nat) : list string :=
  map b_store_path_hash (omap (λ i, doomed !! i) order).

Lemma hashes_of_app doomed o1 o2 :
  hashes_of doomed (o1 ++ o2) = hashes_of doomed o1 ++ hashes_of doomed o2.
Proof. unfold hashes_of. by rewrite omap_app, map_app. Qed.

Lemma hashes_of_elem doomed order h :
  h ∈ hashes_of doomed order ↔ ∃ i b, i ∈ order ∧ doomed !! i = Some b ∧ b_store_path_hash b = h.
Proof.
  unfold hashes_of. rewrite list_elem_of_fmap. split.
  - intros (b & -> & (i & Hi & Hb)%list_elem_of_omap). eauto.
  - intros (i & b & Hi & Hb & <-). exists b. split; [done|]. apply list_elem_of_omap. eauto.
Qed.

Lemma hashes_of_perm doomed order :
  order ≡ₚ seq 0 (length doomed) → hashes_of doomed order ≡ₚ map b_store_path_hash doomed.
Proof. intros Hp. unfold hashes_of. by rewrite Hp, omap_seq_lookup. Qed.

Section pruned.
Context (db : Db) (before now : Z) (doomed : list ObjectBrief) (order : list nat).
Context (Hwf : db_wf db).
Context (Hprun : prunable db before now = Ok doomed).
Context (Horder : referrers_first db doomed = Ok order).

Lemma pruned_order_perm : order ≡ₚ seq 0 (length doomed).
Proof.
  pose proof (referrers_first_spec db doomed (prunable_nodup _ _ _ _ Hprun)) as H.
  rewrite Horder in H. by destruct H.
Qed.

Lemma pruned_hashes_nodup : NoDup (hashes_of doomed order).
Proof.
  rewrite (hashes_of_perm _ _ pruned_order_perm). by eapply prunable_nodup.
Qed.

Lemma pruned_hashes h : h ∈ hashes_of doomed order ↔ present db h ∧ h ∉ keep db before now.
Proof.
  rewrite (hashes_of_perm _ _ pruned_order_perm). by eapply prunable_hash.
Qed.

(** A referrer goes no later than what it refers to. *)
Lemma pruned_prefix_closed pre post a b :
  order = pre ++ post → present db a → ref_edge db a b →
  b ∈ hashes_of doomed pre → a ∈ hashes_of doomed pre.
Proof.
  intros Hsplit Ha He Hb. pose proof (prunable_nodup _ _ _ _ Hprun) as Hnd.
  pose proof (referrers_first_spec db doomed Hnd) as Hspec.
  rewrite Horder in Hspec. destruct Hspec as [Hperm Htopo].
  assert (Hbk : b ∉ keep db before now).
  { apply pruned_hashes. rewrite Hsplit, hashes_of_app. set_solver. }
  assert (Hak : a ∉ keep db before now) by (intros Hak; by apply Hbk; eapply keep_edge).
  apply hashes_of_elem in Hb as (k & bk & Hk & Hbk' & Hbh).
  assert (a ∈ hashes_of doomed order) as (j & bj & Hj & Hbj & Hah)%hashes_of_elem
    by by apply pruned_hashes.
  apply hashes_of_elem. exists j, bj. split_and!; [|done|done].
  destruct (decide (j = k)) as [->|Hne]; [done|].
  apply list_elem_of_split in Hk as (p1 & p2 & Hk). subst a b.
  assert (j ∈ p1); [|subst pre; set_solver].
  eapply (Htopo p1 k (p2 ++ post) bk); [|done|done|done|done].
  by rewrite Hsplit, Hk, <-app_assoc.
Qed.

Lemma pruned_lists_row pre : Forall (lists_row db) (omap (λ i, doomed !! i) pre).
Proof.
  apply Forall_forall. intros b (i & _ & Hb)%list_elem_of_omap.
  by apply (prunable_elem _ _ _ _ b Hprun); eapply list_elem_of_lookup_2.
Qed.

Lemma pruned_batch pre batch post db1 :
  order = pre ++ batch ++ post → minus db (hashes_of doomed pre) db1 →
  minus db (hashes_of doomed (pre ++ batch)) (delete_batch doomed db1 batch).
Proof.
  intros Hsplit Hm. rewrite hashes_of_app. apply minus_batch; [done| |apply pruned_lists_row].
  pose proof pruned_hashes_nodup as Hnd.
  rewrite Hsplit, app_assoc, hashes_of_app, hashes_of_app in Hnd.
  by apply NoDup_app in Hnd as (? & _ & _).
Qed.

Lemma pruned_minus_shrinks pre post db1 :
  order = pre ++ post → minus db (hashes_of doomed pre) db1 → shrinks db db1.
Proof.
  intros Hsplit Hm. eapply minus_shrinks; [done|done|].
  intros a b Ha Hna He Hb. apply Hna. by eapply pruned_prefix_closed.
Qed.

Lemma pruned_commits pre batches post db1 :
  order = pre ++ concat batches ++ post → minus db (hashes_of doomed pre) db1 →
  ∀ db2, db2 ∈ prune_commits doomed batches db1 →
  ∃ pre' post', order = pre' ++ post' ∧ minus db (hashes_of doomed pre') db2.
Proof.
  revert pre db1. induction batches as [|batch batches IH]; intros pre db1 Hsplit Hm db2.
  - cbn [prune_commits]. intros ->%list_elem_of_singleton. eauto.
  - cbn [prune_commits concat] in *. intros [->|Hin]%elem_of_cons; [eauto|].
    rewrite <-app_assoc in Hsplit.
    apply (IH (pre ++ batch) (delete_batch doomed db1 batch)); [| |done].
    + by rewrite Hsplit, <-app_assoc.
    + by eapply pruned_batch.
Qed.

Lemma pruned_last pre batches db1 :
  order = pre ++ concat batches → minus db (hashes_of doomed pre) db1 →
  minus db (hashes_of doomed order) (foldl (delete_batch doomed) db1 batches).
Proof.
  revert pre db1. induction batches as [|batch batches IH]; intros pre db1 Hsplit Hm.
  - cbn [concat] in Hsplit. rewrite app_nil_r in Hsplit. by subst.
  - cbn [concat foldl] in *. apply (IH (pre ++ batch)); [by rewrite <-app_assoc|].
    by eapply pruned_batch.
Qed.

Lemma delete_pruned_minus :
  ∃ db', delete_pruned db doomed = Ok db' ∧ minus db (hashes_of doomed order) db'.
Proof.
  unfold delete_pruned. rewrite Horder. eexists. split; [done|].
  apply (pruned_last []); [|by apply minus_nil].
  by rewrite chunks_concat by done.
Qed.
End pruned.

(** ** Root-first deletion, the specification of prune

    One step removes an old object that no live pin holds and that nothing
    else in the cache refers to. *)

Definition root_delete (before now : Z) (db db' : Db) : Prop :=
  ∃ h row, objects db !! h = Some row ∧ (r_pushed_at row < before)%Z ∧
    ¬ pinned_live db now h ∧ (∀ a, ref_edge db a h → a = h) ∧
    db' = remove_row db h (r_file_size row).

(** References among the objects the cache holds have no cycle, self-edges aside. *)
Definition refs_acyclic (db : Db) : Prop :=
  ∃ rank : string → nat, ∀ a b, present db a → present db b → a ≠ b → ref_edge db a b →
    rank a < rank b.

Lemma root_delete_shrinks before now db db' :
  db_wf db → root_delete before now db db' → shrinks db db' ∧ db_wf db'.
Proof.
  intros Hwf (h & row & Hrow & _ & _ & Hno & ->).
  split; [by apply remove_row_shrinks|by apply db_wf_remove_row].
Qed.

Lemma root_deletes_shrinks before now db db' :
  db_wf db → rtc (root_delete before now) db db' → shrinks db db' ∧ db_wf db'.
Proof.
  intros Hwf Hr. induction Hr as [db|db db1 db2 Hs _ IH]; [split; [by apply shrinks_refl|done]|].
  apply root_delete_shrinks in Hs as [Hs Hwf1]; [|done]. destruct (IH Hwf1) as [? ?].
  split; [by eapply shrinks_trans|done].
Qed.

Lemma pinned_live_shrinks db db' now h :
  shrinks db db' → present db' h → pinned_live db' now h ↔ pinned_live db now h.
Proof.
  intros Hs Hh. unfold pinned_live. split.
  - intros (n & p & Hn & Hp & Hl). apply (sh_pins _ _ Hs) in Hn as [Hn _]. eauto.
  - intros (n & p & Hn & Hp & Hl). exists n, p. split; [|done]. apply (sh_pins _ _ Hs).
    split; [done|]. by rewrite Hp.
Qed.

(** Root-first deletion never touches what the mark keeps. *)
Lemma root_deletes_keep before now db db' h :
  db_wf db → rtc (root_delete before now) db db' →
  present db h → h ∈ keep db before now → present db' h.
Proof.
  intros Hwf Hr. revert h. revert db' Hr. refine (rtc_ind_r _ db _ _); [done|].
  intros db1 db2 Hr1 Hs IH h Hh Hk. specialize (IH h Hh Hk) as Hh1.
  pose proof (root_deletes_shrinks _ _ _ _ Hwf Hr1) as [Hsh Hwf1].
  destruct Hs as (d & row & Hrow & Hold & Hnp & Hno & ->).
  apply remove_row_present. split; [|done]. intros ->.
  destruct (keep_inv _ _ _ _ Hk) as [Hroot|(a & Hak & Hne & He)].
  - apply elem_of_keep_roots in Hroot as [(row' & Hrow' & Hge)|Hpl].
    + apply (shrinks_row _ _ _ _ Hsh) in Hrow. simplify_eq. lia.
    + apply Hnp. by apply (pinned_live_shrinks _ _ _ _ Hsh).
  - apply Hne, Hno. apply (shrinks_edge _ _ _ _ Hsh). split; [done|].
    assert (present db a) as Ha by (destruct He as (r & Hin & _); by eapply wf_refs).
    by apply IH.
Qed.

Lemma root_deletes_exhausted before now db db' h :
  db_wf db → refs_acyclic db → rtc (root_delete before now) db db' →
  nf (root_delete before now) db' → present db' h → h ∈ keep db before now.
Proof.
  intros Hwf [rank Hrank] Hr Hnf.
  pose proof (root_deletes_shrinks _ _ _ _ Hwf Hr) as [Hsh Hwf'].
  remember (rank h) as r eqn:Heqr. revert h Heqr.
  induction (lt_wf r) as [r _ IH]. intros h -> Hh.
  destruct (decide (h ∈ keep db before now)) as [|Hnk]; [done|]. exfalso.
  pose proof (shrinks_present _ _ _ Hsh Hh) as Hhdb.
  apply Hnf. pose proof Hh as [row Hrow].
  exists (remove_row db' h (r_file_size row)), h, row. split_and!; [done| | | |done].
  - apply Z.nle_gt. intros Hge. apply Hnk, (keep_roots_incl db before now), elem_of_keep_roots.
    left. exists row. split; [|done]. by eapply shrinks_row.
  - intros Hpl. apply Hnk, (keep_roots_incl db before now), elem_of_keep_roots. right.
    by apply (pinned_live_shrinks _ _ _ _ Hsh Hh).
  - intros a He. destruct (decide (a = h)) as [|Hne]; [done|]. exfalso.
    apply (shrinks_edge _ _ _ _ Hsh) in He as [He Ha].
    pose proof (shrinks_present _ _ _ Hsh Ha) as Hadb.
    apply Hnk. eapply keep_edge; [|done]. by eapply IH; [by apply Hrank|done|].
Qed.

Lemma doomed_acyclic_of_refs db before now doomed :
  prunable db before now = Ok doomed → refs_acyclic db → doomed_acyclic db doomed.
Proof.
  intros Hp [rank Hrank]. exists rank.
  intros bi bj [[ri [Hi _]] _]%(prunable_elem _ _ _ _ _ Hp) [[rj [Hj _]] _]%(prunable_elem _ _ _ _ _ Hp).
  intros Hne He. apply Hrank; [by eexists|by eexists|done|done].
Qed.

Lemma referrers_first_acyclic db before now doomed :
  prunable db before now = Ok doomed → refs_acyclic db →
  ∃ order, referrers_first db doomed = Ok order.
Proof.
  intros Hp Hac. pose proof (referrers_first_spec db doomed (prunable_nodup _ _ _ _ Hp)) as H.
  destruct (referrers_first db doomed) as [order|]; [eauto|].
  exfalso. apply H. by eapply doomed_acyclic_of_refs.
Qed.

Section root_first.
Context (db : Db) (before now : Z) (doomed : list ObjectBrief) (order : list nat).
Context (Hwf : db_wf db).
Context (Hprun : prunable db before now = Ok doomed).
Context (Horder : referrers_first db doomed = Ok order).

(** Deleting the doomed one by one in [order] is a root-first run. *)
Lemma order_step pre k post db1 :
  order = pre ++ k :: post → minus db (hashes_of doomed pre) db1 →
  ∃ db2, root_delete before now db1 db2 ∧ minus db (hashes_of doomed (pre ++ [k])) db2.
Proof.
  intros Hsplit Hm.
  pose proof (pruned_minus_shrinks _ _ _ _ _ Hwf Hprun Horder _ (k :: post) db1 Hsplit Hm) as Hsh.
  assert (is_Some (doomed !! k)) as [b Hb].
  { apply lookup_lt_is_Some. assert (k ∈ seq 0 (length doomed)) as [_ ?]%elem_of_seq; [|lia].
    rewrite <-(pruned_order_perm _ _ _ _ _ Hprun Horder), Hsplit. set_solver. }
  set (h := b_store_path_hash b).
  assert (Hone : hashes_of doomed [k] = [h]) by (unfold hashes_of; simpl; by rewrite Hb).
  assert (Hin : h ∈ hashes_of doomed order).
  { rewrite Hsplit, (hashes_of_app doomed pre (k :: post)).
    change (k :: post) with ([k] ++ post). rewrite hashes_of_app, Hone. set_solver. }
  pose proof Hin as [Hpres Hnk]%(pruned_hashes _ _ _ _ _ Hprun Horder).
  assert (Hnpre : h ∉ hashes_of doomed pre).
  { pose proof (pruned_hashes_nodup _ _ _ _ _ Hprun Horder) as Hnd.
    rewrite Hsplit, hashes_of_app in Hnd. apply NoDup_app in Hnd as (_ & Hd & _).
    intros Hx. apply (Hd _ Hx). change (k :: post) with ([k] ++ post).
    rewrite hashes_of_app, Hone. set_solver. }
  assert (present db1 h) as [row Hrow] by (by apply (minus_present _ _ _ _ Hm)).
  pose proof (shrinks_row _ _ _ _ Hsh Hrow) as Hrowdb.
  assert (b_file_size b = r_file_size row) as Hsz.
  { pose proof (pruned_lists_row _ _ _ _ Hprun [k]) as Hl. simpl in Hl. rewrite Hb in Hl.
    apply Forall_cons in Hl as [(row' & Hr' & Hbr) _]. fold h in Hr'.
    rewrite Hrowdb in Hr'. injection Hr' as <-. by rewrite Hbr. }
  exists (remove_row db1 h (r_file_size row)). split.
  - exists h, row. split_and!; [done| | | |done].
    + apply Z.nle_gt. intros Hge. apply Hnk, (keep_roots_incl db before now), elem_of_keep_roots.
      left. eauto.
    + rewrite (pinned_live_shrinks _ _ _ _ Hsh) by (by eexists). intros Hpl.
      apply Hnk, (keep_roots_incl db before now), elem_of_keep_roots. by right.
    + intros a [He Ha]%(shrinks_edge _ _ _ _ Hsh).
      apply (minus_present _ _ _ _ Hm) in Ha as [Ha Hnpa].
      assert (a ∈ hashes_of doomed (pre ++ [k])) as Hina.
      { eapply (pruned_prefix_closed _ _ _ _ _ Hwf Hprun Horder (pre ++ [k]) post a h);
          [by rewrite <-app_assoc|done|done|]. rewrite hashes_of_app, Hone. set_solver. }
      rewrite hashes_of_app, Hone in Hina. set_solver.
  - pose proof (pruned_batch _ _ _ _ _ Hprun Horder pre [k] post db1 Hsplit Hm) as Hm2.
    unfold delete_batch in Hm2. simpl in Hm2. rewrite Hb in Hm2. simpl in Hm2.
    rewrite Hsz in Hm2. unfold sum_Z in Hm2. simpl in Hm2. by rewrite Z.add_0_r in Hm2.
Qed.

Lemma order_run pre post db1 :
  order = pre ++ post → minus db (hashes_of doomed pre) db1 →
  ∃ db2, rtc (root_delete before now) db1 db2 ∧ minus db (hashes_of doomed order) db2.
Proof.
  revert pre db1. induction post as [|k post IH]; intros pre db1 Hsplit Hm.
  - rewrite app_nil_r in Hsplit. subst pre. exists db1. split; [apply rtc_refl|done].
  - destruct (order_step _ _ _ _ Hsplit Hm) as (db2 & Hs & Hm2).
    destruct (IH (pre ++ [k]) db2) as (db3 & Hr & Hm3); [by rewrite <-app_assoc|done|].
    exists db3. split; [by eapply rtc_l|done].
Qed.
End root_first.

(** ** Properties *)

(** C25: Pruning removes exactly the rows outside the closure of the live pins and the recently
    pushed rows; every intermediate commit is well formed and leaves no survivor without a row it
    refers to; it is refused only when the references form a cycle. *)
Theorem prune_keeps_closures db before now doomed :
  db_wf db → prunable db before now = Ok doomed →
  match referrers_first db doomed with
  | Ok order =>
      (∀ db_i, db_i ∈ prune_commits doomed (chunks PRUNE_BATCH order) db →
        db_wf db_i ∧ shrinks db db_i) ∧
      ∃ db', delete_pruned db doomed = Ok db' ∧ db_wf db' ∧ shrinks db db' ∧
        ∀ h, present db' h ↔ present db h ∧
          ∃ root, rtc (ref_edge db) root h ∧
            (pinned_live db now root ∨
             ∃ row, objects db !! root = Some row ∧ (before ≤ r_pushed_at row)%Z)
  | Err e => delete_pruned db doomed = Err e ∧ ¬ refs_acyclic db
  end.
Proof.
  intros Hwf Hprun. destruct (referrers_first db doomed) as [order|e] eqn:Horder.
  - split.
    + intros db_i Hin.
      destruct (pruned_commits _ _ _ _ _ Hprun Horder [] (chunks PRUNE_BATCH order) [] db)
        with (db2 := db_i) as (pre & post & Hsplit & Hm); [|by apply minus_nil|done|].
      { by rewrite app_nil_r, chunks_concat by done. }
      split; [apply Hm|]. by eapply pruned_minus_shrinks.
    + destruct (delete_pruned_minus _ _ _ _ _ Hwf Hprun Horder) as (db' & Hdel & Hm).
      exists db'. split_and!; [done|apply Hm| |].
      { eapply (pruned_minus_shrinks _ _ _ _ _ Hwf Hprun Horder order []); [by rewrite app_nil_r|done]. }
      intros h. rewrite (minus_present _ _ _ _ Hm), (pruned_hashes _ _ _ _ _ Hprun Horder).
      assert (h ∈ keep db before now ↔ ∃ root, rtc (ref_edge db) root h ∧
        (pinned_live db now root ∨
         ∃ row, objects db !! root = Some row ∧ (before ≤ r_pushed_at row)%Z)) as Hk.
      { rewrite elem_of_keep. setoid_rewrite elem_of_keep_roots. naive_solver. }
      rewrite <-Hk. split; [|tauto]. intros [Hp Hnk]. split; [done|].
      destruct (decide (h ∈ keep db before now)); tauto.
  - split; [unfold delete_pruned; by rewrite Horder|]. intros Hac.
    destruct (referrers_first_acyclic _ _ _ _ Hprun Hac) as [order Ho]. by rewrite Ho in Horder.
Qed.

(** In the example everything but the pinned object goes, the root before its leaf. *)
Definition example_doomed : list ObjectBrief :=
  map brief_from_row [("leaf", example_row "leaf" 7 0); ("root", example_row "root" 10 0)].
Lemma example_prunable : prunable example_db 100 1000000 = Ok example_doomed.
Proof. by_computation. Qed.
Lemma example_order : referrers_first example_db example_doomed = Ok [1; 0].
Proof. by_computation. Qed.

Lemma prune_keeps_closures_witness :
  prunable example_db 100 1000000 = Ok example_doomed ∧
    ∃ db', delete_pruned example_db example_doomed = Ok db' ∧ db_wf db' ∧ shrinks example_db db'.
Proof.
  split; [exact example_prunable|].
  pose proof (prune_keeps_closures example_db 100 1000000 example_doomed example_db_wf example_prunable) as H.
  rewrite example_order in H. destruct H as (_ & db' & H1 & H2 & H3 & _). exists db'. by split_and!.
Defined.

(** C26: On an acyclic database the batched prune gives the same rows, references and usage as the
    reference process that deletes one unprotected unreferenced old row at a time until none is
    left, in whatever order that process runs. *)
Theorem prune_is_root_first_deletion db before now doomed :
  db_wf db → refs_acyclic db → prunable db before now = Ok doomed →
  (∃ db1, rtc (root_delete before now) db db1 ∧ nf (root_delete before now) db1) ∧
  ∀ db1, rtc (root_delete before now) db db1 → nf (root_delete before now) db1 →
    ∃ db', delete_pruned db doomed = Ok db' ∧
      (∀ h, objects db' !! h = objects db1 !! h) ∧ object_refs db' = object_refs db1 ∧
      total_bytes db' = total_bytes db1.
Proof.
  intros Hwf Hac Hprun. destruct (referrers_first_acyclic _ _ _ _ Hprun Hac) as [order Horder].
  split.
  - destruct (order_run _ _ _ _ _ Hwf Hprun Horder [] order db) as (db1 & Hr & Hm);
      [done|by apply minus_nil|].
    exists db1. split; [done|]. intros [db2 Hs].
    pose proof Hs as (h & row & Hrow & _ & _ & _ & Hdb2).
    assert (present db1 h) as Hp by by eexists. apply (minus_present _ _ _ _ Hm) in Hp as [Hp Hn].
    assert (present db2 h) as Hp2.
    { eapply (root_deletes_keep before now db); [done|by eapply rtc_r|done|].
      destruct (decide (h ∈ keep db before now)) as [|Hnk]; [done|]. exfalso. apply Hn.
      by apply (pruned_hashes _ _ _ _ _ Hprun Horder). }
    subst db2. by apply remove_row_present in Hp2 as [? _].
  - intros db1 Hr Hnf. pose proof (root_deletes_shrinks _ _ _ _ Hwf Hr) as [Hsh Hwf1].
    destruct (delete_pruned_minus _ _ _ _ _ Hwf Hprun Horder) as (db' & Hdel & Hm).
    exists db'. split; [done|].
    assert (Hkept : ∀ h, h ∈ hashes_of doomed order ↔ present db h ∧ ¬ present db1 h).
    { intros h. rewrite (pruned_hashes _ _ _ _ _ Hprun Horder). split.
      - intros [Hp Hnk]. split; [done|]. intros Hp1. by eapply Hnk, root_deletes_exhausted.
      - intros [Hp Hnp]. split; [done|]. intros Hk. apply Hnp.
        by eapply (root_deletes_keep before now db). }
    assert (Hrows : objects db' = objects db1).
    { apply map_eq. intros h. rewrite (m_rows _ _ _ Hm). case_decide as Hh.
      - apply Hkept in Hh as [_ Hnp]. symmetry. by apply eq_None_not_Some.
      - destruct (objects db1 !! h) as [row|] eqn:E.
        + by apply (shrinks_row _ _ _ _ Hsh) in E.
        + apply eq_None_not_Some. intros Hp. apply Hh, Hkept. split; [done|].
          by apply eq_None_not_Some. }
    split_and!.
    + intros h. by rewrite Hrows.
    + apply set_eq. intros [h r]. rewrite (m_refs _ _ _ Hm), (sh_refs _ _ Hsh), Hkept. split.
      * intros [Hin Hn]. split; [done|]. pose proof (wf_refs _ Hwf _ _ Hin) as Hp.
        destruct (decide (is_Some (objects db1 !! h))); [done|]. exfalso. by apply Hn.
      * intros [Hin Hp]. split; [done|]. by intros [_ ?].
    + by rewrite (wf_total _ (m_wf _ _ _ Hm)), (wf_total _ Hwf1), Hrows.
Qed.

Lemma prune_is_root_first_deletion_witness :
  ∃ db1, rtc (root_delete 100 1000000) example_db db1 ∧ nf (root_delete 100 1000000) db1.
Proof.
  assert (Hac : refs_acyclic example_db).
  { exists (λ h, if decide (h = "root") then 0 else 1). intros a b _ _ Hne (r & Hin & Hr).
    apply elem_of_union in Hin as [Hin|Hin]; apply elem_of_singleton in Hin as [= -> ->];
      cbv in Hr; subst b; [by apply Nat.lt_0_1|by destruct Hne]. }
  destruct (prune_is_root_first_deletion example_db 100 1000000 example_doomed example_db_wf Hac
    example_prunable) as [(db1 & H1 & H2) _].
  by exists db1.
Defined.
