(* ===== verification/DbOps.v ===== *)
(** * DbOps: what the database promises its callers

    Contracts of [crates/garret-server/src/db.rs] over the definitions of Db and
    Prune: an insert is what later reads give back; a path that negotiation
    reports present stays, with its closure, for as long as a push may take; and
    the rows [evictable] lists may all go, in any order. *)

From S2P Require Import Prelude Text Common Db Prune.

(** ** Insert, then read *)

(** Inserting an object makes it readable as it was pushed, with its references in order and last
    accessed at the time of the insert, leaves every other object and the pins alone and moves the
    usage counter by the change of its file size; the insert fails only when the object names a
    reference twice. *)
Theorem insert_then_get db obj now :
  match insert_object db obj now with
  | Ok db' =>
      NoDup (o_references obj) ∧
      get_object_and_last_accessed db' (o_store_path_hash obj) = Some (with_sorted_refs obj, now) ∧
      (∀ h, h ≠ o_store_path_hash obj →
        get_object_and_last_accessed db' h = get_object_and_last_accessed db h) ∧
      pins db' = pins db ∧
      total_bytes db' = (total_bytes db +
        (o_file_size obj - default 0 (file_size db (o_store_path_hash obj))))%Z
  | Err _ => ¬ NoDup (o_references obj)
  end.
Proof.
  destruct (insert_object db obj now) as [db'|e] eqn:E.
  - pose proof (references_of_insert db obj now db') as Hrefs.
    apply insert_object_Ok in E as Hins. destruct Hins as (Hnd & Hrows & _ & Hpins & Htot).
    split_and!; [done| | |done|done].
    + unfold get_object_and_last_accessed. rewrite Hrows, lookup_insert_eq, Hrefs by done.
      by rewrite decide_True.
    + intros h Hne. unfold get_object_and_last_accessed.
      by rewrite Hrows, lookup_insert_ne, Hrefs, decide_False by done.
  - intros Hnd. pose proof (insert_object_is_ok db obj now) as Hok. rewrite E in Hok.
    by rewrite bool_decide_eq_true_2 in Hok.
Qed.

(** ** A negotiation holds a closure *)

(** The candidates of one eviction pass, deleted in turn at their own times. *)
Definition evict_all (db : Db) (attempts : list (string * Z)) : Db :=
  foldl (λ db c, (evict_object db c.1 c.2).1) db attempts.

Definition pushed_since (db : Db) (t : Z) (h : string) : Prop :=
  ∃ row, objects db !! h = Some row ∧ (t ≤ r_pushed_at row)%Z.

Lemma missing_pushed_since db hashes now h :
  h ∈ hashes → h ∉ (missing db hashes now).2 →
  pushed_since (missing db hashes now).1 (now - PUSHED_AT_DEBOUNCE) h.
Proof.
  destruct (missing_spec db hashes now) as (-> & Hrows & _). intros Hin Hmiss.
  destruct (objects db !! h) as [row|] eqn:E.
  2: { exfalso. apply Hmiss. by apply list_elem_of_filter. }
  unfold pushed_since. rewrite Hrows, E. case_decide as Hst.
  - eexists. split; [done|]. simpl. unfold PUSHED_AT_DEBOUNCE. lia.
  - eexists. split; [done|].
    assert (¬ stale db now h) as Hns by tauto. unfold stale in Hns. rewrite E in Hns. lia.
Qed.

(** Evictions at times up to [t + PUSH_GRACE] keep what was pushed since [t]. *)
Lemma evict_all_closure attempts db t h x :
  db_wf db → pushed_since db t h →
  Forall (λ c, (c.2 ≤ t + PUSH_GRACE)%Z) attempts →
  in_closure db h x → present (evict_all db attempts) x.
Proof.
  revert db. induction attempts as [|c attempts IH]; intros db Hwf Hsince Htimes Hx.
  - destruct Hsince as (row & Hrow & _). eapply shrinks_closure; [by apply shrinks_refl| |done].
    by exists row.
  - inversion Htimes as [|? ? Hc Hcs]; subst. cbn [evict_all foldl].
    pose proof (evict_object_shrinks db c.1 c.2 Hwf) as Hsh.
    assert (Hh : pushed_since (evict_object db c.1 c.2).1 t h).
    { destruct Hsince as (row & Hrow & Ht).
      assert (present (evict_object db c.1 c.2).1 h) as [row' Hrow'].
      { apply evict_object_protected; [by exists row|]. right. exists row. split; [done|lia]. }
      exists row'. split; [done|]. pose proof (lookup_weaken _ _ _ _ Hrow' (sh_rows _ _ Hsh)).
      by simplify_eq. }
    assert (present (evict_object db c.1 c.2).1 h) as Hp by (destruct Hh as (? & ? & _); by eexists).
    apply IH; [by apply db_wf_evict_object|done|done|].
    by eapply shrinks_closure.
Qed.

(** C35: A negotiation reports exactly the absent paths, and from then on, for the push grace period
    less the debounce, every path in the closure of a present path it was asked about survives every
    eviction and is in no prune. *)
Theorem negotiation_protects_closures db hashes now h x :
  db_wf db → h ∈ hashes →
  let '(db', missing_) := missing db hashes now in
  (h ∈ missing_ ↔ ¬ present db h) ∧
  (h ∉ missing_ → in_closure db h x →
    (∀ attempts, Forall (λ c, (c.2 ≤ now + (PUSH_GRACE - PUSHED_AT_DEBOUNCE))%Z) attempts →
      present (evict_all db' attempts) x) ∧
    (∀ before later doomed, (later ≤ now + (PUSH_GRACE - PUSHED_AT_DEBOUNCE))%Z →
      prunable db' before later = Ok doomed → x ∉ map b_store_path_hash doomed)).
Proof.
  intros Hwf Hin. pose proof (missing_pushed_since db hashes now h Hin) as Hsince.
  pose proof (missing_spec db hashes now) as (Hmiss & Hrows & Hrefs & _).
  pose proof (db_wf_missing db hashes now Hwf) as Hwf'.
  destruct (missing db hashes now) as [db' missing_]. simpl in *. split.
  { rewrite Hmiss, list_elem_of_filter. unfold present. rewrite <-eq_None_not_Some. tauto. }
  intros Hpresent Hx. specialize (Hsince Hpresent).
  assert (Hclo : in_closure db' h x).
  { revert Hx. apply rtc_congruence with (f := λ a, a). intros a b [(r & Hr & Hab) [row Hb]]. split.
    - exists r. by rewrite Hrefs.
    - unfold present. rewrite Hrows, Hb. case_decide; by eexists. }
  split.
  - intros attempts Htimes. eapply evict_all_closure; [done|done| |done].
    eapply Forall_impl; [done|]. intros c Hc. simpl in *. lia.
  - intros before later doomed Hlater Hp Hdoomed.
    apply (prunable_hash _ _ _ _ _ Hp) in Hdoomed as [_ Hkeep].
    apply prunable_Ok in Hp as [Hbefore _]. apply Hkeep, elem_of_keep. exists h. split.
    + apply elem_of_keep_roots. left. destruct Hsince as (row & Hrow & Ht). exists row. split; [done|lia].
    + revert Hclo. apply rtc_congruence with (f := λ a, a). by intros a b [? _].
Qed.

(** ** Candidates go together *)

Lemma evict_all_candidates cs db now c :
  candidate db now c → c.1 ∉ map fst cs → Forall (candidate db now) cs → NoDup (map fst cs) →
  candidate (evict_all db (map (λ e, (e.1, now)) cs)) now c.
Proof.
  revert db. induction cs as [|e cs IH]; intros db Hc Hne Hcs Hnd; [done|].
  apply Forall_cons in Hcs as [He Hcs]. cbn in Hne, Hnd. apply NoDup_cons in Hnd as [Hfresh Hnd].
  cbn [map evict_all foldl fst snd]. rewrite (candidate_evict _ _ _ He). cbn [fst].
  apply IH; [|set_solver| |done].
  - apply candidate_remove; [set_solver|done].
  - rewrite Forall_forall in *. intros e' He'. apply candidate_remove; [|by apply Hcs].
    intros Heq. apply Hfresh. rewrite <-Heq. by apply list_elem_of_fmap_2.
Qed.

(** The rows [evictable] lists can be evicted in any order: each is still evictable once
    the others before it are gone, and frees its recorded size. *)
Theorem evictable_rows_go_together db limit now before c after :
  before ++ c :: after ⊆+ evictable db limit now →
  let db' := evict_all db (map (λ e, (e.1, now)) before) in
  evict_object db' c.1 now = (remove_row db' c.1 c.2, Some c.2) ∧ file_size db c.1 = Some c.2.
Proof.
  intros Hsub.
  assert (Hall : Forall (candidate db now) (before ++ c :: after)).
  { apply Forall_forall. intros e He. eapply evictable_candidate. by eapply elem_of_submseteq. }
  assert (Hnd : NoDup (map fst (before ++ c :: after))).
  { pose proof (evictable_nodup db limit now) as Hnd. apply submseteq_Permutation in Hsub as [rest Hp].
    rewrite Hp, map_app in Hnd. by apply NoDup_app in Hnd as (? & _ & _). }
  rewrite map_app in Hnd. cbn [map] in Hnd.
  apply NoDup_app in Hnd as (Hndb & Hdisj & Hndc). apply Forall_app in Hall as [Hb Hc].
  apply Forall_cons in Hc as [Hc _]. split.
  - apply candidate_evict, evict_all_candidates; [done| |done|done].
    intros Hin. apply (Hdisj c.1); [done|by left].
  - destruct Hc as (row & Hrow & <- & _). unfold file_size. by rewrite Hrow.
Qed.

(** ** Examples *)

Definition negotiating_db : Db := mkDb {["a" := example_row "a" 7 0]} ∅ ∅ 7.

Lemma negotiation_protects_closures_witness :
  (missing negotiating_db ["a"; "b"] 100000).2 = ["b"] ∧
  present (evict_all (missing negotiating_db ["a"; "b"] 100000).1 [("a", 180000%Z)]) "a".
Proof.
  pose proof (negotiation_protects_closures negotiating_db ["a"; "b"] 100000 "a" "a"
    ltac:(by_decision) ltac:(set_solver)) as H.
  assert ((missing negotiating_db ["a"; "b"] 100000).2 = ["b"]) as Hm by by_computation.
  destruct (missing negotiating_db ["a"; "b"] 100000) as [db' m]. cbn [fst snd] in *. subst m.
  split; [done|]. destruct H as [_ H]. destruct H as [H _]; [set_solver|apply rtc_refl|].
  apply H. repeat constructor. compute. congruence.
Defined.

Lemma evictable_rows_go_together_witness :
  let db := mkDb {["a" := example_row "a" 7 0; "b" := example_row "b" 5 0]} ∅ ∅ 12 in
  (evict_object (evict_all db [("b", 100000%Z)]) "a" 100000).2 = Some 7%Z.
Proof.
  intros db.
  assert ([("b", 5%Z)] ++ ("a", 7%Z) :: [] ⊆+ evictable db 10 100000) as Hs.
  { assert (evictable db 10 100000 = [("a", 7%Z); ("b", 5%Z)]) as -> by by_computation. by_decision. }
  exact (f_equal snd (proj1 (evictable_rows_go_together db 10 100000 _ _ _ Hs))).
Defined.
