(* ===== verification/Prog.v ===== *)
(** * Prog: effectful code as trees of requests

    The handlers of the Pusher run on requests to a shared world: the database
    connection, the in-flight set, the bucket, the clock. A handler is a value
    of [Prog Op A]: it either returns, or issues a request of the signature
    [Op] and continues with the response. The tree is inductive, so every
    handler terminates once each of its requests is answered.

    [run_trace] gives a handler its meaning against arbitrary responses: the
    requests it issued, in order, each with the response it got. *)

From S2P Require Import Prelude.

(** ** Failures

    The code downcasts an [anyhow::Error] to the four types below; every other
    error is [Fail_Other]. *)
Inductive Failure :=
  | Fail_ClientBody (msg : string)    (* [storage::ClientBodyError] *)
  | Fail_BodyOverLimit (msg : string) (* [storage::BodyOverLimit] *)
  | Fail_S3 (msg : string)            (* [storage::S3Failure] *)
  | Fail_Other (msg : string).

(** ** Requests and responses *)

Inductive Prog (Op : Type → Type) (A : Type) : Type :=
  | Ret (a : A)
  | Step {B : Type} (op : Op B) (k : B → Prog Op A).
Arguments Ret {Op A} a.
Arguments Step {Op A B} op k.

Fixpoint prog_bind {Op A B} (p : Prog Op A) (f : A → Prog Op B) : Prog Op B :=
  match p with
  | Ret a => f a
  | Step op k => Step op (λ b, prog_bind (k b) f)
  end.

(** One request, its response returned. *)
Definition request {Op B} (op : Op B) : Prog Op B := Step op Ret.

Notation "'do' x '<-' p ';' k" := (prog_bind p (λ x, k))
  (at level 100, x binder, p at level 99, k at level 200, right associativity) : garret_scope.

(** [?] on the result of an effectful call. *)
Notation "'do?' x '<-' p ';' k" :=
  (prog_bind p (λ r, match r with Ok x => k | Err err => Ret (Err err) end))
  (at level 100, x binder, p at level 99, k at level 200, right associativity) : garret_scope.

(** One request answered with a response. *)
Inductive Event (Op : Type → Type) : Type :=
  | Ev {B : Type} (op : Op B) (response : B).
Arguments Ev {Op B} op response.

(** [run_trace p tr a]: answered as in [tr], [p] returns [a]. *)
Inductive run_trace {Op A} : Prog Op A → list (Event Op) → A → Prop :=
  | run_ret a : run_trace (Ret a) [] a
  | run_step {B} (op : Op B) (k : B → Prog Op A) b tr a :
      run_trace (k b) tr a → run_trace (Step op k) (Ev op b :: tr) a.

Lemma run_trace_ret {Op A} (a a' : A) (tr : list (Event Op)) :
  run_trace (Ret a) tr a' → tr = [] ∧ a' = a.
Proof. intros H. by inversion H. Qed.

(** A run of a request starts with that request. *)
Lemma run_trace_step {Op A B} (op : Op B) (k : B → Prog Op A) tr a :
  run_trace (Step op k) tr a → ∃ b tr', tr = Ev op b :: tr' ∧ run_trace (k b) tr' a.
Proof.
  intros H.
  refine (match H in run_trace p tr a return
            match p with
            | Ret _ => True
            | Step op k => ∃ b tr', tr = Ev op b :: tr' ∧ run_trace (k b) tr' a
            end with
          | run_ret _ => I
          | run_step op k b tr a Hr => _
          end).
  eauto.
Qed.

Lemma run_trace_bind {Op A B} (p : Prog Op A) (f : A → Prog Op B) tr b :
  run_trace (prog_bind p f) tr b ↔
  ∃ a tr1 tr2, tr = tr1 ++ tr2 ∧ run_trace p tr1 a ∧ run_trace (f a) tr2 b.
Proof.
  split.
  - revert tr. induction p as [a|C op k IH]; intros tr; cbn [prog_bind].
    + intros Hr. exists a, [], tr. split_and!; [done|constructor|done].
    + intros (c & tr' & -> & Hr)%run_trace_step. apply IH in Hr as (a & tr1 & tr2 & -> & H1 & H2).
      exists a, (Ev op c :: tr1), tr2. split_and!; [done|by constructor|done].
  - intros (a & tr1 & tr2 & -> & H1 & H2). induction H1 as [a|C op k c tr1 a H1 IH]; [done|].
    cbn [prog_bind app]. constructor. by apply IH.
Qed.

Lemma run_trace_request {Op B} (op : Op B) tr b :
  run_trace (request op) tr b ↔ tr = [Ev op b].
Proof.
  split.
  - by intros (b' & tr' & -> & [-> ->]%run_trace_ret)%run_trace_step.
  - intros ->. by repeat constructor.
Qed.

Lemma run_trace_request_bind {Op B A} (op : Op B) (f : B → Prog Op A) tr a :
  run_trace (do b <- request op; f b) tr a ↔
  ∃ b tr', tr = Ev op b :: tr' ∧ run_trace (f b) tr' a.
Proof.
  split; [by intros H%run_trace_step|]. intros (b & tr' & -> & H). by constructor.
Qed.

(** *** One signature inside another *)

Fixpoint prog_lift {Op Op' : Type → Type} {A} (f : ∀ B, Op B → Op' B) (p : Prog Op A) : Prog Op' A :=
  match p with
  | Ret a => Ret a
  | Step op k => Step (f _ op) (λ b, prog_lift f (k b))
  end.

Definition lift_event {Op Op' : Type → Type} (f : ∀ B, Op B → Op' B) (e : Event Op) : Event Op' :=
  match e with Ev op b => Ev (f _ op) b end.

Lemma run_trace_lift {Op Op' : Type → Type} {A} (f : ∀ B, Op B → Op' B) (p : Prog Op A) tr a :
  run_trace (prog_lift f p) tr a ↔ ∃ tr0, tr = map (lift_event f) tr0 ∧ run_trace p tr0 a.
Proof.
  split.
  - revert tr. induction p as [a'|B op k IH]; intros tr; cbn [prog_lift].
    + intros [-> ->]%run_trace_ret. exists []. split; [done|constructor].
    + intros (b & tr' & -> & (tr0 & -> & H)%IH)%run_trace_step. exists (Ev op b :: tr0). split; [done|by constructor].
  - intros (tr0 & -> & H). induction H as [a|B op k b tr a _ IH]; cbn; by constructor.
Qed.

(** ** Runs in a world

    [step w op b w']: in [w], the request [op] may be answered with [b], and
    the world is [w'] afterwards. *)
Section world.
Context {Op : Type → Type} {W : Type} (step : W → ∀ B, Op B → B → W → Prop).

Inductive prog_runs {A} : W → Prog Op A → list (Event Op) → W → A → Prop :=
  | prog_runs_ret w a : prog_runs w (Ret a) [] w a
  | prog_runs_next {B} w (op : Op B) k b w1 tr w2 a :
      step w B op b w1 → prog_runs w1 (k b) tr w2 a →
      prog_runs w (Step op k) (Ev op b :: tr) w2 a.

Lemma prog_runs_ret_inv {A} w (a : A) tr w' a' :
  prog_runs w (Ret a) tr w' a' → tr = [] ∧ w' = w ∧ a' = a.
Proof. intros H. by inversion H. Qed.

Lemma prog_runs_step {A B} w (op : Op B) (k : B → Prog Op A) tr w2 a :
  prog_runs w (Step op k) tr w2 a →
  ∃ b w1 tr', tr = Ev op b :: tr' ∧ step w B op b w1 ∧ prog_runs w1 (k b) tr' w2 a.
Proof.
  intros H.
  refine (match H in prog_runs w p tr w2 a return
            match p with
            | Ret _ => True
            | Step op k => ∃ b w1 tr', tr = Ev op b :: tr' ∧ step w _ op b w1 ∧ prog_runs w1 (k b) tr' w2 a
            end with
          | prog_runs_ret _ _ => I
          | prog_runs_next w op k b w1 tr w2 a Hs Hr => _
          end).
  eauto 6.
Qed.

Lemma prog_runs_request {A B} w (op : Op B) (f : B → Prog Op A) tr w2 a :
  prog_runs w (do b <- request op; f b) tr w2 a →
  ∃ b w1 tr', tr = Ev op b :: tr' ∧ step w B op b w1 ∧ prog_runs w1 (f b) tr' w2 a.
Proof. apply prog_runs_step. Qed.

Lemma prog_runs_bind {A B} w (p : Prog Op A) (f : A → Prog Op B) tr w2 b :
  prog_runs w (prog_bind p f) tr w2 b →
  ∃ a w1 tr1 tr2, tr = tr1 ++ tr2 ∧ prog_runs w p tr1 w1 a ∧ prog_runs w1 (f a) tr2 w2 b.
Proof.
  revert w tr. induction p as [a|C op k IH]; intros w tr; cbn [prog_bind].
  - intros Hr. exists a, w, [], tr. split_and!; [done|constructor|done].
  - intros (c & w1 & tr' & -> & Hs & Hr)%prog_runs_step.
    apply IH in Hr as (a & w3 & tr1 & tr2 & -> & H1 & H2).
    exists a, w3, (Ev op c :: tr1), tr2. split_and!; [done|by econstructor|done].
Qed.

(** [inv] holds before every request and at the end, where [post] holds too: so
    it holds wherever a run may be cut off. *)
Fixpoint always {A} (inv : W → Prop) (p : Prog Op A) (w : W) (post : A → W → Prop) : Prop :=
  inv w ∧
  match p with
  | Ret a => post a w
  | Step op k => ∀ b w', step w _ op b w' → always inv (k b) w' post
  end.

Lemma always_weaken {A} (inv inv' : W → Prop) (p : Prog Op A) w (post post' : A → W → Prop) :
  always inv p w post → (∀ w, inv w → inv' w) → (∀ a w, inv w → post a w → post' a w) → always inv' p w post'.
Proof.
  intros H Hi Hp. revert w H. induction p as [a|B op k IH]; cbn; intros w [? H]; split; eauto.
Qed.

Lemma always_and {A} (inv inv' : W → Prop) (p : Prog Op A) w (post post' : A → W → Prop) :
  always inv p w post → always inv' p w post' → always (λ w, inv w ∧ inv' w) p w (λ a w, post a w ∧ post' a w).
Proof. revert w. induction p as [a|B op k IH]; cbn; intros w [? H] [? H']; split; auto. Qed.

Lemma always_bind {A B} (inv : W → Prop) (p : Prog Op A) (f : A → Prog Op B) w (post : B → W → Prop) :
  always inv p w (λ a w, always inv (f a) w post) → always inv (prog_bind p f) w post.
Proof.
  revert w. induction p as [a|C op k IH]; cbn; intros w [Hi H]; [done|]. split; [done|]. eauto.
Qed.

Lemma always_ret {A} (inv : W → Prop) (a : A) w (post : A → W → Prop) :
  inv w → post a w → always inv (Ret a) w post.
Proof. by split. Qed.

Lemma always_request {A B} (inv : W → Prop) (op : Op B) (f : B → Prog Op A) w (post : A → W → Prop) :
  inv w → (∀ b w', step w B op b w' → always inv (f b) w' post) →
  always inv (do b <- request op; f b) w post.
Proof. by split. Qed.

Lemma always_runs {A} (inv : W → Prop) (p : Prog Op A) w post tr w' a :
  always inv p w post → prog_runs w p tr w' a → inv w' ∧ post a w'.
Proof.
  intros H Hr. induction Hr as [w a|B w op k b w1 tr w2 a Hs Hr IH]; cbn in H; [done|].
  destruct H as [_ H]. eauto.
Qed.

(** A run of [p] that changes nothing ends with what [p] may return. *)
Lemma always_still {A} (inv : W → Prop) (p : Prog Op A) w (post : A → W → Prop) :
  inv w → (∀ B (op : Op B) b w', step w B op b w' → w' = w) → (∀ tr a, run_trace p tr a → post a w) →
  always inv p w post.
Proof.
  intros Hi Hs. induction p as [a|B op k IH]; intros Hp; cbn; (split; [done|]).
  - apply (Hp []). constructor.
  - intros b w' ->%Hs. apply IH. intros tr a Hr. apply (Hp (Ev op b :: tr)). by constructor.
Qed.

(** The trace of a run in a world is a trace of the program. *)
Lemma prog_runs_trace {A} w (p : Prog Op A) tr w' a : prog_runs w p tr w' a → run_trace p tr a.
Proof. induction 1; by constructor. Qed.

(** *** Deterministic worlds

    [answer] plays the world; [prog_exec] runs a program in it. *)
Fixpoint prog_exec {A} (answer : W → ∀ B, Op B → B * W) (w : W) (p : Prog Op A) : list (Event Op) * W * A :=
  match p with
  | Ret a => ([], w, a)
  | Step op k =>
      let '(b, w1) := answer w _ op in
      let '(tr, w2, a) := prog_exec answer w1 (k b) in
      (Ev op b :: tr, w2, a)
  end.

Lemma prog_exec_runs {A} answer w (p : Prog Op A) :
  (∀ w B (op : Op B), step w B op (answer w B op).1 (answer w B op).2) →
  prog_runs w p (prog_exec answer w p).1.1 (prog_exec answer w p).1.2 (prog_exec answer w p).2.
Proof.
  intros Hs. revert w. induction p as [a|B op k IH]; intros w; cbn [prog_exec]; [constructor|].
  specialize (Hs w B op). destruct (answer w B op) as [b w1]. specialize (IH b w1).
  destruct (prog_exec answer w1 (k b)) as [[tr w2] a]. by econstructor.
Qed.

(** The same where the answers are right in the worlds of [inv] only. *)
Lemma prog_exec_runs_in {A} (inv : W → Prop) answer w (p : Prog Op A) :
  (∀ w B (op : Op B), inv w → step w B op (answer w B op).1 (answer w B op).2 ∧ inv (answer w B op).2) → inv w →
  prog_runs w p (prog_exec answer w p).1.1 (prog_exec answer w p).1.2 (prog_exec answer w p).2.
Proof.
  intros Hs. revert w. induction p as [a|B op k IH]; intros w Hi; cbn [prog_exec]; [constructor|].
  destruct (Hs w B op Hi) as [Hstep Hi1]. destruct (answer w B op) as [b w1]. specialize (IH b w1 Hi1).
  destruct (prog_exec answer w1 (k b)) as [[tr w2] a]. by econstructor.
Qed.
End world.

(** A lifted program in the larger world: its requests act there as in [step1],
    or leave it alone. *)
Lemma always_lift {Op Op' : Type → Type} {W A} step1 step2 (f : ∀ B, Op B → Op' B) inv (p : Prog Op A) (w : W) post :
  (∀ w B (op : Op B) b w', step2 w B (f B op) b w' → step1 w B op b w') →
  always step1 inv p w post → always step2 inv (prog_lift f p) w post.
Proof. intros Hs. revert w. induction p as [a|B op k IH]; cbn; intros w [Hi H]; split; eauto. Qed.
