(* ===== verification/Storage.v ===== *)
(** * Storage: upload budget, blob keys, streamed uploads and bucket listings

    [crates/garret-server/src/storage.rs]. Sizes and durations (in seconds)
    are [Z]; bytes are [list Z]. S3 itself is not under verification: a method
    is a [Prog] over the requests it sends, and theorems hold for every answer
    S3 may give. SHA-256 is a parameter. A request body is any [ByteStream].

    Not modelled: building the client, presigning, metrics, and the waits on
    the part semaphore ([acquire] says how many permits a buffer takes). *)

From stdpp Require Import pretty.
From S2P Require Import Prelude Text Common InFlight Prog.

(** ** Upload limits *)

Record UploadLimits := mkLimits {
  part_size : Z;
  max_parts_in_flight : Z;
  unit_ : Z;
  part_units : Z;
  total_units : Z;
}.

Definition units_ceil (bytes shift : Z) : Z :=
  (Z.shiftr bytes shift + (if Z.land bytes (Z.shiftl 1 shift - 1) =? 0 then 0 else 1))%Z.

(** [(unit, part_units, total_units)]. *)
Definition budget (part_size max_in_flight_bytes : Z) : Z * Z * Z :=
  let shift := Z.log2 (clampZ 1 (64 * 1024) (Z.shiftr part_size 8)) in
  let unit_ := Z.shiftl 1 shift in
  let part_units := units_ceil part_size shift in
  let total_units := Z.max (Z.shiftr max_in_flight_bytes shift) part_units in
  (unit_, part_units, total_units).

Fixpoint pos_trailing_zeros (p : positive) : Z :=
  match p with xO p => 1 + pos_trailing_zeros p | _ => 0 end.
Definition trailing_zeros (x : Z) : Z :=
  match x with Zpos p => pos_trailing_zeros p | _ => 64 end.

Definition units_for (bytes unit_ part_units : Z) : Z :=
  clampZ 1 part_units (units_ceil bytes (trailing_zeros unit_)).

(** [UploadLimits::new]. *)
Definition upload_limits (part_size max_parts_in_flight max_in_flight_bytes : Z) : UploadLimits :=
  let '(unit_, part_units, total_units) := budget part_size max_in_flight_bytes in
  mkLimits part_size max_parts_in_flight unit_ part_units total_units.

Definition total_slots (limits : UploadLimits) : Z := total_units limits / part_units limits.

(** Permits [acquire] takes for a buffer; the semaphore counts in [u32]. *)
Definition acquire_units (limits : UploadLimits) (bytes : Z) : Z :=
  (units_for bytes (unit_ limits) (part_units limits) mod 2 ^ 32)%Z.

(** ** Blob keys *)

Definition key_for (store_path_hash : string) : string := "nar/" +:+ store_path_hash +:+ ".nar.zst".

Definition hash_for (key : string) : option string :=
  k ← strip_prefix "nar/" key;
  h ← strip_suffix ".nar.zst" k;
  if bool_decide (h = "") then None else Some h.

Record Blob := mkBlob {
  bl_hash : string;
  bl_age : Z;
  bl_size : Z;
}.

Definition orphan (known : gset string) (in_flight : State) (grace : Z) (blob : Blob) : bool :=
  negb (bool_decide (bl_hash blob ∈ known)) && negb (inflight_contains in_flight (bl_hash blob))
  && (grace <=? bl_age blob)%Z.

Definition orphan_hashes (blobs : list Blob) (known : gset string) (in_flight : State) (grace : Z)
    : list string :=
  map bl_hash (filter (λ blob, orphan known in_flight grace blob = true) blobs).

(** [age]: zero for a missing or future timestamp. *)
Definition age (now : Z) (at_ : option Z) : Z :=
  match at_ with Some t => Z.max 0 (now - t) | None => 0 end.

(** ** Request bodies *)

(** What one poll of a body yields: bytes, an error, or nothing for as long as
    the idle limit. *)
Inductive Item :=
  | Item_Data (bytes : list Z)
  | Item_Error (msg : string)
  | Item_Stall.

Definition item_bytes (i : Item) : list Z :=
  match i with Item_Data bytes => bytes | _ => [] end.

(** A [Stream] of items that ends: [items_left] bounds the items and bytes to come. *)
Class ByteStream (S : Type) := {
  pull : S → option Item * S;
  items_left : S → nat;
  pull_left : ∀ s i s', pull s = (Some i, s') →
    items_left s' + length (item_bytes i) < items_left s;
  pull_end : ∀ s s', pull s = (None, s') → items_left s' ≤ items_left s;
}.

#[export] Program Instance list_stream : ByteStream (list Item) := {|
  pull s := match s with [] => (None, []) | i :: s => (Some i, s) end;
  items_left := foldr (λ i n, S (length (item_bytes i) + n)) 0;
|}.
Next Obligation. intros [|i0 s] i s' H; simplify_eq/=; lia. Qed.
Next Obligation. intros [|i0 s] s' H; simplify_eq/=; lia. Qed.

(** [s] yields exactly [chunks], leaving [s']. *)
Inductive pulls {S} `{ByteStream S} : S → list (list Z) → S → Prop :=
  | pulls_nil s : pulls s [] s
  | pulls_cons s chunk s' chunks s'' :
      pull s = (Some (Item_Data chunk), s') → pulls s' chunks s'' → pulls s (chunk :: chunks) s''.

Lemma pulls_snoc {S} `{ByteStream S} (s : S) chunks s' chunk s'' :
  pulls s chunks s' → pull s' = (Some (Item_Data chunk), s'') → pulls s (chunks ++ [chunk]) s''.
Proof. induction 1; intros Hp; [by repeat econstructor|]. econstructor; eauto. Qed.

(** The stall error; the code adds the byte count and the seconds passed. *)
Definition stalled (phase : string) : Failure :=
  Fail_ClientBody ("upload body stalled: nothing received (" +:+ phase +:+ ")").

Definition next_chunk {S} `{ByteStream S} (body : S) (phase : string)
    : Result (option (Result (list Z) string)) Failure * S :=
  match pull body with
  | (None, body) => (Ok None, body)
  | (Some (Item_Data chunk), body) => (Ok (Some (Ok chunk)), body)
  | (Some (Item_Error e), body) => (Ok (Some (Err e)), body)
  | (Some Item_Stall, body) => (Err (stalled phase), body)
  end.

(** [BodyReader]: [hashed] are the bytes fed to the hasher. *)
Record BodyReader (S : Type) := mkReader {
  br_body : S;
  br_carry : option (list Z);
  br_hashed : list Z;
  br_received : Z;
}.
Arguments mkReader {S} br_body br_carry br_hashed br_received.
Arguments br_body {S} _.
Arguments br_carry {S} _.
Arguments br_hashed {S} _.
Arguments br_received {S} _.

Definition reader_new {S} (body : S) : BodyReader S := mkReader body None [] 0.

Definition reader_next {S} `{ByteStream S} (r : BodyReader S) (phase : string)
    : Result (option (list Z)) Failure * BodyReader S :=
  match br_carry r with
  | Some carry => (Ok (Some carry), mkReader (br_body r) None (br_hashed r) (br_received r))
  | None =>
      let '(chunk, body) := next_chunk (br_body r) phase in
      let r := mkReader body None (br_hashed r) (br_received r) in
      match chunk with
      | Err e => (Err e, r)
      | Ok None => (Ok None, r)
      | Ok (Some (Ok chunk)) => (Ok (Some chunk), r)
      | Ok (Some (Err e)) => (Err (Fail_ClientBody ("reading request body: " +:+ e)), r)
      end
  end.

Definition reader_append {S} (r : BodyReader S) (part bytes : list Z) : list Z * BodyReader S :=
  (part ++ bytes,
   mkReader (br_body r) (br_carry r) (br_hashed r ++ bytes) (br_received r + len_Z bytes)).

Definition set_carry {S} (r : BodyReader S) (carry : list Z) : BodyReader S :=
  mkReader (br_body r) (Some carry) (br_hashed r) (br_received r).

(** Bounds the chunks and bytes still to come, the carry included. *)
Definition reader_left {S} `{ByteStream S} (r : BodyReader S) : nat :=
  items_left (br_body r) +
    match br_carry r with Some carry => Datatypes.S (length carry) | None => 0 end.

Fixpoint fill_loop {S} `{ByteStream S} (fuel : nat) (r : BodyReader S) (part : list Z) (cap : Z)
    (phase : string) : Result (list Z) Failure * BodyReader S :=
  if (cap <=? len_Z part)%Z then (Ok part, r)
  else match fuel with
  | 0 => (Err (Fail_Other "fill: out of fuel"), r)
  | Datatypes.S fuel =>
      match reader_next r phase with
      | (Err e, r) => (Err e, r)
      | (Ok None, r) => (Ok part, r)
      | (Ok (Some chunk), r) =>
          let room := (cap - len_Z part)%Z in
          if (room <? len_Z chunk)%Z then
            let '(part, r) := reader_append r part (take (Z.to_nat room) chunk) in
            (Ok part, set_carry r (drop (Z.to_nat room) chunk))
          else
            let '(part, r) := reader_append r part chunk in
            fill_loop fuel r part cap phase
      end
  end.

(** [fill]: each lap takes a chunk, so the chunks left bound the laps. *)
Definition fill {S} `{ByteStream S} (r : BodyReader S) (part : list Z) (cap : Z) (phase : string)
    : Result (list Z) Failure * BodyReader S :=
  fill_loop (Datatypes.S (reader_left r)) r part cap phase.

Fixpoint has_more_loop {S} `{ByteStream S} (fuel : nat) (r : BodyReader S) (phase : string)
    : Result bool Failure * BodyReader S :=
  match fuel with
  | 0 => (Err (Fail_Other "has_more: out of fuel"), r)
  | Datatypes.S fuel =>
      match reader_next r phase with
      | (Err e, r) => (Err e, r)
      | (Ok None, r) => (Ok false, r)
      | (Ok (Some []), r) => has_more_loop fuel r phase
      | (Ok (Some chunk), r) => (Ok true, set_carry r chunk)
      end
  end.

Definition has_more {S} `{ByteStream S} (r : BodyReader S) (phase : string)
    : Result bool Failure * BodyReader S :=
  has_more_loop (Datatypes.S (reader_left r)) r phase.

(** [BodyReader::finish]. *)
Definition reader_finish {S} (sha256 : list Z → list Z) (r : BodyReader S) : list Z * Z :=
  (sha256 (br_hashed r), br_received r).

(** ** Requests to S3 *)

Record CompletedPart := mkPart {
  part_number : Z;
  e_tag : string;
}.

Record DeleteError := mkDeleteError {
  de_key : option string;
  de_code : option string;
  de_message : option string;
}.

Record S3Object := mkS3Object {
  s3_key : option string;
  s3_last_modified : option Z;
  s3_size : option Z;
}.

Record ObjectPage := mkObjectPage {
  contents : list S3Object;
  next_continuation_token : option string;
}.

Record S3Upload := mkS3Upload {
  up_key : option string;
  up_id : option string;
  up_initiated : option Z;
}.

Record UploadPage := mkUploadPage {
  page_uploads : list S3Upload;
  is_truncated : option bool;
  next_key_marker : option string;
  next_upload_id_marker : option string;
}.

(** What the methods ask of S3, the clock and the task set. A part uploads on
    its own task: [UploadPart] spawns it, [JoinNext] waits for the next of the
    spawned ones to end (the [pick]-th, whichever S3 finishes first), and
    [ShutdownParts] stops those still running. *)
Inductive S3Op : Type → Type :=
  | PutObject (key : string) (body : list Z) : S3Op (Result unit string)
  | CreateMultipart (key : string) : S3Op (Result (option string) string)
  | UploadPart (key upload_id : string) (part_number : Z) (body : list Z) : S3Op unit
  | JoinNext (in_flight : list Z) : S3Op (nat * Result string string)
  | ShutdownParts : S3Op unit
  | CompleteMultipart (key upload_id : string) (parts : list CompletedPart) : S3Op (Result unit string)
  | AbortMultipart (key upload_id : string) : S3Op (Result unit string)
  | DeleteObjects (keys : list string) : S3Op (Result (list DeleteError) string)
  | ListObjects (token : option string) : S3Op (Result ObjectPage string)
  | ListMultipart (key_marker upload_id_marker : option string) : S3Op (Result UploadPage string)
  | ClockNow : S3Op Z
  | InFlightContains (hash : string) : S3Op bool.

Abbreviation S3 := (Prog S3Op).

Definition storage_put (key : string) (body : list Z) : S3 (Result unit Failure) :=
  do r <- request (PutObject key body);
  Ret (map_err (λ _, Fail_S3 ("uploading " +:+ key)) r).

(** [collect]: the next part to finish, and those still in flight. *)
Definition collect (key : string) (in_flight : list Z) : S3 (Result (CompletedPart * list Z) Failure) :=
  match in_flight with
  | [] => Ret (Err (Fail_Other "no part upload was in flight"))
  | n :: _ =>
      do answer <- request (JoinNext in_flight);
      let i := answer.1 mod length in_flight in
      let n := default n (in_flight !! i) in
      Ret (match answer.2 with
           | Ok e_tag => Ok (mkPart n e_tag, delete i in_flight)
           | Err _ => Err (Fail_S3 ("uploading part of " +:+ key))
           end)
  end.

(** Collects until fewer than [limit] parts are in flight. *)
Fixpoint collect_below (fuel : nat) (key : string) (limit : Z) (in_flight : list Z)
    (completed : list CompletedPart) : S3 (Result (list Z * list CompletedPart) Failure) :=
  if (len_Z in_flight <? limit)%Z then Ret (Ok (in_flight, completed))
  else match fuel with
  | 0 => Ret (Err (Fail_Other "collect: out of fuel"))
  | Datatypes.S fuel =>
      do? done <- collect key in_flight;
      collect_below fuel key limit done.2 (completed ++ [done.1])
  end.

Definition part_number_le : relation CompletedPart := λ p q, (part_number p ≤ part_number q)%Z.
#[export] Instance part_number_le_dec : RelDecision part_number_le.
Proof. intros p q. unfold part_number_le. apply _. Defined.
#[export] Instance part_number_le_total : Total part_number_le.
Proof. intros p q. unfold part_number_le. lia. Qed.

(** The loop of [multipart_body] that reads and spawns parts 2..N. *)
Fixpoint multipart_parts {S} `{ByteStream S} (fuel : nat) (key upload_id : string) (limits : UploadLimits)
    (in_flight : list Z) (completed : list CompletedPart) (n : Z) (r : BodyReader S)
    : S3 (Result (list Z * list CompletedPart) Failure * BodyReader S) :=
  match fuel with
  | 0 => Ret (Err (Fail_Other "multipart_body: out of fuel"), r)
  | Datatypes.S fuel =>
      do room <- collect_below (Datatypes.S (length in_flight)) key (max_parts_in_flight limits)
                   in_flight completed;
      match room with
      | Err e => Ret (Err e, r)
      | Ok (in_flight, completed) =>
          match fill r [] (part_size limits) "multipart" with
          | (Err e, r) => Ret (Err e, r)
          | (Ok [], r) => Ret (Ok (in_flight, completed), r)
          | (Ok part, r) =>
              let n := (n + 1)%Z in
              do _ <- request (UploadPart key upload_id n part);
              let in_flight := in_flight ++ [n] in
              if (len_Z part <? part_size limits)%Z then Ret (Ok (in_flight, completed), r)
              else multipart_parts fuel key upload_id limits in_flight completed n r
          end
      end
  end.

(** A whole part takes at least one byte, so the bytes left bound the laps. *)
Definition multipart_body {S} `{ByteStream S} (key upload_id : string)
    (limits : UploadLimits) (in_flight : list Z) (r : BodyReader S)
    : S3 (Result unit Failure * BodyReader S) :=
  do parts <- multipart_parts (Datatypes.S (reader_left r)) key upload_id limits in_flight [] 1 r;
  let '(parts, r) := parts in
  match parts with
  | Err e => Ret (Err e, r)
  | Ok (in_flight, completed) =>
      do all <- collect_below (length in_flight) key 1 in_flight completed;
      match all with
      | Err e => Ret (Err e, r)
      | Ok (_, completed) =>
          do done <- request (CompleteMultipart key upload_id (order_by part_number_le completed));
          Ret (map_err (λ _, Fail_S3 ("completing multipart upload for " +:+ key)) done, r)
      end
  end.

(** [reserve]: what the first buffer may hold. *)
Definition first_reserve (limits : UploadLimits) (first_part_hint : Z) : Z :=
  clampZ 1 (part_size limits) first_part_hint.

Definition put_streaming {S} `{ByteStream S} (sha256 : list Z → list Z) (key : string) (body : S)
    (limits : UploadLimits) (first_part_hint : Z) : S3 (Result (list Z * Z) Failure * S) :=
  let reserve := first_reserve limits first_part_hint in
  match fill (reader_new body) [] reserve "first_part" with
  | (Err e, r) => Ret (Err e, br_body r)
  | (Ok first, r) =>
      let '(over, r) :=
        if (len_Z first =? reserve)%Z && (reserve <? part_size limits)%Z
        then has_more r "first_part" else (Ok false, r) in
      match over with
      | Err e => Ret (Err e, br_body r)
      | Ok true => Ret (Err (Fail_BodyOverLimit "upload body exceeds the limit for its size"), br_body r)
      | Ok false =>
          if (len_Z first <? part_size limits)%Z then
            do put <- storage_put key first;
            Ret (match put with Ok _ => Ok (reader_finish sha256 r) | Err e => Err e end, br_body r)
          else
            do created <- request (CreateMultipart key);
            match created with
            | Err _ => Ret (Err (Fail_S3 ("starting multipart upload for " +:+ key)), br_body r)
            | Ok None => Ret (Err (Fail_S3 "S3 returned no upload id"), br_body r)
            | Ok (Some upload_id) =>
                do _ <- request (UploadPart key upload_id 1 first);
                do done <- multipart_body key upload_id limits [1%Z] r;
                match done with
                | (Ok _, r) => Ret (Ok (reader_finish sha256 r), br_body r)
                | (Err e, r) =>
                    do _ <- request ShutdownParts;
                    do _ <- request (AbortMultipart key upload_id);
                    Ret (Err e, br_body r)
                end
            end
      end
  end.

(** ** Deletes and listings *)

(** One batch's per-key failures; an absent key is what the caller wanted. *)
Definition delete_failures (errors : list DeleteError) : list string :=
  map (λ e, default "?" (de_key e) +:+ " (" +:+ default "unknown" (de_code e) +:+ ": "
              +:+ default "" (de_message e) +:+ ")")
    (filter (λ e, de_code e ≠ Some "NoSuchKey") errors).

Fixpoint delete_batches (batches : list (list string)) (failed : nat) (first_failure : option string)
    : S3 (Result unit Failure) :=
  match batches with
  | [] =>
      Ret (match first_failure with
           | Some first => Err (Fail_Other (pretty failed +:+ " blob(s) not deleted, first: " +:+ first))
           | None => Ok tt
           end)
  | batch :: batches =>
      do output <- request (DeleteObjects batch);
      match output with
      | Err _ => Ret (Err (Fail_Other "deleting blobs"))
      | Ok errors =>
          let failures := delete_failures errors in
          delete_batches batches (failed + length failures)
            (match first_failure with Some f => Some f | None => head failures end)
      end
  end.

Definition DELETE_BATCH : nat := 1000.

Definition delete_objects (keys : list string) : S3 (Result unit Failure) :=
  delete_batches (chunks DELETE_BATCH keys) 0 None.

(** The blobs of one page; a blob without a size fails the listing. *)
Fixpoint page_blobs (now : Z) (objects : list S3Object) : Result (list Blob) Failure :=
  match objects with
  | [] => Ok []
  | object :: objects =>
      match s3_key object ≫= hash_for with
      | None => page_blobs now objects
      | Some hash =>
          match s3_size object with
          | None => Err (Fail_Other "listing blobs: no size")
          | Some size =>
              let? rest := page_blobs now objects in
              Ok (mkBlob hash (age now (s3_last_modified object)) size :: rest)
          end
      end
  end.

(** [list_blobs]; S3 ends a listing after as many pages as the bucket needs,
    and [pages] is any bound on them. *)
Fixpoint list_blobs_loop (pages : nat) (token : option string) (out : list Blob)
    : S3 (Result (list Blob) Failure) :=
  match pages with
  | 0 => Ret (Err (Fail_Other "listing blobs: out of fuel"))
  | Datatypes.S pages =>
      do page <- request (ListObjects token);
      match page with
      | Err _ => Ret (Err (Fail_Other "listing blobs"))
      | Ok page =>
          do now <- request ClockNow;
          match page_blobs now (contents page) with
          | Err e => Ret (Err e)
          | Ok blobs =>
              match next_continuation_token page with
              | None => Ret (Ok (out ++ blobs))
              | Some token => list_blobs_loop pages (Some token) (out ++ blobs)
              end
          end
      end
  end.
Definition list_blobs (pages : nat) : S3 (Result (list Blob) Failure) := list_blobs_loop pages None [].

Fixpoint abort_page (grace now : Z) (uploads : list S3Upload) (aborted : nat)
    : S3 (Result nat Failure) :=
  match uploads with
  | [] => Ret (Ok aborted)
  | upload :: uploads =>
      match up_key upload, up_id upload with
      | Some key, Some upload_id =>
          match hash_for key with
          | None => abort_page grace now uploads aborted
          | Some hash =>
              do busy <- request (InFlightContains hash);
              if busy || (age now (up_initiated upload) <? grace)%Z
              then abort_page grace now uploads aborted
              else
                do done <- request (AbortMultipart key upload_id);
                match done with
                | Err _ => Ret (Err (Fail_Other ("aborting stale multipart for " +:+ key)))
                | Ok _ => abort_page grace now uploads (Datatypes.S aborted)
                end
          end
      | _, _ => abort_page grace now uploads aborted
      end
  end.

(** [abort_stale_multiparts]; [pages] as in [list_blobs]. *)
Fixpoint abort_stale_loop (pages : nat) (grace : Z)
    (key_marker upload_id_marker : option string) (aborted : nat) : S3 (Result nat Failure) :=
  match pages with
  | 0 => Ret (Err (Fail_Other "listing multipart uploads: out of fuel"))
  | Datatypes.S pages =>
      do page <- request (ListMultipart key_marker upload_id_marker);
      match page with
      | Err _ => Ret (Err (Fail_Other "listing multipart uploads"))
      | Ok page =>
          do now <- request ClockNow;
          do done <- abort_page grace now (page_uploads page) aborted;
          match done with
          | Err e => Ret (Err e)
          | Ok aborted =>
              if bool_decide (is_truncated page = Some true) then
                match next_key_marker page with
                | None => Ret (Err (Fail_Other
                    "listing multipart uploads: truncated page without a next marker"))
                | Some marker =>
                    abort_stale_loop pages grace (Some marker)
                      (next_upload_id_marker page) aborted
                end
              else Ret (Ok aborted)
          end
      end
  end.
Definition abort_stale_multiparts (pages : nat) (grace : Z) : S3 (Result nat Failure) :=
  abort_stale_loop pages grace None None 0.

(** ** Reading a body *)

Section reading.
Context {S : Type} `{ByteStream S} (s0 : S).

(** The chunks pulled from [s0] so far; [ended] once it said it was over. *)
Inductive reads : list (list Z) → bool → S → Prop :=
  | reads_open chunks s : pulls s0 chunks s → reads chunks false s
  | reads_ended chunks s s' : pulls s0 chunks s → pull s = (None, s') → reads chunks true s'.

(** Every byte pulled was hashed and counted, or waits in the carry. *)
Definition read_from (ended : bool) (r : BodyReader S) : Prop :=
  br_received r = len_Z (br_hashed r) ∧
  ∃ chunks, reads chunks ended (br_body r) ∧
    concat chunks = br_hashed r ++ default [] (br_carry r).

Lemma read_from_new : read_from false (reader_new s0).
Proof. split; [done|]. exists []. split; [repeat constructor|done]. Qed.

Lemma reader_next_spec r phase res r' :
  read_from false r → reader_next r phase = (res, r') →
  br_hashed r' = br_hashed r ∧ br_received r' = br_received r ∧
  match res with
  | Ok (Some chunk) =>
      read_from false (set_carry r' chunk) ∧ reader_left r' + Datatypes.S (length chunk) ≤ reader_left r
  | Ok None => read_from true r' ∧ br_carry r' = None ∧ reader_left r' ≤ reader_left r
  | Err e => ∃ msg, e = Fail_ClientBody msg
  end.
Proof.
  intros [Hrec (chunks & Hreads & Hcat)]. unfold reader_next, reader_left.
  destruct (br_carry r) as [carry|] eqn:Hcarry.
  { intros [= <- <-]. split_and!; [done|done| |simpl; lia].
    split; [done|]. exists chunks. done. }
  simpl in Hcat. rewrite app_nil_r in Hcat. unfold next_chunk.
  inversion Hreads as [chunks' s Hp|]; subst.
  destruct (pull (br_body r)) as [[i|] s'] eqn:Hpull.
  - pose proof (pull_left _ _ _ Hpull) as Hlt.
    destruct i as [bytes|msg|]; intros [= <- <-]; simpl; [|by eauto..].
    split_and!; [done|done| |simpl in Hlt; lia]. split; [done|].
    exists (chunks ++ [bytes]). split; [constructor; by eapply pulls_snoc|].
    rewrite concat_app, Hcat. simpl. by rewrite app_nil_r.
  - pose proof (pull_end _ _ Hpull) as Hle. intros [= <- <-]. simpl.
    split_and!; [done|done| |done|lia]. split; [done|]. exists chunks.
    split; [by econstructor|]. simpl. by rewrite app_nil_r.
Qed.

(** What [fill] did to a part: [c] was appended, and the part is full or the
    body is over. *)
Record filled (r : BodyReader S) (part : list Z) (cap : Z) (part' c : list Z) (r' : BodyReader S)
    (ended : bool) : Prop := {
  fl_part : part' = part ++ c;
  fl_hashed : br_hashed r' = br_hashed r ++ c;
  fl_cap : (len_Z part' ≤ cap)%Z;
  fl_reads : read_from ended r';
  fl_ended : ended = true ↔ (len_Z part' < cap)%Z;
  fl_carry : ended = true → br_carry r' = None;
  fl_left : reader_left r' + length c ≤ reader_left r;
}.

Lemma read_from_append r chunk part :
  read_from false (set_carry r chunk) → br_carry r = None →
  read_from false (reader_append r part chunk).2.
Proof.
  intros [Hrec (chunks & Hr & Hc)] Hn. split; simpl in *.
  - rewrite Hrec. unfold len_Z. rewrite length_app. lia.
  - exists chunks. split; [done|]. rewrite Hc, Hn. simpl. by rewrite app_nil_r.
Qed.

Lemma fill_loop_spec fuel r part cap phase res r' :
  reader_left r < fuel → read_from false r → (len_Z part ≤ cap)%Z →
  fill_loop fuel r part cap phase = (res, r') →
  match res with
  | Ok part' => ∃ c ended, filled r part cap part' c r' ended
  | Err e => ∃ msg, e = Fail_ClientBody msg
  end.
Proof.
  revert r part. induction fuel as [|fuel IH]; intros r part Hfuel Hrd Hcap; [lia|].
  cbn [fill_loop]. destruct (Z.leb_spec cap (len_Z part)) as [Hle|Hlt].
  { intros [= <- <-]. exists [], false.
    split; rewrite ?app_nil_r; try done; simpl; try lia. }
  destruct (reader_next r phase) as [res0 r0] eqn:Hnext.
  pose proof (reader_next_spec _ _ _ _ Hrd Hnext) as (Hh & Hrc & Hres).
  destruct res0 as [[chunk|]|e]; [| |by intros [= <- <-]].
  2: { destruct Hres as (Hrd0 & Hc0 & Hl0). intros [= <- <-]. exists [], true.
       split; rewrite ?app_nil_r; try done; simpl; try lia. }
  destruct Hres as [Hset Hleft].
  assert (Hn0 : br_carry r0 = None).
  { unfold reader_next in Hnext. destruct (br_carry r); [by simplify_eq/=|].
    by destruct (next_chunk (br_body r) phase) as [[[[]|]|] ?]; simplify_eq/=. }
  destruct (Z.ltb_spec (cap - len_Z part) (len_Z chunk)) as [Hov|Hfit].
  - intros [= <- <-]. set (n := Z.to_nat (cap - len_Z part)).
    assert (Hn : n < length chunk) by (unfold len_Z in *; lia).
    exists (take n chunk), false. split; simpl; try done.
    + by rewrite Hh.
    + unfold len_Z in *. rewrite length_app, length_take. lia.
    + destruct Hset as [Hrec (chunks & Hr & Hc)]. simpl in Hrec, Hr, Hc.
      split; simpl.
      * rewrite Hrec. unfold len_Z. rewrite length_app. lia.
      * exists chunks. split; [done|]. by rewrite Hc, <-app_assoc, take_drop.
    + split; [done|]. unfold len_Z in *. rewrite length_app, length_take. lia.
    + unfold reader_left in *. simpl. rewrite length_take, length_drop. lia.
  - cbn [reader_append]. intros Hloop.
    eapply IH in Hloop; [| |by eapply (read_from_append r0 chunk part) in Hset|].
    + destruct res as [part'|e]; [|done]. destruct Hloop as (c & ended & [Hp Hhs Hcp Hrf He Hca Hl]).
      exists (chunk ++ c), ended. split; try done.
      * by rewrite Hp, <-app_assoc.
      * rewrite Hhs. simpl. by rewrite Hh, <-app_assoc.
      * unfold reader_left in *. simpl in *. rewrite length_app. lia.
    + unfold reader_left in *. simpl. lia.
    + unfold len_Z in *. rewrite length_app. lia.
Qed.

Lemma fill_spec r part cap phase res r' :
  read_from false r → (len_Z part ≤ cap)%Z → fill r part cap phase = (res, r') →
  match res with
  | Ok part' => ∃ c ended, filled r part cap part' c r' ended
  | Err e => ∃ msg, e = Fail_ClientBody msg
  end.
Proof. apply fill_loop_spec. lia. Qed.

Lemma has_more_loop_spec fuel r phase res r' :
  reader_left r < fuel → read_from false r → has_more_loop fuel r phase = (res, r') →
  br_hashed r' = br_hashed r ∧ reader_left r' ≤ reader_left r ∧
  match res with
  | Ok true => read_from false r'
  | Ok false => read_from true r' ∧ br_carry r' = None
  | Err e => ∃ msg, e = Fail_ClientBody msg
  end.
Proof.
  revert r. induction fuel as [|fuel IH]; intros r Hfuel Hrd; [lia|]. cbn [has_more_loop].
  destruct (reader_next r phase) as [res0 r0] eqn:Hnext.
  pose proof (reader_next_spec _ _ _ _ Hrd Hnext) as (Hh & Hrc & Hres).
  destruct res0 as [[[|b chunk]|]|e]; [| | |destruct Hres as [msg ->]].
  - destruct Hres as [Hset Hleft]. simpl in Hleft. intros Hloop.
    assert (Hn0 : br_carry r0 = None).
    { unfold reader_next in Hnext. destruct (br_carry r); [by simplify_eq/=|].
      by destruct (next_chunk (br_body r) phase) as [[[[]|]|] ?]; simplify_eq/=. }
    apply IH in Hloop as (Hh' & Hl' & Hres'); [|lia|].
    + rewrite Hh', Hh. split_and!; [done|lia|done].
    + destruct Hset as [Hrec (chunks & Hr & Hc)]. split; [done|]. exists chunks.
      by rewrite Hn0.
  - destruct Hres as [Hset Hleft]. intros [= <- <-].
    split_and!; [done|unfold reader_left in *; simpl in *|done].
    assert (br_carry r0 = None) as Hn0; [|rewrite Hn0 in Hleft; lia].
    unfold reader_next in Hnext. destruct (br_carry r); [by simplify_eq/=|].
    by destruct (next_chunk (br_body r) phase) as [[[[]|]|] ?]; simplify_eq/=.
  - destruct Hres as (Hrd0 & Hc0 & Hl0). by intros [= <- <-].
  - intros [= <- <-]. split_and!; [done| |by eexists].
    unfold reader_next in Hnext. unfold reader_left.
    destruct (br_carry r) eqn:Hcr; [by simplify_eq/=|].
    unfold next_chunk in Hnext. destruct (pull (br_body r)) as [[[]|] s'] eqn:Hp; simplify_eq/=;
      apply pull_left in Hp; lia.
Qed.

Lemma has_more_spec r phase res r' :
  read_from false r → has_more r phase = (res, r') →
  br_hashed r' = br_hashed r ∧ reader_left r' ≤ reader_left r ∧
  match res with
  | Ok true => read_from false r'
  | Ok false => read_from true r' ∧ br_carry r' = None
  | Err e => ∃ msg, e = Fail_ClientBody msg
  end.
Proof. apply has_more_loop_spec. lia. Qed.
End reading.

(** ** Streaming to S3 *)

(** What a trace uploaded as parts: key, upload id, number and bytes. *)
Definition ev_part (e : Event S3Op) : option (string * string * Z * list Z) :=
  match e with
  | Ev op _ =>
      match op with UploadPart key id n body => Some (key, id, n, body) | _ => None end
  end.

(** A request that makes an object appear if it takes effect, whatever is
    answered: S3 may have carried out a request whose answer was lost. *)
Definition ev_commits (e : Event S3Op) : bool :=
  match e with
  | Ev op _ => match op with PutObject _ _ | CompleteMultipart _ _ _ => true | _ => false end
  end.

(** The answer to a request to open a multipart upload. *)
Definition ev_create (e : Event S3Op) : option (Result (option string) string) :=
  match e with
  | Ev op r =>
      match op in S3Op B return B → option (Result (option string) string) with
      | CreateMultipart _ => λ r, Some r
      | _ => λ _, None
      end r
  end.

Definition ev_aborts (e : Event S3Op) : bool :=
  match e with Ev op _ => match op with AbortMultipart _ _ => true | _ => false end end.

(** Parts numbered from [n + 1]. *)
Definition numbered (key id : string) (n : Z) (parts : list (list Z)) :
    list (string * string * Z * list Z) :=
  imap (λ i p, (key, id, n + 1 + Z.of_nat i, p)%Z) parts.

Lemma numbered_cons key id n p parts :
  numbered key id n (p :: parts) = (key, id, (n + 1)%Z, p) :: numbered key id (n + 1) parts.
Proof.
  unfold numbered. cbn [imap]. f_equal; [do 2 f_equal; lia|].
  apply imap_ext. intros i x _. simpl. do 2 f_equal. lia.
Qed.

Definition is_join (e : Event S3Op) : Prop :=
  match e with Ev op _ => match op with JoinNext _ => True | _ => False end end.

Lemma is_join_quiet tr : Forall is_join tr → omap ev_part tr = [] ∧ existsb ev_commits tr = false.
Proof. induction 1 as [|[B [] b] tr He _ [IH1 IH2]]; simpl in *; try done. Qed.

Lemma collect_spec key inf tr res :
  run_trace (collect key inf) tr res →
  Forall is_join tr ∧
  match res with
  | Ok (p, inf') => part_number p :: inf' ≡ₚ inf
  | Err _ => True
  end.
Proof.
  unfold collect. destruct inf as [|n inf]; [by intros [-> ->]%run_trace_ret|].
  intros ([pick r] & tr' & -> & [-> ->]%run_trace_ret)%run_trace_request_bind.
  split; [by repeat constructor|]. cbn [fst snd]. destruct r as [tag|]; [|done]. cbn [part_number].
  set (i := pick mod length (n :: inf)).
  assert (is_Some ((n :: inf) !! i)) as [m Hm].
  { apply lookup_lt_is_Some, Nat.mod_upper_bound. simpl. lia. }
  rewrite Hm. cbn [default]. symmetry. by apply delete_Permutation.
Qed.

Lemma collect_below_spec fuel key limit inf comp tr res :
  run_trace (collect_below fuel key limit inf comp) tr res →
  Forall is_join tr ∧
  match res with
  | Ok (inf', comp') =>
      (len_Z inf' < limit)%Z ∧
      inf' ++ map part_number comp' ≡ₚ inf ++ map part_number comp
  | Err _ => True
  end.
Proof.
  revert inf comp tr. induction fuel as [|fuel IH]; intros inf comp tr; cbn [collect_below];
    (destruct (Z.ltb_spec (len_Z inf) limit) as [Hlt|Hge];
     [by intros [-> ->]%run_trace_ret|]).
  - by intros [-> ->]%run_trace_ret.
  - intros (r & tr1 & tr2 & -> & Hc & Hk)%run_trace_bind.
    apply collect_spec in Hc as [Hj Hc]. destruct r as [[p inf']|e].
    + apply IH in Hk as [Hj2 Hk]. split; [by apply Forall_app|].
      destruct res as [[inf'' comp'']|]; [|done]. destruct Hk as [Hl Hk]. split; [done|].
      cbn [fst snd] in *.
      rewrite Hk, map_app, <-Hc. simpl. rewrite app_assoc. symmetry. apply Permutation_cons_append.
    + apply run_trace_ret in Hk as [-> ->]. split; [by rewrite app_nil_r|done].
Qed.

(** Whole parts, and at most one shorter part at the end. *)
Definition parts_sized (ps : Z) (parts : list (list Z)) : Prop :=
  ∀ i p, parts !! i = Some p →
    (len_Z p = ps)%Z ∨ (Datatypes.S i = length parts ∧ 0 < len_Z p < ps)%Z.

Lemma parts_sized_cons ps p parts :
  (len_Z p = ps)%Z → parts_sized ps parts → parts_sized ps (p :: parts).
Proof.
  intros Hp Hs [|i] q; simpl; [intros [= <-]; by left|].
  intros Hq. destruct (Hs i q Hq) as [|[? ?]]; [by left|]. right. split; [lia|done].
Qed.

Lemma seq_Z_sorted a n : Sorted Z.le (map Z.of_nat (seq a n)).
Proof.
  revert a. induction n as [|n IH]; intros a; simpl; [constructor|].
  constructor; [apply IH|]. destruct n; simpl; constructor. lia.
Qed.

(** The requests of [multipart_body]. *)
Definition body_event (e : Event S3Op) : Prop :=
  match e with
  | Ev op _ => match op with JoinNext _ | UploadPart _ _ _ _ | CompleteMultipart _ _ _ => True | _ => False end
  end.

Lemma is_join_body tr : Forall is_join tr → Forall body_event tr.
Proof. intros H. eapply Forall_impl; [exact H|]. by intros [B [] b]. Qed.

Lemma body_event_quiet tr :
  Forall body_event tr → existsb ev_aborts tr = false ∧ Forall (λ e, ev_create e = None) tr.
Proof. induction 1 as [|[B [] b] tr He _ [IH1 IH2]]; try done; split; try done; by constructor. Qed.

Section streaming.
Context {S : Type} `{ByteStream S} (s0 : S) (key upload_id : string) (limits : UploadLimits).
Context (Hps : (0 < part_size limits)%Z).

Lemma multipart_parts_spec fuel inf comp n r tr res r' :
  reader_left r < fuel → read_from s0 false r →
  run_trace (multipart_parts fuel key upload_id limits inf comp n r) tr (res, r') →
  existsb ev_commits tr = false ∧ Forall body_event tr ∧
  match res with
  | Ok (inf', comp') =>
      ∃ more, read_from s0 true r' ∧ br_carry r' = None ∧
        br_hashed r' = br_hashed r ++ concat more ∧
        omap ev_part tr = numbered key upload_id n more ∧
        parts_sized (part_size limits) more ∧
        inf' ++ map part_number comp' ≡ₚ
          inf ++ map part_number comp ++ map (λ i, n + 1 + Z.of_nat i)%Z (seq 0 (length more))
  | Err _ => True
  end.
Proof.
  revert inf comp n r tr. induction fuel as [|fuel IH]; intros inf comp n r tr Hfuel Hrd; [lia|].
  cbn [multipart_parts]. intros (room & tr1 & tr2 & -> & Hroom & Hk)%run_trace_bind.
  apply collect_below_spec in Hroom as [Hj Hroom].
  pose proof (is_join_quiet _ Hj) as [Hq1 Hq2]. apply is_join_body in Hj.
  rewrite existsb_app, Hq2, omap_app, Hq1, Forall_app. cbn [app orb].
  destruct room as [[inf1 comp1]|e].
  2: { apply run_trace_ret in Hk as [-> [= -> ->]]. done. }
  destruct Hroom as [_ Hperm].
  destruct (fill r [] (part_size limits) "multipart") as [[part|e] r1] eqn:Hfill.
  2: { apply run_trace_ret in Hk as [-> [= -> ->]]. done. }
  assert (Hz : (len_Z (@nil Z) ≤ part_size limits)%Z) by (change (0 ≤ part_size limits)%Z; lia).
  pose proof (fill_spec s0 _ _ _ _ _ _ Hrd Hz Hfill)
    as (c & ended & [Hpart Hhash Hcap Hrd1 Hended Hcarry Hleft]).
  simpl in Hpart. subst part. destruct c as [|b c].
  { apply run_trace_ret in Hk as [-> [= -> ->]]. split; [done|]. split; [done|].
    assert (ended = true) as -> by (apply Hended; change (0 < part_size limits)%Z; lia).
    exists []. split_and!; [done|auto|simpl; by rewrite Hhash, !app_nil_r|done|done|].
    simpl. by rewrite app_nil_r. }
  set (part := b :: c) in *.
  apply run_trace_request_bind in Hk as ([] & tr' & -> & Hk). simpl existsb. simpl omap.
  destruct (Z.ltb_spec (len_Z part) (part_size limits)) as [Hshort|Hfull].
  - apply run_trace_ret in Hk as [-> [= -> ->]]. split; [done|]. split; [split; [done|]; by repeat constructor|].
    assert (ended = true) as -> by by apply Hended.
    exists [part]. split_and!; [done|auto|by rewrite Hhash; simpl; rewrite app_nil_r| | |].
    + rewrite numbered_cons. done.
    + intros [|i] q; simpl; [|done]. intros [= <-]. right. split; [done|].
      unfold len_Z in *. subst part. simpl in *. lia.
    + simpl. rewrite Z.add_0_r.
      rewrite <-app_assoc, (Permutation_app_comm [_] _), app_assoc, Hperm, <-app_assoc. done.
  - assert (ended = false) as -> by (destruct ended; [|done]; destruct Hended as [He _]; specialize (He eq_refl); lia).
    apply IH in Hk; [|unfold part in Hleft; simpl in Hleft; lia|done].
    destruct Hk as (Hnc & Hb & Hk). split; [done|]. split; [split; [done|]; by constructor|].
    destruct res as [[inf' comp']|e]; [|done].
    destruct Hk as (more & Hrd' & Hca & Hh' & Hp & Hsz & Hpm).
    exists (part :: more). split_and!; [done|done| | | |].
    + rewrite Hh', Hhash. simpl. by rewrite <-!app_assoc.
    + rewrite numbered_cons. simpl. by rewrite <-Hp.
    + apply parts_sized_cons; [lia|done].
    + rewrite Hpm. cbn [length seq map]. rewrite <-seq_shift, map_map.
      rewrite (map_ext (λ x, n + 1 + Z.of_nat (Datatypes.S x))%Z (λ i, n + 1 + 1 + Z.of_nat i)%Z) by lia.
      rewrite Z.add_0_r, (app_assoc inf), <-Hperm, <-!app_assoc. f_equiv.
      cbn [app]. apply Permutation_middle.
Qed.

(** Before its request to complete, [multipart_body] commits nothing; that
    request is the last, after the whole body was read and every part of 2..N
    spawned, and names all parts in order. *)
Lemma multipart_body_spec r tr res r' :
  read_from s0 false r →
  run_trace (multipart_body key upload_id limits [1%Z] r) tr (res, r') →
  Forall body_event tr ∧
  (existsb ev_commits tr = false ∧ is_ok res = false ∨
   ∃ more tr' completed answer, read_from s0 true r' ∧ br_carry r' = None ∧
    br_hashed r' = br_hashed r ++ concat more ∧
    tr = tr' ++ [Ev (CompleteMultipart key upload_id completed) answer] ∧ is_ok res = is_ok answer ∧
    omap ev_part tr' = numbered key upload_id 1 more ∧ existsb ev_commits tr' = false ∧
    parts_sized (part_size limits) more ∧
    map part_number completed = map Z.of_nat (seq 1 (Datatypes.S (length more)))).
Proof.
  intros Hrd ([parts r1] & tr1 & tr2 & -> & Hparts & Hk)%run_trace_bind.
  apply multipart_parts_spec in Hparts as (Hq & Hb & Hparts); [|lia|done].
  destruct parts as [[inf comp]|e].
  2: { apply run_trace_ret in Hk as [-> [= -> ->]]. rewrite app_nil_r. split; [done|by left]. }
  destruct Hparts as (more & Hrd' & Hca & Hh & Hp & Hsz & Hperm).
  apply run_trace_bind in Hk as (all & tr3 & tr4 & -> & Hall & Hk).
  apply collect_below_spec in Hall as [Hj Hall].
  destruct (is_join_quiet _ Hj) as [Hq1 Hq2]. apply is_join_body in Hj.
  destruct all as [[inf' comp']|e].
  2: { apply run_trace_ret in Hk as [-> [= -> ->]]. rewrite app_nil_r. split; [by apply Forall_app|].
       left. by rewrite existsb_app, Hq, Hq2. }
  destruct Hall as [Hnone Hall]. destruct inf' as [|? inf']; [|unfold len_Z in Hnone; simpl in Hnone; lia].
  apply run_trace_request_bind in Hk as (answer & tr5 & -> & [-> [= -> ->]]%run_trace_ret).
  split; [rewrite !Forall_app; by repeat constructor|]. right.
  exists more, (tr1 ++ tr3), (order_by part_number_le comp'), answer.
  split_and!; [done|done|done|by rewrite <-app_assoc|by destruct answer| |by rewrite existsb_app, Hq, Hq2|done|].
  { rewrite omap_app, Hq1, Hp. apply app_nil_r. }
  apply (Sorted_unique Z.le).
  - change (map part_number) with (fmap (M := list) part_number).
    eapply Sorted_fmap; [|apply (Sorted_merge_sort part_number_le)]. done.
  - apply seq_Z_sorted.
  - change (map part_number) with (fmap (M := list) part_number).
    rewrite (order_by_perm part_number_le comp'). cbn [app] in Hall.
    change (map part_number) with (fmap (M := list) part_number) in Hall.
    rewrite Hall, Hperm. simpl. f_equiv. rewrite <-seq_shift, map_map, <-seq_shift, map_map.
    erewrite map_ext; [done|]. intros i. simpl. lia.
Qed.
End streaming.

(** ** Properties *)

Lemma read_from_ended {S} `{ByteStream S} (s0 : S) r :
  read_from s0 true r → br_carry r = None →
  ∃ chunks, reads s0 chunks true (br_body r) ∧ br_hashed r = concat chunks ∧
    br_received r = len_Z (concat chunks).
Proof.
  intros [Hrec (chunks & Hr & Hc)] Hn. rewrite Hn in Hc. simpl in Hc. rewrite app_nil_r in Hc.
  exists chunks. rewrite Hrec, Hc. done.
Qed.

(** The two shapes a stored upload takes on the wire. *)
Inductive stored_as (key : string) (limits : UploadLimits) (body : list Z) : list (Event S3Op) → Prop :=
  | stored_put :
      (len_Z body < part_size limits)%Z →
      stored_as key limits body [Ev (PutObject key body) (Ok tt)]
  | stored_multipart id parts tr completed :
      concat parts = body → parts_sized (part_size limits) parts →
      omap ev_part tr = numbered key id 0 parts → existsb ev_commits tr = false →
      map part_number completed = map Z.of_nat (seq 1 (length parts)) →
      stored_as key limits body
        (Ev (CreateMultipart key) (Ok (Some id)) ::
          tr ++ [Ev (CompleteMultipart key id completed) (Ok tt)]).

(** The first part: full, or all there is. *)
Lemma put_streaming_first {S} `{ByteStream S} (body : S) limits hint first r :
  (0 < part_size limits)%Z →
  fill (reader_new body) [] (first_reserve limits hint) "first_part" = (Ok first, r) →
  br_hashed r = first ∧ (len_Z first ≤ first_reserve limits hint)%Z ∧
  ∃ ended, read_from body ended r ∧ (ended = true → br_carry r = None) ∧
    ended = (len_Z first <? first_reserve limits hint)%Z.
Proof.
  intros Hps Hfill. unfold first_reserve in *.
  pose proof (clampZ_bounds 1 (part_size limits) hint ltac:(lia)) as Hb.
  assert (Hz : (len_Z (@nil Z) ≤ clampZ 1 (part_size limits) hint)%Z)
    by (change (0 ≤ clampZ 1 (part_size limits) hint)%Z; lia).
  pose proof (fill_spec body _ _ _ _ _ _ (read_from_new body) Hz Hfill)
    as (c & ended & [Hp Hh Hc Hr He Hca _]).
  simpl in *. subst first. split; [done|]. split; [done|]. exists ended. split; [done|].
  split; [done|]. apply Bool.eq_iff_eq_true. by rewrite Z.ltb_lt.
Qed.

(** Looking past a first part that filled its reservation. *)
Lemma put_streaming_over {S} `{ByteStream S} (body : S) limits hint first r over r1 :
  (0 < part_size limits)%Z →
  fill (reader_new body) [] (first_reserve limits hint) "first_part" = (Ok first, r) →
  (if (len_Z first =? first_reserve limits hint)%Z && (first_reserve limits hint <? part_size limits)%Z
   then has_more r "first_part" else (Ok false, r)) = (Ok over, r1) →
  br_hashed r1 = first ∧ (len_Z first ≤ part_size limits)%Z ∧
  (over = false → ∃ ended, read_from body ended r1 ∧ (ended = true → br_carry r1 = None) ∧
    ended = (len_Z first <? part_size limits)%Z).
Proof.
  intros Hps Hfill. pose proof (put_streaming_first _ _ _ _ _ Hps Hfill) as (Hh & Hcap & ended & Hrd & Hca & Hend).
  pose proof (clampZ_bounds 1 (part_size limits) hint ltac:(lia)) as Hb.
  fold (first_reserve limits hint) in Hb. set (reserve := first_reserve limits hint) in *.
  destruct (Z.eqb_spec (len_Z first) reserve) as [Heq|Hne]; cbn [andb];
    [destruct (Z.ltb_spec reserve (part_size limits)) as [Hlt|Hge]|].
  - assert (ended = false) as -> by (rewrite Hend; apply Z.ltb_ge; lia).
    intros Hover. apply (has_more_spec body) in Hover as (Hh' & _ & Hres); [|done].
    rewrite Hh'. split_and!; [done|lia|]. intros ->. destruct Hres as [Hr' Hc'].
    exists true. split_and!; [done|done|]. symmetry. apply Z.ltb_lt. lia.
  - intros [= <- <-]. split_and!; [done|lia|]. intros _. exists ended. split_and!; [done|done|].
    rewrite Hend. by replace (part_size limits) with reserve by lia.
  - intros [= <- <-]. split_and!; [done|lia|]. intros _. exists ended. split_and!; [done|done|].
    rewrite Hend. transitivity true; [|symmetry]; apply Z.ltb_lt; lia.
Qed.

(** A multipart upload that got to its request to complete, had it gone well. *)
Lemma multipart_shape {S} `{ByteStream S} (body : S) key id limits first (r r2 : BodyReader S) more tr completed :
  br_hashed r = first → (len_Z first = part_size limits)%Z →
  read_from body true r2 → br_carry r2 = None → br_hashed r2 = br_hashed r ++ concat more →
  omap ev_part tr = numbered key id 1 more → existsb ev_commits tr = false →
  parts_sized (part_size limits) more →
  map part_number completed = map Z.of_nat (seq 1 (Datatypes.S (length more))) →
  ∃ chunks, reads body chunks true (br_body r2) ∧ br_hashed r2 = concat chunks ∧ br_received r2 = len_Z (concat chunks) ∧
    stored_as key limits (concat chunks)
      (Ev (CreateMultipart key) (Ok (Some id)) :: (Ev (UploadPart key id 1 first) tt :: tr) ++
        [Ev (CompleteMultipart key id completed) (Ok tt)]).
Proof.
  intros Hh Hlen Hrd2 Hca2 Hh2 Hparts Hq Hsz Hdone.
  destruct (read_from_ended _ _ Hrd2 Hca2) as (chunks & Hr & Hch & Hl). exists chunks. split_and!; [done..|].
  apply (stored_multipart _ _ _ id (first :: more)); [| | |done|done].
  - simpl. by rewrite <-Hch, Hh2, Hh.
  - by apply parts_sized_cons.
  - rewrite numbered_cons. change (0 + 1)%Z with 1%Z. simpl. by rewrite <-Hparts.
Qed.

Lemma put_streaming_Ok {S} `{ByteStream S} sha256 key (body : S) limits hint tr digest size s' :
  (0 < part_size limits)%Z →
  run_trace (put_streaming sha256 key body limits hint) tr (Ok (digest, size), s') →
  ∃ chunks, reads body chunks true s' ∧
    digest = sha256 (concat chunks) ∧ size = len_Z (concat chunks) ∧
    stored_as key limits (concat chunks) tr.
Proof.
  intros Hps. unfold put_streaming.
  destruct (fill _ _ _ _) as [[first|e] r] eqn:Hfill; [|by intros [_ [=]]%run_trace_ret].
  destruct (if _ : bool then has_more r "first_part" else _) as [over r1] eqn:Hover.
  destruct over as [[]|e]; [by intros [_ [=]]%run_trace_ret| |by intros [_ [=]]%run_trace_ret].
  pose proof (put_streaming_over _ _ _ _ _ _ _ Hps Hfill Hover) as (Hh & Hcap & Hrest).
  destruct (Hrest eq_refl) as (ended & Hrd & Hca & Hend).
  destruct (Z.ltb_spec (len_Z first) (part_size limits)) as [Hlt|Hge]; subst ended.
  - intros (put & tr1 & tr2 & -> & Hput & [-> [= Hres ->]]%run_trace_ret)%run_trace_bind.
    destruct (read_from_ended _ _ Hrd (Hca eq_refl)) as (chunks & Hr & Hch & Hlen).
    apply run_trace_request_bind in Hput as (ans & tr' & -> & [-> ->]%run_trace_ret).
    destruct ans as [[]|e]; [|done]. injection Hres as -> ->.
    exists chunks. split_and!; [done|by rewrite <-Hch|done|].
    rewrite <-Hch, Hh. by constructor.
  - intros (created & tr1 & -> & Hk)%run_trace_request_bind.
    destruct created as [[id|]|e]; [|by apply run_trace_ret in Hk as [_ [=]]..].
    apply run_trace_request_bind in Hk as ([] & tr2 & -> & Hk).
    apply run_trace_bind in Hk as ([res r2] & tr3 & tr4 & -> & Hbody & Hk).
    destruct res as [[]|e].
    2: { apply run_trace_request_bind in Hk as (? & ? & -> & Hk).
         apply run_trace_request_bind in Hk as (? & ? & -> & Hk). by apply run_trace_ret in Hk as [_ [=]]. }
    apply run_trace_ret in Hk as [-> [= -> -> ->]].
    apply (multipart_body_spec body) in Hbody as
      (_ & [[_ [=]]|(more & tr' & completed & [[]|] & Hrd2 & Hca2 & Hh2 & -> & [=] & Hparts & Hq & Hsz & Hdone)]); [|done|done].
    destruct (multipart_shape body key id limits first r1 r2 more tr' completed) as (chunks & Hr & Hch & Hlen & Hs); try done; [lia|].
    exists chunks. split_and!; [done|by rewrite <-Hch|done|]. by rewrite app_nil_r.
Qed.

(** *** What S3 holds after a trace *)

Definition ev_put (e : Event S3Op) : option (string * list Z) :=
  match e with
  | Ev op r =>
      match op in S3Op B return B → option (string * list Z) with
      | PutObject key body => λ r, if is_ok r then Some (key, body) else None
      | _ => λ _, None
      end r
  end.

Definition ev_complete (e : Event S3Op) : option (string * string * list CompletedPart) :=
  match e with
  | Ev op r =>
      match op in S3Op B return B → option (string * string * list CompletedPart) with
      | CompleteMultipart key id parts => λ r, if is_ok r then Some (key, id, parts) else None
      | _ => λ _, None
      end r
  end.

(** The bytes of a part; S3 keeps the last upload of a number. *)
Fixpoint part_bytes (sent : list (string * string * Z * list Z)) (key id : string) (n : Z)
    : option (list Z) :=
  match sent with
  | [] => None
  | (key', id', n', bytes) :: sent =>
      match part_bytes sent key id n with
      | Some later => Some later
      | None => if bool_decide (key' = key ∧ id' = id ∧ n' = n) then Some bytes else None
      end
  end.

(** The object a trace leaves at [key], if it put one there. *)
Definition object_step (sent : list (string * string * Z * list Z)) (key : string)
    (acc : option (list Z)) (e : Event S3Op) : option (list Z) :=
  match ev_put e, ev_complete e with
  | Some (key', body), _ => if bool_decide (key' = key) then Some body else acc
  | None, Some (key', id, parts) =>
      if bool_decide (key' = key)
      then Some (concat (map (λ p, default [] (part_bytes sent key id (part_number p))) parts)) else acc
  | None, None => acc
  end.
Definition object_after (key : string) (tr : list (Event S3Op)) : option (list Z) :=
  foldl (object_step (omap ev_part tr) key) None tr.

Lemma object_step_quiet sent key acc tr :
  existsb ev_commits tr = false → foldl (object_step sent key) acc tr = acc.
Proof.
  revert acc. induction tr as [|[B op r] tr IH]; intros acc; [done|]. cbn [existsb].
  intros [He Htr]%orb_false_iff. cbn [foldl]. rewrite IH by done. destruct op; try done; by destruct r.
Qed.

Lemma part_bytes_numbered key id n parts i p :
  parts !! i = Some p → part_bytes (numbered key id n parts) key id (n + 1 + Z.of_nat i) = Some p.
Proof.
  revert n i. induction parts as [|q parts IH]; intros n i; [done|]. rewrite numbered_cons.
  cbn [part_bytes]. destruct i as [|i]; cbn [lookup list_lookup].
  - intros [= ->]. replace (n + 1 + Z.of_nat 0)%Z with (n + 1)%Z by lia.
    assert (part_bytes (numbered key id (n + 1) parts) key id (n + 1) = None) as ->;
      [|by rewrite bool_decide_eq_true_2].
    assert (∀ m, (n + 1 < m)%Z → part_bytes (numbered key id (m - 1) parts) key id (n + 1) = None) as H.
    { clear IH. induction parts as [|q parts IH]; intros m Hm; [done|]. rewrite numbered_cons.
      cbn [part_bytes]. replace (m - 1 + 1)%Z with (m + 1 - 1)%Z by lia. rewrite IH by lia.
      rewrite bool_decide_eq_false_2; [done|]. lia. }
    specialize (H (n + 2)%Z). replace (n + 2 - 1)%Z with (n + 1)%Z in H by lia. apply H. lia.
  - intros Hi. specialize (IH (n + 1)%Z i Hi).
    replace (n + 1 + Z.of_nat (Datatypes.S i))%Z with (n + 1 + 1 + Z.of_nat i)%Z by lia. by rewrite IH.
Qed.

Lemma stored_object key limits body tr : stored_as key limits body tr → object_after key tr = Some body.
Proof.
  intros [Hlen|id parts tr' completed Hbody _ Hparts Hq Hnums].
  - unfold object_after, object_step. simpl. by rewrite bool_decide_eq_true_2.
  - unfold object_after. cbn [foldl omap list_omap ev_part]. rewrite omap_app, foldl_app.
    cbn [omap list_omap ev_part]. rewrite app_nil_r, Hparts.
    rewrite (object_step_quiet _ _ _ tr') by done. cbn [foldl]. unfold object_step. cbn [ev_put ev_complete is_ok].
    rewrite bool_decide_eq_true_2 by done. f_equal. rewrite <-Hbody. f_equal.
    rewrite <-(map_map part_number (λ n, default [] (part_bytes (numbered key id 0 parts) key id n))), Hnums.
    rewrite map_map. apply list_eq. intros i. change (@map ?A ?B) with (@fmap list _ A B).
    rewrite list_lookup_fmap. destruct (decide (i < length parts)) as [Hi|Hi].
    + rewrite lookup_seq_lt by done. cbn.
      destruct (lookup_lt_is_Some_2 _ _ Hi) as [p Hp]. rewrite Hp.
      pose proof (part_bytes_numbered key id 0 parts i p Hp) as Hpb.
      replace (0 + 1 + Z.of_nat i)%Z with (Z.of_nat (Datatypes.S i)) in Hpb by lia.
      replace (1 + i) with (Datatypes.S i) by lia. by rewrite Hpb.
    + rewrite lookup_seq_ge by lia. simpl. symmetry. apply lookup_ge_None. lia.
Qed.

(** C22: When put_streaming succeeds it has read the whole body, the digest and length it returns
    are those of the body, the object was written either by one put or by a multipart upload with
    parts 1, 2, ... each of exactly the part size but the last, and the object under the key is then
    the whole body. *)
Theorem put_streaming_stores_body {S} `{ByteStream S} sha256 key (body : S) limits hint tr digest size s' :
  (0 < part_size limits)%Z →
  run_trace (put_streaming sha256 key body limits hint) tr (Ok (digest, size), s') →
  ∃ chunks, reads body chunks true s' ∧
    digest = sha256 (concat chunks) ∧ size = len_Z (concat chunks) ∧
    stored_as key limits (concat chunks) tr ∧ object_after key tr = Some (concat chunks).
Proof.
  intros Hps (chunks & H1 & H2 & H3 & H4)%put_streaming_Ok; [|done]. exists chunks.
  split_and!; [done|done|done|done|]. by eapply stored_object.
Qed.

(** A body of five bytes in parts of two, its first two parts finishing out of
    order, and one small enough for a single request. *)
Lemma put_streaming_stores_body_witness :
  ∃ chunks s', reads [Item_Data [1; 2; 3]; Item_Data []; Item_Data [4; 5]]%Z chunks true s' ∧
    stored_as "k" (mkLimits 2 2 1 2 4) (concat chunks)
      [Ev (CreateMultipart "k") (Ok (Some "id"));
       Ev (UploadPart "k" "id" 1 [1; 2]%Z) tt; Ev (UploadPart "k" "id" 2 [3; 4]%Z) tt;
       Ev (JoinNext [1; 2]%Z) (1, Ok "b"); Ev (UploadPart "k" "id" 3 [5]%Z) tt;
       Ev (JoinNext [1; 3]%Z) (0, Ok "a"); Ev (JoinNext [3]%Z) (0, Ok "c");
       Ev (CompleteMultipart "k" "id" [mkPart 1 "a"; mkPart 2 "b"; mkPart 3 "c"]) (Ok tt)].
Proof.
  destruct (put_streaming_stores_body (λ bs, bs) "k"
    [Item_Data [1; 2; 3]; Item_Data []; Item_Data [4; 5]]%Z (mkLimits 2 2 1 2 4) 100
    [Ev (CreateMultipart "k") (Ok (Some "id"));
     Ev (UploadPart "k" "id" 1 [1; 2]%Z) tt; Ev (UploadPart "k" "id" 2 [3; 4]%Z) tt;
     Ev (JoinNext [1; 2]%Z) (1, Ok "b"); Ev (UploadPart "k" "id" 3 [5]%Z) tt;
     Ev (JoinNext [1; 3]%Z) (0, Ok "a"); Ev (JoinNext [3]%Z) (0, Ok "c");
     Ev (CompleteMultipart "k" "id" [mkPart 1 "a"; mkPart 2 "b"; mkPart 3 "c"]) (Ok tt)]
    [1; 2; 3; 4; 5]%Z 5%Z []) as (chunks & Hr & _ & _ & Hs & _).
  - done.
  - repeat (cbn; constructor).
  - eauto.
Defined.

(** S3 when nothing fails. *)
Definition s3_answer {B} (op : S3Op B) : B :=
  match op in S3Op B return B with
  | PutObject _ _ => Ok tt
  | CreateMultipart _ => Ok (Some "upload")
  | UploadPart _ _ _ _ => tt
  | JoinNext _ => (0, Ok "etag")
  | ShutdownParts => tt
  | CompleteMultipart _ _ _ => Ok tt
  | AbortMultipart _ _ => Ok tt
  | DeleteObjects _ => Ok []
  | ListObjects _ => Ok (mkObjectPage [] None)
  | ListMultipart _ _ => Ok (mkUploadPage [] None None None)
  | ClockNow => 0%Z
  | InFlightContains _ => false
  end.

Fixpoint s3_exec {A} (p : S3 A) : A * list (Event S3Op) :=
  match p with
  | Ret a => (a, [])
  | Step op k =>
      let r := s3_answer op in
      let out := s3_exec (k r) in (out.1, Ev op r :: out.2)
  end.

Lemma s3_exec_run {A} (p : S3 A) : run_trace p (s3_exec p).2 (s3_exec p).1.
Proof. induction p as [a|B op k IH]; simpl; constructor; apply IH. Qed.

(** [tr] committed nothing; or it sent one request that would have stored the
    whole of [body], read to its end, and that request was answered with an
    error. *)
Definition whole_or_nothing {S} `{ByteStream S} (key : string) (limits : UploadLimits) (body s' : S) (tr : list (Event S3Op)) : Prop :=
  existsb ev_commits tr = false ∨
  ∃ chunks before (op : S3Op (Result unit string)) message after,
    tr = before ++ Ev op (Err message) :: after ∧ existsb ev_commits (before ++ after) = false ∧
    reads body chunks true s' ∧
    stored_as key limits (concat chunks) (before ++ [Ev op (Ok tt)]) ∧
    object_after key (before ++ [Ev op (Ok tt)]) = Some (concat chunks).

(** C23: When put_streaming fails the bucket has nothing of the object or all of it: either no put
    and no completion was sent at all, or exactly one was, it was answered with an error, and, had
    S3 carried it out all the same, the object it stored is the whole body, read to its end. A
    multipart upload is created by the first request or not at all; where the creation was answered
    with an error or without an upload id nothing else is sent; and an upload that was created has
    its abort sent, after its part tasks were shut down, as the last request, and once, whatever the
    abort is answered. *)
Theorem put_streaming_failure_is_whole_or_nothing {S} `{ByteStream S} sha256 key (body : S) limits hint tr e s' :
  (0 < part_size limits)%Z →
  run_trace (put_streaming sha256 key body limits hint) tr (Err e, s') →
  whole_or_nothing key limits body s' tr ∧
  Forall (λ e, ev_create e = None) (tail tr) ∧
  ∀ answer, head tr ≫= ev_create = Some answer →
    match answer with
    | Ok (Some id) => ∃ tr' aborted, tr = tr' ++ [Ev ShutdownParts tt; Ev (AbortMultipart key id) aborted] ∧
        existsb ev_aborts tr' = false
    | _ => length tr = 1
    end.
Proof.
  intros Hps. unfold put_streaming.
  destruct (fill _ _ _ _) as [[first|e0] r] eqn:Hfill; [|intros [-> _]%run_trace_ret; split_and!; [by left|done|done]].
  destruct (if _ : bool then has_more r "first_part" else _) as [over r1] eqn:Hover.
  destruct over as [[]|e0]; [intros [-> _]%run_trace_ret; split_and!; [by left|done|done]| |
    intros [-> _]%run_trace_ret; split_and!; [by left|done|done]].
  pose proof (put_streaming_over _ _ _ _ _ _ _ Hps Hfill Hover) as (Hh & Hcap & Hrest).
  destruct (Hrest eq_refl) as (ended & Hrd & Hca & Hend).
  destruct (Z.ltb_spec (len_Z first) (part_size limits)) as [Hlt|Hge]; subst ended.
  - intros (put & tr1 & tr2 & -> & Hput & [-> [= Hres ->]]%run_trace_ret)%run_trace_bind.
    destruct (read_from_ended _ _ Hrd (Hca eq_refl)) as (chunks & Hr & Hch & _).
    apply run_trace_request_bind in Hput as (ans & tr' & -> & [-> ->]%run_trace_ret).
    destruct ans as [[]|message]; [done|]. split_and!; [|done|done].
    assert (Hs : stored_as key limits (concat chunks) [Ev (PutObject key first) (Ok tt)]) by (rewrite <-Hch, Hh; by constructor).
    right. exists chunks, [], (PutObject key first), message, []. split_and!; [done|done|done|done|by eapply stored_object].
  - intros (created & tr1 & -> & Hk)%run_trace_request_bind.
    destruct created as [[id|]|e0].
    2-3: apply run_trace_ret in Hk as [-> _]; split_and!; [by left|done|by intros answer [= <-]].
    apply run_trace_request_bind in Hk as ([] & tr2 & -> & Hk).
    apply run_trace_bind in Hk as ([res r2] & tr3 & tr4 & -> & Hbody & Hk).
    destruct res as [[]|e0]; [by apply run_trace_ret in Hk as [_ [=]]|].
    apply (multipart_body_spec body) in Hbody as [Hev Hbody]; [|done|done].
    apply run_trace_request_bind in Hk as ([] & tr5 & -> & Hk).
    apply run_trace_request_bind in Hk as (aborted & tr6 & -> & Hk).
    apply run_trace_ret in Hk as [-> [= _ ->]]. apply body_event_quiet in Hev as [Hna Hnc]. split_and!.
    + destruct Hbody as [[Hq _]|(more & tr' & completed & [[]|message] & Hrd2 & Hca2 & Hh2 & -> & [=] & Hparts & Hq & Hsz & Hdone)].
      { left. simpl. by rewrite existsb_app, Hq. }
      destruct (multipart_shape body key id limits first r1 r2 more tr' completed) as (chunks & Hr & _ & _ & Hs); try done; [lia|].
      right. exists chunks, (Ev (CreateMultipart key) (Ok (Some id)) :: Ev (UploadPart key id 1 first) tt :: tr'),
        (CompleteMultipart key id completed), message, [Ev ShutdownParts tt; Ev (AbortMultipart key id) aborted].
      split_and!; [by rewrite <-app_assoc| |done|exact Hs|by apply stored_object in Hs].
      cbn. by rewrite existsb_app, Hq.
    + cbn. constructor; [done|]. apply Forall_app. split; [done|by repeat constructor].
    + intros answer [= <-].
      exists (Ev (CreateMultipart key) (Ok (Some id)) :: Ev (UploadPart key id 1 first) tt :: tr3), aborted. by split.
Qed.

(** The second part fails: the multipart is shut down and aborted. *)
Lemma put_streaming_failure_is_whole_or_nothing_witness :
  ∃ tr' aborted,
    [Ev (CreateMultipart "k") (Ok (Some "id")); Ev (UploadPart "k" "id" 1 [1]%Z) tt;
     Ev (UploadPart "k" "id" 2 [2]%Z) tt; Ev (JoinNext [1; 2]%Z) (1, Err "500");
     Ev ShutdownParts tt; Ev (AbortMultipart "k" "id") (Ok tt)] =
    tr' ++ [Ev ShutdownParts tt; Ev (AbortMultipart "k" "id") aborted] ∧ existsb ev_aborts tr' = false.
Proof.
  refine (proj2 (proj2 (put_streaming_failure_is_whole_or_nothing (λ bs, bs) "k" [Item_Data [1; 2]]%Z
    (mkLimits 1 2 1 1 4) 1 _ (Fail_S3 "uploading part of k") [] _ _)) (Ok (Some "id")) _); [| |done].
  - done.
  - repeat (cbn; constructor).
Defined.

(** *** The upload budget *)

Lemma units_ceil_spec bytes shift :
  (0 ≤ bytes → 0 ≤ shift →
   bytes ≤ units_ceil bytes shift * 2 ^ shift < bytes + 2 ^ shift)%Z.
Proof.
  intros Hb Hs. unfold units_ceil. rewrite Z.shiftr_div_pow2, Z.shiftl_1_l by lia.
  rewrite Z.sub_1_r, <-Z.ones_equiv, Z.land_ones by lia.
  assert (0 < 2 ^ shift)%Z as Hp by (apply Z.pow_pos_nonneg; lia).
  pose proof (Z.div_mod bytes (2 ^ shift) ltac:(lia)) as Hdm.
  pose proof (Z.mod_pos_bound bytes (2 ^ shift) Hp) as Hm.
  destruct (Z.eqb_spec (bytes mod 2 ^ shift) 0); nia.
Qed.

Lemma trailing_zeros_double x : (0 < x)%Z → trailing_zeros (2 * x) = (1 + trailing_zeros x)%Z.
Proof. by destruct x. Qed.

Lemma trailing_zeros_pow2 n : (0 ≤ n)%Z → trailing_zeros (2 ^ n) = n.
Proof.
  intros Hn. rewrite <-(Z2Nat.id n Hn). induction (Z.to_nat n) as [|k IH]; [done|].
  rewrite Nat2Z.inj_succ, Z.pow_succ_r, trailing_zeros_double by lia. lia.
Qed.

(** The size of a permit: a power of two between 8 and 65536. *)
Lemma budget_shift part_size :
  (2048 ≤ part_size)%Z →
  let shift := Z.log2 (clampZ 1 (64 * 1024) (Z.shiftr part_size 8)) in
  (3 ≤ shift ≤ 16)%Z ∧ ((2 ^ 24 ≤ part_size)%Z → shift = 16%Z).
Proof.
  intros Hp shift. unfold shift. rewrite clampZ_min_max, Z.shiftr_div_pow2 by lia.
  assert (2048 / 2 ^ 8 ≤ part_size / 2 ^ 8)%Z by (apply Z.div_le_mono; lia).
  change (2048 / 2 ^ 8)%Z with 8%Z in *. split.
  - split.
    + change 3%Z with (Z.log2 8). apply Z.log2_le_mono. lia.
    + change 16%Z with (Z.log2 (2 ^ 16)). apply Z.log2_le_mono. lia.
  - intros Hbig. assert (2 ^ 24 / 2 ^ 8 ≤ part_size / 2 ^ 8)%Z by (apply Z.div_le_mono; lia).
    change (2 ^ 24 / 2 ^ 8)%Z with 65536%Z in *.
    assert (Z.max 1 (Z.min (64 * 1024) (part_size / 2 ^ 8)) = 65536)%Z as -> by lia. done.
Qed.

Lemma units_ceil_mono a b shift :
  (0 ≤ a ≤ b → 0 ≤ shift → units_ceil a shift ≤ units_ceil b shift)%Z.
Proof.
  intros Hab Hs. pose proof (units_ceil_spec a shift ltac:(lia) Hs).
  pose proof (units_ceil_spec b shift ltac:(lia) Hs).
  assert (0 < 2 ^ shift)%Z by (apply Z.pow_pos_nonneg; lia).
  apply Z.lt_succ_r. nia.
Qed.

(** The permit pool [upload_limits] sets up. *)
Lemma upload_pool part_size max_parts max_in_flight :
  (2048 ≤ part_size < 2 ^ 47)%Z → (0 ≤ max_in_flight < 2 ^ 64)%Z →
  let limits := upload_limits part_size max_parts max_in_flight in
  ∃ shift, (3 ≤ shift ≤ 16 ∧ unit_ limits = 2 ^ shift)%Z ∧
  part_units limits = units_ceil part_size shift ∧
  (1 ≤ part_units limits < 2 ^ 32)%Z ∧
  (part_units limits ≤ total_units limits ≤ Z.shiftr usize_max 3)%Z ∧
  (part_size ≤ total_units limits * unit_ limits ≤ Z.max max_in_flight (part_size + unit_ limits))%Z ∧
  (1 ≤ total_slots limits)%Z.
Proof.
  intros Hp Hm limits.
  destruct (budget_shift part_size ltac:(lia)) as [Hshift Hbig].
  set (shift := Z.log2 _) in Hshift, Hbig.
  assert (Hunit : unit_ limits = (2 ^ shift)%Z) by apply Z.shiftl_1_l.
  assert (Hpu : part_units limits = units_ceil part_size shift) by done.
  assert (Htot : total_units limits = Z.max (max_in_flight / 2 ^ shift) (part_units limits))
    by (rewrite <-Z.shiftr_div_pow2 by lia; done).
  assert (Hpow : (8 ≤ 2 ^ shift ≤ 2 ^ 16)%Z).
  { split; [change 8%Z with (2 ^ 3)%Z|]; apply Z.pow_le_mono_r; lia. }
  pose proof (units_ceil_spec part_size shift ltac:(lia) ltac:(lia)) as Hceil.
  assert (Hpu32 : (1 ≤ part_units limits < 2 ^ 32)%Z).
  { rewrite Hpu. split; [nia|]. destruct (decide (2 ^ 24 ≤ part_size)%Z) as [H24|H24].
    - rewrite (Hbig H24) in *. nia.
    - nia. }
  assert (Hdiv : (max_in_flight / 2 ^ shift * 2 ^ shift ≤ max_in_flight)%Z)
    by (rewrite Z.mul_comm; apply Z.mul_div_le; lia).
  assert (Hdiv8 : (max_in_flight / 2 ^ shift ≤ Z.shiftr usize_max 3)%Z).
  { rewrite Z.shiftr_div_pow2 by lia. transitivity (max_in_flight / 2 ^ 3)%Z.
    - apply Z.div_le_compat_l; lia.
    - apply Z.div_le_mono; [lia|unfold usize_max; lia]. }
  exists shift. split_and!; [lia|lia|done|done|lia|lia|lia| | | |].
  - rewrite Htot. change (Z.shiftr usize_max 3) with 2305843009213693951%Z in *. lia.
  - rewrite Htot, Hunit. nia.
  - rewrite Htot, Hunit, Hpu. nia.
  - unfold total_slots. apply Z.div_le_lower_bound; lia.
Qed.

(** C33: The upload budget arithmetic on machine integers: for every configured part size the permit
    unit is a power of two, a reservation of up to a part is at least one permit, covers its bytes
    and overshoots them by at most a unit, never exceeds a part slot, the pool fits a semaphore and
    holds at least one part slot. *)
Theorem upload_budget_bounds part_size max_parts max_in_flight bytes :
  (2048 ≤ part_size < 2 ^ 47)%Z → (0 ≤ max_in_flight < 2 ^ 64)%Z → (0 ≤ bytes ≤ part_size)%Z →
  let limits := upload_limits part_size max_parts max_in_flight in
  let units := acquire_units limits bytes in
  (∃ shift, 3 ≤ shift ≤ 16 ∧ unit_ limits = 2 ^ shift)%Z ∧
  units = units_for bytes (unit_ limits) (part_units limits) ∧
  (1 ≤ units ∧ bytes ≤ units * unit_ limits ≤ bytes + unit_ limits)%Z ∧
  (units ≤ part_units limits ≤ total_units limits)%Z ∧
  (part_units limits < 2 ^ 32 ∧ total_units limits ≤ Z.shiftr usize_max 3)%Z ∧
  (part_size ≤ total_units limits * unit_ limits ≤ Z.max max_in_flight (part_size + unit_ limits))%Z ∧
  (1 ≤ total_slots limits)%Z.
Proof.
  intros Hp Hm Hb limits units.
  destruct (upload_pool part_size max_parts max_in_flight Hp Hm)
    as (shift & [Hshift Hunit] & Hpu & Hpu32 & Htot & Hbytes & Hslots); fold limits in Hunit, Hpu, Hpu32, Htot, Hbytes, Hslots.
  pose proof (units_ceil_spec bytes shift ltac:(lia) ltac:(lia)) as Hceilb.
  pose proof (units_ceil_mono bytes part_size shift ltac:(lia) ltac:(lia)) as Hmono.
  assert (Hfor : units_for bytes (unit_ limits) (part_units limits) =
    Z.max 1 (Z.min (part_units limits) (units_ceil bytes shift))).
  { unfold units_for. rewrite Hunit, trailing_zeros_pow2 by lia. apply clampZ_min_max. lia. }
  assert (Hunits : units = units_for bytes (unit_ limits) (part_units limits)).
  { unfold units, acquire_units. apply Z.mod_small. rewrite Hfor. lia. }
  assert (0 < 2 ^ shift)%Z by (apply Z.pow_pos_nonneg; lia).
  split_and!; rewrite ?Hunits, ?Hfor; [by exists shift|done|lia|rewrite Hunit; nia|rewrite Hunit; nia|lia..].
Qed.

(** garret's defaults: 16 MiB parts, a 256 MiB cap, a 1,000-byte buffer. *)
Lemma upload_budget_bounds_witness :
  (acquire_units (upload_limits 16777216 4 268435456) 1000 = 1)%Z ∧
  (1 ≤ total_slots (upload_limits 16777216 4 268435456))%Z.
Proof.
  destruct (upload_budget_bounds 16777216 4 268435456 1000) as (_ & -> & _ & _ & _ & _ & Hs);
    [done|done|done|]. split; [by vm_compute|exact Hs].
Defined.

(** *** Blob keys *)

Lemma hash_for_Some key h : hash_for key = Some h ↔ (key = key_for h ∧ h ≠ "").
Proof.
  unfold hash_for, key_for. rewrite bind_Some. setoid_rewrite strip_prefix_Some. split.
  - intros (k & -> & Hk). apply bind_Some in Hk as (h' & ->%strip_suffix_Some & Hh).
    case_bool_decide; [done|]. by injection Hh as ->.
  - intros [-> Hne]. exists (h +:+ ".nar.zst"). split; [done|].
    apply bind_Some. exists h. split; [by apply strip_suffix_Some|].
    by rewrite bool_decide_eq_false_2.
Qed.

Lemma key_for_inj h h' : key_for h = key_for h' → h = h'.
Proof.
  unfold key_for. intros Hk. apply (f_equal (strip_prefix "nar/")) in Hk.
  rewrite !(proj2 (strip_prefix_Some _ _ _) eq_refl) in Hk. injection Hk as Hk.
  by apply str_app_inv_tail in Hk.
Qed.

#[export] Instance key_for_Inj : Inj (=) (=) key_for.
Proof. intros h h'. apply key_for_inj. Qed.

Lemma orphan_hashes_elem blobs known in_flight grace h :
  h ∈ orphan_hashes blobs known in_flight grace ↔
  ¬ (h ∈ known) ∧ claims in_flight !! h = None ∧
  ∃ blob, blob ∈ blobs ∧ bl_hash blob = h ∧ (grace ≤ bl_age blob)%Z.
Proof.
  unfold orphan_hashes. rewrite list_elem_of_fmap. setoid_rewrite list_elem_of_filter.
  unfold orphan, inflight_contains.
  setoid_rewrite andb_true_iff. setoid_rewrite andb_true_iff. setoid_rewrite negb_true_iff.
  setoid_rewrite bool_decide_eq_false. setoid_rewrite Z.leb_le. setoid_rewrite <-eq_None_not_Some.
  naive_solver.
Qed.

(** *** Deleting blobs *)

(** What a trace asked to delete, with the answer. *)
Definition ev_delete (e : Event S3Op) : option (list string * Result (list DeleteError) string) :=
  match e with
  | Ev op r =>
      match op in S3Op B return B → option (list string * Result (list DeleteError) string) with
      | DeleteObjects keys => λ r, Some (keys, r)
      | _ => λ _, None
      end r
  end.

(** The failures a request's answer reports; a failed request reports one. *)
Definition answer_clean (d : list string * Result (list DeleteError) string) : Prop :=
  ∃ errors, d.2 = Ok errors ∧ delete_failures errors = [].

Lemma delete_batches_spec batches failed first tr res :
  run_trace (delete_batches batches failed first) tr res →
  let asked := omap ev_delete tr in
  length asked = length tr ∧
  (∃ rest, batches = map fst asked ++ rest ∧ (Forall (λ d, is_ok d.2 = true) asked → rest = [])) ∧
  (res = Ok tt ↔ first = None ∧ batches = map fst asked ∧ Forall answer_clean asked).
Proof.
  revert failed first tr. induction batches as [|batch batches IH]; intros failed first tr; cbn [delete_batches].
  - intros [-> ->]%run_trace_ret. simpl. split_and!; [done|by exists []|].
    destruct first; naive_solver.
  - intros (output & tr' & -> & Hk)%run_trace_request_bind.
    change (omap ev_delete (_ :: tr')) with ((batch, output) :: omap ev_delete tr').
    destruct output as [errors|e].
    + apply IH in Hk as (Hlen & (rest & Hrest & Hall) & Hok). cbn [map fst length].
      split_and!; [by rewrite Hlen|exists rest; split; [by rewrite Hrest|]|].
      { by intros [_ HF]%Forall_cons; apply Hall. }
      rewrite Hok. split.
      * intros (Hf & -> & Hc). destruct first as [|]; [done|].
        destruct (delete_failures errors) as [|f fs] eqn:Hfs; [|done].
        split_and!; [done|done|]. constructor; [by exists errors|done].
      * intros (-> & [= ->] & HF). apply Forall_cons in HF as [(errors' & [= <-] & ->) HF]. done.
    + apply run_trace_ret in Hk as [-> ->]. simpl. split_and!; [done| |].
      * exists batches. split; [done|]. intros HF. apply Forall_cons in HF as [HF _]. done.
      * split; [done|]. intros (_ & _ & HF). apply Forall_cons in HF as [(errors' & ? & _) _]. done.
Qed.


(** delete_objects sends the keys in order in batches of one to a thousand, and succeeds
    exactly when every key was sent and every batch was answered with no failed key. *)
Theorem delete_objects_reports_failures keys tr res :
  run_trace (delete_objects keys) tr res →
  let asked := omap ev_delete tr in
  length asked = length tr ∧
  Forall (λ d, 0 < length d.1 ≤ 1000) asked ∧
  (∃ rest, keys = concat (map fst asked) ++ rest ∧
    (Forall (λ d, is_ok d.2 = true) asked → rest = [])) ∧
  (res = Ok tt ↔ keys = concat (map fst asked) ∧ Forall answer_clean asked).
Proof.
  intros Hr. apply delete_batches_spec in Hr as (Hlen & (rest & Hrest & Hall) & Hok).
  set (asked := omap ev_delete tr) in *. intros asked'. fold asked in asked'. subst asked'.
  assert (Hkeys : keys = concat (map fst asked) ++ concat rest).
  { by rewrite <-concat_app, <-Hrest, chunks_concat. }
  assert (Hsz : ∀ c, c ∈ map fst asked ++ rest → 0 < length c ≤ 1000).
  { intros c Hc. rewrite <-Hrest in Hc. by eapply chunks_fuel_length in Hc. }
  split_and!; [done| | |].
  - apply Forall_forall. intros d Hd. apply Hsz, elem_of_app. left.
    apply list_elem_of_fmap. by exists d.
  - exists (concat rest). split; [done|]. intros HF. by rewrite (Hall HF).
  - rewrite Hok. split.
    + intros (_ & Hb & HF). split; [|done]. by rewrite <-Hb, chunks_concat.
    + intros [Hk HF]. split_and!; [done| |done]. rewrite Hrest.
      destruct rest as [|c rest]; [by rewrite app_nil_r|].
      exfalso. rewrite Hk in Hkeys at 1. symmetry in Hkeys.
      rewrite <-(app_nil_r (concat (map fst asked))) in Hkeys at 2. apply app_inv_head in Hkeys.
      assert (0 < length c ≤ 1000) as Hc by (apply Hsz; set_solver).
      apply (f_equal length) in Hkeys. simpl in Hkeys. rewrite length_app in Hkeys. simpl in *. lia.
Qed.

(** Two keys, one already absent and one S3 could not delete. *)
Lemma delete_objects_reports_failures_witness :
  Err (Fail_Other "1 blob(s) not deleted, first: nar/b.nar.zst (InternalError: )") ≠
    (Ok tt : Result unit Failure).
Proof.
  assert (Hr : run_trace (delete_objects ["nar/a.nar.zst"; "nar/b.nar.zst"])
    [Ev (DeleteObjects ["nar/a.nar.zst"; "nar/b.nar.zst"])
       (Ok [mkDeleteError (Some "nar/a.nar.zst") (Some "NoSuchKey") None;
            mkDeleteError (Some "nar/b.nar.zst") (Some "InternalError") None])]
    (Err (Fail_Other "1 blob(s) not deleted, first: nar/b.nar.zst (InternalError: )"))).
  { repeat (cbn; constructor). }
  intros H. apply (delete_objects_reports_failures _ _ _ Hr) in H as [_ HF].
  apply Forall_cons in HF as [(errors & [= <-] & Hf) _]. discriminate Hf.
Defined.

(** *** Listing blobs *)

(** A listing: the answer to each page request, and when it came. *)
Fixpoint list_trace (token : option string) (pages : list (ObjectPage * Z)) : list (Event S3Op) :=
  match pages with
  | [] => []
  | (page, now) :: pages =>
      Ev (ListObjects token) (Ok page) :: Ev ClockNow now ::
        list_trace (next_continuation_token page) pages
  end.

(** Every page but the last names the next. *)
Fixpoint pages_linked (pages : list (ObjectPage * Z)) : Prop :=
  match pages with
  | [] => False
  | [(page, _)] => next_continuation_token page = None
  | (page, _) :: pages => is_Some (next_continuation_token page) ∧ pages_linked pages
  end.

(** What a listed object must turn into. *)
Definition lists_blob (pages : list (ObjectPage * Z)) (blob : Blob) : Prop :=
  ∃ page now object, (page, now) ∈ pages ∧ object ∈ contents page ∧
    s3_key object = Some (key_for (bl_hash blob)) ∧ bl_hash blob ≠ "" ∧
    s3_size object = Some (bl_size blob) ∧ bl_age blob = age now (s3_last_modified object).

Lemma page_blobs_spec now objects :
  match page_blobs now objects with
  | Ok blobs => ∀ blob, blob ∈ blobs ↔ lists_blob [(mkObjectPage objects None, now)] blob
  | Err _ => ∃ object h, object ∈ objects ∧ s3_key object = Some (key_for h) ∧ s3_size object = None
  end.
Proof.
  assert (Hone : ∀ objects blob, lists_blob [(mkObjectPage objects None, now)] blob ↔
    ∃ object, object ∈ objects ∧ s3_key object = Some (key_for (bl_hash blob)) ∧ bl_hash blob ≠ "" ∧
      s3_size object = Some (bl_size blob) ∧ bl_age blob = age now (s3_last_modified object)).
  { intros os blob. unfold lists_blob. setoid_rewrite list_elem_of_singleton. naive_solver. }
  induction objects as [|object objects IH]; cbn [page_blobs].
  - intros blob. rewrite Hone. set_solver.
  - destruct (s3_key object ≫= hash_for) as [hash|] eqn:Hhash.
    + apply bind_Some in Hhash as (key & Hkey & [-> Hne]%hash_for_Some).
      destruct (s3_size object) as [size|] eqn:Hsize; [|by exists object, hash; set_solver].
      destruct (page_blobs now objects) as [blobs|e].
      2: { destruct IH as (o & h & ? & ?). exists o, h. set_solver. }
      intros blob. rewrite elem_of_cons, IH, !Hone. split.
      * intros [->|(o & ? & ?)]; [exists object; set_solver|exists o; set_solver].
      * intros (o & [->|Ho]%elem_of_cons & Hk & Hn & Hs & Ha); [|right; eauto 10].
        left. rewrite Hkey in Hk. apply (inj Some) in Hk as Hk%key_for_inj. destruct blob. simpl in *. congruence.
    + destruct (page_blobs now objects) as [blobs|e].
      2: { destruct IH as (o & h & ? & ?). exists o, h. set_solver. }
      intros blob. rewrite IH, !Hone. split.
      * intros (o & ? & ?). exists o. set_solver.
      * intros (o & [->|Ho]%elem_of_cons & Hk & Hn & Hs & Ha); [|eauto 10].
        rewrite Hk in Hhash. simpl in Hhash.
        by rewrite (proj2 (hash_for_Some _ _) (conj eq_refl Hn)) in Hhash.
Qed.

Lemma lists_blob_cons page now pages blob :
  lists_blob ((page, now) :: pages) blob ↔
  lists_blob [(mkObjectPage (contents page) None, now)] blob ∨ lists_blob pages blob.
Proof.
  unfold lists_blob. setoid_rewrite elem_of_cons. setoid_rewrite elem_of_nil. split.
  - intros (p & n & o & [[= -> ->]|Hin] & Ho & Hrest); [left|right; eauto 10].
    eexists _, _, o. split; [by left|]. done.
  - intros [(p & n & o & [[= -> ->]|[]] & Ho & Hrest)|(p & n & o & Hin & Hrest)]; [|eauto 10].
    eexists _, _, o. split; [by left|]. done.
Qed.

Lemma list_blobs_loop_spec fuel token out pages :
  pages_linked pages →
  (∀ page now object, (page, now) ∈ pages → object ∈ contents page → is_Some (s3_size object)) →
  length pages ≤ fuel →
  ∃ new, run_trace (list_blobs_loop fuel token out) (list_trace token pages) (Ok (out ++ new)) ∧
    ∀ blob, blob ∈ new ↔ lists_blob pages blob.
Proof.
  revert token out pages. induction fuel as [|fuel IH]; intros token out pages Hl Hs Hlen.
  { destruct pages; [done|]. simpl in Hlen. lia. }
  destruct pages as [|[page now] pages]; [done|]. cbn [list_blobs_loop list_trace].
  pose proof (page_blobs_spec now (contents page)) as Hpage.
  destruct (page_blobs now (contents page)) as [blobs|e] eqn:Hblobs.
  2: { exfalso. destruct Hpage as (object & h & Ho & _ & Hnone).
       assert (is_Some (s3_size object)) as [? ?] by (apply (Hs page now); [by left|done]). congruence. }
  destruct pages as [|[page' now'] pages].
  - simpl in Hl. exists blobs. split.
    + constructor. cbn [prog_bind]. constructor. cbn [prog_bind]. rewrite Hblobs, Hl. constructor.
    + intros blob. rewrite Hpage, (lists_blob_cons page). split; [intros ?; by left|].
      intros [?|(p & n & o & []%elem_of_nil & _)]. done.
  - destruct Hl as [[tok Htok] Hl].
    destruct (IH (Some tok) (out ++ blobs) _ Hl) as (new & Hrun & Hnew);
      [intros; eapply Hs; [by right|done]|simpl in *; lia|].
    exists (blobs ++ new). split.
    + constructor. cbn [prog_bind]. constructor. cbn [prog_bind]. rewrite Hblobs, Htok, app_assoc.
      exact Hrun.
    + intros blob. rewrite elem_of_app, Hpage, Hnew, (lists_blob_cons page). done.
Qed.

(** list_blobs follows the continuation tokens to the last page and returns exactly the
    blobs of the listed objects. *)
Theorem list_blobs_complete n pages :
  pages_linked pages → length pages ≤ n →
  (∀ page now object, (page, now) ∈ pages → object ∈ contents page → is_Some (s3_size object)) →
  ∃ blobs, run_trace (list_blobs n) (list_trace None pages) (Ok blobs) ∧
    ∀ blob, blob ∈ blobs ↔ lists_blob pages blob.
Proof.
  intros Hl Hn Hs. unfold list_blobs.
  destruct (list_blobs_loop_spec n None [] pages Hl Hs Hn) as (new & Hrun & Hnew).
  by exists new.
Qed.

(** Two pages; a key outside [nar/] is skipped. *)
Lemma list_blobs_complete_witness :
  ∃ blobs, run_trace (list_blobs 2)
    (list_trace None
      [(mkObjectPage [mkS3Object (Some "nar/a.nar.zst") (Some 5) (Some 7);
                      mkS3Object (Some "index.html") None (Some 1)]%Z (Some "t"), 9%Z);
       (mkObjectPage [mkS3Object (Some "nar/b.nar.zst") None (Some 8)]%Z None, 9%Z)]) (Ok blobs) ∧
    mkBlob "a" 4 7 ∈ blobs.
Proof.
  set (pages := [(mkObjectPage [mkS3Object (Some "nar/a.nar.zst") (Some 5) (Some 7);
                      mkS3Object (Some "index.html") None (Some 1)]%Z (Some "t"), 9%Z);
       (mkObjectPage [mkS3Object (Some "nar/b.nar.zst") None (Some 8)]%Z None, 9%Z)]).
  destruct (list_blobs_complete 2 pages) as (blobs & Hrun & Hin).
  - split; [by eexists|done].
  - done.
  - unfold pages. intros page now object Hp Ho. set_unfold.
    repeat (destruct_or? || destruct_and? || simplify_eq/= || set_unfold in Ho); eauto; set_solver.
  - exists blobs. split; [exact Hrun|]. apply Hin.
    eexists _, _, (mkS3Object (Some "nar/a.nar.zst") (Some 5%Z) (Some 7%Z)).
    split; [by left|]. split; [by left|]. done.
Defined.

(** *** Aborting stale multiparts *)

(** The multipart an event aborted. *)
Definition ev_abort (e : Event S3Op) : option (string * string) :=
  match e with
  | Ev op _ => match op with AbortMultipart key id => Some (key, id) | _ => None end
  end.

(** The path an event found free. *)
Definition ev_free (e : Event S3Op) : option string :=
  match e with
  | Ev op r =>
      match op in S3Op B return B → option string with
      | InFlightContains h => λ busy, if busy then None else Some h
      | _ => λ _, None
      end r
  end.

Definition abortable (grace now : Z) (upload : S3Upload) (tr : list (Event S3Op)) (key id : string) : Prop :=
  up_key upload = Some key ∧ up_id upload = Some id ∧
  (grace ≤ age now (up_initiated upload))%Z ∧
  ∃ hash, key = key_for hash ∧ hash ∈ omap ev_free tr.

Lemma abort_page_spec grace now uploads aborted tr res :
  run_trace (abort_page grace now uploads aborted) tr res →
  (∀ key id, (key, id) ∈ omap ev_abort tr →
    ∃ upload, upload ∈ uploads ∧ abortable grace now upload tr key id) ∧
  match res with Ok n => n = aborted + length (omap ev_abort tr) | Err _ => True end.
Proof.
  revert aborted tr. induction uploads as [|upload uploads IH]; intros aborted tr; cbn [abort_page].
  { intros [-> ->]%run_trace_ret. split; [set_solver|simpl; lia]. }
  assert (Hskip : run_trace (abort_page grace now uploads aborted) tr res →
    (∀ key id, (key, id) ∈ omap ev_abort tr →
      ∃ u, u ∈ upload :: uploads ∧ abortable grace now u tr key id) ∧
    match res with Ok n => n = aborted + length (omap ev_abort tr) | Err _ => True end).
  { intros [H1 H2]%IH. split; [|done]. intros key id (u & Hu & ?)%H1. exists u. set_solver. }
  destruct (up_key upload) as [key|] eqn:Hkey; [|done].
  destruct (up_id upload) as [id|] eqn:Hid; [|done].
  destruct (hash_for key) as [hash|] eqn:Hhash; [|done]. clear Hskip.
  apply hash_for_Some in Hhash as [-> Hne].
  intros (busy & tr' & -> & Hk)%run_trace_request_bind.
  assert (Hmono : ∀ e tr u key id, abortable grace now u tr key id → abortable grace now u (e :: tr) key id).
  { intros e tr0 u k i (? & ? & ? & h & ? & ?). split_and!; try done. exists h. split; [done|].
    simpl. destruct (ev_free e); set_solver. }
  destruct (busy || (age now (up_initiated upload) <? grace)%Z) eqn:Hskip.
  - apply IH in Hk as [H1 H2]. split; [|done]. intros k i (u & Hu & Ha)%H1.
    exists u. split; [by right|]. by apply Hmono.
  - apply orb_false_iff in Hskip as [-> Hage%Z.ltb_ge].
    apply run_trace_request_bind in Hk as (done & tr2 & -> & Hk).
    assert (Hthis : ∀ tr3, abortable grace now upload
      (Ev (InFlightContains hash) false :: tr3) (key_for hash) id).
    { intros tr3. split_and!; try done. exists hash. split; [done|]. simpl. by left. }
    destruct done as [[]|e].
    + apply IH in Hk as [H1 H2].
      change (omap ev_abort (_ :: _ :: tr2)) with ((key_for hash, id) :: omap ev_abort tr2). split.
      * intros k i [[= -> ->]|Hin]%elem_of_cons; [exists upload; split; [by left|apply Hthis]|].
        apply H1 in Hin as (u & Hu & Ha). exists u. split; [by right|]. by do 2 apply Hmono.
      * destruct res; [|done]. rewrite H2. cbn [length]. lia.
    + apply run_trace_ret in Hk as [-> ->]. split; [|done].
      intros k i Hin. apply list_elem_of_singleton in Hin as [= -> ->].
      exists upload. split; [by left|apply Hthis].
Qed.

(** The uploads a run of listings saw, with the time each page was read. *)
Definition ev_uploads (e : Event S3Op) : list S3Upload :=
  match e with
  | Ev op r =>
      match op in S3Op B return B → list S3Upload with
      | ListMultipart _ _ => λ r, match r with Ok page => page_uploads page | Err _ => [] end
      | _ => λ _, []
      end r
  end.

Lemma abortable_weaken grace now u tr0 tr1 tr2 key id :
  abortable grace now u tr1 key id → abortable grace now u (tr0 ++ tr1 ++ tr2) key id.
Proof.
  intros (? & ? & ? & h & ? & Hh). split_and!; try done. exists h. split; [done|].
  rewrite !omap_app. set_solver.
Qed.

(** The aborts of [tr'] are right by what all of [tr] saw. *)
Definition aborts_stale (grace : Z) (tr' tr : list (Event S3Op)) : Prop :=
  ∀ key id, (key, id) ∈ omap ev_abort tr' →
    ∃ now upload, Ev ClockNow now ∈ tr ∧ upload ∈ (tr ≫= ev_uploads) ∧ abortable grace now upload tr key id.

Lemma aborts_stale_app grace tr1 tr2 tr :
  aborts_stale grace tr1 tr → aborts_stale grace tr2 tr → aborts_stale grace (tr1 ++ tr2) tr.
Proof. intros H1 H2 key id. rewrite omap_app. intros [Hin|Hin]%elem_of_app; [by apply H1|by apply H2]. Qed.

Lemma aborts_stale_later grace before tr : aborts_stale grace tr tr → aborts_stale grace tr (before ++ tr).
Proof.
  intros H key id (t & u & Ht & Hu & Ha)%H. exists t, u. split_and!.
  - apply elem_of_app. by right.
  - rewrite bind_app. apply elem_of_app. by right.
  - apply (abortable_weaken _ _ _ before _ []) in Ha. by rewrite app_nil_r in Ha.
Qed.

Lemma aborts_stale_page grace km um page now aborted tr rest res :
  run_trace (abort_page grace now (page_uploads page) aborted) tr res →
  aborts_stale grace tr (Ev (ListMultipart km um) (Ok page) :: Ev ClockNow now :: tr ++ rest).
Proof.
  intros [Hp _]%abort_page_spec key id (u & Hu & Ha)%Hp. exists now, u. split_and!.
  - right. by left.
  - change (_ ≫= ev_uploads) with (page_uploads page ++ ((tr ++ rest) ≫= ev_uploads)). set_solver.
  - by apply (abortable_weaken _ _ _ [Ev (ListMultipart km um) (Ok page); Ev ClockNow now]).
Qed.

Lemma abort_stale_loop_spec pages grace km um aborted tr res :
  run_trace (abort_stale_loop pages grace km um aborted) tr res →
  aborts_stale grace tr tr ∧
  match res with Ok n => n = aborted + length (omap ev_abort tr) | Err _ => True end.
Proof.
  revert tr km um aborted. induction pages as [|pages IH]; intros tr km um aborted; cbn [abort_stale_loop].
  { intros [-> ->]%run_trace_ret. split; [by intros key id ?%elem_of_nil|done]. }
  intros (page & tr1 & -> & Hk)%run_trace_request_bind. destruct page as [page|e].
  2: { apply run_trace_ret in Hk as [-> ->]. split; [by intros key id ?%elem_of_nil|done]. }
  apply run_trace_request_bind in Hk as (now & tr2 & -> & Hk).
  apply run_trace_bind in Hk as (done & tr3 & tr4 & -> & Hpage & Hk).
  set (before := [Ev (ListMultipart km um) (Ok page); Ev ClockNow now]).
  assert (Hthis : ∀ rest, aborts_stale grace tr3 (before ++ tr3 ++ rest)) by (intros rest; exact (aborts_stale_page grace km um page now aborted tr3 rest done Hpage)).
  assert (Hend : tr4 = [] → aborts_stale grace (before ++ tr3 ++ tr4) (before ++ tr3 ++ tr4)).
  { intros ->. rewrite app_nil_r. specialize (Hthis []). by rewrite app_nil_r in Hthis. }
  change (_ :: _ :: tr3 ++ tr4) with (before ++ tr3 ++ tr4).
  assert (Hn : omap ev_abort (before ++ tr3 ++ tr4) = omap ev_abort tr3 ++ omap ev_abort tr4) by (rewrite !omap_app; done).
  apply abort_page_spec in Hpage as [_ Hp]. destruct done as [n|e].
  2: { apply run_trace_ret in Hk as [-> ->]. split; [by apply Hend|done]. }
  case_bool_decide as Htrunc; [destruct (next_key_marker page) as [marker|]|].
  - apply IH in Hk as [Hk1 Hk2]. split; [|destruct res; [rewrite Hn, length_app; lia|done]].
    apply (aborts_stale_app _ before); [by intros key id ?%elem_of_nil|]. apply aborts_stale_app; [apply Hthis|].
    rewrite app_assoc. by apply aborts_stale_later.
  - apply run_trace_ret in Hk as [-> ->]. split; [by apply Hend|done].
  - apply run_trace_ret in Hk as [-> ->]. split; [by apply Hend|]. rewrite Hn. cbn. rewrite app_nil_r. lia.
Qed.

(** abort_stale_multiparts only aborts an upload that a listing returned and that is older than the
    grace period by the clock it read, for a key that names no current claim, and it counts its
    aborts. *)
Theorem abort_stale_spares_live_uploads pages grace tr res :
  run_trace (abort_stale_multiparts pages grace) tr res →
  (∀ key id, (key, id) ∈ omap ev_abort tr →
    ∃ now upload, Ev ClockNow now ∈ tr ∧ upload ∈ (tr ≫= ev_uploads) ∧
      abortable grace now upload tr key id) ∧
  match res with Ok n => n = length (omap ev_abort tr) | Err _ => True end.
Proof. apply abort_stale_loop_spec. Qed.

(** Three uploads: in flight, young, and one to abort. *)
Lemma abort_stale_spares_live_uploads_witness :
  ∃ now upload, (now, upload) = (100%Z, mkS3Upload (Some "nar/c.nar.zst") (Some "3") (Some 10%Z)) ∧
  ∃ hash : string, "nar/c.nar.zst" = key_for hash.
Proof.
  set (page := mkUploadPage
    [mkS3Upload (Some "nar/a.nar.zst") (Some "1") (Some 10%Z);
     mkS3Upload (Some "nar/b.nar.zst") (Some "2") (Some 90%Z);
     mkS3Upload (Some "nar/c.nar.zst") (Some "3") (Some 10%Z)] (Some false) None None).
  assert (Hr : run_trace (abort_stale_multiparts 1 60)
    [Ev (ListMultipart None None) (Ok page); Ev ClockNow 100%Z;
     Ev (InFlightContains "a") true; Ev (InFlightContains "b") false;
     Ev (InFlightContains "c") false; Ev (AbortMultipart "nar/c.nar.zst" "3") (Ok tt)] (Ok 1)).
  { repeat (cbn; constructor). }
  apply abort_stale_spares_live_uploads in Hr as [Hr _].
  destruct (Hr "nar/c.nar.zst" "3") as (now & upload & _ & _ & (_ & _ & _ & hash & Hk & _)).
  - by left.
  - eexists _, _. split; [reflexivity|]. by exists hash.
Defined.
