(* ===== verification/World.v ===== *)
(** * World: the state the Pusher's handlers share, and their interleavings

    The handlers meet in four places: the database connection
    ([state.rs]: [AppState.conn], [db_run]), the in-flight set, the bucket and
    the clock. A request of [Op] is one atomic act on them; [op_step] says what
    each may do, failures included: a database task can fail between two
    commits, a put or delete can fail after taking effect, S3 may list any
    blobs. [pool_step] interleaves any number of handlers request by request,
    cancels uploads whose client is gone and restarts the process.

    [ok] is the discipline a handler follows with the claims it holds, checked
    on its own; [pool_safe] is the theorem that handlers following it, however
    they interleave, never leave a row without the blob it describes. *)

From S2P Require Import Prelude Text Common InFlight Db Prog Storage.

(** ** Requests *)

(** [Op_Db moved f] is [db_run]: [f] sees the clock, the database and, under its lock, the
    in-flight set; it returns the states it commits, in order, the in-flight
    set with the claims it took, and its result. [moved] are the claims moved
    into the closure, which outlive a dropped handler. *)
Inductive Op : Type → Type :=
  | Op_Claim (hash : string) : Op (Result unit Refused)
  | Op_ClaimDelete (hash : string) : Op (Result unit Busy)
  | Op_Release (hashes : list string) : Op unit
  | Op_InFlight : Op State
  | Op_Quiesce : Op unit
  | Op_Drain : Op bool
  | Op_DropGuard : Op unit
  | Op_TryAcquire : Op bool
  | Op_Now : Op Z
  | Op_Db {A : Type} (moved : list string)
      (f : Z → Db → State → list Db * State * Result A Failure)
      : Op (Result A Failure)
  | Op_PutStream {S : Type} {stream : ByteStream S} (sha256 : list Z → list Z) (key : string)
      (body : S) (limits : UploadLimits) (first_part_hint : Z)
      : Op (Result (list Z * Z) Failure * S)
  | Op_DeleteBlobs (keys : list string) : Op (Result unit Failure)
  | Op_ListBlobs : Op (Result (list Blob) Failure)
  | Op_AbortStale (grace : Z) : Op (Result nat Failure)
  | Op_Backup (dest : string) : Op (Result Z Failure).

Abbreviation Handler := (Prog Op).

(** Reads, and writes of one transaction. *)
Definition db_read {A} (f : Db → A) : Handler (Result A Failure) :=
  request (Op_Db [] (λ _ db st, ([], st, Ok (f db)))).
Definition db_write {A} (f : Db → Db * A) : Handler (Result A Failure) :=
  request (Op_Db [] (λ _ db st, ([(f db).1], st, Ok (f db).2))).

(** Closures that read the clock ([unix_now]) under the lock. *)
Definition db_write_now {A} (f : Z → Db → Db * A) : Handler (Result A Failure) :=
  request (Op_Db [] (λ now db st, ([(f now db).1], st, Ok (f now db).2))).
Definition db_try_now (f : Z → Db → Result Db string) : Handler (Result unit Failure) :=
  request (Op_Db [] (λ now db st,
    match f now db with
    | Ok db' => ([db'], st, Ok tt)
    | Err e => ([], st, Err (Fail_Other e))
    end)).

(** A transaction that may fail, with claims moved into its closure. *)
Definition db_try (moved : list string) (f : Db → Result Db string) : Handler (Result unit Failure) :=
  request (Op_Db moved (λ _ db st,
    match f db with
    | Ok db' => ([db'], st, Ok tt)
    | Err e => ([], st, Err (Fail_Other e))
    end)).

(** ** The world *)

Record World := mkWorld {
  w_db : Db;
  w_blobs : gmap string (list Z);
  w_inflight : State;
  w_now : Z;
}.

Definition with_db (db : Db) (w : World) : World :=
  mkWorld db (w_blobs w) (w_inflight w) (w_now w).
Definition with_blobs (blobs : gmap string (list Z)) (w : World) : World :=
  mkWorld (w_db w) blobs (w_inflight w) (w_now w).
Definition with_inflight (st : State) (w : World) : World :=
  mkWorld (w_db w) (w_blobs w) st (w_now w).
Definition with_now (t : Z) (w : World) : World :=
  mkWorld (w_db w) (w_blobs w) (w_inflight w) t.

Definition world_empty : World := mkWorld db_empty ∅ inflight_new 0.

Definition last_commit (db : Db) (commits : list Db) : Db := List.last commits db.

(** The bucket once a trace has left [object] at [key]. *)
Definition put_object (key : string) (object : option (list Z)) (blobs : gmap string (list Z))
    : gmap string (list Z) :=
  match object with Some bytes => <[key := bytes]> blobs | None => blobs end.

(** [op_step w held op r w' held']: in world [w], a handler holding claims
    [held] has [op] answered with [r]. *)
Definition op_step (w : World) (held : gset string) {B} (op : Op B) :
    B → World → gset string → Prop :=
  match op in Op B return B → World → gset string → Prop with
  | Op_Claim h => λ r w' held',
      match claim (w_inflight w) h with
      | Ok st => r = Ok tt ∧ w' = with_inflight st w ∧ held' = {[h]} ∪ held
      | Err e => r = Err e ∧ w' = w ∧ held' = held
      end
  | Op_ClaimDelete h => λ r w' held',
      match claim_delete (w_inflight w) h with
      | Ok st => r = Ok tt ∧ w' = with_inflight st w ∧ held' = {[h]} ∪ held
      | Err e => r = Err e ∧ w' = w ∧ held' = held
      end
  | Op_Release hs => λ _ w' held',
      w' = with_inflight (drop_claims (w_inflight w) hs) w ∧ held' = held ∖ list_to_set hs
  | Op_InFlight => λ r w' held', r = w_inflight w ∧ w' = w ∧ held' = held
  | Op_Quiesce => λ _ w' held', w' = with_inflight (quiesce (w_inflight w)) w ∧ held' = held
  | Op_Drain => λ r w' held', (r = true → uploads (w_inflight w) = 0%Z) ∧ w' = w ∧ held' = held
  | Op_DropGuard => λ _ w' held', w' = with_inflight (drop_guard (w_inflight w)) w ∧ held' = held
  | Op_TryAcquire => λ _ w' held', w' = w ∧ held' = held
  | Op_Now => λ r w' held', r = w_now w ∧ w' = w ∧ held' = held
  | Op_Db moved f => λ r w' held',
      let '(commits, st, res) := f (w_now w) (w_db w) (w_inflight w) in
      (r = res ∧ w' = with_db (last_commit (w_db w) commits) (with_inflight st w) ∧
        held' = held ∪ (dom (claims st) ∖ dom (claims (w_inflight w)))) ∨
      (∃ msg db', r = Err (Fail_Other msg) ∧ db' ∈ w_db w :: commits ∧
        w' = with_db db' w ∧ held' = held)
  | Op_PutStream sha256 key body limits hint => λ r w' held',
      held' = held ∧ ∃ tr, run_trace (put_streaming sha256 key body limits hint) tr r ∧
        (w' = with_blobs (put_object key (object_after key tr) (w_blobs w)) w ∨
         is_ok r.1 = false ∧ ∃ bytes, w' = with_blobs (<[key := bytes]> (w_blobs w)) w)
  | Op_DeleteBlobs keys => λ r w' held',
      held' = held ∧ ∃ gone, gone ⊆ keys ∧ (is_ok r = true → gone = keys) ∧
        w' = with_blobs (foldr delete (w_blobs w) gone) w
  | Op_ListBlobs => λ _ w' held', w' = w ∧ held' = held
  | Op_AbortStale grace => λ _ w' held', w' = w ∧ held' = held
  | Op_Backup dest => λ _ w' held', w' = w ∧ held' = held
  end.

(** One handler alone: it runs to its end with nothing in between. *)
Inductive runs {A} : World → gset string → Handler A → World → gset string → A → Prop :=
  | runs_ret w held a : runs w held (Ret a) w held a
  | runs_step {B} w held (op : Op B) k r w1 held1 w2 held2 a :
      op_step w held op r w1 held1 → runs w1 held1 (k r) w2 held2 a →
      runs w held (Step op k) w2 held2 a.

Lemma runs_ret_inv {A} w held (a : A) w' held' a' :
  runs w held (Ret a) w' held' a' → w' = w ∧ held' = held ∧ a' = a.
Proof. intros H. by inversion H. Qed.

Lemma runs_step_inv {A B} w held (op : Op B) (k : B → Handler A) w2 held2 a :
  runs w held (Step op k) w2 held2 a →
  ∃ r w1 held1, op_step w held op r w1 held1 ∧ runs w1 held1 (k r) w2 held2 a.
Proof.
  intros H.
  refine (match H in runs w held p w2 held2 a return
            match p with
            | Ret _ => True
            | Step op k => ∃ r w1 held1, op_step w held op r w1 held1 ∧ runs w1 held1 (k r) w2 held2 a
            end with
          | runs_ret _ _ _ => I
          | runs_step w held op k r w1 held1 w2 held2 a Hs Hr => _
          end).
  eauto.
Qed.

Lemma runs_bind {A B} w held (p : Handler A) (f : A → Handler B) w2 held2 b :
  runs w held (prog_bind p f) w2 held2 b ↔
  ∃ a w1 held1, runs w held p w1 held1 a ∧ runs w1 held1 (f a) w2 held2 b.
Proof.
  split.
  - revert w held. induction p as [a|C op k IH]; intros w held; cbn [prog_bind].
    + intros Hr. exists a, w, held. split; [constructor|done].
    + intros (r & w1 & held1 & Hs & Hr)%runs_step_inv.
      apply IH in Hr as (a & w3 & held3 & H1 & H2). exists a, w3, held3.
      split; [by econstructor|done].
  - intros (a & w1 & held1 & H1 & H2). induction H1 as [|C w held op k r w1 held1 w3 held3 a Hs Hr IH]; [done|].
    cbn [prog_bind]. econstructor; [done|]. by apply IH.
Qed.

Lemma runs_request {A B} w held (op : Op B) (f : B → Handler A) w2 held2 a :
  runs w held (do r <- request op; f r) w2 held2 a →
  ∃ r w1 held1, op_step w held op r w1 held1 ∧ runs w1 held1 (f r) w2 held2 a.
Proof. apply runs_step_inv. Qed.

(** Every handler has a run: each request has an answer. *)
Lemma op_step_total {B} w held (op : Op B) : ∃ r w' held', op_step w held op r w' held'.
Proof.
  destruct op; cbn [op_step].
  - destruct (claim _ _); eauto 10.
  - destruct (claim_delete _ _); eauto 10.
  - exists tt. eauto.
  - eauto 10.
  - exists tt. eauto.
  - exists false. eexists _, _. by split.
  - exists tt. eauto.
  - exists true. eauto.
  - eauto 10.
  - destruct (f (w_now w) (w_db w) (w_inflight w)) as [[commits st] res]. eexists _, _, _. left. eauto.
  - eexists _, _, _. split; [done|]. eexists. split; [apply s3_exec_run|]. by left.
  - exists (Ok tt). eexists _, _. split; [done|]. exists keys. by eauto.
  - exists (Ok []). eauto.
  - exists (Ok 0). eauto.
  - exists (Ok 0%Z). eauto.
Qed.

Lemma runs_total {A} w held (p : Handler A) : ∃ w' held' a, runs w held p w' held' a.
Proof.
  revert w held. induction p as [a|B op k IH]; intros w held; [eexists _, _, _; constructor|].
  destruct (op_step_total w held op) as (r & w1 & held1 & Hs).
  destruct (IH r w1 held1) as (w2 & held2 & a & Hr). eexists _, _, _. by econstructor.
Qed.

(** *** An executable run, in which nothing fails *)

(** The bucket as a listing shows it, every blob of one age. *)
Definition list_world (blob_age : Z) (w : World) : list Blob :=
  omap (λ e, (λ h, mkBlob h blob_age (len_Z e.2)) <$> hash_for e.1) (map_to_list (w_blobs w)).

Definition answer (blob_age : Z) (w : World) (held : gset string) {B} (op : Op B)
    : B * World * gset string :=
  match op in Op B return B * World * gset string with
  | Op_Claim h =>
      match claim (w_inflight w) h with
      | Ok st => (Ok tt, with_inflight st w, {[h]} ∪ held)
      | Err e => (Err e, w, held)
      end
  | Op_ClaimDelete h =>
      match claim_delete (w_inflight w) h with
      | Ok st => (Ok tt, with_inflight st w, {[h]} ∪ held)
      | Err e => (Err e, w, held)
      end
  | Op_Release hs => (tt, with_inflight (drop_claims (w_inflight w) hs) w, held ∖ list_to_set hs)
  | Op_InFlight => (w_inflight w, w, held)
  | Op_Quiesce => (tt, with_inflight (quiesce (w_inflight w)) w, held)
  | Op_Drain => ((uploads (w_inflight w) =? 0)%Z, w, held)
  | Op_DropGuard => (tt, with_inflight (drop_guard (w_inflight w)) w, held)
  | Op_TryAcquire => (true, w, held)
  | Op_Now => (w_now w, w, held)
  | Op_Db moved f =>
      let out := f (w_now w) (w_db w) (w_inflight w) in
      (out.2, with_db (last_commit (w_db w) out.1.1) (with_inflight out.1.2 w),
       held ∪ (dom (claims out.1.2) ∖ dom (claims (w_inflight w))))
  | Op_PutStream sha256 key body limits hint =>
      let out := s3_exec (put_streaming sha256 key body limits hint) in
      (out.1, with_blobs (put_object key (object_after key out.2) (w_blobs w)) w, held)
  | Op_DeleteBlobs keys => (Ok tt, with_blobs (foldr delete (w_blobs w) keys) w, held)
  | Op_ListBlobs => (Ok (list_world blob_age w), w, held)
  | Op_AbortStale _ => (Ok 0, w, held)
  | Op_Backup _ => (Ok 0%Z, w, held)
  end.

Fixpoint exec {A} (blob_age : Z) (w : World) (held : gset string) (p : Handler A)
    : A * World * gset string :=
  match p with
  | Ret a => (a, w, held)
  | Step op k =>
      let out := answer blob_age w held op in
      exec blob_age out.1.2 out.2 (k out.1.1)
  end.

Lemma answer_step {B} blob_age w held (op : Op B) :
  let out := answer blob_age w held op in op_step w held op out.1.1 out.1.2 out.2.
Proof.
  destruct op; cbn [answer op_step]; try done.
  - by destruct (claim _ _).
  - by destruct (claim_delete _ _).
  - simpl. split; [apply Z.eqb_eq|done].
  - destruct (f _ _ _) as [[? ?] ?]. by left.
  - split; [done|]. eexists. split; [apply s3_exec_run|]. by left.
  - split; [done|]. by exists keys.
Qed.

Lemma exec_runs {A} blob_age w held (p : Handler A) a w' held' :
  exec blob_age w held p = (a, w', held') → runs w held p w' held' a.
Proof.
  revert w held. induction p as [a0|B op k IH]; intros w held; cbn [exec].
  - intros [= <- <- <-]. constructor.
  - intros He. econstructor; [apply answer_step|]. by apply IH.
Qed.

Lemma exec_result {A} blob_age w held (p : Handler A) a :
  (exec blob_age w held p).1.1 = a → ∃ w' held', runs w held p w' held' a.
Proof.
  intros <-. destruct (exec blob_age w held p) as [[a' w'] held'] eqn:He.
  exists w', held'. by apply (exec_runs blob_age).
Qed.

(** A read answers from the database; a write commits once; either may fail. *)
Lemma runs_db_read {A B} w held (g : Db → A) (f : Result A Failure → Handler B) w2 held2 b :
  runs w held (do r <- db_read g; f r) w2 held2 b →
  runs w held (f (Ok (g (w_db w)))) w2 held2 b ∨ ∃ msg, runs w held (f (Err (Fail_Other msg))) w2 held2 b.
Proof.
  intros (r & w1 & held1 & Hs & Hr)%runs_request. cbn [op_step] in Hs.
  destruct Hs as [(-> & -> & ->)|(msg & db' & -> & Hdb & -> & ->)].
  - left. unfold last_commit, with_db, with_inflight in Hr. cbn in Hr.
    rewrite difference_diag_L, union_empty_r_L in Hr. by destruct w.
  - right. exists msg. apply list_elem_of_singleton in Hdb as ->. by destruct w.
Qed.

Lemma runs_db_read_inv {A} w held (g : Db → A) w1 held1 r :
  runs w held (db_read g) w1 held1 r →
  w1 = w ∧ held1 = held ∧ (r = Ok (g (w_db w)) ∨ ∃ msg, r = Err (Fail_Other msg)).
Proof.
  intros H. apply (runs_db_read w held g Ret) in H as [H|(msg & H)];
    apply runs_ret_inv in H as (-> & -> & ->); eauto.
Qed.

Lemma runs_db_write {A B} w held (g : Db → Db * A) (f : Result A Failure → Handler B) w2 held2 b :
  runs w held (do r <- db_write g; f r) w2 held2 b →
  runs (with_db (g (w_db w)).1 w) held (f (Ok (g (w_db w)).2)) w2 held2 b ∨
  ∃ msg w1, (w1 = w ∨ w1 = with_db (g (w_db w)).1 w) ∧
    runs w1 held (f (Err (Fail_Other msg))) w2 held2 b.
Proof.
  intros (r & w1 & held1 & Hs & Hr)%runs_request. cbn [op_step] in Hs.
  destruct Hs as [(-> & -> & ->)|(msg & db' & -> & Hdb & -> & ->)].
  - left. unfold last_commit, with_db, with_inflight in *. cbn in Hr.
    by rewrite difference_diag_L, union_empty_r_L in Hr.
  - right. exists msg, (with_db db' w). split; [|done].
    apply elem_of_cons in Hdb as [->|Hin]; [left; by destruct w|right]; by apply list_elem_of_singleton in Hin as ->.
Qed.

(** ** The discipline of claims *)

(** What a claim's holder knows about its path. *)
Inductive Know :=
  | Know_Upload                  (* upload claim *)
  | Know_Fresh                   (* upload claim, and the path has no row *)
  | Know_Stored (body : list Z)  (* upload claim, no row, and this blob is stored *)
  | Know_Delete                  (* delete claim *)
  | Know_Gone.                   (* delete claim, and the path has no row *)

Definition know_kind (k : Know) : Kind :=
  match k with Know_Upload | Know_Fresh | Know_Stored _ => Kind_Upload | _ => Kind_Delete end.

Definition know_rowless (k : Know) : bool :=
  match k with Know_Fresh | Know_Stored _ | Know_Gone => true | _ => false end.

(** What a failed database task leaves of it. *)
Definition know_forget (k : Know) : Know :=
  match know_kind k with Kind_Upload => Know_Upload | Kind_Delete => Know_Delete end.

Abbreviation Knows := (gmap string Know).

Definition know_db (K : Knows) (db : Db) : Prop :=
  map_Forall (λ h k, know_rowless k = true → objects db !! h = None) K.
Definition know_claims (K : Knows) (st : State) : Prop :=
  map_Forall (λ h k, claims st !! h = Some (know_kind k)) K.
Definition know_blobs (K : Knows) (blobs : gmap string (list Z)) : Prop :=
  map_Forall (λ h k, ∀ body, k = Know_Stored body → blobs !! key_for h = Some body) K.

Record knows (K : Knows) (w : World) : Prop := {
  kn_db : know_db K (w_db w);
  kn_claims : know_claims K (w_inflight w);
  kn_blobs : know_blobs K (w_blobs w);
}.

(** What a row says of its blob. *)
Definition row_facts (row : Row) : string * Z * string * Z :=
  (r_nar_hash row, r_nar_size row, r_file_hash row, r_file_size row).

Definition moved_only (moved : list string) (K : Knows) : Knows := filter (λ e, e.1 ∈ moved) K.

Section discipline.
(** [describes facts body]: a row with these facts is right about this blob. *)
Context (describes : string * Z * string * Z → list Z → Prop).

(** Rows may be deleted and updated freely, but a row or a new set of facts
    appears only for a blob the closure's own upload claim has stored. *)
Definition db_guarantee (K : Knows) (db db' : Db) : Prop :=
  map_Forall (λ h row',
    (∃ row, objects db !! h = Some row ∧ row_facts row' = row_facts row) ∨
    (∃ body, K !! h = Some (Know_Stored body) ∧ describes (row_facts row') body)) (objects db').

Definition closure_ok {A} (K : Knows) (f : Db → State → list Db * State * Result A Failure) : Prop :=
  ∀ db st, know_db K db → Forall (db_guarantee K db) (f db st).1.1.

(** Knowledge after a database task that took the claims of [K' ∖ K]. *)
Record know_after (K K' : Knows) (st st' : State) (db' : Db) : Prop := {
  ka_kept : ∀ h k, K !! h = Some k → ∃ k', K' !! h = Some k' ∧
    (k' = k ∨ k = Know_Upload ∧ k' = Know_Fresh ∨ k = Know_Delete ∧ k' = Know_Gone ∨
     k' = know_forget k);
  ka_new : ∀ h k', K' !! h = Some k' → K !! h = None →
    claims st !! h = None ∧ claims st' !! h = Some (know_kind k') ∧ know_kind k' = Kind_Delete;
  ka_claims : ∀ h, K' !! h = None ∨ is_Some (K !! h) → claims st' !! h = claims st !! h;
  ka_db : know_db K' db';
}.

Definition wp (K : Knows) {B} (op : Op B) : (Knows → B → Prop) → Prop :=
  match op in Op B return (Knows → B → Prop) → Prop with
  | Op_Claim h => λ post,
      (∀ e, post K (Err e)) ∧ (K !! h = None → post (<[h := Know_Upload]> K) (Ok tt))
  | Op_ClaimDelete h => λ post,
      (∀ e, post K (Err e)) ∧ (K !! h = None → post (<[h := Know_Delete]> K) (Ok tt))
  | Op_Release hs => λ post,
      (∀ h, h ∈ hs → is_Some (K !! h)) ∧ post (filter (λ e, e.1 ∉ hs) K) tt
  | Op_InFlight => λ post, ∀ st, post K st
  | Op_Quiesce => λ post, post K tt
  | Op_Drain => λ post, ∀ b, post K b
  | Op_DropGuard => λ post, post K tt
  | Op_TryAcquire => λ post, ∀ b, post K b
  | Op_Now => λ post, ∀ t, post K t
  | Op_Db moved f => λ post,
      (∀ now, closure_ok (moved_only moved K) (f now)) ∧
      (∀ msg, post (know_forget <$> K) (Err (Fail_Other msg))) ∧
      ∀ now db st, know_db K db → know_claims K st →
        ∃ K', know_after K K' st (f now db st).1.2 (last_commit db (f now db st).1.1) ∧
          post K' (f now db st).2
  | Op_PutStream sha256 key body limits hint => λ post,
      (0 < part_size limits)%Z ∧
      ∃ h, key = key_for h ∧ (K !! h = Some Know_Fresh ∨ ∃ b, K !! h = Some (Know_Stored b)) ∧
        (∀ e s', post (<[h := Know_Fresh]> K) (Err e, s')) ∧
        ∀ chunks s', reads body chunks true s' →
          post (<[h := Know_Stored (concat chunks)]> K)
            (Ok (sha256 (concat chunks), len_Z (concat chunks)), s')
  | Op_DeleteBlobs keys => λ post,
      (∀ key, key ∈ keys → ∃ h, key = key_for h ∧ K !! h = Some Know_Gone) ∧ ∀ r, post K r
  | Op_ListBlobs => λ post, ∀ r, post K r
  | Op_AbortStale _ => λ post, ∀ r, post K r
  | Op_Backup _ => λ post, ∀ r, post K r
  end.

Fixpoint ok {A} (K : Knows) (p : Handler A) (post : Knows → A → Prop) : Prop :=
  match p with
  | Ret a => post K a
  | Step op k => wp K op (λ K' b, ok K' (k b) post)
  end.

Lemma wp_mono {B} K (op : Op B) (post post' : Knows → B → Prop) :
  (∀ K' b, post K' b → post' K' b) → wp K op post → wp K op post'.
Proof.
  intros Hm. destruct op; simpl; try naive_solver.
Qed.

Lemma ok_mono {A} K (p : Handler A) post post' :
  (∀ K' a, post K' a → post' K' a) → ok K p post → ok K p post'.
Proof.
  intros Hm. revert K. induction p as [a|B op k IH]; intros K; simpl; [apply Hm|].
  apply wp_mono. intros K' b. apply IH.
Qed.

Lemma ok_bind {A B} K (p : Handler A) (f : A → Handler B) post :
  ok K p (λ K' a, ok K' (f a) post) → ok K (prog_bind p f) post.
Proof.
  revert K. induction p as [a|C op k IH]; intros K; simpl; [done|].
  apply wp_mono. intros K' b. apply IH.
Qed.

Lemma ok_request {B} K (op : Op B) post : wp K op post → ok K (request op) post.
Proof. done. Qed.

(** *** One request keeps every row covered and every other holder's knowledge *)

(** Every row has the blob it describes. *)
Definition covered (w : World) : Prop :=
  map_Forall (λ h row, ∃ body, w_blobs w !! key_for h = Some body ∧
    describes (row_facts row) body) (objects (w_db w)).

Lemma know_forget_kind k : know_kind (know_forget k) = know_kind k.
Proof. by destruct k. Qed.
Lemma know_forget_rowless k : know_rowless (know_forget k) = false.
Proof. by destruct k. Qed.

Lemma db_guarantee_refl K db : db_guarantee K db db.
Proof. intros h row Hrow. left. by exists row. Qed.

Lemma moved_only_lookup moved K h k :
  moved_only moved K !! h = Some k → K !! h = Some k.
Proof. by intros [? _]%map_lookup_filter_Some. Qed.

Lemma know_db_moved moved K db : know_db K db → know_db (moved_only moved K) db.
Proof. intros Hk h k Hh%moved_only_lookup. by apply Hk. Qed.

(** A guaranteed commit covers its rows and spares others' knowledge. *)
Lemma guarantee_covered K w db' :
  covered w → knows K w → db_guarantee K (w_db w) db' → covered (with_db db' w).
Proof.
  intros Hcov HK Hg h row' Hrow'. destruct (Hg h row' Hrow') as [(row & Hrow & ->)|(body & Hh & Hd)].
  - by apply Hcov.
  - exists body. split; [|done]. by eapply (kn_blobs _ _ HK).
Qed.

Lemma guarantee_know K Kj w db' :
  Kj ##ₘ K → knows Kj w → db_guarantee K (w_db w) db' → know_db Kj db'.
Proof.
  intros Hdisj HKj Hg h k Hh Hrl. destruct (objects db' !! h) as [row'|] eqn:Hrow'; [|done].
  exfalso. destruct (Hg h row' Hrow') as [(row & Hrow & _)|(body & HKh & _)].
  - by rewrite (kn_db _ _ HKj h k Hh Hrl) in Hrow.
  - by eapply map_disjoint_spec.
Qed.

(** The frame of a step: others' knowledge stays true and stays apart. *)
Definition frames (K K' : Knows) (w w' : World) : Prop :=
  ∀ Kj, knows Kj w → Kj ##ₘ K → knows Kj w' ∧ Kj ##ₘ K'.

Lemma frames_same_claims K K' w w' :
  dom K' = dom K → (∀ Kj, knows Kj w → Kj ##ₘ K → knows Kj w') → frames K K' w w'.
Proof.
  intros Hd Hk Kj HKj Hdisj. split; [by apply Hk|].
  apply map_disjoint_dom. rewrite Hd. by apply map_disjoint_dom.
Qed.

Lemma take_claim_frames K w h k st know :
  take_claim (w_inflight w) h k = Ok st → know_kind know = k → know_rowless know = false →
  knows K w →
  K !! h = None ∧ knows (<[h := know]> K) (with_inflight st w) ∧
  frames K (<[h := know]> K) w (with_inflight st w).
Proof.
  intros (Hn & Hc & _ & _)%take_claim_Ok Hkind Hrl HK.
  assert (Hnone : ∀ Kj, knows Kj w → Kj !! h = None).
  { intros Kj HKj. destruct (Kj !! h) as [kj|] eqn:E; [|done].
    by rewrite (kn_claims _ _ HKj h kj E) in Hn. }
  assert (Hother : ∀ Kj, knows Kj w → knows Kj (with_inflight st w)).
  { intros Kj HKj. split; simpl; [apply HKj| |apply HKj]. intros h' k' Hh'.
    rewrite Hc, lookup_insert_ne; [by apply (kn_claims _ _ HKj)|]. intros ->. by rewrite Hnone in Hh'. }
  split_and!; [by apply Hnone| |].
  - destruct (Hother K HK) as [H1 H2 H3]. split; apply map_Forall_insert_2; simpl in *; try done.
    + by rewrite Hrl.
    + by rewrite Hc, lookup_insert_eq, Hkind.
    + by intros body ->.
  - intros Kj HKj Hdisj. split; [by apply Hother|].
    apply map_disjoint_insert_r. split; [by apply Hnone|done].
Qed.

Lemma knows_release Kj K w hs :
  (∀ h, h ∈ hs → is_Some (K !! h)) → knows Kj w → Kj ##ₘ K →
  knows Kj (with_inflight (drop_claims (w_inflight w) hs) w).
Proof.
  intros Hhs HKj Hdisj. split; [apply HKj| |apply HKj]. simpl. intros h k Hh.
  rewrite drop_claims_lookup, bool_decide_eq_false_2; [by apply (kn_claims _ _ HKj)|].
  intros [k' Hk']%Hhs. by eapply map_disjoint_spec.
Qed.

Lemma knows_kept K w hs :
  knows K w →
  knows (filter (λ e, e.1 ∉ hs) K) (with_inflight (drop_claims (w_inflight w) hs) w).
Proof.
  intros HK. split; simpl.
  - intros h k [Hh _]%map_lookup_filter_Some. by apply (kn_db _ _ HK).
  - intros h k [Hh Hn]%map_lookup_filter_Some. simpl in Hn.
    rewrite drop_claims_lookup, bool_decide_eq_false_2 by done. by apply (kn_claims _ _ HK).
  - intros h k [Hh _]%map_lookup_filter_Some. by apply (kn_blobs _ _ HK).
Qed.

(** What a step by the holder of [K] establishes. *)
Definition stepped {B} (K : Knows) (w : World) (post : Knows → B → Prop) (r : B) (w' : World)
    (held' : gset string) : Prop :=
  ∃ K', post K' r ∧ knows K' w' ∧ dom K' = held' ∧ covered w' ∧ frames K K' w w'.

Lemma stepped_same {B} K w (post : Knows → B → Prop) r :
  post K r → knows K w → covered w → stepped K w post r w (dom K).
Proof. intros Hp HK Hc. exists K. split_and!; [done..|]. by apply frames_same_claims. Qed.

(** Changing only the quiesce gate. *)
Lemma stepped_gate {B} K w (post : Knows → B → Prop) r st :
  claims st = claims (w_inflight w) →
  post K r → knows K w → covered w → stepped K w post r (with_inflight st w) (dom K).
Proof.
  intros Hst Hp HK Hc.
  assert (Hk : ∀ Kj, knows Kj w → knows Kj (with_inflight st w)).
  { intros Kj [H1 H2 H3]. split; simpl; try done. unfold know_claims. by rewrite Hst. }
  exists K. split_and!; [done|by apply Hk|done|done|]. apply frames_same_claims; auto.
Qed.

Lemma stepped_take {B} K w (post : Knows → Result unit B → Prop) h k st know :
  take_claim (w_inflight w) h k = Ok st → know_kind know = k → know_rowless know = false →
  (K !! h = None → post (<[h := know]> K) (Ok tt)) → knows K w → covered w →
  stepped K w post (Ok tt) (with_inflight st w) ({[h]} ∪ dom K).
Proof.
  intros Htake Hkind Hrl Hp HK Hc.
  destruct (take_claim_frames K w h k st know Htake Hkind Hrl HK) as (Hn & HK' & Hf).
  exists (<[h := know]> K). split_and!; [by apply Hp|done|by rewrite dom_insert_L|done|done].
Qed.

(** Putting a blob under a rowless upload claim, whether or not it lands. *)
Lemma put_knows K w h body know :
  K !! h = Some Know_Fresh ∨ (∃ b, K !! h = Some (Know_Stored b)) →
  know = Know_Fresh ∨ know = Know_Stored body → knows K w →
  knows (<[h := know]> K) (with_blobs (<[key_for h := body]> (w_blobs w)) w).
Proof.
  intros Hh Hknow HK.
  assert (objects (w_db w) !! h = None) as Hrow.
  { by destruct Hh as [Hh|[b Hh]]; apply (kn_db _ _ HK h _ Hh). }
  assert (claims (w_inflight w) !! h = Some Kind_Upload) as Hcl.
  { by destruct Hh as [Hh|[b Hh]]; apply (kn_claims _ _ HK h _ Hh). }
  split; simpl.
  - apply map_Forall_insert_2; [done|apply HK].
  - apply map_Forall_insert_2; [by destruct Hknow as [-> | ->]|apply HK].
  - intros h' k' [[<- <-]|[Hne Hh']]%lookup_insert_Some b ->.
    + destruct Hknow as [|[= ->]]; [done|]. apply lookup_insert_eq.
    + rewrite lookup_insert_ne; [by apply (kn_blobs _ _ HK h' _ Hh')|]. by intros ?%key_for_inj.
Qed.

Lemma fresh_knows K w h :
  K !! h = Some Know_Fresh ∨ (∃ b, K !! h = Some (Know_Stored b)) → knows K w →
  knows (<[h := Know_Fresh]> K) w.
Proof.
  intros Hh HK.
  assert (objects (w_db w) !! h = None) as Hrow.
  { by destruct Hh as [Hh|[b Hh]]; apply (kn_db _ _ HK h _ Hh). }
  assert (claims (w_inflight w) !! h = Some Kind_Upload) as Hcl.
  { by destruct Hh as [Hh|[b Hh]]; apply (kn_claims _ _ HK h _ Hh). }
  split; apply map_Forall_insert_2; try done; apply HK.
Qed.

Lemma put_others K Kj w h body :
  is_Some (K !! h) → knows Kj w → Kj ##ₘ K →
  knows Kj (with_blobs (<[key_for h := body]> (w_blobs w)) w).
Proof.
  intros [k Hk] HKj Hdisj. split; [apply HKj|apply HKj|]. simpl. intros h' k' Hh' b ->.
  rewrite lookup_insert_ne; [by apply (kn_blobs _ _ HKj h' _ Hh')|].
  intros <-%key_for_inj. by eapply map_disjoint_spec.
Qed.

Lemma put_covered w h body :
  objects (w_db w) !! h = None → covered w →
  covered (with_blobs (<[key_for h := body]> (w_blobs w)) w).
Proof.
  intros Hn Hc h' row Hrow. simpl in *. rewrite lookup_insert_ne; [by apply Hc|].
  intros <-%key_for_inj. by rewrite Hn in Hrow.
Qed.

Lemma stepped_put {B} K w (post : Knows → B → Prop) h know blobs r :
  K !! h = Some Know_Fresh ∨ (∃ b, K !! h = Some (Know_Stored b)) →
  (blobs = w_blobs w ∧ know = Know_Fresh ∨
   ∃ body, blobs = <[key_for h := body]> (w_blobs w) ∧ (know = Know_Fresh ∨ know = Know_Stored body)) →
  post (<[h := know]> K) r → knows K w → covered w →
  stepped K w post r (with_blobs blobs w) (dom K).
Proof.
  intros Hh Hw Hp HK Hc.
  assert (is_Some (K !! h)) as Hs by (destruct Hh as [Hh|[b Hh]]; by rewrite Hh).
  assert (objects (w_db w) !! h = None) as Hrow.
  { by destruct Hh as [Hh|[b Hh]]; apply (kn_db _ _ HK h _ Hh). }
  assert (Hdom : dom (<[h := know]> K) = dom K).
  { rewrite dom_insert_L. apply elem_of_dom in Hs. set_solver. }
  exists (<[h := know]> K). destruct Hw as [[-> ->]|(body & -> & Hknow)].
  - assert (with_blobs (w_blobs w) w = w) as -> by by destruct w.
    split_and!; [done|by apply fresh_knows|done|done|]. by apply frames_same_claims.
  - split_and!; [done|by apply put_knows|done|by apply put_covered|].
    apply frames_same_claims; [done|]. intros Kj. by apply put_others.
Qed.

Lemma foldr_delete_lookup {A} (keys : list string) (m : gmap string A) key :
  key ∉ keys → foldr delete m keys !! key = m !! key.
Proof.
  induction keys as [|k keys IH]; [done|]. intros [? ?]%not_elem_of_cons. simpl.
  by rewrite lookup_delete_ne, IH.
Qed.

Lemma stepped_delete {B} K w (post : Knows → B → Prop) r keys gone :
  (∀ key, key ∈ keys → ∃ h, key = key_for h ∧ K !! h = Some Know_Gone) → gone ⊆ keys →
  post K r → knows K w → covered w →
  stepped K w post r (with_blobs (foldr delete (w_blobs w) gone) w) (dom K).
Proof.
  intros Hkeys Hgone Hp HK Hc.
  assert (Hsafe : ∀ h, K !! h ≠ Some Know_Gone → key_for h ∉ gone).
  { intros h Hh Hin. destruct (Hkeys _ (Hgone _ Hin)) as (h' & <-%key_for_inj & Hg). done. }
  assert (Hothers : ∀ Kj, knows Kj w → (∀ h b, Kj !! h = Some (Know_Stored b) → K !! h ≠ Some Know_Gone) →
    knows Kj (with_blobs (foldr delete (w_blobs w) gone) w)).
  { intros Kj HKj Hne. split; [apply HKj|apply HKj|]. simpl. intros h k Hh b ->.
    rewrite foldr_delete_lookup by (by eapply Hsafe, Hne). by apply (kn_blobs _ _ HKj h _ Hh). }
  exists K. split_and!; [done| |done| |].
  - apply Hothers; [done|]. by intros h b ->.
  - intros h row Hrow. simpl in *. rewrite foldr_delete_lookup; [by apply Hc|].
    apply Hsafe. intros Hg. by rewrite (kn_db _ _ HK h _ Hg) in Hrow.
  - apply frames_same_claims; [done|]. intros Kj HKj Hdisj. apply Hothers; [done|].
    intros h b Hh Hg. by eapply map_disjoint_spec.
Qed.

Lemma know_forget_knows K w db' :
  knows K w → knows (know_forget <$> K) (with_db db' w).
Proof.
  intros HK. split; simpl; intros h k' (k & <- & Hh)%lookup_fmap_Some.
  - by rewrite know_forget_rowless.
  - rewrite know_forget_kind. by apply (kn_claims _ _ HK).
  - intros body. by destruct k.
Qed.

Lemma stepped_db_failed {A} K w (post : Knows → Result A Failure → Prop) msg moved db' :
  post (know_forget <$> K) (Err (Fail_Other msg)) →
  db_guarantee (moved_only moved K) (w_db w) db' → knows K w → covered w →
  stepped K w post (Err (Fail_Other msg)) (with_db db' w) (dom K).
Proof.
  intros Hp Hg HK Hc.
  assert (Hg' : db_guarantee K (w_db w) db').
  { intros h row' Hrow'. destruct (Hg h row' Hrow') as [?|(b & Hb%moved_only_lookup & ?)]; eauto. }
  exists (know_forget <$> K). split_and!; [done|by apply know_forget_knows|by rewrite dom_fmap_L| |].
  - by eapply guarantee_covered.
  - apply frames_same_claims; [by rewrite dom_fmap_L|]. intros Kj HKj Hdisj.
    split; simpl; [|apply HKj|apply HKj]. by eapply guarantee_know.
Qed.

Lemma last_commit_guarantee K db commits :
  Forall (db_guarantee K db) commits → db_guarantee K db (last_commit db commits).
Proof.
  unfold last_commit. destruct commits as [|d ds _] using rev_ind;
    [intros _; apply db_guarantee_refl|].
  rewrite List.last_last. by intros [_ [? _]%Forall_cons]%Forall_app.
Qed.

Lemma stepped_db {A} K w (post : Knows → Result A Failure → Prop) moved f :
  closure_ok (moved_only moved K) f →
  (∃ K', know_after K K' (w_inflight w) (f (w_db w) (w_inflight w)).1.2
           (last_commit (w_db w) (f (w_db w) (w_inflight w)).1.1) ∧
         post K' (f (w_db w) (w_inflight w)).2) →
  knows K w → covered w →
  let out := f (w_db w) (w_inflight w) in
  stepped K w post out.2 (with_db (last_commit (w_db w) out.1.1) (with_inflight out.1.2 w))
    (dom K ∪ (dom (claims out.1.2) ∖ dom (claims (w_inflight w)))).
Proof.
  intros Hf (K' & [Hkept Hnew Hcl Hdb] & Hp) HK Hc out. fold out in Hkept, Hnew, Hcl, Hdb, Hp.
  destruct out as [[commits st] res] eqn:Hout. cbn [fst snd] in *.
  assert (Hg : db_guarantee K (w_db w) (last_commit (w_db w) commits)).
  { assert (db_guarantee (moved_only moved K) (w_db w) (last_commit (w_db w) commits)) as Hg.
    { apply last_commit_guarantee. pose proof (Hf (w_db w) (w_inflight w)) as Hfc.
      unfold out in Hout. rewrite Hout in Hfc. apply Hfc. apply know_db_moved, HK. }
    intros h row' Hrow'. destruct (Hg h row' Hrow') as [?|(b & Hb%moved_only_lookup & ?)]; eauto. }
  assert (Hkind : ∀ h k', K' !! h = Some k' → claims st !! h = Some (know_kind k')).
  { intros h k' Hk'. destruct (K !! h) as [k|] eqn:Hk; [|by apply Hnew in Hk' as (_ & ? & _)].
    rewrite Hcl by (right; eauto). rewrite (kn_claims _ _ HK h k Hk).
    destruct (Hkept h k Hk) as (k2 & Hk2 & Hkk). simplify_eq.
    destruct Hkk as [->|[[-> ->]|[[-> ->]| ->]]]; by rewrite ?know_forget_kind. }
  exists K'. split_and!; [done| | | |].
  - split; simpl; [done|by intros h k'; apply Hkind|]. intros h k' Hk' body ->.
    destruct (K !! h) as [k|] eqn:Hk.
    + destruct (Hkept h k Hk) as (k2 & Hk2 & Hkk). simplify_eq.
      destruct Hkk as [<-|[[_ ?]|[[_ ?]|Hfg]]]; [by eapply (kn_blobs _ _ HK)|done|done|].
      by destruct k.
    + by apply Hnew in Hk' as (_ & _ & ?); [|done].
  - apply set_eq. intros h. rewrite elem_of_union, elem_of_difference, !elem_of_dom. split.
    + intros [k' Hk']. destruct (K !! h) as [k|] eqn:Hk; [left; by eexists|right].
      rewrite (Hkind h k' Hk'). apply Hnew in Hk' as (-> & _ & _); [|done].
      split; [by eexists|by intros [? ?]].
    + intros [[k Hk]|[Hst Hn]]; [destruct (Hkept h k Hk) as (? & ? & _); by eexists|].
      destruct (K' !! h) as [k'|] eqn:Hk'; [by eexists|].
      exfalso. apply Hn. rewrite <-Hcl; [done|by left].
  - pose proof (guarantee_covered K w _ Hc HK Hg) as Hcov. exact Hcov.
  - intros Kj HKj Hdisj. split.
    + split; simpl; [by eapply guarantee_know| |apply HKj]. intros h k Hh.
      rewrite <-(kn_claims _ _ HKj h k Hh). apply Hcl. left.
      destruct (K' !! h) as [k'|] eqn:Hk'; [|done]. exfalso.
      destruct (K !! h) as [kk|] eqn:Hk; [by eapply map_disjoint_spec|].
      apply Hnew in Hk' as (Hn & _ & _); [|done]. by rewrite (kn_claims _ _ HKj h k Hh) in Hn.
    + apply map_disjoint_spec. intros h kj k' Hh Hk'.
      destruct (K !! h) as [kk|] eqn:Hk; [by eapply map_disjoint_spec|].
      apply Hnew in Hk' as (Hn & _ & _); [|done]. by rewrite (kn_claims _ _ HKj h kj Hh) in Hn.
Qed.

Lemma wp_step {B} K w (op : Op B) post r w' held' :
  wp K op post → knows K w → covered w → op_step w (dom K) op r w' held' →
  stepped K w post r w' held'.
Proof.
  intros Hwp HK Hc Hstep. destruct op; cbn [op_step wp] in *.
  - destruct (claim _ _) as [st|e] eqn:E.
    + destruct Hstep as (-> & -> & ->). apply claim_inv in E as [_ E].
      by eapply (stepped_take _ _ _ _ _ _ Know_Upload); [done|done|done|apply Hwp|..].
    + destruct Hstep as (-> & -> & ->). by apply stepped_same; [apply Hwp|..].
  - destruct (claim_delete _ _) as [st|e] eqn:E.
    + destruct Hstep as (-> & -> & ->).
      by eapply (stepped_take _ _ _ _ _ _ Know_Delete); [done|done|done|apply Hwp|..].
    + destruct Hstep as (-> & -> & ->). by apply stepped_same; [apply Hwp|..].
  - destruct Hstep as (-> & ->), Hwp as [Hhs Hp]. destruct r.
    exists (filter (λ e, e.1 ∉ hashes) K). split_and!; [done|by apply knows_kept| |done|].
    + apply set_eq. intros h. rewrite elem_of_difference, elem_of_list_to_set, !elem_of_dom.
      unfold is_Some. setoid_rewrite map_lookup_filter_Some. simpl. naive_solver.
    + intros Kj HKj Hdisj. split; [by eapply knows_release|].
      eapply map_disjoint_weaken_r; [done|apply map_filter_subseteq].
  - destruct Hstep as (-> & -> & ->). by apply stepped_same.
  - destruct Hstep as (-> & ->). destruct r. by apply stepped_gate.
  - destruct Hstep as (_ & -> & ->). by apply stepped_same.
  - destruct Hstep as (-> & ->). destruct r. by apply stepped_gate.
  - destruct Hstep as (-> & ->). by apply stepped_same.
  - destruct Hstep as (-> & -> & ->). by apply stepped_same.
  - destruct Hwp as (Hf & Herr & Hsucc).
    pose proof (stepped_db K w post moved (f (w_now w)) (Hf _)
      (Hsucc (w_now w) _ _ (kn_db _ _ HK) (kn_claims _ _ HK)) HK Hc) as Hok.
    pose proof (Hf (w_now w) (w_db w) (w_inflight w) (know_db_moved _ _ _ (kn_db _ _ HK))) as Hg.
    destruct (f (w_now w) (w_db w) (w_inflight w)) as [[commits st] res]. cbn [fst snd] in *.
    destruct Hstep as [(-> & -> & ->)|(msg & db' & -> & Hdb' & -> & ->)]; [done|].
    eapply stepped_db_failed; [done| |done|done].
    apply elem_of_cons in Hdb' as [->|Hdb']; [apply db_guarantee_refl|].
    by eapply Forall_forall in Hg.
  - destruct Hwp as (Hps & h & -> & Hh & He & Hp), Hstep as (-> & tr & Hrun & Hw), r as [[[digest size]|e] s'].
    + apply put_streaming_Ok in Hrun as (chunks & Hrd & -> & -> & Hst); [|done].
      destruct Hw as [-> | [[=] _]]. rewrite (stored_object _ _ _ _ Hst). eapply stepped_put; eauto.
    + destruct Hw as [-> | (_ & bytes & ->)]; (eapply stepped_put; [done| |apply He|done|done]); [|by eauto].
      unfold put_object. destruct (object_after _ tr); eauto.
  - destruct Hwp as [Hkeys Hp], Hstep as (-> & gone & Hgone & _ & ->). by eapply stepped_delete.
  - destruct Hstep as (-> & ->). by apply stepped_same.
  - destruct Hstep as (-> & ->). by apply stepped_same.
  - destruct Hstep as (-> & ->). by apply stepped_same.
Qed.
End discipline.

(** *** Rules for the requests handlers make *)

Section rules.
Context (describes : string * Z * string * Z → list Z → Prop).

Lemma ok_try {A B} K (p : Handler (Result A Failure)) (k : A → Handler (Result B Failure)) post :
  (∀ K' e, post K' (Err e)) →
  ok describes K p (λ K' r, match r with Ok a => ok describes K' (k a) post | Err _ => True end) →
  ok describes K (do? x <- p; k x) post.
Proof.
  intros He Hp. apply ok_bind. eapply ok_mono; [|exact Hp].
  intros K' [a|e] Hr; [done|]. apply He.
Qed.

(** The rows of [db'] are rows of [db], their facts unchanged. *)
Definition rows_kept (db db' : Db) : Prop :=
  map_Forall (λ h row', ∃ row, objects db !! h = Some row ∧ row_facts row' = row_facts row) (objects db').

Lemma rows_kept_refl db : rows_kept db db.
Proof. intros h row Hrow. eauto. Qed.

Lemma rows_kept_sub db db' : objects db' ⊆ objects db → rows_kept db db'.
Proof. intros Hs h row Hrow. exists row. split; [|done]. by eapply lookup_weaken. Qed.

Lemma rows_kept_trans db1 db2 db3 : rows_kept db1 db2 → rows_kept db2 db3 → rows_kept db1 db3.
Proof.
  intros H1 H2 h row3 (row2 & (row1 & ? & ?)%H1 & ?)%H2. exists row1. split; [done|congruence].
Qed.

Lemma rows_kept_update f h db : (∀ r, row_facts (f r) = row_facts r) → rows_kept db (update_row f h db).
Proof.
  intros Hf i row'. rewrite update_row_lookup. case_decide; [|by eauto].
  intros (row & Hrow & ->)%fmap_Some. by exists row.
Qed.

Lemma rows_kept_updates f hs db :
  (∀ r, row_facts (f r) = row_facts r) → rows_kept db (foldl (λ db h, update_row f h db) db hs).
Proof.
  intros Hf. revert db. induction hs as [|h hs IH]; intros db; [apply rows_kept_refl|].
  eapply rows_kept_trans; [by apply rows_kept_update|apply IH].
Qed.

Lemma rows_kept_guarantee K db db' : rows_kept db db' → db_guarantee describes K db db'.
Proof. intros Hk h row' Hrow'. left. by apply Hk. Qed.

Lemma rows_kept_know K db db' : rows_kept db db' → know_db K db → know_db K db'.
Proof.
  intros Hk HK h k Hh Hrl. destruct (objects db' !! h) as [row'|] eqn:E; [|done].
  apply Hk in E as (row & Hrow & _). by rewrite (HK h k Hh Hrl) in Hrow.
Qed.

Lemma know_after_same K st db : know_db K db → know_after K K st st db.
Proof. intros HK. split; try done; [intros h k Hh; exists k; tauto|by intros h k' ->]. Qed.

Lemma know_after_gone K st db h :
  K !! h = Some Know_Delete → objects db !! h = None → know_db K db →
  know_after K (<[h := Know_Gone]> K) st st db.
Proof.
  intros Hh Hn HK. split; [| |done|by apply map_Forall_insert_2].
  - intros i k Hi. destruct (decide (i = h)) as [->|Hne].
    + exists Know_Gone. rewrite lookup_insert_eq. simplify_eq. tauto.
    + exists k. rewrite lookup_insert_ne by done. tauto.
  - intros i k'. rewrite lookup_insert_Some. intros [[<- _]|[_ ->]]; congruence.
Qed.

Lemma ok_read {A} K (g : Db → A) (post : Knows → Result A Failure → Prop) :
  (∀ K' e, post K' (Err e)) → (∀ db, know_db K db → post K (Ok (g db))) →
  ok describes K (db_read g) post.
Proof.
  intros He Hp. split_and!; [intros now db st _; apply Forall_nil_2|intros; apply He|].
  intros now db st Hdb _. exists K. split; [by apply know_after_same|by apply Hp].
Qed.

Lemma ok_write {A} K (g : Db → Db * A) (post : Knows → Result A Failure → Prop) :
  (∀ db, rows_kept db (g db).1) →
  (∀ K' e, post K' (Err e)) → (∀ db, know_db K db → post K (Ok (g db).2)) →
  ok describes K (db_write g) post.
Proof.
  intros Hk He Hp. split_and!; [|intros; apply He|].
  - intros now db st _. apply Forall_singleton. by apply rows_kept_guarantee.
  - intros now db st Hdb _. exists K. split; [|by apply Hp].
    apply know_after_same, (rows_kept_know _ db); [apply Hk|done].
Qed.

(** A write that may take the row of a path claimed for deletion. *)
Lemma ok_write_gone {A} K h (g : Db → Db * A) (post : Knows → Result A Failure → Prop) :
  K !! h = Some Know_Delete → (∀ db, rows_kept db (g db).1) →
  (∀ K' e, post K' (Err e)) →
  (∀ db, objects (g db).1 !! h = None ∧ post (<[h := Know_Gone]> K) (Ok (g db).2) ∨ post K (Ok (g db).2)) →
  ok describes K (db_write g) post.
Proof.
  intros Hh Hk He Hp. split_and!; [|intros; apply He|].
  - intros now db st _. apply Forall_singleton. by apply rows_kept_guarantee.
  - intros now db st Hdb _.
    assert (know_db K (g db).1) as Hdb' by (apply (rows_kept_know _ db); [apply Hk|done]).
    destruct (Hp db) as [[Hn Hgone]|Hsame]; [exists (<[h := Know_Gone]> K)|exists K]; (split; [|done]).
    + by apply know_after_gone.
    + by apply know_after_same.
Qed.

Lemma delete_object_kept db h : rows_kept db (delete_object db h).1.
Proof.
  unfold delete_object. destruct (file_size db h); [|apply rows_kept_refl].
  apply rows_kept_sub. simpl. apply delete_subseteq.
Qed.

Lemma delete_object_gone db h : objects (delete_object db h).1 !! h = None.
Proof.
  unfold delete_object, file_size. destruct (objects db !! h) as [row|] eqn:E; simpl; [|done].
  apply lookup_delete_eq.
Qed.

Lemma evict_object_kept db h now : rows_kept db (evict_object db h now).1.
Proof.
  destruct (evict_object_cases db h now) as [(row & _ & _ & ->)| ->]; [|apply rows_kept_refl].
  apply rows_kept_sub. simpl. apply delete_subseteq.
Qed.

Lemma evict_object_gone db h now size :
  (evict_object db h now).2 = Some size → objects (evict_object db h now).1 !! h = None.
Proof.
  destruct (evict_object_cases db h now) as [(row & _ & _ & ->)| ->]; [|done].
  intros _. simpl. apply lookup_delete_eq.
Qed.
End rules.

(** ** The pool: handlers side by side *)

(** A handler and the claims it holds, which are released when it ends. A
    cancellable handler may be dropped at any request; a database closure it
    was waiting for still runs, holding the claims moved into it. *)
Inductive Thread :=
  | Running (cancellable : bool) (p : Handler unit)
  | Detached (f : Z → Db → State → list Db).

Record Pool := mkPool {
  p_world : World;
  p_threads : gmap nat (gset string * Thread);
}.

Definition release (held : gset string) (w : World) : World :=
  with_inflight (drop_claims (w_inflight w) (elements held)) w.

Definition thread_step (w : World) (held : gset string) (p : Handler unit)
    (w' : World) (held' : gset string) (p' : Handler unit) : Prop :=
  match p with
  | Ret _ => False
  | Step op k => ∃ r, op_step w held op r w' held' ∧ p' = k r
  end.

(** [p] waits for a database closure with these claims moved into it. *)
Definition awaits_db (p : Handler unit) (moved : list string) (f : Z → Db → State → list Db) : Prop :=
  match p with
  | Ret _ => False
  | Step op _ =>
      match op with Op_Db m g => moved = m ∧ f = (λ now db st, (g now db st).1.1) | _ => False end
  end.

Inductive pool_step (spawnable : bool → Handler unit → Prop) : Pool → Pool → Prop :=
  | ps_spawn w ts i c p :
      ts !! i = None → spawnable c p →
      pool_step spawnable (mkPool w ts) (mkPool w (<[i := (∅, Running c p)]> ts))
  | ps_op w ts i c held p w' held' p' :
      ts !! i = Some (held, Running c p) → thread_step w held p w' held' p' →
      pool_step spawnable (mkPool w ts) (mkPool w' (<[i := (held', Running c p')]> ts))
  | ps_end w ts i c held :
      ts !! i = Some (held, Running c (Ret tt)) →
      pool_step spawnable (mkPool w ts) (mkPool (release held w) (delete i ts))
  | ps_cancel w ts i held p :
      ts !! i = Some (held, Running true p) →
      pool_step spawnable (mkPool w ts) (mkPool (release held w) (delete i ts))
  | ps_detach w ts i held p moved f :
      ts !! i = Some (held, Running true p) → awaits_db p moved f →
      let kept := filter (.∈ moved) held in
      pool_step spawnable (mkPool w ts)
        (mkPool (release (held ∖ kept) w) (<[i := (kept, Detached f)]> ts))
  | ps_detached w ts i held f db' :
      ts !! i = Some (held, Detached f) → db' ∈ w_db w :: f (w_now w) (w_db w) (w_inflight w) →
      pool_step spawnable (mkPool w ts)
        (mkPool (with_db db' w) (<[i := (held, Running false (Ret tt))]> ts))
  | ps_clock w ts t :
      pool_step spawnable (mkPool w ts) (mkPool (with_now t w) ts)
  | ps_crash w ts :
      pool_step spawnable (mkPool w ts) (mkPool (with_inflight inflight_new w) ∅).

Section safety.
Context (describes : string * Z * string * Z → list Z → Prop).
Context (spawnable : bool → Handler unit → Prop).
Context (Hspawn : ∀ c p, spawnable c p → ok describes ∅ p (λ _ _, True)).

Definition thread_ok (K : Knows) (t : Thread) : Prop :=
  match t with
  | Running _ p => ok describes K p (λ _ _, True)
  | Detached f => ∀ now db st, know_db K db → Forall (db_guarantee describes K db) (f now db st)
  end.

Record pool_inv (P : Pool) (Ks : nat → Knows) : Prop := {
  pi_knows : ∀ i, knows (Ks i) (p_world P);
  pi_apart : ∀ i j, i ≠ j → Ks i ##ₘ Ks j;
  pi_threads : ∀ i held t, p_threads P !! i = Some (held, t) →
    dom (Ks i) = held ∧ thread_ok (Ks i) t;
  pi_covered : covered describes (p_world P);
}.

(** One thread moves the world and its own knowledge. *)
Lemma pool_inv_update P Ks i K' w' ts' :
  pool_inv P Ks → knows K' w' → frames (Ks i) K' (p_world P) w' → covered describes w' →
  (∀ j, j ≠ i → ts' !! j = p_threads P !! j) →
  (∀ held t, ts' !! i = Some (held, t) → dom K' = held ∧ thread_ok K' t) →
  ∃ Ks', pool_inv (mkPool w' ts') Ks'.
Proof.
  intros [Hk Ha Ht Hc] HK' Hf Hc' Hsame Hi.
  exists (λ j, if decide (j = i) then K' else Ks j). split; simpl; [| | |done].
  - intros j. case_decide; [done|]. by apply Hf; [apply Hk|apply Ha].
  - intros j j' Hne. repeat case_decide; subst; [done| | |by apply Ha].
    + symmetry. by apply Hf; [apply Hk|apply Ha].
    + by apply Hf; [apply Hk|apply Ha].
  - intros j held t. case_decide; [subst; apply Hi|]. rewrite Hsame by done. apply Ht.
Qed.

Lemma knows_empty w : knows ∅ w.
Proof. split; by intros ? ? ?. Qed.

Lemma release_frames K w held :
  held ⊆ dom K → frames K (filter (λ e, e.1 ∉ held) K) w (release held w).
Proof.
  intros Hd Kj HKj Hdisj. split.
  - eapply knows_release; [|done|done]. intros h Hh%elem_of_elements. by apply elem_of_dom, Hd.
  - eapply map_disjoint_weaken_r; [done|apply map_filter_subseteq].
Qed.

Lemma frames_shrink K K1 K2 w w' : frames K K1 w w' → K2 ⊆ K1 → frames K K2 w w'.
Proof.
  intros Hf Hs Kj HKj Hd. destruct (Hf Kj HKj Hd). split; [done|].
  by eapply map_disjoint_weaken_r.
Qed.

(** A handler that ends or is dropped releases what it holds. *)
Lemma pool_inv_end P Ks i held t :
  pool_inv P Ks → p_threads P !! i = Some (held, t) →
  ∃ Ks', pool_inv (mkPool (release held (p_world P)) (delete i (p_threads P))) Ks'.
Proof.
  intros HP Hi. destruct (pi_threads _ _ HP i held t Hi) as [Hd _].
  apply (pool_inv_update P Ks i ∅); [done|apply knows_empty| |apply HP| |].
  - eapply frames_shrink; [apply release_frames; by rewrite Hd|apply map_empty_subseteq].
  - intros j Hne. by apply lookup_delete_ne.
  - intros held' t'. by rewrite lookup_delete_eq.
Qed.

Lemma knows_filter_in K w (kept : list string) :
  knows K w → knows (moved_only kept K) (release (dom K ∖ filter (.∈ kept) (dom K)) w).
Proof.
  intros HK. split; simpl; intros h k Hh.
  - apply moved_only_lookup in Hh. by apply (kn_db _ _ HK).
  - rewrite drop_claims_lookup, bool_decide_eq_false_2;
      [by apply (kn_claims _ _ HK), moved_only_lookup in Hh || by apply moved_only_lookup in Hh; apply (kn_claims _ _ HK)|].
    apply map_lookup_filter_Some in Hh as [Hh Hin]. simpl in Hin.
    rewrite elem_of_elements, elem_of_difference, elem_of_filter. apply elem_of_dom_2 in Hh. tauto.
  - apply moved_only_lookup in Hh. by apply (kn_blobs _ _ HK).
Qed.

Lemma dom_moved_only moved K : dom (moved_only moved K) = filter (.∈ moved) (dom K).
Proof.
  apply set_eq. intros h. rewrite elem_of_filter, !elem_of_dom. unfold is_Some, moved_only.
  setoid_rewrite map_lookup_filter_Some. simpl. naive_solver.
Qed.

Lemma awaits_db_ok K p moved f :
  ok describes K p (λ _ _, True) → awaits_db p moved f → thread_ok (moved_only moved K) (Detached f).
Proof.
  destruct p as [a|B op k]; [done|]. destruct op; try done. cbn [ok wp awaits_db].
  intros (Hf & _) [-> ->]. intros now db st Hdb. by apply Hf.
Qed.

(** A cancelled handler leaves its database closure behind, with the claims moved into it. *)
Lemma pool_inv_detach w ts Ks i held c p moved f :
  pool_inv (mkPool w ts) Ks → ts !! i = Some (held, Running c p) → awaits_db p moved f →
  let kept := filter (.∈ moved) held in
  ∃ Ks', pool_inv (mkPool (release (held ∖ kept) w) (<[i := (kept, Detached f)]> ts)) Ks'.
Proof.
  intros HP Hi Haw kept. destruct (pi_threads _ _ HP i _ _ Hi) as [Hd Hok]. simpl in Hok.
  apply (pool_inv_update (mkPool w ts) Ks i (moved_only moved (Ks i))); [done| | |apply HP| |].
  - unfold kept. rewrite <-Hd. apply knows_filter_in, HP.
  - eapply frames_shrink; [apply release_frames; set_solver|].
    apply map_subseteq_spec. intros h k [Hh Hin]%map_lookup_filter_Some. simpl in Hin.
    apply map_lookup_filter_Some. split; [done|]. simpl. apply elem_of_dom_2 in Hh.
    rewrite Hd in Hh. unfold kept. set_solver.
  - intros j Hne. by apply lookup_insert_ne.
  - intros held' t. simpl. rewrite lookup_insert_eq. intros [= <- <-].
    rewrite dom_moved_only, Hd. split; [done|]. by eapply awaits_db_ok.
Qed.

(** Such a closure commits one of its states, or none. *)
Lemma pool_inv_detached w ts Ks i held f db' :
  pool_inv (mkPool w ts) Ks → ts !! i = Some (held, Detached f) → db' ∈ w_db w :: f (w_now w) (w_db w) (w_inflight w) →
  ∃ Ks', pool_inv (mkPool (with_db db' w) (<[i := (held, Running false (Ret tt))]> ts)) Ks'.
Proof.
  intros HP Hi Hdb'. destruct (pi_threads _ _ HP i _ _ Hi) as [Hd Hok]. simpl in Hok.
  assert (db_guarantee describes (Ks i) (w_db w) db') as Hg.
  { apply elem_of_cons in Hdb' as [->|Hdb']; [apply db_guarantee_refl|].
    pose proof (Hok (w_now w) (w_db w) (w_inflight w) (kn_db _ _ (pi_knows _ _ HP i))) as HF.
    by eapply Forall_forall in HF. }
  apply (pool_inv_update (mkPool w ts) Ks i (know_forget <$> Ks i)); [done| | | | |].
  - apply know_forget_knows, HP.
  - apply frames_same_claims; [by rewrite dom_fmap_L|]. intros Kj HKj Hdisj.
    split; simpl; [by eapply guarantee_know|apply HKj|apply HKj].
  - eapply guarantee_covered; [apply HP|apply HP|done].
  - intros j Hne. by apply lookup_insert_ne.
  - intros held' t. simpl. rewrite lookup_insert_eq. intros [= <- <-].
    by rewrite dom_fmap_L.
Qed.

Lemma pool_inv_step P P' Ks :
  pool_inv P Ks → pool_step spawnable P P' → ∃ Ks', pool_inv P' Ks'.
Proof.
  intros HP Hstep. destruct Hstep as [w ts i c p Hi Hsp|w ts i c held p w' held' p' Hi Hs
    |w ts i c held Hi|w ts i held p Hi|w ts i held p moved f Hi Haw kept
    |w ts i held f db' Hi Hdb'|w ts t|w ts].
  - apply (pool_inv_update (mkPool w ts) Ks i ∅); [done|apply knows_empty| |apply HP| |].
    + intros Kj HKj _. split; [done|apply map_disjoint_empty_r].
    + intros j Hne. by apply lookup_insert_ne.
    + intros held t. simpl. rewrite lookup_insert_eq. intros [= <- <-].
      split; [apply dom_empty_L|]. by eapply Hspawn.
  - destruct (pi_threads _ _ HP i _ _ Hi) as [<- Hok]. destruct p as [|B op k]; [done|].
    destruct Hs as (r & Hop & ->).
    destruct (wp_step describes (Ks i) w op _ r w' held' Hok (pi_knows _ _ HP i) (pi_covered _ _ HP) Hop)
      as (K' & Hp & HK' & <- & Hc & Hf).
    apply (pool_inv_update (mkPool w ts) Ks i K'); try done.
    + intros j Hne. by apply lookup_insert_ne.
    + intros held t. simpl. rewrite lookup_insert_eq. by intros [= <- <-].
  - by eapply (pool_inv_end (mkPool w ts)).
  - by eapply (pool_inv_end (mkPool w ts)).
  - by eapply pool_inv_detach.
  - by eapply pool_inv_detached.
  - exists Ks. destruct HP as [Hk Ha Ht Hc]. split; try done. intros i.
    destruct (Hk i) as [? ? ?]. by split.
  - exists (λ _, ∅). split; simpl; [intros; apply knows_empty| | |apply HP].
    + intros. apply map_disjoint_empty_l.
    + by intros i held t.
Qed.

Lemma pool_safe P :
  rtc (pool_step spawnable) (mkPool world_empty ∅) P → ∃ Ks, pool_inv P Ks.
Proof.
  assert (∃ Ks, pool_inv (mkPool world_empty ∅) Ks) as H0.
  { exists (λ _, ∅). split; simpl; [intros; apply knows_empty| | |by intros ? ? ?].
    - intros. apply map_disjoint_empty_l.
    - by intros i held t. }
  intros Hr. induction Hr as [|P P1 P2 Hs _ IH]; [done|].
  apply IH. destruct H0 as [Ks HP]. by eapply pool_inv_step.
Qed.
End safety.
