(* ===== verification/Narinfo.v ===== *)
(** * Narinfo: hash spelling, fingerprints, signatures and the narinfo text

    [crates/garret-server/src/narinfo.rs]. Base64 and ed25519 are parameters;
    what the properties assume of them is stated where it is used. *)

From S2P Require Import Prelude Text Common Db.

(** ** Hashes *)

Section base64.
Context (b64_decode : string → option (list Z)).

Definition SHA256_BYTES : nat := 32.

Definition normalize_hash (hash : string) : Result string string :=
  match
    match strip_prefix "sha256:" hash with Some d => Some d | None => strip_prefix "sha256-" hash end
  with
  | None => Err ("unsupported hash format: " +:+ hash)
  | Some digest =>
      if (str_len digest =? nix_base32_len SHA256_BYTES) && is_nix_base32 digest
      then Ok ("sha256:" +:+ digest)
      else match b64_decode digest with
           | None => Err ("hash is neither nix-base32 nor base64: " +:+ digest)
           | Some bytes =>
               if length bytes =? SHA256_BYTES then Ok (sha256_nix32 bytes)
               else Err ("expected a 32-byte sha256, got " +:+ pretty (length bytes) +:+ " bytes")
           end
  end.
End base64.

(** ** Signing *)

(** [SigningKeyFile]. *)
Record SigningKey := mkSigningKey {
  key_name : string;
  key_seed : list Z;
}.

(** What the code uses of base64 and ed25519. *)
Class Crypto := {
  b64_encode : list Z → string;
  b64_decode : string → option (list Z);
  ed_public : list Z → list Z;
  ed_sign : list Z → string → list Z;
  ed_signature_ok : list Z → bool;
  ed_verify : list Z → string → list Z → bool;
}.

(** Their documented behaviour. *)
Class CryptoLaws (C : Crypto) := {
  b64_roundtrip bytes : b64_decode (b64_encode bytes) = Some bytes;
  (* digits, then padding *)
  b64_shape bytes : ∃ data pad, b64_encode bytes = data +:+ pad ∧ str_all is_base64_digit data = true ∧
    str_all (Ascii.eqb "=") pad = true ∧ (bytes ≠ [] → data ≠ "");
  (* base64 of 32 bytes ends in [=] *)
  b64_padded bytes : length bytes = 32 → is_nix_base32 (b64_encode bytes) = false;
  ed_signature_length seed msg : ed_signature_ok (ed_sign seed msg) = true;
  ed_correct seed msg : ed_verify (ed_public seed) msg (ed_sign seed msg) = true;
}.

Section signing.
Context `{C : Crypto}.

(** [SigningKeyFile::parse]. *)
Definition key_parse (contents : string) : Result SigningKey string :=
  match split_once ":" (str_trim contents) with
  | None => Err "malformed signing key: expected `name:base64`"
  | Some (name, b64) =>
      match b64_decode b64 with
      | None => Err "signing key is not valid base64"
      | Some bytes =>
          if length bytes <? 32 then Err "signing key is too short"
          else Ok (mkSigningKey name (take 32 bytes))
      end
  end.

Definition public_key (k : SigningKey) : string :=
  key_name k +:+ ":" +:+ b64_encode (ed_public (key_seed k)).

Definition key_verifies (k : SigningKey) (sig fingerprint : string) : bool :=
  match split_once ":" sig with
  | None => false
  | Some (name, b64) =>
      if bool_decide (name ≠ key_name k) then false
      else match b64_decode b64 with
           | None => false
           | Some bytes =>
               ed_signature_ok bytes && ed_verify (ed_public (key_seed k)) fingerprint bytes
           end
  end.

Definition key_sign (k : SigningKey) (fingerprint : string) : string :=
  key_name k +:+ ":" +:+ b64_encode (ed_sign (key_seed k) fingerprint).

Definition fingerprint (obj : Object) (store_dir : string) : string :=
  let refs := order_by String.le (map (λ r, store_dir +:+ "/" +:+ r) (o_references obj)) in
  "1;" +:+ o_store_path obj +:+ ";" +:+ o_nar_hash obj +:+ ";" +:+ pretty (o_nar_size obj) +:+ ";"
    +:+ str_join "," refs.

Definition sign (obj : Object) (store_dir : string) (keys : list SigningKey) : Result (list string) string :=
  if bool_decide (keys = []) then Err "no signing keys configured"
  else
    let fp := fingerprint obj store_dir in
    Ok (map (λ k, key_sign k fp) keys).

Definition verify (obj : Object) (store_dir : string) (keys : list SigningKey) : bool :=
  let fp := fingerprint obj store_dir in
  existsb (λ sig, existsb (λ k, key_verifies k sig fp) keys) (o_sigs obj).
End signing.

Definition with_sigs (obj : Object) (sigs : list string) : Object :=
  mkObject (o_store_path_hash obj) (o_store_path obj) (o_name obj) (o_nar_hash obj)
    (o_nar_size obj) (o_file_hash obj) (o_file_size obj) (o_deriver obj) (o_ca obj)
    (o_references obj) sigs (o_pushed_by obj).

(** ** The narinfo text *)

(** The [References] line, its items separated by one space. *)
Definition references_line (references : list string) : string :=
  "References: " +:+ str_join " " references.

Definition render (obj : Object) : string :=
  writeln ("StorePath: " +:+ o_store_path obj) +:+
  writeln ("URL: " +:+ nar_url (o_store_path_hash obj)) +:+
  writeln "Compression: zstd" +:+
  writeln ("FileHash: " +:+ o_file_hash obj) +:+
  writeln ("FileSize: " +:+ pretty (o_file_size obj)) +:+
  writeln ("NarHash: " +:+ o_nar_hash obj) +:+
  writeln ("NarSize: " +:+ pretty (o_nar_size obj)) +:+
  writeln (references_line (o_references obj)) +:+
  match o_deriver obj with Some d => writeln ("Deriver: " +:+ d) | None => "" end +:+
  match o_ca obj with Some ca => writeln ("CA: " +:+ ca) | None => "" end +:+
  foldr (λ sig s, writeln ("Sig: " +:+ sig) +:+ s) "" (o_sigs obj).

(** ** Reading a narinfo back *)

(** [key: value] lines, as nix reads them. *)
Definition narinfo_field (line : string) : option (string * string) :=
  match split_once ":" line with
  | Some (key, rest) => pair key <$> strip_prefix " " rest
  | None => None
  end.
Definition narinfo_fields (text : string) : list (string * string) :=
  omap narinfo_field (str_lines text).

(** The fields of [obj], in the order they are printed. *)
Definition object_fields (obj : Object) : list (string * string) :=
  [("StorePath", o_store_path obj); ("URL", nar_url (o_store_path_hash obj)); ("Compression", "zstd");
   ("FileHash", o_file_hash obj); ("FileSize", pretty (o_file_size obj));
   ("NarHash", o_nar_hash obj); ("NarSize", pretty (o_nar_size obj));
   ("References", str_join " " (o_references obj))]
  ++ match o_deriver obj with Some d => [("Deriver", d)] | None => [] end
  ++ match o_ca obj with Some ca => [("CA", ca)] | None => [] end
  ++ map (pair "Sig") (o_sigs obj).

(** No text of [obj] spans two lines. *)
Record one_line (obj : Object) : Prop := {
  ol_store_path : no_newline (o_store_path obj);
  ol_hash : no_newline (o_store_path_hash obj);
  ol_file_hash : no_newline (o_file_hash obj);
  ol_nar_hash : no_newline (o_nar_hash obj);
  ol_references : Forall no_newline (o_references obj);
  ol_deriver : ∀ d, o_deriver obj = Some d → no_newline d;
  ol_ca : ∀ ca, o_ca obj = Some ca → no_newline ca;
  ol_sigs : Forall no_newline (o_sigs obj);
}.

Definition field_line (f : string * string) : string := f.1 +:+ ": " +:+ f.2.

Lemma render_lines obj : render obj = foldr (λ l s, writeln l +:+ s) "" (map field_line (object_fields obj)).
Proof.
  unfold render, object_fields.
  assert (Hsigs : ∀ sigs, foldr (λ sig s, writeln ("Sig: " +:+ sig) +:+ s) "" sigs =
    foldr (λ l s, writeln l +:+ s) "" (map field_line (map (pair "Sig") sigs))).
  { induction sigs as [|sig sigs IH]; [done|]. cbn [foldr map]. by rewrite IH. }
  rewrite Hsigs. by destruct (o_deriver obj), (o_ca obj).
Qed.

Lemma no_newline_app s t : no_newline s → no_newline t → no_newline (s +:+ t).
Proof. unfold no_newline. intros Hs Ht. by rewrite ascii_mem_app, Hs, Ht. Qed.

Lemma object_fields_one_line obj :
  one_line obj → Forall (λ f, ascii_mem ":" f.1 = false ∧ no_newline (field_line f)) (object_fields obj).
Proof.
  intros [H1 H2 H3 H4 H5 H6 H7 H8]. unfold object_fields.
  assert (Hk : ∀ k v, ascii_mem ":" k = false → no_newline k → no_newline v →
    ascii_mem ":" (k, v).1 = false ∧ no_newline (field_line (k, v))).
  { intros k v ? ? ?. split; [done|]. apply no_newline_app; [done|]. by apply no_newline_app. }
  assert (Hdec : ∀ z : Z, no_newline (pretty z)) by by intros; apply pretty_Z_mem.
  repeat (apply Forall_cons; split; [apply Hk; try done|]).
  - apply no_newline_app; [done|]. by apply no_newline_app.
  - by apply ascii_mem_join.
  - apply Forall_app; split; [destruct (o_deriver obj) as [d|]|apply Forall_app; split;
      [destruct (o_ca obj) as [ca|]|]].
    + apply Forall_singleton, Hk; [done..|by apply H6].
    + done.
    + apply Forall_singleton, Hk; [done..|by apply H7].
    + done.
    + apply Forall_fmap. eapply Forall_impl; [exact H8|]. intros sig Hs. by apply Hk.
Qed.

Lemma narinfo_field_line f : ascii_mem ":" f.1 = false → narinfo_field (field_line f) = Some f.
Proof.
  destruct f as [k v]. simpl. intros Hk. unfold narinfo_field, field_line. simpl.
  rewrite str_app_cons, (proj2 (split_once_Some ":" (k +:+ String ":" (" " +:+ v)) k (" " +:+ v))) by done.
  assert (strip_prefix " " (" " +:+ v) = Some v) as Hs by by apply strip_prefix_Some.
  change (pair k <$> strip_prefix " " (" " +:+ v) = Some (k, v)). by rewrite Hs.
Qed.

(** ** Properties *)

(** The narinfo text rendered for an object whose fields have no line break parses back, line by
    line, to the object's fields. *)
Theorem narinfo_roundtrip obj :
  one_line obj → narinfo_fields (render obj) = object_fields obj.
Proof.
  intros Hone. apply object_fields_one_line in Hone. rewrite render_lines. unfold narinfo_fields.
  rewrite str_lines_writelns.
  - induction Hone as [|f fs [Hf _] _ IH]; [done|]. cbn [map omap list_omap].
    rewrite narinfo_field_line by done. f_equal. exact IH.
  - apply Forall_fmap. eapply Forall_impl; [exact Hone|]. by intros f [_ ?].
Qed.

Definition example_object : Object :=
  mkObject "h" "/nix/store/h-hello" "hello" "sha256:n" 120 "sha256:f" 64 (Some "d-hello.drv")
    (Some "fixed:sha256:x") ["h-hello"; "g-glibc"] ["k-1:c2ln"] (Some "ci").

Lemma narinfo_roundtrip_witness :
  narinfo_fields (render example_object) = object_fields example_object.
Proof.
  apply narinfo_roundtrip. split; try done.
  - by repeat constructor.
  - by intros d [= <-].
  - by intros ca [= <-].
  - by repeat constructor.
Defined.

(** *** Hash spelling *)

(** The spelling nix signs over: [sha256:] and 52 nix-base32 characters. *)
Definition canonical_hash (s : string) : bool :=
  match strip_prefix "sha256:" s with
  | Some digest => (str_len digest =? nix_base32_len SHA256_BYTES) && is_nix_base32 digest
  | None => false
  end.

Lemma base32_group_range bytes n : (0 ≤ base32_group bytes n < 32)%Z.
Proof.
  unfold base32_group. change 31%Z with (Z.ones 5). rewrite Z.land_ones by lia.
  apply Z.mod_pos_bound. lia.
Qed.

Lemma nix_base32_encode_len bytes : str_len (nix_base32_encode bytes) = nix_base32_len (length bytes).
Proof.
  unfold nix_base32_encode. rewrite <-chars_length, String.list_ascii_of_string_of_list_ascii.
  by rewrite length_map, length_rev, length_seq.
Qed.

Lemma nix_base32_encode_chars bytes : is_nix_base32 (nix_base32_encode bytes) = true.
Proof.
  unfold is_nix_base32, str_all, nix_base32_encode.
  rewrite String.list_ascii_of_string_of_list_ascii. apply forallb_forall.
  intros c (n & <- & _)%in_map_iff. apply alphabet_char_in, base32_group_range.
Qed.

Lemma sha256_nix32_canonical digest : length digest = 32 → canonical_hash (sha256_nix32 digest) = true.
Proof.
  intros Hlen. unfold canonical_hash, sha256_nix32.
  rewrite (proj2 (strip_prefix_Some _ _ (nix_base32_encode digest))) by done.
  by rewrite nix_base32_encode_len, nix_base32_encode_chars, Hlen.
Qed.

Lemma normalize_hash_fixed b64_decode s : canonical_hash s = true → normalize_hash b64_decode s = Ok s.
Proof.
  unfold canonical_hash, normalize_hash.
  destruct (strip_prefix "sha256:" s) as [digest|] eqn:E; [|done].
  intros ->. apply strip_prefix_Some in E as ->. done.
Qed.

Lemma canonical_hash_chars s c :
  canonical_hash s = true → ascii_mem c NIX_BASE32_ALPHABET = false → ascii_mem c "sha256:" = false →
  ascii_mem c s = false.
Proof.
  unfold canonical_hash. destruct (strip_prefix "sha256:" s) as [digest|] eqn:E; [|done].
  apply strip_prefix_Some in E as ->. intros [_ Hd]%andb_true_iff Hc Hp.
  rewrite ascii_mem_app, Hp. by eapply ascii_mem_all_false.
Qed.

(** Who spells the same digest: [hash] as it came in, [s] as it is kept. *)
Inductive same_digest (b64_decode : string → option (list Z)) (hash s : string) : Prop :=
  | same_spelling : hash = s → same_digest b64_decode hash s
  | same_sri_nix32 text : hash = "sha256-" +:+ text → s = "sha256:" +:+ text → same_digest b64_decode hash s
  | same_base64 digest text :
      length digest = 32 → b64_decode text = Some digest → s = sha256_nix32 digest →
      hash = "sha256:" +:+ text ∨ hash = "sha256-" +:+ text → same_digest b64_decode hash s.

Lemma normalize_hash_spec b64_decode hash :
  match normalize_hash b64_decode hash with
  | Ok s => canonical_hash s = true ∧ same_digest b64_decode hash s
  | Err _ => canonical_hash hash = false
  end.
Proof.
  unfold normalize_hash.
  destruct (strip_prefix "sha256:" hash) as [text|] eqn:E;
    [|destruct (strip_prefix "sha256-" hash) as [text|] eqn:E2;
      [|by unfold canonical_hash; rewrite E]].
  - pose proof E as ->%strip_prefix_Some.
    destruct ((str_len text =? _) && is_nix_base32 text) eqn:Hform.
    + split; [unfold canonical_hash; by rewrite E|by apply same_spelling].
    + assert (canonical_hash ("sha256:" +:+ text) = false) by (unfold canonical_hash; by rewrite E).
      destruct (b64_decode text) as [bytes|] eqn:Hb; [|done].
      destruct (Nat.eqb_spec (length bytes) SHA256_BYTES) as [Hlen|]; [|done].
      split; [by apply sha256_nix32_canonical|]. eapply same_base64; [done..|]. by left.
  - assert (canonical_hash hash = false) by (unfold canonical_hash; by rewrite E).
    apply strip_prefix_Some in E2 as ->.
    destruct ((str_len text =? _) && is_nix_base32 text) eqn:Hform.
    + split; [|by eapply same_sri_nix32]. unfold canonical_hash.
      by rewrite (proj2 (strip_prefix_Some _ _ text)).
    + destruct (b64_decode text) as [bytes|] eqn:Hb; [|done].
      destruct (Nat.eqb_spec (length bytes) SHA256_BYTES) as [Hlen|]; [|done].
      split; [by apply sha256_nix32_canonical|]. eapply same_base64; [done..|]. by right.
Qed.

(** normalize_hash succeeds on every canonical hash and returns a canonical hash naming the
    same digest, on which it is the identity; every encoding of one digest normalises to the same
    text. *)
Theorem normalize_hash_canonical {C : Crypto} :
  CryptoLaws C →
  (∀ hash, match normalize_hash b64_decode hash with
           | Ok s => canonical_hash s = true ∧ normalize_hash b64_decode s = Ok s ∧
                     same_digest b64_decode hash s
           | Err _ => canonical_hash hash = false
           end) ∧
  ∀ digest, length digest = 32 →
    normalize_hash b64_decode ("sha256-" +:+ b64_encode digest) = Ok (sha256_nix32 digest) ∧
    normalize_hash b64_decode ("sha256:" +:+ b64_encode digest) = Ok (sha256_nix32 digest) ∧
    normalize_hash b64_decode (sha256_nix32 digest) = Ok (sha256_nix32 digest).
Proof.
  intros HC. split.
  - intros hash. pose proof (normalize_hash_spec b64_decode hash) as H.
    destruct (normalize_hash b64_decode hash) as [s|e]; [|done]. destruct H as [Hc Hs].
    split_and!; [done|by apply normalize_hash_fixed|done].
  - intros digest Hlen.
    assert (Htail : ∀ text, text = b64_encode digest →
      (if (str_len text =? nix_base32_len SHA256_BYTES) && is_nix_base32 text
       then Ok ("sha256:" +:+ text)
       else match b64_decode text with
            | None => Err ("hash is neither nix-base32 nor base64: " +:+ text)
            | Some bytes =>
                if length bytes =? SHA256_BYTES then Ok (sha256_nix32 bytes)
                else Err ("expected a 32-byte sha256, got " +:+ pretty (length bytes) +:+ " bytes")
            end) = Ok (sha256_nix32 digest)).
    { intros text ->. by rewrite b64_padded, andb_false_r, b64_roundtrip, Hlen. }
    split_and!.
    + unfold normalize_hash. by apply Htail.
    + unfold normalize_hash. by apply Htail.
    + by apply normalize_hash_fixed, sha256_nix32_canonical.
Qed.

(** A toy instance of the laws, to evaluate with. *)
Fixpoint pos_digits (p : positive) : string :=
  match p with xH => "=" | xO p => String "0" (pos_digits p) | xI p => String "1" (pos_digits p) end.
Fixpoint digits_pos (s : string) : positive :=
  match s with
  | String c s => if Ascii.eqb c "0" then xO (digits_pos s)
                  else if Ascii.eqb c "1" then xI (digits_pos s) else xH
  | EmptyString => xH
  end.
Definition toy_crypto : Crypto := {|
  b64_encode bytes := pos_digits (encode bytes);
  b64_decode s := decode (digits_pos s);
  ed_public seed := seed;
  ed_sign seed msg := seed ++ map (λ c, Z.of_nat (ascii_code c)) (chars msg);
  ed_signature_ok _ := true;
  ed_verify pub msg sig :=
    bool_decide (sig = pub ++ map (λ c, Z.of_nat (ascii_code c)) (chars msg));
|}.

Lemma toy_crypto_laws : CryptoLaws toy_crypto.
Proof.
  split; simpl.
  - intros bytes. assert (∀ p, digits_pos (pos_digits p) = p) as ->; [|apply decode_encode].
    induction p as [p IH|p IH|]; simpl; by rewrite ?IH.
  - intros bytes. assert (H : ∃ data pad, pos_digits (encode bytes) = data +:+ pad ∧ str_all is_base64_digit data = true ∧
      str_all (Ascii.eqb "=") pad = true ∧ (encode bytes ≠ 1%positive → data ≠ "")).
    { induction (encode bytes) as [p (d & q & Heq & Hd & Hq & _)|p (d & q & Heq & Hd & Hq & _)|]; cbn [pos_digits].
      - exists (String "1" d), q. by rewrite Heq.
      - exists (String "0" d), q. by rewrite Heq.
      - by exists "", "=". }
    destruct H as (d & q & Heq & Hd & Hq & Hne). exists d, q. split_and!; [done..|]. intros Hb. apply Hne. intros H1.
    pose proof (decode_encode bytes) as Hde. rewrite H1 in Hde. by injection Hde as <-.
  - intros bytes _. induction (encode bytes) as [p IH|p IH|]; simpl; [..|done];
      unfold is_nix_base32 in *; by rewrite str_all_cons, IH, andb_false_r.
  - done.
  - intros seed msg. by apply bool_decide_eq_true.
Qed.

Lemma normalize_hash_canonical_witness :
  normalize_hash (@b64_decode toy_crypto) ("sha256-" +:+ @b64_encode toy_crypto (repeat 7%Z 32)) =
    Ok (sha256_nix32 (repeat 7%Z 32)).
Proof. by apply (proj2 (normalize_hash_canonical toy_crypto_laws) (repeat 7%Z 32)). Defined.

(** *** Signatures *)

Lemma key_sign_verifies {C : Crypto} (HC : CryptoLaws C) k fp :
  ascii_mem ":" (key_name k) = false → key_verifies k (key_sign k fp) fp = true.
Proof.
  intros Hn. unfold key_verifies, key_sign.
  rewrite str_app_cons, (proj2 (split_once_Some ":" _ (key_name k)
    (b64_encode (ed_sign (key_seed k) fp)))) by done.
  rewrite bool_decide_eq_false_2 by tauto.
  by rewrite b64_roundtrip, ed_signature_length, ed_correct.
Qed.

(** Objects with the same signed fields. *)
Record same_signed (o o' : Object) : Prop := {
  ss_path : o_store_path o = o_store_path o';
  ss_hash : o_nar_hash o = o_nar_hash o';
  ss_size : o_nar_size o = o_nar_size o';
  ss_refs : o_references o ≡ₚ o_references o';
}.

Lemma order_by_perm_eq (l l' : list string) : l ≡ₚ l' → order_by String.le l = order_by String.le l'.
Proof.
  intros Hp. apply (Sorted_unique String.le); [apply (Sorted_merge_sort String.le)..|].
  by rewrite !(order_by_perm String.le).
Qed.

Lemma fingerprint_same o o' dir : same_signed o o' → fingerprint o dir = fingerprint o' dir.
Proof.
  intros [Hp Hh Hs Hr]. unfold fingerprint. rewrite Hp, Hh, Hs.
  by rewrite (order_by_perm_eq _ _ (Permutation_map _ Hr)).
Qed.

(** Text with no separator of the fingerprint in it. *)
Record signable (dir : string) (o : Object) : Prop := {
  sg_path : ascii_mem ";" (o_store_path o) = false;
  sg_hash : ascii_mem ";" (o_nar_hash o) = false;
  sg_dir : ascii_mem "," dir = false;
  sg_refs : Forall (λ r, ascii_mem "," r = false) (o_references o);
}.

Lemma split_field l r l' r' :
  ascii_mem ";" l = false → ascii_mem ";" l' = false →
  l +:+ ";" +:+ r = l' +:+ ";" +:+ r' → l = l' ∧ r = r'.
Proof.
  intros Hl Hl' Heq.
  assert (split_once ";" (l +:+ ";" +:+ r) = Some (l, r)) as H1 by by apply split_once_Some.
  assert (split_once ";" (l' +:+ ";" +:+ r') = Some (l', r')) as H2 by by apply split_once_Some.
  rewrite Heq, H2 in H1. by injection H1.
Qed.

Lemma str_join_inj sep ls ls' :
  Forall (λ s, ascii_mem sep s = false ∧ s ≠ "") ls → Forall (λ s, ascii_mem sep s = false ∧ s ≠ "") ls' →
  str_join (String sep "") ls = str_join (String sep "") ls' → ls = ls'.
Proof.
  intros Hls. revert ls'. induction Hls as [|s ls [Hs Hne] Hls IH]; intros ls' Hls' Heq.
  - destruct Hls' as [|s' ls' [Hs' Hne'] Hls']; [done|]. destruct ls'; simpl in Heq; [done|].
    by destruct s'.
  - destruct Hls' as [|s' ls' [Hs' Hne'] Hls'].
    { destruct ls; simpl in Heq; [done|]. by destruct s. }
    assert (Hsplit : ∀ s ls, ascii_mem sep s = false → split_once sep (str_join (String sep "") (s :: ls)) =
      match ls with [] => None | _ => Some (s, str_join (String sep "") ls) end).
    { intros t ts Ht. destruct ts; [by apply split_once_None|]. by apply split_once_Some. }
    pose proof (Hsplit s ls Hs) as H1. pose proof (Hsplit s' ls' Hs') as H2. rewrite Heq, H2 in H1.
    destruct ls as [|t ls], ls' as [|t' ls']; try done; [by simpl in Heq; subst|].
    injection H1 as -> Hrest. f_equal. by apply IH.
Qed.

(** Two signable objects have the same fingerprint exactly when their store path, NAR
    hash, NAR size and references agree. *)
Theorem fingerprint_binds dir o o' :
  signable dir o → signable dir o' →
  fingerprint o dir = fingerprint o' dir ↔ same_signed o o'.
Proof.
  intros [Hp Hh Hd Hr] [Hp' Hh' _ Hr']. split; [|apply fingerprint_same].
  unfold fingerprint. intros Heq. apply (f_equal (strip_prefix "1;")) in Heq.
  rewrite !(proj2 (strip_prefix_Some "1;" _ _) eq_refl) in Heq. injection Heq as Heq.
  apply split_field in Heq as [H1 Heq]; [|done..].
  apply split_field in Heq as [H2 Heq]; [|done..].
  apply split_field in Heq as [H3 Heq]; [|by apply pretty_Z_mem..].
  apply (inj pretty) in H3. split; [done|done|done|].
  apply str_join_inj in Heq.
  - assert (Hm : map (λ r, dir +:+ "/" +:+ r) (o_references o) ≡ₚ map (λ r, dir +:+ "/" +:+ r) (o_references o')).
    { rewrite <-(order_by_perm String.le (map _ (o_references o))), Heq. apply order_by_perm. }
    apply (Permutation_map (λ s, default "" (strip_prefix (dir +:+ "/") s))) in Hm.
    rewrite !map_map in Hm.
    assert (Hid : ∀ l, map (λ x, default "" (strip_prefix (dir +:+ "/") (dir +:+ "/" +:+ x))) l = l).
    { intros l. rewrite <-(map_id l) at 2. apply map_ext. intros x.
      by rewrite (proj2 (strip_prefix_Some _ _ x)) by by rewrite str_app_assoc. }
    by rewrite !Hid in Hm.
  - rewrite (order_by_perm String.le). apply Forall_fmap. eapply Forall_impl; [exact Hr|].
    intros r Hrr. simpl. split; [rewrite !ascii_mem_app, Hd, Hrr; done|by destruct dir].
  - rewrite (order_by_perm String.le). apply Forall_fmap. eapply Forall_impl; [exact Hr'|].
    intros r Hrr. simpl. split; [rewrite !ascii_mem_app, Hd, Hrr; done|by destruct dir].
Qed.

Lemma fingerprint_binds_witness :
  fingerprint example_object "/nix/store" ≠
    fingerprint (mkObject "h" "/nix/store/h-hello" "hello" "sha256:n" 121 "sha256:f" 64 None None
                   ["h-hello"; "g-glibc"] [] None) "/nix/store".
Proof.
  intros [_ _ Hs _]%fingerprint_binds.
  - discriminate Hs.
  - by split; repeat constructor.
  - by split; repeat constructor.
Defined.

(** C34: Signing gives one signature per key, each of which that key verifies, and the signed object
    verifies under every key set sharing a key with the signers, also after a change of fields that
    are not signed; it fails only without keys. *)
Theorem sign_then_verify {C : Crypto} obj dir keys :
  CryptoLaws C → Forall (λ k, ascii_mem ":" (key_name k) = false) keys →
  match sign obj dir keys with
  | Ok sigs =>
      keys ≠ [] ∧
      Forall2 (λ k sig, key_verifies k sig (fingerprint obj dir) = true) keys sigs ∧
      ∀ o' keys' k, same_signed obj o' → k ∈ keys → k ∈ keys' →
        verify (with_sigs o' sigs) dir keys' = true
  | Err _ => keys = []
  end.
Proof.
  intros HC Hnames. unfold sign. case_bool_decide as Hk; [done|]. split_and!; [done| |].
  - clear Hk. induction Hnames as [|k keys Hn _ IH]; simpl; constructor; [|done].
    by apply key_sign_verifies.
  - intros o' keys' k Hsame Hin Hin'. unfold verify. cbn [o_sigs with_sigs].
    assert (fingerprint (with_sigs o' (map (λ k, key_sign k (fingerprint obj dir)) keys)) dir
      = fingerprint obj dir) as ->.
    { symmetry. apply fingerprint_same. destruct Hsame. by split. }
    apply existsb_exists. exists (key_sign k (fingerprint obj dir)). split.
    + apply in_map_iff. exists k. split; [done|]. by apply list_elem_of_In.
    + apply existsb_exists. exists k. split; [by apply list_elem_of_In|].
      apply key_sign_verifies; [done|]. rewrite Forall_forall in Hnames. by apply Hnames.
Qed.

(** Rotation: signed under both keys, verified with the new one alone. *)
Lemma sign_then_verify_witness :
  let old := mkSigningKey "k-1" (repeat 1%Z 32) in
  let new := mkSigningKey "k-2" (repeat 2%Z 32) in
  match @sign toy_crypto example_object "/nix/store" [old; new] with
  | Ok sigs => @verify toy_crypto (with_sigs example_object sigs) "/nix/store" [new] = true
  | Err _ => False
  end.
Proof.
  intros old new.
  pose proof (@sign_then_verify toy_crypto example_object "/nix/store" [old; new] toy_crypto_laws
    ltac:(by repeat constructor)) as H.
  destruct (sign example_object "/nix/store" [old; new]) as [sigs|e]; [|done].
  destruct H as (_ & _ & H). apply (H _ _ new); [|by right; left|by left]. by split.
Defined.
