(* ===== verification/Deletion.v ===== *)
(** * Deletion: claims, rows, blobs; garbage collection

    [crates/garret-pusher/src/deletion.rs] and [gc.rs]. The deletion sequence
    (claim the path, delete its row, delete its blob, release the claim) and
    the two loops that drive it without an operator: the eviction pass and the
    orphan sweep. Claims a handler still holds when it returns early are
    released when it ends, as Rust drops them.

    The timer loop [run_forever], which calls [tick] and [sweep_orphans], is in
    Startup. Not modelled: the pass mutex and the metrics. *)

From S2P Require Import Prelude Text Common InFlight Db Prog Storage World.

(** ** The deletion sequence *)

Record Deletion := mkDeletion {
  dn_claims : list string;
  dn_keys : list string;
}.

Definition deletion_default : Deletion := mkDeletion [] [].

Definition busy_message (hash : string) (busy : Busy) : string :=
  hash +:+ " is being " +:+
    match busy with Busy_Uploading => "uploaded" | Busy_Deleting => "deleted" end +:+
    "; nothing was deleted, retry".

(** [Deletion::claim_all]: the claims collected before a refusal are dropped. *)
Fixpoint claim_all_from (claimed : list string) (hashes : list string)
    : Handler (Result Deletion Failure) :=
  match hashes with
  | [] => Ret (Ok (mkDeletion claimed []))
  | hash :: hashes =>
      do c <- request (Op_ClaimDelete hash);
      match c with
      | Ok _ => claim_all_from (claimed ++ [hash]) hashes
      | Err busy =>
          do _ <- request (Op_Release claimed);
          Ret (Err (Fail_Other (busy_message hash busy)))
      end
  end.
Definition claim_all (hashes : list string) : Handler (Result Deletion Failure) :=
  claim_all_from [] hashes.

(** [claim_all] called with the connection lock held, as prune does. *)
Fixpoint claim_all_locked (st : State) (hashes : list string) : Result State string :=
  match hashes with
  | [] => Ok st
  | hash :: hashes =>
      match claim_delete st hash with
      | Ok st => claim_all_locked st hashes
      | Err busy => Err (busy_message hash busy)
      end
  end.

Definition queue_blob (d : Deletion) (hash : string) : Deletion :=
  mkDeletion (dn_claims d) (dn_keys d ++ [key_for hash]).

Definition hold (d : Deletion) (hash : string) : Deletion :=
  let d := queue_blob d hash in
  mkDeletion (dn_claims d ++ [hash]) (dn_keys d).

Definition deletion_len (d : Deletion) : nat := length (dn_keys d).

Definition finish (d : Deletion) : Handler (Result unit Failure) :=
  do deleted <- request (Op_DeleteBlobs (dn_keys d));
  do _ <- request (Op_Release (dn_claims d));
  Ret deleted.

(** ** The eviction pass *)

Definition BATCH : nat := 500.

(** [GcConfig] as a pass uses it: [high()], [low()] and the orphan grace. *)
Record GcLimits := mkGcLimits {
  gc_high : Z;
  gc_low : Z;
  gc_orphan_grace : Z;
}.

Record PassResult := mkPass {
  evicted : nat;
  bytes_freed : Z;
  candidates_exhausted : bool;
}.

Definition pass_default : PassResult := mkPass 0 0 false.

Definition count_evicted (r : PassResult) (freed : Z) : PassResult :=
  mkPass (S (evicted r)) (bytes_freed r + freed) (candidates_exhausted r).

(** A pass between two requests. *)
Record Pass := mkPassState {
  ps_usage : Z;
  ps_result : PassResult;
  ps_deletion : Deletion;
  ps_settled : bool;
}.

(** The loop over one batch's candidates. *)
Fixpoint evict_batch (low at_ : Z) (candidates : list (string * Z)) (s : Pass)
    : Handler (Result Pass Failure) :=
  match candidates with
  | [] => Ret (Ok s)
  | (hash, _) :: candidates =>
      do c <- request (Op_ClaimDelete hash);
      match c with
      | Err _ => evict_batch low at_ candidates s
      | Ok _ =>
          do? freed <- db_write (λ db, evict_object db hash at_);
          match freed with
          | None =>
              do _ <- request (Op_Release [hash]);
              evict_batch low at_ candidates
                (mkPassState (ps_usage s) (ps_result s) (ps_deletion s) true)
          | Some freed =>
              let s := mkPassState (ps_usage s - freed) (count_evicted (ps_result s) freed)
                         (hold (ps_deletion s) hash) true in
              if (ps_usage s <=? low)%Z then Ret (Ok s) else evict_batch low at_ candidates s
          end
      end
  end.

(** The [while usage > low] loop; [fuel] bounds its laps. *)
Fixpoint evict_loop (fuel : nat) (low usage : Z) (result : PassResult)
    : Handler (Result PassResult Failure) :=
  if (usage <=? low)%Z then Ret (Ok result)
  else match fuel with
  | 0 => Ret (Err (Fail_Other "evict: out of fuel"))
  | S fuel =>
      do at_ <- request Op_Now;
      do? candidates <- db_read (λ db, evictable db BATCH at_);
      match candidates with
      | [] => Ret (Ok (mkPass (evicted result) (bytes_freed result) true))
      | _ =>
          do? s <- evict_batch low at_ candidates
                     (mkPassState usage result deletion_default false);
          do? _ <- finish (ps_deletion s);
          if ps_settled s then evict_loop fuel low (ps_usage s) (ps_result s)
          else Ret (Ok (ps_result s))
      end
  end.

Definition evict (fuel : nat) (cfg : GcLimits) : Handler (Result PassResult Failure) :=
  do? usage <- db_write reconcile_total_bytes;
  evict_loop fuel (gc_low cfg) usage pass_default.

(** [Gc::run]. *)
Definition gc_run (fuel : nat) (cfg : GcLimits) : Handler (Result PassResult Failure) := evict fuel cfg.

Definition tick (fuel : nat) (cfg : GcLimits) : Handler (Result unit Failure) :=
  do? usage <- db_read total_bytes;
  if (usage <? gc_high cfg)%Z then Ret (Ok tt)
  else do? _ <- gc_run fuel cfg; Ret (Ok tt).

(** ** The orphan sweep *)

(** The final check of each orphan, under the connection lock. *)
Fixpoint sweep_claims (db : Db) (st : State) (hashes : list string) (d : Deletion) : State * Deletion :=
  match hashes with
  | [] => (st, d)
  | hash :: hashes =>
      match claim_delete st hash with
      | Err _ => sweep_claims db st hashes d
      | Ok st' =>
          if exists_ db hash then sweep_claims db (drop_claim st' hash).1 hashes d
          else sweep_claims db st' hashes (hold d hash)
      end
  end.

Definition sweep (grace : Z) : Handler (Result nat Failure) :=
  do? known <- db_read all_hashes;
  do? blobs <- request Op_ListBlobs;
  do? _ <- request (Op_AbortStale grace);
  do? deletion <- request (Op_Db [] (λ _ db st,
    let '(st', d) := sweep_claims db st (orphan_hashes blobs known st grace) deletion_default in
    ([], st', Ok d)));
  let count := deletion_len deletion in
  do? _ <- finish deletion;
  Ret (Ok count).

Definition sweep_orphans (cfg : GcLimits) : Handler (Result nat Failure) := sweep (gc_orphan_grace cfg).

(** ** The discipline *)

Section deletion_ok.
Context (describes : string * Z * string * Z → list Z → Prop).

(** What a [Deletion] promises of the claims it holds. *)
Definition deletion_ok (K : Knows) (d : Deletion) : Prop :=
  (∀ h, h ∈ dn_claims d → is_Some (K !! h)) ∧
  ∀ key, key ∈ dn_keys d → ∃ h, key = key_for h ∧ K !! h = Some Know_Gone.

Lemma deletion_ok_default K : deletion_ok K deletion_default.
Proof. split; intros ? []%elem_of_nil. Qed.

(** Knowledge that only improved, a path claimed since apart. *)
Lemma deletion_ok_insert K d h k :
  K !! h ≠ Some Know_Gone ∨ k = Know_Gone → deletion_ok K d → deletion_ok (<[h := k]> K) d.
Proof.
  intros Hh [H1 H2]. split.
  - intros i Hi. apply lookup_insert_is_Some'. right. by apply H1.
  - intros key (i & -> & Hi)%H2. exists i. split; [done|].
    destruct (decide (i = h)) as [->|]; [|by rewrite lookup_insert_ne].
    rewrite lookup_insert_eq. destruct Hh as [| ->]; done.
Qed.

Lemma deletion_ok_queue K d h :
  K !! h = Some Know_Gone → deletion_ok K d → deletion_ok K (queue_blob d h).
Proof.
  intros Hh [H1 H2]. split; [done|]. simpl. intros key [Hk|Hk]%elem_of_app; [by apply H2|]. apply list_elem_of_singleton in Hk as ->. by exists h.
Qed.

Lemma deletion_ok_hold K d h :
  K !! h = Some Know_Gone → deletion_ok K d → deletion_ok K (hold d h).
Proof.
  intros Hh Hd. apply (deletion_ok_queue _ _ h Hh) in Hd as [H1 H2]. split; [|done]. simpl.
  intros i [Hi|Hi]%elem_of_app; [by apply H1|]. apply list_elem_of_singleton in Hi as ->. by eexists.
Qed.

Lemma finish_ok K d post :
  deletion_ok K d → (∀ K' r, post K' r) → ok describes K (finish d) post.
Proof.
  intros [H1 H2] Hp. unfold finish. apply ok_bind, ok_request. split; [done|]. intros r.
  split; [done|]. apply Hp.
Qed.

Lemma claim_all_ok K hashes post :
  (∀ K' e, post K' (Err e)) →
  (∀ K', (∀ h, h ∈ hashes → K' !! h = Some Know_Delete) → post K' (Ok (mkDeletion hashes []))) →
  ok describes K (claim_all hashes) post.
Proof.
  intros He Hp. unfold claim_all.
  assert (∀ claimed rest K, hashes = claimed ++ rest → (∀ h, h ∈ claimed → K !! h = Some Know_Delete) →
    ok describes K (claim_all_from claimed rest) post) as H; [|by apply H; [|intros ? []%elem_of_nil]].
  clear K. intros claimed rest. revert claimed.
  induction rest as [|h rest IH]; intros claimed K Hsplit HK; cbn [claim_all_from].
  { rewrite app_nil_r in Hsplit. subst claimed. by apply Hp. }
  apply ok_bind, ok_request. split.
  - intros busy. apply ok_bind, ok_request. split; [|apply He].
    intros i Hi. rewrite (HK i Hi). by eexists.
  - intros Hn. apply IH; [by rewrite <-app_assoc|]. intros i [Hi|Hi]%elem_of_app.
    + rewrite lookup_insert_ne; [by apply HK|]. intros ->. by rewrite HK in Hn.
    + apply list_elem_of_singleton in Hi as ->. apply lookup_insert_eq.
Qed.

Lemma evict_batch_ok low at_ candidates s K post :
  deletion_ok K (ps_deletion s) → (∀ K' e, post K' (Err e)) →
  (∀ K' s', deletion_ok K' (ps_deletion s') → post K' (Ok s')) →
  ok describes K (evict_batch low at_ candidates s) post.
Proof.
  intros Hd He Hp. revert s K Hd. induction candidates as [|[h sz] cands IH]; intros s K Hd;
    cbn [evict_batch]; [by apply Hp|].
  apply ok_bind, ok_request. split; [intros _; by apply IH|]. intros Hn.
  assert (deletion_ok (<[h := Know_Delete]> K) (ps_deletion s)) as Hd'
    by (apply deletion_ok_insert; [left; by rewrite Hn|done]).
  apply ok_try; [done|].
  apply (ok_write_gone _ _ h); [apply lookup_insert_eq|intros; apply evict_object_kept|done|].
  intros db. destruct (evict_object db h at_).2 as [freed|] eqn:E; [left|right].
  - split; [by eapply evict_object_gone|]. rewrite insert_insert_eq.
    assert (deletion_ok (<[h := Know_Gone]> K) (hold (ps_deletion s) h)) as Hh.
    { apply deletion_ok_hold; [apply lookup_insert_eq|]. apply deletion_ok_insert; [by right|done]. }
    cbn [ps_usage]. destruct (_ <=? low)%Z; [by apply Hp|by apply IH].
  - apply ok_bind, ok_request. split.
    + intros i ->%list_elem_of_singleton. rewrite lookup_insert_eq. by eexists.
    + apply IH. destruct Hd as [H1 H2]. split; cbn [ps_deletion].
      * intros i Hi. apply H1 in Hi as [k Hk]. exists k. apply map_lookup_filter_Some.
        rewrite lookup_insert_ne by congruence. split; [done|]. simpl.
        intros ->%list_elem_of_singleton. by rewrite Hn in Hk.
      * intros key (i & -> & Hi)%H2. exists i. split; [done|]. apply map_lookup_filter_Some.
        rewrite lookup_insert_ne by congruence. split; [done|]. simpl.
        intros ->%list_elem_of_singleton. by rewrite Hn in Hi.
Qed.

Lemma gc_run_ok fuel cfg K post : (∀ K' r, post K' r) → ok describes K (gc_run fuel cfg) post.
Proof.
  intros Hp. unfold gc_run, evict. apply ok_try; [done|].
  apply ok_write; [intros; by apply rows_kept_sub|done|]. intros db _.
  generalize (reconcile_total_bytes db).2, pass_default. revert K.
  induction fuel as [|fuel IH]; intros K usage result; cbn [evict_loop];
    (destruct (usage <=? gc_low cfg)%Z; [apply Hp|]); [apply Hp|].
  apply ok_bind, ok_request. intros at_. apply ok_try; [done|]. apply ok_read; [done|].
  intros db' _. destruct (evictable db' BATCH at_) as [|c cands]; [apply Hp|].
  apply ok_try; [done|]. apply evict_batch_ok; [apply deletion_ok_default|done|].
  intros K' s' Hd. apply ok_try; [done|]. apply finish_ok; [done|].
  intros K2 [[]|e]; [|done]. destruct (ps_settled s'); [apply IH|apply Hp].
Qed.

Lemma tick_ok fuel cfg K post : (∀ K' r, post K' r) → ok describes K (tick fuel cfg) post.
Proof.
  intros Hp. unfold tick. apply ok_try; [done|]. apply ok_read; [done|]. intros db _.
  destruct (_ <? _)%Z; [apply Hp|]. apply ok_try; [done|]. apply gc_run_ok.
  intros K' [pass|e]; [|done]. apply Hp.
Qed.

(** The claims the sweep's closure takes. *)
Lemma sweep_claims_spec db st hashes d :
  let out := sweep_claims db st hashes d in
  ∃ taken, dn_claims out.2 = dn_claims d ++ taken ∧ dn_keys out.2 = dn_keys d ++ map key_for taken ∧
    (∀ h, h ∈ taken → claims st !! h = None ∧ objects db !! h = None) ∧
    ∀ h, claims out.1 !! h = if bool_decide (h ∈ taken) then Some Kind_Delete else claims st !! h.
Proof.
  revert st d. induction hashes as [|h hashes IH]; intros st d; cbn [sweep_claims].
  { exists []. rewrite !app_nil_r. split_and!; [done|done|intros ? []%elem_of_nil|].
    intros h. by rewrite bool_decide_eq_false_2 by apply not_elem_of_nil. }
  destruct (claim_delete st h) as [st'|] eqn:E; [|apply IH].
  apply claim_delete_inv in E as [Hn Hc]. unfold exists_. case_bool_decide as Hrow.
  - destruct (IH (drop_claim st' h).1 d) as (taken & H1 & H2 & H3 & H4).
    assert (Hsame : claims (drop_claim st' h).1 = claims st)
      by by rewrite drop_claim_claims, Hc, delete_insert_id.
    exists taken. rewrite Hsame in *. done.
  - destruct (IH st' (hold d h)) as (taken & H1 & H2 & H3 & H4).
    exists (h :: taken). simpl in H1, H2. rewrite <-app_assoc in H1, H2. split_and!; [done|done| |].
    + intros i [->|Hi]%elem_of_cons; [by rewrite <-eq_None_not_Some in Hrow|].
      apply H3 in Hi as [Hi ?]. split; [|done]. rewrite Hc in Hi. by apply lookup_insert_None in Hi as [? _].
    + intros i. rewrite H4, Hc. destruct (decide (i = h)) as [->|Hne].
      * rewrite lookup_insert_eq, (bool_decide_eq_true_2 (h ∈ h :: taken)) by by left.
        by case_bool_decide.
      * rewrite lookup_insert_ne by done. repeat case_bool_decide; set_solver.
Qed.

Lemma sweep_ok grace K post : K = ∅ → (∀ K' r, post K' r) → ok describes K (sweep grace) post.
Proof.
  intros -> Hp. unfold sweep. apply ok_try; [done|]. apply ok_read; [done|]. intros db0 _.
  apply ok_try; [done|]. apply ok_request. intros [blobs|e]; [|done].
  apply ok_try; [done|]. apply ok_request. intros [n|e]; [|done].
  apply ok_try; [done|]. split_and!.
  - intros now db st _. by destruct (sweep_claims _ _ _ _).
  - done.
  - intros now db st Hdb Hst.
    pose proof (sweep_claims_spec db st (orphan_hashes blobs (all_hashes db0) st grace) deletion_default)
      as (taken & Hcl & Hkeys & Htaken & Hst').
    destruct (sweep_claims db st _ _) as [st' d]. cbn [fst snd dn_claims dn_keys deletion_default app] in *.
    set (K' := list_to_map (map (λ h, (h, Know_Gone)) taken) : Knows).
    assert (HK' : ∀ h k, K' !! h = Some k ↔ h ∈ taken ∧ k = Know_Gone).
    { intros h k. unfold K'. clear. induction taken as [|t taken IH]; simpl.
      - split; [by rewrite lookup_empty|]. intros [Hh _]. by apply elem_of_nil in Hh.
      - rewrite elem_of_cons, lookup_insert. case_decide as Hh; [subst t|rewrite IH; clear IH];
          (split; [intros Hx|intros [Hx ->]]).
        + injection Hx as <-. split; [by left|done].
        + done.
        + split; [right; apply Hx|apply Hx].
        + split; [by destruct Hx as [->|]|done]. }
    exists K'. split.
    + split; [done| | |].
      * intros h k' [Hh ->]%HK' _. split_and!; [by apply Htaken| |done].
        by rewrite Hst', bool_decide_eq_true_2.
      * intros h [Hn|[? ?]]; [|done]. rewrite Hst', bool_decide_eq_false_2; [done|].
        intros Hh. by rewrite (proj2 (HK' h Know_Gone) (conj Hh eq_refl)) in Hn.
      * intros h k [Hh ->]%HK' _. by apply Htaken.
    + apply ok_try; [done|]. apply finish_ok; [|intros K2 [[]|e]; [apply Hp|done]].
      split; rewrite ?Hcl, ?Hkeys.
      * intros h Hh. exists Know_Gone. by apply HK'.
      * intros key (h & -> & Hh)%list_elem_of_fmap. exists h. split; [done|]. by apply HK'.
Qed.
End deletion_ok.

(** ** The eviction pass alone

    With no other handler in between, but with every failure a request can
    have. *)

(** What keeps a row at [now], in the tables' own terms. *)
Definition kept_row (db : Db) (now : Z) (h : string) (row : Row) : Prop :=
  (∃ referrer ref, (referrer, ref) ∈ object_refs db ∧ reference_hash ref = h ∧ referrer ≠ h) ∨
  (∃ name p, pins db !! name = Some p ∧ p_store_path_hash p = h ∧ ∀ t, p_expires_at p = Some t → (now < t)%Z) ∨
  (now - 24 * 60 * 60 ≤ r_pushed_at row)%Z.

(** Every pin of the path has expired, and it was last pushed over a day ago. *)
Definition let_go (db : Db) (now : Z) (h : string) (row : Row) : Prop :=
  (∀ name p, pins db !! name = Some p → p_store_path_hash p = h → ∃ t, p_expires_at p = Some t ∧ (t ≤ now)%Z) ∧
  (r_pushed_at row < now - 24 * 60 * 60)%Z.

Lemma evictable_kept db now h row : evictable_where db now PUSH_GRACE h row ↔ ¬ kept_row db now h row.
Proof.
  unfold evictable_where, kept_row. change PUSH_GRACE with (24 * 60 * 60)%Z.
  assert (Hr : set_Exists (λ r, reference_hash r.2 = h ∧ r.1 ≠ h) (object_refs db) ↔
    ∃ referrer ref, (referrer, ref) ∈ object_refs db ∧ reference_hash ref = h ∧ referrer ≠ h).
  { split; [intros ([a r] & Hin & ? & ?)|intros (a & r & Hin & ? & ?)]; [by exists a, r|by exists (a, r)]. }
  assert (Hp : map_Exists (λ _ p, p_store_path_hash p = h ∧ pin_live now p) (pins db) ↔
    ∃ name p, pins db !! name = Some p ∧ p_store_path_hash p = h ∧ ∀ t, p_expires_at p = Some t → (now < t)%Z).
  { unfold map_Exists, pin_live. split; intros (n & p & Hn & Hh & Hl); exists n, p; split_and!; try done.
    - intros t Ht. by rewrite Ht in Hl.
    - destruct (p_expires_at p); [by apply Hl|done]. }
  rewrite Hr, Hp. split; [intros (? & ? & ?) [?|[?|?]]; [done|done|lia]|intros Hk]. split_and!; [tauto|tauto|].
  apply Z.nle_gt. tauto.
Qed.

Lemma evictable_let_go db now h row : evictable_where db now PUSH_GRACE h row → let_go db now h row.
Proof.
  intros (_ & Hp & Hold). split; [|done]. intros name p Hn Hh.
  destruct (decide (pin_live now p)) as [Hl|Hl]; [exfalso; apply Hp; by exists name, p|].
  unfold pin_live in Hl. destruct (p_expires_at p) as [t|]; [|done]. exists t. split; [done|]. lia.
Qed.

(** Rows go, and only such. *)
Record collects (now : Z) (db db' : Db) : Prop := {
  co_shrinks : shrinks db db';
  co_let_go : ∀ h row, objects db !! h = Some row → objects db' !! h = None → let_go db now h row;
}.

Lemma collects_refl now db : db_wf db → collects now db db.
Proof. intros Hwf. split; [by apply shrinks_refl|]. intros h row. by intros ->. Qed.

Lemma collects_trans now db1 db2 db3 : collects now db1 db2 → collects now db2 db3 → collects now db1 db3.
Proof.
  intros [Hs1 H1] [Hs2 H2]. split; [by eapply shrinks_trans|]. intros h row Hrow Hgone.
  destruct (objects db2 !! h) as [row2|] eqn:Hrow2; [|by apply H1].
  pose proof (shrinks_row _ _ _ _ Hs1 Hrow2) as Heq. simplify_eq. destruct (H2 h _ Hrow2 Hgone) as [Hp Ht].
  split; [|done]. intros name p Hn Hh. apply (Hp name p); [|done]. apply (sh_pins _ _ Hs1). split; [done|].
  rewrite Hh. by eexists.
Qed.

Lemma collects_one now db c : db_wf db → candidate db now c → collects now db (remove_row db c.1 c.2).
Proof.
  intros Hwf (row & Hrow & Hsz & He). split; [apply remove_row_shrinks; [done|]; by eapply evictable_where_edges|].
  intros h row' Hrow'. simpl. rewrite lookup_delete_None, Hrow'. intros [<-|]; [|done]. simplify_eq. by apply evictable_let_go.
Qed.

(** What a stretch of eviction did to the database. *)
Record evicts (now : Z) (db db' : Db) (result result' : PassResult) : Prop := {
  ev_wf : db_wf db';
  ev_collects : collects now db db';
  ev_evicted : size (objects db) + evicted result = size (objects db') + evicted result';
  ev_freed : (total_bytes db + bytes_freed result = total_bytes db' + bytes_freed result')%Z;
  ev_flag : candidates_exhausted result' = candidates_exhausted result;
}.

Lemma evicts_refl now db result : db_wf db → evicts now db db result result.
Proof. intros Hwf. split; try done. by apply collects_refl. Qed.

Lemma evicts_trans now db1 db2 db3 r1 r2 r3 :
  evicts now db1 db2 r1 r2 → evicts now db2 db3 r2 r3 → evicts now db1 db3 r1 r3.
Proof.
  intros [? ? ? ? ?] [? ? ? ? ?]. split; try done; [by eapply collects_trans|lia|lia|congruence].
Qed.

Lemma evicts_one db now c result :
  db_wf db → candidate db now c →
  evicts now db (remove_row db c.1 c.2) result (count_evicted result c.2).
Proof.
  intros Hwf Hc. pose proof (remove_row_total db c now Hwf Hc) as [Ht Hsz]. pose proof (collects_one now db c Hwf Hc).
  destruct Hc as (row & Hrow & Hrsz & He). split; cbn [evicted bytes_freed count_evicted]; try done.
  - rewrite <-Hrsz. by apply db_wf_remove_row.
  - rewrite (remove_row_count db c.1 c.2) by by eexists. lia.
  - rewrite Ht. lia.
Qed.

Lemma evict_batch_spec low at_ candidates s w held w' held' res :
  db_wf (w_db w) → ps_usage s = total_bytes (w_db w) →
  Forall (candidate (w_db w) at_) candidates → NoDup (map fst candidates) →
  runs w held (evict_batch low at_ candidates s) w' held' res →
  w_now w' = w_now w ∧ db_wf (w_db w') ∧ collects at_ (w_db w) (w_db w') ∧
  match res with
  | Ok s' =>
      evicts at_ (w_db w) (w_db w') (ps_result s) (ps_result s') ∧
      ps_usage s' = total_bytes (w_db w') ∧
      (ps_settled s = true → ps_settled s' = true) ∧
      (ps_settled s' = true → ps_settled s = true ∨
        size (objects (w_db w')) < size (objects (w_db w))) ∧
      (ps_settled s' = false → w_db w' = w_db w ∧ claims (w_inflight w') = claims (w_inflight w) ∧
        Forall (λ c, is_Some (claims (w_inflight w) !! c.1)) candidates)
  | Err _ => True
  end.
Proof.
  revert s w held. induction candidates as [|[h sz] cands IH]; intros s w held Hwf Hu Hcs Hnd;
    cbn [evict_batch].
  { intros (-> & -> & ->)%runs_ret_inv. pose proof (evicts_refl at_ (w_db w) (ps_result s) Hwf).
    split_and!; try done; [by apply collects_refl|intros ?; by left]. }
  apply Forall_cons in Hcs as [Hc Hcs]. cbn [map] in Hnd. apply NoDup_cons in Hnd as [Hnh Hnd].
  intros (c & w1 & held1 & Hs & Hr)%runs_request. cbn [op_step] in Hs.
  destruct (claim_delete (w_inflight w) h) as [st|busy] eqn:Hclaim.
  2: { destruct Hs as (-> & -> & ->). destruct (IH s w held) as (Hclk & Hwf' & Hsh & Hres); try done.
       split_and!; [done..|]. destruct res as [s'|]; [|done].
       destruct Hres as (He & Hu' & Hset & Hst & Hidle). split_and!; [done..|].
       intros Hf. destruct (Hidle Hf) as (Hdb & Hcl & HF). split_and!; [done..|].
       constructor; [|done]. simpl. unfold claim_delete, take_claim in Hclaim.
       by destruct (claims (w_inflight w) !! h). }
  destruct Hs as (-> & -> & ->). set (w1 := with_inflight st w) in Hr.
  pose proof (candidate_evict _ _ _ Hc) as Hev. simpl fst in Hev. simpl snd in Hev.
  pose proof (evicts_one _ at_ _ (ps_result s) Hwf Hc) as Hone. simpl fst in Hone. simpl snd in Hone.
  pose proof (remove_row_total _ _ _ Hwf Hc) as [Ht _]. simpl fst in Ht. simpl snd in Ht.
  pose proof (remove_row_count (w_db w) h sz ltac:(destruct Hc as (row & ? & _); by exists row)) as Hcnt.
  apply runs_db_write in Hr as [Hr|(msg & w2 & Hw2 & Hr)].
  2: { apply runs_ret_inv in Hr as (-> & _ & ->).
       destruct Hw2 as [-> | ->]; simpl; [by split_and!; [..|apply collects_refl|]|].
       rewrite Hev. split_and!; [done|apply Hone|apply Hone|done]. }
  change (w_db w1) with (w_db w) in Hr. rewrite Hev in Hr. cbn [fst snd ps_usage] in Hr.
  set (w2 := with_db (remove_row (w_db w) h sz) w1) in Hr.
  destruct (Z.leb_spec (ps_usage s - sz) low) as [Hle|Hgt].
  - apply runs_ret_inv in Hr as (-> & _ & ->). cbn [ps_result ps_usage ps_settled].
    change (w_db w2) with (remove_row (w_db w) h sz).
    split_and!; [done|apply Hone|apply Hone|done|lia|done|right; lia|done].
  - apply IH in Hr as (Hclk & Hwf' & Hsh & Hres); [|apply Hone|cbn [ps_usage]; change (w_db w2) with (remove_row (w_db w) h sz); lia| |done].
    2: { apply Forall_forall. intros c Hin. apply candidate_remove.
         - intros Heq. apply Hnh. rewrite <-Heq. apply list_elem_of_fmap. by exists c.
         - rewrite Forall_forall in Hcs. by apply Hcs. }
    split_and!; [done|done|by eapply collects_trans; [apply Hone|]|].
    destruct res as [s'|]; [|done]. destruct Hres as (He & Hu' & Hset & Hst & Hidle).
    split_and!; [by eapply evicts_trans|done|by intros _; apply Hset| |].
    + intros _. right.
      assert (size (objects (w_db w')) ≤ size (objects (remove_row (w_db w) h sz))) as Hle; [|lia].
      apply map_subseteq_size, (sh_rows _ _ (co_shrinks _ _ _ Hsh)).
    + by rewrite Hset.
Qed.

Lemma finish_spec d w held w' held' res :
  runs w held (finish d) w' held' res →
  w_now w' = w_now w ∧ w_db w' = w_db w ∧
  (dn_claims d = [] → claims (w_inflight w') = claims (w_inflight w)).
Proof.
  intros (r & w1 & held1 & Hs & Hr)%runs_request. cbn [op_step] in Hs.
  destruct Hs as (-> & gone & _ & _ & ->). apply runs_request in Hr as ([] & w2 & held2 & Hs & Hr).
  destruct Hs as [-> ->]. apply runs_ret_inv in Hr as (-> & -> & ->). simpl.
  split_and!; [done|done|]. by intros ->.
Qed.

(** Why a pass that succeeded stopped: usage is low enough; every row left is
    kept; or the rows that could go next, at most a batch of them, the least
    recently used, are all claimed. *)
Definition pass_stopped (low now : Z) (db : Db) (claimed : gmap string Kind) (exhausted : bool) : Prop :=
  (total_bytes db ≤ low ∧ exhausted = false)%Z ∨
  (exhausted = true ∧ ∀ h row, objects db !! h = Some row → kept_row db now h row) ∨
  (exhausted = false ∧ ∃ batch, batch ≠ [] ∧
    (∀ h, h ∈ batch → is_Some (claimed !! h) ∧ ∃ row, objects db !! h = Some row ∧ ¬ kept_row db now h row) ∧
    ∀ h row, objects db !! h = Some row → ¬ kept_row db now h row → h ∈ batch ∨
      length batch = 500 ∧ ∀ b brow, b ∈ batch → objects db !! b = Some brow →
        (r_last_accessed_at brow ≤ r_last_accessed_at row)%Z).

Lemma kept_row_stable db now h row : ¬ ¬ kept_row db now h row → kept_row db now h row.
Proof.
  intros Hn. destruct (decide (evictable_where db now PUSH_GRACE h row)) as [He|He]; [by apply evictable_kept in He|].
  unfold evictable_where in He. unfold kept_row.
  destruct (decide (set_Exists (λ r, reference_hash r.2 = h ∧ r.1 ≠ h) (object_refs db))) as [([a r] & ?)|Hr]; [left; by exists a, r|].
  destruct (decide (map_Exists (λ _ p, p_store_path_hash p = h ∧ pin_live now p) (pins db))) as [(n & p & Hp & Hh & Hl)|Hp].
  - right; left. exists n, p. split_and!; [done|done|]. intros t Ht. unfold pin_live in Hl. by rewrite Ht in Hl.
  - right; right. destruct (decide (r_pushed_at row < now - PUSH_GRACE)%Z) as [|Hge]; [by exfalso; apply He|].
    change PUSH_GRACE with (24 * 60 * 60)%Z in Hge. lia.
Qed.

(** A batch that is all claimed. *)
Lemma pass_stopped_claimed low now db claimed :
  evictable db BATCH now ≠ [] → Forall (λ c, is_Some (claimed !! c.1)) (evictable db BATCH now) →
  pass_stopped low now db claimed false.
Proof.
  intros Hne Hall. right; right. split; [done|]. exists (map fst (evictable db BATCH now)). split_and!.
  - by destruct (evictable db BATCH now).
  - intros h (c & -> & Hc)%list_elem_of_fmap. rewrite Forall_forall in Hall. split; [by apply Hall|].
    apply evictable_candidate in Hc as (row & Hrow & _ & He). exists row. split; [done|]. by apply evictable_kept.
  - intros h row Hrow He%evictable_kept. destruct (evictable_first db BATCH now h row Hrow He) as [?|[Hlen Hle]]; [by left|right].
    rewrite length_map. split; [done|]. intros b brow (c & -> & Hc)%list_elem_of_fmap. by apply Hle.
Qed.

Lemma evict_batch_idle low at_ candidates s w held w' held' s' :
  runs w held (evict_batch low at_ candidates s) w' held' (Ok s') →
  ps_settled s' = false → ps_deletion s' = ps_deletion s.
Proof.
  revert s w held. induction candidates as [|[h sz] cands IH]; intros s w held; cbn [evict_batch].
  { by intros (_ & _ & [= ->])%runs_ret_inv. }
  assert (Hset : ∀ cands s w held, ps_settled s = true →
    runs w held (evict_batch low at_ cands s) w' held' (Ok s') → ps_settled s' = true).
  { clear. intros cands. induction cands as [|[h sz] cands IH]; intros s w held Hs; cbn [evict_batch].
    { by intros (_ & _ & [= ->])%runs_ret_inv. }
    intros (c & w1 & held1 & _ & Hr)%runs_request. destruct c as [u|b]; [|(eapply IH; [|exact Hr]; done)].
    apply runs_bind in Hr as (freed & w2 & held2 & _ & Hr).
    destruct freed as [[freed|]|e]; [| |by apply runs_ret_inv in Hr as (_ & _ & [=])].
    - destruct (_ <=? low)%Z; [by apply runs_ret_inv in Hr as (_ & _ & [= ->])|(eapply IH; [|exact Hr]; done)].
    - apply runs_request in Hr as (? & ? & ? & _ & Hr). (eapply IH; [|exact Hr]; done). }
  intros (c & w1 & held1 & _ & Hr)%runs_request Hf. destruct c as [u|b]; [|by eapply IH].
  apply runs_bind in Hr as (freed & w2 & held2 & _ & Hr).
  destruct freed as [[freed|]|e]; [| |by apply runs_ret_inv in Hr as (_ & _ & [=])].
  - destruct (_ <=? low)%Z; [apply runs_ret_inv in Hr as (_ & _ & [= ->]); done|].
    apply Hset in Hr; [congruence|done].
  - apply runs_request in Hr as (? & ? & ? & _ & Hr). apply Hset in Hr; [congruence|done].
Qed.

Lemma evict_loop_spec fuel low usage result w held w' held' res :
  db_wf (w_db w) → usage = total_bytes (w_db w) → size (objects (w_db w)) < fuel →
  candidates_exhausted result = false →
  runs w held (evict_loop fuel low usage result) w' held' res →
  db_wf (w_db w') ∧ collects (w_now w) (w_db w) (w_db w') ∧
  match res with
  | Ok pass =>
      size (objects (w_db w)) + evicted result = size (objects (w_db w')) + evicted pass ∧
      (total_bytes (w_db w) + bytes_freed result = total_bytes (w_db w') + bytes_freed pass)%Z ∧
      pass_stopped low (w_now w) (w_db w') (claims (w_inflight w')) (candidates_exhausted pass)
  | Err _ => True
  end.
Proof.
  revert usage result w held. induction fuel as [|fuel IH]; intros usage result w held Hwf Hu Hfuel Hex; [lia|].
  cbn [evict_loop]. destruct (Z.leb_spec usage low) as [Hle|Hgt].
  { intros (-> & -> & ->)%runs_ret_inv. split_and!; [done|by apply collects_refl|done|done|].
    left. split; [lia|done]. }
  intros (at_ & w1 & held1 & Hs & Hr)%runs_request. cbn [op_step] in Hs. destruct Hs as (-> & -> & ->).
  apply runs_db_read in Hr as [Hr|(msg & Hr)].
  2: { apply runs_ret_inv in Hr as (-> & -> & ->). split_and!; [done|by apply collects_refl|done]. }
  destruct (evictable (w_db w) BATCH (w_now w)) as [|c cands] eqn:Hcands.
  { apply runs_ret_inv in Hr as (-> & -> & ->). split_and!; [done|by apply collects_refl|done|done|].
    right; left. split; [done|]. intros h row Hrow. apply kept_row_stable. rewrite <-evictable_kept.
    by apply (evictable_nil (w_db w) BATCH (w_now w) ltac:(done) Hcands). }
  apply runs_bind in Hr as (r & w2 & held2 & Hbatch & Hr).
  pose proof Hbatch as Hb.
  apply evict_batch_spec in Hbatch as (Hclk & Hwf2 & Hsh & Hres); [|done|done| |].
  2: { rewrite <-Hcands. apply Forall_forall. intros c' Hc'. by eapply evictable_candidate. }
  2: { rewrite <-Hcands. apply evictable_nodup. }
  destruct r as [s|e].
  2: { by apply runs_ret_inv in Hr as (-> & -> & ->). }
  destruct Hres as (He & Hu2 & _ & Hprog & Hidle).
  apply runs_bind in Hr as (r & w3 & held3 & Hfin & Hr).
  apply finish_spec in Hfin as (Hclk3 & Hdb3 & Hcl3). rewrite <-Hdb3 in *.
  destruct r as [[]|e]; [|by apply runs_ret_inv in Hr as (-> & -> & ->)].
  destruct (ps_settled s) eqn:Hset.
  - destruct (Hprog eq_refl) as [?|Hlt]; [done|].
    apply IH in Hr as (Hwf' & Hsh' & Hres); [|done|done|lia|by rewrite (ev_flag _ _ _ _ _ He)].
    rewrite Hclk3, Hclk in Hsh', Hres. split_and!; [done|by eapply collects_trans|].
    destruct res as [pass|]; [|done]. destruct Hres as (Hev & Hfr & Hstop).
    pose proof (ev_evicted _ _ _ _ _ He). pose proof (ev_freed _ _ _ _ _ He). cbn [ps_result] in *.
    split_and!; [lia|lia|done].
  - apply runs_ret_inv in Hr as (-> & -> & ->).
    destruct (Hidle eq_refl) as (Hdb & Hcl & HF).
    split_and!; [done|done|apply (ev_evicted _ _ _ _ _ He)|apply (ev_freed _ _ _ _ _ He)|].
    rewrite (ev_flag _ _ _ _ _ He), Hdb. cbn [ps_result]. rewrite Hex. apply pass_stopped_claimed; rewrite Hcands; [done|].
    rewrite Hcl3, Hcl; [done|]. by rewrite (evict_batch_idle _ _ _ _ _ _ _ _ _ Hb Hset).
Qed.

(** C24: A garbage-collection pass keeps the database well formed and only removes rows: each
    removed row had no pin that was still live, was last pushed over a day ago, and every row that
    referred to it is gone too. It accounts for every row and byte it removed, and when it succeeds
    it stops for one of three reasons: usage is at or below the low watermark; every row left is
    referred to by another, pinned, or pushed within the day; or the rows that could go next, five
    hundred of the least recently used or all there are, are each claimed by another task. *)
Theorem gc_run_frees_to_low_watermark fuel cfg w held w' held' res :
  db_wf (w_db w) → size (objects (w_db w)) < fuel →
  runs w held (gc_run fuel cfg) w' held' res →
  db_wf (w_db w') ∧ shrinks (w_db w) (w_db w') ∧
  (∀ h row, objects (w_db w) !! h = Some row → objects (w_db w') !! h = None →
    (∀ name p, pins (w_db w) !! name = Some p → p_store_path_hash p = h →
       ∃ t, p_expires_at p = Some t ∧ (t ≤ w_now w)%Z) ∧
    (r_pushed_at row < w_now w - 24 * 60 * 60)%Z ∧
    ∀ referrer ref, (referrer, ref) ∈ object_refs (w_db w) → reference_hash ref = h →
      objects (w_db w') !! referrer = None) ∧
  match res with
  | Ok pass =>
      size (objects (w_db w)) = size (objects (w_db w')) + evicted pass ∧
      (total_bytes (w_db w) = total_bytes (w_db w') + bytes_freed pass)%Z ∧
      pass_stopped (gc_low cfg) (w_now w) (w_db w') (claims (w_inflight w')) (candidates_exhausted pass)
  | Err _ => True
  end.
Proof.
  intros Hwf Hfuel Hrun.
  assert (H : db_wf (w_db w') ∧ collects (w_now w) (w_db w) (w_db w') ∧
    match res with
    | Ok pass => size (objects (w_db w)) = size (objects (w_db w')) + evicted pass ∧
        (total_bytes (w_db w) = total_bytes (w_db w') + bytes_freed pass)%Z ∧
        pass_stopped (gc_low cfg) (w_now w) (w_db w') (claims (w_inflight w')) (candidates_exhausted pass)
    | Err _ => True
    end).
  { revert Hrun. unfold gc_run, evict.
    assert (Hrec : (reconcile_total_bytes (w_db w)).1 = w_db w).
    { unfold reconcile_total_bytes. simpl. rewrite <-(wf_total _ Hwf). by destruct (w_db w). }
    assert (Hw : with_db (w_db w) w = w) by by destruct w.
    intros [Hr|(msg & w1 & Hw1 & Hr)]%runs_db_write.
    - rewrite Hrec, Hw in Hr. apply evict_loop_spec in Hr; [| |symmetry; apply Hwf|done|done]; [|done].
      destruct Hr as (? & ? & Hres). split_and!; [done|done|]. destruct res as [pass|]; [|done].
      simpl in Hres. destruct Hres as (? & ? & ?). split_and!; [lia|lia|done].
    - assert (w1 = w) as -> by (destruct Hw1 as [-> | ->]; [done|by rewrite Hrec]).
      apply runs_ret_inv in Hr as (-> & -> & ->). split_and!; [done|by apply collects_refl|done]. }
  destruct H as (Hwf' & [Hsh Hgo] & Hres). split_and!; [done|done| |done].
  intros h row Hrow Hgone. destruct (Hgo h row Hrow Hgone) as [Hp Ht]. split_and!; [done|done|].
  intros referrer ref Hin Hh. apply eq_None_not_Some. intros Hpres.
  destruct (sh_closed _ _ Hsh referrer h Hpres) as [? ?]; [by exists ref|by exists row|congruence].
Qed.

(** A pass over the example: the root goes, then the leaf it freed. *)
Definition example_world : World := mkWorld example_db ∅ inflight_new 1000000.

Lemma gc_run_frees_to_low_watermark_witness :
  ∃ w' held' res, runs example_world ∅ (gc_run 4 (mkGcLimits 20 6 0)) w' held' res ∧
    db_wf (w_db w') ∧ shrinks example_db (w_db w').
Proof.
  destruct (runs_total example_world ∅ (gc_run 4 (mkGcLimits 20 6 0))) as (w' & held' & res & Hr).
  exists w', held', res. split; [exact Hr|].
  pose proof (gc_run_frees_to_low_watermark 4 (mkGcLimits 20 6 0) example_world ∅ w' held' res
    example_db_wf ltac:(vm_compute; lia) Hr) as (? & ? & _). by split.
Defined.

Lemma evict_loop_fuel fuel fuel' low usage result w held w' held' res :
  db_wf (w_db w) → usage = total_bytes (w_db w) →
  size (objects (w_db w)) < fuel → size (objects (w_db w)) < fuel' →
  runs w held (evict_loop fuel low usage result) w' held' res →
  runs w held (evict_loop fuel' low usage result) w' held' res.
Proof.
  revert fuel' usage result w held.
  induction fuel as [|fuel IH]; intros fuel' usage result w held Hwf Hu Hf Hf'; [lia|].
  destruct fuel' as [|fuel']; [lia|]. cbn [evict_loop].
  destruct (Z.leb_spec usage low) as [Hle|Hgt]; [done|].
  intros (at_ & w1 & held1 & Hs & Hr)%runs_request. econstructor; [exact Hs|].
  cbn [op_step] in Hs. destruct Hs as (-> & -> & ->).
  apply runs_bind in Hr as (r & w1 & held1 & Hread & Hr). apply runs_bind.
  exists r, w1, held1. split; [done|].
  apply runs_db_read_inv in Hread as (-> & -> & Hread).
  destruct r as [cands|e]; [|done].
  assert (cands = evictable (w_db w) BATCH (w_now w)) as Hcands by (destruct Hread as [[= ->]|[? ?]]; done).
  destruct cands as [|c cands]; [done|].
  apply runs_bind in Hr as (r & w2 & held2 & Hbatch & Hr). apply runs_bind.
  exists r, w2, held2. split; [done|].
  destruct r as [s|e]; [|done].
  apply evict_batch_spec in Hbatch as (_ & Hwf2 & _ & _ & Hu2 & _ & Hprog & _); [|done|done| |].
  2: { rewrite Hcands. apply Forall_forall. intros c' Hc'. by eapply evictable_candidate. }
  2: { rewrite Hcands. apply evictable_nodup. }
  apply runs_bind in Hr as (r & w3 & held3 & Hfin & Hr). apply runs_bind.
  exists r, w3, held3. split; [done|]. apply finish_spec in Hfin as (_ & Hdb3 & _).
  destruct r as [[]|e]; [|done]. destruct (ps_settled s); [|done].
  destruct (Hprog eq_refl) as [?|Hlt]; [done|]. apply IH; rewrite ?Hdb3; [done..|lia|lia|done].
Qed.

(** The eviction loop needs no more rounds than there are rows: every fuel above the number of rows
    gives the same executions. *)
Theorem gc_run_terminates fuel cfg w held w' held' res :
  db_wf (w_db w) → size (objects (w_db w)) < fuel →
  runs w held (gc_run fuel cfg) w' held' res ↔
  runs w held (gc_run (S (size (objects (w_db w)))) cfg) w' held' res.
Proof.
  intros Hwf Hf. unfold gc_run, evict.
  assert (Hrec : with_db (reconcile_total_bytes (w_db w)).1 w = w).
  { unfold reconcile_total_bytes. simpl. rewrite <-(wf_total _ Hwf). by destruct w as [[] ? ? ?]. }
  assert (Hshared : ∀ f1 f2, size (objects (w_db w)) < f1 → size (objects (w_db w)) < f2 →
    runs w held (gc_run f1 cfg) w' held' res → runs w held (gc_run f2 cfg) w' held' res).
  { intros f1 f2 H1 H2 (r & w1 & held1 & Hr & Hk)%runs_bind. apply runs_bind.
    exists r, w1, held1. split; [done|]. destruct r as [usage|e]; [|done].
    apply (runs_db_write w held reconcile_total_bytes Ret) in Hr as [Hr|(msg & w2 & _ & Hr)];
      apply runs_ret_inv in Hr as (-> & -> & [=]). subst usage. rewrite Hrec in *.
    eapply evict_loop_fuel; [done|by symmetry; apply Hwf| | |exact Hk]; done. }
  split; apply Hshared; lia.
Qed.

Lemma gc_run_terminates_witness :
  ∃ w' held' res, runs example_world ∅ (gc_run 9 (mkGcLimits 20 6 0)) w' held' res.
Proof.
  destruct (runs_total example_world ∅ (gc_run 4 (mkGcLimits 20 6 0))) as (w' & held' & res & Hr).
  exists w', held', res.
  apply (gc_run_terminates 9 _ example_world ∅ w' held' res example_db_wf); [vm_compute; lia|].
  exact Hr.
Defined.
