(* ===== verification/Fsck.v ===== *)
(** * Fsck: the audit of rows against blobs, and its repair

    [crates/garret-pusher/src/fsck.rs] and the [Repair] and [FsckReport] types
    of [crates/garret-common/src/admin.rs]. The in-flight set is looked at once
    for the rows and once for the orphans; the code locks it for each path.
    [runs_listing] fixes what the bucket's listing shows, so that [reports] says
    exactly which rows and blobs a report must and must not name. *)

From S2P Require Import Prelude Text Common InFlight Db Prog Storage World.

(** ** Data *)

Inductive Repair := Repair_No | Repair_Live | Repair_Quiesced.
#[export] Instance Repair_eq_dec : EqDecision Repair.
Proof. solve_decision. Defined.

Inductive Drift :=
  | Drift_Dangling
  | Drift_SizeMismatch (db s3 : Z).

#[export] Instance Drift_eq_dec : EqDecision Drift.
Proof. solve_decision. Defined.

Record Finding := mkFinding {
  f_hash : string;
  f_name : string;
  f_listed_at : Z;
  f_drift : Drift;
}.

Record FsckRow := mkFsckRow {
  fr_store_path_hash : string;
  fr_name : string;
}.

Record FsckSizeMismatch := mkMismatch {
  fm_store_path_hash : string;
  fm_name : string;
  fm_db_size : Z;
  fm_s3_size : Z;
}.

Record FsckReport := mkReport {
  rp_dangling : list FsckRow;
  rp_size_mismatches : list FsckSizeMismatch;
  rp_orphans : list string;
  rp_repaired : nat;
  rp_quiesce_drained : option bool;
}.

(** [FsckReport::ok]. *)
Definition report_ok (r : FsckReport) : bool :=
  match rp_dangling r, rp_size_mismatches r with
  | [], [] => negb (bool_decide (rp_quiesce_drained r = Some false))
  | _, _ => false
  end.

(** ** Classification *)

(** The listing as a [HashMap]: a repeated hash keeps the last size. *)
Definition s3_sizes (blobs : list Blob) : gmap string Z :=
  foldl (λ m b, <[bl_hash b := bl_size b]> m) ∅ blobs.

Definition classify_row (sizes : gmap string Z) (in_flight : State) (grace now : Z)
    (verify_sizes : bool) (row : ObjectBrief) : option Finding :=
  let hash := b_store_path_hash row in
  if inflight_contains in_flight hash || (now - b_created_at row <? grace)%Z then None
  else
    let found := λ drift, Some (mkFinding hash (b_name row) (b_created_at row) drift) in
    match sizes !! hash with
    | None => found Drift_Dangling
    | Some s3 =>
        if verify_sizes && negb (s3 =? b_file_size row)%Z
        then found (Drift_SizeMismatch (b_file_size row) s3)
        else None
    end.

Definition classify_rows (db_rows : list ObjectBrief) (blobs : list Blob) (in_flight : State)
    (grace now : Z) (verify_sizes : bool) : list Finding :=
  omap (classify_row (s3_sizes blobs) in_flight grace now verify_sizes) db_rows.

Fixpoint to_wire (findings : list Finding) : list FsckRow * list FsckSizeMismatch :=
  match findings with
  | [] => ([], [])
  | f :: findings =>
      let '(dangling, mismatches) := to_wire findings in
      match f_drift f with
      | Drift_Dangling => (mkFsckRow (f_hash f) (f_name f) :: dangling, mismatches)
      | Drift_SizeMismatch db s3 =>
          (dangling, mkMismatch (f_hash f) (f_name f) db s3 :: mismatches)
      end
  end.

(** ** Repair *)

(** One finding: its row goes only while it is the row that was listed. *)
Definition repair_one (f : Finding) (db : Db) : Db * bool :=
  if bool_decide (created_at db (f_hash f) = Some (f_listed_at f)) then
    let '(db, freed) := delete_object db (f_hash f) in
    (db, bool_decide (is_Some freed))
  else (db, false).

Fixpoint repair_loop (findings : list Finding) (repaired : nat) : Handler (Result nat Failure) :=
  match findings with
  | [] => Ret (Ok repaired)
  | f :: findings =>
      do? deleted <- db_write (repair_one f);
      repair_loop findings (if deleted : bool then S repaired else repaired)
  end.
Definition apply_repair (findings : list Finding) : Handler (Result nat Failure) :=
  repair_loop findings 0.

(** ** The pass *)

(** The body of [run] once the gate, if any, is drained. *)
Definition fsck_body (grace : Z) (verify_sizes : bool) (repair : Repair) (drained : option bool)
    : Handler (Result FsckReport Failure) :=
  do? blobs <- request Op_ListBlobs;
  do? db_rows <- db_read all_objects_brief;
  do now <- request Op_Now;
  do in_flight <- request Op_InFlight;
  let findings := classify_rows db_rows blobs in_flight grace now verify_sizes in
  let '(dangling, size_mismatches) := to_wire findings in
  let known := list_to_set (map b_store_path_hash db_rows) in
  do in_flight <- request Op_InFlight;
  let orphans := map key_for (orphan_hashes blobs known in_flight grace) in
  do? repaired <-
    (if negb (bool_decide (repair = Repair_No)) && negb (bool_decide (drained = Some false))
     then apply_repair findings else Ret (Ok 0));
  Ret (Ok (mkReport dangling size_mismatches orphans repaired drained)).

(** [run]; the quiesce guard is dropped however the body returns. *)
Definition fsck_run (grace : Z) (verify_sizes : bool) (repair : Repair)
    : Handler (Result FsckReport Failure) :=
  match repair with
  | Repair_Quiesced =>
      do _ <- request Op_Quiesce;
      do drained <- request Op_Drain;
      do report <- fsck_body grace verify_sizes repair (Some drained);
      do _ <- request Op_DropGuard;
      Ret report
  | _ => fsck_body grace verify_sizes repair None
  end.

(** ** What the pass finds *)

Lemma s3_sizes_None blobs h : s3_sizes blobs !! h = None ↔ ∀ b, b ∈ blobs → bl_hash b ≠ h.
Proof.
  unfold s3_sizes. induction blobs as [|b blobs IH] using rev_ind.
  - split; [intros _ b []%elem_of_nil|done].
  - rewrite foldl_app. simpl. rewrite lookup_insert_None, IH. setoid_rewrite elem_of_app.
    setoid_rewrite list_elem_of_singleton. naive_solver.
Qed.

(** The size a listing gives a path: that of its last entry for it. *)
Definition listed_size (blobs : list Blob) (h : string) (size : Z) : Prop :=
  ∃ before b after, blobs = before ++ b :: after ∧ bl_hash b = h ∧ bl_size b = size ∧
    ∀ b', b' ∈ after → bl_hash b' ≠ h.

Lemma s3_sizes_Some blobs h s : s3_sizes blobs !! h = Some s ↔ listed_size blobs h s.
Proof.
  unfold s3_sizes, listed_size. induction blobs as [|b blobs IH] using rev_ind.
  { split; [done|]. by intros ([] & ? & ? & ? & _). }
  rewrite foldl_app. simpl. rewrite lookup_insert_Some, IH. split.
  - intros [[<- <-]|[Hne (pre & c & post & -> & Hc & Hs & Hpost)]].
    + exists blobs, b, []. split_and!; [done..|]. by intros b' []%elem_of_nil.
    + exists pre, c, (post ++ [b]). split_and!; [by rewrite <-app_assoc|done|done|].
      intros b' [Hb|Hb]%elem_of_app; [by apply Hpost|]. by apply list_elem_of_singleton in Hb as ->.
  - intros (pre & c & post & Heq & Hc & Hs & Hpost).
    destruct post as [|d post _] using rev_ind.
    + apply app_inj_tail in Heq as [-> ->]. by left.
    + rewrite app_comm_cons, app_assoc in Heq. apply app_inj_tail in Heq as [-> ->]. right. split.
      * apply Hpost. apply elem_of_app. right. by apply list_elem_of_singleton.
      * exists pre, c, post. split_and!; [done..|]. intros b' Hb. apply Hpost, elem_of_app. by left.
Qed.

(** How [row] disagrees with a listing. *)
Definition drifted (blobs : list Blob) (verify_sizes : bool) (row : ObjectBrief) (d : Drift) : Prop :=
  match d with
  | Drift_Dangling => ∀ b, b ∈ blobs → bl_hash b ≠ b_store_path_hash row
  | Drift_SizeMismatch db s3 =>
      verify_sizes = true ∧ db = b_file_size row ∧ s3 ≠ db ∧
      s3_sizes blobs !! b_store_path_hash row = Some s3
  end.

Lemma classify_rows_elem rows blobs in_flight grace now vs f :
  f ∈ classify_rows rows blobs in_flight grace now vs ↔
  ∃ row, row ∈ rows ∧ claims in_flight !! b_store_path_hash row = None ∧
    (grace ≤ now - b_created_at row)%Z ∧
    f = mkFinding (b_store_path_hash row) (b_name row) (b_created_at row) (f_drift f) ∧
    drifted blobs vs row (f_drift f).
Proof.
  unfold classify_rows. rewrite list_elem_of_omap.
  assert (∀ row, classify_row (s3_sizes blobs) in_flight grace now vs row = Some f ↔
    claims in_flight !! b_store_path_hash row = None ∧ (grace ≤ now - b_created_at row)%Z ∧
    f = mkFinding (b_store_path_hash row) (b_name row) (b_created_at row) (f_drift f) ∧
    drifted blobs vs row (f_drift f)) as Hrow.
  { intros row. unfold classify_row, inflight_contains. set (h := b_store_path_hash row).
    destruct (claims in_flight !! h) as [k|]; simpl; [split; [done|naive_solver]|].
    destruct (Z.ltb_spec (now - b_created_at row) grace); [split; [done|intros (_ & ? & _); lia]|].
    destruct (s3_sizes blobs !! h) as [s3|] eqn:Hs.
    - assert (¬ ∀ b, b ∈ blobs → bl_hash b ≠ h) as Hnd.
      { intros Hn%s3_sizes_None. by rewrite Hn in Hs. }
      destruct vs; simpl; [destruct (Z.eqb_spec s3 (b_file_size row)) as [->|Hne]; simpl|].
      + split; [done|]. intros (_ & _ & _ & Hd). exfalso. destruct (f_drift f); simpl in Hd; [done|].
        fold h in Hd. rewrite Hs in Hd. naive_solver.
      + split.
        * intros [= <-]. simpl. fold h. done.
        * intros (_ & _ & -> & Hd). destruct (f_drift f); simpl in Hd; [done|].
          fold h in Hd. rewrite Hs in Hd. naive_solver.
      + split; [done|]. intros (_ & _ & _ & Hd). exfalso. destruct (f_drift f); naive_solver.
    - split.
      + intros [= <-]. simpl. split_and!; [done|lia|done|]. by apply s3_sizes_None.
      + intros (_ & _ & -> & Hd). destruct (f_drift f); [done|]. simpl in Hd. fold h in Hd.
        rewrite Hs in Hd. naive_solver. }
  by setoid_rewrite Hrow.
Qed.

Lemma classify_rows_nodup rows blobs in_flight grace now vs :
  NoDup (map b_store_path_hash rows) →
  NoDup (map f_hash (classify_rows rows blobs in_flight grace now vs)).
Proof.
  unfold classify_rows. induction rows as [|row rows IH]; [constructor|]. cbn [map].
  intros [Hn Hnd]%NoDup_cons. cbn [omap list_omap].
  destruct (classify_row _ _ _ _ _ row) as [f|] eqn:Hf; [|by apply IH]. cbn [map]. constructor; [|by apply IH].
  assert (f_hash f = b_store_path_hash row) as ->.
  { unfold classify_row in Hf. case_hyps Hf; done. }
  intros (f' & Heq & Hin)%list_elem_of_fmap. apply list_elem_of_omap in Hin as (row' & Hin & Hf').
  apply Hn. apply list_elem_of_fmap. exists row'. split; [|done]. rewrite Heq.
  unfold classify_row in Hf'. case_hyps Hf'; done.
Qed.

Lemma all_objects_brief_elem db row :
  row ∈ all_objects_brief db ↔
  ∃ r, objects db !! b_store_path_hash row = Some r ∧ row = brief_from_row (b_store_path_hash row, r).
Proof.
  unfold all_objects_brief. rewrite list_elem_of_fmap. split.
  - intros ([h r] & -> & Hin%elem_of_map_to_list). by exists r.
  - intros (r & Hr & Heq). eexists. split; [exact Heq|]. by apply elem_of_map_to_list.
Qed.

Lemma all_objects_brief_nodup db : NoDup (map b_store_path_hash (all_objects_brief db)).
Proof. unfold all_objects_brief. rewrite map_map. apply NoDup_fst_map_to_list. Qed.

Lemma repair_one_spec f db :
  db_wf db →
  db_wf (repair_one f db).1 ∧
  (∀ h, objects (repair_one f db).1 !! h =
    if decide (h = f_hash f ∧ created_at db h = Some (f_listed_at f)) then None else objects db !! h) ∧
  (repair_one f db).2 = bool_decide (created_at db (f_hash f) = Some (f_listed_at f)).
Proof.
  intros Hwf. unfold repair_one. case_bool_decide as Hc.
  - pose proof (db_wf_delete_object db (f_hash f) Hwf) as Hwf'. unfold delete_object, file_size in *.
    unfold created_at in Hc. destruct (objects db !! f_hash f) as [r|] eqn:Hr; [|done]. simpl in *.
    split_and!; [done| |done]. intros h. rewrite lookup_delete.
    destruct (decide (f_hash f = h)) as [<-|Hne].
    + rewrite decide_True; [done|]. unfold created_at. rewrite Hr. done.
    + rewrite decide_False; [done|]. naive_solver.
  - split_and!; [done| |done]. intros h. rewrite decide_False; [done|]. intros [-> ?]. done.
Qed.

Lemma repair_loop_spec findings n w held w' held' res :
  db_wf (w_db w) → NoDup (map f_hash findings) →
  Forall (λ f, created_at (w_db w) (f_hash f) = Some (f_listed_at f)) findings →
  runs w held (repair_loop findings n) w' held' res →
  db_wf (w_db w') ∧ w_blobs w' = w_blobs w ∧ w_inflight w' = w_inflight w ∧
  (∀ h, h ∉ map f_hash findings → objects (w_db w') !! h = objects (w_db w) !! h) ∧
  match res with
  | Ok m => m = n + length findings ∧ ∀ h, h ∈ map f_hash findings → objects (w_db w') !! h = None
  | Err _ => True
  end.
Proof.
  revert n w held. induction findings as [|f fs IH]; intros n w held Hwf Hnd Hf; cbn [repair_loop].
  { intros (-> & -> & ->)%runs_ret_inv. split_and!; try done. intros h []%elem_of_nil. }
  cbn [map] in *. apply NoDup_cons in Hnd as [Hn Hnd]. apply Forall_cons in Hf as [Hf Hfs].
  destruct (repair_one_spec f (w_db w) Hwf) as (Hwf1 & Hobj & Hres).
  assert (Hsame : ∀ h, h ∉ f_hash f :: map f_hash fs →
    objects (repair_one f (w_db w)).1 !! h = objects (w_db w) !! h).
  { intros h Hh. rewrite Hobj, decide_False; [done|]. intros [-> _]. set_solver. }
  intros [Hr|(msg & w1 & Hw1 & Hr)]%runs_db_write.
  2: { apply runs_ret_inv in Hr as (-> & _ & ->).
       destruct Hw1 as [-> | ->]; split_and!; try done. }
  rewrite Hres, bool_decide_eq_true_2 in Hr by done.
  apply IH in Hr as (Hwf' & Hbl & Hst & Hother & Hok); [|done|done|].
  - split_and!; [done|done|done| |].
    + intros h Hh. rewrite Hother by set_solver. by apply Hsame.
    + destruct res as [m|]; [|done]. destruct Hok as [-> Hgone]. split; [simpl; lia|].
      intros h [->|Hh]%elem_of_cons; [|by apply Hgone].
      rewrite Hother by done. simpl. rewrite Hobj, decide_True; done.
  - rewrite Forall_forall in Hfs |- *. intros g Hg. pose proof (Hfs g Hg) as Hc. simpl. unfold created_at in *. simpl.
    rewrite Hobj, decide_False; [done|]. intros [Heq _]. apply Hn. rewrite <-Heq.
    apply list_elem_of_fmap. by exists g.
Qed.

Lemma to_wire_dangling findings h name :
  mkFsckRow h name ∈ (to_wire findings).1 ↔
  ∃ f, f ∈ findings ∧ f_hash f = h ∧ f_name f = name ∧ f_drift f = Drift_Dangling.
Proof.
  induction findings as [|g fs IH]; cbn [to_wire]; [set_solver|]. destruct (to_wire fs) as [d m]. simpl in IH.
  setoid_rewrite elem_of_cons. destruct (f_drift g) eqn:Hg; simpl; rewrite ?elem_of_cons, IH; split;
    [intros [[= -> ->]|(f & Hf)]|intros (f & [->|Hf] & Hs)|intros (f & Hf)|intros (f & [->|Hf] & Hs)]; eauto 10.
  - exists f. tauto.
  - left. destruct Hs as (<- & <- & _). done.
  - exists f. tauto.
  - destruct Hs as (_ & _ & Hs). by rewrite Hg in Hs.
Qed.

Lemma to_wire_mismatch findings h name db s3 :
  mkMismatch h name db s3 ∈ (to_wire findings).2 ↔
  ∃ f, f ∈ findings ∧ f_hash f = h ∧ f_name f = name ∧ f_drift f = Drift_SizeMismatch db s3.
Proof.
  induction findings as [|g fs IH]; cbn [to_wire]; [set_solver|]. destruct (to_wire fs) as [d m]. simpl in IH.
  setoid_rewrite elem_of_cons. destruct (f_drift g) eqn:Hg; simpl; rewrite ?elem_of_cons, IH; split;
    [intros (f & Hf)|intros (f & [->|Hf] & Hs)|intros [[= -> -> -> ->]|(f & Hf)]|intros (f & [->|Hf] & Hs)]; eauto 10.
  - exists f. tauto.
  - destruct Hs as (_ & _ & Hs). by rewrite Hg in Hs.
  - exists f. tauto.
  - left. destruct Hs as (<- & <- & Hs). rewrite Hg in Hs. by injection Hs as -> ->.
Qed.

(** The paths a report has findings on. *)
Definition found_paths (dangling : list FsckRow) (size_mismatches : list FsckSizeMismatch) : list string :=
  map fr_store_path_hash dangling ++ map fm_store_path_hash size_mismatches.

Lemma to_wire_paths findings :
  found_paths (to_wire findings).1 (to_wire findings).2 ≡ₚ map f_hash findings.
Proof.
  unfold found_paths. induction findings as [|g fs IH]; [done|]. cbn [to_wire]. destruct (to_wire fs) as [d m].
  simpl in IH. destruct (f_drift g); simpl; rewrite <-IH; [done|]. by rewrite Permutation_middle.
Qed.

(** *** Runs with the listing known *)

Definition lists (blobs : list Blob) {B} (op : Op B) : B → Prop :=
  match op in Op B return B → Prop with Op_ListBlobs => λ r, r = Ok blobs | _ => λ _, True end.

(** A handler alone, as [runs], when the bucket's listing shows [blobs]. *)
Inductive runs_listing {A} (blobs : list Blob) :
    World → gset string → Handler A → World → gset string → A → Prop :=
  | runs_listing_ret w held a : runs_listing blobs w held (Ret a) w held a
  | runs_listing_step {B} w held (op : Op B) k r w1 held1 w2 held2 a :
      op_step w held op r w1 held1 → lists blobs op r →
      runs_listing blobs w1 held1 (k r) w2 held2 a →
      runs_listing blobs w held (Step op k) w2 held2 a.

Lemma runs_listing_runs {A} blobs w held (p : Handler A) w' held' a :
  runs_listing blobs w held p w' held' a → runs w held p w' held' a.
Proof. induction 1; [constructor|by econstructor]. Qed.

Lemma runs_listing_request {A B} blobs w held (op : Op B) (k : B → Handler A) w2 held2 a :
  runs_listing blobs w held (do r <- request op; k r) w2 held2 a →
  ∃ r w1 held1, op_step w held op r w1 held1 ∧ lists blobs op r ∧ runs_listing blobs w1 held1 (k r) w2 held2 a.
Proof.
  change (do r <- request op; k r) with (Step op k). intros H.
  refine (match H in runs_listing _ w held p w2 held2 a return
            match p with
            | Ret _ => True
            | Step op k => ∃ r w1 held1, op_step w held op r w1 held1 ∧ lists blobs op r ∧
                runs_listing blobs w1 held1 (k r) w2 held2 a
            end with
          | runs_listing_ret _ _ _ _ => I
          | runs_listing_step _ w held op k r w1 held1 w2 held2 a Hs Hl Hr => _
          end).
  eauto 10.
Qed.

Lemma runs_listing_bind {A B} blobs w held (p : Handler A) (f : A → Handler B) w2 held2 b :
  runs_listing blobs w held (prog_bind p f) w2 held2 b →
  ∃ a w1 held1, runs_listing blobs w held p w1 held1 a ∧ runs_listing blobs w1 held1 (f a) w2 held2 b.
Proof.
  revert w held. induction p as [a|C op k IH]; intros w held; cbn [prog_bind].
  - intros Hr. exists a, w, held. split; [constructor|done].
  - intros (r & w1 & held1 & Hs & Hl & Hr)%(runs_listing_request blobs w held op).
    apply IH in Hr as (a & w3 & held3 & H1 & H2). exists a, w3, held3. split; [by econstructor|done].
Qed.

(** A handler that never lists the bucket. *)
Fixpoint listless {A} (p : Handler A) : Prop :=
  match p with Ret _ => True | Step op k => (∀ blobs r, lists blobs op r) ∧ ∀ r, listless (k r) end.

Lemma listless_runs {A} blobs w held (p : Handler A) w' held' a :
  listless p → runs w held p w' held' a → runs_listing blobs w held p w' held' a.
Proof.
  intros Hp Hr. induction Hr as [|B w held op k r w1 held1 w2 held2 a Hs Hr IH]; [constructor|].
  destruct Hp as [Hop Hk]. econstructor; [done|apply Hop|]. by apply IH.
Qed.

Lemma repair_loop_listless findings n : listless (repair_loop findings n).
Proof.
  revert n. induction findings as [|f fs IH]; intros n; cbn [repair_loop]; [done|]. split; [done|].
  intros [deleted|e]; [apply IH|done].
Qed.

Lemma fsck_body_lists grace vs repair drained w held w' held' report :
  runs w held (fsck_body grace vs repair drained) w' held' (Ok report) →
  ∃ blobs, runs_listing blobs w held (fsck_body grace vs repair drained) w' held' (Ok report).
Proof.
  unfold fsck_body. intros (blobs & w1 & held1 & Hs & Hr)%runs_request.
  destruct blobs as [blobs|e]; [|by apply runs_ret_inv in Hr as (_ & _ & [=])].
  exists blobs. eapply (runs_listing_step _ _ _ Op_ListBlobs); [exact Hs|done|]. eapply listless_runs; [|exact Hr].
  split; [done|]. intros [db_rows|e]; [|done]. split; [done|]. intros now. split; [done|]. intros st. cbn [prog_bind].
  destruct (to_wire (classify_rows db_rows blobs st grace now vs)) as [dangling mismatches].
  split; [done|]. intros st'. cbn [prog_bind].
  assert (Hb : ∀ A (p : Handler A) B (f : A → Handler B), listless p → (∀ a, listless (f a)) → listless (prog_bind p f)).
  { intros A p B f Hp Hf. induction p as [a|C op k IH]; [apply Hf|]. destruct Hp as [Hop Hk]. split; [done|]. intros r. by apply IH. }
  apply Hb; [|by intros []]. case_match; [apply repair_loop_listless|done].
Qed.

(** A pass that reports has seen one listing. *)
Lemma fsck_run_lists grace vs repair w held w' held' report :
  runs w held (fsck_run grace vs repair) w' held' (Ok report) →
  ∃ blobs, runs_listing blobs w held (fsck_run grace vs repair) w' held' (Ok report).
Proof.
  destruct repair; cbn [fsck_run]; [apply fsck_body_lists..|].
  intros ([] & w1 & held1 & H1 & Hr)%runs_request. apply runs_request in Hr as (drained & w2 & held2 & H2 & Hr).
  apply runs_bind in Hr as (rep & w3 & held3 & Hbody & Hr).
  assert (rep = Ok report) as ->.
  { apply runs_request in Hr as (? & ? & ? & _ & Hr). by apply runs_ret_inv in Hr as (_ & _ & <-). }
  apply fsck_body_lists in Hbody as [blobs Hbody]. exists blobs.
  econstructor; [exact H1|done|]. econstructor; [exact H2|done|].
  assert (Hgen : ∀ A (p : Handler A) B (f : A → Handler B) w held w1 held1 a w2 held2 b,
    runs_listing blobs w held p w1 held1 a → runs_listing blobs w1 held1 (f a) w2 held2 b →
    runs_listing blobs w held (prog_bind p f) w2 held2 b).
  { intros A p B f v h v1 h1 a v2 h2 b Hp Hf. induction Hp; [done|]. cbn [prog_bind]. econstructor; eauto. }
  eapply Hgen; [exact Hbody|]. eapply listless_runs; [|exact Hr]. done.
Qed.

(** ** What a report says *)

(** Old enough, and nobody is at work on it. *)
Definition auditable (w : World) (grace : Z) (h : string) (row : Row) : Prop :=
  objects (w_db w) !! h = Some row ∧ claims (w_inflight w) !! h = None ∧
  (grace ≤ w_now w - r_created_at row)%Z.

(** The report of a pass over [w] that was shown [blobs]. *)
Record reports (blobs : list Blob) (grace : Z) (verify_sizes : bool) (w : World) (rp : FsckReport) : Prop := {
  rs_dangling : ∀ h name, mkFsckRow h name ∈ rp_dangling rp ↔
    ∃ row, auditable w grace h row ∧ r_name row = name ∧ ∀ b, b ∈ blobs → bl_hash b ≠ h;
  rs_mismatched : ∀ h name db_size s3_size,
    mkMismatch h name db_size s3_size ∈ rp_size_mismatches rp ↔
    verify_sizes = true ∧ ∃ row, auditable w grace h row ∧ r_name row = name ∧
      r_file_size row = db_size ∧ s3_size ≠ db_size ∧ listed_size blobs h s3_size;
  rs_orphans : ∀ key, key ∈ rp_orphans rp ↔
    ∃ b, b ∈ blobs ∧ key = key_for (bl_hash b) ∧ objects (w_db w) !! bl_hash b = None ∧
      claims (w_inflight w) !! bl_hash b = None ∧ (grace ≤ bl_age b)%Z;
  rs_once : NoDup (found_paths (rp_dangling rp) (rp_size_mismatches rp));
}.

Lemma auditable_row w blobs grace vs h name d :
  (∃ f, f ∈ classify_rows (all_objects_brief (w_db w)) blobs (w_inflight w) grace (w_now w) vs ∧
    f_hash f = h ∧ f_name f = name ∧ f_drift f = d) ↔
  ∃ row, auditable w grace h row ∧ r_name row = name ∧ drifted blobs vs (brief_from_row (h, row)) d.
Proof.
  setoid_rewrite classify_rows_elem. setoid_rewrite all_objects_brief_elem. unfold auditable. split.
  - intros (f & (b & (r & Hr & Hb) & Hcl & Hage & Hf & Hd) & <- & <- & <-). exists r.
    rewrite Hf. cbn [f_hash f_name f_drift]. rewrite Hb in Hage |- *. simpl in *. rewrite <-Hb. done.
  - intros (r & (Hr & Hcl & Hage) & <- & Hd). exists (mkFinding h (r_name r) (r_created_at r) d).
    split; [|done]. exists (brief_from_row (h, r)). simpl. split_and!; try done. by exists r.
Qed.

Lemma reports_classified blobs grace vs w dangling mismatches repaired drained known :
  to_wire (classify_rows (all_objects_brief (w_db w)) blobs (w_inflight w) grace (w_now w) vs) =
    (dangling, mismatches) →
  known = list_to_set (map b_store_path_hash (all_objects_brief (w_db w))) →
  reports blobs grace vs w (mkReport dangling mismatches
    (map key_for (orphan_hashes blobs known (w_inflight w) grace)) repaired drained).
Proof.
  intros Hwire ->. split; cbn [rp_dangling rp_size_mismatches rp_orphans].
  - intros h name. change dangling with (dangling, mismatches).1.
    rewrite <-Hwire, to_wire_dangling, auditable_row. done.
  - intros h name db s3. change mismatches with (dangling, mismatches).2.
    rewrite <-Hwire, to_wire_mismatch, auditable_row. simpl. setoid_rewrite s3_sizes_Some. naive_solver.
  - intros key. rewrite list_elem_of_fmap. setoid_rewrite orphan_hashes_elem.
    setoid_rewrite elem_of_list_to_set. setoid_rewrite list_elem_of_fmap. setoid_rewrite all_objects_brief_elem.
    assert (Hk : ∀ h, (¬ ∃ y, h = b_store_path_hash y ∧
      ∃ r, objects (w_db w) !! b_store_path_hash y = Some r ∧ y = brief_from_row (b_store_path_hash y, r)) ↔
      objects (w_db w) !! h = None).
    { intros h. rewrite eq_None_not_Some. split; intros Hn Hs; apply Hn.
      - destruct Hs as [r Hr]. exists (brief_from_row (h, r)). split; [done|]. by exists r.
      - destruct Hs as (y & -> & r & Hr & _). by exists r. }
    setoid_rewrite Hk. naive_solver.
  - pose proof (to_wire_paths (classify_rows (all_objects_brief (w_db w)) blobs (w_inflight w) grace (w_now w) vs)) as Hp.
    rewrite Hwire in Hp. simpl in Hp. rewrite Hp. apply classify_rows_nodup, all_objects_brief_nodup.
Qed.

(** What was repaired: all that was found, or nothing. *)
Definition repairs (repair : Repair) (w w' : World) (rp : FsckReport) : Prop :=
  let found := found_paths (rp_dangling rp) (rp_size_mismatches rp) in
  if bool_decide (repair = Repair_No ∨ rp_quiesce_drained rp = Some false)
  then rp_repaired rp = 0 ∧ w_db w' = w_db w
  else rp_repaired rp = length found ∧
    ∀ h, objects (w_db w') !! h = if decide (h ∈ found) then None else objects (w_db w) !! h.

Lemma fsck_body_spec blobs grace vs repair drained w held w' held' report :
  db_wf (w_db w) →
  runs_listing blobs w held (fsck_body grace vs repair drained) w' held' (Ok report) →
  reports blobs grace vs w report ∧ repairs repair w w' report ∧ rp_quiesce_drained report = drained ∧
  w_blobs w' = w_blobs w ∧ w_inflight w' = w_inflight w ∧ db_wf (w_db w').
Proof.
  intros Hwf Hr. unfold fsck_body in Hr.
  apply runs_listing_request in Hr as (r & w1 & held1 & [-> ->] & Hl & Hr). cbn [lists] in Hl. subst r.
  apply runs_listing_runs in Hr.
  apply runs_db_read in Hr as [Hr|(msg & Hr)]; [|by apply runs_ret_inv in Hr as (_ & _ & [=])].
  apply runs_request in Hr as (now & w1 & held1 & (-> & -> & ->) & Hr).
  apply runs_request in Hr as (st & w1 & held1 & (-> & -> & ->) & Hr).
  set (findings := classify_rows _ _ _ _ _ _) in Hr.
  destruct (to_wire findings) as [dangling mismatches] eqn:Hwire.
  apply runs_request in Hr as (st & w1 & held1 & (-> & -> & ->) & Hr).
  apply runs_bind in Hr as (r & w1 & held1 & Hrep & Hr).
  destruct r as [repaired|e]; [|by apply runs_ret_inv in Hr as (_ & _ & [=])].
  apply runs_ret_inv in Hr as (-> & -> & [= ->]).
  split; [by apply reports_classified|]. unfold repairs.
  cbn [rp_dangling rp_size_mismatches rp_orphans rp_quiesce_drained rp_repaired].
  destruct (bool_decide_reflect (repair = Repair_No ∨ drained = Some false)) as [Hno|Hno].
  { assert (negb (bool_decide (repair = Repair_No)) && negb (bool_decide (drained = Some false)) = false)
      as Hcond by (rewrite andb_false_iff, !negb_false_iff, !bool_decide_eq_true; tauto).
    rewrite Hcond in Hrep. by apply runs_ret_inv in Hrep as (-> & _ & [= ->]). }
  rewrite !bool_decide_eq_false_2 in Hrep by tauto. cbn [negb andb] in Hrep. unfold apply_repair in Hrep.
  pose proof (to_wire_paths findings) as Hpaths. rewrite Hwire in Hpaths. simpl in Hpaths.
  apply repair_loop_spec in Hrep as (Hwf' & Hbl & Hst & Hother & -> & Hgone); [|done| |].
  - split_and!; [by rewrite Hpaths, length_map| |done..].
    intros h. case_decide as Hin; rewrite Hpaths in Hin; [by apply Hgone|by apply Hother].
  - apply classify_rows_nodup, all_objects_brief_nodup.
  - apply Forall_forall. intros f (row & Hrow & _ & _ & -> & _)%classify_rows_elem.
    apply all_objects_brief_elem in Hrow as (r & Hr & Heq). simpl. unfold created_at. rewrite Hr, Heq. done.
Qed.

(** ** Properties *)

(** C31: Whatever the bucket's listing shows, a successful fsck reports exactly the drift: as
    dangling, each row old enough and unclaimed that no listed blob has; as mis-sized, if sizes are
    verified, each such row whose last listed size is not its own, with both sizes; as orphans, the
    keys of exactly the listed blobs that are old enough and have neither row nor claim. No row is
    found twice. It repairs exactly the rows it reports dangling or mis-sized, or none when it is
    asked not to repair or could not drain the uploads; it touches no blob and leaves the claims and
    the upload gate as it found them. *)
Theorem fsck_repairs_only_drift blobs grace vs repair w held w' held' report :
  db_wf (w_db w) →
  runs_listing blobs w held (fsck_run grace vs repair) w' held' (Ok report) →
  reports blobs grace vs w report ∧ repairs repair w w' report ∧
  match repair with
  | Repair_Quiesced => ∃ drained, rp_quiesce_drained report = Some drained ∧
      (drained = true → uploads (w_inflight w) = 0%Z)
  | _ => rp_quiesce_drained report = None
  end ∧
  w_blobs w' = w_blobs w ∧ w_inflight w' = w_inflight w ∧ db_wf (w_db w').
Proof.
  intros Hwf Hr. destruct repair; cbn [fsck_run] in Hr.
  1, 2: by apply fsck_body_spec in Hr.
  apply runs_listing_request in Hr as ([] & w1 & held1 & [-> ->] & _ & Hr).
  apply runs_listing_request in Hr as (drained & w1 & held1 & (Hd & -> & ->) & _ & Hr).
  apply runs_listing_bind in Hr as (rep & w1 & held1 & Hbody & Hr).
  apply runs_listing_request in Hr as ([] & w2 & held2 & [-> ->] & _ & Hr).
  apply runs_listing_runs, runs_ret_inv in Hr as (-> & -> & <-).
  apply fsck_body_spec in Hbody as (Hrep & Hfix & Hdr & Hb & Hi & Hwf'); [|done].
  split; [by destruct Hrep; split|]. split; [exact Hfix|]. split; [by exists drained|]. split; [exact Hb|]. split; [|exact Hwf'].
  simpl. rewrite Hi. destruct (w_inflight w). unfold drop_guard, quiesce. simpl in *. f_equal. lia.
Qed.

(** The example with its [leaf] blob lost, its [root] blob a byte too long and a
    blob nobody recorded. *)
Definition example_fsck_world : World :=
  mkWorld example_db {[key_for "root" := repeat 0%Z 11; key_for "kept" := repeat 0%Z 5;
                       key_for "stray" := [1%Z]]} inflight_new 1000000.

Definition example_fsck_report : FsckReport :=
  mkReport [mkFsckRow "leaf" "leaf"] [mkMismatch "root" "root" 10 11] ["nar/stray.nar.zst"] 2 (Some true).

Lemma fsck_repairs_only_drift_witness :
  ∃ blobs w' held',
    runs_listing blobs example_fsck_world ∅ (fsck_run 0 true Repair_Quiesced) w' held' (Ok example_fsck_report) ∧
    objects (w_db w') !! "leaf" = None ∧ objects (w_db w') !! "kept" = objects example_db !! "kept".
Proof.
  assert ((exec 9 example_fsck_world ∅ (fsck_run 0 true Repair_Quiesced)).1.1 = Ok example_fsck_report) as He
    by by_computation.
  apply exec_result in He as (w' & held' & Hr). apply fsck_run_lists in Hr as [blobs Hr]. exists blobs, w', held'.
  split; [exact Hr|].
  destruct (fsck_repairs_only_drift blobs 0 true Repair_Quiesced example_fsck_world ∅ w' held' example_fsck_report
    example_db_wf Hr) as (_ & [_ Hrep] & _).
  split; [exact (Hrep "leaf")|exact (Hrep "kept")].
Defined.
