(* ===== verification/Admin.v ===== *)
(** * Admin: the commands of the admin socket

    [crates/garret-pusher/src/admin.rs] and [Request] and [Response] of
    [crates/garret-common/src/admin.rs]. A command is a handler; the socket
    itself and JSON are not modelled. GC and fsck are the handlers of Deletion
    and Fsck; the copy of a backup is Backup's. *)

From S2P Require Import Prelude Text Common InFlight Db Prune Prog Storage World Narinfo Deletion Fsck.

(** ** Requests and replies *)

Inductive Request :=
  | Request_Status
  | Request_GcRun
  | Request_Resign
  | Request_Delete (hashes : list string) (dry_run : bool)
  | Request_Pin (name hash : string) (expires_at : option Z)
  | Request_Unpin (name : string)
  | Request_Fsck (verify_sizes : bool) (repair : Repair)
  | Request_Prune (before : Z) (dry_run : bool)
  | Request_DeletePushedBy (subject : string) (since : option Z) (dry_run : bool)
  | Request_Backup (path : string).

Inductive Response :=
  | Response_Status (objects total_bytes : Z) (quota_bytes : option Z) (uploads_in_flight : Z)
  | Response_Gc (evicted : nat) (bytes_freed : Z) (candidates_exhausted : bool)
  | Response_Resign (resigned refused : nat)
  | Response_Delete (deleted : nat) (bytes_freed : Z) (missing : list string)
  | Response_Pin
  | Response_Unpin (removed : bool)
  | Response_Fsck (report : FsckReport)
  | Response_Prune (pruned : list string) (bytes_freed : Z)
  | Response_DeletePushedBy (objects : list string) (bytes_freed : Z)
  | Response_Backup (bytes : Z)
  | Response_Error (message : string).

(** What the commands use of [AppState]: the keys, the store directory and the
    [gc] section, if there is one. *)
Record AdminState := mkAdminState {
  as_keys : list SigningKey;
  as_store_dir : string;
  as_quota : option Z;
  as_gc : option GcLimits;
}.

Definition failure_message (e : Failure) : string :=
  match e with
  | Fail_ClientBody m => m | Fail_BodyOverLimit m => m | Fail_S3 m => m | Fail_Other m => m
  end.

Definition no_gc : Response := Response_Error "no [gc] section is configured".

Definition status (state : AdminState) : Handler (Result Response Failure) :=
  do in_flight <- request Op_InFlight;
  db_read (λ db, Response_Status (object_count db) (total_bytes db)
                   (match as_gc state with Some _ => as_quota state | None => None end)
                   (uploads in_flight)).

(** ** Delete *)

Record Deleted := mkDeleted {
  dl_deleted : nat;
  dl_bytes_freed : Z;
  dl_missing : list string;
}.

Fixpoint delete_loop (dry_run : bool) (hashes : list string) (deletion : option Deletion) (done : Deleted)
    : Handler (Result (option Deletion * Deleted) Failure) :=
  match hashes with
  | [] => Ret (Ok (deletion, done))
  | hash :: hashes =>
      do? freed <- (if dry_run then db_read (λ db, file_size db hash)
                    else db_write (λ db, delete_object db hash));
      match freed with
      | None =>
          delete_loop dry_run hashes deletion
            (mkDeleted (dl_deleted done) (dl_bytes_freed done) (dl_missing done ++ [hash]))
      | Some freed =>
          delete_loop dry_run hashes ((λ d, queue_blob d hash) <$> deletion)
            (mkDeleted (S (dl_deleted done)) (dl_bytes_freed done + freed) (dl_missing done))
      end
  end.

(** [delete] of admin.rs. *)
Definition admin_delete (hashes : list string) (dry_run : bool) : Handler (Result Deleted Failure) :=
  let hashes := first_seen ∅ hashes in
  do? deletion <-
    (if dry_run then Ret (Ok None) else do? d <- claim_all hashes; Ret (Ok (Some d)));
  do? out <- delete_loop dry_run hashes deletion (mkDeleted 0 0 []);
  match out.1 with
  | Some d => do? _ <- finish d; Ret (Ok out.2)
  | None => Ret (Ok out.2)
  end.

Definition basenames (rows : list ObjectBrief) : list string :=
  map (λ row, b_store_path_hash row +:+ "-" +:+ b_name row) rows.

Definition sum_brief (rows : list ObjectBrief) : Z := sum_Z (map b_file_size rows).

Definition delete_listed (matched : list ObjectBrief) (dry_run : bool)
    : Handler (Result (list ObjectBrief * Z) Failure) :=
  if dry_run then Ret (Ok (matched, sum_brief matched))
  else
    do? done <- admin_delete (map b_store_path_hash matched) false;
    let missing : gset string := list_to_set (dl_missing done) in
    Ret (Ok (filter (λ row, b_store_path_hash row ∉ missing) matched, dl_bytes_freed done)).

Definition delete_pushed_by (subject : string) (since : option Z) (dry_run : bool)
    : Handler (Result Response Failure) :=
  do? matched <- db_read (λ db, pushed_by db subject since);
  do? out <- delete_listed matched dry_run;
  Ret (Ok (Response_DeletePushedBy (basenames out.1) out.2)).

(** ** Prune *)

(** The states [delete_pruned] commits, one per batch. *)
Definition delete_pruned_commits (db : Db) (doomed : list ObjectBrief) : Result (list Db) string :=
  let? order := referrers_first db doomed in
  Ok (tail (prune_commits doomed (chunks PRUNE_BATCH order) db)).

(** The one closure of [prune]. *)
Definition prune_closure (before : Z) (dry_run : bool) (now : Z) (db : Db) (st : State)
    : list Db * State * Result (list ObjectBrief * option Deletion) Failure :=
  match prunable db before now with
  | Err e => ([], st, Err (Fail_Other e))
  | Ok doomed =>
      if dry_run then ([], st, Ok (doomed, None))
      else
        let hashes := map b_store_path_hash doomed in
        match claim_all_locked st hashes with
        | Err e => ([], st, Err (Fail_Other e))
        | Ok st' =>
            match delete_pruned_commits db doomed with
            | Err e => ([], st, Err (Fail_Other e))
            | Ok commits =>
                (commits, st', Ok (doomed, Some (foldl queue_blob (mkDeletion hashes []) hashes)))
            end
        end
  end.

Definition prune (before : Z) (dry_run : bool) : Handler (Result Response Failure) :=
  do? out <- request (Op_Db [] (prune_closure before dry_run));
  let bytes_freed := sum_brief out.1 in
  do? _ <- match out.2 with Some d => finish d | None => Ret (Ok tt) end;
  Ret (Ok (Response_Prune (basenames out.1) bytes_freed)).

(** ** Resign *)

Definition RESIGN_CHUNK : nat := 500.

Section resign.
Context `{C : Crypto} (state : AdminState).

(** The objects of a chunk that are still there. *)
Fixpoint get_objects (hashes : list string) (db : Db) : list Object :=
  match hashes with
  | [] => []
  | h :: hashes =>
      match get_object db h with
      | Some obj => obj :: get_objects hashes db
      | None => get_objects hashes db
      end
  end.

(** One object of a chunk: whether it is refused, and its new signatures. *)
Fixpoint resign_objects (objs : list Object) : Result (list (string * list string) * nat) Failure :=
  match objs with
  | [] => Ok ([], 0)
  | obj :: objs =>
      if verify obj (as_store_dir state) (as_keys state) then
        let? sigs := map_err Fail_Other (sign obj (as_store_dir state) (as_keys state)) in
        let? (updates, refused) := resign_objects objs in
        if bool_decide (sigs = o_sigs obj) then Ok (updates, refused)
        else Ok ((o_store_path_hash obj, sigs) :: updates, refused)
      else
        let? (updates, refused) := resign_objects objs in
        Ok (updates, S refused)
  end.

Definition write_sigs (updates : list (string * list string)) (db : Db) : Db :=
  foldl (λ db u, update_sigs db u.1 u.2) db updates.

Fixpoint resign_chunks (hashes : list (list string)) (resigned refused : nat)
    : Handler (Result Response Failure) :=
  match hashes with
  | [] => Ret (Ok (Response_Resign resigned refused))
  | chunk :: hashes =>
      do? objs <- db_read (get_objects chunk);
      match resign_objects objs with
      | Err e => Ret (Err e)
      | Ok (updates, n) =>
          do? _ <- db_write (λ db, (write_sigs updates db, tt));
          resign_chunks hashes (resigned + length updates) (refused + n)
      end
  end.

Definition resign : Handler (Result Response Failure) :=
  do? hashes <- db_read (λ db, elements (all_hashes db));
  resign_chunks (chunks RESIGN_CHUNK hashes) 0 0.

(** ** Dispatch *)

Definition admin_pin (name hash : string) (expires_at : option Z) : Handler (Result Response Failure) :=
  do? _ <- db_try_now (λ now db, pin db name hash expires_at now);
  Ret (Ok Response_Pin).

Definition admin_unpin (name : string) : Handler (Result Response Failure) :=
  do? removed <- db_write (λ db, unpin db name);
  Ret (Ok (Response_Unpin removed)).

(** The copy is made by [backup_to] (see Backup) on a connection of its own. *)
Definition backup (dest : string) : Handler (Result Response Failure) :=
  do? bytes <- request (Op_Backup dest);
  Ret (Ok (Response_Backup bytes)).

(** [fuel] bounds the laps of an eviction pass. *)
Definition dispatch (fuel : nat) (req : Request) : Handler Response :=
  do result <-
    match req with
    | Request_Status => status state
    | Request_GcRun =>
        match as_gc state with
        | Some gc =>
            do? pass <- gc_run fuel gc;
            Ret (Ok (Response_Gc (evicted pass) (bytes_freed pass) (candidates_exhausted pass)))
        | None => Ret (Ok no_gc)
        end
    | Request_Resign => resign
    | Request_Delete hashes dry_run =>
        do? done <- admin_delete hashes dry_run;
        Ret (Ok (Response_Delete (dl_deleted done) (dl_bytes_freed done) (dl_missing done)))
    | Request_Pin name hash expires_at => admin_pin name hash expires_at
    | Request_Unpin name => admin_unpin name
    | Request_Fsck verify_sizes repair =>
        match as_gc state with
        | Some gc =>
            do? report <- fsck_run (gc_orphan_grace gc) verify_sizes repair;
            Ret (Ok (Response_Fsck report))
        | None => Ret (Ok no_gc)
        end
    | Request_Prune before dry_run => prune before dry_run
    | Request_DeletePushedBy subject since dry_run => delete_pushed_by subject since dry_run
    | Request_Backup path => backup path
    end;
  Ret (match result with Ok r => r | Err e => Response_Error (failure_message e) end).
End resign.

(** ** Delete alone *)

(** Claims after a request sequence, as a function of those before. *)
Definition claims_plus (hs : list string) (st st' : State) : Prop :=
  ∀ h, claims st' !! h = if decide (h ∈ hs) then Some Kind_Delete else claims st !! h.

Lemma claim_all_from_spec claimed hashes w held w' held' res :
  runs w held (claim_all_from claimed hashes) w' held' res →
  ∃ st, w' = with_inflight st w ∧
    match res with
    | Ok d => d = mkDeletion (claimed ++ hashes) [] ∧ claims_plus hashes (w_inflight w) st ∧
        ∀ h, h ∈ hashes → claims (w_inflight w) !! h = None
    | Err e => ∃ h busy, e = Fail_Other (busy_message h busy)
    end.
Proof.
  revert claimed w held. induction hashes as [|h hashes IH]; intros claimed w held; cbn [claim_all_from].
  { intros (-> & -> & ->)%runs_ret_inv. exists (w_inflight w). split; [by destruct w|].
    rewrite app_nil_r. split_and!; [done| |by intros h ?%elem_of_nil].
    intros h. rewrite decide_False; [done|]. apply not_elem_of_nil. }
  intros (c & w1 & held1 & Hs & Hr)%runs_request. cbn [op_step] in Hs.
  destruct (claim_delete (w_inflight w) h) as [st|busy] eqn:E.
  - destruct Hs as (-> & -> & ->). apply IH in Hr as (st' & -> & Hres). exists st'. split; [done|].
    destruct res as [d|e]; [|done]. destruct Hres as (-> & Hpl & Hfree).
    apply claim_delete_inv in E as [Hn Hc]. simpl in Hpl, Hfree. rewrite <-app_assoc.
    split_and!; [done| |].
    + intros i. rewrite (Hpl i), Hc. destruct (decide (i = h)) as [->|Hne].
      * rewrite (decide_True (P := h ∈ h :: hashes)), lookup_insert_eq by by left. by case_decide.
      * rewrite lookup_insert_ne by done. repeat case_decide; set_solver.
    + intros i [->|Hi]%elem_of_cons; [done|]. apply Hfree in Hi. rewrite Hc in Hi.
      by apply lookup_insert_None in Hi as [? _].
  - destruct Hs as (-> & -> & ->). apply runs_request in Hr as ([] & w1 & held1 & [-> ->] & Hr).
    apply runs_ret_inv in Hr as (-> & _ & ->). eexists. split; [done|]. eauto.
Qed.

(** The rows [hashes] name that the cache has, and those it has not. *)
Definition found (db : Db) (hashes : list string) : list string :=
  filter (λ h, is_Some (objects db !! h)) hashes.
Definition absent (db : Db) (hashes : list string) : list string :=
  filter (λ h, objects db !! h = None) hashes.
Definition sizes (db : Db) (hashes : list string) : Z :=
  sum_Z (map (λ h, default 0%Z (file_size db h)) hashes).

Lemma sizes_cons db h hs : sizes db (h :: hs) = (default 0 (file_size db h) + sizes db hs)%Z.
Proof. done. Qed.

(** What one round leaves of the database. *)
Definition after_one (dry : bool) (db : Db) (h : string) : Db := if dry then db else (delete_object db h).1.

Lemma after_one_wf dry db h : db_wf db → db_wf (after_one dry db h).
Proof. intros Hwf. destruct dry; [done|by apply db_wf_delete_object]. Qed.

Lemma after_one_other dry db h i : i ≠ h → objects (after_one dry db h) !! i = objects db !! i.
Proof.
  intros Hi. destruct dry; [done|]. unfold after_one, delete_object.
  destruct (file_size db h); [|done]. simpl. by rewrite lookup_delete_ne.
Qed.

Lemma after_one_gone db h : objects (after_one false db h) !! h = None.
Proof.
  unfold after_one, delete_object, file_size.
  destruct (objects db !! h) as [row|] eqn:E; simpl; [apply lookup_delete_eq|done].
Qed.

Lemma after_one_total db h :
  db_wf db → total_bytes (after_one false db h) = (total_bytes db - default 0 (file_size db h))%Z.
Proof.
  intros Hwf. rewrite (wf_total _ (after_one_wf false db h Hwf)), (wf_total _ Hwf). unfold after_one, delete_object, file_size.
  destruct (objects db !! h) as [row|] eqn:E; simpl; [|lia]. rewrite (sum_file_size_delete _ _ _ E). lia.
Qed.

Lemma after_one_rest dry db h hashes :
  h ∉ hashes →
  found (after_one dry db h) hashes = found db hashes ∧ absent (after_one dry db h) hashes = absent db hashes ∧
  sizes (after_one dry db h) (found db hashes) = sizes db (found db hashes).
Proof.
  intros Hnh. split_and!.
  - unfold found. apply filter_ext_elem. intros i Hi. by rewrite after_one_other by congruence.
  - unfold absent. apply filter_ext_elem. intros i Hi. by rewrite after_one_other by congruence.
  - unfold sizes. f_equal. apply map_ext_in. intros i Hi. unfold file_size. rewrite after_one_other; [done|].
    intros ->. apply Hnh. apply list_elem_of_In in Hi. by apply list_elem_of_filter in Hi as [_ ?].
Qed.

(** The rest of the loop, after the first round. *)
Lemma after_one_end (dry : bool) db h hashes db' n :
  db_wf db →
  (if dry then db' = after_one dry db h else
     total_bytes db' = (total_bytes (after_one dry db h) - n)%Z ∧
     ∀ i, objects db' !! i = if decide (i ∈ hashes) then None else objects (after_one dry db h) !! i) →
  if dry then db' = db else
    total_bytes db' = (total_bytes db - (default 0 (file_size db h) + n))%Z ∧
    ∀ i, objects db' !! i = if decide (i ∈ h :: hashes) then None else objects db !! i.
Proof.
  intros Hwf. destruct dry; [done|]. intros [Hn Hdb]. rewrite after_one_total in Hn by done.
  split; [lia|]. intros i. rewrite Hdb. destruct (decide (i = h)) as [->|Hi].
  - rewrite (decide_True (P := h ∈ h :: hashes)) by by left. by case_decide; [|apply after_one_gone].
  - rewrite (after_one_other _ _ _ _ Hi). repeat case_decide; set_solver.
Qed.

Lemma delete_round (dry : bool) h w held w1 held1 freed :
  runs w held (if dry then db_read (λ db, file_size db h) else db_write (λ db, delete_object db h)) w1 held1 (Ok freed) →
  freed = file_size (w_db w) h ∧ held1 = held ∧ w1 = with_db (after_one dry (w_db w) h) w.
Proof.
  destruct dry; intros Hop.
  - apply runs_db_read_inv in Hop as (-> & -> & [[= ->]|[? ?]]); [|done]. split_and!; [done|done|by destruct w].
  - apply (runs_db_write w held (λ db, delete_object db h) Ret) in Hop as [Hop|(msg & w2 & _ & Hop)];
      apply runs_ret_inv in Hop as (-> & -> & [=]). subst freed. split_and!; [|done|done].
    unfold delete_object. by destruct (file_size (w_db w) h).
Qed.

Lemma delete_loop_spec dry hashes deletion done_ w held w' held' d done :
  db_wf (w_db w) → NoDup hashes →
  runs w held (delete_loop dry hashes deletion done_) w' held' (Ok (d, done)) →
  dl_deleted done = dl_deleted done_ + length (found (w_db w) hashes) ∧
  dl_bytes_freed done = (dl_bytes_freed done_ + sizes (w_db w) (found (w_db w) hashes))%Z ∧
  dl_missing done = dl_missing done_ ++ absent (w_db w) hashes ∧
  d = (λ d, mkDeletion (dn_claims d) (dn_keys d ++ map key_for (found (w_db w) hashes))) <$> deletion ∧
  held' = held ∧ w' = with_db (w_db w') w ∧ db_wf (w_db w') ∧
  if dry then w_db w' = w_db w
  else total_bytes (w_db w') = (total_bytes (w_db w) - sizes (w_db w) (found (w_db w) hashes))%Z ∧
    ∀ h, objects (w_db w') !! h = if decide (h ∈ hashes) then None else objects (w_db w) !! h.
Proof.
  revert deletion done_ w held. induction hashes as [|h hashes IH]; intros deletion done_ w held Hwf Hnd;
    cbn [delete_loop].
  { intros (-> & -> & [= -> ->])%runs_ret_inv. unfold found, absent, sizes. simpl.
    rewrite app_nil_r. split_and!; [lia|lia|done| |done|by destruct w|done|].
    - destruct deletion as [[c k]|]; simpl; [by rewrite app_nil_r|done].
    - destruct dry; [done|]. split; [lia|]. intros i. destruct (decide (i ∈ [])) as [Hi|]; [by apply elem_of_nil in Hi|done]. }
  apply NoDup_cons in Hnd as [Hnh Hnd]. intros (r & w1 & held1 & Hop & Hr)%runs_bind.
  destruct r as [freed|e]; [|by apply runs_ret_inv in Hr as (_ & _ & [=])].
  apply delete_round in Hop as (-> & -> & ->). set (db1 := after_one dry (w_db w) h) in *.
  pose proof (after_one_wf dry _ h Hwf : db_wf db1) as Hwf1.
  destruct (after_one_rest dry (w_db w) _ _ Hnh) as (Hf1 & Hf2 & Hf3). fold db1 in Hf1, Hf2, Hf3.
  assert (Hend := λ db' n, after_one_end dry (w_db w) h hashes db' n Hwf). fold db1 in Hend.
  destruct (file_size (w_db w) h) as [sz|] eqn:Hsz.
  - assert (Hrow : is_Some (objects (w_db w) !! h)) by (unfold file_size in Hsz; destruct (objects (w_db w) !! h); [done|discriminate]).
    assert (found (w_db w) (h :: hashes) = h :: found (w_db w) hashes) as -> by by apply filter_cons_True.
    assert (absent (w_db w) (h :: hashes) = absent (w_db w) hashes) as ->.
    { apply filter_cons_False. intros E. rewrite E in Hrow. by destruct Hrow. }
    apply IH in Hr; [|done|done]. destruct Hr as (-> & -> & -> & -> & -> & -> & Hwf' & Hdb).
    change (w_db (with_db db1 w)) with db1 in *. rewrite Hf1 in *. rewrite Hf2, sizes_cons, Hsz. rewrite Hf3 in *. simpl in *.
    split_and!; [lia|lia|done| |done|done|done|by apply (Hend _ _ Hdb)].
    destruct deletion as [[c k]|]; simpl; [|done]. by rewrite <-app_assoc.
  - assert (Hrow : objects (w_db w) !! h = None) by by apply fmap_None in Hsz.
    assert (found (w_db w) (h :: hashes) = found (w_db w) hashes) as ->.
    { apply filter_cons_False. rewrite Hrow. by intros [? ?]. }
    assert (absent (w_db w) (h :: hashes) = h :: absent (w_db w) hashes) as -> by by apply filter_cons_True.
    apply IH in Hr; [|done|done]. destruct Hr as (-> & -> & -> & -> & -> & -> & Hwf' & Hdb).
    change (w_db (with_db db1 w)) with db1 in *. rewrite Hf1 in *. rewrite Hf2. rewrite Hf3 in *. simpl in *.
    rewrite <-app_assoc. split_and!; [done|done|done|done|done|done|done|by apply (Hend _ _ Hdb)].
Qed.

Lemma finish_ok_spec d w held w' held' :
  runs w held (finish d) w' held' (Ok tt) →
  w' = with_inflight (drop_claims (w_inflight w) (dn_claims d))
         (with_blobs (foldr delete (w_blobs w) (dn_keys d)) w).
Proof.
  intros (r & w1 & held1 & (-> & gone & _ & Hgone & ->) & Hr)%runs_request.
  apply runs_request in Hr as ([] & w2 & held2 & [-> ->] & Hr). apply runs_ret_inv in Hr as (-> & _ & <-).
  by rewrite Hgone.
Qed.

Lemma delete_loop_dry hashes deletion done w held w' held' res :
  runs w held (delete_loop true hashes deletion done) w' held' res → w' = w.
Proof.
  revert deletion done. induction hashes as [|h hashes IH]; intros deletion done; cbn [delete_loop].
  { by intros (-> & _)%runs_ret_inv. }
  intros [Hr|(msg & Hr)]%runs_db_read; [|by apply runs_ret_inv in Hr as (-> & _)].
  destruct (file_size _ h); by eapply IH.
Qed.

(** What a command that deleted the rows [hs] of [w] has done to the world. *)
Record deleted_exactly (hs : list string) (w w' : World) : Prop := {
  de_unclaimed : ∀ h, h ∈ hs → claims (w_inflight w) !! h = None;
  de_claims : ∀ h, claims (w_inflight w') !! h = claims (w_inflight w) !! h;
  de_rows : ∀ h, objects (w_db w') !! h = if decide (h ∈ hs) then None else objects (w_db w) !! h;
  de_total : total_bytes (w_db w') = (total_bytes (w_db w) - sizes (w_db w) (found (w_db w) hs))%Z;
  de_wf : db_wf (w_db w');
  de_blobs : w_blobs w' = foldr delete (w_blobs w) (map key_for (found (w_db w) hs));
}.

(** C27: An admin delete removes exactly the rows named, with their blobs, counts the rows and bytes
    and lists the absent hashes; a dry run changes nothing; a delete that meets a claimed path, or a
    dry run that fails, leaves the rows and blobs as they were. *)
Theorem admin_delete_exact w held hashes dry_run w' held' res :
  db_wf (w_db w) → runs w held (admin_delete hashes dry_run) w' held' res →
  let hs := first_seen ∅ hashes in
  match res with
  | Ok done =>
      dl_deleted done = length (found (w_db w) hs) ∧
      dl_bytes_freed done = sizes (w_db w) (found (w_db w) hs) ∧
      dl_missing done = absent (w_db w) hs ∧
      if dry_run then w' = w else deleted_exactly hs w w'
  | Err _ =>
      dry_run = true ∨ (∃ h, h ∈ hashes ∧ is_Some (claims (w_inflight w) !! h)) →
      w_db w' = w_db w ∧ w_blobs w' = w_blobs w
  end.
Proof.
  intros Hwf Hrun hs.
  apply runs_bind in Hrun as (d0 & w0 & held0 & Hclaim & Hr).
  assert (Hd0 : if dry_run then d0 = Ok None ∧ w0 = w else
    ∃ st, w0 = with_inflight st w ∧ match d0 with
      | Ok d => d = Some (mkDeletion hs []) ∧ claims_plus hs (w_inflight w) st ∧
          ∀ h, h ∈ hs → claims (w_inflight w) !! h = None
      | Err _ => True end).
  { destruct dry_run; [by apply runs_ret_inv in Hclaim as (-> & _ & ->)|].
    apply runs_bind in Hclaim as (c & w1 & held1 & Hc & Hr1).
    apply claim_all_from_spec in Hc as (st & -> & Hc).
    destruct c as [d|e]; apply runs_ret_inv in Hr1 as (-> & _ & ->); exists st; [|done].
    destruct Hc as (-> & Hpl & Hfree). done. }
  destruct d0 as [d0|e].
  2: { apply runs_ret_inv in Hr as (-> & _ & ->). intros _. destruct dry_run; [by destruct Hd0|].
       by destruct Hd0 as (st & -> & _). }
  assert (Hdb0 : w_db w0 = w_db w) by (destruct dry_run; [by destruct Hd0 as [_ ->]|by destruct Hd0 as (st & -> & _)]).
  apply runs_bind in Hr as (out & w1 & held1 & Hloop & Hr).
  destruct out as [[d done]|e].
  2: { apply runs_ret_inv in Hr as (-> & _ & ->). intros Hcases. destruct dry_run.
       - apply delete_loop_dry in Hloop as ->. by destruct Hd0 as [_ ->].
       - destruct Hd0 as (_ & _ & _ & _ & Hfree). destruct Hcases as [|(h & Hh & [k Hk])]; [done|].
         rewrite Hfree in Hk; [done|]. apply first_seen_elem. set_solver. }
  apply delete_loop_spec in Hloop as (H1 & H2 & H3 & Hd & -> & Hw1 & Hwf1 & Hdb);
    [|by rewrite Hdb0|apply first_seen_nodup].
  rewrite Hdb0 in *. cbn [dl_deleted dl_bytes_freed dl_missing] in *. destruct dry_run.
  - destruct Hd0 as [[= ->] ->]. simpl in Hd. subst d.
    apply runs_ret_inv in Hr as (-> & _ & ->). split_and!; [done|done|done|].
    rewrite Hw1, Hdb. by destruct w.
  - destruct Hd0 as (st & -> & -> & Hpl & Hfree). simpl in Hd. subst d.
    apply runs_bind in Hr as (r & w2 & held2 & Hfin & Hr).
    destruct r as [[]|e]; apply runs_ret_inv in Hr as (-> & _ & ->).
    2: { intros [|(h & Hh & [k Hk])]; [done|]. rewrite Hfree in Hk; [done|].
         apply first_seen_elem. set_solver. }
    apply finish_ok_spec in Hfin as ->. rewrite Hw1. destruct Hdb as [Htot Hdb].
    split_and!; [done|done|done|]. split; simpl; [done| |done|done|done|done].
    intros h. rewrite drop_claims_lookup. case_bool_decide as Hh; [by rewrite Hfree|].
    by rewrite (Hpl h), decide_False.
Qed.

Lemma admin_delete_exact_witness :
  ∃ w' held' res, runs example_world ∅ (admin_delete ["leaf"; "gone"; "leaf"] false) w' held' res ∧
    match res with
    | Ok done => dl_missing done = absent example_db ["leaf"; "gone"] ∧
        deleted_exactly ["leaf"; "gone"] example_world w'
    | Err _ => False
    end.
Proof.
  destruct (exec_result 0 example_world ∅ (admin_delete ["leaf"; "gone"; "leaf"] false)
    (Ok (mkDeleted 1 7 ["gone"])) ltac:(by_computation)) as (w' & held' & Hr).
  exists w', held'. eexists. split; [exact Hr|].
  destruct (admin_delete_exact example_world ∅ ["leaf"; "gone"; "leaf"] false w' held' _
    example_db_wf Hr) as (_ & _ & H1 & H2). split; [exact H1|exact H2].
Defined.

(** ** Prune *)

Lemma claim_all_locked_spec st hashes st' :
  claim_all_locked st hashes = Ok st' →
  claims_plus hashes st st' ∧ ∀ h, h ∈ hashes → claims st !! h = None.
Proof.
  revert st. induction hashes as [|h hashes IH]; intros st; cbn [claim_all_locked].
  { intros [= ->]. split; [|by intros h ?%elem_of_nil].
    intros h. destruct (decide (h ∈ [])) as [Hh|]; [by apply elem_of_nil in Hh|done]. }
  destruct (claim_delete st h) as [st1|busy] eqn:E; [|done]. intros [Hpl Hfree]%IH.
  apply claim_delete_inv in E as [Hn Hc]. split.
  - intros i. rewrite (Hpl i), Hc. destruct (decide (i = h)) as [->|Hne].
    + rewrite (decide_True (P := h ∈ h :: hashes)), lookup_insert_eq by by left. by case_decide.
    + rewrite lookup_insert_ne by done. repeat case_decide; set_solver.
  - intros i [->|Hi]%elem_of_cons; [done|]. apply Hfree in Hi. rewrite Hc in Hi.
    by apply lookup_insert_None in Hi as [? _].
Qed.

Lemma last_cons_default {A} (x d : A) l : List.last (x :: l) d = List.last l x.
Proof.
  revert x d. induction l as [|y l IH]; intros x d; [done|].
  change (List.last (y :: l) d = List.last (y :: l) x). by rewrite !IH.
Qed.

Lemma last_prune_commit doomed batches db :
  List.last (tail (prune_commits doomed batches db)) db = foldl (delete_batch doomed) db batches.
Proof.
  revert db. induction batches as [|b batches IH]; intros db; [done|].
  cbn [prune_commits tail foldl]. rewrite <-IH.
  destruct batches; cbn [prune_commits tail]; apply last_cons_default.
Qed.

Lemma delete_pruned_commits_spec db doomed :
  match delete_pruned_commits db doomed with
  | Ok commits => delete_pruned db doomed = Ok (last_commit db commits)
  | Err e => delete_pruned db doomed = Err e
  end.
Proof.
  unfold delete_pruned_commits, delete_pruned. destruct (referrers_first db doomed) as [order|e]; [|done].
  cbn. by rewrite <-last_prune_commit.
Qed.

Lemma queue_blobs d hs :
  foldl queue_blob d hs = mkDeletion (dn_claims d) (dn_keys d ++ map key_for hs).
Proof.
  revert d. induction hs as [|h hs IH]; intros d; simpl; [rewrite app_nil_r; by destruct d|].
  rewrite IH. simpl. by rewrite <-app_assoc.
Qed.

(** A successful admin prune reports the prunable rows and their bytes; a dry run changes
    nothing; otherwise no doomed path was claimed, the rows are deleted as delete_pruned does, their
    blobs and no others are deleted and all its claims are released. *)
Theorem admin_prune_exact w held before dry_run w' held' resp :
  runs w held (prune before dry_run) w' held' (Ok resp) →
  ∃ doomed, prunable (w_db w) before (w_now w) = Ok doomed ∧
    resp = Response_Prune (basenames doomed) (sum_brief doomed) ∧
    if dry_run then w' = w
    else
      let hs := map b_store_path_hash doomed in
      delete_pruned (w_db w) doomed = Ok (w_db w') ∧
      (∀ h, h ∈ hs → claims (w_inflight w) !! h = None) ∧
      (∀ h, claims (w_inflight w') !! h = claims (w_inflight w) !! h) ∧
      w_blobs w' = foldr delete (w_blobs w) (map key_for hs).
Proof.
  intros (r & w1 & held1 & Hs & Hr)%runs_bind. apply runs_step_inv in Hs as (r' & w0 & held0 & Hs & Hr0).
  apply runs_ret_inv in Hr0 as (-> & -> & ->). cbn [op_step] in Hs.
  destruct (prune_closure before dry_run (w_now w) (w_db w) (w_inflight w)) as [[commits st] res] eqn:Hc.
  destruct Hs as [(-> & -> & _)|(msg & db' & -> & _)]; [|by apply runs_ret_inv in Hr as (_ & _ & [=])].
  destruct res as [[doomed d]|e]; [|by apply runs_ret_inv in Hr as (_ & _ & [=])].
  unfold prune_closure in Hc.
  destruct (prunable (w_db w) before (w_now w)) as [doomed'|e] eqn:Hp; [|done].
  destruct dry_run.
  { injection Hc as <- <- -> <-. apply runs_ret_inv in Hr as (-> & _ & [= ->]).
    exists doomed. by destruct w. }
  destruct (claim_all_locked _ _) as [st'|e] eqn:Hcl; [|done].
  pose proof (delete_pruned_commits_spec (w_db w) doomed') as Hdel.
  destruct (delete_pruned_commits _ _) as [commits'|e]; [|done]. injection Hc as -> -> -> <-.
  apply claim_all_locked_spec in Hcl as [Hpl Hfree].
  apply runs_bind in Hr as (r & w2 & held2 & Hfin & Hr).
  destruct r as [[]|e]; apply runs_ret_inv in Hr as (-> & _ & Heq); [|done]. injection Heq as ->.
  apply finish_ok_spec in Hfin as ->. rewrite queue_blobs.
  exists doomed. split; [done|]. split; [done|]. split_and!; [done|done| |done]. intros h. simpl.
  rewrite drop_claims_lookup. case_bool_decide as Hh; [by rewrite Hfree|].
  by rewrite (Hpl h), decide_False.
Qed.

(** One old object nothing names. *)
Definition prunable_world : World :=
  mkWorld (mkDb {["root" := example_row "root" 10 0]} ∅ ∅ 10) ∅ inflight_new 1000000.

Lemma admin_prune_exact_witness :
  ∃ w' held', runs prunable_world ∅ (prune 100 false) w' held' (Ok (Response_Prune ["root-root"] 10)) ∧
    ∃ doomed, Response_Prune ["root-root"] 10 = Response_Prune (basenames doomed) (sum_brief doomed).
Proof.
  destruct (exec_result 0 prunable_world ∅ (prune 100 false)
    (Ok (Response_Prune ["root-root"] 10)) ltac:(by_computation)) as (w' & held' & Hr).
  exists w', held'. split; [exact Hr|].
  destruct (admin_prune_exact prunable_world ∅ 100 false w' held' _ Hr) as (doomed & _ & H & _).
  by exists doomed.
Defined.

(** ** Resign *)

Section resign_spec.
Context `{C : Crypto} (state : AdminState).

Definition refuses (db : Db) (h : string) : bool :=
  match get_object db h with
  | Some obj => negb (verify obj (as_store_dir state) (as_keys state))
  | None => false
  end.

(** The signatures a verified row gets. *)
Definition new_sigs (db : Db) (h : string) : option (list string) :=
  match get_object db h with
  | Some obj =>
      if verify obj (as_store_dir state) (as_keys state) then
        match sign obj (as_store_dir state) (as_keys state) with Ok sigs => Some sigs | Err _ => None end
      else None
  | None => None
  end.

Definition changes (db : Db) (h : string) : bool :=
  match new_sigs db h, objects db !! h with
  | Some sigs, Some row => negb (bool_decide (sigs = r_sigs row))
  | _, _ => false
  end.

Definition resign_row (db : Db) (h : string) (row : Row) : Row :=
  match new_sigs db h with Some sigs => set_sigs sigs row | None => row end.

Lemma get_object_Some db h row :
  objects db !! h = Some row → ∃ obj, get_object db h = Some obj ∧ o_sigs obj = r_sigs row ∧
    o_store_path_hash obj = h.
Proof. intros Hrow. unfold get_object, get_object_and_last_accessed. rewrite Hrow. by eexists. Qed.

Lemma get_object_ext db db' h :
  objects db' !! h = objects db !! h → object_refs db' = object_refs db →
  get_object db' h = get_object db h.
Proof.
  intros Hrow Hrefs. unfold get_object, get_object_and_last_accessed, references_of.
  by rewrite Hrow, Hrefs.
Qed.

Lemma set_sigs_id row : set_sigs (r_sigs row) row = row.
Proof. by destruct row. Qed.

Lemma get_objects_cons h chunk db :
  get_objects (h :: chunk) db =
    match get_object db h with Some obj => obj :: get_objects chunk db | None => get_objects chunk db end.
Proof. done. Qed.

(** What a chunk's transaction writes; [db0] is the database it read. *)
Record chunk_result (db0 : Db) (chunk : list string) (db : Db)
    (updates : list (string * list string)) (n : nat) : Prop := {
  cr_refused : n = length (filter (λ h, refuses db0 h = true) chunk);
  cr_resigned : length updates = length (filter (λ h, changes db0 h = true) chunk);
  cr_refs : object_refs (write_sigs updates db) = object_refs db;
  cr_pins : pins (write_sigs updates db) = pins db;
  cr_total : total_bytes (write_sigs updates db) = total_bytes db;
  cr_rows : ∀ h, objects (write_sigs updates db) !! h =
    if decide (h ∈ chunk) then resign_row db0 h <$> objects db !! h else objects db !! h;
}.

Lemma chunk_skip db0 h chunk db updates n :
  h ∉ chunk → resign_row db0 h <$> objects db !! h = objects db !! h → changes db0 h = false →
  chunk_result db0 chunk db updates n →
  chunk_result db0 (h :: chunk) db updates (if refuses db0 h then S n else n).
Proof.
  intros Hh Hrow Hch [H1 H2 H3 H4 H5 H6]. split; try done.
  - destruct (refuses db0 h) eqn:E; [rewrite filter_cons_True by done; simpl; by f_equal|].
    rewrite filter_cons_False; [done|]. by rewrite E.
  - rewrite filter_cons_False; [done|]. by rewrite Hch.
  - intros i. rewrite H6. destruct (decide (i = h)) as [->|]; [|repeat case_decide; set_solver].
    rewrite decide_False by done. by rewrite decide_True by by left.
Qed.

Lemma chunk_sign db0 h chunk db updates n sigs :
  h ∉ chunk → new_sigs db0 h = Some sigs → refuses db0 h = false → changes db0 h = true →
  chunk_result db0 chunk (update_sigs db h sigs) updates n →
  chunk_result db0 (h :: chunk) db ((h, sigs) :: updates) n.
Proof.
  intros Hh Hs Hr Hch [H1 H2 H3 H4 H5 H6]. split; try done.
  - rewrite filter_cons_False; [done|]. by rewrite Hr.
  - rewrite filter_cons_True by done. simpl. by f_equal.
  - intros i. change (write_sigs ((h, sigs) :: updates) db) with
      (write_sigs updates (update_sigs db h sigs)). rewrite H6. unfold update_sigs.
    rewrite update_row_lookup. destruct (decide (h = i)) as [<-|Hi].
    + rewrite decide_False by done. rewrite decide_True by by left.
      unfold resign_row. by rewrite Hs.
    + repeat case_decide; set_solver.
Qed.

Lemma resign_chunk_spec chunk db0 db updates n :
  NoDup chunk → (∀ h, h ∈ chunk → objects db !! h = objects db0 !! h) →
  resign_objects state (get_objects chunk db0) = Ok (updates, n) →
  chunk_result db0 chunk db updates n.
Proof.
  revert db updates n. induction chunk as [|h chunk IH]; intros db updates n Hnd Hsame.
  { intros [= <- <-]. by split. }
  apply NoDup_cons in Hnd as [Hh Hnd].
  assert (Hh0 : objects db !! h = objects db0 !! h) by (apply Hsame; by left).
  assert (Htail : ∀ i, i ∈ chunk → objects db !! i = objects db0 !! i) by (intros i Hi; apply Hsame; by right).
  rewrite get_objects_cons.
  destruct (objects db0 !! h) as [row|] eqn:Hrow.
  2: { assert (Hg : get_object db0 h = None)
         by (unfold get_object, get_object_and_last_accessed; by rewrite Hrow).
       rewrite Hg. intros Hr%(IH db _ _ Hnd Htail). apply (chunk_skip _ h) in Hr; [|done| |].
       - unfold refuses in Hr. by rewrite Hg in Hr.
       - by rewrite Hh0.
       - unfold changes, new_sigs. by rewrite Hg. }
  destruct (get_object_Some db0 h row Hrow) as (obj & Hg & Hsigs & Hhash). rewrite Hg.
  cbn [resign_objects].
  destruct (verify obj (as_store_dir state) (as_keys state)) eqn:Hv.
  2: { destruct (resign_objects state (get_objects chunk db0)) as [[ups m]|e] eqn:Hr; [|done].
       intros [= <- <-]. assert (Hn : new_sigs db0 h = None) by (unfold new_sigs; by rewrite Hg, Hv).
       pose proof (IH db _ _ Hnd Htail eq_refl) as Hc. apply (chunk_skip _ h) in Hc; [|done| |].
       - unfold refuses in Hc. by rewrite Hg, Hv in Hc.
       - rewrite Hh0. unfold resign_row. by rewrite Hn.
       - unfold changes. by rewrite Hn. }
  destruct (sign obj (as_store_dir state) (as_keys state)) as [sigs|e] eqn:Hs; cbn [map_err]; [|done].
  destruct (resign_objects state (get_objects chunk db0)) as [[ups m]|e] eqn:Hr; [|done].
  assert (Hn : new_sigs db0 h = Some sigs) by (unfold new_sigs; by rewrite Hg, Hv, Hs).
  assert (Hrf : refuses db0 h = false) by (unfold refuses; by rewrite Hg, Hv).
  assert (Hch : changes db0 h = negb (bool_decide (sigs = r_sigs row)))
    by (unfold changes; by rewrite Hn, Hrow).
  cbn. rewrite Hsigs, Hhash. destruct (bool_decide_reflect (sigs = r_sigs row)) as [Hb|Hb].
  - intros [= <- <-]. pose proof (IH db _ _ Hnd Htail eq_refl) as Hc.
    apply (chunk_skip _ h) in Hc; [by rewrite Hrf in Hc|done| |done].
    rewrite Hh0. unfold resign_row. rewrite Hn, Hb. cbn. by rewrite set_sigs_id.
  - intros [= <- <-]. apply chunk_sign; [done|done|done|done|]. apply IH; [done| |done].
    intros i Hi. unfold update_sigs. rewrite update_row_lookup, decide_False; [by apply Htail|].
    congruence.
Qed.

Lemma resign_chunks_spec chunks resigned refused w held w' held' r f :
  NoDup (concat chunks) →
  runs w held (resign_chunks state chunks resigned refused) w' held' (Ok (Response_Resign r f)) →
  let db := w_db w in let hs := concat chunks in
  w' = with_db (w_db w') w ∧ object_refs (w_db w') = object_refs db ∧ pins (w_db w') = pins db ∧
  total_bytes (w_db w') = total_bytes db ∧
  (∀ h, objects (w_db w') !! h =
    if decide (h ∈ hs) then resign_row db h <$> objects db !! h else objects db !! h) ∧
  r = resigned + length (filter (λ h, changes db h = true) hs) ∧
  f = refused + length (filter (λ h, refuses db h = true) hs).
Proof.
  revert resigned refused w held. induction chunks as [|chunk chunks IH]; intros resigned refused w held;
    cbn [resign_chunks concat].
  { intros _ (-> & _ & [= -> ->])%runs_ret_inv. split_and!; try done; [by destruct w|simpl; lia..]. }
  intros (Hnd1 & Hdisj & Hnd2)%NoDup_app [Hr|(msg & Hr)]%runs_db_read;
    [|by apply runs_ret_inv in Hr as (_ & _ & [=])].
  destruct (resign_objects state (get_objects chunk (w_db w))) as [[updates n]|e] eqn:Hobjs;
    [|by apply runs_ret_inv in Hr as (_ & _ & [=])].
  apply runs_db_write in Hr as [Hr|(msg & w1 & _ & Hr)];
    [|by apply runs_ret_inv in Hr as (_ & _ & [=])].
  apply (resign_chunk_spec chunk (w_db w) (w_db w)) in Hobjs as [H1 H2 H3 H4 H5 H6]; [|done|done].
  cbn [fst] in Hr. set (db1 := write_sigs updates (w_db w)) in *.
  apply IH in Hr as (Hw & G1 & G2 & G3 & G4 & G5 & G6); [|done].
  cbn [w_db with_db] in Hw, G1, G2, G3, G4, G5, G6.
  assert (Hsame : ∀ h, h ∈ concat chunks → get_object db1 h = get_object (w_db w) h ∧
    objects db1 !! h = objects (w_db w) !! h).
  { intros h Hh. assert (objects db1 !! h = objects (w_db w) !! h) as E.
    { rewrite H6, decide_False; [done|]. intros ?. by eapply Hdisj. }
    split; [by apply get_object_ext|done]. }
  split_and!; [done|congruence|congruence|congruence| | |].
  - intros h. rewrite G4, H6. destruct (decide (h ∈ concat chunks)) as [Hh|Hh].
    + destruct (Hsame h Hh) as [Hg Hrow]. rewrite decide_False by (intros ?; by eapply Hdisj).
      rewrite decide_True by set_solver. unfold resign_row, new_sigs. by rewrite Hg.
    + repeat case_decide; set_solver.
  - rewrite G5, H2, filter_app, length_app, <-Nat.add_assoc. do 3 f_equal.
    apply filter_ext_elem. intros h Hh. destruct (Hsame h Hh) as [Hg Hrow].
    unfold changes, new_sigs. by rewrite Hg, Hrow.
  - rewrite G6, H1, filter_app, length_app, <-Nat.add_assoc. do 3 f_equal.
    apply filter_ext_elem. intros h Hh. destruct (Hsame h Hh) as [Hg _]. unfold refuses. by rewrite Hg.
Qed.
End resign_spec.

(** C28: A resign changes only signatures, and only of rows whose stored signatures verify under a
    configured key; the rest are left and counted as refused. *)
Theorem resign_only_verified `{C : Crypto} (state : AdminState) w held w' held' resigned refused :
  runs w held (resign state) w' held' (Ok (Response_Resign resigned refused)) →
  let db := w_db w in let hs := elements (dom (objects db)) in
  w' = with_db (w_db w') w ∧ object_refs (w_db w') = object_refs db ∧ pins (w_db w') = pins db ∧
  total_bytes (w_db w') = total_bytes db ∧
  (∀ h, objects (w_db w') !! h =
    match get_object db h with
    | Some obj =>
        if verify obj (as_store_dir state) (as_keys state) then
          match sign obj (as_store_dir state) (as_keys state) with
          | Ok sigs => set_sigs sigs <$> objects db !! h
          | Err _ => objects db !! h
          end
        else objects db !! h
    | None => None
    end) ∧
  resigned = length (filter (λ h, objects (w_db w') !! h ≠ objects db !! h) hs) ∧
  refused = length (filter (λ h, refuses state db h = true) hs).
Proof.
  intros Hr. unfold resign in Hr. apply runs_db_read in Hr as [Hr|(msg & Hr)];
    [|by apply runs_ret_inv in Hr as (_ & _ & [=])].
  assert (Hc : concat (chunks RESIGN_CHUNK (elements (all_hashes (w_db w)))) =
    elements (dom (objects (w_db w)))) by by apply chunks_concat.
  apply resign_chunks_spec in Hr; rewrite Hc in *; [|apply NoDup_elements].
  destruct Hr as (H1 & H2 & H3 & H4 & H5 & H6 & H7).
  assert (Hrows : ∀ h, objects (w_db w') !! h = resign_row state (w_db w) h <$> objects (w_db w) !! h).
  { intros h. rewrite H5. case_decide as Hh; [done|]. rewrite elem_of_elements, not_elem_of_dom in Hh.
    by rewrite Hh. }
  intros db hs. split_and!; [done|done|done|done| | |done].
  - intros h. rewrite Hrows. unfold resign_row, new_sigs, db.
    destruct (objects (w_db w) !! h) as [row|] eqn:Hrow.
    + destruct (get_object_Some _ _ _ Hrow) as (obj & -> & _).
      destruct (verify obj _ _); [by destruct (sign obj _ _)|done].
    + unfold get_object, get_object_and_last_accessed. by rewrite Hrow.
  - rewrite H6. simpl. f_equal. apply filter_ext_elem. intros h _. rewrite Hrows. unfold changes, db, resign_row.
    destruct (new_sigs state (w_db w) h) as [sigs|]; [|by rewrite option_fmap_id].
    destruct (objects (w_db w) !! h) as [row|]; [|done]. simpl.
    rewrite negb_true_iff, bool_decide_eq_false. split; intros Hne Heq; apply Hne.
    + injection Heq as Heq. by rewrite <-Heq.
    + rewrite Heq. by rewrite set_sigs_id.
Qed.

(** A row the old key signed, and a row nobody signed. *)
Definition old_key : SigningKey := mkSigningKey "k-1" (repeat 1%Z 32).
Definition new_key : SigningKey := mkSigningKey "k-2" (repeat 2%Z 32).
Definition rotating : AdminState := mkAdminState [old_key; new_key] "/nix/store" None None.
Definition signed_row : Row :=
  set_sigs [@key_sign toy_crypto old_key
              (fingerprint (mkObject "good" "/nix/store/good" "good" "sha256:n" 1 "f" 3 None None [] [] None)
                 "/nix/store")] (example_row "good" 3 0).
Definition rotation_world : World :=
  mkWorld (mkDb {["good" := signed_row; "forged" := example_row "forged" 4 0]} ∅ ∅ 7) ∅ inflight_new 5.

Lemma resign_only_verified_witness :
  ∃ w' held', runs rotation_world ∅ (@resign toy_crypto rotating) w' held' (Ok (Response_Resign 1 1)) ∧
    objects (w_db w') !! "forged" = objects (w_db rotation_world) !! "forged".
Proof.
  destruct (exec_result 0 rotation_world ∅ (@resign toy_crypto rotating)
    (Ok (Response_Resign 1 1)) ltac:(by_computation)) as (w' & held' & Hr).
  exists w', held'. split; [exact Hr|].
  destruct (@resign_only_verified toy_crypto rotating rotation_world ∅ w' held' 1 1 Hr)
    as (_ & _ & _ & _ & H & _).
  rewrite (H "forged"). by_computation.
Defined.
