(* ===== verification/Verify.v ===== *)
(** * Verify: the NarHash and NarSize check of an upload

    [crates/garret-pusher/src/verify.rs]. zstd's streaming decoder and SHA-256
    are parameters: [Zstd] is what the code calls of them, [ZstdLaws] what their
    documentation promises. [VerifiedNar] is a [ByteStream] over the body it
    wraps, so Storage's theorems about uploads apply to it.

    The offloaded check runs on a thread. Here it sees each chunk as soon as the
    chunk is queued; when the request task notices that the thread has refused
    the NAR ([notices]), and whether the thread fails ([dies]), is arbitrary.
    The queue's depth, which only delays the request task, is not modelled. *)

From S2P Require Import Prelude Text Common Prog Storage.

(** ** What the check uses *)

(** The outcome of one decoder call: input consumed, output, and the hint. *)
Record DecStep (D : Type) := mkDecStep {
  ds_consumed : nat;
  ds_out : list Z;
  ds_hint : nat;
  ds_decoder : D;
}.
Arguments mkDecStep {D} ds_consumed ds_out ds_hint ds_decoder.
Arguments ds_consumed {D} _.
Arguments ds_out {D} _.
Arguments ds_hint {D} _.
Arguments ds_decoder {D} _.

Class Zstd := {
  Decoder : Type;
  dec_new : Z → Result Decoder string;
  dec_run : Decoder → list Z → Z → Result (DecStep Decoder) string;
  compress_bound : Z → Z;
  sha256 : list Z → list Z;
}.

(** ** The check *)

Definition WINDOW_LOG_MAX : Z := 23.
Definition COMPRESSED_SLACK : Z := 64 * 1024.
Definition SCRATCH : Z := 128 * 1024.
Definition OFFLOAD_MIN : Z := 4 * 1024 * 1024.

Section check.
Context `{Zs : Zstd}.

Definition max_compressed_len (claimed_size : Z) : Z :=
  let size := Z.max claimed_size 0 in
  Z.min usize_max (compress_bound size + COMPRESSED_SLACK).

(** [hashed] are the bytes fed to the hasher. *)
Record Checker := mkChecker {
  ck_decoder : Decoder;
  ck_hashed : list Z;
  ck_nar_size : Z;
  ck_compressed : Z;
  ck_max_compressed : Z;
  ck_frame_done : bool;
  ck_claimed_hash : string;
  ck_claimed_size : Z;
}.

Definition checker_new (claimed_hash : string) (claimed_size : Z) : Result Checker string :=
  let? decoder := dec_new WINDOW_LOG_MAX in
  Ok (mkChecker decoder [] 0 0 (max_compressed_len claimed_size) false claimed_hash claimed_size).

(** The checker after a decoder call. *)
Definition decoded (c : Checker) (step : DecStep Decoder) : Checker :=
  mkChecker (ds_decoder step) (ck_hashed c ++ ds_out step) (ck_nar_size c + len_Z (ds_out step))
    (ck_compressed c) (ck_max_compressed c)
    (if (0 <? ds_consumed step) || negb (bool_decide (ds_out step = [])) then ds_hint step =? 0
     else ck_frame_done c)
    (ck_claimed_hash c) (ck_claimed_size c).

Fixpoint feed_loop (fuel : nat) (c : Checker) (src : list Z) : Result Checker string :=
  match fuel with
  | 0 => Err "feed: out of fuel"
  | S fuel =>
      let? step := map_err (λ e, "NAR is not a valid zstd stream: " +:+ e)
                     (dec_run (ck_decoder c) src SCRATCH) in
      let nar_size := (ck_nar_size c + len_Z (ds_out step))%Z in
      if (ck_claimed_size c <? nar_size)%Z
      then Err ("NAR is larger than its claimed NarSize " +:+ pretty (ck_claimed_size c))
      else
        let c := decoded c step in
        let src := drop (ds_consumed step) src in
        if bool_decide (src = []) && (len_Z (ds_out step) <? SCRATCH)%Z then Ok c
        else feed_loop fuel c src
  end.

(** A lap consumes input or produces output, and output stops at the claim. *)
Definition feed_fuel (c : Checker) (chunk : list Z) : nat :=
  S (length chunk + Z.to_nat (ck_claimed_size c - ck_nar_size c)).

Definition feed (c : Checker) (chunk : list Z) : Result Checker string :=
  let compressed := Z.min usize_max (ck_compressed c + len_Z chunk) in
  if (ck_max_compressed c <? compressed)%Z
  then Err ("compressed body exceeds " +:+ pretty (ck_max_compressed c)
              +:+ " bytes, the zstd bound for the claimed NarSize " +:+ pretty (ck_claimed_size c))
  else
    feed_loop (feed_fuel c chunk)
      (mkChecker (ck_decoder c) (ck_hashed c) (ck_nar_size c) compressed (ck_max_compressed c)
         (ck_frame_done c) (ck_claimed_hash c) (ck_claimed_size c)) chunk.

Definition checker_finish (c : Checker) : Result unit string :=
  if negb (ck_frame_done c) then Err "NAR stream ended mid-frame"
  else if bool_decide (ck_nar_size c ≠ ck_claimed_size c)
  then Err ("NarSize is " +:+ pretty (ck_nar_size c) +:+ ", not the claimed " +:+ pretty (ck_claimed_size c))
  else
    let hash := sha256_nix32 (sha256 (ck_hashed c)) in
    if bool_decide (hash ≠ ck_claimed_hash c)
    then Err ("NarHash is " +:+ hash +:+ ", not the claimed " +:+ ck_claimed_hash c)
    else Ok tt.

(** ** The wrapped stream *)

Inductive Outcome :=
  | Outcome_Accepted
  | Outcome_Refused (reason : string)
  | Outcome_Failed (reason : string).

(** [check]: the checker, or why it refused what it has seen. *)
Inductive Engine :=
  | Engine_Inline (c : Checker)
  | Engine_Offload (check : Result Checker string) (notices : list bool) (dies : bool).

Record VerifiedNar (S : Type) := mkNar {
  vn_inner : S;
  vn_engine : Engine;
  vn_outcome : option Outcome;
}.
Arguments mkNar {S} vn_inner vn_engine vn_outcome.
Arguments vn_inner {S} _.
Arguments vn_engine {S} _.
Arguments vn_outcome {S} _.

(** [VerifiedNar::new]; [notices] and [dies] are the thread's timing. *)
Definition verified_nar {S} (notices : list bool) (dies : bool) (inner : S)
    (claimed_hash : string) (claimed_size : Z) : Result (VerifiedNar S) string :=
  let? c := checker_new claimed_hash claimed_size in
  Ok (mkNar inner
        (if (OFFLOAD_MIN <=? claimed_size)%Z then Engine_Offload (Ok c) notices dies
         else Engine_Inline c) None).

Definition conclude {S} (inner : S) (e : Engine) (outcome : Outcome) : option Item * VerifiedNar S :=
  (match outcome with
   | Outcome_Accepted => None
   | Outcome_Refused reason => Some (Item_Error reason)
   | Outcome_Failed reason => Some (Item_Error reason)
   end, mkNar inner e (Some outcome)).

Definition outcome_of (verdict : Result unit string) : Outcome :=
  match verdict with Ok _ => Outcome_Accepted | Err reason => Outcome_Refused reason end.

(** [poll_verdict]. *)
Definition verdict_of (check : Result Checker string) (dies : bool) : Outcome :=
  if dies then Outcome_Failed "NAR check thread failed"
  else outcome_of (let? c := check in checker_finish c).

Definition nar_pull {S} `{ByteStream S} (s : VerifiedNar S) : option Item * VerifiedNar S :=
  match vn_outcome s with
  | Some _ => (None, s)
  | None =>
      match pull (vn_inner s) with
      | (Some (Item_Data chunk), inner) =>
          match vn_engine s with
          | Engine_Inline c =>
              match feed c chunk with
              | Ok c => (Some (Item_Data chunk), mkNar inner (Engine_Inline c) None)
              | Err reason => conclude inner (vn_engine s) (Outcome_Refused reason)
              end
          | Engine_Offload check notices dies =>
              if default false (head notices) && (dies || negb (is_ok check))
              then conclude inner (vn_engine s) (verdict_of check dies)
              else (Some (Item_Data chunk),
                    mkNar inner
                      (Engine_Offload (let? c := check in feed c chunk) (tail notices) dies) None)
          end
      | (Some item, inner) => (Some item, mkNar inner (vn_engine s) None)
      | (None, inner) =>
          match vn_engine s with
          | Engine_Inline c => conclude inner (vn_engine s) (outcome_of (checker_finish c))
          | Engine_Offload check _ dies => conclude inner (vn_engine s) (verdict_of check dies)
          end
      end
  end.

Definition nar_left {S} `{ByteStream S} (s : VerifiedNar S) : nat :=
  match vn_outcome s with Some _ => 0 | None => Datatypes.S (items_left (vn_inner s)) end.

#[export] Program Instance nar_stream {S} `{ByteStream S} : ByteStream (VerifiedNar S) := {|
  pull := nar_pull;
  items_left := nar_left;
|}.
Next Obligation.
  intros S HS s i s'. unfold nar_pull, nar_left. destruct (vn_outcome s); [done|].
  destruct (pull (vn_inner s)) as [[item|] inner] eqn:Hp; unfold conclude; intros Heq.
  - pose proof (pull_left _ _ _ Hp). repeat case_match; simplify_eq/=; lia.
  - repeat case_match; simplify_eq/=; lia.
Qed.
Next Obligation.
  intros S HS s s'. unfold nar_pull, nar_left.
  destruct (vn_outcome s) eqn:Ho; [intros [= <-]; by rewrite Ho|].
  destruct (pull (vn_inner s)) as [[item|] inner] eqn:Hp; unfold conclude; intros Heq;
    repeat case_match; simplify_eq/=; lia.
Qed.
End check.

Arguments mkNar {_ S} vn_inner vn_engine vn_outcome.
Arguments vn_inner {_ S} _.
Arguments vn_engine {_ S} _.
Arguments vn_outcome {_ S} _.

(** ** What zstd promises *)

Section laws.
Context `{Zs : Zstd}.

(** Whether the decoder stands at a frame's end: an idle call says nothing. *)
Definition at_end (done : bool) (step : DecStep Decoder) : bool :=
  if (0 <? ds_consumed step) || negb (bool_decide (ds_out step = [])) then ds_hint step =? 0 else done.

(** What the calls since [dec_new] consumed and produced. *)
Inductive decodes : list Z → list Z → bool → Decoder → Prop :=
  | decodes_new d : dec_new WINDOW_LOG_MAX = Ok d → decodes [] [] false d
  | decodes_run ins outs done d src step :
      decodes ins outs done d → dec_run d src SCRATCH = Ok step →
      decodes (ins ++ take (ds_consumed step) src) (outs ++ ds_out step) (at_end done step)
        (ds_decoder step).

(** [unzstd] decodes a whole stream: frames whose window is within the limit. *)
Class ZstdLaws (unzstd : list Z → option (list Z)) : Prop := {
  dec_starts : is_ok (dec_new WINDOW_LOG_MAX) = true;
  (* a call stays within its input and its output buffer ... *)
  dec_bounds d src step : dec_run d src SCRATCH = Ok step →
    ds_consumed step ≤ length src ∧ (len_Z (ds_out step) ≤ SCRATCH)%Z;
  (* ... and with input and room to write it moves *)
  dec_progress d src step : dec_run d src SCRATCH = Ok step → src ≠ [] →
    0 < ds_consumed step ∨ ds_out step ≠ [];
  (* a hint of 0 means every frame begun is decoded and flushed *)
  dec_sound ins outs d : decodes ins outs true d → unzstd ins = Some outs;
  (* a prefix of a good stream decodes to a prefix of its contents *)
  dec_accepts ins outs done d src rest nar : decodes ins outs done d →
    unzstd (ins ++ src ++ rest) = Some nar →
    ∃ step, dec_run d src SCRATCH = Ok step ∧ (outs ++ ds_out step) `prefix_of` nar;
  (* a call that took the rest of the stream and left room flushed it *)
  dec_flushes ins outs done d src step nar : decodes ins outs done d →
    dec_run d src SCRATCH = Ok step → ds_consumed step = length src →
    (len_Z (ds_out step) < SCRATCH)%Z → ins ++ src ≠ [] → unzstd (ins ++ src) = Some nar →
    outs ++ ds_out step = nar ∧ at_end done step = true;
}.
End laws.

(** ** The checker *)

Section checker.
Context `{Zs : Zstd} (unzstd : list Z → option (list Z)) `{!ZstdLaws unzstd}.

(** [c] has checked the bytes [ins]. *)
Record checked (c : Checker) (ins : list Z) : Prop := {
  ch_decodes : decodes ins (ck_hashed c) (ck_frame_done c) (ck_decoder c);
  ch_nar_size : ck_nar_size c = len_Z (ck_hashed c);
  ch_compressed : ck_compressed c = Z.min usize_max (len_Z ins);
}.

(** What a checker was told at the start. *)
Definition same_claim (c c' : Checker) : Prop :=
  ck_claimed_hash c' = ck_claimed_hash c ∧ ck_claimed_size c' = ck_claimed_size c ∧
  ck_max_compressed c' = ck_max_compressed c.

Lemma len_Z_app {A} (l k : list A) : len_Z (l ++ k) = (len_Z l + len_Z k)%Z.
Proof. unfold len_Z. rewrite length_app. lia. Qed.

(** The loop's part of [checked]. *)
Definition looped (c : Checker) (ins : list Z) : Prop :=
  decodes ins (ck_hashed c) (ck_frame_done c) (ck_decoder c) ∧ ck_nar_size c = len_Z (ck_hashed c).

Lemma looped_decoded c ins src step :
  looped c ins → dec_run (ck_decoder c) src SCRATCH = Ok step →
  looped (decoded c step) (ins ++ take (ds_consumed step) src).
Proof.
  intros [Hd Hn] Hrun. split; cbn [decoded ck_hashed ck_nar_size ck_frame_done ck_decoder].
  - exact (decodes_run _ _ _ _ _ _ Hd Hrun).
  - by rewrite len_Z_app, Hn.
Qed.

Lemma feed_loop_Ok fuel c ins src c' :
  looped c ins → feed_loop fuel c src = Ok c' →
  looped c' (ins ++ src) ∧ same_claim c c' ∧ ck_compressed c' = ck_compressed c ∧
  (ck_nar_size c' ≤ ck_claimed_size c)%Z.
Proof.
  revert c ins src. induction fuel as [|fuel IH]; intros c ins src Hc; cbn [feed_loop]; [done|].
  destruct (dec_run (ck_decoder c) src SCRATCH) as [step|e] eqn:Hrun; cbn [map_err]; [|done].
  destruct (Z.ltb_spec (ck_claimed_size c) (ck_nar_size c + len_Z (ds_out step))) as [|Hle]; [done|].
  pose proof (looped_decoded _ _ _ _ Hc Hrun) as Hc1.
  destruct (dec_bounds _ _ _ Hrun) as [Hn _].
  destruct (bool_decide (drop (ds_consumed step) src = []) && (len_Z (ds_out step) <? SCRATCH)%Z) eqn:Hstop.
  - intros [= <-]. apply andb_true_iff in Hstop as [Hdrop%bool_decide_eq_true _].
    assert (take (ds_consumed step) src = src) as Htake.
    { rewrite <-(take_drop (ds_consumed step) src) at 2. by rewrite Hdrop, app_nil_r. }
    rewrite Htake in Hc1. by split_and!.
  - intros (H1 & H2 & H3 & H4)%(IH _ _ _ Hc1).
    rewrite <-app_assoc, take_drop in H1. by split_and!.
Qed.

Lemma feed_Ok c ins chunk c' :
  checked c ins → feed c chunk = Ok c' →
  checked c' (ins ++ chunk) ∧ same_claim c c' ∧
  (ck_compressed c' ≤ ck_max_compressed c)%Z.
Proof.
  intros [Hd Hn Hc]. unfold feed.
  destruct (Z.ltb_spec (ck_max_compressed c) (Z.min usize_max (ck_compressed c + len_Z chunk)))
    as [|Hle]; [done|].
  intros Hf. apply (feed_loop_Ok _ _ ins) in Hf as ([H1 H2] & H3 & H4 & _); [|done].
  cbn [ck_compressed] in H4. split_and!; [|done|lia]. split; [done|done|].
  rewrite H4, Hc, len_Z_app. unfold len_Z, usize_max in *. lia.
Qed.

Lemma finish_Ok c ins :
  checked c ins → checker_finish c = Ok tt →
  ∃ nar, unzstd ins = Some nar ∧ len_Z nar = ck_claimed_size c ∧
    sha256_nix32 (sha256 nar) = ck_claimed_hash c.
Proof.
  intros [Hd Hn _]. unfold checker_finish.
  destruct (ck_frame_done c) eqn:Hdone; cbn [negb]; [|done].
  case_bool_decide as Hs; [done|]. case_bool_decide as Hh; [done|]. intros _.
  exists (ck_hashed c). split_and!; [|by rewrite <-Hn; destruct (decide (ck_nar_size c = ck_claimed_size c))|].
  - by eapply dec_sound.
  - by destruct (decide (sha256_nix32 (sha256 (ck_hashed c)) = ck_claimed_hash c)).
Qed.

(** A lap the loop does not stop after consumed or produced something. *)
Lemma lap_moves d src step :
  dec_run d src SCRATCH = Ok step →
  bool_decide (drop (ds_consumed step) src = []) && (len_Z (ds_out step) <? SCRATCH)%Z = false →
  0 < ds_consumed step ∨ 0 < length (ds_out step).
Proof.
  intros Hrun Hgo. destruct src as [|b src].
  - right. rewrite drop_nil, bool_decide_eq_true_2 in Hgo by done. simpl in Hgo.
    apply Z.ltb_ge in Hgo. unfold len_Z, SCRATCH in Hgo. lia.
  - destruct (dec_progress _ _ _ Hrun) as [?|Ho]; [done|by left|right].
    destruct (ds_out step); [done|simpl; lia].
Qed.

(** No lap is wasted, so the fuel never runs out. *)
Lemma feed_loop_fuel fuel c src :
  length src + Z.to_nat (ck_claimed_size c - ck_nar_size c) < fuel →
  feed_loop fuel c src ≠ Err "feed: out of fuel".
Proof.
  revert c src. induction fuel as [|fuel IH]; intros c src Hfuel; cbn [feed_loop]; [lia|].
  destruct (dec_run (ck_decoder c) src SCRATCH) as [step|e] eqn:Hrun; cbn [map_err]; [|done].
  destruct (Z.ltb_spec (ck_claimed_size c) (ck_nar_size c + len_Z (ds_out step))) as [|Hle]; [done|].
  destruct (bool_decide (drop (ds_consumed step) src = []) && (len_Z (ds_out step) <? SCRATCH)%Z) eqn:Hstop;
    [done|].
  apply IH. cbn [decoded ck_claimed_size ck_nar_size]. rewrite length_drop.
  destruct (dec_bounds _ _ _ Hrun) as [Hn _].
  pose proof (lap_moves _ _ _ Hrun Hstop). unfold len_Z in *. lia.
Qed.

(** An honest chunk passes. *)
Lemma feed_loop_honest fuel c ins src rest nar :
  length src + Z.to_nat (ck_claimed_size c - ck_nar_size c) < fuel →
  looped c ins → unzstd (ins ++ src ++ rest) = Some nar → (len_Z nar ≤ ck_claimed_size c)%Z →
  ∃ c', feed_loop fuel c src = Ok c' ∧
    (rest = [] → ins ++ src ≠ [] → ck_hashed c' = nar ∧ ck_frame_done c' = true).
Proof.
  revert c ins src. induction fuel as [|fuel IH]; intros c ins src Hfuel Hc Hun Hle; [lia|].
  pose proof (feed_loop_fuel _ _ _ Hfuel) as Hnf. revert Hnf. cbn [feed_loop].
  destruct (dec_accepts _ _ _ _ _ _ _ (proj1 Hc) Hun) as (step & Hrun & [more Hpre]).
  rewrite Hrun. cbn [map_err].
  destruct (Z.ltb_spec (ck_claimed_size c) (ck_nar_size c + len_Z (ds_out step))) as [Hbig|Hsz].
  { exfalso. rewrite Hpre, !len_Z_app in Hle. rewrite (proj2 Hc) in Hbig. unfold len_Z in *. lia. }
  pose proof (looped_decoded _ _ _ _ Hc Hrun) as Hc1.
  destruct (dec_bounds _ _ _ Hrun) as [Hn _].
  destruct (bool_decide (drop (ds_consumed step) src = []) && (len_Z (ds_out step) <? SCRATCH)%Z) eqn:Hstop.
  - intros _. eexists. split; [done|]. intros -> Hne. rewrite app_nil_r in Hun.
    apply andb_true_iff in Hstop as [Hdrop%bool_decide_eq_true Hroom%Z.ltb_lt].
    assert (ds_consumed step = length src) as Hall.
    { apply (f_equal length) in Hdrop. rewrite length_drop in Hdrop. simpl in Hdrop. lia. }
    exact (dec_flushes _ _ _ _ _ _ _ (proj1 Hc) Hrun Hall Hroom Hne Hun).
  - intros Hnf. destruct (IH (decoded c step) (ins ++ take (ds_consumed step) src) (drop (ds_consumed step) src))
      as (c' & Hf & Hend); [|done| |done|].
    + cbn [decoded ck_claimed_size ck_nar_size]. rewrite length_drop.
      pose proof (lap_moves _ _ _ Hrun Hstop). unfold len_Z in *. lia.
    + by rewrite <-app_assoc, (app_assoc (take _ _)), take_drop.
    + exists c'. split; [done|]. intros Hr Hne. apply Hend; [done|].
      by rewrite <-app_assoc, take_drop.
Qed.

Lemma feed_honest c ins chunk rest nar :
  checked c ins → unzstd (ins ++ chunk ++ rest) = Some nar → (len_Z nar ≤ ck_claimed_size c)%Z →
  (len_Z (ins ++ chunk) ≤ ck_max_compressed c)%Z →
  ∃ c', feed c chunk = Ok c' ∧
    (rest = [] → ins ++ chunk ≠ [] → ck_hashed c' = nar ∧ ck_frame_done c' = true).
Proof.
  intros [Hd Hn Hc] Hun Hle Hmax. unfold feed. rewrite Hc.
  destruct (Z.ltb_spec (ck_max_compressed c) (Z.min usize_max (Z.min usize_max (len_Z ins) + len_Z chunk)))
    as [Hover|_]; [rewrite len_Z_app in Hmax; lia|].
  eapply feed_loop_honest; [|by split|done|done]. cbn. unfold feed_fuel. lia.
Qed.
End checker.

(** ** The stream *)

Section stream.
Context `{Zs : Zstd} (unzstd : list Z → option (list Z)) `{!ZstdLaws unzstd}.
Context {S : Type} `{ByteStream S}.

(** The check of a stream that has passed [ins] on: [Ok c] while it stands. *)
Definition engine_check (e : Engine) : Result Checker string :=
  match e with Engine_Inline c => Ok c | Engine_Offload check _ _ => check end.

Record streaming (c0 : Checker) (s : VerifiedNar S) (ins : list Z) : Prop := {
  st_open : vn_outcome s = None;
  st_check : ∀ c, engine_check (vn_engine s) = Ok c →
    checked c ins ∧ same_claim c0 c ∧
    (ins ≠ [] → ck_compressed c ≤ ck_max_compressed c0)%Z;
}.

Lemma nar_pull_data c0 s ins chunk s' :
  streaming c0 s ins → pull s = (Some (Item_Data chunk), s') →
  streaming c0 s' (ins ++ chunk) ∧ pull (vn_inner s) = (Some (Item_Data chunk), vn_inner s').
Proof.
  intros [Ho Hc]. cbn [pull nar_stream]. unfold nar_pull. rewrite Ho.
  assert (Hfeed : ∀ c c', engine_check (vn_engine s) = Ok c → feed c chunk = Ok c' →
    checked c' (ins ++ chunk) ∧ same_claim c0 c' ∧
    (ins ++ chunk ≠ [] → ck_compressed c' ≤ ck_max_compressed c0)%Z).
  { intros c c' (H1 & H2 & _)%Hc Hf. apply (feed_Ok unzstd _ ins) in Hf as (G1 & G2 & G3); [|done].
    destruct H2 as (E1 & E2 & E3), G2 as (F1 & F2 & F3).
    split; [done|]. rewrite <-E3. split; [split_and!; congruence|done]. }
  destruct (pull (vn_inner s)) as [[[bytes|msg|]|] inner] eqn:Hp; unfold conclude; try done.
  - destruct (vn_engine s) as [c|check notices dies] eqn:He.
    + destruct (feed c bytes) as [c'|e] eqn:Hf; [|done]. intros [= -> <-]. split; [|done].
      split; [done|]. intros c1 [= <-]. by eapply Hfeed.
    + destruct (default false (head notices) && (dies || negb (is_ok check))).
      { destruct (verdict_of check dies); done. }
      intros [= -> <-]. split; [|done]. split; [done|]. cbn. intros c1.
      destruct check as [c|e]; [|done]. by apply Hfeed.
  - destruct (vn_engine s); [destruct (outcome_of (checker_finish c))|destruct (verdict_of check dies)]; done.
Qed.

Lemma pulls_streaming c0 s chunks s' :
  pulls s chunks s' → ∀ ins, streaming c0 s ins →
  streaming c0 s' (ins ++ concat chunks) ∧ pulls (vn_inner s) chunks (vn_inner s').
Proof.
  induction 1 as [s|s chunk s1 chunks s' Hp _ IH]; intros ins Hs.
  - rewrite app_nil_r. split; [done|constructor].
  - apply (nar_pull_data c0 _ ins) in Hp as [Hs1 Hp1]; [|done].
    destruct (IH _ Hs1) as [H1 H2]. split; [by rewrite <-app_assoc in H1|]. by econstructor.
Qed.

Lemma nar_pull_end c0 s ins s' :
  streaming c0 s ins → pull s = (None, s') →
  pull (vn_inner s) = (None, vn_inner s') ∧ vn_outcome s' = Some Outcome_Accepted ∧
  ∃ c, engine_check (vn_engine s) = Ok c ∧ checker_finish c = Ok tt.
Proof.
  intros [Ho _]. cbn [pull nar_stream]. unfold nar_pull. rewrite Ho.
  assert (Hver : ∀ check dies, verdict_of check dies = Outcome_Accepted →
    ∃ c, check = Ok c ∧ checker_finish c = Ok tt).
  { unfold verdict_of, outcome_of. intros check [] Hv; [done|]. destruct check as [c|]; [|done].
    exists c. split; [done|]. by destruct (checker_finish c) as [[]|]. }
  destruct (pull (vn_inner s)) as [[[bytes|msg|]|] inner] eqn:Hp; unfold conclude; try done.
  - destruct (vn_engine s) as [c|check notices dies]; [by destruct (feed c bytes)|].
    destruct (default false (head notices) && (dies || negb (is_ok check))) eqn:Hn; [|done].
    destruct (verdict_of check dies) eqn:Hv; try done. exfalso.
    destruct (Hver _ _ Hv) as (c & -> & _). apply andb_true_iff in Hn as [_ Hn].
    rewrite orb_false_r in Hn. by subst dies.
  - destruct (vn_engine s) as [c|check notices dies].
    + unfold outcome_of. destruct (checker_finish c) as [[]|e] eqn:Hf; [|done]. intros [= <-].
      split_and!; [done|done|]. by exists c.
    + destruct (verdict_of check dies) eqn:Hv; try done. intros [= <-]. split_and!; [done|done|].
      by eapply Hver.
Qed.

Lemma verified_nar_new notices dies (inner : S) hash size vn :
  verified_nar notices dies inner hash size = Ok vn →
  ∃ c0, ck_claimed_hash c0 = hash ∧ ck_claimed_size c0 = size ∧
    ck_max_compressed c0 = max_compressed_len size ∧ streaming c0 vn [] ∧ vn_inner vn = inner.
Proof.
  unfold verified_nar, checker_new. destruct (dec_new WINDOW_LOG_MAX) as [d|] eqn:Hd; [|done].
  intros [= <-]. eexists (mkChecker _ [] 0 0 (max_compressed_len size) false hash size).
  split_and!; try done. split; [done|]. intros c Hc.
  assert (c = mkChecker d [] 0 0 (max_compressed_len size) false hash size) as ->.
  { by destruct (OFFLOAD_MIN <=? size)%Z; injection Hc as <-. }
  split_and!; [|done|done]. split; [by constructor|done|].
  unfold len_Z, usize_max. simpl. lia.
Qed.
End stream.

Lemma verified_nar_accepts `{Zs : Zstd} unzstd `{!ZstdLaws unzstd} {S} `{ByteStream S}
    notices dies (body : S) hash size vn chunks vn' :
  verified_nar notices dies body hash size = Ok vn → reads vn chunks true vn' →
  vn_outcome vn' = Some Outcome_Accepted ∧ reads body chunks true (vn_inner vn') ∧
  (concat chunks ≠ [] → Z.min usize_max (len_Z (concat chunks)) ≤ max_compressed_len size)%Z ∧
  ∃ nar, unzstd (concat chunks) = Some nar ∧ len_Z nar = size ∧ sha256_nix32 (sha256 nar) = hash.
Proof.
  intros (c0 & Hh & Hs & Hm & Hst & Hin)%verified_nar_new Hreads.
  inversion Hreads as [|chunks' s1 s' Hpulls Hend]; subst chunks' s'.
  destruct (pulls_streaming unzstd c0 _ _ _ Hpulls [] Hst) as [Hst1 Hp1]. simpl in Hst1.
  destruct (nar_pull_end c0 _ _ _ Hst1 Hend) as (Hend1 & Ho & c & Hc & Hf).
  destruct (st_check _ _ _ Hst1 c Hc) as (Hck & (E1 & E2 & E3) & Hmax).
  rewrite Hin in Hp1. split_and!; [done|by econstructor| |].
  - intros Hne. rewrite <-Hm, <-(ch_compressed _ _ Hck). by apply Hmax.
  - destruct (finish_Ok unzstd _ _ Hck Hf) as (nar & H1 & H2 & H3). exists nar.
    split_and!; [done|congruence|congruence].
Qed.

(** C8: If a NAR body wrapped in the verifier is read to its end without error, the verdict was
    Accepted, the chunks are those of the body, the compressed length is within the bound for the
    claimed size, and the body decompresses to a NAR of exactly the claimed size and hash, whichever
    of the two engines checked it. *)
Theorem accepted_nar_is_the_claimed_one `{Zs : Zstd} unzstd `{!ZstdLaws unzstd} {S} `{ByteStream S}
    notices dies (body : S) hash size vn chunks vn' :
  verified_nar notices dies body hash size = Ok vn → reads vn chunks true vn' →
  vn_outcome vn' = Some Outcome_Accepted ∧ reads body chunks true (vn_inner vn') ∧
  (concat chunks ≠ [] → Z.min usize_max (len_Z (concat chunks)) ≤ max_compressed_len size)%Z ∧
  ∃ nar, unzstd (concat chunks) = Some nar ∧ len_Z nar = size ∧ sha256_nix32 (sha256 nar) = hash.
Proof. intros Hvn Hreads. by eapply verified_nar_accepts. Qed.

(** A copying codec: every byte string decodes to itself, 16 bytes a call. *)
Definition toy_zstd : Zstd := {|
  Decoder := unit;
  dec_new _ := Ok tt;
  dec_run _ src _ := Ok (mkDecStep (length (take 16 src)) (take 16 src) 0 tt);
  compress_bound n := n;
  sha256 bytes := take 32 (bytes ++ repeat 0%Z 32);
|}.

Lemma toy_step (src : list Z) done :
  let out := take 16 src in
  @at_end toy_zstd done (mkDecStep (length out) out 0 tt) = if bool_decide (out = []) then done else true.
Proof. unfold at_end. cbn. by destruct (take _ src). Qed.

Lemma take_length_take {A} n (l : list A) : take (length (take n l)) l = take n l.
Proof. rewrite <-(take_drop n l) at 2. by rewrite take_app_length. Qed.

Lemma toy_decodes ins outs done d :
  @decodes toy_zstd ins outs done d → outs = ins ∧ (ins ≠ [] → done = true).
Proof.
  induction 1 as [d Hd|ins outs done d src step _ (-> & IH) Hrun]; [done|]. injection Hrun as <-.
  rewrite toy_step. cbn [ds_consumed ds_out]. rewrite take_length_take. split; [done|].
  case_bool_decide as Hout; [|done]. by rewrite Hout, app_nil_r.
Qed.

#[export] Instance toy_zstd_laws : @ZstdLaws toy_zstd Some.
Proof.
  split.
  - done.
  - intros d src step [= <-]. cbn [ds_consumed ds_out]. unfold len_Z, SCRATCH. rewrite length_take. lia.
  - intros d src step [= <-] Hne. cbn. left. destruct src; [done|]. simpl. lia.
  - intros ins outs d [-> _]%toy_decodes. done.
  - intros ins outs done d src rest nar [-> _]%toy_decodes [= <-]. eexists. split; [done|]. cbn.
    exists (drop 16 src ++ rest). by rewrite <-app_assoc, (app_assoc (take _ _)), take_drop.
  - intros ins outs done d src step nar [-> Hdone]%toy_decodes [= <-] Hall Hroom Hne [= <-].
    cbn [ds_out ds_consumed] in *.
    assert (take 16 src = src) as E by (rewrite <-take_length_take, Hall; apply firstn_all).
    rewrite toy_step, E. split; [done|]. case_bool_decide as Hs; [|done]. subst src.
    rewrite app_nil_r in Hne. by apply Hdone.
Qed.

#[local] Existing Instance toy_zstd.

Lemma accepted_nar_is_the_claimed_one_witness :
  let hash := sha256_nix32 (@sha256 toy_zstd [1; 2; 3]%Z) in
  ∃ vn', vn_outcome vn' = Some Outcome_Accepted ∧
    reads [Item_Data [1; 2]; Item_Data [3]]%Z [[1; 2]; [3]]%Z true (vn_inner vn') ∧
    ∃ nar, Some [1; 2; 3]%Z = Some nar ∧ len_Z nar = 3%Z ∧ sha256_nix32 (@sha256 toy_zstd nar) = hash.
Proof.
  intros hash.
  destruct (@verified_nar toy_zstd (list Item) [] false [Item_Data [1; 2]; Item_Data [3]]%Z hash 3)
    as [vn|e] eqn:Hvn; [|discriminate Hvn].
  assert (∃ vn', reads vn [[1; 2]; [3]]%Z true vn') as [vn' Hr].
  { injection Hvn as <-. eexists. econstructor; [repeat (eapply pulls_cons; [vm_compute; reflexivity|])|].
    - apply pulls_nil.
    - vm_compute. reflexivity. }
  exists vn'.
  destruct (@accepted_nar_is_the_claimed_one toy_zstd Some toy_zstd_laws _ _ [] false _ hash 3%Z vn _ vn' Hvn Hr)
    as (H1 & H2 & _ & H3). split_and!; [exact H1|exact H2|exact H3].
Defined.

(** An honest check in progress: nothing refused, and complete once all is fed. *)
Section honest.
Context `{Zs : Zstd} (unzstd : list Z → option (list Z)) `{!ZstdLaws unzstd}.
Context {S : Type} `{ByteStream S}.
Context (body nar : list Z) (hash : string) (size : Z).
Context (Hun : unzstd body = Some nar) (Hsize : len_Z nar = size)
        (Hhash : sha256_nix32 (sha256 nar) = hash) (Hmax : (len_Z body ≤ max_compressed_len size)%Z).

Record honest (s : VerifiedNar S) (ins rest : list Z) (c : Checker) : Prop := {
  ho_open : vn_outcome s = None;
  ho_engine : match vn_engine s with
              | Engine_Inline c' => c' = c
              | Engine_Offload check _ dies => check = Ok c ∧ dies = false
              end;
  ho_split : ins ++ rest = body;
  ho_checked : checked c ins;
  ho_claim : ck_claimed_hash c = hash ∧ ck_claimed_size c = size ∧
    ck_max_compressed c = max_compressed_len size;
  ho_end : rest = [] → ins ≠ [] → ck_hashed c = nar ∧ ck_frame_done c = true;
}.

Lemma honest_data s ins chunk rest c inner :
  honest s ins (chunk ++ rest) c → pull (vn_inner s) = (Some (Item_Data chunk), inner) →
  ∃ s' c', pull s = (Some (Item_Data chunk), s') ∧ vn_inner s' = inner ∧ honest s' (ins ++ chunk) rest c'.
Proof.
  intros [Ho He Hs Hc (Hh & Hz & Hm) _] Hp.
  destruct (feed_honest unzstd c ins chunk rest nar) as (c' & Hf & Hend);
    [done|by rewrite Hs|by rewrite Hz, Hsize| |].
  { rewrite Hm. transitivity (len_Z body); [|done]. rewrite <-Hs, app_assoc, (len_Z_app (ins ++ chunk)).
    unfold len_Z. lia. }
  pose proof (feed_Ok unzstd c ins chunk c' Hc Hf) as (Hc' & (E1 & E2 & E3) & _).
  cbn [pull nar_stream]. unfold nar_pull. rewrite Ho, Hp.
  assert (Hclaim : ck_claimed_hash c' = hash ∧ ck_claimed_size c' = size ∧
    ck_max_compressed c' = max_compressed_len size) by (split_and!; congruence).
  destruct (vn_engine s) as [c1|check notices dies]; [subst c1; rewrite Hf|destruct He as [-> ->]].
  - eexists _, c'. split; [done|]. split; [done|]. split; try done. by rewrite <-app_assoc.
  - rewrite andb_false_r. eexists _, c'. split; [done|]. split; [done|].
    split; try done. by rewrite <-app_assoc.
Qed.

Lemma honest_pulls inner0 chunks inner :
  pulls inner0 chunks inner → ∀ s ins c, vn_inner s = inner0 → honest s ins (concat chunks) c →
  ∃ s' c', pulls s chunks s' ∧ vn_inner s' = inner ∧ honest s' (ins ++ concat chunks) [] c'.
Proof.
  induction 1 as [i|i chunk i1 chunks i' Hp _ IH]; intros s ins c <- Hs.
  - exists s, c. split; [constructor|]. split; [done|]. by rewrite app_nil_r.
  - cbn [concat] in Hs. destruct (honest_data _ _ _ _ _ _ Hs Hp) as (s1 & c1 & Hp1 & Hi & Hs1).
    destruct (IH s1 _ c1 Hi Hs1) as (s' & c' & H1 & H2 & H3). exists s', c'.
    split; [by econstructor|]. split; [done|]. by rewrite <-app_assoc in H3.
Qed.
Lemma honest_new notices inner vn :
  verified_nar notices false inner hash size = Ok vn → ∃ c, honest vn [] body c.
Proof.
  intros Hvn. pose proof (verified_nar_new _ _ _ _ _ _ Hvn) as (c0 & _ & _ & _ & Hst & _).
  unfold verified_nar, checker_new in Hvn. destruct (dec_new WINDOW_LOG_MAX) as [d|]; [|done].
  injection Hvn as <-.
  destruct (st_check _ _ _ Hst (mkChecker d [] 0 0 (max_compressed_len size) false hash size))
    as (Hck & _); [by destruct (OFFLOAD_MIN <=? size)%Z|].
  eexists. split; [done|by destruct (OFFLOAD_MIN <=? size)%Z|done|exact Hck|done|done].
Qed.

Lemma honest_end s ins c inner :
  honest s ins [] c → body ≠ [] → pull (vn_inner s) = (None, inner) →
  ∃ s', pull s = (None, s') ∧ vn_outcome s' = Some Outcome_Accepted.
Proof.
  intros [Ho He Hs Hck (E1 & E2 & E3) Hdone] Hne Hend. rewrite app_nil_r in Hs.
  destruct (Hdone eq_refl) as [Hh Hd]; [by rewrite Hs|].
  assert (Hf : checker_finish c = Ok tt).
  { unfold checker_finish. rewrite Hd, E2, (ch_nar_size _ _ Hck), Hh, Hsize, E1. cbn [negb].
    case_bool_decide as Hbad; [by destruct Hbad|]. by case_bool_decide as Hbad2; [destruct Hbad2|]. }
  cbn [pull nar_stream]. unfold nar_pull, verdict_of. rewrite Ho, Hend.
  destruct (vn_engine s) as [c1|check n dies]; [subst c1|destruct He as [-> ->]]; rewrite Hf;
    eexists; split; done.
Qed.
End honest.

(** A non-empty body that decompresses to the claimed NAR and stays within the compression bound
    passes through the verifier unchanged and is accepted, on either engine. *)
Theorem honest_nar_is_accepted `{Zs : Zstd} unzstd `{!ZstdLaws unzstd} {S} `{ByteStream S}
    notices (body : S) chunks body' nar size :
  reads body chunks true body' → concat chunks ≠ [] →
  unzstd (concat chunks) = Some nar → len_Z nar = size →
  (len_Z (concat chunks) ≤ max_compressed_len size)%Z →
  ∃ vn vn', verified_nar notices false body (sha256_nix32 (sha256 nar)) size = Ok vn ∧
    reads vn chunks true vn' ∧ vn_outcome vn' = Some Outcome_Accepted.
Proof.
  intros Hreads Hne Hun Hsize Hmax. inversion Hreads as [|chunks' i i' Hp Hend]; subst chunks' i'.
  pose proof (dec_starts (unzstd := unzstd)) as Hstart.
  destruct (verified_nar notices false body (sha256_nix32 (sha256 nar)) size) as [vn|e] eqn:Hvn.
  2: { unfold verified_nar, checker_new in Hvn. by destruct (dec_new WINDOW_LOG_MAX). }
  pose proof (verified_nar_new _ _ _ _ _ _ Hvn) as (_ & _ & _ & _ & _ & Hin).
  destruct (honest_new (concat chunks) nar _ _ _ _ _ Hvn) as [c Hc].
  destruct (honest_pulls unzstd _ _ _ _ Hun Hsize Hmax _ _ _ Hp _ _ _ Hin Hc) as (s' & c' & Hps & Hi & Hc').
  rewrite <-Hi in Hend.
  destruct (honest_end _ _ _ _ Hsize eq_refl _ _ _ _ Hc' Hne Hend) as (s2 & Hp2 & Ho2).
  exists vn, s2. split_and!; [done|by econstructor|done].
Qed.

Lemma honest_nar_is_accepted_witness :
  ∃ vn vn', @verified_nar toy_zstd (list Item) [true] false [Item_Data [1; 2]; Item_Data []]%Z
      (sha256_nix32 (@sha256 toy_zstd [1; 2]%Z)) 2 = Ok vn ∧
    reads vn [[1; 2]; []]%Z true vn' ∧ vn_outcome vn' = Some Outcome_Accepted.
Proof.
  apply (@honest_nar_is_accepted toy_zstd Some toy_zstd_laws (list Item) _ [true] _ [[1; 2]; []]%Z [] [1; 2]%Z).
  - econstructor; [repeat (eapply pulls_cons; [reflexivity|]); apply pulls_nil|reflexivity].
  - done.
  - done.
  - done.
  - vm_compute. done.
Defined.
