(* ===== verification/Pusher.v ===== *)
(** * Pusher: negotiation and uploads

    [crates/garret-pusher/src/main.rs]: [missing_paths], [upload] and what it
    calls. A handler's answer is an acknowledgement or an [HttpError].
    serde_json's parser is a parameter; the random id of an internal error and
    the quoting of values in messages are left out. The router and its bearer
    check are in Routes, binding listeners and the shutdown loop in Startup, the
    discovery document in Settings; metrics and logging are left out. *)

From stdpp Require Import pretty.
From S2P Require Import Prelude Text Common InFlight Db Prog Storage World Narinfo Verify.

(** ** Errors *)

Record HttpError := mkError {
  er_status : Z;
  er_message : string;
  er_reason : option string;
  er_retry_after : bool;
}.

Definition refused (message : string) : HttpError := mkError 400 message (Some "refused") false.
Definition retry_after (status : Z) (message : string) : HttpError := mkError status message None true.

(** [impl From<anyhow::Error> for Error]. *)
Definition error_from (e : Failure) : HttpError :=
  match e with
  | Fail_BodyOverLimit over => refused over
  | Fail_ClientBody _ => mkError 500 "internal error" (Some "client_body") false
  | Fail_S3 _ => mkError 500 "internal error" (Some "storage") false
  | Fail_Other _ => mkError 500 "internal error" (Some "internal") false
  end.

Definition quiescing : HttpError := retry_after 503 "cache is quiescing for fsck --repair --quiesce".

(** ** Negotiation *)

Definition missing_paths (hashes : list string) : Handler (Result (list string) HttpError) :=
  do missing <- db_write_now (λ now db, missing db hashes now);
  Ret (map_err error_from missing).

(** ** The preamble *)

Definition MAX_PREAMBLE : Z := 1024 * 1024.

(** serde_json's parser. *)
Class Json := {
  preamble_from_slice : list Z → Result Preamble string;
}.

Section upload.
Context `{J : Json, C : Crypto, Zs : Zstd}.

(** [Some] with the bytes behind the preamble once it is complete. *)
Definition take_preamble (buf : list Z) : Result (option (Preamble * list Z)) HttpError :=
  match preamble_end buf MAX_PREAMBLE with
  | Ok (Some end_) =>
      let? preamble := map_err (λ e, refused ("bad preamble: " +:+ e))
                         (preamble_from_slice (drop 4 (take (Z.to_nat end_) buf))) in
      Ok (Some (preamble, drop (Z.to_nat end_) buf))
  | Ok None => Ok None
  | Err _ => Err (refused "preamble length is implausible")
  end.

(** The loop of [store_upload] that reads it; the items left bound its laps. *)
Fixpoint read_preamble {S} `{ByteStream S} (fuel : nat) (stream : S) (head : list Z)
    : Result (Preamble * list Z) HttpError * S :=
  match take_preamble head with
  | Err e => (Err e, stream)
  | Ok (Some preamble) => (Ok preamble, stream)
  | Ok None =>
      match fuel with
      | 0 => (Err (refused "read_preamble: out of fuel"), stream)
      | Datatypes.S fuel =>
          match next_chunk stream "preamble" with
          | (Err e, stream) => (Err (error_from e), stream)
          | (Ok None, stream) => (Err (refused "body ended before the preamble was complete"), stream)
          | (Ok (Some (Err e)), stream) => (Err (refused e), stream)
          | (Ok (Some (Ok chunk)), stream) => read_preamble fuel stream (head ++ chunk)
          end
      end
  end.

(** [once(leftover).chain(stream)]. *)
Record Chain (S : Type) := mkChain {
  ch_first : option (list Z);
  ch_rest : S;
}.

Definition chain_pull {S} `{ByteStream S} (c : Chain S) : option Item * Chain S :=
  match ch_first S c with
  | Some bytes => (Some (Item_Data bytes), mkChain S None (ch_rest S c))
  | None => let '(item, rest) := pull (ch_rest S c) in (item, mkChain S None rest)
  end.
Definition chain_left {S} `{ByteStream S} (c : Chain S) : nat :=
  match ch_first S c with Some bytes => Datatypes.S (length bytes) | None => 0 end + items_left (ch_rest S c).

#[export] Program Instance chain_stream {S} `{ByteStream S} : ByteStream (Chain S) := {|
  pull := chain_pull;
  items_left := chain_left;
|}.
Next Obligation.
  intros S HS [[b|] rest] i s'; unfold chain_pull, chain_left; cbn.
  - intros [= <- <-]. cbn. lia.
  - destruct (pull rest) as [item rest'] eqn:Hp. intros [= -> <-]. cbn. by apply pull_left in Hp.
Qed.
Next Obligation.
  intros S HS [[b|] rest] s'; unfold chain_pull, chain_left; cbn; [done|].
  destruct (pull rest) as [item rest'] eqn:Hp. intros [= -> <-]. cbn. by apply pull_end in Hp.
Qed.

(** ** The object of a preamble *)

Definition basename_of (store_dir path what : string) : Result string HttpError :=
  ok_or (store_basename path store_dir)
    (refused (what +:+ " " +:+ path +:+ " is not a store path in " +:+ store_dir)).

Definition is_multi_line (s : string) : bool :=
  ascii_mem (ascii_of_nat 10) s || ascii_mem (ascii_of_nat 13) s.

Definition build_object (hash : string) (preamble : Preamble) (store_dir subject : string)
    : Result Object HttpError :=
  let? name := ok_or
    (base ← store_basename (pre_store_path preamble) store_dir;
     rest ← strip_prefix hash base; strip_prefix "-" rest)
    (refused ("store path " +:+ pre_store_path preamble +:+ " is not " +:+ store_dir +:+ "/"
                +:+ hash +:+ "-<name>")) in
  let? references := collect_results (λ r, basename_of store_dir r "reference")
                       (pre_references preamble) in
  let references := order_by String.le references in
  let? deriver := match pre_deriver preamble with
                  | None => Ok None
                  | Some d => let? base := basename_of store_dir d "deriver" in Ok (Some base)
                  end in
  let? _ := match pre_ca preamble with
            | Some ca => if is_multi_line ca then Err (refused ("ca " +:+ ca +:+ " is not a single line"))
                         else Ok tt
            | None => Ok tt
            end in
  let? nar_hash := map_err refused (normalize_hash b64_decode (pre_nar_hash preamble)) in
  Ok (mkObject hash (pre_store_path preamble) name nar_hash (pre_nar_size preamble) "" 0 deriver
        (pre_ca preamble) references [] (Some subject)).

(** ** The upload *)

Record UploadState := mkUploadState {
  us_keys : list SigningKey;
  us_store_dir : string;
  us_limits : UploadLimits;
}.

Definition with_blob (obj : Object) (file_hash : string) (file_size : Z) (sigs : list string) : Object :=
  mkObject (o_store_path_hash obj) (o_store_path obj) (o_name obj) (o_nar_hash obj) (o_nar_size obj)
    file_hash file_size (o_deriver obj) (o_ca obj) (o_references obj) sigs (o_pushed_by obj).

(** The object a stored body makes, signed. *)
Definition signed_object (state : UploadState) (obj : Object) (digest : list Z) (size : Z)
    : Result Object HttpError :=
  let obj := with_blob obj (sha256_nix32 digest) size [] in
  let? sigs := map_err (λ e, error_from (Fail_Other e)) (sign obj (us_store_dir state) (us_keys state)) in
  Ok (with_sigs obj sigs).

(** [notices] and [dies] are the check thread's timing (see Verify). *)
Definition store_upload {S} `{ByteStream S} (state : UploadState) (hash subject : string) (body : S)
    (notices : list bool) (dies : bool) : Handler (Result Z HttpError) :=
  match read_preamble (Datatypes.S (items_left body)) body [] with
  | (Err e, _) => Ret (Err e)
  | (Ok (preamble, leftover), stream) =>
      match build_object hash preamble (us_store_dir state) subject with
      | Err e => Ret (Err e)
      | Ok object =>
          match verified_nar notices dies (mkChain S (Some leftover) stream)
                  (o_nar_hash object) (o_nar_size object) with
          | Err e => Ret (Err (error_from (Fail_Other ("starting the zstd decoder: " +:+ e))))
          | Ok nar =>
              do out <- request (Op_PutStream sha256 (key_for hash) nar (us_limits state)
                                   (max_compressed_len (o_nar_size object)));
              match vn_outcome out.2 with
              | Some (Outcome_Failed reason) => Ret (Err (error_from (Fail_Other reason)))
              | Some (Outcome_Refused reason) => Ret (Err (refused reason))
              | None =>
                  Ret (Err (error_from (match out.1 with
                    | Err e => e
                    | Ok _ => Fail_Other "stored a NAR the check never accepted"
                    end)))
              | Some Outcome_Accepted =>
                  match out.1 with
                  | Err e => Ret (Err (error_from e))
                  | Ok (digest, file_size) =>
                      match signed_object state object digest file_size with
                      | Err e => Ret (Err e)
                      | Ok object =>
                          do at_ <- request Op_Now;
                          do inserted <- db_try [hash] (λ db, insert_object db object at_);
                          Ret (match inserted with Ok _ => Ok file_size | Err e => Err (error_from e) end)
                      end
                  end
              end
          end
      end
  end.

Definition ack_status (ack : UploadAck) : Z :=
  match ack with Ack_Created => 201 | Ack_Exists => 200 | Ack_InProgress => 200 end.

Definition already_stored (hash : string) : Handler (Result bool HttpError) :=
  do stored <- db_read (λ db, exists_ db hash);
  Ret (map_err error_from stored).

(** The claim is released when [store_upload] ends, or when [upload] returns. *)
Definition upload {S} `{ByteStream S} (state : UploadState) (hash subject : string) (body : S)
    (notices : list bool) (dies : bool) : Handler (Result UploadAck HttpError) :=
  do in_flight <- request Op_InFlight;
  if is_quiescing in_flight then Ret (Err quiescing)
  else if negb (is_store_hash hash) then Ret (Err (refused (hash +:+ " is not a store path hash")))
  else
    do? stored <- already_stored hash;
    if stored then Ret (Ok Ack_Exists)
    else
      do slot <- request Op_TryAcquire;
      if negb slot then Ret (Err (retry_after 429 "too many concurrent uploads"))
      else
        do claim <- request (Op_Claim hash);
        match claim with
        | Err Refused_Uploading => Ret (Ok Ack_InProgress)
        | Err Refused_Deleting => Ret (Err (retry_after 503 "this path is being deleted; retry"))
        | Err Refused_Quiescing => Ret (Err quiescing)
        | Ok _ =>
            do? stored <- already_stored hash;
            if stored then Ret (Ok Ack_Exists)
            else
              do result <- store_upload state hash subject body notices dies;
              do _ <- request (Op_Release [hash]);
              Ret (match result with Ok _ => Ok Ack_Created | Err e => Err e end)
        end.
End upload.

Arguments mkChain {S} ch_first ch_rest.
Arguments ch_first {S} _.
Arguments ch_rest {S} _.

(** ** What a preamble must say *)

Section preamble.
Context `{C : Crypto} (hash : string) (p : Preamble) (store_dir : string).

Definition in_store (path : string) : Prop := is_Some (store_basename path store_dir).

(** The preamble describes the path [hash] of the store. *)
Record preamble_ok : Prop := {
  po_path : ∃ name, name_ok name = true ∧ pre_store_path p = store_dir +:+ "/" +:+ hash +:+ "-" +:+ name;
  po_references : Forall in_store (pre_references p);
  po_deriver : ∀ d, pre_deriver p = Some d → in_store d;
  po_ca : ∀ ca, pre_ca p = Some ca → is_multi_line ca = false;
  po_nar_hash : is_ok (normalize_hash b64_decode (pre_nar_hash p)) = true;
}.

(** How the object says it. *)
Record describes_preamble (subject : string) (obj : Object) : Prop := {
  dp_hash : o_store_path_hash obj = hash;
  dp_store_path : o_store_path obj = pre_store_path p;
  dp_name : o_store_path obj = store_dir +:+ "/" +:+ hash +:+ "-" +:+ o_name obj ∧ name_ok (o_name obj) = true;
  dp_references : map (λ r, store_dir +:+ "/" +:+ r) (o_references obj) ≡ₚ pre_references p;
  dp_sorted : Sorted String.le (o_references obj);
  dp_basenames : Forall (λ r, ∃ h n, is_basename r h n) (o_references obj);
  dp_deriver : (λ d, store_dir +:+ "/" +:+ d) <$> o_deriver obj = pre_deriver p;
  dp_ca : o_ca obj = pre_ca p;
  dp_nar_hash : canonical_hash (o_nar_hash obj) = true ∧
    same_digest b64_decode (pre_nar_hash p) (o_nar_hash obj);
  dp_nar_size : o_nar_size obj = pre_nar_size p;
  dp_pushed_by : o_pushed_by obj = Some subject;
  dp_one_line : no_newline store_dir → ∀ digest size sigs, length digest = 32 → Forall no_newline sigs →
    one_line (with_blob obj (sha256_nix32 digest) size sigs);
}.

Lemma own_basename base rest :
  is_store_hash hash = true → store_basename (pre_store_path p) store_dir = Some base →
  (rest' ← strip_prefix hash base; strip_prefix "-" rest') = Some rest →
  base = hash +:+ "-" +:+ rest ∧ name_ok rest = true.
Proof.
  intros Hh (h & n & (Hb & Hh' & Hn) & _)%store_basename_Some.
  intros (r & ->%strip_prefix_Some & ->%strip_prefix_Some)%bind_Some.
  assert (split_once "-" (hash +:+ "-" +:+ rest) = Some (hash, rest)) as E1
    by (apply split_once_Some; split; [done|by apply is_store_hash_chars]).
  assert (split_once "-" (h +:+ "-" +:+ n) = Some (h, n)) as E2
    by (apply split_once_Some; split; [done|by apply is_store_hash_chars]).
  rewrite Hb, E2 in E1. injection E1 as <- <-. done.
Qed.

Lemma basename_of_Ok path what base :
  basename_of store_dir path what = Ok base ↔ store_basename path store_dir = Some base.
Proof. unfold basename_of. destruct (store_basename path store_dir); naive_solver. Qed.

Lemma references_Ok refs bases :
  collect_results (λ r, basename_of store_dir r "reference") refs = Ok bases →
  map (λ r, store_dir +:+ "/" +:+ r) bases = refs ∧ Forall (λ r, ∃ h n, is_basename r h n) bases.
Proof.
  intros HF%collect_results_ok. induction HF as [|r b refs bases Hb%basename_of_Ok _ [<- IH]]; [done|].
  apply store_basename_Some in Hb as (h & n & Hb & ->). split; [done|]. constructor; eauto.
Qed.

Lemma references_Err refs e :
  collect_results (λ r, basename_of store_dir r "reference") refs = Err e →
  (∃ m, e = refused m) ∧ ¬ Forall in_store refs.
Proof.
  induction refs as [|r refs IH]; cbn [collect_results]; [done|].
  unfold basename_of at 1, ok_or. destruct (store_basename r store_dir) as [b|] eqn:Hb.
  - destruct (collect_results _ refs) as [bs|e'] eqn:Hc; [done|]. intros [= ->].
    destruct (IH eq_refl) as [? Hn]. split; [done|]. by intros [_ ?]%Forall_cons.
  - intros [= <-]. split; [by eexists|]. intros [[? Hs] _]%Forall_cons. by rewrite Hb in Hs.
Qed.

Lemma basename_one_line base h n : is_basename base h n → no_newline base.
Proof.
  intros (-> & Hh & Hn). unfold no_newline. rewrite !ascii_mem_app.
  by rewrite (is_store_hash_chars _ _ Hh), (name_ok_chars _ _ Hn).
Qed.

Lemma canonical_one_line s : canonical_hash s = true → no_newline s.
Proof. intros Hc. by eapply canonical_hash_chars. Qed.

Lemma multi_line_no_newline s : is_multi_line s = false → no_newline s.
Proof. by intros [? _]%orb_false_iff. Qed.

Lemma own_name_found name :
  is_store_hash hash = true → name_ok name = true → pre_store_path p = store_dir +:+ "/" +:+ hash +:+ "-" +:+ name →
  (base ← store_basename (pre_store_path p) store_dir; rest ← strip_prefix hash base; strip_prefix "-" rest) ≠ None.
Proof.
  intros Hh Hn Hp. rewrite (proj2 (store_basename_Some _ store_dir (hash +:+ "-" +:+ name))).
  2: { exists hash, name. split; [done|]. by rewrite Hp. }
  cbn. by rewrite (proj2 (strip_prefix_Some hash _ ("-" +:+ name))).
Qed.

Lemma deriver_checked :
  match (match pre_deriver p with None => Ok None | Some d =>
      let? base := basename_of store_dir d "deriver" in Ok (Some base) end) with
  | Ok d' => (λ d, store_dir +:+ "/" +:+ d) <$> d' = pre_deriver p ∧ (∀ d, d' = Some d → no_newline d) ∧
      ∀ d, pre_deriver p = Some d → in_store d
  | Err e => (∃ m, e = refused m) ∧ ∃ d, pre_deriver p = Some d ∧ ¬ in_store d
  end.
Proof.
  destruct (pre_deriver p) as [d|]; [|done]. unfold basename_of, ok_or, in_store.
  destruct (store_basename d store_dir) as [b|] eqn:Hb.
  - pose proof Hb as (h & n & Hbn & ->)%store_basename_Some. split_and!; [done| |].
    + intros ? [= <-]. by eapply basename_one_line.
    + intros ? [= <-]. by eexists.
  - split; [by eexists|]. exists d. rewrite Hb. split; [done|]. by intros [? ?].
Qed.

Lemma built_one_line obj :
  no_newline store_dir → is_store_hash hash = true → o_store_path_hash obj = hash →
  o_store_path obj = store_dir +:+ "/" +:+ hash +:+ "-" +:+ o_name obj → name_ok (o_name obj) = true →
  Forall (λ r, ∃ h n, is_basename r h n) (o_references obj) →
  (∀ d, o_deriver obj = Some d → no_newline d) → (∀ ca, o_ca obj = Some ca → is_multi_line ca = false) →
  canonical_hash (o_nar_hash obj) = true →
  ∀ digest size sigs, length digest = 32 → Forall no_newline sigs →
    one_line (with_blob obj (sha256_nix32 digest) size sigs).
Proof.
  intros Hdir Hh Hash Hpath Hname Hrefs Hd Hca Hnar digest size sigs Hlen Hsigs.
  assert (Hhl : no_newline hash) by by apply is_store_hash_chars.
  split; cbn; try done.
  - rewrite Hpath. unfold no_newline in *. rewrite !ascii_mem_app, Hdir, Hhl.
    by rewrite (name_ok_chars _ _ Hname).
  - by rewrite Hash.
  - by apply canonical_one_line, sha256_nix32_canonical.
  - by apply canonical_one_line.
  - eapply Forall_impl; [exact Hrefs|]. intros r (h & n & Hr). by eapply basename_one_line.
  - intros ca Hc. by apply multi_line_no_newline, Hca.
Qed.
(** Every branch of [build_object]. *)
Lemma build_object_checked subject :
  is_store_hash hash = true →
  match build_object hash p store_dir subject with
  | Ok obj => preamble_ok ∧ describes_preamble subject obj ∧
      normalize_hash b64_decode (pre_nar_hash p) = Ok (o_nar_hash obj)
  | Err e => (∃ message, e = refused message) ∧ ¬ preamble_ok
  end.
Proof.
  intros Hh. unfold build_object.
  destruct (base ← store_basename (pre_store_path p) store_dir;
            rest ← strip_prefix hash base; strip_prefix "-" rest) as [name|] eqn:Hname; cbn [ok_or].
  2: { split; [by eexists|]. intros [(name & Hn & Hp) _ _ _ _]. by apply (own_name_found name Hh Hn Hp) in Hname. }
  apply bind_Some in Hname as (base & Hbase & Hrest).
  destruct (own_basename _ _ Hh Hbase Hrest) as [-> Hn].
  pose proof Hbase as (_ & _ & _ & Hpath)%store_basename_Some.
  destruct (collect_results _ _) as [refs|e] eqn:Hrefs.
  2: { destruct (references_Err _ _ Hrefs) as [? Hno]. split; [done|]. by intros [_ ? _ _ _]. }
  destruct (references_Ok _ _ Hrefs) as [Hrefs1 Hrefs2].
  pose proof deriver_checked as Hder.
  destruct (match pre_deriver p with None => _ | Some d => _ end) as [d'|e].
  2: { destruct Hder as (? & d & Hd & Hno). split; [done|]. intros [_ _ Hder _ _]. by apply Hno, Hder. }
  destruct Hder as (Hd1 & Hd2 & Hd3).
  destruct (match pre_ca p with Some ca => _ | None => _ end) as [[]|e] eqn:Hca.
  2: { destruct (pre_ca p) as [ca|] eqn:Eca; [|done]. destruct (is_multi_line ca) eqn:Hm; [|done].
       injection Hca as <-. split; [by eexists|]. intros [_ _ _ Hok _]. by rewrite (Hok ca) in Hm. }
  assert (Hca' : ∀ ca, pre_ca p = Some ca → is_multi_line ca = false).
  { intros ca Eca. rewrite Eca in Hca. by destruct (is_multi_line ca). }
  pose proof (normalize_hash_spec b64_decode (pre_nar_hash p)) as Hnar.
  destruct (normalize_hash b64_decode (pre_nar_hash p)) as [nar_hash|e] eqn:Enar; cbn [map_err].
  2: { split; [by eexists|]. intros [_ _ _ _ Hok]. by rewrite Enar in Hok. }
  split_and!; [| |done].
  - split; [by exists name|..]; try done.
    + rewrite <-Hrefs1. apply Forall_fmap. eapply Forall_impl; [exact Hrefs2|].
      intros r (h & n & Hr). eexists. apply store_basename_Some. by exists h, n.
    + by rewrite Enar.
  - assert (Hsorted : Forall (λ r, ∃ h n, is_basename r h n) (order_by String.le refs)).
    { rewrite Forall_forall in *. intros r Hr. apply Hrefs2. by apply elem_of_order_by in Hr. }
    split; cbn; try done.
    + rewrite <-Hrefs1. by rewrite order_by_perm.
    + apply (Sorted_merge_sort String.le).
    + intros Hdir. apply built_one_line; try done. apply Hnar.
Qed.
End preamble.

(** C7: build_object accepts a preamble exactly when it is well formed for the hash in the URL, the
    object it builds carries the preamble's fields as basenames, and every rejection is a 400
    refusal. *)
Theorem build_object_validates `{C : Crypto} hash p store_dir subject :
  is_store_hash hash = true →
  match build_object hash p store_dir subject with
  | Ok obj => preamble_ok hash p store_dir ∧ describes_preamble hash p store_dir subject obj
  | Err e => (∃ message, e = refused message) ∧ ¬ preamble_ok hash p store_dir
  end.
Proof.
  intros Hh. pose proof (build_object_checked hash p store_dir subject Hh) as Hb.
  destruct (build_object _ _ _ _); [|done]. by destruct Hb as (? & ? & _).
Qed.

(** ** Uploads keep the discipline of claims *)

(** A row is right about its blob: hash and size of the stored bytes, and of
    the NAR they decode to. *)
Definition blob_described `{Zs : Zstd} (unzstd : list Z → option (list Z))
    (facts : string * Z * string * Z) (body : list Z) : Prop :=
  let '(nar_hash, nar_size, file_hash, file_size) := facts in
  file_hash = sha256_nix32 (sha256 body) ∧ file_size = len_Z body ∧
  ∃ nar, unzstd body = Some nar ∧ len_Z nar = nar_size ∧ sha256_nix32 (sha256 nar) = nar_hash.

Section upload_ok.
Context `{J : Json, C : Crypto, Zs : Zstd} (unzstd : list Z → option (list Z)) `{!ZstdLaws unzstd}.

Abbreviation okd := (ok (blob_described unzstd)).

Lemma insert_guarantee K hash obj body db db' at_ :
  K !! hash = Some (Know_Stored body) → o_store_path_hash obj = hash →
  blob_described unzstd (row_facts (row_of_object obj at_)) body →
  insert_object db obj at_ = Ok db' → db_guarantee (blob_described unzstd) (moved_only [hash] K) db db'.
Proof.
  intros HK Hh Hd (_ & Hrows & _)%insert_object_Ok h row. rewrite Hrows, Hh, lookup_insert_Some.
  intros [[<- <-]|[Hne Hrow]]; [right|left; by exists row].
  exists body. split; [|done]. apply map_lookup_filter_Some. split; [done|by left].
Qed.

Lemma insert_ok K hash obj body at_ post :
  K !! hash = Some (Know_Stored body) → o_store_path_hash obj = hash →
  blob_described unzstd (row_facts (row_of_object obj at_)) body →
  (∀ K' r, is_Some (K' !! hash) → post K' r) →
  okd K (db_try [hash] (λ db, insert_object db obj at_)) post.
Proof.
  intros HK Hh Hd Hp. split_and!.
  - intros now db st _. destruct (insert_object db obj at_) as [db'|e] eqn:Hins; [|constructor].
    apply Forall_singleton. by eapply insert_guarantee.
  - intros msg. apply Hp. rewrite lookup_fmap, HK. by eexists.
  - intros now db st Hdb _. destruct (insert_object db obj at_) as [db'|e] eqn:Hins; cbn [fst snd].
    2: { exists K. split; [exact (know_after_same (blob_described unzstd) K st db Hdb)|]. apply Hp. by eexists. }
    exists (<[hash := Know_Upload]> K). split; [|apply Hp; rewrite lookup_insert_eq; by eexists].
    apply insert_object_Ok in Hins as (_ & Hrows & _). unfold last_commit. cbn [List.last].
    split; [|intros h k'; rewrite lookup_insert_Some; intros [[<- _]|[_ ->]]; congruence|done|].
    + intros h k Hk. destruct (decide (h = hash)) as [->|Hne].
      * exists Know_Upload. rewrite lookup_insert_eq. split; [done|]. do 3 right. by simplify_eq.
      * exists k. rewrite lookup_insert_ne by done. tauto.
    + intros h k. rewrite lookup_insert_Some. intros [[<- <-]|[Hne Hk]]; [done|]. intros Hrl.
      rewrite Hrows, lookup_insert_ne by congruence. by eapply Hdb.
Qed.

Lemma signed_object_Ok state obj digest size obj' :
  signed_object state obj digest size = Ok obj' →
  ∃ sigs, obj' = with_blob obj (sha256_nix32 digest) size sigs ∧
    sign obj' (us_store_dir state) (us_keys state) = Ok sigs.
Proof.
  unfold signed_object. destruct (sign _ _ _) as [sigs|e] eqn:Hs; [|done]. intros [= <-].
  exists sigs. split; [done|]. by rewrite <-Hs.
Qed.

Lemma build_object_facts hash p store_dir subject obj :
  build_object hash p store_dir subject = Ok obj → o_store_path_hash obj = hash.
Proof. unfold build_object. intros Hb. repeat (case_match; try discriminate Hb); by injection Hb as <-. Qed.

Lemma store_upload_ok {S} `{ByteStream S} state hash subject (body : S) notices dies K post :
  (0 < part_size (us_limits state))%Z → K !! hash = Some Know_Fresh →
  (∀ K' r, is_Some (K' !! hash) → post K' r) →
  okd K (store_upload state hash subject body notices dies) post.
Proof.
  intros Hps HK Hp. unfold store_upload.
  assert (Hhere : ∀ r, post K r) by (intros r; apply Hp; by rewrite HK; eexists).
  destruct (read_preamble _ _ _) as [[[p leftover]|e] stream]; [|apply Hhere].
  destruct (build_object hash p _ subject) as [obj|e] eqn:Hobj; [|apply Hhere].
  apply build_object_facts in Hobj.
  destruct (verified_nar _ _ _ _ _) as [nar|e] eqn:Hnar; [|apply Hhere].
  assert (Hret : ∀ know r, post (<[hash := know]> K) r) by (intros; apply Hp; by rewrite lookup_insert_eq; eexists).
  apply ok_bind, ok_request. split; [done|]. exists hash. split; [done|]. split; [by left|]. split.
  - intros e s'. cbn [snd fst]. destruct (vn_outcome s') as [[]|]; apply Hret.
  - intros chunks s' Hreads. cbn [snd fst].
    destruct (verified_nar_accepts unzstd _ _ _ _ _ _ _ _ Hnar Hreads) as (-> & _ & _ & nar0 & Hun & Hlen & Hhash).
    destruct (signed_object state obj _ _) as [obj'|e] eqn:Hsig; [|apply Hret].
    apply signed_object_Ok in Hsig as (sigs & -> & _).
    apply ok_bind, ok_request. intros at_. apply ok_bind.
    eapply insert_ok; [apply lookup_insert_eq|done| |].
    + split_and!; [done|done|]. by exists nar0.
    + intros K' r HK'. by apply Hp.
Qed.

(** A look at the row of a path under an upload claim. *)
Lemma already_stored_ok hash K post :
  (∀ K' e, post K' (Err e)) → post K (Ok true) →
  (post K (Ok false) ∨ K !! hash = Some Know_Upload ∧ post (<[hash := Know_Fresh]> K) (Ok false)) →
  okd K (already_stored hash) post.
Proof.
  intros He Ht Hf. unfold already_stored, db_read. apply ok_bind, ok_request. split_and!.
  - intros now db st _. apply Forall_nil_2.
  - intros msg. apply He.
  - intros now db st Hdb _. cbn [fst snd]. unfold exists_. case_bool_decide as Hrow.
    { exists K. split; [exact (know_after_same (blob_described unzstd) K st db Hdb)|done]. }
    destruct Hf as [Hf|[HK Hf]]; [exists K; split; [exact (know_after_same (blob_described unzstd) K st db Hdb)|done]|].
    exists (<[hash := Know_Fresh]> K). split; [|done]. split; [| |done|].
    + intros h k Hk. destruct (decide (h = hash)) as [->|Hne].
      * exists Know_Fresh. rewrite lookup_insert_eq. simplify_eq. tauto.
      * exists k. rewrite lookup_insert_ne by done. tauto.
    + intros h k'. rewrite lookup_insert_Some. intros [[<- _]|[_ ->]]; congruence.
    + apply map_Forall_insert_2; [|done]. intros _. by apply eq_None_not_Some.
Qed.

Lemma upload_ok {S} `{ByteStream S} state hash subject (body : S) notices dies :
  (0 < part_size (us_limits state))%Z →
  okd ∅ (upload state hash subject body notices dies) (λ _ _, True).
Proof.
  intros Hps. unfold upload. apply ok_bind, ok_request. intros st.
  destruct (is_quiescing st); [done|]. destruct (negb (is_store_hash hash)); [done|].
  apply ok_bind, already_stored_ok; [done|done|left].
  apply ok_bind, ok_request. intros [|]; [cbn [negb]|done].
  apply ok_bind, ok_request. split; [by intros []|]. intros _.
  apply ok_bind, already_stored_ok; [done|done|right].
  split; [apply lookup_insert_eq|]. rewrite insert_insert_eq.
  apply ok_bind, store_upload_ok; [done|apply lookup_insert_eq|].
  intros K' r HK'. apply ok_bind, ok_request. split; [|done].
  intros h ->%list_elem_of_singleton. done.
Qed.
End upload_ok.

(** ** What an upload that succeeds has done *)

Section upload_spec.
Context `{J : Json, C : Crypto, Zs : Zstd} (unzstd : list Z → option (list Z)) `{!ZstdLaws unzstd}.

Lemma already_stored_spec hash w held w' held' stored :
  runs w held (already_stored hash) w' held' (Ok stored) →
  w' = w ∧ held' = held ∧ stored = bool_decide (is_Some (objects (w_db w) !! hash)).
Proof.
  intros (r & w1 & held1 & Hr & Hret)%runs_bind. apply runs_ret_inv in Hret as (-> & -> & Heq).
  apply runs_db_read_inv in Hr as (-> & -> & [-> |(msg & ->)]); [|done]. by injection Heq as ->.
Qed.

(** What a stored row says, and who signed it. *)
Record uploaded (state : UploadState) (hash subject : string) (w w' : World) : Prop := {
  ul_body : ∃ row bytes, objects (w_db w') = <[hash := row]> (objects (w_db w)) ∧
    w_blobs w' = <[key_for hash := bytes]> (w_blobs w) ∧
    blob_described unzstd (row_facts row) bytes ∧
    total_bytes (w_db w') = (total_bytes (w_db w) + len_Z bytes)%Z ∧
    r_created_at row = w_now w ∧ r_pushed_at row = w_now w;
  ul_signed : ∃ obj, get_object (w_db w') hash = Some obj ∧ o_pushed_by obj = Some subject ∧
    sign obj (us_store_dir state) (us_keys state) = Ok (o_sigs obj);
  ul_claims : ∀ h, h ≠ hash → claims (w_inflight w') !! h = claims (w_inflight w) !! h;
}.

Lemma get_object_inserted db obj now db' :
  insert_object db obj now = Ok db' → Sorted String.le (o_references obj) →
  get_object db' (o_store_path_hash obj) = Some obj.
Proof.
  intros Hins Hs. unfold get_object, get_object_and_last_accessed.
  rewrite (references_of_insert _ _ _ _ _ Hins), decide_True, (order_by_id String.le) by done.
  apply insert_object_Ok in Hins as (_ & -> & _). rewrite lookup_insert_eq. by destruct obj.
Qed.

Lemma build_object_sorted hash p store_dir subject obj :
  build_object hash p store_dir subject = Ok obj →
  Sorted String.le (o_references obj) ∧ o_pushed_by obj = Some subject.
Proof.
  unfold build_object. intros Hb. repeat (case_match; try discriminate Hb); injection Hb as <-;
    (split; [apply (Sorted_merge_sort String.le)|done]).
Qed.

Lemma store_upload_spec {S} `{ByteStream S} state hash subject (body : S) notices dies w held w' held' size :
  (0 < part_size (us_limits state))%Z → objects (w_db w) !! hash = None →
  runs w held (store_upload state hash subject body notices dies) w' held' (Ok size) →
  uploaded state hash subject w w'.
Proof.
  intros Hps Hrow. unfold store_upload.
  destruct (read_preamble _ _ _) as [[[p leftover]|e] stream]; [|by intros (_ & _ & [=])%runs_ret_inv].
  destruct (build_object hash p _ subject) as [obj|e] eqn:Hobj; [|by intros (_ & _ & [=])%runs_ret_inv].
  pose proof (build_object_facts _ _ _ _ _ Hobj) as Hhash.
  apply build_object_sorted in Hobj as [Hsorted Hby].
  destruct (verified_nar _ _ _ _ _) as [nar|e] eqn:Hnar; [|by intros (_ & _ & [=])%runs_ret_inv].
  intros ([stored nar'] & w1 & held1 & (-> & tr & Hput & Hw1) & Hr)%runs_request. cbn [snd fst] in *.
  destruct (vn_outcome nar') as [[]|]; [|by apply runs_ret_inv in Hr as (_ & _ & [=])..].
  destruct stored as [[digest fsize]|e]; [|by apply runs_ret_inv in Hr as (_ & _ & [=])].
  destruct Hw1 as [-> | [[=] _]].
  apply put_streaming_Ok in Hput as (chunks & Hreads & -> & -> & Hst); [|done].
  rewrite (stored_object _ _ _ _ Hst) in Hr. cbn [put_object] in Hr.
  destruct (verified_nar_accepts unzstd _ _ _ _ _ _ _ _ Hnar Hreads) as (_ & _ & _ & nar0 & Hun & Hlen & Hh).
  destruct (signed_object state obj _ _) as [obj'|e] eqn:Hsig; [|by apply runs_ret_inv in Hr as (_ & _ & [=])].
  apply signed_object_Ok in Hsig as (sigs & -> & Hsign).
  apply runs_request in Hr as (at_ & w2 & held2 & (-> & -> & ->) & Hr).
  apply runs_request in Hr as (r & w3 & held3 & Hins & Hr). apply runs_ret_inv in Hr as (-> & -> & Hres).
  cbn [op_step w_db with_blobs w_now] in Hins. set (obj' := with_blob obj _ _ _) in *.
  destruct (insert_object (w_db w) obj' (w_now w)) as [db'|e] eqn:Hdb.
  2: { by destruct Hins as [(-> & _)|(msg & db' & -> & _)]. }
  destruct Hins as [(-> & -> & _)|(msg & db'' & -> & _)]; [|done].
  cbn [fst snd]. unfold last_commit. cbn [List.last]. pose proof Hdb as (_ & Hrows & _ & _ & Htot)%insert_object_Ok.
  change (o_store_path_hash obj') with (o_store_path_hash obj) in *. rewrite Hhash in *.
  split; [|exists obj'|done].
  - exists (row_of_object obj' (w_now w)), (concat chunks). split_and!; [done|done| | |done|done].
    + split_and!; [done|done|]. by exists nar0.
    + cbn [w_db with_db]. rewrite Htot, Hrow. cbn. lia.
  - split_and!; [|done|done]. rewrite <-Hhash.
    apply (get_object_inserted _ obj' _ _ Hdb). done.
Qed.
End upload_spec.

(** C5: What an upload handler that answers successfully has done: it answers Created only for an
    unclaimed, absent path, after storing a blob that decompresses to the NAR the preamble claims
    and inserting the signed row, and it has released its claim; it answers Exists or InProgress
    without having changed anything. *)
Theorem upload_answers `{J : Json, C : Crypto, Zs : Zstd} unzstd `{!ZstdLaws unzstd} {S} `{ByteStream S}
    state hash subject (body : S) notices dies w held w' held' ack :
  (0 < part_size (us_limits state))%Z →
  runs w held (upload state hash subject body notices dies) w' held' (Ok ack) →
  is_store_hash hash = true ∧ is_quiescing (w_inflight w) = false ∧
  match ack with
  | Ack_Created =>
      claims (w_inflight w) !! hash = None ∧ objects (w_db w) !! hash = None ∧
      uploaded unzstd state hash subject w w' ∧ claims (w_inflight w') !! hash = None
  | Ack_Exists => is_Some (objects (w_db w) !! hash) ∧ w' = w
  | Ack_InProgress => claims (w_inflight w) !! hash = Some Kind_Upload ∧ w' = w
  end.
Proof.
  intros Hps. unfold upload.
  intros (st & w1 & held1 & (-> & -> & ->) & Hr)%runs_request.
  destruct (is_quiescing (w_inflight w)) eqn:Hq; [by apply runs_ret_inv in Hr as (_ & _ & [=])|].
  destruct (is_store_hash hash) eqn:Hh; cbn [negb] in Hr; [|by apply runs_ret_inv in Hr as (_ & _ & [=])].
  split; [done|]. split; [done|].
  apply runs_bind in Hr as (r & w1 & held1 & Hs & Hr).
  destruct r as [stored|e]; [|by apply runs_ret_inv in Hr as (_ & _ & [=])].
  apply already_stored_spec in Hs as (-> & -> & ->). case_bool_decide as Hrow.
  { apply runs_ret_inv in Hr as (-> & _ & [= ->]). done. }
  apply runs_request in Hr as (slot & w1 & held1 & (-> & ->) & Hr).
  destruct slot; cbn [negb] in Hr; [|by apply runs_ret_inv in Hr as (_ & _ & [=])].
  apply runs_request in Hr as (c & w1 & held1 & Hc & Hr). cbn [op_step] in Hc.
  destruct (claim (w_inflight w) hash) as [st1|e] eqn:Hcl.
  2: { destruct Hc as (-> & -> & ->). destruct e; try by apply runs_ret_inv in Hr as (_ & _ & [=]).
       apply runs_ret_inv in Hr as (-> & _ & [= ->]). split; [|done].
       revert Hcl. unfold claim, take_claim. destruct (0 <? _)%Z; [done|].
       destruct (claims (w_inflight w) !! hash) as [[]|]; cbn; congruence. }
  destruct Hc as (-> & -> & ->).
  apply claim_inv in Hcl as [_ (Hn & Hcs & _ & _)%take_claim_Ok].
  apply runs_bind in Hr as (r & w1 & held1 & Hs & Hr).
  destruct r as [stored|e]; [|by apply runs_ret_inv in Hr as (_ & _ & [=])].
  apply already_stored_spec in Hs as (-> & -> & ->). cbn [w_db with_inflight] in Hr.
  rewrite bool_decide_eq_false_2 in Hr by done.
  apply runs_bind in Hr as (r & w1 & held1 & Hup & Hr).
  apply runs_request in Hr as (u & w2 & held2 & [-> ->] & Hr). apply runs_ret_inv in Hr as (-> & _ & Hack).
  destruct r as [size|e]; [|done]. injection Hack as ->.
  assert (Hrow' : objects (w_db w) !! hash = None) by by apply eq_None_not_Some.
  apply (store_upload_spec unzstd) in Hup as [H1 H2 H3]; [|done|done].
  split_and!; [done|done| |].
  - split; [done|done|]. intros h Hne. cbn [w_inflight with_inflight].
    rewrite drop_claims_lookup, bool_decide_eq_false_2 by set_solver.
    rewrite H3 by done. cbn. by rewrite Hcs, lookup_insert_ne.
  - cbn [w_inflight with_inflight]. rewrite drop_claims_lookup, bool_decide_eq_true_2; [done|by left].
Qed.

(** ** Examples *)

Definition example_nar : list Z := [7; 7; 8]%Z.
Definition example_hash : string := "0123456789abcdfghijklmnpqrsvwxyz".
Definition example_preamble : Preamble :=
  mkPreamble ("/nix/store/" +:+ example_hash +:+ "-hello") (sha256_nix32 (@sha256 toy_zstd example_nar)) 3
    ["/nix/store/" +:+ example_hash +:+ "-hello"; "/nix/store/0123456789abcdfghijklmnpqrsvwxy0-glibc"]
    None None.
(** A parser that takes any text for [example_preamble]. *)
Definition toy_json : Json := {| preamble_from_slice _ := Ok example_preamble |}.
(** Two bytes of preamble and three of NAR, cut in odd places. *)
Definition example_body : list Item :=
  [Item_Data [2; 0; 0]; Item_Data [0; 123; 125; 7]; Item_Data [7; 8]]%Z.
Definition example_state : UploadState :=
  mkUploadState [mkSigningKey "k-1" (repeat 1%Z 32)] "/nix/store" (mkLimits 4 2 1 2 4).

Lemma build_object_validates_witness :
  preamble_ok (C := toy_crypto) example_hash example_preamble "/nix/store".
Proof.
  pose proof (build_object_validates (C := toy_crypto) example_hash example_preamble "/nix/store" "ci"
    ltac:(vm_compute; reflexivity)) as H.
  destruct (build_object example_hash example_preamble "/nix/store" "ci") as [obj|e] eqn:E.
  - exact (proj1 H).
  - exfalso. clear H. vm_compute in E. discriminate E.
Defined.

Lemma upload_answers_witness :
  ∃ w' held',
    runs world_empty ∅
      (upload (J := toy_json) (C := toy_crypto) (Zs := toy_zstd) example_state example_hash "ci"
         example_body [] false) w' held' (Ok Ack_Created) ∧
    uploaded (C := toy_crypto) (Zs := toy_zstd) Some example_state example_hash "ci" world_empty w'.
Proof.
  destruct (exec_result 0 world_empty ∅
    (upload (J := toy_json) (C := toy_crypto) (Zs := toy_zstd) example_state example_hash "ci"
       example_body [] false) (Ok Ack_Created) ltac:(by_computation)) as (w' & held' & Hr).
  exists w', held'. split; [exact Hr|].
  destruct (upload_answers (J := toy_json) (C := toy_crypto) (Zs := toy_zstd) Some example_state
    example_hash "ci" example_body [] false world_empty ∅ w' held' Ack_Created ltac:(done) Hr)
    as (_ & _ & _ & _ & H & _). exact H.
Defined.
