(* ===== verification/Protocol.v ===== *)
(** * Protocol: every handler of the Pusher, side by side

    [spawnable] lists the handlers the services run: uploads and negotiations
    of any number of clients, admin commands, garbage collection, the orphan
    sweep, and the Puller's access-time bumps. [reachable] is every state that
    any interleaving of them can reach, with database, S3 and client failures,
    cancelled requests and process restarts.

    Two invariants hold in all of them: a row always has the blob it describes,
    and the database's bookkeeping is right. *)

From S2P Require Import Prelude Text Common InFlight Db Prune Prog Storage World Narinfo Deletion Fsck Admin Verify Pusher.

(** ** The handlers *)

Section handlers.
Context `{J : Json, C : Crypto, Zs : Zstd}.

(** A write of the Puller, which shares the database file. *)
Definition puller_bump (hashes : list string) (stale_after : Z) : Handler (Result unit Failure) :=
  db_write_now (λ now db, (bump_last_accessed db hashes now stale_after, tt)).

Definition ignore {A} (p : Handler A) : Handler unit := do _ <- p; Ret tt.

(** A handler, and whether its client can make it be dropped. *)
Inductive spawnable : bool → Handler unit → Prop :=
  | sp_upload {S} `{ByteStream S} state hash subject (body : S) notices dies :
      (0 < part_size (us_limits state))%Z →
      spawnable true (ignore (upload state hash subject body notices dies))
  | sp_missing hashes : spawnable true (ignore (missing_paths hashes))
  | sp_admin state fuel req : spawnable false (ignore (dispatch state fuel req))
  | sp_tick fuel cfg : spawnable false (ignore (tick fuel cfg))
  | sp_sweep cfg : spawnable false (ignore (sweep_orphans cfg))
  | sp_bump hashes stale_after : spawnable false (ignore (puller_bump hashes stale_after)).

(** A fresh process over an empty cache, and any steps from there. *)
Definition reachable (P : Pool) : Prop := rtc (pool_step spawnable) (mkPool world_empty ∅) P.
End handlers.

(** ** They keep the discipline of claims *)

Section handlers_ok.
Context `{J : Json, C : Crypto, Zs : Zstd} (describes : string * Z * string * Z → list Z → Prop).

Abbreviation okd := (ok describes).

Lemma ok_write_now {A} K (g : Z → Db → Db * A) post :
  (∀ now db, rows_kept db (g now db).1) → (∀ K' r, post K' r) → okd K (db_write_now g) post.
Proof.
  intros Hk Hp. split_and!; [|intros; apply Hp|].
  - intros now db st _. apply Forall_singleton. by apply rows_kept_guarantee.
  - intros now db st Hdb _. exists K. split; [|apply Hp].
    apply know_after_same; [exact describes|]. eapply rows_kept_know; [apply Hk|done].
Qed.

Lemma ok_try_now K (f : Z → Db → Result Db string) post :
  (∀ now db db', f now db = Ok db' → rows_kept db db') → (∀ K' r, post K' r) → okd K (db_try_now f) post.
Proof.
  intros Hk Hp. split_and!; [|intros; apply Hp|].
  - intros now db st _. destruct (f now db) as [db'|e] eqn:E; [|constructor].
    apply Forall_singleton. apply rows_kept_guarantee. by eapply Hk.
  - intros now db st Hdb _. exists K. destruct (f now db) as [db'|e] eqn:E; cbn [fst snd].
    + split; [|apply Hp]. apply know_after_same; [exact describes|].
      eapply rows_kept_know; [by eapply Hk|done].
    + split; [by apply know_after_same|apply Hp].
Qed.

Lemma rows_kept_objects db db' : objects db' = objects db → rows_kept db db'.
Proof. intros E. apply rows_kept_sub. by rewrite E. Qed.

Lemma missing_kept db hashes now : rows_kept db (missing db hashes now).1.
Proof.
  unfold missing. destruct (foldl _ _ hashes) as [m s]. by apply rows_kept_updates.
Qed.

Lemma bump_kept db hashes now stale : rows_kept db (bump_last_accessed db hashes now stale).
Proof. apply rows_kept_updates. intros r. unfold bump_row. by destruct (_ <? _)%Z. Qed.

Lemma repair_one_kept f db : rows_kept db (repair_one f db).1.
Proof.
  unfold repair_one. case_bool_decide; [|apply rows_kept_refl].
  pose proof (delete_object_kept db (f_hash f)) as Hk. by destruct (delete_object db (f_hash f)).
Qed.

Lemma repair_loop_ok findings n K post : (∀ K' r, post K' r) → okd K (repair_loop findings n) post.
Proof.
  intros Hp. revert K n. induction findings as [|f findings IH]; intros K n; cbn [repair_loop]; [apply Hp|].
  apply ok_try; [done|]. apply ok_write; [apply repair_one_kept|done|]. intros db _. apply IH.
Qed.

Lemma fsck_body_ok grace vs repair drained K post :
  (∀ K' r, post K' r) → okd K (fsck_body grace vs repair drained) post.
Proof.
  intros Hp. unfold fsck_body. apply ok_try; [done|]. apply ok_request. intros [blobs|e]; [|done].
  apply ok_try; [done|]. apply ok_read; [done|]. intros db _.
  apply ok_bind, ok_request. intros now. apply ok_bind, ok_request. intros st.
  destruct (to_wire _) as [dangling mismatches]. apply ok_bind, ok_request. intros st'.
  apply ok_try; [done|]. destruct (_ && _); [|apply Hp].
  apply repair_loop_ok. intros K' [n|e]; [|done]. apply Hp.
Qed.

Lemma fsck_run_ok grace vs repair K post : (∀ K' r, post K' r) → okd K (fsck_run grace vs repair) post.
Proof.
  intros Hp. unfold fsck_run. destruct repair; [by apply fsck_body_ok..|].
  apply ok_bind, ok_request. apply ok_bind, ok_request. intros b.
  apply ok_bind, fsck_body_ok. intros K' r. apply ok_bind, ok_request. apply Hp.
Qed.

(** *** Admin commands *)

Lemma delete_loop_ok dry hashes d acc K post :
  (if dry : bool then d = None else ∃ d0 : Deletion, d = Some d0 ∧ deletion_ok K d0) →
  NoDup hashes → (dry = false → ∀ h, h ∈ hashes → K !! h = Some Know_Delete) →
  (∀ K' e, post K' (Err e)) →
  (∀ K' (d' : option Deletion) done', (match d' with None => True | Some d0 => deletion_ok K' d0 end) → post K' (Ok (d', done'))) →
  okd K (delete_loop dry hashes d acc) post.
Proof.
  intros Hd Hnd HK He Hp. revert d acc K Hd HK.
  induction Hnd as [|h hashes Hh Hnd IH]; intros d acc K Hd HK; cbn [delete_loop].
  { apply Hp. destruct dry; [by subst d|by destruct Hd as (d0 & -> & ?)]. }
  apply ok_try; [done|]. destruct dry.
  - subst d. apply ok_read; [done|]. intros db _. destruct (file_size db h); by apply IH.
  - destruct Hd as (d0 & -> & Hd). apply (ok_write_gone _ _ h); [by apply HK; [|left]|intros; apply delete_object_kept|done|].
    intros db. destruct (delete_object db h).2 as [freed|] eqn:E; [left|right].
    + split; [apply delete_object_gone|]. apply IH.
      * eexists. split; [done|]. apply deletion_ok_queue; [apply lookup_insert_eq|].
        apply deletion_ok_insert; [by right|done].
      * intros _ i Hi. rewrite lookup_insert_ne by congruence. apply HK; [done|by right].
    + apply IH; [by eexists|]. intros _ i Hi. apply HK; [done|by right].
Qed.

Lemma admin_delete_ok hashes dry K post : (∀ K' r, post K' r) → okd K (admin_delete hashes dry) post.
Proof.
  intros Hp. unfold admin_delete. apply ok_try; [done|].
  assert (Hrest : ∀ K' d, (if dry : bool then d = None else ∃ d0 : Deletion, d = Some d0 ∧ deletion_ok K' d0) →
    (dry = false → ∀ h, h ∈ first_seen ∅ hashes → K' !! h = Some Know_Delete) →
    okd K' (do? out <- delete_loop dry (first_seen ∅ hashes) d (mkDeleted 0 0 []);
            match out.1 with Some d => do? _ <- finish d; Ret (Ok out.2) | None => Ret (Ok out.2) end) post).
  { intros K' d Hd HK'. apply ok_try; [done|].
    apply delete_loop_ok; [done|apply first_seen_nodup|done|done|].
    intros K2 d' done' Hd'. cbn [fst snd]. destruct d' as [d0|]; [|apply Hp].
    apply ok_try; [done|]. apply finish_ok; [done|]. intros K3 [u|e]; [apply Hp|done]. }
  destruct dry.
  - by apply Hrest.
  - apply ok_bind. apply claim_all_ok; [done|]. intros K' HK'. apply Hrest.
    + eexists. split; [done|]. split; [|intros ? []%elem_of_nil]. intros h Hh. eexists. by apply HK'.
    + intros _ h Hh. by apply HK'.
Qed.

Lemma delete_pushed_by_ok subject since dry K post :
  (∀ K' r, post K' r) → okd K (delete_pushed_by subject since dry) post.
Proof.
  intros Hp. unfold delete_pushed_by. apply ok_try; [done|]. apply ok_read; [done|]. intros db _.
  apply ok_try; [done|]. unfold delete_listed. destruct dry; [apply Hp|].
  apply ok_try; [done|]. apply admin_delete_ok. intros K' [out|e]; [apply Hp|done].
Qed.

(** The commits of prune only take rows away, and at the end all it was told to. *)
Lemma delete_batch_rows doomed db batch i :
  objects (delete_batch doomed db batch) !! i =
    if decide (i ∈ hashes_of doomed batch) then None else objects db !! i.
Proof. unfold delete_batch, hashes_of. cbn [debit objects]. apply delete_rows_lookup. Qed.

Lemma delete_batches_rows doomed batches db i :
  objects (foldl (delete_batch doomed) db batches) !! i =
    if decide (i ∈ hashes_of doomed (concat batches)) then None else objects db !! i.
Proof.
  revert db. induction batches as [|b batches IH]; intros db; cbn [foldl concat].
  - destruct (decide (i ∈ hashes_of doomed [])) as [Hi|]; [by apply elem_of_nil in Hi|done].
  - rewrite IH, delete_batch_rows, hashes_of_app. repeat case_decide; set_solver.
Qed.

Lemma prune_commits_kept doomed batches db0 db :
  rows_kept db0 db → Forall (rows_kept db0) (prune_commits doomed batches db).
Proof.
  revert db. induction batches as [|b batches IH]; intros db Hk; cbn [prune_commits];
    (constructor; [done|]); [constructor|].
  apply IH. eapply rows_kept_trans; [exact Hk|]. apply rows_kept_sub.
  apply map_subseteq_spec. intros i row. rewrite delete_batch_rows. by case_decide.
Qed.

Lemma delete_pruned_commits_kept db doomed commits :
  delete_pruned_commits db doomed = Ok commits → Forall (rows_kept db) commits.
Proof.
  unfold delete_pruned_commits. destruct (referrers_first db doomed) as [order|e]; [|done]. intros [= <-].
  pose proof (prune_commits_kept doomed (chunks PRUNE_BATCH order) db db (rows_kept_refl db)) as HF.
  destruct (prune_commits _ _ _); [constructor|]. cbn. by apply Forall_cons in HF as [_ ?].
Qed.

Lemma delete_pruned_commits_gone db before now doomed commits h :
  prunable db before now = Ok doomed → delete_pruned_commits db doomed = Ok commits →
  h ∈ map b_store_path_hash doomed → objects (last_commit db commits) !! h = None.
Proof.
  intros Hp. unfold delete_pruned_commits. destruct (referrers_first db doomed) as [order|e] eqn:Ho; [|done].
  intros [= <-] Hh. unfold last_commit. rewrite last_prune_commit, delete_batches_rows.
  rewrite chunks_concat by done. apply decide_True.
  rewrite (hashes_of_perm _ _ (pruned_order_perm _ _ _ _ _ Hp Ho)). done.
Qed.

(** Claims taken under the lock, whose rows the closure then removed. *)
Definition all_gone (hs : list string) (K : Knows) : Knows :=
  list_to_map (map (λ h, (h, Know_Gone)) hs) ∪ K.

Lemma all_gone_lookup hs K h :
  all_gone hs K !! h = if decide (h ∈ hs) then Some Know_Gone else K !! h.
Proof.
  unfold all_gone. rewrite lookup_union. induction hs as [|h' hs IH]; cbn [map list_to_map foldr].
  - rewrite lookup_empty. destruct (decide (h ∈ [])) as [Hh|]; [by apply elem_of_nil in Hh|]. by destruct (K !! h).
  - rewrite lookup_insert. destruct (decide (h' = h)) as [->|E].
    + rewrite (decide_True (P := h ∈ h :: hs)) by by left. cbn [fst snd].
      rewrite decide_True by done. by destruct (K !! h).
    + cbn [fst snd]. rewrite (decide_False (P := h' = h)), IH by done. repeat case_decide; set_solver.
Qed.

Lemma prune_ok before dry K post : K = ∅ → (∀ K' r, post K' r) → okd K (prune before dry) post.
Proof.
  intros -> Hp. unfold prune. apply ok_try; [done|]. split_and!.
  - intros now db st _. unfold prune_closure. destruct (prunable db before now) as [doomed|e]; [|constructor].
    destruct dry; [constructor|]. destruct (claim_all_locked _ _); [|constructor].
    destruct (delete_pruned_commits db doomed) as [commits|e] eqn:Hc; [|constructor].
    apply delete_pruned_commits_kept in Hc. cbn. eapply Forall_impl; [exact Hc|].
    intros db'. apply rows_kept_guarantee.
  - done.
  - intros now db st Hdb _. unfold prune_closure.
    assert (Hsame : ∀ r : Result (list ObjectBrief * option Deletion) Failure,
      (match r with Ok (_, Some _) => False | _ => True end) →
      ∃ K', know_after ∅ K' st (([], st, r) : list Db * State * _).1.2
        (last_commit db (([], st, r) : list Db * State * _).1.1) ∧
        okd K' (Ret r) (λ K' r, match r with
          | Ok a => okd K' (let bytes_freed := sum_brief a.1 in
              do? _ <- match a.2 with Some d => finish d | None => Ret (Ok tt) end;
              Ret (Ok (Response_Prune (basenames a.1) bytes_freed))) post
          | Err _ => True end)).
    { intros r Hr. exists ∅. split; [exact (know_after_same describes ∅ st db Hdb)|].
      destruct r as [[doomed [d|]]|e]; [done|apply Hp|done]. }
    destruct (prunable db before now) as [doomed|e] eqn:Hpr; [|by apply Hsame].
    destruct dry; [by apply Hsame|].
    destruct (claim_all_locked st (map b_store_path_hash doomed)) as [st'|e] eqn:Hcl; [|by apply Hsame].
    destruct (delete_pruned_commits db doomed) as [commits|e] eqn:Hc; [|by apply Hsame].
    apply claim_all_locked_spec in Hcl as [Hpl Hfree]. cbn [fst snd].
    set (hs := map b_store_path_hash doomed) in *. exists (all_gone hs ∅). split.
    + split; [done| | |].
      * intros h k'. rewrite all_gone_lookup, (Hpl h). case_decide; [|done]. intros [= <-] _.
        split_and!; [by apply Hfree|done|done].
      * intros h. rewrite all_gone_lookup, (Hpl h). case_decide; [|done]. intros [?|[? ?]]; done.
      * intros h k. rewrite all_gone_lookup. case_decide as Hh; [|done]. intros [= <-] _.
        by eapply delete_pruned_commits_gone.
    + cbn [ok fst snd]. apply ok_try; [done|]. rewrite queue_blobs.
      apply finish_ok; [|intros K' [u|e]; [apply Hp|done]]. split; cbn [dn_claims dn_keys].
      * intros h Hh. rewrite all_gone_lookup, decide_True by done. by eexists.
      * intros key (h & -> & Hh)%list_elem_of_fmap. exists h.
        by rewrite all_gone_lookup, decide_True.
Qed.

Lemma write_sigs_kept updates db : rows_kept db (write_sigs updates db).
Proof.
  unfold write_sigs. revert db. induction updates as [|u updates IH]; intros db; [apply rows_kept_refl|].
  cbn [foldl]. eapply rows_kept_trans; [|apply IH]. by apply rows_kept_update.
Qed.

Lemma resign_chunks_ok state chunks resigned refused K post :
  (∀ K' r, post K' r) → okd K (resign_chunks state chunks resigned refused) post.
Proof.
  intros Hp. revert resigned refused K. induction chunks as [|chunk chunks IH]; intros resigned refused K;
    cbn [resign_chunks]; [apply Hp|].
  apply ok_try; [done|]. apply ok_read; [done|]. intros db _.
  destruct (resign_objects _ _) as [[updates n]|e]; [|apply Hp].
  apply ok_try; [done|]. apply ok_write; [intros; apply write_sigs_kept|done|]. intros db' _. apply IH.
Qed.

Lemma pin_kept db name hash expires now db' : pin db name hash expires now = Ok db' → rows_kept db db'.
Proof. unfold pin. intros H. case_hyps H. by apply rows_kept_objects. Qed.

Lemma dispatch_ok state fuel req : okd ∅ (dispatch state fuel req) (λ _ _, True).
Proof.
  unfold dispatch. apply ok_bind. destruct req; cbn beta iota.
  - unfold status. apply ok_bind, ok_request. intros st. by apply ok_read.
  - destruct (as_gc state) as [cfg|]; [|done]. apply ok_try; [done|]. apply gc_run_ok. by intros K' [].
  - unfold resign. apply ok_try; [done|]. apply ok_read; [done|]. intros db _. by apply resign_chunks_ok.
  - apply ok_try; [done|]. apply admin_delete_ok. by intros K' [].
  - unfold admin_pin. apply ok_try; [done|]. apply ok_try_now; [|by intros K' []].
    intros now db db'. apply pin_kept.
  - unfold admin_unpin. apply ok_try; [done|]. apply ok_write; [|done..].
    intros db. by apply rows_kept_objects.
  - destruct (as_gc state) as [cfg|]; [|done]. apply ok_try; [done|]. apply fsck_run_ok. by intros K' [].
  - by apply prune_ok.
  - by apply delete_pushed_by_ok.
  - unfold backup. apply ok_try; [done|]. cbn. by intros [bytes|e].
Qed.

Lemma missing_ok hashes : okd ∅ (missing_paths hashes) (λ _ _, True).
Proof.
  unfold missing_paths. apply ok_bind. apply ok_write_now; [|done]. intros now db. apply missing_kept.
Qed.

Lemma puller_bump_ok hashes stale : okd ∅ (puller_bump hashes stale) (λ _ _, True).
Proof. apply ok_write_now; [|done]. intros now db. apply bump_kept. Qed.
End handlers_ok.

Section safety.
Context `{J : Json, C : Crypto, Zs : Zstd} (unzstd : list Z → option (list Z)) `{!ZstdLaws unzstd}.

Lemma ignore_ok {A} describes K (p : Handler A) :
  ok describes K p (λ _ _, True) → ok describes K (ignore p) (λ _ _, True).
Proof. intros Hp. apply ok_bind. eapply ok_mono; [|exact Hp]. done. Qed.

Lemma spawnable_ok c p : spawnable c p → ok (blob_described unzstd) ∅ p (λ _ _, True).
Proof.
  destruct 1; apply ignore_ok.
  - by apply upload_ok.
  - apply missing_ok.
  - apply dispatch_ok.
  - by apply tick_ok.
  - by apply sweep_ok.
  - apply puller_bump_ok.
Qed.
End safety.

Lemma reachable_rows `{J : Json, C : Crypto, Zs : Zstd} unzstd `{!ZstdLaws unzstd} P hash row :
  reachable P → objects (w_db (p_world P)) !! hash = Some row →
  ∃ body, w_blobs (p_world P) !! key_for hash = Some body ∧ blob_described unzstd (row_facts row) body.
Proof.
  intros Hr Hrow.
  destruct (pool_safe (blob_described unzstd) spawnable (spawnable_ok unzstd) P Hr) as [Ks HP].
  exact (pi_covered _ _ _ HP hash row Hrow).
Qed.

(** C1: In every state the pusher and its connected puller can reach, however uploads, admin
    requests, garbage-collection ticks, orphan sweeps and access bumps interleave, fail, or are
    cancelled, every row of the database has its blob in storage under its key; the row's file hash
    and file size are those of that blob, and the blob decompresses to a NAR with the row's NAR hash
    and NAR size. *)
Theorem every_row_has_its_blob `{J : Json, C : Crypto, Zs : Zstd} unzstd `{!ZstdLaws unzstd} P :
  reachable P →
  ∀ hash row, objects (w_db (p_world P)) !! hash = Some row →
    ∃ body nar, w_blobs (p_world P) !! key_for hash = Some body ∧
      r_file_hash row = sha256_nix32 (sha256 body) ∧ r_file_size row = len_Z body ∧
      unzstd body = Some nar ∧ r_nar_size row = len_Z nar ∧
      r_nar_hash row = sha256_nix32 (sha256 nar).
Proof.
  intros Hr hash row Hrow.
  destruct (reachable_rows unzstd P hash row Hr Hrow) as (body & Hb & H1 & H2 & nar & H3 & H4 & H5).
  by exists body, nar.
Qed.

(** A handler alone is one of the interleavings. *)
Lemma runs_steps (spawn : bool → Handler unit → Prop) w held (p : Handler unit) w' held' a :
  runs w held p w' held' a → ∀ ts i c, ts !! i = Some (held, Running c p) →
  rtc (pool_step spawn) (mkPool w ts) (mkPool w' (<[i := (held', Running c (Ret a))]> ts)).
Proof.
  induction 1 as [w held a|B w held op k r w1 held1 w2 held2 a Hs _ IH]; intros ts i c Hi.
  - rewrite insert_id by done. apply rtc_refl.
  - eapply rtc_l; [eapply (ps_op _ w ts i c held (Step op k) w1 held1 (k r)); [done|by exists r]|].
    etransitivity; [apply IH, lookup_insert_eq|]. rewrite insert_insert_eq. apply rtc_refl.
Qed.

Lemma runs_reach (spawn : bool → Handler unit → Prop) c w (p : Handler unit) w' held' :
  spawn c p → runs w ∅ p w' held' tt →
  rtc (pool_step spawn) (mkPool w ∅) (mkPool (release held' w') ∅).
Proof.
  intros Hs Hr. eapply rtc_l; [by apply (ps_spawn _ w ∅ 0 c p)|].
  etransitivity; [eapply runs_steps; [exact Hr|apply lookup_insert_eq]|].
  rewrite insert_insert_eq. eapply rtc_l; [eapply (ps_end _ w' _ 0 c held'), lookup_insert_eq|].
  rewrite delete_insert_eq, delete_empty. apply rtc_refl.
Qed.

(** The example upload reaches a state that holds its row. *)
Lemma example_reached :
  ∃ (P : Pool) (row : Row), reachable (J := toy_json) (C := toy_crypto) (Zs := toy_zstd) P ∧
    p_threads P = ∅ ∧ objects (w_db (p_world P)) !! example_hash = Some row.
Proof.
  pose (p := ignore (upload (J := toy_json) (C := toy_crypto) (Zs := toy_zstd) example_state
    example_hash "ci" example_body [] false)).
  destruct (exec 0 world_empty ∅ p) as [[[] w'] held'] eqn:E.
  assert (Hrow : objects (w_db (exec 0 world_empty ∅ p).1.2) !! example_hash ≠ None).
  { intros Hn. vm_compute in Hn. discriminate Hn. }
  rewrite E in Hrow. simpl in Hrow.
  destruct (objects (w_db w') !! example_hash) as [row|] eqn:Er; [|destruct (Hrow eq_refl)].
  exists (mkPool (release held' w') ∅), row. split_and!; [|done|done].
  eapply runs_reach; [|by eapply exec_runs]. apply sp_upload. reflexivity.
Qed.

Lemma every_row_has_its_blob_witness :
  ∃ (P : Pool) (row : Row) (body nar : list Z),
    objects (w_db (p_world P)) !! example_hash = Some row ∧
    w_blobs (p_world P) !! key_for example_hash = Some body ∧
    r_file_hash row = sha256_nix32 (@sha256 toy_zstd body) ∧ r_nar_size row = len_Z nar.
Proof.
  destruct example_reached as (P & row & Hreach & _ & Hrow).
  destruct (every_row_has_its_blob (J := toy_json) (C := toy_crypto) (Zs := toy_zstd) Some P Hreach _ _ Hrow)
    as (body & nar & Hb & Hh & _ & _ & Hn & _).
  by exists P, row, body, nar.
Defined.
