(* ===== verification/Bookkeeping.v ===== *)
(** * Bookkeeping: what stays right whatever interleaves

    Three facts of every reachable state: the usage counter is the sum of the
    rows' sizes and every reference and pin belongs to a row ([db_wf]); the
    upload counter is the number of upload claims; and every claim is held by a
    live handler, so no path stays claimed for ever.

    The first two are proved handler by handler: [pres] says that each database
    closure a handler submits keeps a well-formed database well-formed and a
    counted in-flight set counted. The last holds of any handlers at all. *)

From S2P Require Import Prelude Text Common InFlight Db Prune Prog Storage World Narinfo Deletion Fsck Admin Verify Pusher Protocol.

(** The in-flight set's upload counter is right. *)
Definition counted (st : State) : Prop := uploads st = Z.of_nat (upload_count (claims st)).

Lemma counted_take st h k st' : take_claim st h k = Ok st' → counted st → counted st'.
Proof.
  unfold counted. intros (Hn & -> & _ & ->)%take_claim_Ok Hc. rewrite upload_count_insert by done.
  destruct k; lia.
Qed.

Lemma counted_drop st h : counted st → counted (drop_claim st h).1.
Proof.
  unfold counted. intros Hc. rewrite drop_claim_claims, upload_count_delete. unfold drop_claim.
  destruct (claims st !! h) as [[]|] eqn:Hh; simpl; try done. apply upload_count_pos in Hh. lia.
Qed.

Lemma counted_drops st hs : counted st → counted (drop_claims st hs).
Proof.
  revert st. induction hs as [|h hs IH]; intros st Hst; [done|]. apply IH. by apply counted_drop.
Qed.

(** ** Handlers whose closures keep the books *)

(** An answer [op] can get in some world. *)
Definition answers {B} (op : Op B) (r : B) : Prop :=
  ∃ w held w' held', op_step w held op r w' held'.

Definition closure_pres {B} (op : Op B) : Prop :=
  match op with
  | Op_Db _ f => ∀ now db st, db_wf db → counted st →
      Forall db_wf (f now db st).1.1 ∧ counted (f now db st).1.2
  | _ => True
  end.

Fixpoint pres {A} (p : Handler A) (Q : A → Prop) : Prop :=
  match p with
  | Ret a => Q a
  | Step op k => closure_pres op ∧ ∀ r, answers op r → pres (k r) Q
  end.

Lemma pres_mono {A} (p : Handler A) (Q Q' : A → Prop) : (∀ a, Q a → Q' a) → pres p Q → pres p Q'.
Proof.
  intros HQ. induction p as [a|B op k IH]; simpl; [apply HQ|]. intros [Hc Hk].
  split; [done|]. intros r Hr. by apply IH, Hk.
Qed.

Lemma pres_bind {A B} (p : Handler A) (f : A → Handler B) Q :
  pres p (λ a, pres (f a) Q) → pres (prog_bind p f) Q.
Proof.
  induction p as [a|C op k IH]; simpl; [done|]. intros [Hc Hk]. split; [done|].
  intros r Hr. by apply IH, Hk.
Qed.

Lemma pres_try {A B} (p : Handler (Result A Failure)) (f : A → Handler (Result B Failure)) :
  pres p (λ _, True) → (∀ a, pres (f a) (λ _, True)) → pres (do? x <- p; f x) (λ _, True).
Proof. intros Hp Hf. apply pres_bind. eapply pres_mono; [|exact Hp]. by intros [a|e] _. Qed.

Lemma pres_seq {A B} (p : Handler A) (f : A → Handler B) :
  pres p (λ _, True) → (∀ a, pres (f a) (λ _, True)) → pres (prog_bind p f) (λ _, True).
Proof. intros Hp Hf. apply pres_bind. eapply pres_mono; [|exact Hp]. by intros a _. Qed.

Lemma pres_request {B} (op : Op B) : closure_pres op → pres (request op) (λ _, True).
Proof. by split. Qed.

Lemma pres_read {A} (f : Db → A) : pres (db_read f) (λ _, True).
Proof. apply pres_request. intros now db st _ Hst. by split. Qed.

Lemma pres_write {A} (f : Db → Db * A) : (∀ db, db_wf db → db_wf (f db).1) → pres (db_write f) (λ _, True).
Proof. intros Hf. apply pres_request. intros now db st Hdb Hst. split; [constructor; [by apply Hf|done]|done]. Qed.

Lemma pres_write_now {A} (f : Z → Db → Db * A) :
  (∀ now db, db_wf db → db_wf (f now db).1) → pres (db_write_now f) (λ _, True).
Proof. intros Hf. apply pres_request. intros now db st Hdb Hst. split; [constructor; [by apply Hf|done]|done]. Qed.

Lemma pres_try_now (f : Z → Db → Result Db string) :
  (∀ now db db', db_wf db → f now db = Ok db' → db_wf db') → pres (db_try_now f) (λ _, True).
Proof.
  intros Hf. apply pres_request. intros now db st Hdb Hst.
  destruct (f now db) as [db'|e] eqn:E; (split; [|done]); [|constructor].
  apply Forall_singleton. by eapply Hf.
Qed.

Create HintDb pres.
#[export] Hint Resolve pres_read : pres.

(** Walks a handler's straight-line code. *)
Ltac pres_walk :=
  repeat match goal with
  | |- pres (Ret _) _ => exact I
  | |- pres (match ?x with _ => _ end) _ => destruct x
  | |- pres (prog_bind _ (λ _, match _ with Ok _ => _ | Err err => Ret (Err err) end)) _ => apply pres_try; [|intros]
  | |- pres (prog_bind _ _) _ => apply pres_seq; [|intros]
  | |- pres (db_read _) _ => apply pres_read
  | |- pres (request _) _ => apply pres_request; try exact I
  end.

Lemma pres_finish d : pres (finish d) (λ _, True).
Proof. unfold finish. pres_walk. Qed.

Lemma pres_claim_all_from claimed hashes : pres (claim_all_from claimed hashes) (λ _, True).
Proof.
  revert claimed. induction hashes as [|h hashes IH]; intros claimed; cbn [claim_all_from]; pres_walk.
  apply IH.
Qed.
#[export] Hint Resolve pres_finish pres_claim_all_from : pres.

Lemma pres_evict_batch low at_ candidates s : pres (evict_batch low at_ candidates s) (λ _, True).
Proof.
  revert s. induction candidates as [|[h size] candidates IH]; intros s; cbn [evict_batch]; pres_walk; try apply IH.
  apply pres_write. intros db. apply db_wf_evict_object.
Qed.

Lemma pres_evict_loop fuel low usage result : pres (evict_loop fuel low usage result) (λ _, True).
Proof.
  revert usage result. induction fuel as [|fuel IH]; intros usage result; cbn [evict_loop]; pres_walk;
    [apply pres_evict_batch|apply pres_finish|apply IH].
Qed.

Lemma pres_gc_run fuel cfg : pres (gc_run fuel cfg) (λ _, True).
Proof.
  unfold gc_run, evict. pres_walk; [|apply pres_evict_loop].
  apply pres_write. apply db_wf_reconcile.
Qed.

Lemma pres_tick fuel cfg : pres (tick fuel cfg) (λ _, True).
Proof. unfold tick. pres_walk. apply pres_gc_run. Qed.

Lemma counted_sweep_claims db st hashes d : counted st → counted (sweep_claims db st hashes d).1.
Proof.
  revert st d. induction hashes as [|h hashes IH]; intros st d Hst; cbn [sweep_claims]; [done|].
  destruct (claim_delete st h) as [st'|] eqn:E; [|by apply IH].
  apply counted_take in E; [|done]. destruct (exists_ db h); [|by apply IH].
  apply IH. by apply counted_drop.
Qed.

Lemma pres_sweep grace : pres (sweep grace) (λ _, True).
Proof.
  unfold sweep. pres_walk; [|apply pres_finish]. intros now db st _ Hst.
  pose proof (counted_sweep_claims db st (orphan_hashes a0 a st grace) deletion_default Hst) as Hc.
  by destruct (sweep_claims _ _ _ _).
Qed.

Lemma db_wf_repair_one f db : db_wf db → db_wf (repair_one f db).1.
Proof.
  intros Hwf. unfold repair_one. case_bool_decide; [|done].
  pose proof (db_wf_delete_object db (f_hash f) Hwf) as H'. by destruct (delete_object db (f_hash f)).
Qed.

Lemma pres_repair_loop findings n : pres (repair_loop findings n) (λ _, True).
Proof.
  revert n. induction findings as [|f findings IH]; intros n; cbn [repair_loop]; pres_walk; [|apply IH].
  apply pres_write, db_wf_repair_one.
Qed.

Lemma pres_fsck_body grace vs repair drained : pres (fsck_body grace vs repair drained) (λ _, True).
Proof.
  unfold fsck_body. pres_walk. apply pres_repair_loop.
Qed.

Lemma pres_fsck_run grace vs repair : pres (fsck_run grace vs repair) (λ _, True).
Proof. unfold fsck_run. pres_walk; apply pres_fsck_body. Qed.

(** *** Admin commands *)

Lemma pres_delete_loop dry hashes d acc : pres (delete_loop dry hashes d acc) (λ _, True).
Proof.
  revert d acc. induction hashes as [|h hashes IH]; intros d acc; cbn [delete_loop]; pres_walk; try apply IH.
  apply pres_write. intros db. apply db_wf_delete_object.
Qed.

Lemma pres_admin_delete hashes dry : pres (admin_delete hashes dry) (λ _, True).
Proof.
  unfold admin_delete. pres_walk; [apply pres_claim_all_from|apply pres_delete_loop|apply pres_finish].
Qed.

Lemma counted_claim_all_locked st hashes st' :
  claim_all_locked st hashes = Ok st' → counted st → counted st'.
Proof.
  revert st. induction hashes as [|h hashes IH]; intros st; cbn [claim_all_locked]; [by intros [= ->]|].
  destruct (claim_delete st h) as [st1|] eqn:E; [|done]. intros Hcl Hst.
  apply (IH st1 Hcl). by eapply counted_take.
Qed.

(** A prefix of prune's order leaves a well-formed database. *)
Lemma delete_pruned_commits_wf db before now doomed commits :
  db_wf db → prunable db before now = Ok doomed → delete_pruned_commits db doomed = Ok commits →
  Forall db_wf commits.
Proof.
  intros Hwf Hp. unfold delete_pruned_commits. destruct (referrers_first db doomed) as [order|e] eqn:Ho; [|done].
  intros [= <-]. apply Forall_forall. intros db' Hin.
  assert (db' ∈ prune_commits doomed (chunks PRUNE_BATCH order) db) as Hin'
    by (destruct (prune_commits _ _ _); [done|by right]).
  destruct (Prune.pruned_commits db before now doomed order Hp Ho [] (chunks PRUNE_BATCH order) [] db)
    with (db2 := db') as (pre & post & _ & Hm); [|by apply minus_nil|done|by apply Hm].
  by rewrite app_nil_r, chunks_concat.
Qed.

Lemma pres_prune before dry : pres (prune before dry) (λ _, True).
Proof.
  unfold prune. pres_walk; [|apply pres_finish]. intros now db st Hdb Hst. unfold prune_closure.
  destruct (prunable db before now) as [doomed|e] eqn:Hp; [|by split].
  destruct dry; [by split|].
  destruct (claim_all_locked st _) as [st'|e] eqn:Hcl; [|by split].
  destruct (delete_pruned_commits db doomed) as [commits|e] eqn:Hc; [|by split].
  split; [by eapply delete_pruned_commits_wf|by eapply counted_claim_all_locked].
Qed.

Lemma db_wf_write_sigs updates db : db_wf db → db_wf (write_sigs updates db).
Proof.
  unfold write_sigs. revert db. induction updates as [|u updates IH]; intros db Hwf; [done|].
  apply IH. by apply db_wf_update_sigs.
Qed.

Lemma pres_resign_chunks `{C : Crypto} state chunks n m : pres (resign_chunks state chunks n m) (λ _, True).
Proof.
  revert n m. induction chunks as [|chunk chunks IH]; intros n m; cbn [resign_chunks]; pres_walk; [|apply IH].
  apply pres_write, db_wf_write_sigs.
Qed.

Lemma pres_dispatch `{C : Crypto} state fuel req : pres (dispatch state fuel req) (λ _, True).
Proof.
  unfold dispatch. apply pres_seq; [|by intros []]. destruct req.
  - unfold status. pres_walk.
  - pres_walk. apply pres_gc_run.
  - unfold resign. pres_walk. apply pres_resign_chunks.
  - pres_walk. apply pres_admin_delete.
  - unfold admin_pin. pres_walk. apply pres_try_now. intros now db db' Hwf. by apply db_wf_pin.
  - unfold admin_unpin. pres_walk. apply pres_write. intros db. by apply db_wf_unpin.
  - pres_walk. apply pres_fsck_run.
  - apply pres_prune.
  - unfold delete_pushed_by, delete_listed. pres_walk. apply pres_admin_delete.
  - unfold backup. pres_walk.
Qed.

(** *** Clients *)

Section clients.
Context `{J : Json, C : Crypto, Zs : Zstd}.

Lemma pres_missing hashes : pres (missing_paths hashes) (λ _, True).
Proof. unfold missing_paths. pres_walk. apply pres_write_now. intros now db. apply db_wf_missing. Qed.

Lemma pres_puller_bump hashes stale : pres (puller_bump hashes stale) (λ _, True).
Proof. apply pres_write_now. intros now db. apply db_wf_bump. Qed.

Lemma pres_store_upload {S} `{ByteStream S} state hash subject (body : S) notices dies :
  (0 < part_size (us_limits state))%Z →
  pres (store_upload state hash subject body notices dies) (λ _, True).
Proof.
  intros Hps. unfold store_upload.
  destruct (read_preamble _ _ _) as [[[p leftover]|e] stream]; [|done].
  destruct (build_object hash p _ subject) as [obj|e]; [|done].
  destruct (verified_nar _ _ _ _ _) as [nar|e]; [|done].
  split; [done|]. intros [stored nar'] (w & held & w' & held' & _ & tr & Hrun & _). cbn [prog_bind fst snd].
  destruct (vn_outcome nar') as [[]|]; try done. destruct stored as [[digest size]|e]; [|done].
  apply put_streaming_Ok in Hrun as (chunks & _ & _ & -> & _); [|done].
  destruct (signed_object state obj digest _) as [obj'|e] eqn:Hs; [|done].
  apply signed_object_Ok in Hs as (sigs & -> & _).
  split; [done|]. intros at_ _. split; [|by intros []].
  intros now db st Hdb Hst. destruct (insert_object db _ at_) as [db'|e] eqn:Hins; (split; [|done]); [|constructor].
  apply Forall_singleton. eapply db_wf_insert; [done| |done]. cbn. unfold len_Z. lia.
Qed.

Lemma pres_already_stored hash : pres (already_stored hash) (λ _, True).
Proof. unfold already_stored. pres_walk. Qed.

Lemma pres_upload {S} `{ByteStream S} state hash subject (body : S) notices dies :
  (0 < part_size (us_limits state))%Z → pres (upload state hash subject body notices dies) (λ _, True).
Proof.
  intros Hps. unfold upload, already_stored. pres_walk; try exact I.
  by apply pres_store_upload.
Qed.

Lemma spawnable_pres c p : spawnable c p → pres p (λ _, True).
Proof.
  destruct 1; (apply pres_seq; [|done]).
  - by apply pres_upload.
  - apply pres_missing.
  - apply pres_dispatch.
  - apply pres_tick.
  - apply pres_sweep.
  - apply pres_puller_bump.
Qed.
End clients.

(** ** Every step keeps the books *)

Definition thread_pres (t : Thread) : Prop :=
  match t with
  | Running _ p => pres p (λ _, True)
  | Detached f => ∀ now db st, db_wf db → counted st → Forall db_wf (f now db st)
  end.

(** Every claim has a live holder. *)
Definition held_by (ts : gmap nat (gset string * Thread)) (st : State) : Prop :=
  ∀ h, is_Some (claims st !! h) → ∃ i held t, ts !! i = Some (held, t) ∧ h ∈ held.

Record books (P : Pool) : Prop := {
  bk_db : db_wf (w_db (p_world P));
  bk_counted : counted (w_inflight (p_world P));
  bk_threads : map_Forall (λ _ e, thread_pres e.2) (p_threads P);
  bk_held : held_by (p_threads P) (w_inflight (p_world P));
}.

Lemma op_step_books {B} w held (op : Op B) r w' held' :
  closure_pres op → op_step w held op r w' held' → db_wf (w_db w) → counted (w_inflight w) →
  db_wf (w_db w') ∧ counted (w_inflight w').
Proof.
  intros Hc Hs Hdb Hst. destruct op; cbn [op_step] in Hs.
  - destruct (claim _ _) as [st|e] eqn:E; destruct Hs as (_ & -> & _); [|done].
    apply claim_inv in E as [_ E]. split; [done|]. by eapply counted_take.
  - destruct (claim_delete _ _) as [st|e] eqn:E; destruct Hs as (_ & -> & _); [|done].
    split; [done|]. by eapply counted_take.
  - destruct Hs as [-> _]. split; [done|]. by apply counted_drops.
  - by destruct Hs as (_ & -> & _).
  - by destruct Hs as (-> & _).
  - by destruct Hs as (_ & -> & _).
  - by destruct Hs as (-> & _).
  - by destruct Hs as (-> & _).
  - by destruct Hs as (_ & -> & _).
  - destruct (Hc (w_now w) (w_db w) (w_inflight w) Hdb Hst) as [Hdbs Hst'].
    destruct (f _ _ _) as [[commits st] res]. cbn [fst snd] in *.
    destruct Hs as [(_ & -> & _)|(msg & db' & _ & Hin & -> & _)]; (split; [|done]); cbn [w_db with_db].
    + unfold last_commit. destruct commits as [|d ds _] using rev_ind; [done|].
      rewrite List.last_last. by apply Forall_app in Hdbs as [_ [? _]%Forall_cons].
    + apply elem_of_cons in Hin as [->|Hin]; [done|]. rewrite Forall_forall in Hdbs. by apply Hdbs.
  - destruct Hs as (_ & tr & _ & [-> |(_ & bytes & ->)]); by split.
  - destruct Hs as (_ & gone & _ & _ & ->). by split.
  - by destruct Hs as (-> & _).
  - by destruct Hs as (-> & _).
  - by destruct Hs as (-> & _).
Qed.

(** A request claims only what its handler comes to hold. *)
Lemma op_step_held {B} w held (op : Op B) r w' held' h :
  op_step w held op r w' held' → is_Some (claims (w_inflight w') !! h) →
  h ∈ held' ∨ is_Some (claims (w_inflight w) !! h) ∧ (h ∈ held → h ∈ held').
Proof.
  intros Hs Hh. destruct op; cbn [op_step] in Hs.
  - destruct (claim _ _) as [st|e] eqn:E; destruct Hs as (_ & -> & ->); [|by right].
    apply claim_inv in E as [_ (_ & Hc & _)%take_claim_Ok]. cbn in Hh. rewrite Hc in Hh.
    apply lookup_insert_is_Some' in Hh as [<-|?]; [left; set_solver|right; set_solver].
  - destruct (claim_delete _ _) as [st|e] eqn:E; destruct Hs as (_ & -> & ->); [|by right].
    apply claim_delete_inv in E as [_ Hc]. cbn in Hh. rewrite Hc in Hh.
    apply lookup_insert_is_Some' in Hh as [<-|?]; [left; set_solver|right; set_solver].
  - destruct Hs as [-> ->]. cbn in Hh. rewrite drop_claims_lookup in Hh. right.
    case_bool_decide as Hin; [by destruct Hh|]. split; [done|]. set_solver.
  - destruct Hs as (_ & -> & ->). by right.
  - destruct Hs as (-> & ->). by right.
  - destruct Hs as (_ & -> & ->). by right.
  - destruct Hs as (-> & ->). by right.
  - destruct Hs as (-> & ->). by right.
  - destruct Hs as (_ & -> & ->). by right.
  - destruct (f _ _ _) as [[commits st] res].
    destruct Hs as [(_ & -> & ->)|(msg & db' & _ & _ & -> & ->)]; [|by right]. cbn in Hh.
    destruct (decide (is_Some (claims (w_inflight w) !! h))) as [Ho|Ho]; [right; set_solver|left].
    apply elem_of_union_r, elem_of_difference. by rewrite !elem_of_dom.
  - destruct Hs as (-> & tr & _ & [-> |(_ & bytes & ->)]); by right.
  - destruct Hs as (-> & gone & _ & _ & ->). by right.
  - destruct Hs as (-> & ->). by right.
  - destruct Hs as (-> & ->). by right.
  - destruct Hs as (-> & ->). by right.
Qed.

(** The holder of a claim after thread [i] moved from [held] to [held']. *)
Lemma held_by_update ts i held t held' t' st st' :
  ts !! i = Some (held, t) → held_by ts st →
  (∀ h, is_Some (claims st' !! h) → h ∈ held' ∨ is_Some (claims st !! h) ∧ (h ∈ held → h ∈ held')) →
  held_by (<[i := (held', t')]> ts) st'.
Proof.
  intros Hi Hb Hh h [Hin|[(j & heldj & tj & Hj & Hhj)%Hb Hkeep]]%Hh.
  - exists i, held', t'. by rewrite lookup_insert_eq.
  - destruct (decide (j = i)) as [->|Hne].
    + exists i, held', t'. rewrite lookup_insert_eq. simplify_eq. auto.
    + exists j, heldj, tj. by rewrite lookup_insert_ne.
Qed.

Lemma held_by_end ts i held t st :
  ts !! i = Some (held, t) → held_by ts st →
  held_by (delete i ts) (drop_claims st (elements held)).
Proof.
  intros Hi Hb h. rewrite drop_claims_lookup. case_bool_decide as Hin; [by intros [? ?]|].
  intros (j & heldj & tj & Hj & Hhj)%Hb. exists j, heldj, tj. split; [|done].
  rewrite lookup_delete_ne; [done|]. intros ->. simplify_eq. by rewrite elem_of_elements in Hin.
Qed.

Section books.
Context (spawn : bool → Handler unit → Prop) (Hspawn : ∀ c p, spawn c p → pres p (λ _, True)).

Lemma books_step P P' : books P → pool_step spawn P P' → books P'.
Proof.
  intros [Hdb Hst Hts Hheld] Hs. destruct Hs as [w ts i c p Hi Hsp|w ts i c held p w' held' p' Hi Hs
    |w ts i c held Hi|w ts i held p Hi|w ts i held p moved f Hi Haw kept
    |w ts i held f db' Hi Hdb'|w ts t|w ts]; cbn [p_world p_threads] in *.
  - split; try done; [by apply map_Forall_insert_2; [by eapply Hspawn|]|].
    intros h (j & heldj & tj & Hj & Hh)%Hheld. exists j, heldj, tj. split; [|done].
    cbn. rewrite lookup_insert_ne; [done|]. congruence.
  - destruct p as [a|B op k]; [done|]. destruct Hs as (r & Hop & ->).
    pose proof (Hts i _ Hi) as [Hc Hk]. cbn in Hk.
    destruct (op_step_books _ _ _ _ _ _ Hc Hop Hdb Hst) as [Hdb' Hst'].
    split; cbn [p_world p_threads]; [done|done| |].
    + apply map_Forall_insert_2; [|done]. cbn. apply Hk. unfold answers. eauto.
    + eapply held_by_update; [done|done|]. intros h. by eapply op_step_held.
  - split; cbn; [done|by apply counted_drops|by apply map_Forall_delete|by eapply held_by_end].
  - split; cbn; [done|by apply counted_drops|by apply map_Forall_delete|by eapply held_by_end].
  - pose proof (Hts i _ Hi) as Hp. cbn in Hp.
    split; cbn [p_world p_threads]; [done|by apply counted_drops| |].
    + apply map_Forall_insert_2; [|done]. cbn. destruct p as [a|B op k]; [done|]. destruct op; try done.
      destruct Haw as [-> ->]. intros now db st Hd Hs. by apply (proj1 Hp).
    + eapply held_by_update; [done|done|]. intros h. cbn. rewrite drop_claims_lookup.
      case_bool_decide as Hin; [by intros [? ?]|]. intros Hh. right. split; [done|].
      rewrite elem_of_elements in Hin. intros Hx. destruct (decide (h ∈ kept)) as [|Hn]; [done|].
      exfalso. by apply Hin, elem_of_difference.
  - pose proof (Hts i _ Hi) as Hp. cbn in Hp. split; cbn [p_world p_threads w_db with_db w_inflight]; [|done| |].
    + apply elem_of_cons in Hdb' as [->|Hin]; [done|].
      pose proof (Hp (w_now w) _ _ Hdb Hst) as HF. rewrite Forall_forall in HF. by apply HF.
    + by apply map_Forall_insert_2.
    + eapply held_by_update; [done|done|]. intros h Hh. by right.
  - by split.
  - split; cbn; [done|done|done|]. intros h [k Hk]. cbn in Hk. by rewrite lookup_empty in Hk.
Qed.

Lemma books_reachable P : rtc (pool_step spawn) (mkPool world_empty ∅) P → books P.
Proof.
  assert (books (mkPool world_empty ∅)) as H0.
  { split; cbn; [apply db_wf_empty|done|done|]. intros h [k Hk]. cbn in Hk. by rewrite lookup_empty in Hk. }
  intros Hr. induction Hr as [P|P P1 P2 Hs _ IH]; [done|]. apply IH. by eapply books_step.
Qed.
End books.

(** C3: In every reachable state of the pusher the usage counter equals the sum of the stored file
    sizes, every reference has a referring row, every pin names a row, the in-flight upload counter
    equals the number of upload claims, and every claim is held by a live thread: when no thread is
    left, no path is claimed. *)
Theorem reachable_keeps_books `{J : Json, C : Crypto, Zs : Zstd} P :
  reachable P →
  (total_bytes (w_db (p_world P)) = sum_file_size (objects (w_db (p_world P))) ∧
   (∀ h r, (h, r) ∈ object_refs (w_db (p_world P)) → is_Some (objects (w_db (p_world P)) !! h)) ∧
   (∀ n p, pins (w_db (p_world P)) !! n = Some p → is_Some (objects (w_db (p_world P)) !! p_store_path_hash p))) ∧
  counted (w_inflight (p_world P)) ∧
  (∀ h, is_Some (claims (w_inflight (p_world P)) !! h) → ∃ i held t, p_threads P !! i = Some (held, t) ∧ h ∈ held) ∧
  (p_threads P = ∅ → claims (w_inflight (p_world P)) = ∅).
Proof.
  intros Hr. destruct (books_reachable _ spawnable_pres P Hr) as [[H1 _ H3 H4] Hc _ Hheld].
  split_and!; [done|done|done|done|done|].
  intros Hts. apply map_eq. intros h. rewrite lookup_empty. apply eq_None_not_Some.
  intros (i & held & t & Hi & _)%Hheld. by rewrite Hts in Hi.
Qed.

Lemma reachable_keeps_books_witness :
  ∃ P : Pool, p_threads P = ∅ ∧ claims (w_inflight (p_world P)) = ∅ ∧
    total_bytes (w_db (p_world P)) = sum_file_size (objects (w_db (p_world P))).
Proof.
  destruct example_reached as (P & row & Hreach & Hts & _).
  destruct (reachable_keeps_books (J := toy_json) (C := toy_crypto) (Zs := toy_zstd) P Hreach)
    as ([Ht _] & _ & _ & Hc).
  exists P. split_and!; [done|by apply Hc|done].
Defined.
