(* ===== verification/Refine.v ===== *)
(** * Refine: the running system is a write-once store

    The abstract store holds, for each path, what a client reads of it: the
    facts of its narinfo and the bytes of its NAR blob, together. It is shared
    by writers, each of which may have the right to publish some paths: no path
    is two writers' to publish. A step of the store is one writer's: a path it
    has the right to publish appears whole where nothing was, or is removed
    whole; what is there is never changed, and nobody else publishes it.

    The Pusher needs several requests for each, over a database and a bucket
    that share no transaction. [served] is what the two show together at any
    moment, [uploading] is the right to publish: an upload claim held. Every
    step of every interleaving is one step of the store, or none. *)

From S2P Require Import Prelude Text Common InFlight Db Prog Storage World Narinfo Verify Pusher Protocol.

(** ** The abstract store *)

(** Hash and size of the NAR and of its blob; the blob. *)
Abbreviation Entry := (string * Z * string * Z * list Z)%type.
Abbreviation Cache := (gmap string Entry).

(** What a writer that may publish the paths [may] does in one step. *)
Definition store_change (describes : string * Z * string * Z → list Z → Prop) (may : string → Prop) (c c' : Cache) : Prop :=
  ∀ h, c' !! h = c !! h ∨ c' !! h = None ∨
    c !! h = None ∧ may h ∧ ∃ facts body, c' !! h = Some (facts, body) ∧ describes facts body.

Definition store_step (describes : string * Z * string * Z → list Z → Prop) (owns : nat → string → Prop) (c c' : Cache) : Prop :=
  ∃ i, store_change describes (owns i) c c'.

(** ** What a world serves, and who may publish *)

Definition entry (w : World) (h : string) (row : Row) : option Entry :=
  body ← w_blobs w !! key_for h; Some (row_facts row, body).
Definition served (w : World) : Cache := map_imap (entry w) (objects (w_db w)).

(** Handler [i] holds the upload claim of the path. *)
Definition uploading (P : Pool) (i : nat) (h : string) : Prop :=
  ∃ held t, p_threads P !! i = Some (held, t) ∧ h ∈ held ∧ claims (w_inflight (p_world P)) !! h = Some Kind_Upload.

Lemma served_lookup w h e :
  served w !! h = Some e ↔
  ∃ row body, objects (w_db w) !! h = Some row ∧ w_blobs w !! key_for h = Some body ∧ e = (row_facts row, body).
Proof.
  unfold served, entry. rewrite map_lookup_imap. destruct (objects (w_db w) !! h) as [row|]; simpl.
  - destruct (w_blobs w !! key_for h) as [body|]; simpl; naive_solver.
  - naive_solver.
Qed.

Lemma served_no_row w h : objects (w_db w) !! h = None → served w !! h = None.
Proof. intros Hn. destruct (served w !! h) eqn:E; [|done]. apply served_lookup in E as (? & ? & ? & _). congruence. Qed.

Section cache.
Context (describes : string * Z * string * Z → list Z → Prop).

Lemma store_change_same may c : store_change describes may c c.
Proof. by left. Qed.

Lemma store_change_mono (may may' : string → Prop) c c' :
  (∀ h, may h → may' h) → store_change describes may c c' → store_change describes may' c c'.
Proof. intros Hm Hc h. destruct (Hc h) as [?|[?|(? & ? & ?)]]; eauto 6. Qed.

(** What is shown is not changed as long as it is shown. *)
Lemma store_change_kept may c c' h e :
  store_change describes may c c' → c !! h = Some e → is_Some (c' !! h) → c' !! h = Some e.
Proof. intros Hc He [e' He']. destruct (Hc h) as [?|[?|(? & _)]]; congruence. Qed.

(** ** One request *)

(** The paths whose blob the holder of these claims has stored. *)
Definition has_stored (K : Knows) (h : string) : Prop := ∃ body, K !! h = Some (Know_Stored body).

Lemma served_same w w' may :
  w_db w' = w_db w → w_blobs w' = w_blobs w → store_change describes may (served w) (served w').
Proof. intros Hd Hb. unfold served, entry. rewrite Hd, Hb. apply store_change_same. Qed.

Lemma guarantee_served K w db' st :
  knows K w → db_guarantee describes K (w_db w) db' →
  store_change describes (has_stored K) (served w) (served (with_db db' (with_inflight st w))).
Proof.
  intros HK Hg h. destruct (served (with_db _ _) !! h) as [e|] eqn:He; [|by right; left].
  apply served_lookup in He as (row' & body & Hrow & Hb & ->). cbn in Hrow, Hb.
  destruct (Hg h row' Hrow) as [(row & Hr & ->)|(stored & Hs & Hd)].
  - left. symmetry. apply served_lookup. eauto.
  - right. right. split_and!; [apply served_no_row; by apply (kn_db _ _ HK h _ Hs)|by exists stored|].
    exists (row_facts row'), body. split; [done|]. pose proof (kn_blobs _ _ HK h _ Hs _ eq_refl). congruence.
Qed.

(** A blob of a path without a row may come and go: nobody is shown it. *)
Lemma blobs_served w blobs may :
  (∀ h row, objects (w_db w) !! h = Some row → blobs !! key_for h = w_blobs w !! key_for h) →
  store_change describes may (served w) (served (with_blobs blobs w)).
Proof.
  intros Hb h. left. unfold served, entry. rewrite !map_lookup_imap. cbn.
  destruct (objects (w_db w) !! h) as [row|] eqn:Hr; [|done]. cbn. by rewrite (Hb h row).
Qed.

Lemma put_served w h body may :
  objects (w_db w) !! h = None →
  store_change describes may (served w) (served (with_blobs (<[key_for h := body]> (w_blobs w)) w)).
Proof.
  intros Hn. apply blobs_served. intros h' row Hr. apply lookup_insert_ne. intros <-%key_for_inj. congruence.
Qed.

Lemma op_step_served {B} K w held (op : Op B) post r w' held' :
  wp describes K op post → knows K w → op_step w held op r w' held' →
  store_change describes (has_stored K) (served w) (served w').
Proof.
  intros Hwp HK Hs. destruct op as [h|h|hs| | | | | | |A moved f|S str sha key body limits hint|keys| |grace|dest]; cbn in Hs, Hwp.
  - destruct (claim _ _); destruct Hs as (_ & -> & _); by apply served_same.
  - destruct (claim_delete _ _); destruct Hs as (_ & -> & _); by apply served_same.
  - destruct Hs as [-> _]. by apply served_same.
  - destruct Hs as (_ & -> & _). by apply served_same.
  - destruct Hs as [-> _]. by apply served_same.
  - destruct Hs as (_ & -> & _). by apply served_same.
  - destruct Hs as [-> _]. by apply served_same.
  - destruct Hs as [-> _]. by apply served_same.
  - destruct Hs as (_ & -> & _). by apply served_same.
  - destruct Hwp as [Hok _]. specialize (Hok (w_now w) (w_db w) (w_inflight w) (know_db_moved _ _ _ (kn_db _ _ HK))).
    destruct (f (w_now w) (w_db w) (w_inflight w)) as [[commits st] res]. cbn in Hok.
    assert (Hall : ∀ db', db' ∈ w_db w :: commits → db_guarantee describes (moved_only moved K) (w_db w) db').
    { intros db' [->|Hin]%elem_of_cons; [apply db_guarantee_refl|]. by eapply Forall_forall in Hok. }
    apply (store_change_mono (has_stored (moved_only moved K))); [by intros h [b Hb%moved_only_lookup]; exists b|].
    assert (HKm : knows (moved_only moved K) w).
    { split; intros h k Hh%moved_only_lookup; [by apply (kn_db _ _ HK)|by apply (kn_claims _ _ HK)|by apply (kn_blobs _ _ HK)]. }
    destruct Hs as [(_ & -> & _)|(msg & db' & _ & Hin & -> & _)].
    + apply guarantee_served; [exact HKm|]. by apply last_commit_guarantee.
    + assert (with_db db' w = with_db db' (with_inflight (w_inflight w) w)) as -> by by destruct w.
      apply guarantee_served; [exact HKm|by apply Hall].
  - destruct Hwp as (_ & h & -> & Hh & _). assert (Hn : objects (w_db w) !! h = None).
    { by destruct Hh as [Hh|[b Hh]]; apply (kn_db _ _ HK h _ Hh). }
    destruct Hs as (_ & tr & _ & [->|(_ & bytes & ->)]); [|by apply put_served].
    destruct (object_after _ tr); cbn [put_object]; [by apply put_served|by apply served_same].
  - destruct Hs as (_ & gone & Hg & _ & ->). destruct Hwp as [Hkeys _].
    apply blobs_served. intros h row Hr. apply foldr_delete_lookup. intros Hin%Hg.
    destruct (Hkeys _ Hin) as (h' & <-%key_for_inj & Hk). by rewrite (kn_db _ _ HK h _ Hk) in Hr.
  - destruct Hs as [-> _]. by apply served_same.
  - destruct Hs as [-> _]. by apply served_same.
  - destruct Hs as [-> _]. by apply served_same.
Qed.

(** ** One step of an interleaving *)

Lemma has_stored_uploading P Ks i held t h :
  pool_inv describes P Ks → p_threads P !! i = Some (held, t) → has_stored (Ks i) h → uploading P i h.
Proof.
  intros HP Hi [body Hb]. destruct (pi_threads _ _ _ HP i held t Hi) as [Hd _]. exists held, t. split_and!; [done| |].
  - rewrite <-Hd. by eapply elem_of_dom_2.
  - by apply (kn_claims _ _ (pi_knows _ _ _ HP i) h _ Hb).
Qed.

Lemma uploading_exclusive P Ks i j h :
  pool_inv describes P Ks → uploading P i h → uploading P j h → i = j.
Proof.
  intros HP (heldi & ti & Hi & Hhi & _) (heldj & tj & Hj & Hhj & _). destruct (decide (i = j)) as [|Hne]; [done|].
  destruct (pi_threads _ _ _ HP i _ _ Hi) as [Hdi _], (pi_threads _ _ _ HP j _ _ Hj) as [Hdj _].
  pose proof (pi_apart _ _ _ HP i j Hne) as Ha. rewrite map_disjoint_dom in Ha. set_solver.
Qed.

Lemma pool_step_store spawnable P P' Ks :
  pool_inv describes P Ks → pool_step spawnable P P' →
  store_step describes (uploading P) (served (p_world P)) (served (p_world P')).
Proof.
  intros HP Hstep. destruct Hstep as [w ts i c p Hi Hsp|w ts i c held p w' held' p' Hi Hs
    |w ts i c held Hi|w ts i held p Hi|w ts i held p moved f Hi Haw kept
    |w ts i held f db' Hi Hdb'|w ts t|w ts]; try by exists 0; apply served_same.
  - exists i. destruct (pi_threads _ _ _ HP i _ _ Hi) as [_ Hok]. destruct p as [|B op k]; [done|]. destruct Hs as (r & Hop & _).
    eapply store_change_mono; [intros h; by eapply has_stored_uploading|].
    eapply op_step_served; [exact Hok|apply HP|exact Hop].
  - exists i. destruct (pi_threads _ _ _ HP i _ _ Hi) as [_ Hok]. cbn in Hok.
    specialize (Hok (w_now w) (w_db w) (w_inflight w) (kn_db _ _ (pi_knows _ _ _ HP i))).
    eapply store_change_mono; [intros h; by eapply has_stored_uploading|].
    cbn. assert (with_db db' w = with_db db' (with_inflight (w_inflight w) w)) as -> by by destruct w.
    apply guarantee_served; [apply (pi_knows _ _ _ HP i)|].
    apply elem_of_cons in Hdb' as [->|Hin]; [apply db_guarantee_refl|by eapply Forall_forall in Hok].
Qed.
End cache.

(** A step after which path [h] is shown. *)
Definition showing_step `{J : Json, C : Crypto, Zs : Zstd} (h : string) (P P' : Pool) : Prop :=
  pool_step spawnable P P' ∧ is_Some (served (p_world P') !! h).

(** C2: The running system refines a write-once store shared by writers. In every reachable state
    what the database and the bucket show together is exactly the rows, each with its stored blob,
    and a path's upload claim is held by one handler at most. Every step of every interleaving,
    failures, cancellations and restarts included, is a step of one writer of that store: a path
    appears only where nothing was shown, whole, with facts that describe its blob, and only by the
    handler that holds its upload claim; and a path that is shown either stays exactly as it is or
    is removed whole. So over any run, as long as a path is shown, what is shown of it never
    changes. *)
Theorem pusher_is_a_write_once_store `{J : Json, C : Crypto, Zs : Zstd} unzstd `{!ZstdLaws unzstd} P :
  reachable P →
  (∀ h, is_Some (served (p_world P) !! h) ↔ is_Some (objects (w_db (p_world P)) !! h)) ∧
  (∀ i j h, uploading P i h → uploading P j h → i = j) ∧
  (∀ P', pool_step spawnable P P' →
    store_step (blob_described unzstd) (uploading P) (served (p_world P)) (served (p_world P'))) ∧
  (∀ h e P', served (p_world P) !! h = Some e → rtc (showing_step h) P P' → served (p_world P') !! h = Some e).
Proof.
  intros Hr. pose proof (spawnable_ok unzstd) as Hok.
  assert (Hinv : ∀ Q, reachable Q → ∃ Ks, pool_inv (blob_described unzstd) Q Ks) by (intros Q; by apply pool_safe).
  destruct (Hinv P Hr) as [Ks HK]. split_and!.
  - intros h. split.
    + intros [e (row & _ & Hrow & _)%served_lookup]. by exists row.
    + intros [row Hrow]. destruct (pi_covered _ _ _ HK h row Hrow) as (body & Hb & _). eexists. apply served_lookup. eauto.
  - intros i j h. by eapply uploading_exclusive.
  - intros P'. by eapply pool_step_store.
  - intros h e P' He Hrun. clear Ks HK. induction Hrun as [Q|Q Q1 Q2 [Hs Hsh] _ IH]; [done|].
    apply IH; [by eapply rtc_r|]. destruct (Hinv Q Hr) as [Ks HK].
    destruct (pool_step_store _ _ _ _ _ HK Hs) as [i Hc]. by eapply store_change_kept.
Qed.

(** ** At an example *)

Lemma pusher_is_a_write_once_store_witness :
  ∃ P : Pool, is_Some (served (p_world P) !! example_hash) ∧
    ∀ P', pool_step (spawnable (J := toy_json) (C := toy_crypto) (Zs := toy_zstd)) P P' →
      store_step (blob_described (Zs := toy_zstd) Some) (uploading P) (served (p_world P)) (served (p_world P')).
Proof.
  destruct example_reached as (P & row & Hreach & _ & Hrow).
  destruct (pusher_is_a_write_once_store (J := toy_json) (C := toy_crypto) (Zs := toy_zstd) Some P Hreach) as (Hd & _ & Hs & _).
  exists P. split; [apply Hd; by exists row|exact Hs].
Defined.
