(* ===== verification/Browse.v ===== *)
(** * Browse: the listing, the dependency tree and the other browse queries

    [crates/garret-server/src/browse.rs], with [Summary], [ObjectDetail],
    [Page], [TreeNode] and [Pin] of [crates/garret-common/src/wire.rs]. A query
    is a function of the tables; SQLite's errors (and its limit on the length
    of a [LIKE] pattern) are not modelled. Where SQL leaves ties open
    ([ORDER BY o.name]) the order below is one of those it allows. *)

From S2P Require Import Prelude Text Common Db.

(** ** Rows of the answers *)

Record Summary := mkSummary {
  s_hash : string;
  s_name : string;
  s_store_path : string;
  s_nar_size : Z;
  s_file_size : Z;
  s_created_at : Z;
}.

Record Page := mkPage {
  pg_objects : list Summary;
  pg_next_cursor : option string;
}.

Record ObjectDetail := mkDetail {
  od_store_path_hash : string;
  od_store_path : string;
  od_name : string;
  od_nar_hash : string;
  od_nar_size : Z;
  od_file_hash : string;
  od_file_size : Z;
  od_deriver : option string;
  od_ca : option string;
  od_references : list string;
  od_sigs : list string;
  od_pushed_by : option string;
}.

Record Pin := mkPinInfo {
  pi_name : string;
  pi_store_path_hash : string;
  pi_store_path : string;
  pi_expires_at : option Z;
  pi_created_at : Z;
}.

#[local] Set Warnings "-register-all".

Inductive TreeNode := mkNode {
  tn_hash : string;
  tn_name : string;
  tn_missing : bool;
  tn_truncated : bool;
  tn_children : list TreeNode;
}.

Definition summary_from_row (e : string * Row) : Summary :=
  mkSummary e.1 (r_name e.2) (r_store_path e.2) (r_nar_size e.2) (r_file_size e.2) (r_created_at e.2).

(** ** Cursors *)

Record Cursor := mkCursor {
  c_created_at : Z;
  c_hash : string;
}.

(** [FromStr for Cursor]. *)
Definition cursor_from_str (s : string) : Result Cursor string :=
  let malformed := "malformed cursor " +:+ s +:+ ": expected created_at:hash" in
  let? th := ok_or (split_once ":" s) malformed in
  let? time := ok_or (parse_i64 th.1) malformed in
  Ok (mkCursor time th.2).

(** [Display for Cursor]. *)
Definition cursor_to_string (c : Cursor) : string := pretty (c_created_at c) +:+ ":" +:+ c_hash c.

(** ** Searching names *)

Definition backslash : ascii := ascii_of_nat 92.

Fixpoint escape_like (q : string) : string :=
  match q with
  | EmptyString => EmptyString
  | String c q =>
      if Ascii.eqb c backslash || Ascii.eqb c "%" || Ascii.eqb c "_"
      then String backslash (String c (escape_like q))
      else String c (escape_like q)
  end.

(** The pattern language of SQLite's [LIKE ... ESCAPE '\']. *)
Inductive LikeToken := Like_Any | Like_One | Like_Char (c : ascii) | Like_Never.

Fixpoint like_tokens (pattern : string) : list LikeToken :=
  match pattern with
  | EmptyString => []
  | String c rest =>
      if Ascii.eqb c backslash then
        match rest with
        | EmptyString => [Like_Never]
        | String d rest => Like_Char d :: like_tokens rest
        end
      else if Ascii.eqb c "%" then Like_Any :: like_tokens rest
      else if Ascii.eqb c "_" then Like_One :: like_tokens rest
      else Like_Char c :: like_tokens rest
  end.

(** The rest of a UTF-8 character whose first byte has been read. *)
Fixpoint drop_continuation (s : string) : string :=
  match s with
  | String c rest => if is_continuation c then drop_continuation rest else s
  | EmptyString => EmptyString
  end.

(** Letters of ASCII compare without case, as SQLite's [LIKE] does. *)
Fixpoint like_match (tokens : list LikeToken) (s : string) : bool :=
  match tokens with
  | [] => bool_decide (s = "")
  | Like_Never :: _ => false
  | Like_Any :: tokens =>
      (fix any (s : string) : bool :=
         like_match tokens s || match s with EmptyString => false | String _ s => any s end) s
  | Like_One :: tokens =>
      match s with EmptyString => false | String _ s => like_match tokens (drop_continuation s) end
  | Like_Char c :: tokens =>
      match s with
      | EmptyString => false
      | String d s => Ascii.eqb (ascii_lower c) (ascii_lower d) && like_match tokens s
      end
  end.

Definition like (pattern s : string) : bool := like_match (like_tokens pattern) s.

Definition name_pattern (q : string) : string := "%" +:+ escape_like q +:+ "%".

(** [?1 IS NULL OR o.name LIKE ?1 ESCAPE '\']. *)
Definition name_matches (query : option string) (name : string) : bool :=
  match query with None => true | Some q => like (name_pattern q) name end.

(** ** The listing *)

Definition MAX_LIMIT : nat := 500.

(** [ORDER BY o.created_at DESC, o.store_path_hash ASC]. *)
Definition listing_le : relation Summary := lex_le (λ s, - s_created_at s)%Z s_hash.

(** Whether a row comes after the cursor in that order. *)
Definition after_cursor (c : Cursor) (s : Summary) : bool :=
  (s_created_at s <? c_created_at c)%Z ||
  ((s_created_at s =? c_created_at c)%Z && negb (bool_decide (String.le (s_hash s) (c_hash c)))).

Definition first_cursor : Cursor := mkCursor i64_max "".

(** The rows the query [LIST] returns, without its [LIMIT]. *)
Definition list_rows (db : Db) (query : option string) (c : Cursor) : list Summary :=
  order_by listing_le
    (filter (λ s, name_matches query (s_name s) && after_cursor c s)
      (map summary_from_row (map_to_list (objects db)))).

Definition list_page (db : Db) (query : option string) (limit : nat) (cursor : option Cursor) : Page :=
  let limit := Nat.min MAX_LIMIT (Nat.max 1 limit) in
  let objects := take (limit + 1) (list_rows db query (default first_cursor cursor)) in
  if bool_decide (limit < length objects) then
    let objects := take limit objects in
    mkPage objects ((λ s, cursor_to_string (mkCursor (s_created_at s) (s_hash s))) <$> last objects)
  else mkPage objects None.

(** ** One object, its tree, its referrers; the pins *)

Definition object_detail (db : Db) (hash : string) : option ObjectDetail :=
  (λ o, mkDetail (o_store_path_hash o) (o_store_path o) (o_name o) (o_nar_hash o) (o_nar_size o)
          (o_file_hash o) (o_file_size o) (o_deriver o) (o_ca o) (o_references o) (o_sigs o)
          (o_pushed_by o)) <$> get_object db hash.

Definition TREE_DEPTH : nat := 64.

(** [name_of]. *)
Definition name_of (db : Db) (hash : string) : option string := r_name <$> objects db !! hash.

(** The query [CHILDREN]: reference, its hash, whether the cache lacks it. *)
Definition child_edges (db : Db) (hash : string) : list (string * string * bool) :=
  map (λ r, (r, reference_hash r, negb (exists_ db (reference_hash r))))
    (filter (λ r, reference_hash r ≠ hash) (references_of db hash)).

(** The loop of [children_of] over a node's edges. *)
Fixpoint expand_edges (expand : string → gset string → list TreeNode * gset string)
    (edges : list (string * string * bool)) (seen : gset string) : list TreeNode * gset string :=
  match edges with
  | [] => ([], seen)
  | (reference, child_hash, missing_) :: edges =>
      let truncated := bool_decide (child_hash ∈ seen) in
      let seen := {[child_hash]} ∪ seen in
      let '(children, seen) :=
        if truncated || missing_ then ([], seen) else expand child_hash seen in
      let '(out, seen) := expand_edges expand edges seen in
      (mkNode child_hash reference missing_ truncated children :: out, seen)
  end.

(** The nodes below [hash], and the seen set as the call leaves it. *)
Fixpoint children_of (depth : nat) (db : Db) (hash : string) (seen : gset string)
    : list TreeNode * gset string :=
  match depth with
  | 0 => ([], seen)
  | S depth => expand_edges (children_of depth db) (child_edges db hash) seen
  end.

Definition tree (db : Db) (hash : string) (depth_limit : nat) : option TreeNode :=
  (λ name, mkNode hash name false false (children_of depth_limit db hash {[hash]}).1)
    <$> name_of db hash.

(** [ORDER BY o.name]. *)
Definition summary_name_le : relation Summary := λ x y, String.le (s_name x) (s_name y).
#[export] Instance summary_name_le_dec : RelDecision summary_name_le.
Proof. intros x y. unfold summary_name_le. apply _. Defined.

(** One row per reference: a referrer naming the hash twice is listed twice. *)
Definition referrers (db : Db) (hash : string) : list Summary :=
  order_by summary_name_le
    (omap (λ r, (λ row, summary_from_row (r.1, row)) <$> objects db !! r.1)
      (filter (λ r, reference_hash r.2 = hash ∧ r.1 ≠ hash) (elements (object_refs db)))).

Definition pin_name_le : relation Pin := λ x y, String.le (pi_name x) (pi_name y).
#[export] Instance pin_name_le_dec : RelDecision pin_name_le.
Proof. intros x y. unfold pin_name_le. apply _. Defined.

(** [browse::pins]: expired pins are listed too. *)
Definition list_pins (db : Db) : list Pin :=
  order_by pin_name_le
    (omap (λ e, (λ row, mkPinInfo e.1 (p_store_path_hash e.2) (r_store_path row)
                          (p_expires_at e.2) (p_created_at e.2))
                <$> objects db !! p_store_path_hash e.2)
      (map_to_list (pins db))).

(** ** Cursors survive the trip through the client *)

Lemma cursor_roundtrip c :
  (i64_min ≤ c_created_at c ≤ i64_max)%Z → cursor_from_str (cursor_to_string c) = Ok c.
Proof.
  intros Hc. unfold cursor_from_str, cursor_to_string.
  assert (split_once ":" (pretty (c_created_at c) +:+ ":" +:+ c_hash c)
          = Some (pretty (c_created_at c), c_hash c)) as ->.
  { apply split_once_Some. split; [done|]. by apply pretty_Z_mem. }
  unfold ok_or, parse_i64. cbn [fst snd]. rewrite parse_int_pretty by done. by destruct c.
Qed.

(** ** A search is a substring search without case *)

Lemma escape_tokens q rest :
  like_tokens (escape_like q +:+ rest) = map Like_Char (chars q) ++ like_tokens rest.
Proof.
  induction q as [|c q IH]; [done|]. cbn [escape_like].
  destruct (Ascii.eqb_spec c backslash) as [->|Hb].
  { cbn [orb]. rewrite !str_app_cons. cbn. by rewrite IH. }
  destruct (Ascii.eqb_spec c "%") as [->|Hp]; [cbn [orb]; rewrite !str_app_cons; cbn; by rewrite IH|].
  destruct (Ascii.eqb_spec c "_") as [->|Hu]; [cbn [orb]; rewrite !str_app_cons; cbn; by rewrite IH|].
  cbn [orb]. rewrite !str_app_cons. cbn [like_tokens].
  by rewrite !(proj2 (Ascii.eqb_neq _ _)), IH by done.
Qed.

Lemma like_any_end s : like_match [Like_Any] s = true.
Proof. induction s as [|c s IH]; [done|]. cbn in *. by rewrite IH, orb_true_r. Qed.

Lemma starts_with_cons a p b s :
  starts_with (String a p) (String b s) = Ascii.eqb a b && starts_with p s.
Proof. unfold starts_with. cbn [strip_prefix]. by destruct (Ascii.eqb a b). Qed.

Lemma like_prefix q s :
  like_match (map Like_Char (chars q) ++ [Like_Any]) s = starts_with (str_lower q) (str_lower s).
Proof.
  revert s. induction q as [|c q IH]; intros s; [by rewrite like_any_end|].
  cbn [String.list_ascii_of_string map app str_lower]. destruct s as [|d s]; [done|].
  cbn [str_lower]. rewrite starts_with_cons, <-IH. done.
Qed.

Lemma like_any_contains toks p :
  (∀ s, like_match toks s = starts_with p (str_lower s)) →
  ∀ s, like_match (Like_Any :: toks) s = contains p (str_lower s).
Proof.
  intros Htoks. induction s as [|c s IH].
  - cbn. rewrite Htoks. by rewrite !orb_false_r.
  - cbn [str_lower contains]. rewrite <-IH. cbn [like_match]. by rewrite Htoks.
Qed.

(** The name filter is SQLite's LIKE: it matches a literal substring of the name, without
    regard to ASCII case. *)
Theorem search_is_caseless_substring q name :
  name_matches (Some q) name = contains (str_lower q) (str_lower name).
Proof.
  unfold name_matches, like, name_pattern. change ("%" +:+ ?s) with (String "%" s).
  cbn [like_tokens]. change (Ascii.eqb "%" backslash) with false. change (Ascii.eqb "%" "%") with true.
  cbn iota. rewrite escape_tokens. apply like_any_contains. intros s. apply like_prefix.
Qed.

(** ** One page *)

Definition key_of (s : Summary) : Cursor := mkCursor (s_created_at s) (s_hash s).
Definition listing_lt : relation Summary := λ x y, after_cursor (key_of x) y = true.

Definition lists_object (db : Db) (s : Summary) : Prop :=
  ∃ row, objects db !! s_hash s = Some row ∧ s = summary_from_row (s_hash s, row).

Lemma after_cursor_spec c s :
  after_cursor c s = true ↔
  (s_created_at s < c_created_at c)%Z ∨
  (s_created_at s = c_created_at c ∧ ¬ String.le (s_hash s) (c_hash c)).
Proof.
  unfold after_cursor. rewrite orb_true_iff, andb_true_iff, negb_true_iff, bool_decide_eq_false,
    Z.ltb_lt, Z.eqb_eq. done.
Qed.

#[export] Instance listing_le_total : Total listing_le.
Proof.
  intros x y. unfold listing_le, lex_le.
  destruct (Z.lt_trichotomy (- s_created_at x) (- s_created_at y)) as [|[|]], (String.le_total (s_hash x) (s_hash y));
    naive_solver.
Qed.
#[export] Instance listing_le_trans : Transitive listing_le.
Proof.
  intros x y z. unfold listing_le, lex_le. intros [?|[? ?]] [?|[? ?]]; [lia..|].
  right. split; [lia|]. by etrans.
Qed.
#[export] Instance listing_lt_trans : Transitive listing_lt.
Proof.
  intros x y z. unfold listing_lt. rewrite !after_cursor_spec. simpl.
  intros [?|[? Hxy]] [?|[? Hyz]]; [lia..|]. right. split; [lia|]. intros Hzx.
  destruct (String.le_total (s_hash x) (s_hash y)) as [Hle|]; [|done]. apply Hyz. by etrans.
Qed.

Lemma list_rows_elem db query c s :
  s ∈ list_rows db query c ↔
  lists_object db s ∧ name_matches query (s_name s) = true ∧ after_cursor c s = true.
Proof.
  unfold list_rows. rewrite elem_of_order_by, list_elem_of_filter, list_elem_of_fmap.
  rewrite Is_true_true, andb_true_iff. unfold lists_object. split.
  - intros [[? ?] ([h row] & -> & Hin%elem_of_map_to_list)]. split; [|done]. by exists row.
  - intros [(row & Hrow & Hs) ?]. split; [done|]. exists (s_hash s, row).
    split; [done|]. by apply elem_of_map_to_list.
Qed.

Lemma listing_strict l :
  StronglySorted listing_le l → NoDup (map s_hash l) → StronglySorted listing_lt l.
Proof.
  induction 1 as [|x l Hl IH Hx]; intros Hnd; [constructor|]. cbn in Hnd.
  apply NoDup_cons in Hnd as [Hfresh Hnd]. constructor; [by apply IH|].
  rewrite Forall_forall in *. intros y Hy. apply after_cursor_spec. simpl.
  destruct (Hx y Hy) as [?|[? Hle]]; [left; lia|right]. split; [lia|]. intros Hge.
  apply Hfresh. assert (s_hash x = s_hash y) as -> by by apply (anti_symm String.le).
  by apply list_elem_of_fmap_2.
Qed.

Lemma list_rows_sorted db query c : StronglySorted listing_lt (list_rows db query c).
Proof.
  apply listing_strict.
  - apply (StronglySorted_merge_sort listing_le). all: apply _.
  - unfold list_rows. rewrite order_by_perm.
    eapply sublist_NoDup; [|apply fmap_sublist, sublist_filter].
    rewrite map_map. apply (fin_maps.NoDup_fst_map_to_list (objects db)).
Qed.

Definition page_limit (limit : nat) : nat := Nat.min MAX_LIMIT (Nat.max 1 limit).

Lemma page_limit_pos limit : 1 ≤ page_limit limit ≤ 500.
Proof. unfold page_limit, MAX_LIMIT. lia. Qed.

(** A page is the first rows after the cursor; with a next cursor, everything
    else comes after the last of them. *)
Lemma list_page_spec db query limit cursor :
  let rows := list_rows db query (default first_cursor cursor) in
  let page := list_page db query limit cursor in
  (pg_next_cursor page = None ∧ pg_objects page = rows) ∨
  (∃ s objs, pg_next_cursor page = Some (cursor_to_string (key_of s)) ∧
    pg_objects page = take (page_limit limit) rows ∧ length (pg_objects page) = page_limit limit ∧
    pg_objects page = objs ++ [s] ∧
    ∀ s', s' ∈ rows → s' ∈ pg_objects page ∨ after_cursor (key_of s) s' = true).
Proof.
  intros rows page. unfold page, list_page. fold (page_limit limit). fold rows.
  set (n := page_limit limit). assert (1 ≤ n) as Hn by apply page_limit_pos.
  rewrite length_take. case_bool_decide as Hlen; cbn [pg_next_cursor pg_objects].
  2: { left. split; [done|]. apply take_ge. lia. }
  right. rewrite take_take. replace (n `min` (n + 1)) with n by lia.
  assert (length (take n rows) = n) as Hl by (rewrite length_take; lia).
  destruct (last (take n rows)) as [s|] eqn:Hs; [|apply last_None in Hs; by rewrite Hs in Hl; simpl in Hl; lia].
  apply last_Some in Hs as [objs Hs]. exists s, objs. split_and!; [done..|].
  - intros s' Hin. rewrite <-(take_drop n rows) in Hin. apply elem_of_app in Hin as [?|Hin]; [by left|].
    right. pose proof (list_rows_sorted db query (default first_cursor cursor)) as Hsort. fold rows in Hsort.
    rewrite <-(take_drop n rows) in Hsort. apply StronglySorted_app_1_elem_of with (x1 := s) (x2 := s') in Hsort; [done| |done].
    rewrite Hs. set_solver.
Qed.

(** ** A walk through the pages *)

(** A client follows [next_cursor] until there is none; every page is read from
    the database as it is at that time. The flag says whether it got there. *)
Fixpoint list_walk (dbs : list Db) (query : option string) (limit : nat) (cursor : option Cursor)
    : Result (list Summary * bool) string :=
  match dbs with
  | [] => Ok ([], false)
  | db :: dbs =>
      let page := list_page db query limit cursor in
      match pg_next_cursor page with
      | None => Ok (pg_objects page, true)
      | Some text =>
          let? c := cursor_from_str text in
          let? rest := list_walk dbs query limit (Some c) in
          Ok (pg_objects page ++ rest.1, rest.2)
      end
  end.

(** Times SQLite and the cursor can hold, [i64::MAX] apart. *)
Definition times_ok (db : Db) : Prop :=
  map_Forall (λ _ row, i64_min ≤ r_created_at row < i64_max)%Z (objects db).
#[export] Instance times_ok_dec db : Decision (times_ok db).
Proof. unfold times_ok. apply _. Defined.

Lemma after_cursor_trans c s s' :
  after_cursor c s = true → after_cursor (key_of s) s' = true → after_cursor c s' = true.
Proof.
  rewrite !after_cursor_spec. simpl.
  intros [?|[? Hcs]] [?|[? Hss]]; [lia..|]. right. split; [lia|]. intros Hle.
  destruct (String.le_total (s_hash s) (s_hash s')) as [Hl|]; [|done]. apply Hcs. by etrans.
Qed.

Lemma list_walk_spec dbs query limit cursor :
  Forall times_ok dbs →
  ∃ out finished, list_walk dbs query limit cursor = Ok (out, finished) ∧
    StronglySorted listing_lt out ∧
    (∀ s, s ∈ out → after_cursor (default first_cursor cursor) s = true ∧
      name_matches query (s_name s) = true ∧ ∃ db, db ∈ dbs ∧ lists_object db s) ∧
    (finished = true → ∀ s, after_cursor (default first_cursor cursor) s = true →
      name_matches query (s_name s) = true → (∀ db, db ∈ dbs → lists_object db s) → s ∈ out) ∧
    (finished = false → length out = length dbs * page_limit limit).
Proof.
  revert cursor. induction dbs as [|db dbs IH]; intros cursor Htimes.
  { exists [], false. split_and!; [done|constructor|set_solver|done|done]. }
  apply Forall_cons in Htimes as [Hdb Htimes]. cbn [list_walk].
  destruct (list_page_spec db query limit cursor)
    as [[-> ->]|(s & objs0 & -> & Hobjs & Hlen & Hlast & Hrest)];
    set (c := default first_cursor cursor) in *.
  { exists (list_rows db query c), true. split_and!; [done|apply list_rows_sorted| | |done].
    - intros s' (? & ? & ?)%list_rows_elem. split_and!; [done..|]. exists db. set_solver.
    - intros _ s' ? ? Hall. apply list_rows_elem. split_and!; [apply Hall; set_solver|done..]. }
  assert (Hpage : ∀ s', s' ∈ pg_objects (list_page db query limit cursor) → s' ∈ list_rows db query c).
  { intros s' Hin. rewrite Hobjs in Hin. apply list_elem_of_lookup in Hin as [i [Hi _]%lookup_take_Some].
    by eapply list_elem_of_lookup_2. }
  set (objs := pg_objects (list_page db query limit cursor)) in *.
  assert (Hs : s ∈ objs) by (rewrite Hlast; set_solver).
  pose proof (Hpage s Hs) as (Hobj & Hmatch & Hafter)%list_rows_elem.
  rewrite cursor_roundtrip.
  2: { destruct Hobj as (row & Hrow & ->). pose proof (Hdb _ _ Hrow) as Ht. simpl in *. lia. }
  destruct (IH (Some (key_of s)) Htimes) as (out & finished & -> & Hsort & Hout & Hcomplete & Hcount).
  cbn [default fst snd] in *. exists (objs ++ out), finished. split_and!; [done| | | |].
  - apply StronglySorted_app_2; [| |done].
    + intros x y Hx (Hy & _)%Hout. unfold listing_lt.
      pose proof (list_rows_sorted db query c) as Hrows.
      rewrite <-(take_drop (page_limit limit)), <-Hobjs, Hlast in Hrows.
      apply StronglySorted_app_1_l in Hrows. rewrite Hlast in Hx.
      apply elem_of_app in Hx as [Hx|Hx%list_elem_of_singleton]; [|by subst].
      eapply after_cursor_trans; [|done].
      eapply StronglySorted_app_1_elem_of in Hrows; [done|done|by left].
    + rewrite Hobjs. eapply StronglySorted_app_1_l. rewrite take_drop. apply list_rows_sorted.
  - intros s' [Hin|Hin]%elem_of_app.
    + apply Hpage, list_rows_elem in Hin as (? & ? & ?). split_and!; [done..|]. exists db. set_solver.
    + apply Hout in Hin as (? & ? & db' & ? & ?). split_and!; [by eapply after_cursor_trans|done|].
      exists db'. set_solver.
  - intros Hf s' Ha Hm Hall. rewrite elem_of_app.
    destruct (Hrest s') as [?|?]; [|by left|right; apply Hcomplete; [done..|]].
    + apply list_rows_elem. split_and!; [apply Hall; set_solver|done..].
    + intros db' ?. apply Hall. set_solver.
  - intros Hf. rewrite length_app, Hlen, Hcount by done. simpl. lia.
Qed.

(** C38: Walking the object listing page by page, over a database that may change between pages,
    terminates in listing order without repeating an object, shows only objects some page's database
    lists under the query, misses no object that stays listed throughout, and finishes when the
    database holds still. *)
Theorem listing_walk_is_exact dbs query limit :
  Forall times_ok dbs →
  ∃ out finished, list_walk dbs query limit None = Ok (out, finished) ∧
    StronglySorted listing_lt out ∧
    (∀ s, s ∈ out → name_matches query (s_name s) = true ∧ ∃ db, db ∈ dbs ∧ lists_object db s) ∧
    (finished = true → ∀ s, name_matches query (s_name s) = true → dbs ≠ [] →
      (∀ db, db ∈ dbs → lists_object db s) → s ∈ out) ∧
    (∀ db n, dbs = replicate n db → size (objects db) < n → finished = true).
Proof.
  intros Htimes. destruct (list_walk_spec dbs query limit None Htimes)
    as (out & finished & Hwalk & Hsort & Hout & Hcomplete & Hcount).
  exists out, finished. split_and!; [done|done| | |].
  - intros s (_ & ? & ?)%Hout. done.
  - intros Hf s Hm Hne Hall. apply Hcomplete; [done| |done|done].
    destruct dbs as [|db dbs]; [done|]. destruct (Hall db) as (row & Hrow & Hs); [by left|].
    apply Forall_cons in Htimes as [Hdb _]. pose proof (Hdb _ _ Hrow) as Ht. simpl in Ht.
    apply after_cursor_spec. left. rewrite Hs. simpl. lia.
  - intros db n -> Hn. destruct finished; [done|]. exfalso.
    rewrite length_replicate in Hcount. specialize (Hcount eq_refl).
    assert (out ⊆+ map summary_from_row (map_to_list (objects db))) as Hsub%submseteq_length.
    { apply NoDup_submseteq.
      - clear -Hsort. induction Hsort as [|x l Hl IH Hx]; constructor; [|done].
        intros Hin. rewrite Forall_forall in Hx. apply Hx, after_cursor_spec in Hin.
        simpl in Hin. destruct Hin as [?|[_ H]]; [lia|]. by apply H.
      - intros s (_ & _ & db' & Hdb' & row & Hrow & ->)%Hout.
        apply elem_of_replicate in Hdb' as [-> _]. apply list_elem_of_fmap. eexists. split; [done|].
        by apply elem_of_map_to_list. }
    rewrite length_map, length_map_to_list in Hsub.
    pose proof (page_limit_pos limit). nia.
Qed.

(** ** The tree is the closure, each object expanded once *)

Fixpoint tree_nodes (t : TreeNode) : list TreeNode :=
  t :: flat_map tree_nodes (tn_children t).

Definition forest : list TreeNode → list TreeNode := flat_map tree_nodes.

(** The hashes a forest shows for the first time, in order. *)
Definition fresh (ts : list TreeNode) : list string :=
  map tn_hash (filter (λ n, tn_truncated n = false) (forest ts)).

(** The references shown below [hash]: all but itself. *)
Definition child_names (db : Db) (hash : string) : list string :=
  filter (λ r, reference_hash r ≠ hash) (references_of db hash).

Definition child (db : Db) (h h' : string) : Prop := present db h ∧ h' ≠ h ∧ ref_edge db h h'.

(** What every node below the root shows. *)
Record node_ok (db : Db) (n : TreeNode) : Prop := {
  no_hash : tn_hash n = reference_hash (tn_name n);
  no_missing : tn_missing n = negb (exists_ db (tn_hash n));
  no_leaf : tn_truncated n || tn_missing n = true → tn_children n = [];
}.

Definition node_whole (db : Db) (n : TreeNode) : Prop :=
  tn_truncated n || tn_missing n = false → map tn_name (tn_children n) = child_names db (tn_hash n).

(** The nodes [ts] put below [h], when [seen] becomes [seen']. *)
Record grows (db : Db) (h : string) (seen : gset string) (ts : list TreeNode) (seen' : gset string)
    : Prop := {
  gr_seen : ∀ x, x ∈ seen' ↔ x ∈ seen ∨ x ∈ fresh ts;
  gr_fresh : ∀ x, x ∈ fresh ts → x ∉ seen;
  gr_nodup : NoDup (fresh ts);
  gr_nodes : Forall (λ n, node_ok db n ∧ tn_hash n ∈ seen' ∧ rtc (child db) h (tn_hash n)) (forest ts);
}.

Lemma child_names_elem db h r :
  r ∈ child_names db h ↔ (h, r) ∈ object_refs db ∧ reference_hash r ≠ h.
Proof. unfold child_names. rewrite list_elem_of_filter, references_of_elem. tauto. Qed.

Lemma fresh_app ts us : fresh (ts ++ us) = fresh ts ++ fresh us.
Proof. unfold fresh, forest. by rewrite flat_map_app, filter_app, map_app. Qed.

Lemma grows_nil db h seen : grows db h seen [] seen.
Proof. split; [set_solver|set_solver|constructor|constructor]. Qed.

Lemma grows_app db h seen ts seen1 us seen2 :
  grows db h seen ts seen1 → grows db h seen1 us seen2 → grows db h seen (ts ++ us) seen2.
Proof.
  intros [T1 T2 T3 T4] [U1 U2 U3 U4]. split.
  - intros x. rewrite fresh_app, elem_of_app, U1, T1. tauto.
  - intros x. rewrite fresh_app, elem_of_app. intros [?|Hx]; [by apply T2|].
    apply U2 in Hx. rewrite T1 in Hx. tauto.
  - rewrite fresh_app. apply NoDup_app. split_and!; [done| |done].
    intros x Hx Hx'. apply U2 in Hx'. rewrite T1 in Hx'. tauto.
  - unfold forest. rewrite flat_map_app. apply Forall_app. split; [|done].
    eapply Forall_impl; [done|]. intros n (? & ? & ?). split_and!; [done|rewrite U1; by left|done].
Qed.

Lemma grows_under db h h' seen ts seen' :
  rtc (child db) h h' → grows db h' seen ts seen' → grows db h seen ts seen'.
Proof.
  intros Hh [G1 G2 G3 G4]. split; [done..|]. eapply Forall_impl; [done|].
  intros n (? & ? & ?). split_and!; [done..|by etrans].
Qed.

(** One node, first seen here with the children [ts], or seen before. *)
Lemma grows_node db h r (trunc miss : bool) seen ts seen' :
  child db h (reference_hash r) → miss = negb (exists_ db (reference_hash r)) →
  trunc = bool_decide (reference_hash r ∈ seen) → (trunc || miss = true → ts = []) →
  grows db (reference_hash r) ({[reference_hash r]} ∪ seen) ts seen' →
  grows db h seen [mkNode (reference_hash r) r miss trunc ts] seen'.
Proof.
  intros Hc Hmiss Htrunc Hleaf [G1 G2 G3 G4]. set (c := reference_hash r) in *.
  assert (Hf : fresh [mkNode c r miss trunc ts] = if trunc then fresh ts else c :: fresh ts).
  { unfold fresh, forest. cbn [flat_map tree_nodes tn_children]. rewrite app_nil_r, filter_cons.
    cbn [tn_truncated]. by destruct trunc; [rewrite decide_False|rewrite decide_True]. }
  assert (Hc' : c ∈ seen') by (rewrite G1; set_solver).
  split; rewrite ?Hf.
  - intros x. rewrite G1. destruct trunc; [|set_solver].
    symmetry in Htrunc. apply bool_decide_eq_true in Htrunc. set_solver.
  - destruct trunc; [set_solver|]. symmetry in Htrunc. apply bool_decide_eq_false in Htrunc. set_solver.
  - destruct trunc; [done|]. constructor; [|done]. intros Hin%G2. set_solver.
  - unfold forest. cbn [flat_map tree_nodes tn_children]. rewrite app_nil_r. constructor.
    + split_and!; [by split|done|]. by apply rtc_once.
    + eapply Forall_impl; [exact G4|]. intros n (? & ? & ?). split_and!; [done..|].
      eapply rtc_l; [exact Hc|done].
Qed.

Lemma children_grow depth db h seen ts seen' :
  present db h → children_of depth db h seen = (ts, seen') → grows db h seen ts seen'.
Proof.
  revert h seen ts seen'. induction depth as [|depth IH]; intros h seen ts seen' Hh; cbn [children_of].
  { intros [= <- <-]. apply grows_nil. }
  unfold child_edges. fold (child_names db h).
  assert (Hnames : ∀ r, r ∈ child_names db h → child db h (reference_hash r)).
  { intros r [? ?]%child_names_elem. split_and!; [done..|]. by exists r. }
  revert seen ts seen' Hnames. generalize (child_names db h) as names.
  induction names as [|r names IHn]; intros seen ts seen' Hnames; cbn [map expand_edges].
  { intros [= <- <-]. apply grows_nil. }
  destruct (if _ : bool then _ else _) as [kids seen1] eqn:Hkids.
  destruct (expand_edges _ _ seen1) as [out seen2] eqn:Hout. intros [= <- <-].
  apply (grows_app _ _ _ [_] seen1); [|apply IHn; [|done]; set_solver].
  assert (Hc : child db h (reference_hash r)) by (apply Hnames; by left).
  destruct (bool_decide (reference_hash r ∈ seen) || negb (exists_ db (reference_hash r))) eqn:Hskip.
  - injection Hkids as <- <-. by apply grows_node; [..|apply grows_nil].
  - apply grows_node; [done|done|done|by rewrite Hskip|]. apply IH; [|done].
    apply orb_false_iff in Hskip as [_ He]. apply negb_false_iff in He. unfold exists_ in He.
    by apply bool_decide_eq_true in He.
Qed.

(** With depth to spare for every object not yet seen, nothing is cut off. *)
Lemma children_whole depth db h seen ts seen' :
  present db h → size (dom (objects db) ∖ seen) < depth → children_of depth db h seen = (ts, seen') →
  map tn_name ts = child_names db h ∧ Forall (node_whole db) (forest ts).
Proof.
  revert h seen ts seen'. induction depth as [|depth IH]; intros h seen ts seen' Hh Hsize; [lia|].
  cbn [children_of]. unfold child_edges. fold (child_names db h).
  revert seen ts seen' Hsize. generalize (child_names db h) as names.
  induction names as [|r names IHn]; intros seen ts seen' Hsize; cbn [map expand_edges].
  { intros [= <- <-]. by split; [|constructor]. }
  destruct (if _ : bool then _ else _) as [kids seen1] eqn:Hkids.
  destruct (expand_edges _ _ seen1) as [out seen2] eqn:Hout. intros [= <- <-].
  set (c := reference_hash r) in *.
  assert (Hsub : {[c]} ∪ seen ⊆ seen1 ∧ (bool_decide (c ∈ seen) || negb (exists_ db c) = false →
    map tn_name kids = child_names db c) ∧ Forall (node_whole db) (forest kids)).
  { destruct (bool_decide (c ∈ seen) || negb (exists_ db c)) eqn:Hskip.
    - injection Hkids as <- <-. split_and!; [done|done|constructor].
    - apply orb_false_iff in Hskip as [Hseen He]. apply bool_decide_eq_false in Hseen.
      apply negb_false_iff in He. unfold exists_ in He. apply bool_decide_eq_true in He.
      destruct (children_grow _ _ _ _ _ _ He Hkids) as [G1 _ _ _].
      destruct (IH c ({[c]} ∪ seen) kids seen1 He) as [? ?]; [|done|].
      { enough (dom (objects db) ∖ ({[c]} ∪ seen) ⊂ dom (objects db) ∖ seen) as ?%subset_size by lia.
        assert (c ∈ dom (objects db)) by by apply elem_of_dom. set_solver. }
      split_and!; [|done..]. intros x Hx. apply G1. by left. }
  destruct Hsub as (Hsub & Hkid & Hwhole).
  destruct (IHn seen1 out seen2) as [Hnames Hrest]; [|done|].
  { eapply Nat.le_lt_trans; [apply subseteq_size|exact Hsize]. set_solver. }
  cbn [map tn_name]. rewrite Hnames. split; [done|].
  unfold forest. cbn [flat_map tree_nodes tn_children]. rewrite <-app_comm_cons. constructor.
  { unfold node_whole. cbn. exact Hkid. }
  by apply Forall_app.
Qed.

Lemma tree_node_induction (P : TreeNode → Prop) :
  (∀ h name miss trunc ts, Forall P ts → P (mkNode h name miss trunc ts)) → ∀ t, P t.
Proof.
  intros Hstep. fix IH 1. intros [h name miss trunc ts]. apply Hstep.
  induction ts as [|t ts IHts]; constructor; [apply IH|exact IHts].
Qed.

Lemma tree_nodes_closed t n m :
  n ∈ tree_nodes t → m ∈ tn_children n → m ∈ forest (tn_children t).
Proof.
  induction t as [h name miss trunc ts IH] using tree_node_induction.
  cbn [tree_nodes tn_children]. rewrite Forall_forall in IH.
  intros [->|Hn]%elem_of_cons Hm; apply list_elem_of_In, in_flat_map.
  - exists m. split; [by apply list_elem_of_In|]. destruct m. by left.
  - apply list_elem_of_In, in_flat_map in Hn as (u & Hu & Hn). exists u. split; [done|].
    rewrite <-!list_elem_of_In in *. pose proof (IH u Hu Hn Hm) as Hin. destruct u. by right.
Qed.

(** The dependency tree is absent exactly for absent paths; each reachable path is expanded once,
    marked missing exactly when it has no row; and with enough depth it shows the whole closure and
    every dependency of each expanded node. *)
Theorem tree_shows_the_closure db hash depth :
  match tree db hash depth with
  | None => ¬ present db hash
  | Some t =>
      present db hash ∧ tn_hash t = hash ∧
      NoDup (fresh [t]) ∧
      (∀ n, n ∈ tree_nodes t → rtc (child db) hash (tn_hash n) ∧ tn_hash n ∈ fresh [t] ∧
        tn_missing n = negb (exists_ db (tn_hash n)) ∧
        (tn_truncated n || tn_missing n = true → tn_children n = [])) ∧
      (size (objects db) ≤ depth →
        (∀ x, x ∈ fresh [t] ↔ rtc (child db) hash x) ∧
        ∀ n, n ∈ tree_nodes t → tn_truncated n || tn_missing n = false →
          map tn_name (tn_children n) = child_names db (tn_hash n))
  end.
Proof.
  unfold tree, name_of. destruct (objects db !! hash) as [row|] eqn:Hrow; cbn [fmap option_fmap option_map].
  2: { unfold present. rewrite Hrow. by intros [? ?]. }
  assert (Hp : present db hash) by by exists row.
  destruct (children_of depth db hash {[hash]}) as [ts seen'] eqn:Hts. cbn [fst tn_hash].
  destruct (children_grow _ _ _ _ _ _ Hp Hts) as [G1 G2 G3 G4]. rewrite Forall_forall in G4.
  assert (Hf : fresh [mkNode hash (r_name row) false false ts] = hash :: fresh ts).
  { unfold fresh, forest. cbn [flat_map tree_nodes tn_children]. by rewrite app_nil_r, filter_cons. }
  assert (He : exists_ db hash = true) by by apply bool_decide_eq_true.
  rewrite Hf. split_and!; [done|done| | |].
  - constructor; [|done]. intros ?%G2. set_solver.
  - cbn [tree_nodes tn_children]. intros n [->|Hn]%elem_of_cons.
    + cbn. rewrite He. split_and!; [constructor|by left|done|done].
    + destruct (G4 n Hn) as ([_ Hm Hl] & Hseen & Hreach). split_and!; [done| |done|done].
      apply G1 in Hseen. set_solver.
  - intros Hdepth.
    destruct (children_whole depth db hash {[hash]} ts seen' Hp) as [Hnames Hwhole]; [|done|].
    { assert (hash ∈ dom (objects db)) by by apply elem_of_dom.
      rewrite size_difference by set_solver. rewrite size_singleton, size_dom.
      assert (size (objects db) ≠ 0); [|lia]. intros H0%map_size_empty_inv. by rewrite H0 in Hrow. }
    rewrite Forall_forall in Hwhole.
    assert (Hall : ∀ n, n ∈ tree_nodes (mkNode hash (r_name row) false false ts) →
      tn_truncated n || tn_missing n = false →
      map tn_name (tn_children n) = child_names db (tn_hash n)).
    { cbn [tree_nodes tn_children]. intros n [->|Hn]%elem_of_cons Hfl; [done|]. by apply Hwhole. }
    split; [|done]. intros x. split.
    { intros [->|Hx]%elem_of_cons; [constructor|].
      unfold fresh in Hx. apply list_elem_of_fmap in Hx as (n & -> & [_ Hn]%list_elem_of_filter).
      by apply G4. }
    intros Hx. rewrite <-Hf.
    assert (Hfresh : ∀ y, y ∈ fresh [mkNode hash (r_name row) false false ts] ↔ y = hash ∨ y ∈ fresh ts)
      by (intros y; rewrite Hf; apply elem_of_cons).
    revert x Hx. apply rtc_ind_r; [apply Hfresh; by left|].
    intros a y _ [Ha [Hne (r & Hr & <-)]] IHa.
    unfold fresh in IHa. apply list_elem_of_fmap in IHa as (n & -> & [Htr Hn]%list_elem_of_filter).
    unfold forest in Hn. cbn [flat_map] in Hn. rewrite app_nil_r in Hn.
    assert (Hmiss : tn_missing n = false).
    { pose proof Hn as [->|Hn']%elem_of_cons; [done|]. destruct (G4 n Hn') as ([_ Hm _] & _).
      rewrite Hm. unfold exists_. by rewrite bool_decide_eq_true_2. }
    assert (r ∈ map tn_name (tn_children n)) as (m & -> & Hm)%list_elem_of_fmap.
    { rewrite Hall; [by apply child_names_elem|done|by rewrite Htr, Hmiss]. }
    destruct (G4 m (tree_nodes_closed _ n m Hn Hm)) as ([Hh _ _] & Hseen & _).
    rewrite <-Hh. apply Hfresh. apply G1 in Hseen. set_solver.
Qed.

(** ** Examples *)

Definition browse_db : Db :=
  mkDb {["a" := example_row "Hello-1.0" 10 0; "b" := example_row "glibc" 7 5;
         "c" := example_row "hello-2.0" 5 5]} ∅ ∅ 22.

Lemma listing_walk_is_exact_witness :
  ∃ out, list_walk [browse_db; browse_db; browse_db; browse_db] (Some "HELLO") 1 None = Ok (out, true) ∧
    map s_hash out = ["c"; "a"].
Proof.
  destruct (listing_walk_is_exact [browse_db; browse_db; browse_db; browse_db] (Some "HELLO") 1
    ltac:(by_decision)) as (out & finished & Hwalk & _ & _ & _ & Hfin).
  rewrite (Hfin browse_db 4 eq_refl) in Hwalk.
  2: { assert (size (objects browse_db) = 3) as -> by by_computation. lia. }
  exists out. split; [done|].
  assert (list_walk [browse_db; browse_db; browse_db; browse_db] (Some "HELLO") 1 None =
    Ok ([mkSummary "c" "hello-2.0" "/nix/store/hello-2.0" 1 5 5;
         mkSummary "a" "Hello-1.0" "/nix/store/Hello-1.0" 1 10 0], true)) as Hv by by_computation.
  rewrite Hv in Hwalk. by injection Hwalk as <-.
Defined.
