(* ===== verification/Puller.v ===== *)
(** * Puller: narinfos, redirects, access bumps, the deep probe, browse routes

    [crates/garret-puller/src/main.rs]. A handler is a [Prog] over [PullOp]:
    taking a connection's lock, running one query, presigning, fetching. Locks
    and queries take arbitrary time (milliseconds, [Z]), so the budgets are part
    of the model. [pull_runs] relates a handler to the database it reads and the
    pending bumps it queues; a query may fail at any time.

    JSON bodies are left as values. The router and the bearer check in front of
    the browse routes are in Routes, start-up is in Startup; metrics and logging
    are left out. *)

From stdpp Require Import pretty.
From S2P Require Import Prelude Text Common InFlight Db Prog Storage World Narinfo Verify Pusher Protocol Browse.

(** ** Access bumps *)

Record Bumps := mkBumps {
  bm_pending : gset string;
  bm_debounce : Z;
}.

Definition bumps_new (debounce : Z) : Bumps := mkBumps ∅ debounce.

Definition hit (b : Bumps) (hash : string) (last_accessed_at now : Z) : Bumps :=
  if (now - bm_debounce b <=? last_accessed_at)%Z then b
  else mkBumps ({[hash]} ∪ bm_pending b) (bm_debounce b).

(** [Bumps::flush]; [failure] is what the database write may fail with. The
    batch is taken before the write, so a failed one is dropped. *)
Definition flush (b : Bumps) (db : Db) (now : Z) (failure : option string) : Bumps * Db * Result nat string :=
  let batch := bm_pending b in
  let b := mkBumps ∅ (bm_debounce b) in
  if bool_decide (batch = ∅) then (b, db, Ok 0)
  else match failure with
       | Some e => (b, db, Err e)
       | None => (b, bump_last_accessed db (elements batch) now (bm_debounce b), Ok (size batch))
       end.

(** ** Answers *)

Record Response := mkResponse {
  rs_status : Z;
  rs_content_type : option string;
  rs_location : option string;
  rs_body : string;
}.

Definition plain (status : Z) (body : string) : Response := mkResponse status None None body.
Definition unavailable : Response := plain 503 "database not ready".

Inductive Degraded := DbTimeout | DbError | PresignTimeout | PresignError.

Definition reason (d : Degraded) : string :=
  match d with
  | DbTimeout => "db_timeout"
  | DbError => "db_error"
  | PresignTimeout => "presign_timeout"
  | PresignError => "presign_error"
  end.

Definition degraded_miss (d : Degraded) : Response := plain 404 "".

Inductive Outcome :=
  | Out_Hit (response : Response)
  | Out_Miss
  | Out_Unavailable
  | Out_Degraded (d : Degraded)
  | Out_Junk.

(** The label the request is counted under, and its response. *)
Definition counted (outcome : Outcome) : option string * Response :=
  match outcome with
  | Out_Hit response => (Some "hit", response)
  | Out_Miss => (Some "miss", plain 404 "")
  | Out_Unavailable => (Some "miss", unavailable)
  | Out_Degraded d => (Some "miss", degraded_miss d)
  | Out_Junk => (None, plain 404 "")
  end.

(** ** What handlers ask for *)

Record Fetched := mkFetched {
  ft_status : Z;
  ft_request_id : option string;
  ft_body : string;
}.

Inductive PullOp : Type → Type :=
  | Pull_Opened : PullOp bool
  | Pull_Lock : PullOp Z (* how long the lock took *)
  | Pull_Query {A} (read : Db → A) : PullOp (Result A string * Z)
  | Pull_Now : PullOp Z
  | Pull_Hit (hash : string) (last_accessed_at now : Z) : PullOp unit
  | Pull_Presign (key : string) : PullOp (Result string string * Z)
  | Pull_Fetch (url : string) : PullOp (Result Fetched string).

Abbreviation Pull := (Prog PullOp).

(** [db_read]: a request whose budget ends while it is queued is answered then,
    and the closure bails out once it gets the lock. *)
Definition db_read_budget {A} (budget : Z) (read : Db → A) : Pull (Result A Degraded) :=
  do waited <- request Pull_Lock;
  if (budget <? waited)%Z then Ret (Err DbTimeout)
  else
    do answer <- request (Pull_Query read);
    Ret (if (budget <? waited + answer.2)%Z then Err DbTimeout
         else match answer.1 with Ok v => Ok v | Err _ => Err DbError end).

Record PullState := mkPullState {
  pl_db_read_budget : Z;
  pl_presign_budget : Z;
}.

(** [name(file).filter(is_store_hash)]. *)
Definition store_hash_of (name : string → option string) (file : string) : option string :=
  hash ← name file; if is_store_hash hash then Some hash else None.

Definition narinfo (state : PullState) (file : string) : Pull Outcome :=
  match store_hash_of narinfo_hash file with
  | None => Ret Out_Junk
  | Some hash =>
      do opened <- request Pull_Opened;
      if opened : bool then
        do answer <- db_read_budget (pl_db_read_budget state) (λ db, get_object_and_last_accessed db hash);
        match answer with
        | Ok (Some (obj, last_accessed_at)) =>
            do now <- request Pull_Now;
            do _ <- request (Pull_Hit hash last_accessed_at now);
            Ret (Out_Hit (mkResponse 200 (Some "text/x-nix-narinfo") None (render obj)))
        | Ok None => Ret Out_Miss
        | Err degraded => Ret (Out_Degraded degraded)
        end
      else Ret Out_Unavailable
  end.

Definition nar_redirect (state : PullState) (file : string) : Pull Outcome :=
  match store_hash_of nar_file_hash file with
  | None => Ret Out_Junk
  | Some hash =>
      do opened <- request Pull_Opened;
      if opened : bool then
        do answer <- db_read_budget (pl_db_read_budget state) (λ db, exists_ db hash);
        match answer with
        | Err degraded => Ret (Out_Degraded degraded)
        | Ok false => Ret Out_Miss
        | Ok true =>
            do presigned <- request (Pull_Presign (key_for hash));
            Ret (if (pl_presign_budget state <? presigned.2)%Z then Out_Degraded PresignTimeout
                 else match presigned.1 with
                      | Ok url => Out_Hit (mkResponse 307 None (Some url) "")
                      | Err _ => Out_Degraded PresignError
                      end)
        end
      else Ret Out_Unavailable
  end.

(** ** Deep readiness *)

Definition READ_PROBE_TTL : Z := 30.
Definition READ_PROBE_TIMEOUT : Z := 5.

(** The text between [<Code>] and [</Code>] of an S3 error document. *)
Definition s3_error_code (body : string) : option string :=
  '(_, rest) ← str_split_once "<Code>" body;
  '(code, _) ← str_split_once "</Code>" rest;
  Some (prefix_chars 64 code).

Definition probe_read (state : PullState) : Pull (Result () string) :=
  do hash <- db_read_budget (pl_db_read_budget state) most_recently_accessed;
  match hash with
  | Err degraded => Ret (Err ("database read degraded: " +:+ reason degraded))
  | Ok None => Ret (Ok tt)
  | Ok (Some hash) =>
      do presigned <- request (Pull_Presign (key_for hash));
      match presigned.1 with
      | Err e => Ret (Err ("presigning: " +:+ e))
      | Ok url =>
          do response <- request (Pull_Fetch url);
          Ret (match response with
               | Err e => Err ("fetching: " +:+ e)
               | Ok r =>
                   if ((200 <=? ft_status r) && (ft_status r <? 300))%Z then Ok tt
                   else Err ("presigned GET answered " +:+ pretty (ft_status r)
                     +:+ match s3_error_code (ft_body r) with
                         | Some code => ", S3 error code " +:+ code | None => "" end
                     +:+ match ft_request_id r with
                         | Some id => ", x-amz-request-id " +:+ prefix_chars 64 id | None => "" end)
               end)
      end
  end.

(** The last probe's answer, and when it was taken. *)
Definition ProbeCache : Type := option (Z * Result () string).

(** [cached_probe] by a caller that gets the cache's lock at [now]; a probe
    started then would answer [outcome] after [took]. The flag: did it run. *)
Definition cached_probe (cache : ProbeCache) (now : Z) (outcome : Result () string) (took : Z)
    : Result () string * ProbeCache * bool :=
  match cache with
  | Some (at_, cached) =>
      if (now - at_ <? READ_PROBE_TTL)%Z then (cached, cache, false)
      else (outcome, Some (now + took, outcome)%Z, true)
  | None => (outcome, Some (now + took, outcome)%Z, true)
  end.

(** [tokio::time::timeout] around the probe. *)
Definition timed_probe (outcome : Result () string) (took : Z) : Result () string * Z :=
  if (READ_PROBE_TIMEOUT <? took)%Z
  then (Err ("no answer within " +:+ pretty READ_PROBE_TIMEOUT +:+ "s"), READ_PROBE_TIMEOUT)
  else (outcome, took).

Definition ready (opened : bool) : Response := if opened then plain 200 "ready" else unavailable.

Definition ready_deep (opened : bool) (cache : ProbeCache) (now : Z) (outcome : Result () string) (took : Z)
    : Response * ProbeCache :=
  if opened then
    let '(outcome, took) := timed_probe outcome took in
    let '(answer, cache, _) := cached_probe cache now outcome took in
    (if is_ok answer then plain 200 "ready" else plain 503 "S3 read path failing", cache)
  else (unavailable, cache).

(** ** Browse routes *)

Definition BROWSE_BUDGET : Z := 10000.
Definition DEFAULT_LIMIT : nat := 50.

(** [run_browse]: a value to serialise, or an error response. *)
Definition run_browse {A} (read : Db → option A) : Pull (Result A Response) :=
  do opened <- request Pull_Opened;
  if opened : bool then
    do waited <- request Pull_Lock;
    if (BROWSE_BUDGET <? waited)%Z then Ret (Err (plain 503 "browse query timed out"))
    else
      do answer <- request (Pull_Query read);
      Ret (if (BROWSE_BUDGET <? waited + answer.2)%Z then Err (plain 503 "browse query timed out")
           else match answer.1 with
                | Ok (Some value) => Ok value
                | Ok None => Err (plain 404 "")
                | Err _ => Err (plain 500 "")
                end)
  else Ret (Err unavailable).

Record ListQuery := mkListQuery {
  lq_q : option string;
  lq_limit : option nat;
  lq_cursor : option string;
}.

(** A malformed cursor fails the extraction of the query. *)
Definition list_objects (query : ListQuery) : Pull (Result Page Response) :=
  match lq_cursor query with
  | None =>
      run_browse (λ db, Some (list_page db (lq_q query) (default DEFAULT_LIMIT (lq_limit query)) None))
  | Some text =>
      match cursor_from_str text with
      | Err e => Ret (Err (plain 400 e))
      | Ok c =>
          run_browse (λ db, Some (list_page db (lq_q query) (default DEFAULT_LIMIT (lq_limit query)) (Some c)))
      end
  end.

Definition get_object_detail (hash : string) : Pull (Result ObjectDetail Response) :=
  run_browse (λ db, object_detail db hash).
Definition object_tree (hash : string) : Pull (Result TreeNode Response) :=
  run_browse (λ db, tree db hash TREE_DEPTH).
Definition object_referrers (hash : string) : Pull (Result (list Summary) Response) :=
  run_browse (λ db, Some (referrers db hash)).
Definition get_pins : Pull (Result (list Pin) Response) := run_browse (λ db, Some (list_pins db)).

(** ** What the Puller runs on *)

(** The database it reads, once it is open, and the bumps it has queued. *)
Record PullWorld := mkPullWorld {
  pw_db : option Db;
  pw_bumps : Bumps;
}.

(** A handler's run over a database that holds still; how long locks, queries
    and presigning take and whether they fail is arbitrary. *)
Definition pull_step (w : PullWorld) {B} (op : PullOp B) : B → PullWorld → Prop :=
  match op in PullOp B return B → PullWorld → Prop with
  | Pull_Opened => λ b w', b = bool_decide (is_Some (pw_db w)) ∧ w' = w
  | Pull_Lock => λ waited w', (0 ≤ waited)%Z ∧ w' = w
  | Pull_Query read => λ answer w',
      (∀ v, answer.1 = Ok v → ∃ db, pw_db w = Some db ∧ v = read db) ∧ (0 ≤ answer.2)%Z ∧ w' = w
  | Pull_Now => λ _ w', w' = w
  | Pull_Hit hash last now => λ _ w', w' = mkPullWorld (pw_db w) (hit (pw_bumps w) hash last now)
  | Pull_Presign _ => λ _ w', w' = w
  | Pull_Fetch _ => λ _ w', w' = w
  end.

Abbreviation pull_runs := (prog_runs (@pull_step)).

Ltac pull_inv :=
  repeat match goal with
  | H : pull_runs _ (Ret _) _ _ _ |- _ => apply prog_runs_ret_inv in H as (? & ? & ?); subst
  | H : pull_runs _ (prog_bind (request _) _) _ _ _ |- _ =>
      apply prog_runs_request in H as (? & ? & ? & ? & H & ?); cbn [pull_step] in H; subst
  end.

(** The requests of a budgeted read: no query once the budget is over. *)
Definition budget_trace (budget : Z) {A} (read : Db → A) (tr : list (Event PullOp)) : Prop :=
  (∃ waited, (budget < waited)%Z ∧ tr = [Ev Pull_Lock waited]) ∨
  (∃ waited answer, (waited ≤ budget)%Z ∧ tr = [Ev Pull_Lock waited; Ev (Pull_Query read) answer]).

Lemma db_read_runs {A B} w budget (read : Db → A) (f : Result A Degraded → Pull B) tr w' b :
  pull_runs w (do r <- db_read_budget budget read; f r) tr w' b →
  ∃ r tr1 tr2, tr = tr1 ++ tr2 ∧ budget_trace budget read tr1 ∧ pull_runs w (f r) tr2 w' b ∧
    match r with
    | Ok v => ∃ db, pw_db w = Some db ∧ v = read db
    | Err d => d = DbTimeout ∨ d = DbError
    end.
Proof.
  unfold db_read_budget. intros H.
  apply (prog_runs_request (@pull_step) w Pull_Lock) in H as (waited & w1 & tr1 & -> & [_ ->] & H).
  destruct (Z.ltb_spec budget waited) as [Hw|Hw].
  { exists (Err DbTimeout), [Ev Pull_Lock waited], tr1. split_and!; [done| |done|by left].
    left. by exists waited. }
  apply (prog_runs_request (@pull_step) w (Pull_Query read)) in H as (answer & w2 & tr2 & -> & (Hv & _ & ->) & H).
  eexists _, [Ev Pull_Lock waited; Ev (Pull_Query read) answer], tr2.
  split_and!; [done|right; by exists waited, answer|exact H|].
  destruct (budget <? waited + answer.2)%Z; [by left|].
  destruct answer as [[v|e] took]; [by apply Hv|by right].
Qed.

Lemma store_hash_of_Some name suffix file hash :
  (∀ f, name f = strip_suffix suffix f) →
  store_hash_of name file = Some hash ↔ file = hash +:+ suffix ∧ is_store_hash hash = true.
Proof.
  intros Hname. unfold store_hash_of. rewrite Hname, bind_Some. split.
  - intros (h & Hs%strip_suffix_Some & Hh). destruct (is_store_hash h) eqn:E; [|done].
    injection Hh as ->. done.
  - intros [Hs Hh]. exists hash. split; [by apply strip_suffix_Some|]. by rewrite Hh.
Qed.

(** ** Narinfos and redirects *)

Definition ev_query (e : Event PullOp) : bool :=
  match e with Ev (Pull_Query _) _ => true | _ => false end.

Definition ev_waited (e : Event PullOp) : option Z :=
  match e with
  | Ev op r => match op in PullOp B return B → option Z with Pull_Lock => Some | _ => λ _, None end r
  end.

(** A query runs only when the lock came within the budget. *)
Definition reads_in_budget (budget : Z) (tr : list (Event PullOp)) : Prop :=
  existsb ev_query tr = true → ∃ waited, omap ev_waited tr = [waited] ∧ (waited ≤ budget)%Z.

Lemma budget_trace_reads {A} budget (read : Db → A) tr1 tr0 tr2 :
  budget_trace budget read tr1 → existsb ev_query (tr0 ++ tr2) = false → omap ev_waited (tr0 ++ tr2) = [] →
  reads_in_budget budget (tr0 ++ tr1 ++ tr2).
Proof.
  rewrite !existsb_app, !omap_app, orb_false_iff. intros Htr [H0 H2] [Hw0 Hw2]%app_eq_nil.
  unfold reads_in_budget. rewrite !existsb_app, !omap_app, H0, H2, Hw0, Hw2, app_nil_r, orb_false_r.
  destruct Htr as [(waited & _ & ->)|(waited & answer & Hw & ->)]; [done|]. intros _. by exists waited.
Qed.

(** What each answer of the narinfo handler means: which file names are junk, that a hit renders the
    row and queues its access bump, that a miss is an absent row, that a degraded answer changes
    nothing; the database is never queried after the read budget is over. *)
Theorem narinfo_answers state file w tr w' outcome :
  pull_runs w (narinfo state file) tr w' outcome →
  reads_in_budget (pl_db_read_budget state) tr ∧
  match outcome with
  | Out_Junk => w' = w ∧ ∀ hash, is_store_hash hash = true → file ≠ narinfo_file hash
  | Out_Unavailable => w' = w ∧ pw_db w = None
  | Out_Degraded d => w' = w ∧ (d = DbTimeout ∨ d = DbError)
  | Out_Miss => w' = w ∧ ∃ hash db, file = narinfo_file hash ∧ pw_db w = Some db ∧ ¬ present db hash
  | Out_Hit response => ∃ hash db obj last_accessed_at now,
      file = narinfo_file hash ∧ is_store_hash hash = true ∧ pw_db w = Some db ∧
      get_object_and_last_accessed db hash = Some (obj, last_accessed_at) ∧
      response = mkResponse 200 (Some "text/x-nix-narinfo") None (render obj) ∧
      w' = mkPullWorld (pw_db w) (hit (pw_bumps w) hash last_accessed_at now)
  end.
Proof.
  unfold narinfo. destruct (store_hash_of narinfo_hash file) as [hash|] eqn:Hfile; intros H.
  2: { pull_inv. split; [by intros ?|]. split; [done|]. intros hash Hh ->.
       assert (store_hash_of narinfo_hash (narinfo_file hash) = Some hash) as Hs; [|congruence].
       by apply (store_hash_of_Some _ NARINFO_SUFFIX). }
  apply (store_hash_of_Some _ NARINFO_SUFFIX) in Hfile as [-> Hh]; [|done].
  apply prog_runs_request in H as (opened & w1 & tr1 & -> & [-> ->] & H).
  case_bool_decide as Hopen.
  2: { pull_inv. split; [by intros ?|]. split; [done|]. by apply eq_None_not_Some. }
  apply db_read_runs in H as (r & tr2 & tr3 & -> & Htr & H & Hr).
  destruct r as [[[obj last]|]|d].
  - destruct Hr as (db & Hdb & Hobj).
    apply (prog_runs_request (@pull_step) _ Pull_Now) in H as (now & w2 & tr4 & -> & Hw2 & H). cbn in Hw2. subst w2.
    apply prog_runs_request in H as (u & w3 & tr5 & -> & Hw3 & H). cbn in Hw3. subst w3. pull_inv.
    split; [|by exists hash, db, obj, last, now].
    by apply (budget_trace_reads _ _ _ [_] [_; _] Htr).
  - destruct Hr as (db & Hdb & Hobj). pull_inv. split.
    { by apply (budget_trace_reads _ _ _ [_] [] Htr). }
    split; [done|]. exists hash, db. split_and!; [done|done|].
    unfold get_object_and_last_accessed in Hobj. intros [row Hrow]. by rewrite Hrow in Hobj.
  - pull_inv. split; [|by split].
    by apply (budget_trace_reads _ _ _ [_] [] Htr).
Qed.

Lemma nar_redirect_runs state file w tr w' outcome :
  pull_runs w (nar_redirect state file) tr w' outcome →
  reads_in_budget (pl_db_read_budget state) tr ∧ w' = w ∧
  match outcome with
  | Out_Hit response => ∃ hash db url took,
      file = hash +:+ NAR_SUFFIX ∧ is_store_hash hash = true ∧ pw_db w = Some db ∧ present db hash ∧
      (took ≤ pl_presign_budget state)%Z ∧ last tr = Some (Ev (Pull_Presign (key_for hash)) (Ok url, took)) ∧
      response = mkResponse 307 None (Some url) ""
  | Out_Miss => ∃ hash db, file = hash +:+ NAR_SUFFIX ∧ pw_db w = Some db ∧ ¬ present db hash
  | Out_Unavailable => pw_db w = None
  | Out_Degraded _ => True
  | Out_Junk => ∀ hash, is_store_hash hash = true → file ≠ hash +:+ NAR_SUFFIX
  end.
Proof.
  unfold nar_redirect. destruct (store_hash_of nar_file_hash file) as [hash|] eqn:Hfile; intros H.
  2: { pull_inv. split; [by intros ?|]. split; [done|]. intros hash Hh ->.
       assert (store_hash_of nar_file_hash (hash +:+ NAR_SUFFIX) = Some hash) as Hs; [|congruence].
       by apply (store_hash_of_Some _ NAR_SUFFIX). }
  apply (store_hash_of_Some _ NAR_SUFFIX) in Hfile as [-> Hh]; [|done].
  apply prog_runs_request in H as (opened & w1 & tr1 & -> & [-> ->] & H).
  case_bool_decide as Hopen.
  2: { pull_inv. split; [by intros ?|]. split; [done|]. by apply eq_None_not_Some. }
  apply db_read_runs in H as (r & tr2 & tr3 & -> & Htr & H & Hr).
  destruct r as [[|]|d].
  - destruct Hr as (db & Hdb & Hex). symmetry in Hex. apply bool_decide_eq_true in Hex.
    apply prog_runs_request in H as (presigned & w2 & tr4 & -> & Hw2 & H). cbn in Hw2. subst w2. pull_inv.
    split; [by apply (budget_trace_reads _ _ _ [_] [_] Htr)|]. split; [done|].
    destruct (Z.ltb_spec (pl_presign_budget state) presigned.2) as [|Htook]; [done|].
    destruct presigned as [[url|e] took]; [|done]. exists hash, db, url, took. split_and!; try done.
    by rewrite app_comm_cons, last_snoc.
  - destruct Hr as (db & Hdb & Hex). symmetry in Hex. apply bool_decide_eq_false in Hex. pull_inv.
    split; [by apply (budget_trace_reads _ _ _ [_] [] Htr)|]. split; [done|]. by exists hash, db.
  - pull_inv. split; [by apply (budget_trace_reads _ _ _ [_] [] Htr)|]. done.
Qed.

(** C36: In every reachable state of the Pusher, a narinfo the Puller serves describes a blob that
    is stored and decompresses to the NAR it names, and a NAR redirect leads to a stored blob. *)
Theorem pulls_lead_to_stored_blobs `{J : Json, C : Crypto, Zs : Zstd} unzstd `{!ZstdLaws unzstd} P state w :
  reachable P → pw_db w = Some (w_db (p_world P)) →
  (∀ file tr w' response, pull_runs w (narinfo state file) tr w' (Out_Hit response) →
    ∃ hash obj body nar, file = narinfo_file hash ∧ rs_status response = 200%Z ∧
      rs_body response = render obj ∧ o_store_path_hash obj = hash ∧
      w_blobs (p_world P) !! nar_url hash = Some body ∧
      o_file_hash obj = sha256_nix32 (sha256 body) ∧ o_file_size obj = len_Z body ∧
      unzstd body = Some nar ∧ o_nar_hash obj = sha256_nix32 (sha256 nar) ∧ o_nar_size obj = len_Z nar) ∧
  (∀ file tr w' response, pull_runs w (nar_redirect state file) tr w' (Out_Hit response) →
    ∃ hash url took, "nar/" +:+ file = nar_url hash ∧ rs_status response = 307%Z ∧
      rs_location response = Some url ∧
      last tr = Some (Ev (Pull_Presign (nar_url hash)) (Ok url, took)) ∧
      is_Some (w_blobs (p_world P) !! nar_url hash)).
Proof.
  intros Hreach Hdb. split.
  - intros file tr w' response Hrun. unfold narinfo in Hrun.
    destruct (store_hash_of narinfo_hash file) as [hash|] eqn:Hfile; [|by pull_inv].
    apply (store_hash_of_Some _ NARINFO_SUFFIX) in Hfile as [-> _]; [|done].
    apply prog_runs_request in Hrun as (opened & w1 & tr1 & -> & [_ ->] & Hrun).
    destruct opened; [|by pull_inv].
    apply db_read_runs in Hrun as (r & tr2 & tr3 & -> & _ & Hrun & Hr).
    destruct r as [[[obj last_]|]|d]; [|by pull_inv..]. pull_inv. simplify_eq. destruct Hr as (db & Hdb' & Hobj).
    rewrite Hdb in Hdb'. injection Hdb' as <-. unfold get_object_and_last_accessed in Hobj.
    destruct (objects _ !! hash) as [row|] eqn:Hrow; [|done]. injection Hobj as -> _.
    destruct (reachable_rows unzstd P hash row Hreach Hrow) as (body & Hb & Hfh & Hfs & nar & Hun & Hns & Hnh).
    eexists hash, _, body, nar. cbn. split_and!; done.
  - intros file tr w' response Hrun. apply nar_redirect_runs in Hrun as (_ & _ & Hhit).
    destruct Hhit as (hash & db & url & took & -> & _ & Hdb' & [row Hrow] & _ & Hlast & ->).
    rewrite Hdb in Hdb'. injection Hdb' as <-.
    destruct (reachable_rows unzstd P hash row Hreach Hrow) as (body & Hb & _).
    exists hash, url, took. split_and!; [done..|]. by exists body.
Qed.

(** ** Bumps *)

Lemma hit_pending b hash last now :
  bm_pending (hit b hash last now) =
    if decide (last < now - bm_debounce b)%Z then {[hash]} ∪ bm_pending b else bm_pending b.
Proof. unfold hit. destruct (Z.leb_spec (now - bm_debounce b) last); case_decide; try done; lia. Qed.

(** What a burst of pulls queues: [(hash, time)] in order. *)
Definition hits (db : Db) (b : Bumps) (pulls : list (string * Z)) : Bumps :=
  foldl (λ b p, match objects db !! p.1 with
                | Some row => hit b p.1 (r_last_accessed_at row) p.2
                | None => b
                end) b pulls.

Lemma hits_pending db b pulls :
  bm_debounce (hits db b pulls) = bm_debounce b ∧
  ∀ h, h ∈ bm_pending (hits db b pulls) ↔ h ∈ bm_pending b ∨
    ∃ row t, objects db !! h = Some row ∧ (h, t) ∈ pulls ∧ (r_last_accessed_at row < t - bm_debounce b)%Z.
Proof.
  revert b. induction pulls as [|[h t] pulls IH]; intros b.
  { split; [done|]. intros h. split; [by left|]. intros [?|(row & t & _ & Hin%elem_of_nil & _)]; done. }
  cbn [hits foldl fst snd]. destruct (objects db !! h) as [row|] eqn:Hrow.
  - destruct (IH (hit b h (r_last_accessed_at row) t)) as [IH1 IH2]. unfold hits in *.
    assert (bm_debounce (hit b h (r_last_accessed_at row) t) = bm_debounce b) as Hd.
    { unfold hit. by destruct (_ <=? _)%Z. }
    rewrite IH1, Hd. split; [done|]. intros h'. rewrite IH2, hit_pending, Hd.
    setoid_rewrite elem_of_cons. case_decide as Hs; [|naive_solver lia].
    rewrite elem_of_union, elem_of_singleton. split.
    + intros [[->|?]|?]; [|by left|naive_solver]. right. exists row, t. naive_solver.
    + intros [?|(row' & t' & Hrow' & [[= -> ->]|Hin] & Hlt)]; naive_solver.
  - destruct (IH b) as [IH1 IH2]. unfold hits in *. split; [done|]. intros h'. rewrite IH2.
    setoid_rewrite elem_of_cons. naive_solver.
Qed.

(** After a flush every row that was pulled is recorded as accessed no longer than the debounce
    before its last pull, no other row changes, nothing stays queued, and rows that were fresh
    already cost no write. *)
Theorem flush_keeps_lru_fresh db b pulls now :
  bm_pending b = ∅ → (0 ≤ bm_debounce b)%Z → Forall (λ p, (p.2 ≤ now)%Z) pulls →
  match flush (hits db b pulls) db now None with (b', db', res) =>
  bm_pending (hits db b pulls) ⊆ dom (objects db) ∧
  bm_pending b' = ∅ ∧ res = Ok (size (bm_pending (hits db b pulls))) ∧
  (∀ h, objects db' !! h =
    if decide (h ∈ bm_pending (hits db b pulls))
    then bump_row now (bm_debounce b) <$> objects db !! h else objects db !! h) ∧
  (∀ h t row, (h, t) ∈ pulls → objects db' !! h = Some row →
    (t - bm_debounce b ≤ r_last_accessed_at row)%Z) ∧
  ((∀ h t row, (h, t) ∈ pulls → objects db !! h = Some row →
    (t - bm_debounce b ≤ r_last_accessed_at row)%Z) → db' = db)
  end.
Proof.
  intros Hempty Hpos Htimes. set (queued := hits db b pulls). destruct (hits_pending db b pulls) as [Hdeb Hpend].
  fold queued in Hdeb, Hpend. rewrite Hempty in Hpend. unfold flush.
  assert (Hdom : bm_pending queued ⊆ dom (objects db)).
  { intros h [?|(row & t & Hrow & _)]%Hpend; [set_solver|]. apply elem_of_dom. by eexists. }
  assert (Hidem : ∀ r, bump_row now (bm_debounce b) (bump_row now (bm_debounce b) r) = bump_row now (bm_debounce b) r).
  { intros r. unfold bump_row. destruct (Z.ltb_spec (r_last_accessed_at r) (now - bm_debounce b)) as [Hlt|Hge].
    - cbn [set_last_accessed r_last_accessed_at]. by destruct (now <? _)%Z.
    - destruct (Z.ltb_spec (r_last_accessed_at r) (now - bm_debounce b)); [lia|done]. }
  assert (Hrows : ∀ db', db' = bump_last_accessed db (elements (bm_pending queued)) now (bm_debounce b) →
    ∀ h, objects db' !! h = if decide (h ∈ bm_pending queued)
      then bump_row now (bm_debounce b) <$> objects db !! h else objects db !! h).
  { intros db' -> h. unfold bump_last_accessed. rewrite update_rows_idem by done.
    repeat case_decide; set_solver. }
  rewrite Hdeb. case_bool_decide as Hnone.
  - rewrite Hnone in *. split_and!; [done|done|by rewrite size_empty| | |done].
    + intros h. by rewrite decide_False by set_solver.
    + intros h t row Hin Hrow. destruct (decide (t - bm_debounce b ≤ r_last_accessed_at row)%Z); [done|].
      exfalso. apply (not_elem_of_empty (C := gset string) h), Hpend. right. exists row, t. split_and!; [done..|lia].
  - specialize (Hrows _ eq_refl). split_and!; [done|done|done|exact Hrows| |].
    + intros h t row Hin Hrow. rewrite Hrows in Hrow. rewrite Forall_forall in Htimes.
      pose proof (Htimes _ Hin) as Ht. cbn in Ht. case_decide as Hq.
      * apply fmap_Some in Hrow as (old & _ & ->). unfold bump_row.
        destruct (Z.ltb_spec (r_last_accessed_at old) (now - bm_debounce b)); cbn; lia.
      * destruct (decide (t - bm_debounce b ≤ r_last_accessed_at row)%Z); [done|].
        exfalso. apply Hq, Hpend. right. exists row, t. split_and!; [done..|lia].
    + intros Hfresh. exfalso. apply Hnone. apply elem_of_equiv_empty_L. intros h [?|(row & t & Hrow & Hin & Hlt)]%Hpend; [set_solver|].
      pose proof (Hfresh _ _ _ Hin Hrow). lia.
Qed.

(** ** The deep probe's rate *)

(** One call of [/ready/deep]: when it gets the cache's lock, and what a probe
    started then would answer and take. *)
Record ProbeCall := mkCall {
  pc_now : Z;
  pc_outcome : Result () string;
  pc_took : Z;
}.

(** When the probes of a sequence of calls started. *)
Fixpoint probe_starts (cache : ProbeCache) (calls : list ProbeCall) : list Z :=
  match calls with
  | [] => []
  | c :: calls =>
      let '(_, cache, ran) := cached_probe cache (pc_now c) (pc_outcome c) (pc_took c) in
      if ran : bool then pc_now c :: probe_starts cache calls else probe_starts cache calls
  end.

(** Each call waits for the lock, which a running probe holds. *)
Fixpoint in_turn (cache : ProbeCache) (calls : list ProbeCall) : Prop :=
  match calls with
  | [] => True
  | c :: calls =>
      (0 ≤ pc_took c)%Z ∧
      match cache with Some (at_, _) => (at_ ≤ pc_now c)%Z | None => True end ∧
      in_turn (cached_probe cache (pc_now c) (pc_outcome c) (pc_took c)).1.2 calls
  end.

Lemma probe_starts_spaced cache calls :
  in_turn cache calls →
  StronglySorted (λ a b, a + READ_PROBE_TTL ≤ b)%Z (probe_starts cache calls) ∧
  ∀ at_ o, cache = Some (at_, o) → Forall (λ t, at_ + READ_PROBE_TTL ≤ t)%Z (probe_starts cache calls).
Proof.
  revert cache. induction calls as [|c calls IH]; intros cache; cbn [in_turn probe_starts].
  { intros _. split; [constructor|]. intros. constructor. }
  intros (Htook & Hcache & Hturn).
  assert (Hrun : ∀ o, in_turn (Some (pc_now c + pc_took c, o)%Z) calls →
    StronglySorted (λ a b, a + READ_PROBE_TTL ≤ b)%Z
      (pc_now c :: probe_starts (Some (pc_now c + pc_took c, o)%Z) calls) ∧
    Forall (λ t, pc_now c ≤ t)%Z (probe_starts (Some (pc_now c + pc_took c, o)%Z) calls)).
  { intros o (Hs & Hf)%IH. specialize (Hf _ _ eq_refl). split.
    - constructor; [done|]. eapply Forall_impl; [exact Hf|]. cbn. lia.
    - eapply Forall_impl; [exact Hf|]. unfold READ_PROBE_TTL. lia. }
  destruct cache as [[at_ o]|]; cbn [cached_probe] in *.
  - destruct (Z.ltb_spec (pc_now c - at_) READ_PROBE_TTL) as [Hfresh|Hstale]; cbn [fst snd] in *.
    + destruct (IH _ Hturn) as [? Hf]. split; [done|]. intros ? ? [= <- <-]. by apply (Hf at_ o).
    + destruct (Hrun _ Hturn) as [Hs Hf]. split; [done|]. intros ? ? [= <- <-].
      constructor; [lia|]. eapply Forall_impl; [exact Hf|]. cbn. lia.
  - by destruct (Hrun _ Hturn).
Qed.

(** Whatever callers do, two S3 read probes start at least a time to live apart, and the first
    caller starts one. *)
Theorem one_probe_per_window calls :
  in_turn None calls →
  StronglySorted (λ a b, a + READ_PROBE_TTL ≤ b)%Z (probe_starts None calls) ∧
  (calls ≠ [] → probe_starts None calls ≠ []).
Proof.
  intros Hturn. split; [by apply probe_starts_spaced|].
  by destruct calls as [|c calls].
Qed.

(** ** Examples *)

Definition example_pull_state : PullState := mkPullState 100 100.

Definition example_pull_world : PullWorld :=
  mkPullWorld (Some example_db) (bumps_new 3600).

Lemma narinfo_answers_witness :
  ∃ tr, pull_runs example_pull_world (narinfo example_pull_state (narinfo_file example_hash)) tr
          example_pull_world Out_Miss ∧
    reads_in_budget 100 tr ∧ ¬ present example_db example_hash.
Proof.
  pose (tr := [Ev Pull_Opened true; Ev Pull_Lock 5%Z;
    Ev (Pull_Query (λ db, get_object_and_last_accessed db example_hash)) (Ok None, 7%Z)] : list (Event PullOp)).
  assert (Hrun : pull_runs example_pull_world (narinfo example_pull_state (narinfo_file example_hash)) tr
    example_pull_world Out_Miss).
  { unfold narinfo.
    assert (store_hash_of narinfo_hash (narinfo_file example_hash) = Some example_hash) as -> by by_computation.
    unfold tr. apply (prog_runs_next (@pull_step) example_pull_world Pull_Opened _ true example_pull_world); [done|]. cbn.
    apply (prog_runs_next (@pull_step) example_pull_world Pull_Lock _ 5%Z example_pull_world); [done|]. cbn.
    apply (prog_runs_next (@pull_step) example_pull_world (Pull_Query _) _ (Ok None, 7%Z) example_pull_world); [|constructor].
    split; [|done]. intros v [= <-]. exists example_db. split; [done|]. symmetry. by_computation. }
  exists tr. destruct (narinfo_answers _ _ _ _ _ _ Hrun) as (Hreads & _ & hash & db & Hfile & Hdb & Habs).
  split_and!; [done|done|]. injection Hdb as <-.
  assert (hash = example_hash) as <-; [|done]. by apply (str_app_inv_tail _ _ NARINFO_SUFFIX).
Defined.

Lemma flush_keeps_lru_fresh_witness :
  ∃ row, objects (flush (hits example_db (bumps_new 3600) [("root", 5000%Z)]) example_db 6000 None).1.2 !! "root"
      = Some row ∧ (1400 ≤ r_last_accessed_at row)%Z.
Proof.
  pose proof (flush_keeps_lru_fresh example_db (bumps_new 3600) [("root", 5000%Z)] 6000 eq_refl
    ltac:(done) ltac:(repeat constructor; done)) as H. cbv zeta in H.
  destruct (flush _ example_db 6000 None) as [[b' db'] res] eqn:E. cbn [fst snd].
  destruct H as (_ & _ & _ & Hrows & Hfresh & _). specialize (Hrows "root").
  destruct (objects db' !! "root") as [row|] eqn:Hrow.
  - exists row. split; [done|].
    pose proof (Hfresh "root" 5000%Z row ltac:(by left) Hrow) as Hle. cbn [bumps_new bm_debounce] in Hle. lia.
  - exfalso. symmetry in Hrows. case_decide; vm_compute in Hrows; discriminate Hrows.
Defined.

Lemma one_probe_per_window_witness :
  probe_starts None [mkCall 0 (Ok tt) 1; mkCall 10 (Ok tt) 1; mkCall 40 (Err "down") 5] = [0%Z; 40%Z] ∧
  StronglySorted (λ a b, a + READ_PROBE_TTL ≤ b)%Z [0%Z; 40%Z].
Proof.
  split; [done|].
  refine (proj1 (one_probe_per_window [mkCall 0 (Ok tt) 1; mkCall 10 (Ok tt) 1; mkCall 40 (Err "down") 5] _)).
  vm_compute. repeat split; discriminate.
Defined.

Lemma pulls_lead_to_stored_blobs_witness :
  ∃ (P : Pool) w tr response,
    pull_runs w (nar_redirect example_pull_state (example_hash +:+ NAR_SUFFIX)) tr w (Out_Hit response) ∧
    is_Some (w_blobs (p_world P) !! nar_url example_hash).
Proof.
  destruct example_reached as (P & row & Hreach & _ & Hrow).
  pose (w := mkPullWorld (Some (w_db (p_world P))) (bumps_new 3600)).
  assert (Hrun : ∃ tr response, pull_runs w
    (nar_redirect example_pull_state (example_hash +:+ NAR_SUFFIX)) tr w (Out_Hit response)).
  { eexists _, _. unfold nar_redirect.
    assert (store_hash_of nar_file_hash (example_hash +:+ NAR_SUFFIX) = Some example_hash) as -> by by_computation.
    econstructor; [done|]. cbn. apply (prog_runs_next (@pull_step) w Pull_Lock _ 0%Z w); [done|]. cbn.
    apply (prog_runs_next (@pull_step) w (Pull_Query (λ db, exists_ db example_hash)) _ (Ok true, 0%Z) w).
    { cbn. split; [|done]. intros v [= <-]. eexists. split; [done|].
      symmetry. apply bool_decide_eq_true. by exists row. }
    cbn. apply (prog_runs_next (@pull_step) w (Pull_Presign _) _ (Ok "https://s3.example/x", 0%Z) w); [done|]. cbn. constructor. }
  destruct Hrun as (tr & response & Hrun).
  destruct (pulls_lead_to_stored_blobs (J := toy_json) (C := toy_crypto) (Zs := toy_zstd) Some P
    example_pull_state w Hreach eq_refl) as [_ Hredir].
  destruct (Hredir _ _ _ _ Hrun) as (hash & url & took & Hfile & _ & _ & _ & Hb).
  exists P, w, tr, response. split; [done|]. by rewrite <-Hfile in Hb.
Defined.
