(* ===== verification/Config.v ===== *)
(** * Config: what the services refuse to start with

    [crates/garret-server/src/config.rs]: the sections of the two TOML files,
    their defaults and their validation. The TOML parser and [Url::parse] are
    parameters; an [f64] is a [spec_float] of the Standard Library (binary64:
    53 bits, exponents below 1024), so a NaN watermark is a value here too. *)

From Stdlib Require Import Floats.SpecFloat.
From stdpp Require Import pretty.
From S2P Require Import Prelude Text Net Common InFlight Prog Storage.

(** ** Binary64 *)

Abbreviation f64 := spec_float.

Definition f64_mul : f64 → f64 → f64 := SFmul 53 1024.
Definition f64_of_Z (z : Z) : f64 := binary_normalize 53 1024 z 0 false.
Definition f64_zero : f64 := S754_zero false.
Definition f64_one : f64 := f64_of_Z 1.

(** [as i64]: towards zero, saturating, NaN to zero. *)
Definition f64_to_i64 (x : f64) : Z :=
  match x with
  | S754_zero _ | S754_nan => 0
  | S754_infinity s => if s then i64_min else i64_max
  | S754_finite s m e =>
      let magnitude := Z.shiftl (Z.pos m) e in
      Z.max i64_min (Z.min i64_max (if s then - magnitude else magnitude))
  end.

(** ** [\[s3\]] *)

Record S3Config := mkS3Config {
  s3_bucket : string;
  s3_endpoint_url : option string;
  s3_region : option string;
  s3_path_style : bool;
  s3_access_key_id : option string;
  s3_secret_access_key : option string;
  s3_operation_timeout_secs : Z;
  s3_operation_attempt_timeout_secs : option Z;
  s3_sign_payload : bool;
}.

Definition s3_validate (c : S3Config) : Result () string :=
  if negb (Bool.eqb (bool_decide (is_Some (s3_access_key_id c))) (bool_decide (is_Some (s3_secret_access_key c))))
  then Err "s3.access_key_id and s3.secret_access_key must be set together or both omitted"
  else if (s3_operation_timeout_secs c =? 0)%Z then Err "s3.operation_timeout_secs must be at least 1"
  else match s3_operation_attempt_timeout_secs c with
       | Some attempt =>
           if ((attempt =? 0) || (s3_operation_timeout_secs c <=? attempt))%Z
           then Err ("s3.operation_attempt_timeout_secs (" +:+ pretty attempt
                     +:+ ") must be at least 1 and below s3.operation_timeout_secs ("
                     +:+ pretty (s3_operation_timeout_secs c) +:+ ")")
           else Ok tt
       | None => Ok tt
       end.

(** ** Issuers *)

Record IssuerConfig := mkIssuer {
  is_issuer : string;
  is_audience : string;
  is_extra_audiences : list string;
  is_client_id : option string;
  is_jwks_url : option string;
  is_github_owner_id : option string;
  is_ref_patterns : list string;
  is_ref_protected : option bool;
  is_repository_ids : list string;
  is_event_names : list string;
  is_job_workflow_refs : list string;
  is_allowed_groups : list string;
}.

Definition GITHUB_ISSUER : string := "https://token.actions.githubusercontent.com".

Definition is_remote_url (url : string) : bool := starts_with "http://" url || starts_with "https://" url.


Section validation.
Context `{U : UrlParser}.

Definition check_remote_url (url : string) : Result () string :=
  let? parsed := ok_or (url_parse url) ("invalid URL " +:+ url) in
  let refused := Err (url +:+ " must be https (http only for loopback hosts)") in
  match parsed with
  | (scheme, Some host) =>
      if bool_decide (scheme = "https") then Ok tt
      else if bool_decide (scheme = "http" ∧ host ∈ ["localhost"; "127.0.0.1"; "[::1]"]) then Ok tt
      else refused
  | (_, None) => refused
  end.

Definition issuer_validate (c : IssuerConfig) : Result () string :=
  if bool_decide (is_audience c = "") then Err ("issuer " +:+ is_issuer c +:+ ": audience must not be empty")
  else if bool_decide (is_issuer c = GITHUB_ISSUER) && is_none (is_github_owner_id c) && is_nil (is_repository_ids c)
  then Err ("issuer " +:+ GITHUB_ISSUER +:+ " needs github_owner_id or repository_ids: "
            +:+ "any GitHub repository can mint a token for this audience")
  else map_err (λ e, "issuer " +:+ is_issuer c +:+ ": " +:+ e)
         match is_jwks_url c with
         | Some url => if is_remote_url url then check_remote_url url else Ok tt
         | None => check_remote_url (is_issuer c)
         end.

(** ** Limits and the quota *)

Definition MIN_PART_SIZE : Z := 5 * 1024 * 1024.
Definition MAX_PART_SIZE : Z := 5 * 1024 * 1024 * 1024.

Record Limits := mkLimitsConfig {
  li_max_concurrent_uploads : Z;
  li_max_in_flight_bytes : Z;
  li_part_size : Z;
  li_max_parts_in_flight : Z;
  li_body_idle_timeout_secs : Z;
}.

Definition limits_default : Limits := mkLimitsConfig 16 (256 * 1024 * 1024) (16 * 1024 * 1024) 4 60.

Record GcConfig := mkGcConfig {
  gc_quota_bytes : Z;
  gc_high_watermark : f64;
  gc_low_watermark : f64;
  gc_interval_secs : Z;
  gc_orphan_grace_secs : Z;
}.

(** The defaults 0.95 and 0.85, rounded to binary64. *)
Definition high_watermark : f64 := S754_finite false 8556839292003942 (-53).
Definition low_watermark : f64 := S754_finite false 7656119366529843 (-53).

Definition gc_high_bytes (c : GcConfig) : Z :=
  f64_to_i64 (f64_mul (f64_of_Z (gc_quota_bytes c)) (gc_high_watermark c)).
Definition gc_low_bytes (c : GcConfig) : Z :=
  f64_to_i64 (f64_mul (f64_of_Z (gc_quota_bytes c)) (gc_low_watermark c)).

(** [in_range]. *)
Definition in_range (w : f64) : bool := SFltb f64_zero w && SFleb w f64_one.

Definition gc_validate (gc : GcConfig) : Result () string :=
  if (gc_quota_bytes gc =? 0)%Z then Err "gc.quota_bytes must be at least 1 (omit [gc] to disable the quota)"
  else if (gc_interval_secs gc =? 0)%Z then Err "gc.interval_secs must be at least 1"
  else if negb (in_range (gc_high_watermark gc)) then Err "gc.high_watermark must be in (0, 1]"
  else if negb (in_range (gc_low_watermark gc)) then Err "gc.low_watermark must be in (0, 1]"
  else if SFleb (gc_high_watermark gc) (gc_low_watermark gc)
  then Err "gc.low_watermark must be below gc.high_watermark"
  else Ok tt.

(** ** The two services *)

Record PusherConfig := mkPusherConfig {
  pc_listen : string;
  pc_db_path : string;
  pc_s3 : S3Config;
  pc_store_dir : string;
  pc_signing_key_files : list string;
  pc_puller_endpoint : option string;
  pc_oidc : list IssuerConfig;
  pc_limits : Limits;
  pc_gc : option GcConfig;
  pc_admin_socket : option string;
  pc_metrics_listen : string;
}.

(** The first [?] of a list of checks that fails. *)
Fixpoint all_ok {A} (check : A → Result () string) (l : list A) : Result () string :=
  match l with
  | [] => Ok tt
  | a :: l => let? _ := check a in all_ok check l
  end.

Definition pusher_validate (c : PusherConfig) : Result () string :=
  let l := pc_limits c in
  if negb ((MIN_PART_SIZE <=? li_part_size l) && (li_part_size l <=? MAX_PART_SIZE))%Z
  then Err ("limits.part_size must be between " +:+ pretty (Z.shiftr MIN_PART_SIZE 20) +:+ " MiB and "
            +:+ pretty (Z.shiftr MAX_PART_SIZE 30) +:+ " GiB (S3's part size range), got "
            +:+ pretty (li_part_size l))
  else if (li_max_in_flight_bytes l <? li_part_size l)%Z
  then Err ("limits.max_in_flight_bytes (" +:+ pretty (li_max_in_flight_bytes l)
            +:+ ") must be at least limits.part_size (" +:+ pretty (li_part_size l) +:+ ")")
  else if (li_max_concurrent_uploads l =? 0)%Z then Err "limits.max_concurrent_uploads must be at least 1"
  else if (li_max_parts_in_flight l =? 0)%Z then Err "limits.max_parts_in_flight must be at least 1"
  else
    let? _ := s3_validate (pc_s3 c) in
    if (li_body_idle_timeout_secs l =? 0)%Z then Err "limits.body_idle_timeout_secs must be at least 1"
    else
      let? _ := match pc_gc c with Some gc => gc_validate gc | None => Ok tt end in
      if is_nil (pc_oidc c)
      then Err "oidc: at least one issuer is required; garret has no auth-disable mode (spec 04)"
      else map_err (λ e, "oidc: " +:+ e) (all_ok issuer_validate (pc_oidc c)).

Record PullerConfig := mkPullerConfig {
  pu_listen : string;
  pu_db_path : string;
  pu_s3 : S3Config;
  pu_store_dir : string;
  pu_presign_ttl_secs : Z;
  pu_metrics_listen : string;
  pu_browse_oidc : option IssuerConfig;
  pu_bump_debounce_secs : Z;
  pu_db_wait_timeout_secs : Z;
  pu_db_read_budget_ms : Z;
  pu_presign_budget_ms : Z;
}.

Definition puller_validate (c : PullerConfig) : Result () string :=
  let? _ := s3_validate (pu_s3 c) in
  if negb ((1 <=? pu_presign_ttl_secs c) && (pu_presign_ttl_secs c <=? 604800))%Z
  then Err ("presign_ttl_secs must be between 1 and 604800, got " +:+ pretty (pu_presign_ttl_secs c))
  else if (pu_db_read_budget_ms c =? 0)%Z then Err "db_read_budget_ms must be at least 1"
  else if (pu_presign_budget_ms c =? 0)%Z then Err "presign_budget_ms must be at least 1"
  else if (pu_bump_debounce_secs c <? 0)%Z then Err "bump_debounce_secs must not be negative"
  else if (pu_db_wait_timeout_secs c =? 0)%Z then Err "db_wait_timeout_secs must be at least 1"
  else match pu_browse_oidc c with
       | Some issuer => map_err (λ e, "browse_oidc: " +:+ e) (issuer_validate issuer)
       | None => Ok tt
       end.

(** [load]: the file's text, its parse, its validation. *)
Definition load {T} (from_str : string → Result T string) (validate : T → Result () string)
    (path : string) (text : Result string string) : Result T string :=
  let? text := map_err (λ e, "reading config " +:+ path +:+ ": " +:+ e) text in
  let? config := map_err (λ e, "parsing config " +:+ path +:+ ": " +:+ e) (from_str text) in
  let? _ := validate config in
  Ok config.
End validation.

(** ** What validation accepts *)

Record s3_acceptable (c : S3Config) : Prop := {
  sa_credentials : is_Some (s3_access_key_id c) ↔ is_Some (s3_secret_access_key c);
  sa_timeout : (1 ≤ s3_operation_timeout_secs c)%Z;
  sa_attempt : ∀ a, s3_operation_attempt_timeout_secs c = Some a → (1 ≤ a < s3_operation_timeout_secs c)%Z;
}.

(** A URL whose answers cannot be forged on the way. *)
Definition safe_url `{U : UrlParser} (url : string) : Prop :=
  ∃ scheme host, url_parse url = Some (scheme, Some host) ∧
    (scheme = "https" ∨ (scheme = "http" ∧ host ∈ ["localhost"; "127.0.0.1"; "[::1]"])).

Record issuer_acceptable `{U : UrlParser} (c : IssuerConfig) : Prop := {
  ia_audience : is_audience c ≠ "";
  ia_scoped : is_issuer c = GITHUB_ISSUER → is_Some (is_github_owner_id c) ∨ is_repository_ids c ≠ [];
  ia_keys : match is_jwks_url c with
            | Some url => is_remote_url url = true → safe_url url
            | None => safe_url (is_issuer c)
            end;
}.

Record gc_acceptable (gc : GcConfig) : Prop := {
  ga_quota : (1 ≤ gc_quota_bytes gc)%Z;
  ga_interval : (1 ≤ gc_interval_secs gc)%Z;
  ga_high : in_range (gc_high_watermark gc) = true;
  ga_low : in_range (gc_low_watermark gc) = true;
  ga_order : SFltb (gc_low_watermark gc) (gc_high_watermark gc) = true;
}.

Record pusher_acceptable `{U : UrlParser} (c : PusherConfig) : Prop := {
  pa_part_size : (MIN_PART_SIZE ≤ li_part_size (pc_limits c) ≤ MAX_PART_SIZE)%Z;
  pa_in_flight : (li_part_size (pc_limits c) ≤ li_max_in_flight_bytes (pc_limits c))%Z;
  pa_uploads : (1 ≤ li_max_concurrent_uploads (pc_limits c))%Z;
  pa_parts : (1 ≤ li_max_parts_in_flight (pc_limits c))%Z;
  pa_s3 : s3_acceptable (pc_s3 c);
  pa_idle : (1 ≤ li_body_idle_timeout_secs (pc_limits c))%Z;
  pa_gc : ∀ gc, pc_gc c = Some gc → gc_acceptable gc;
  pa_issuer : pc_oidc c ≠ [];
  pa_issuers : Forall issuer_acceptable (pc_oidc c);
}.

(** The integers of a parsed file are unsigned. *)
Record s3_unsigned (c : S3Config) : Prop := {
  su_timeout : (0 ≤ s3_operation_timeout_secs c)%Z;
  su_attempt : ∀ a, s3_operation_attempt_timeout_secs c = Some a → (0 ≤ a)%Z;
}.

Record pusher_unsigned (c : PusherConfig) : Prop := {
  pn_uploads : (0 ≤ li_max_concurrent_uploads (pc_limits c))%Z;
  pn_in_flight : (0 ≤ li_max_in_flight_bytes (pc_limits c) ≤ u64_max)%Z;
  pn_parts : (0 ≤ li_max_parts_in_flight (pc_limits c))%Z;
  pn_idle : (0 ≤ li_body_idle_timeout_secs (pc_limits c))%Z;
  pn_s3 : s3_unsigned (pc_s3 c);
  pn_gc : ∀ gc, pc_gc c = Some gc → (0 ≤ gc_quota_bytes gc ∧ 0 ≤ gc_interval_secs gc)%Z;
}.

Lemma map_err_ok {T E F} (f : E → F) (r : Result T E) v : map_err f r = Ok v ↔ r = Ok v.
Proof. destruct r; simpl; split; congruence. Qed.

(** A chain of refusals, then the rest. *)
Lemma guard_ok {T E} (b : bool) (e : E) (r : Result T E) v :
  (if b then Err e else r) = Ok v ↔ b = false ∧ r = Ok v.
Proof. destruct b; naive_solver. Qed.

Lemma then_ok {T E} (r : Result () E) (k : Result T E) v :
  (let? _ := r in k) = Ok v ↔ r = Ok tt ∧ k = Ok v.
Proof. destruct r as [[]|]; naive_solver. Qed.

Lemma all_ok_ok {A} (check : A → Result () string) l :
  all_ok check l = Ok tt ↔ Forall (λ a, check a = Ok tt) l.
Proof.
  induction l as [|a l IH]; cbn [all_ok]; [by split|]. by rewrite then_ok, IH, Forall_cons.
Qed.

Lemma s3_validate_ok c : s3_unsigned c → s3_validate c = Ok tt ↔ s3_acceptable c.
Proof.
  intros [Ht Ha]. unfold s3_validate. rewrite !guard_ok, negb_false_iff, Bool.eqb_true_iff, Z.eqb_neq.
  assert (Hc : bool_decide (is_Some (s3_access_key_id c)) = bool_decide (is_Some (s3_secret_access_key c)) ↔
    (is_Some (s3_access_key_id c) ↔ is_Some (s3_secret_access_key c))).
  { repeat case_bool_decide; naive_solver. }
  rewrite Hc. split.
  - intros (Hcred & Hto & Hat). split; [done|lia|]. intros a Hsome. specialize (Ha _ Hsome).
    rewrite Hsome, guard_ok, orb_false_iff, Z.eqb_neq, Z.leb_gt in Hat. lia.
  - intros [Hcred Hto Hat]. split_and!; [done|lia|].
    destruct (s3_operation_attempt_timeout_secs c) as [a|]; [|done]. specialize (Hat _ eq_refl).
    rewrite guard_ok, orb_false_iff, Z.eqb_neq, Z.leb_gt. split; [lia|done].
Qed.

Lemma check_remote_url_ok `{U : UrlParser} url : check_remote_url url = Ok tt ↔ safe_url url.
Proof.
  unfold check_remote_url, safe_url. destruct (url_parse url) as [[scheme [host|]]|]; cbn [ok_or];
    [|naive_solver..].
  repeat case_bool_decide; naive_solver.
Qed.

Lemma is_nil_false {A} (l : list A) : is_nil l = false ↔ l ≠ [].
Proof. by destruct l. Qed.

Lemma is_none_false {A} (o : option A) : is_none o = false ↔ is_Some o.
Proof. destruct o; simpl; [|split; [done|by intros [? ?]]]. split; [by eexists|done]. Qed.

Lemma issuer_validate_ok `{U : UrlParser} c : issuer_validate c = Ok tt ↔ issuer_acceptable c.
Proof.
  unfold issuer_validate. rewrite !guard_ok, map_err_ok, bool_decide_eq_false, !andb_false_iff,
    bool_decide_eq_false, is_none_false, is_nil_false.
  assert (Hkeys : (match is_jwks_url c with
    | Some url => if is_remote_url url then check_remote_url url else Ok tt
    | None => check_remote_url (is_issuer c) end) = Ok tt ↔
    match is_jwks_url c with Some url => is_remote_url url = true → safe_url url | None => safe_url (is_issuer c) end).
  { destruct (is_jwks_url c) as [url|]; [|apply check_remote_url_ok].
    destruct (is_remote_url url); [rewrite check_remote_url_ok; naive_solver|naive_solver]. }
  rewrite Hkeys. split; [intros (? & Hs & ?)|intros [? Hs ?]]; split_and?; try done.
  - split; [done|naive_solver|done].
  - destruct (decide (is_issuer c = GITHUB_ISSUER)) as [He|]; [|naive_solver].
    destruct (Hs He); naive_solver.
Qed.

Lemma in_range_finite w : in_range w = true → ∃ m e, w = S754_finite false m e.
Proof.
  unfold in_range. rewrite andb_true_iff. destruct w as [s|s| |s m e]; intros [Hlt Hle].
  - by destruct s.
  - destruct s; [done|]. by vm_compute in Hle.
  - done.
  - destruct s; [done|]. by eexists _, _.
Qed.

Lemma in_range_order x y : in_range x = true → in_range y = true → SFltb x y = negb (SFleb y x).
Proof.
  intros (m & e & ->)%in_range_finite (m' & e' & ->)%in_range_finite.
  unfold SFltb, SFleb, SFcompare. rewrite (Z.compare_antisym e' e).
  destruct (e' ?= e)%Z; cbn [CompOpp]; [|done..].
  change (Pos.compare_cont Eq m m') with (m ?= m')%positive. change (Pos.compare_cont Eq m' m) with (m' ?= m)%positive.
  rewrite (Pos.compare_antisym m' m). by destruct (m' ?= m)%positive.
Qed.

Lemma gc_validate_ok gc :
  (0 ≤ gc_quota_bytes gc ∧ 0 ≤ gc_interval_secs gc)%Z → gc_validate gc = Ok tt ↔ gc_acceptable gc.
Proof.
  intros Hu. unfold gc_validate. rewrite !guard_ok, !negb_false_iff, !Z.eqb_neq. split.
  - intros (? & ? & Hh & Hl & Hle & _). split; [lia|lia|done|done|]. by rewrite in_range_order, Hle.
  - intros [? ? Hh Hl Hlt]. rewrite in_range_order, negb_true_iff in Hlt by done.
    split_and!; [lia|lia|done..].
Qed.

(** The Pusher's configuration is accepted exactly when every limit, watermark, timeout and issuer
    is in range, and an accepted one gives an upload pool with at least one part slot whose units
    overshoot the configured bytes by less than a unit. *)
Theorem pusher_validate_exact `{U : UrlParser} c :
  pusher_unsigned c →
  (pusher_validate c = Ok tt ↔ pusher_acceptable c) ∧
  (pusher_acceptable c →
    let l := pc_limits c in
    let limits := upload_limits (li_part_size l) (li_max_parts_in_flight l) (li_max_in_flight_bytes l) in
    (0 < part_size limits)%Z ∧ (1 ≤ total_slots limits)%Z ∧
    (total_units limits * unit_ limits ≤ li_max_in_flight_bytes l + unit_ limits)%Z).
Proof.
  intros [Hup Hif Hparts Hidle Hs3 Hgcu]. split.
  - unfold pusher_validate. rewrite !guard_ok, then_ok, guard_ok, then_ok, guard_ok, map_err_ok, all_ok_ok.
    rewrite negb_false_iff, andb_true_iff, !Z.leb_le, Z.ltb_ge, !Z.eqb_neq, s3_validate_ok, is_nil_false by done.
    assert (Hgc : (match pc_gc c with Some gc => gc_validate gc | None => Ok tt end) = Ok tt ↔
      ∀ gc, pc_gc c = Some gc → gc_acceptable gc).
    { destruct (pc_gc c) as [gc|]; [|naive_solver]. rewrite gc_validate_ok by by apply Hgcu. naive_solver. }
    rewrite Hgc. setoid_rewrite issuer_validate_ok. split.
    + intros (? & ? & ? & ? & ? & ? & ? & ? & ?). split; try done; lia.
    + intros []. split_and!; try done; lia.
  - intros [Hps Hmem _ _ _ _ _ _ _] l limits. fold l in Hps, Hmem, Hif. unfold u64_max, MIN_PART_SIZE, MAX_PART_SIZE in *.
    destruct (upload_pool (li_part_size l) (li_max_parts_in_flight l) (li_max_in_flight_bytes l))
      as (shift & [Hsh Hunit] & _ & _ & _ & Hbytes & Hslots); [lia|lia|].
    split_and!; [unfold limits; simpl; lia|done|].
    fold limits in Hbytes, Hunit. assert (0 < 2 ^ shift)%Z by (apply Z.pow_pos_nonneg; lia). lia.
Qed.

(** ** Examples *)

(** Enough of a URL parser for the examples. *)
Definition toy_url : UrlParser := λ url,
  match strip_prefix "https://" url with
  | Some rest => Some ("https", Some (split_first "/" rest))
  | None =>
      match strip_prefix "http://" url with
      | Some rest => Some ("http", Some (split_first "/" rest))
      | None => None
      end
  end.

Definition github_issuer : IssuerConfig :=
  mkIssuer GITHUB_ISSUER "garret" [] None None (Some "1234") ["refs/heads/main"] None [] [] [] [].

Definition example_config : PusherConfig :=
  mkPusherConfig "127.0.0.1:8080" "/var/lib/garret.db"
    (mkS3Config "nar" None None true None None 60 None false) "/nix/store" ["/run/key"] None
    [github_issuer] limits_default
    (Some (mkGcConfig 1000000 high_watermark low_watermark 300 86400)) None "127.0.0.1:9091".

Lemma example_config_unsigned : pusher_unsigned example_config.
Proof. split; try (vm_compute; intuition discriminate); [by split|]. intros gc [= <-]. by vm_compute. Qed.

Lemma pusher_validate_exact_witness :
  pusher_acceptable (U := toy_url) example_config ∧
  (1 ≤ total_slots (upload_limits (16 * 1024 * 1024) 4 (256 * 1024 * 1024)))%Z.
Proof.
  destruct (pusher_validate_exact (U := toy_url) example_config example_config_unsigned) as [Hok Hpool].
  assert (pusher_acceptable (U := toy_url) example_config) as Ha by by apply Hok.
  split; [done|]. apply Hpool. exact Ha.
Defined.

(** The quota's two marks, and a NaN watermark refused. *)
Example watermarks_rounded :
  gc_high_bytes (mkGcConfig 1000000 high_watermark low_watermark 300 86400) = 950000%Z ∧
  gc_low_bytes (mkGcConfig 1000000 high_watermark low_watermark 300 86400) = 850000%Z ∧
  is_ok (gc_validate (mkGcConfig 1000000 S754_nan low_watermark 300 86400)) = false.
Proof. by vm_compute. Qed.
