(* ===== verification/Auth.v ===== *)
(** * Auth: OIDC validation, issuer policy and the key cache

    [crates/garret-server/src/auth.rs]. JWT decoding, base64 and JSON are
    parameters ([Jwt]). A verification is a [Prog] over the issuer's key cache;
    the cache and its refresh floor are a state machine of their own. Times are
    seconds. The escaping of reasons for the log and the labels are in Metrics. *)

From S2P Require Import Prelude Text Net Common InFlight Prog Storage Config.

(** ** Tokens *)

Definition LEEWAY_SECS : Z := 60.
Definition MIN_REFRESH : Z := 10.
Definition KEY_TTL : Z := 3600.

Record Claims := mkClaims {
  cl_iss : string;
  cl_sub : string;
  cl_groups : list string;
  cl_ref_protected : option string;
  cl_repository_owner_id : option string;
  cl_git_ref : option string;
  cl_repository_id : option string;
  cl_event_name : option string;
  cl_job_workflow_ref : option string;
  cl_repository : option string;
}.

(** What the code asks [jsonwebtoken] to check. *)
Record Validation := mkValidation {
  va_algorithm : string;
  va_issuer : list string;
  va_audience : list string;
  va_leeway : Z;
  va_required : list string;
  va_nbf : bool;
}.

Definition validation_for (cfg : IssuerConfig) : Validation :=
  mkValidation "RS256" [is_issuer cfg] (is_audience cfg :: is_extra_audiences cfg) LEEWAY_SECS
    ["exp"; "aud"; "iss"] true.

(** The libraries under the token check: the header's [kid], the claims a
    token carries under a key, URL-safe base64, the [iss] of a JSON payload, the
    usable keys of a JWKS document. *)
Class Jwt := {
  Key : Type;
  decode_header : string → Result (option string) string;
  decode_claims : string → Key → Validation → Result Claims string;
  base64_url : string → Result (list Z) string;
  only_iss : list Z → Result string string;
  jwks_keys : string → Result (list (string * Key)) string;
}.

(** ** Policy *)

Inductive Gate :=
  | Gate_Owner | Gate_Ref | Gate_RefProtected | Gate_RepositoryId | Gate_EventName
  | Gate_JobWorkflowRef | Gate_Group.

Definition gate_as_str (g : Gate) : string :=
  match g with
  | Gate_Owner => "owner"
  | Gate_Ref => "ref"
  | Gate_RefProtected => "ref_protected"
  | Gate_RepositoryId => "repository_id"
  | Gate_EventName => "event_name"
  | Gate_JobWorkflowRef => "job_workflow_ref"
  | Gate_Group => "group"
  end.

Definition ref_matches (pattern git_ref : string) : bool :=
  match strip_suffix "*" pattern with
  | Some prefix => starts_with prefix git_ref
  | None => bool_decide (pattern = git_ref)
  end.

Definition str_eq (a c : string) : bool := bool_decide (a = c).

Definition allowlisted (allowed : list string) (claim : option string) (gate : Gate)
    (matches : string → string → bool) : Result () (Gate * string) :=
  if is_nil allowed then Ok tt
  else
    let name := gate_as_str gate in
    let? value := ok_or claim (gate, "token has no " +:+ name) in
    if negb (existsb (λ a, matches a value) allowed)
    then Err (gate, name +:+ " " +:+ value +:+ " is not authorized")
    else Ok tt.

Definition authorize (cfg : IssuerConfig) (claims : Claims) : Result () (Gate * string) :=
  let? _ := match is_github_owner_id cfg with
            | Some expected =>
                let? owner := ok_or (cl_repository_owner_id claims)
                                (Gate_Owner, "token has no repository_owner_id") in
                if bool_decide (owner ≠ expected)
                then Err (Gate_Owner, "repository owner " +:+ owner +:+ " is not authorized") else Ok tt
            | None => Ok tt
            end in
  let? _ := allowlisted (is_ref_patterns cfg) (cl_git_ref claims) Gate_Ref ref_matches in
  let? _ := match is_ref_protected cfg with
            | Some expected =>
                let? actual := ok_or (cl_ref_protected claims) (Gate_RefProtected, "token has no ref_protected") in
                if bool_decide (actual ≠ if expected : bool then "true" else "false")
                then Err (Gate_RefProtected, "ref protection status " +:+ actual +:+ " is not authorized")
                else Ok tt
            | None => Ok tt
            end in
  let? _ := allowlisted (is_repository_ids cfg) (cl_repository_id claims) Gate_RepositoryId str_eq in
  let? _ := allowlisted (is_event_names cfg) (cl_event_name claims) Gate_EventName str_eq in
  let? _ := allowlisted (is_job_workflow_refs cfg) (cl_job_workflow_ref claims) Gate_JobWorkflowRef ref_matches in
  let? _ := match is_nil (is_job_workflow_refs cfg), cl_job_workflow_ref claims with
            | false, Some jwr =>
                let? repository := ok_or (cl_repository claims) (Gate_JobWorkflowRef, "token has no repository") in
                if is_none (rest ← strip_prefix repository jwr; strip_prefix "/" rest)
                then Err (Gate_JobWorkflowRef, "job_workflow_ref " +:+ jwr +:+ " is not from the token's repository")
                else Ok tt
            | _, _ => Ok tt
            end in
  if negb (is_nil (is_allowed_groups cfg)) &&
     negb (existsb (λ g, bool_decide (g ∈ is_allowed_groups cfg)) (cl_groups claims))
  then Err (Gate_Group, "subject is not in an allowed group")
  else Ok tt.

(** ** Verdicts *)

Inductive AuthOutcome :=
  | Auth_Accepted | Auth_Malformed | Auth_UntrustedIssuer | Auth_UnknownKey | Auth_JwksUnavailable
  | Auth_Invalid | Auth_Unauthorized (gate : Gate).

Definition outcome_as_str (o : AuthOutcome) : string :=
  match o with
  | Auth_Accepted => "accepted"
  | Auth_Malformed => "malformed"
  | Auth_UntrustedIssuer => "untrusted_issuer"
  | Auth_UnknownKey => "unknown_key"
  | Auth_JwksUnavailable => "jwks_unavailable"
  | Auth_Invalid => "invalid"
  | Auth_Unauthorized _ => "unauthorized"
  end.

Record Refusal := mkRefusal {
  rf_outcome : AuthOutcome;
  rf_error : string;
}.

Inductive Rejection := Rej_Missing | Rej_Invalid (reason : string) | Rej_Refused (reason : string).

(** [Rejection::respond]: the status, and whether it carries
    [WWW-Authenticate: Bearer]. *)
Definition respond (r : Rejection) : Z * bool :=
  match r with
  | Rej_Refused _ => (403%Z, false)
  | Rej_Missing | Rej_Invalid _ => (401%Z, true)
  end.

Section verify.
Context `{J : Jwt}.

(** What a verification asks of an issuer's state. *)
Inductive AuthOp : Type → Type :=
  | Auth_CachedKey (issuer kid : string) : AuthOp (option Key * bool)
  | Auth_Refresh (issuer : string) : AuthOp bool (* whether there is an attempt to wait for *)
  | Auth_Await (issuer : string) : AuthOp (Result () string).

Definition unverified_issuer (token : string) : Result string string :=
  let? payload := ok_or (str_split "." token !! 1) "malformed token" in
  let? bytes := base64_url payload in
  map_err (λ e, "token payload has no issuer: " +:+ e) (only_iss bytes).

(** [Authenticator::route]. *)
Definition route (issuers : list IssuerConfig) (token : string) : Result IssuerConfig Refusal :=
  let? issuer_name := map_err (mkRefusal Auth_Malformed) (unverified_issuer token) in
  ok_or (snd <$> list_find (λ i, is_issuer i = issuer_name) issuers)
    (mkRefusal Auth_UntrustedIssuer "untrusted issuer").

Definition signing_key (cfg : IssuerConfig) (kid : string) : Prog AuthOp (Result Key Refusal) :=
  do cached <- request (Auth_CachedKey (is_issuer cfg) kid);
  match cached with
  | (Some key, true) => do _ <- request (Auth_Refresh (is_issuer cfg)); Ret (Ok key)
  | (Some key, false) => Ret (Ok key)
  | (None, _) =>
      do attempt <- request (Auth_Refresh (is_issuer cfg));
      do? _ <- (if attempt : bool
                then do fetched <- request (Auth_Await (is_issuer cfg));
                     Ret (map_err (mkRefusal Auth_JwksUnavailable) fetched)
                else Ret (Ok tt));
      do again <- request (Auth_CachedKey (is_issuer cfg) kid);
      Ret (ok_or again.1 (mkRefusal Auth_UnknownKey ("no signing key for kid " +:+ kid)))
  end.

Definition verify_token (cfg : IssuerConfig) (token : string) : Prog AuthOp (Result string Refusal) :=
  match map_err (mkRefusal Auth_Malformed)
          (let? kid := map_err (λ e, "malformed token header: " +:+ e) (decode_header token) in
           ok_or kid "token has no kid") with
  | Err e => Ret (Err e)
  | Ok kid =>
      do? key <- signing_key cfg kid;
      Ret (let? claims := map_err (λ e, mkRefusal Auth_Invalid ("token failed validation: " +:+ e))
                            (decode_claims token key (validation_for cfg)) in
           let? _ := map_err (λ ge, mkRefusal (Auth_Unauthorized ge.1) ge.2) (authorize cfg claims) in
           Ok (cl_iss claims +:+ "#" +:+ cl_sub claims))
  end.

Definition authenticate (issuers : list IssuerConfig) (token : string) : Prog AuthOp (Result string Refusal) :=
  match route issuers token with
  | Ok cfg => verify_token cfg token
  | Err refusal => Ret (Err refusal)
  end.

(** [bearer]: [header] is the [Authorization] header, if it is readable text. *)
Definition bearer (issuers : list IssuerConfig) (header : option string) : Prog AuthOp (Result string Rejection) :=
  match h ← header; strip_prefix "Bearer " h with
  | None => Ret (Err Rej_Missing)
  | Some token =>
      do verdict <- authenticate issuers token;
      Ret (map_err (λ refusal, match rf_outcome refusal with
                               | Auth_Unauthorized _ => Rej_Refused (rf_error refusal)
                               | _ => Rej_Invalid (rf_error refusal)
                               end) verdict)
  end.
End verify.

(** ** Fetching keys *)

Inductive FetchOp : Type → Type :=
  | Fetch_Discovery (url : string) : FetchOp (Result string string) (* its [jwks_uri] *)
  | Fetch_Get (url : string) : FetchOp (Result string string)
  | Fetch_Read (path : string) : FetchOp (Result string string).

Definition jwks_url (cfg : IssuerConfig) : Prog FetchOp (Result string string) :=
  match is_jwks_url cfg with
  | Some url => Ret (Ok url)
  | None =>
      request (Fetch_Discovery (trim_end_matches "/" (is_issuer cfg) +:+ "/.well-known/openid-configuration"))
  end.

Definition fetch_keys `{J : Jwt, U : UrlParser} (cfg : IssuerConfig)
    : Prog FetchOp (Result (list (string * Key)) string) :=
  do? url <- jwks_url cfg;
  do? body <- (if is_remote_url url then
                 match check_remote_url url with
                 | Err e => Ret (Err e)
                 | Ok _ => request (Fetch_Get url)
                 end
               else if negb (is_none (is_jwks_url cfg)) then request (Fetch_Read url)
               else Ret (Err "discovery returned a non-http jwks_uri"));
  Ret (map_err (λ e, "malformed JWKS: " +:+ e) (jwks_keys body)).

(** ** The key cache *)

Section cache.
Context {K : Type}.

Record Issuer := mkIssuerState {
  ic_by_kid : gmap string K;
  ic_expires_at : option Z;
  ic_in_flight : bool;
  ic_next_attempt : option Z;
}.

Definition issuer_new : Issuer := mkIssuerState ∅ None false None.

Definition cached_key (s : Issuer) (kid : string) (now : Z) : option K * bool :=
  (ic_by_kid s !! kid, match ic_expires_at s with None => true | Some t => (t <=? now)%Z end).

Inductive Refreshed := Refresh_Joined | Refresh_Started | Refresh_Held.

Definition refresh (s : Issuer) (now : Z) : Issuer * Refreshed :=
  if ic_in_flight s then (s, Refresh_Joined)
  else if match ic_next_attempt s with Some t => (now <? t)%Z | None => false end then (s, Refresh_Held)
  else (mkIssuerState (ic_by_kid s) (ic_expires_at s) true (ic_next_attempt s), Refresh_Started).

(** The end of the attempt's task: keys stored at [fetched], state at [ended]. *)
Definition complete (s : Issuer) (fetched ended : Z) (outcome : Result (gmap string K) string) : Issuer :=
  match outcome with
  | Ok by_kid => mkIssuerState by_kid (Some (fetched + KEY_TTL)%Z) false (Some (ended + MIN_REFRESH)%Z)
  | Err _ => mkIssuerState (ic_by_kid s) (ic_expires_at s) false (Some (ended + MIN_REFRESH)%Z)
  end.
End cache.
Arguments Issuer K : clear implicits.

(** ** The policy, said plainly *)

(** A pattern is a literal, or a prefix ended by one star. *)
Definition pattern_admits (pattern value : string) : Prop :=
  (∃ prefix rest, pattern = prefix +:+ "*" ∧ value = prefix +:+ rest) ∨
  ((∀ prefix, pattern ≠ prefix +:+ "*") ∧ pattern = value).

(** An empty allowlist is off; another needs the claim, and a match. *)
Definition listed (admits : string → string → Prop) (allowed : list string) (claim : option string) : Prop :=
  allowed = [] ∨ ∃ value pattern, claim = Some value ∧ pattern ∈ allowed ∧ admits pattern value.

Record granted (cfg : IssuerConfig) (claims : Claims) : Prop := {
  gr_owner : ∀ owner, is_github_owner_id cfg = Some owner → cl_repository_owner_id claims = Some owner;
  gr_ref : listed pattern_admits (is_ref_patterns cfg) (cl_git_ref claims);
  gr_protected : ∀ b, is_ref_protected cfg = Some b →
    cl_ref_protected claims = Some (if b : bool then "true" else "false");
  gr_repository : listed eq (is_repository_ids cfg) (cl_repository_id claims);
  gr_event : listed eq (is_event_names cfg) (cl_event_name claims);
  gr_workflow : listed pattern_admits (is_job_workflow_refs cfg) (cl_job_workflow_ref claims);
  gr_own_workflow : ∀ jwr, is_job_workflow_refs cfg ≠ [] → cl_job_workflow_ref claims = Some jwr →
    ∃ repository rest, cl_repository claims = Some repository ∧ jwr = repository +:+ "/" +:+ rest;
  gr_group : is_allowed_groups cfg = [] ∨ ∃ g, g ∈ cl_groups claims ∧ g ∈ is_allowed_groups cfg;
}.

Lemma starts_with_spec p s : starts_with p s = true ↔ ∃ rest, s = p +:+ rest.
Proof.
  unfold starts_with. rewrite bool_decide_eq_true. split.
  - intros [rest H%strip_prefix_Some]. by exists rest.
  - intros [rest ->]. exists rest. by apply strip_prefix_Some.
Qed.

Lemma ref_matches_spec pattern value : ref_matches pattern value = true ↔ pattern_admits pattern value.
Proof.
  unfold ref_matches, pattern_admits. destruct (strip_suffix "*" pattern) as [prefix|] eqn:E.
  - apply strip_suffix_Some in E as ->. rewrite starts_with_spec. split.
    + intros [rest ->]. left. by exists prefix, rest.
    + intros [(p & rest & Hp%str_app_inv_tail & ->)|[Hno _]]; [subst; by exists rest|by destruct (Hno prefix)].
  - rewrite bool_decide_eq_true. assert (Hno : ∀ prefix, pattern ≠ prefix +:+ "*").
    { intros prefix ->. assert (strip_suffix "*" (prefix +:+ "*") = Some prefix); [by apply strip_suffix_Some|congruence]. }
    split; [by right|]. intros [(p & rest & -> & _)|[_ ?]]; [by destruct (Hno p)|done].
Qed.

Lemma str_eq_spec a c : str_eq a c = true ↔ a = c.
Proof. apply bool_decide_eq_true. Qed.

Lemma allowlisted_ok allowed claim gate matches (admits : string → string → Prop) :
  (∀ p v, matches p v = true ↔ admits p v) →
  allowlisted allowed claim gate matches = Ok tt ↔ listed admits allowed claim.
Proof.
  intros Hm. unfold allowlisted, listed. destruct allowed as [|a l]; [naive_solver|]. cbn [is_nil].
  destruct claim as [v|]; cbn [ok_or].
  2: { split; [done|]. by intros [|(? & ? & ? & _)]. }
  rewrite guard_ok, negb_false_iff, existsb_exists. setoid_rewrite <-list_elem_of_In.
  setoid_rewrite Hm. naive_solver.
Qed.

(** A configured value the claim must have. *)
Lemma expected_ok {A} (expected : option A) (show : A → string) (claim : option string) gate e1 (e2 : string → string) :
  (match expected with
   | Some x =>
       let? v := ok_or claim (gate, e1) in
       if bool_decide (v ≠ show x) then Err (gate, e2 v) else Ok tt
   | None => Ok tt
   end : Result () (Gate * string)) = Ok tt ↔
  ∀ x, expected = Some x → claim = Some (show x).
Proof.
  destruct expected as [x|]; [|naive_solver]. destruct claim as [v|]; cbn [ok_or]; [|naive_solver].
  case_bool_decide; naive_solver.
Qed.

Lemma own_workflow_ok refs (claim repository : option string) e1 (e2 : string → Gate * string) :
  (match is_nil refs, claim with
   | false, Some jwr =>
       let? repository := ok_or repository e1 in
       if is_none (rest ← strip_prefix repository jwr; strip_prefix "/" rest) then Err (e2 jwr) else Ok tt
   | _, _ => Ok tt
   end : Result () (Gate * string)) = Ok tt ↔
  ∀ jwr, refs ≠ ([] : list string) → claim = Some jwr →
    ∃ r rest, repository = Some r ∧ jwr = r +:+ "/" +:+ rest.
Proof.
  destruct refs as [|ref refs]; cbn [is_nil]; [naive_solver|]. destruct claim as [jwr|]; [|naive_solver].
  destruct repository as [r|]; cbn [ok_or].
  2: { split; [done|]. intros H. by destruct (H jwr) as (? & ? & ? & _). }
  rewrite guard_ok, is_none_false. split.
  - intros [[rest (mid & Hp%strip_prefix_Some & Hs%strip_prefix_Some)%bind_Some] _] ? _ [= <-].
    exists r, rest. by subst.
  - intros H. destruct (H jwr) as (? & rest & [= <-] & ->); [done..|]. split; [|done]. exists rest.
    apply bind_Some. exists ("/" +:+ rest). split; by apply strip_prefix_Some.
Qed.

Lemma groups_ok (allowed groups : list string) :
  negb (is_nil allowed) && negb (existsb (λ g, bool_decide (g ∈ allowed)) groups) = false ↔
  allowed = [] ∨ ∃ g, g ∈ groups ∧ g ∈ allowed.
Proof.
  destruct allowed as [|a l]; cbn [is_nil negb andb]; [naive_solver|].
  rewrite negb_false_iff, existsb_exists. setoid_rewrite <-list_elem_of_In.
  setoid_rewrite bool_decide_eq_true. naive_solver.
Qed.

Lemma authorize_granted cfg claims : authorize cfg claims = Ok tt ↔ granted cfg claims.
Proof.
  unfold authorize. rewrite !then_ok, guard_ok, groups_ok.
  rewrite !(allowlisted_ok _ _ _ _ _ ref_matches_spec), !(allowlisted_ok _ _ _ _ _ str_eq_spec).
  rewrite own_workflow_ok, (expected_ok _ id), (expected_ok _ (λ b : bool, if b then "true" else "false")).
  split.
  - intros (? & ? & ? & ? & ? & ? & ? & ? & _). by split.
  - intros []. by split_and!.
Qed.

(** C39: authorize grants exactly the claims the issuer's configuration allows: owner, refs,
    repositories, events, workflows of the token's own repository, groups. *)
Theorem authorize_exact cfg claims :
  match authorize cfg claims with
  | Ok _ => granted cfg claims
  | Err _ => ¬ granted cfg claims
  end.
Proof.
  pose proof (authorize_granted cfg claims) as Hg.
  destruct (authorize cfg claims) as [[]|e]; [by apply Hg|]. by intros ?%Hg.
Qed.

(** Under a configuration that validates, no GitHub token is authorised without its repository
    owner or its repository being one the configuration names. *)
Theorem github_tokens_are_scoped `{U : UrlParser} cfg claims :
  issuer_validate cfg = Ok tt → is_issuer cfg = GITHUB_ISSUER → authorize cfg claims = Ok tt →
  (∃ owner, is_github_owner_id cfg = Some owner ∧ cl_repository_owner_id claims = Some owner) ∨
  (∃ repository, repository ∈ is_repository_ids cfg ∧ cl_repository_id claims = Some repository).
Proof.
  intros [_ Hscoped _]%issuer_validate_ok Hissuer Hg%authorize_granted.
  destruct (Hscoped Hissuer) as [[owner Ho]|Hr].
  - left. exists owner. split; [done|]. by apply (gr_owner _ _ Hg).
  - right. destruct (gr_repository _ _ Hg) as [?|(v & p & Hv & Hp & <-)]; [done|]. by exists p.
Qed.

(** ** Verdicts *)

Section verdicts.
Context `{J : Jwt}.

Lemma run_trace_bind_result {Op : Type → Type} {A B E} (p : Prog Op (Result A E)) (f : A → Prog Op (Result B E)) tr r :
  run_trace (do? x <- p; f x) tr r →
  ∃ a tr1 tr2, tr = tr1 ++ tr2 ∧ run_trace p tr1 a ∧
    match a with Ok x => run_trace (f x) tr2 r | Err e => tr2 = [] ∧ r = Err e end.
Proof.
  intros (a & tr1 & tr2 & -> & Hp & Hf)%run_trace_bind. exists a, tr1, tr2. split_and!; [done..|].
  destruct a as [x|e]; [done|]. by apply run_trace_ret in Hf.
Qed.

Lemma signing_key_cached cfg kid tr key :
  run_trace (signing_key cfg kid) tr (Ok key) →
  ∃ expired, Ev (Auth_CachedKey (is_issuer cfg) kid) (Some key, expired) ∈ tr.
Proof.
  unfold signing_key. intros ([[k|] expired] & tr1 & -> & H)%run_trace_request_bind.
  - exists expired. destruct expired.
    + apply run_trace_request_bind in H as (? & ? & -> & [_ [= <-]]%run_trace_ret). by left.
    + apply run_trace_ret in H as [_ [= <-]]. by left.
  - apply run_trace_request_bind in H as (attempt & tr2 & -> & H).
    apply run_trace_bind_result in H as (a & tr3 & tr4 & -> & _ & H).
    destruct a; [|by destruct H].
    apply run_trace_request_bind in H as ([[k|] e'] & tr5 & -> & [-> Hr]%run_trace_ret); cbn in Hr; [|done].
    injection Hr as <-. exists e'. set_solver.
Qed.

(** A token's claims as an issuer's cached key vouches for them. *)
Definition vouched (cfg : IssuerConfig) (token : string) (tr : list (Event AuthOp)) (claims : Claims) : Prop :=
  ∃ kid key expired, decode_header token = Ok (Some kid) ∧
    Ev (Auth_CachedKey (is_issuer cfg) kid) (Some key, expired) ∈ tr ∧
    decode_claims token key (validation_for cfg) = Ok claims.

(** The issuer a token names first, if it is a configured one. *)
Definition routed (issuers : list IssuerConfig) (token : string) (cfg : IssuerConfig) : Prop :=
  cfg ∈ issuers ∧ unverified_issuer token = Ok (is_issuer cfg).

Lemma route_Ok issuers token cfg : route issuers token = Ok cfg → routed issuers token cfg.
Proof.
  unfold route, routed. destruct (unverified_issuer token) as [name|]; [|done]. cbn [map_err].
  destruct (list_find _ issuers) as [[i c]|] eqn:E; [|done]. cbn. intros [= <-].
  apply list_find_Some in E as (Hi & <- & _). split; [by eapply list_elem_of_lookup_2|done].
Qed.

Lemma verify_token_verdict cfg token tr r :
  run_trace (verify_token cfg token) tr r →
  match r with
  | Ok subject => ∃ claims, vouched cfg token tr claims ∧ granted cfg claims ∧
      subject = cl_iss claims +:+ "#" +:+ cl_sub claims
  | Err refusal =>
      match rf_outcome refusal with
      | Auth_Unauthorized _ => ∃ claims, vouched cfg token tr claims ∧ ¬ granted cfg claims
      | Auth_Accepted => False
      | _ => True
      end
  end.
Proof.
  unfold verify_token. destruct (decode_header token) as [[kid|]|e] eqn:Hh; cbn [map_err ok_or].
  2,3: by intros [-> ->]%run_trace_ret.
  intros (key & tr1 & tr2 & -> & Hkey & H)%run_trace_bind_result. destruct key as [key|refusal].
  - apply run_trace_ret in H as [-> ->]. rewrite app_nil_r.
    apply signing_key_cached in Hkey as [expired Hcached].
    destruct (decode_claims token key (validation_for cfg)) as [claims|e] eqn:Hd; cbn; [|done].
    assert (Hv : vouched cfg token tr1 claims) by by exists kid, key, expired.
    pose proof (authorize_granted cfg claims) as Hg.
    destruct (authorize cfg claims) as [[]|[gate e]]; cbn.
    + exists claims. split_and!; [done|by apply Hg|done].
    + exists claims. split; [done|]. by intros ?%Hg.
  - destruct H as [-> ->]. revert Hkey. unfold signing_key.
    intros ([[k|] expired] & tr3 & -> & H)%run_trace_request_bind.
    { destruct expired; [apply run_trace_request_bind in H as (? & ? & -> & H)|]; by apply run_trace_ret in H as [_ ?]. }
    apply run_trace_request_bind in H as (attempt & tr4 & -> & H).
    apply run_trace_bind_result in H as (a & tr5 & tr6 & -> & Ha & H). destruct a as [u|refusal'].
    + apply run_trace_request_bind in H as ([[k|] e'] & tr7 & -> & [_ Hr]%run_trace_ret); [done|].
      cbn in Hr. by injection Hr as ->.
    + destruct H as [_ [= ->]]. destruct attempt.
      * apply run_trace_request_bind in Ha as ([?|e] & ? & -> & [_ Hr]%run_trace_ret); [done|].
        by injection Hr as ->.
      * by apply run_trace_ret in Ha as [_ ?].
Qed.
End verdicts.

Lemma bearer_verdict `{J : Jwt} issuers header tr r :
  run_trace (bearer issuers header) tr r →
  match r with
  | Ok subject => ∃ token cfg claims, header = Some ("Bearer " +:+ token) ∧ routed issuers token cfg ∧
      vouched cfg token tr claims ∧ granted cfg claims ∧ subject = cl_iss claims +:+ "#" +:+ cl_sub claims
  | Err Rej_Missing => tr = [] ∧ ∀ token, header ≠ Some ("Bearer " +:+ token)
  | Err (Rej_Refused reason) => respond (Rej_Refused reason) = (403%Z, false) ∧
      ∃ token cfg claims, header = Some ("Bearer " +:+ token) ∧ routed issuers token cfg ∧
        vouched cfg token tr claims ∧ ¬ granted cfg claims
  | Err (Rej_Invalid reason) => respond (Rej_Invalid reason) = (401%Z, true) ∧
      ∃ token, header = Some ("Bearer " +:+ token)
  end.
Proof.
  unfold bearer. destruct (h ← header; strip_prefix "Bearer " h) as [token|] eqn:Hh.
  2: { intros [-> ->]%run_trace_ret. split; [done|]. intros token ->.
       change (strip_prefix "Bearer " ("Bearer " +:+ token) = None) in Hh.
       assert (strip_prefix "Bearer " ("Bearer " +:+ token) = Some token); [by apply strip_prefix_Some|].
       congruence. }
  apply bind_Some in Hh as (h & -> & ->%strip_prefix_Some).
  intros (verdict & tr1 & tr2 & -> & Hrun & [-> ->]%run_trace_ret)%run_trace_bind. rewrite app_nil_r.
  unfold authenticate in Hrun. destruct (route issuers token) as [cfg|refusal] eqn:Hroute.
  - apply route_Ok in Hroute. apply verify_token_verdict in Hrun.
    destruct verdict as [subject|[o e]]; cbn.
    + destruct Hrun as (claims & ? & ? & ?). by exists token, cfg, claims.
    + destruct o; cbn in *; try (split; [done|by exists token]).
      destruct Hrun as (claims & ? & ?). split; [done|]. by exists token, cfg, claims.
  - apply run_trace_ret in Hrun as [-> ->]. cbn. revert Hroute. unfold route.
    destruct (unverified_issuer token) as [name|e]; cbn.
    + destruct (list_find _ issuers) as [[? ?]|]; [done|]. cbn. intros [= <-]. cbn. split; [done|by exists token].
    + intros [= <-]. cbn. split; [done|by exists token].
Qed.

(** bearer accepts only a token routed to a configured issuer, validated under one of that issuer's
    cached keys and granted by its policy; 403 is answered only for a validated token the policy
    does not grant, 401 for the rest. *)
Theorem bearer_verdicts `{J : Jwt} issuers header tr r :
  run_trace (bearer issuers header) tr r →
  match r with
  | Ok subject => ∃ token cfg claims, header = Some ("Bearer " +:+ token) ∧ routed issuers token cfg ∧
      vouched cfg token tr claims ∧ granted cfg claims ∧ subject = cl_iss claims +:+ "#" +:+ cl_sub claims
  | Err Rej_Missing => tr = [] ∧ ∀ token, header ≠ Some ("Bearer " +:+ token)
  | Err (Rej_Refused reason) => respond (Rej_Refused reason) = (403%Z, false) ∧
      ∃ token cfg claims, header = Some ("Bearer " +:+ token) ∧ routed issuers token cfg ∧
        vouched cfg token tr claims ∧ ¬ granted cfg claims
  | Err (Rej_Invalid reason) => respond (Rej_Invalid reason) = (401%Z, true) ∧
      ∃ token, header = Some ("Bearer " +:+ token)
  end.
Proof. apply bearer_verdict. Qed.

(** ** Where keys come from *)

Definition fetch_target (e : Event FetchOp) : option (string + string) :=
  match e with
  | Ev (Fetch_Get url) _ => Some (inl url)
  | Ev (Fetch_Read path) _ => Some (inr path)
  | Ev (Fetch_Discovery _) _ => None
  end.

(** Keys are only fetched over https, from a loopback host, or from the configured file, with
    at most one fetch of a key set per refresh. *)
Theorem keys_come_from_trusted_places `{J : Jwt, U : UrlParser} cfg tr r :
  run_trace (fetch_keys cfg) tr r →
  (∀ url, inl url ∈ omap fetch_target tr → safe_url url ∧
    (is_jwks_url cfg = Some url ∨ is_jwks_url cfg = None)) ∧
  (∀ path, inr path ∈ omap fetch_target tr → is_jwks_url cfg = Some path) ∧
  length (omap fetch_target tr) ≤ 1 ∧
  (is_ok r = true → length (omap fetch_target tr) = 1).
Proof.
  unfold fetch_keys. intros (url & tr1 & tr2 & -> & Hurl & H)%run_trace_bind_result.
  assert (Hno : omap fetch_target tr1 = [] ∧ ∀ u, url = Ok u → is_jwks_url cfg = Some u ∨ is_jwks_url cfg = None).
  { revert Hurl. unfold jwks_url. destruct (is_jwks_url cfg) as [u|].
    - intros [-> ->]%run_trace_ret. split; [done|]. intros ? [= <-]. by left.
    - intros ->%run_trace_request. split; [done|]. by right. }
  destruct Hno as [Hno Hsource]. rewrite omap_app, Hno. cbn [app].
  destruct url as [url|e]; [|destruct H as [-> ->]; set_solver by lia].
  apply run_trace_bind_result in H as (body & tr3 & tr4 & -> & Hbody & H).
  assert (Hrest : omap fetch_target tr4 = []).
  { destruct body; [by apply run_trace_ret in H as [-> _]|by destruct H as [-> _]]. }
  rewrite omap_app, Hrest, app_nil_r.
  destruct (is_remote_url url).
  - destruct (check_remote_url url) as [[]|e] eqn:Hcheck.
    + apply check_remote_url_ok in Hcheck. apply run_trace_request in Hbody as ->. cbn.
      split_and!; [|set_solver|lia|done]. intros u [= ->]%list_elem_of_singleton. split; [done|by apply Hsource].
    + apply run_trace_ret in Hbody as [-> ->]. destruct H as [-> ->]. set_solver by lia.
  - destruct (is_jwks_url cfg) as [u|] eqn:Hcfg; cbn [is_none negb] in Hbody.
    + apply run_trace_request in Hbody as ->. cbn. destruct (Hsource _ eq_refl) as [[= ->]|]; [|done].
      split_and!; [set_solver| |lia|done]. by intros p [= ->]%list_elem_of_singleton.
    + apply run_trace_ret in Hbody as [-> ->]. destruct H as [-> ->]. set_solver by lia.
Qed.

(** ** The refresh floor and the cache *)

Section cache_spec.
Context {K : Type}.

(** A caller that wants a refresh, or the end of the attempt in progress. *)
Inductive CacheEvent :=
  | Cache_Refresh (now : Z)
  | Cache_Complete (fetched ended : Z) (outcome : Result (gmap string K) string).

Definition cache_step (s : Issuer K) (e : CacheEvent) : Issuer K :=
  match e with
  | Cache_Refresh now => (refresh s now).1
  | Cache_Complete fetched ended outcome => complete s fetched ended outcome
  end.

(** When attempts started ([true]) and ended ([false]). *)
Definition cache_log_one (s : Issuer K) (e : CacheEvent) : list (bool * Z) :=
  match e with
  | Cache_Refresh now => match (refresh s now).2 with Refresh_Started => [(true, now)] | _ => [] end
  | Cache_Complete _ ended _ => [(false, ended)]
  end.

Fixpoint cache_log (s : Issuer K) (es : list CacheEvent) : list (bool * Z) :=
  match es with [] => [] | e :: es => cache_log_one s e ++ cache_log (cache_step s e) es end.

(** Time does not run backwards, and only a running attempt ends. *)
Fixpoint cache_events_ok (t : Z) (s : Issuer K) (es : list CacheEvent) : Prop :=
  match es with
  | [] => True
  | e :: es =>
      match e with
      | Cache_Refresh now => (t ≤ now)%Z ∧ cache_events_ok now (cache_step s e) es
      | Cache_Complete fetched ended _ =>
          ic_in_flight s = true ∧ (t ≤ fetched ≤ ended)%Z ∧ cache_events_ok ended (cache_step s e) es
      end
  end.

Definition attempt_spaced (a b : bool * Z) : Prop :=
  match a, b with
  | (true, started), (false, ended) => (started ≤ ended)%Z
  | (false, ended), (true, started) => (ended + MIN_REFRESH ≤ started)%Z
  | _, _ => False
  end.

(** The keys of the last fetch that succeeded, and when. *)
Definition last_fetch (es : list CacheEvent) : option (Z * gmap string K) :=
  last (omap (λ e, match e with Cache_Complete fetched _ (Ok keys) => Some (fetched, keys) | _ => None end) es).

(** What the log's end says of the state. *)
Definition log_state (l : list (bool * Z)) (t : Z) (s : Issuer K) : Prop :=
  match last l with
  | None => ic_in_flight s = false ∧ ic_next_attempt s = None
  | Some (true, started) => ic_in_flight s = true ∧ (started ≤ t)%Z
  | Some (false, ended) => ic_in_flight s = false ∧ ic_next_attempt s = Some (ended + MIN_REFRESH)%Z
  end.

Lemma sorted_snoc {A} (R : relation A) l x :
  Sorted R l → (∀ y, last l = Some y → R y x) → Sorted R (l ++ [x]).
Proof.
  intros Hs Hl. induction l as [|a l IH]; [by repeat constructor|].
  apply Sorted_inv in Hs as [Hs Ha]. cbn [app]. destruct l as [|b l].
  - repeat constructor. by apply Hl.
  - constructor; [apply IH; [done|exact Hl]|]. by inversion Ha; constructor.
Qed.

Lemma log_state_later l t t' s : (t ≤ t')%Z → log_state l t s → log_state l t' s.
Proof.
  unfold log_state. destruct (last l) as [[[|] t0]|]; [|done..]. intros Ht [Hf Hs]. split; [done|lia].
Qed.

Lemma cache_log_spaced es : ∀ past t s,
  Sorted attempt_spaced past → log_state past t s → cache_events_ok t s es →
  Sorted attempt_spaced (past ++ cache_log s es).
Proof.
  induction es as [|e es IH]; intros past t s Hs Hstate Hok; [by rewrite app_nil_r|].
  cbn [cache_log]. rewrite app_assoc. destruct e as [now|fetched ended outcome]; cbn [cache_events_ok] in Hok.
  - destruct Hok as [Ht Hok]. cbn [cache_log_one]. unfold refresh in *. cbn [cache_step] in Hok |- *.
    destruct (ic_in_flight s) eqn:Hf.
    { rewrite app_nil_r. eapply IH; [done| |unfold refresh in Hok |- *; rewrite Hf in Hok |- *; exact Hok].
      unfold refresh. rewrite Hf. by eapply log_state_later. }
    unfold refresh in Hok |- *. rewrite Hf in Hok |- *.
    destruct (match ic_next_attempt s with Some t' => (now <? t')%Z | None => false end) eqn:Hheld; cbn [fst snd] in *.
    { rewrite app_nil_r. eapply IH; [done| |exact Hok].
      by eapply log_state_later. }
    eapply IH; [|unfold log_state; by rewrite last_snoc|exact Hok].
    apply sorted_snoc; [done|]. intros [b t0] Hl. unfold log_state in Hstate. rewrite Hl in Hstate.
    destruct b, Hstate as [Hf' Hn]; [congruence|]. rewrite Hn in Hheld. cbn. by apply Z.ltb_ge.
  - destruct Hok as (Hf & Ht & Hok). cbn [cache_log_one]. eapply IH; [| |exact Hok].
    + apply sorted_snoc; [done|]. intros [b t0] Hl. unfold log_state in Hstate. rewrite Hl in Hstate.
      destruct b, Hstate as [Hf' Hn]; [cbn; lia|congruence].
    + unfold log_state. rewrite last_snoc. cbn. by destruct outcome.
Qed.

(** The state's keys are the last good fetch's. *)
Definition keys_state (f : option (Z * gmap string K)) (s : Issuer K) : Prop :=
  match f with
  | None => ic_by_kid s = ∅ ∧ ic_expires_at s = None
  | Some (fetched, keys) => ic_by_kid s = keys ∧ ic_expires_at s = Some (fetched + KEY_TTL)%Z
  end.

Lemma last_app_default {A} (l k : list A) : last (l ++ k) = match last k with Some x => Some x | None => last l end.
Proof. destruct k as [|x k] using rev_ind; [by rewrite app_nil_r|]. by rewrite app_assoc, !last_snoc. Qed.

Lemma cache_keys es s f :
  keys_state f s →
  keys_state (match last_fetch es with Some f' => Some f' | None => f end) (foldl cache_step s es).
Proof.
  revert s f. induction es as [|e es IH]; intros s f Hf; [done|]. cbn [foldl].
  destruct e as [now|fetched ended [keys|e]].
  - unfold last_fetch. cbn [omap list_omap]. apply IH. cbn. unfold refresh.
    by repeat case_match.
  - unfold last_fetch. change (Cache_Complete fetched ended (Ok keys) :: es) with ([Cache_Complete fetched ended (Ok keys)] ++ es).
    rewrite omap_app, last_app_default. cbn [omap list_omap last].
    pose proof (IH (cache_step s (Cache_Complete fetched ended (Ok keys))) (Some (fetched, keys))) as H.
    unfold last_fetch in H. destruct (last (omap _ es)); apply H; by split.
  - unfold last_fetch. cbn [omap list_omap]. apply IH. by destruct f as [[? ?]|].
Qed.
End cache_spec.
Arguments CacheEvent K : clear implicits.

(** However refreshes and their completions interleave, fetch attempts of one issuer start at least
    the floor after the previous one ended, and a cached key is one of the last successful fetch,
    reported expired exactly when that fetch is older than its time to live. *)
Theorem jwks_cache_discipline {K} (es : list (CacheEvent K)) t kid key expired now :
  cache_events_ok t issuer_new es →
  Sorted attempt_spaced (cache_log issuer_new es) ∧
  (cached_key (foldl cache_step issuer_new es) kid now = (Some key, expired) →
    ∃ fetched keys, last_fetch es = Some (fetched, keys) ∧ keys !! kid = Some key ∧
      (expired = false ↔ (now < fetched + KEY_TTL)%Z)).
Proof.
  intros Hok. split.
  - apply (cache_log_spaced es [] t issuer_new); [constructor|done|done].
  - pose proof (cache_keys es issuer_new None) as Hkeys. unfold cached_key.
    assert (keys_state None (issuer_new (K := K))) as H0 by done. specialize (Hkeys H0).
    destruct (last_fetch es) as [[fetched keys]|]; cbn in Hkeys; destruct Hkeys as [-> ->].
    + intros [= Hk <-]. exists fetched, keys. split_and!; [done|done|]. by rewrite Z.leb_gt.
    + by rewrite lookup_empty.
Qed.

(** ** Examples *)

Definition main_branch_claims : Claims :=
  mkClaims GITHUB_ISSUER "repo:o/r" [] (Some "true") (Some "1234") (Some "refs/heads/main")
    (Some "42") (Some "push") None (Some "o/r").

(** A library that knows one key, and one token under it. *)
Definition toy_jwt : Jwt := {|
  Key := nat;
  decode_header token := if bool_decide (token = "h.p.s") then Ok (Some "k1") else Err "no header";
  decode_claims token key v :=
    if bool_decide (token = "h.p.s" ∧ key = 7 ∧ va_issuer v = [GITHUB_ISSUER])
    then Ok main_branch_claims else Err "bad signature";
  base64_url payload := if bool_decide (payload = "p") then Ok [1%Z] else Err "not base64";
  only_iss bytes := if bool_decide (bytes = [1%Z]) then Ok GITHUB_ISSUER else Err "no iss";
  jwks_keys body := Ok [("k1", 7)];
|}.

Lemma github_tokens_are_scoped_witness :
  cl_repository_owner_id main_branch_claims = Some "1234".
Proof.
  destruct (github_tokens_are_scoped (U := toy_url) github_issuer main_branch_claims) as [(o & Ho & Hc)|(r & Hr & _)];
    [by vm_compute|done|by vm_compute| |].
  - injection Ho as <-. exact Hc.
  - by apply elem_of_nil in Hr.
Defined.

Lemma bearer_verdicts_witness :
  ∃ tr, run_trace (bearer (J := toy_jwt) [github_issuer] (Some "Bearer h.p.s")) tr
          (Ok (GITHUB_ISSUER +:+ "#" +:+ "repo:o/r")) ∧ granted github_issuer main_branch_claims.
Proof.
  pose (tr := [Ev (Auth_CachedKey (J := toy_jwt) GITHUB_ISSUER "k1") (Some 7, false)] : list (Event (AuthOp (J := toy_jwt)))).
  assert (Hrun : run_trace (bearer (J := toy_jwt) [github_issuer] (Some "Bearer h.p.s")) tr
    (Ok (GITHUB_ISSUER +:+ "#" +:+ "repo:o/r"))).
  { apply run_step. apply run_ret. }
  exists tr. split; [done|].
  destruct (bearer_verdicts (J := toy_jwt) _ _ _ _ Hrun) as (token & cfg & claims & Htok & [Hin _] & Hv & Hg & _).
  apply list_elem_of_singleton in Hin as ->. destruct Hv as (kid & key & expired & _ & _ & Hd).
  assert (claims = main_branch_claims) as <-; [|done].
  revert Hd. cbn. case_bool_decide; [|done]. by intros [= <-].
Defined.

Lemma keys_come_from_trusted_places_witness :
  safe_url (U := toy_url) "https://token.actions.githubusercontent.com/.well-known/jwks".
Proof.
  pose (url := "https://token.actions.githubusercontent.com/.well-known/jwks").
  assert (Hrun : run_trace (fetch_keys (J := toy_jwt) (U := toy_url) github_issuer)
    [Ev (Fetch_Discovery (GITHUB_ISSUER +:+ "/.well-known/openid-configuration")) (Ok url);
     Ev (Fetch_Get url) (Ok "{}")] (Ok [("k1", 7)])).
  { apply run_step. apply run_step. apply run_ret. }
  destruct (keys_come_from_trusted_places (J := toy_jwt) (U := toy_url) _ _ _ Hrun) as [Hget _].
  apply Hget. by left.
Defined.

Lemma jwks_cache_discipline_witness :
  cached_key (foldl cache_step issuer_new
    [Cache_Refresh 0; Cache_Refresh 1; Cache_Complete 2 2 (Ok {["k1" := 7]}); Cache_Refresh 5; Cache_Refresh 12]) "k1" 20
    = (Some 7, false) ∧ (20 < 2 + KEY_TTL)%Z.
Proof.
  set (es := [Cache_Refresh 0; Cache_Refresh 1; Cache_Complete 2 2 (Ok {["k1" := 7]}); Cache_Refresh 5; Cache_Refresh 12]).
  assert (Hc : cached_key (foldl cache_step issuer_new es) "k1" 20 = (Some 7, false)) by by_computation.
  split; [exact Hc|].
  destruct (jwks_cache_discipline es 0 "k1" 7 false 20) as [_ Hk]; [cbn; lia|].
  destruct (Hk Hc) as (fetched & keys & Hl & _ & Hexp). cbn in Hl. injection Hl as <- _. by apply Hexp.
Defined.
