(* ===== verification/Upload.v ===== *)
(** * Upload: pushing one path, with its retries

    [crates/garret-client/src/push.rs], from [push_one] down, and
    [describe_body] of [http.rs]. [push_one] is a [Prog] over [PushOp]: the
    clock, the random number generator, sleeping, the token source, the dump of
    a path and one PUT. Durations are milliseconds. [push_step] lets any time
    pass in a request, and any answer be given to it.

    JSON and zstd are parameters ([ClientLibs]); a dump is described by what it
    wrote and how it exited. Progress bars and logging are left out. *)

From S2P Require Import Prelude Text Common Prog.

(** ** What the client uses of its libraries *)

Class ClientLibs := {
  preamble_to_json : Preamble → Result (list Z) string;
  ack_from_json : string → Result UploadAck string;
  hashes_from_json : string → Result (gset string) string;
  oauth_error : string → option (string * option string);
  (* the chunks of one zstd frame: level, workers, contents *)
  zstd_chunks : Z → Z → list Z → list (list Z);
}.

(** [nix path-info --json]'s entry for a path. *)
Record PathInfo := mkPathInfo {
  pi_path : string;
  pi_nar_hash : string;
  pi_nar_size : Z;
  pi_references : list string;
  pi_deriver : option string;
  pi_ca : option string;
  pi_signatures : list string;
}.

#[export] Instance PathInfo_eq_dec : EqDecision PathInfo.
Proof. solve_decision. Defined.

(** ** Errors *)

Inductive IoErrorKind := BrokenPipe | ConnectionReset | ConnectionAborted | UnexpectedEof | OtherKind.

(** One error of a chain of sources: an [io::Error], or another's text. *)
Inductive Cause := Cause_Io (kind : IoErrorKind) | Cause_Text (text : string).

Record ReqwestError := mkReqwestError {
  re_timeout : bool;
  re_connect : bool;
  re_chain : list Cause;
}.

(** The types an upload's error is downcast to; contexts do not hide them. *)
Inductive PushError :=
  | Rejected (status : Z) (body : string)
  | Shed (after : Z)
  | Stalled (idle : Z)
  | Reqwest (e : ReqwestError)
  | OtherError (message : string).

Fixpoint connection_dropped (chain : list Cause) : bool :=
  match chain with
  | [] => false
  | Cause_Io kind :: _ => match kind with OtherKind => false | _ => true end
  | Cause_Text text :: chain =>
      contains "connection closed before message completed" text || connection_dropped chain
  end.

Definition is_server_error (status : Z) : bool := ((500 <=? status) && (status <? 600))%Z.
Definition is_success (status : Z) : bool := ((200 <=? status) && (status <? 300))%Z.

Definition is_retryable (error : PushError) : bool :=
  match error with
  | Rejected status _ => is_server_error status
  | Stalled _ => true
  | Reqwest e => re_timeout e || re_connect e || connection_dropped (re_chain e)
  | Shed _ | OtherError _ => false
  end.

(** ** Waiting as the server asks *)

Definition WAIT_DEADLINE : Z := 15 * 60 * 1000.
Definition IN_PROGRESS_MAX_POLL : Z := 30 * 1000.

Definition shed_for (retry_after : option string) : Z :=
  let secs := v ← retry_after; parse_u64 (str_trim v) in
  let wait := match secs with Some secs => secs * 1000 | None => 1000 end%Z in
  Z.max 1000 (Z.min wait WAIT_DEADLINE).

(** [header]: the [Retry-After] header, if it is readable text. *)
Definition retry_after (status : Z) (header : option string) : option Z :=
  if (status =? 429)%Z then Some (shed_for header)
  else if (status =? 503)%Z then (λ v, shed_for (Some v)) <$> header
  else None.

(** ** Requests *)

(** A finished [nix nar dump-path]: what it wrote, and [None] for success or
    the text of its failure. *)
Record Dump := mkDump {
  du_stdout : list Z;
  du_failure : option string;
}.

Record Answer := mkAnswer {
  an_status : Z;
  an_retry_after : option string;
  an_body : Result string ReqwestError;
}.

Inductive SendError := Send_Stalled (idle : Z) | Send_Failed (e : ReqwestError).

(** A request body: chunks, or the error that ends it. *)
Abbreviation Body := (list (Result (list Z) string)).

Inductive PushOp : Type → Type :=
  | Push_Now : PushOp Z
  | Push_Random (below : Z) : PushOp Z
  | Push_Sleep (duration : Z) : PushOp unit
  | Push_Token : PushOp (Result string string)
  | Push_Renew (rejected : string) : PushOp (Result (option string) string)
  | Push_Dump (path : string) : PushOp (Result Dump string)
  | Push_Put (url token : string) (body : Body) (idle : Z) : PushOp (Result Answer SendError).

Abbreviation Push := (Prog PushOp).

(** ** The retry schedule *)

Record Backoff := mkBackoff {
  bo_started : Z;
  bo_retries : Z;
  bo_max_retries : Z;
  bo_delay : Z;
  bo_poll : Z;
}.

Definition backoff_new (started max_retries : Z) : Backoff := mkBackoff started 0 max_retries 250 1000.

Definition jitter (delay : Z) : Push Z := request (Push_Random (Z.max delay 1)).

Definition queued (b : Backoff) (base : Z) : Push (Backoff * option Z) :=
  do extra <- jitter base;
  do now <- request Push_Now;
  Ret (mkBackoff (bo_started b) 0 (bo_max_retries b) 250 (bo_poll b),
       if (now - bo_started b + (base + extra) <=? WAIT_DEADLINE)%Z then Some (base + extra)%Z else None).

Definition in_progress (b : Backoff) : Push (Backoff * option Z) :=
  queued (mkBackoff (bo_started b) (bo_retries b) (bo_max_retries b) (bo_delay b)
            (Z.min (bo_poll b * 2) IN_PROGRESS_MAX_POLL)) (bo_poll b).

(** [downcast_ref::<Shed>()]. *)
Definition as_shed (error : PushError) : option Z :=
  match error with Shed after => Some after | _ => None end.

Definition backoff_next (b : Backoff) (error : PushError) : Push (Backoff * option Z) :=
  match as_shed error with
  | Some after => queued b after
  | None =>
      if (bo_max_retries b <=? bo_retries b)%Z || negb (is_retryable error) then Ret (b, None)
      else
        do extra <- jitter (bo_delay b);
        Ret (mkBackoff (bo_started b) (bo_retries b + 1) (bo_max_retries b) (bo_delay b * 2) (bo_poll b),
             Some (bo_delay b + extra)%Z)
  end.

(** ** One attempt *)

Section attempt.
Context `{L : ClientLibs}.

(** [Pusher]: what an upload uses of the configured connection. [co_cpus] is
    [available_parallelism]. *)
Record Connection := mkConnection {
  co_endpoint : string;
  co_jobs : nat;
  co_zstd_level : Z;
  co_max_retries : Z;
  co_upload_idle : Z;
  co_cpus : option Z;
}.
Context (conn : Connection).

Definition ZSTD_MT_MIN : Z := 32 * 1024 * 1024.

Definition zstd_workers (nar_size : Z) : Z :=
  if (nar_size <? ZSTD_MT_MIN)%Z then 0%Z else default 0%Z (co_cpus conn).

(** The compressed NAR, then the dump's failure, if it failed. *)
Definition compressed_nar (dump : Dump) (zstd_level workers : Z) : Body :=
  map Ok (zstd_chunks zstd_level workers (du_stdout dump)) ++
  match du_failure dump with Some failure => [Err failure] | None => [] end.

Definition describe_body (body : string) : string :=
  match oauth_error body with
  | Some (error, Some description) => error +:+ ": " +:+ description
  | Some (error, None) => error
  | None =>
      let body := str_trim body in
      let cut := prefix_chars 300 body in
      if bool_decide (cut = body) then body else cut +:+ "…"
  end.

Definition error_detail (a : Answer) : string :=
  describe_body (match an_body a with Ok text => text | Err _ => "" end).

Definition parse_ack (body : string) : Result UploadAck PushError :=
  map_err (λ e, OtherError ("parsing upload response: " +:+ e)) (ack_from_json body).

(** [attempt] from the response on. *)
Definition ack_of (answer : Result Answer SendError) : Result UploadAck PushError :=
  match answer with
  | Err (Send_Stalled idle) => Err (Stalled idle)
  | Err (Send_Failed e) => Err (Reqwest e)
  | Ok a =>
      match retry_after (an_status a) (an_retry_after a) with
      | Some after => Err (Shed after)
      | None =>
          if negb (is_success (an_status a)) then Err (Rejected (an_status a) (error_detail a))
          else let? body := map_err Reqwest (an_body a) in parse_ack body
      end
  end.

Definition preamble_of (info : PathInfo) : Preamble :=
  mkPreamble (pi_path info) (pi_nar_hash info) (pi_nar_size info) (pi_references info)
    (pi_deriver info) (pi_ca info).

Definition upload_url (info : PathInfo) : string :=
  co_endpoint conn +:+ with_hash NAR_UPLOAD (hash_of_store_path (pi_path info)).

Definition attempt (info : PathInfo) (token : string) : Push (Result UploadAck PushError) :=
  do dump <- request (Push_Dump (pi_path info));
  match dump with
  | Err e => Ret (Err (OtherError ("running `nix nar dump-path`: " +:+ e)))
  | Ok dump =>
      let nar := compressed_nar dump (co_zstd_level conn) (zstd_workers (pi_nar_size info)) in
      match to_framed preamble_to_json (preamble_of info) with
      | Err e => Ret (Err (OtherError e))
      | Ok framed =>
          do answer <- request (Push_Put (upload_url info) token (Ok framed :: nar) (co_upload_idle conn));
          Ret (ack_of answer)
      end
  end.

(** ** Until it is settled *)

Inductive Outcome :=
  | Pushed
  | Deduped
  | Failed (error : PushError)
  | Upstream
  | WouldPush.

Definition unauthorized (error : PushError) : bool :=
  match error with Rejected status _ => (status =? 401)%Z | _ => false end.

(** Whether a new token replaced a refused one, which is tried once. *)
Definition renewed_after (renewed : bool) (error : PushError) (token : string) : Push (Result bool string) :=
  if negb renewed && unauthorized error
  then do renewal <- request (Push_Renew token);
       Ret (match renewal with
            | Ok token => Ok (bool_decide (is_Some token))
            | Err e => Err ("the Pusher refused the token, and renewing it failed: " +:+ e)
            end)
  else Ret (Ok false).

(** [None]: out of fuel. *)
Fixpoint push_loop (fuel : nat) (info : PathInfo) (backoff : Backoff) (renewed : bool)
    : Push (option (Result Outcome PushError)) :=
  match fuel with
  | 0 => Ret None
  | S fuel =>
      do token <- request Push_Token;
      match token with
      | Err e => Ret (Some (Err (OtherError e)))
      | Ok token =>
          do ack <- attempt info token;
          match ack with
          | Ok Ack_Exists => Ret (Some (Ok Deduped))
          | Ok Ack_Created => Ret (Some (Ok Pushed))
          | Ok Ack_InProgress =>
              do next <- in_progress backoff;
              match next.2 with
              | Some wait => do _ <- request (Push_Sleep wait); push_loop fuel info next.1 renewed
              | None => Ret (Some (Err (OtherError "another pusher is still uploading this path")))
              end
          | Err error =>
              do renewal <- renewed_after renewed error token;
              match renewal with
              | Err e => Ret (Some (Err (OtherError e)))
              | Ok true => push_loop fuel info backoff true
              | Ok false =>
                  do next <- backoff_next backoff error;
                  match next.2 with
                  | Some wait => do _ <- request (Push_Sleep wait); push_loop fuel info next.1 renewed
                  | None => Ret (Some (Err error))
                  end
              end
          end
      end
  end.

Definition push_one (fuel : nat) (info : PathInfo) : Push (option (Result Outcome PushError)) :=
  do started <- request Push_Now;
  push_loop fuel info (backoff_new started (co_max_retries conn)) false.
End attempt.

(** ** A stalled connection *)

Inductive WatchEvent (T : Type) :=
  | Watch_Tick (at_ : Z)
  | Watch_Timer (at_ : Z)
  | Watch_Done (value : T).
Arguments Watch_Tick {T} at_.
Arguments Watch_Timer {T} at_.
Arguments Watch_Done {T} value.

(** [unless_stalled]'s loop over what happens, in order; [None]: still waiting. *)
Fixpoint unless_stalled {T} (idle last : Z) (events : list (WatchEvent T)) : option (Result T SendError) :=
  match events with
  | [] => None
  | Watch_Tick at_ :: events => unless_stalled idle at_ events
  | Watch_Done value :: _ => Some (Ok value)
  | Watch_Timer at_ :: events =>
      if (last + idle <=? at_)%Z then Some (Err (Send_Stalled idle)) else unless_stalled idle last events
  end.

(** ** Time

    The world of a run is the clock. Requests take any time and get any answer;
    a sleep lasts at least as long as asked. *)
Definition push_step (now : Z) {B} (op : PushOp B) : B → Z → Prop :=
  match op in PushOp B return B → Z → Prop with
  | Push_Now => λ t now', t = now' ∧ (now ≤ now')%Z
  | Push_Random below => λ r now', (0 ≤ r < below)%Z ∧ (now ≤ now')%Z
  | Push_Sleep duration => λ _ now', (now + duration ≤ now')%Z
  | Push_Token => λ _ now', (now ≤ now')%Z
  | Push_Renew _ => λ _ now', (now ≤ now')%Z
  | Push_Dump _ => λ _ now', (now ≤ now')%Z
  | Push_Put _ _ _ _ => λ _ now', (now ≤ now')%Z
  end.

Abbreviation push_runs := (prog_runs (@push_step)).

(** The PUTs of a trace: URL, token, body and answer. *)
Definition Put : Type := string * string * Body * Result Answer SendError.
Definition put_of (e : Event PushOp) : option Put :=
  match e with
  | Ev op b =>
      match op in PushOp B return B → option Put with
      | Push_Put url token body _ => λ answer, Some (url, token, body, answer)
      | _ => λ _, None
      end b
  end.
Definition puts (tr : list (Event PushOp)) : list Put := omap put_of tr.

Definition is_renewal (e : Event PushOp) : bool :=
  match e with Ev op _ => match op with Push_Renew _ => true | _ => false end end.
Definition renewals (tr : list (Event PushOp)) : nat := length (filter is_renewal tr).

Lemma puts_app tr1 tr2 : puts (tr1 ++ tr2) = puts tr1 ++ puts tr2.
Proof. apply omap_app. Qed.
Lemma renewals_app tr1 tr2 : renewals (tr1 ++ tr2) = renewals tr1 + renewals tr2.
Proof. unfold renewals. by rewrite filter_app, length_app. Qed.

(** What an attempt must have sent. *)
Definition sends `{L : ClientLibs} (conn : Connection) (info : PathInfo) (token : string)
    (p : Put) : Prop :=
  ∃ framed dump, to_framed preamble_to_json (preamble_of info) = Ok framed ∧
    p.1 = (upload_url conn info, token,
      Ok framed :: compressed_nar dump (co_zstd_level conn) (zstd_workers conn (pi_nar_size info))).

Lemma shed_for_bounds h : (1000 ≤ shed_for h ≤ WAIT_DEADLINE)%Z.
Proof. unfold shed_for. destruct (h ≫= _); unfold WAIT_DEADLINE; lia. Qed.

Lemma ack_of_shed `{L : ClientLibs} answer after : ack_of answer = Err (Shed after) → (1000 ≤ after)%Z.
Proof.
  unfold ack_of. destruct answer as [a|[]]; [|done..].
  destruct (retry_after _ _) as [w|] eqn:Hr.
  - intros [= <-]. unfold retry_after in Hr. repeat case_match; simplify_eq;
      try (apply fmap_Some in Hr as (? & _ & ->)); apply shed_for_bounds.
  - destruct (negb _); [done|]. destruct (an_body a); [|done]. cbn. unfold parse_ack. by destruct (ack_from_json _).
Qed.

(** An attempt is at most one PUT, of the path's preamble and its dump. *)
Lemma attempt_runs `{L : ClientLibs} conn info token now tr now' ack :
  push_runs now (attempt conn info token) tr now' ack →
  (now ≤ now')%Z ∧ renewals tr = 0 ∧
  ((puts tr = [] ∧ ∃ e, ack = Err (OtherError e)) ∨
   ∃ p, puts tr = [p] ∧ sends conn info token p ∧ ack = ack_of p.2).
Proof.
  unfold attempt. intros H.
  apply prog_runs_request in H as (dump & n1 & tr1 & -> & Hn1 & H). cbn in Hn1.
  destruct dump as [dump|e].
  - destruct (to_framed _ _) as [framed|e] eqn:Hf.
    + apply prog_runs_request in H as (answer & n2 & tr2 & -> & Hn2 & H). cbn in Hn2.
      apply prog_runs_ret_inv in H as (-> & -> & ->). split_and!; [lia|done|]. right.
      eexists. split_and!; [done| |done]. exists framed, dump. done.
    + apply prog_runs_ret_inv in H as (-> & -> & ->). split_and!; [lia|done|left; eauto].
  - apply prog_runs_ret_inv in H as (-> & -> & ->). split_and!; [lia|done|left; eauto].
Qed.

(** ** The schedule is finite *)

Record schedule_ok (max_retries now : Z) (b : Backoff) : Prop := {
  so_max : bo_max_retries b = max_retries;
  so_retries : (0 ≤ bo_retries b ≤ max_retries)%Z;
  so_started : (bo_started b ≤ now)%Z;
  so_delay : (0 < bo_delay b)%Z;
  so_poll : (1000 ≤ bo_poll b)%Z;
}.

(** How many waits of a second still fit before the deadline. *)
Definition waits_left (b : Backoff) (now : Z) : nat :=
  Z.to_nat ((WAIT_DEADLINE - (now - bo_started b)) / 1000).

(** A wait resets the error budget; a fault spends it; a renewal happens once. *)
Definition attempts_left (b : Backoff) (renewed : bool) (now : Z) : nat :=
  waits_left b now * S (Z.to_nat (bo_max_retries b)) +
  Z.to_nat (bo_max_retries b - bo_retries b) + (if renewed then 0 else 1).

Lemma attempts_left_later b renewed now later :
  (now ≤ later)%Z → attempts_left b renewed later ≤ attempts_left b renewed now.
Proof.
  intros Hle. unfold attempts_left, waits_left.
  assert ((WAIT_DEADLINE - (later - bo_started b)) / 1000 ≤ (WAIT_DEADLINE - (now - bo_started b)) / 1000)%Z
    by (apply Z.div_le_mono; lia).
  nia.
Qed.

(** What the schedule says next: after the wait it names, less is left. *)
Definition decreases (max_retries : Z) (b : Backoff) (now : Z) (next : Backoff * option Z) (now' : Z) : Prop :=
  ∀ wait later, next.2 = Some wait → (now' + wait ≤ later)%Z →
    schedule_ok max_retries later next.1 ∧
    ∀ renewed, attempts_left next.1 renewed later < attempts_left b renewed now.

Lemma queued_runs R b base now tr now' next :
  push_runs now (queued b base) tr now' next → schedule_ok R now b → (1000 ≤ base)%Z →
  (now ≤ now')%Z ∧ puts tr = [] ∧ renewals tr = 0 ∧ decreases R b now next now'.
Proof.
  unfold queued, jitter. intros H [Hm Hr Hs Hd Hp] Hbase.
  apply prog_runs_request in H as (extra & n1 & tr1 & -> & Hn1 & H). cbn in Hn1.
  apply prog_runs_request in H as (t & n2 & tr2 & -> & [-> Hn2] & H).
  apply prog_runs_ret_inv in H as (-> & -> & ->). split_and!; [lia|done|done|].
  intros wait later Hw Hlater. cbn [fst snd] in *.
  destruct (Z.leb_spec (n2 - bo_started b + (base + extra)) WAIT_DEADLINE) as [Hfits|]; [|done].
  injection Hw as <-. split; [split; cbn; lia|]. intros renewed. unfold attempts_left, waits_left. cbn.
  assert (Hlt : ((WAIT_DEADLINE - (later - bo_started b)) / 1000 + 1 ≤ (WAIT_DEADLINE - (now - bo_started b)) / 1000)%Z).
  { rewrite <-Z.div_add by lia. apply Z.div_le_mono; lia. }
  assert (0 ≤ (WAIT_DEADLINE - (later - bo_started b)) / 1000 ∨ (WAIT_DEADLINE - (later - bo_started b)) / 1000 < 0)%Z by lia.
  assert (1 ≤ (WAIT_DEADLINE - (now - bo_started b)) / 1000)%Z.
  { change 1%Z with (1000 / 1000)%Z at 1. apply Z.div_le_mono; lia. }
  nia.
Qed.

Lemma in_progress_runs R b now tr now' next :
  push_runs now (in_progress b) tr now' next → schedule_ok R now b →
  (now ≤ now')%Z ∧ puts tr = [] ∧ renewals tr = 0 ∧ decreases R b now next now'.
Proof.
  intros H Hok. pose proof Hok as [Hm Hr Hs Hd Hp].
  apply (queued_runs R) in H; [done| |done]. split; cbn; unfold IN_PROGRESS_MAX_POLL; lia.
Qed.

Lemma backoff_next_runs R b error now tr now' next :
  push_runs now (backoff_next b error) tr now' next → schedule_ok R now b →
  (∀ after, error = Shed after → 1000 ≤ after)%Z →
  (now ≤ now')%Z ∧ puts tr = [] ∧ renewals tr = 0 ∧ decreases R b now next now' ∧
  (is_Some next.2 → (∃ after, error = Shed after) ∨ is_retryable error = true).
Proof.
  intros H Hok Hshed. pose proof Hok as [Hm Hr Hs Hd Hp].
  unfold backoff_next in H. destruct (as_shed error) as [after|] eqn:Has.
  - assert (error = Shed after) as -> by (destruct error; by simplify_eq/=).
    destruct (queued_runs R _ _ _ _ _ _ H Hok) as (? & ? & ? & ?); [by apply Hshed|]. split_and!; eauto.
  - destruct (Z.leb_spec (bo_max_retries b) (bo_retries b)); cbn [orb] in H.
    + apply prog_runs_ret_inv in H as (-> & -> & ->). split_and!; try done. by intros [].
    + destruct (is_retryable error); cbn [negb] in H.
      * apply prog_runs_request in H as (extra & n1 & tr1 & -> & Hn1 & H). cbn in Hn1.
        apply prog_runs_ret_inv in H as (-> & -> & ->). split_and!; [lia|done|done| |by right].
        intros wait later Hw Hlater. cbn in Hw, Hlater. injection Hw as <-.
        split; [split; cbn; lia|]. intros renewed.
        pose proof (attempts_left_later b renewed now later).
        unfold attempts_left, waits_left in *. cbn. lia.
      * apply prog_runs_ret_inv in H as (-> & -> & ->). split_and!; try done. by intros [].
Qed.

(** ** What a settled path went through *)

(** An answer after which the path is tried again. *)
Definition goes_on (ack : Result UploadAck PushError) : Prop :=
  ack = Ok Ack_InProgress ∨
  ∃ e, ack = Err e ∧ (unauthorized e = true ∨ (∃ after, e = Shed after) ∨ is_retryable e = true).

Definition outcome_of (ack : UploadAck) : option Outcome :=
  match ack with Ack_Created => Some Pushed | Ack_Exists => Some Deduped | Ack_InProgress => None end.

Definition verdict (acks : list (Result UploadAck PushError)) (r : option (Result Outcome PushError)) : Prop :=
  ∃ earlier, Forall goes_on earlier ∧
    match r with
    | Some (Ok outcome) => ∃ ack, acks = earlier ++ [Ok ack] ∧ outcome_of ack = Some outcome
    | Some (Err _) => acks = earlier ∨ ∃ last, acks = earlier ++ [last] ∧ ∀ ack, last = Ok ack → outcome_of ack = None
    | None => acks = earlier
    end.

Lemma verdict_cons ack acks r : goes_on ack → verdict acks r → verdict (ack :: acks) r.
Proof.
  intros Hon (earlier & Hall & Hr). exists (ack :: earlier). split; [by constructor|].
  destruct r as [[o|e]|]; [naive_solver|naive_solver|by subst].
Qed.

Section settle.
Context `{L : ClientLibs} (conn : Connection) (info : PathInfo).

Definition acks (tr : list (Event PushOp)) : list (Result UploadAck PushError) :=
  map (λ p : Put, ack_of p.2) (puts tr).

Record settles (b : Backoff) (renewed : bool) (now : Z) (fuel : nat) (tr : list (Event PushOp))
    (r : option (Result Outcome PushError)) : Prop := {
  se_puts : length (puts tr) ≤ S (attempts_left b renewed now);
  se_result : attempts_left b renewed now < fuel → is_Some r;
  se_renewals : renewals tr ≤ if renewed then 0 else 1;
  se_sends : Forall (λ p : Put, ∃ token : string, sends conn info token p) (puts tr);
  se_verdict : verdict (acks tr) r;
}.

(** The last attempt. *)
Lemma settles_last b (renewed : bool) now fuel tr r :
  r ≠ None → length (puts tr) ≤ 1 → renewals tr ≤ (if renewed then 0 else 1) →
  Forall (λ p : Put, ∃ token : string, sends conn info token p) (puts tr) →
  verdict (acks tr) r →
  settles b renewed now fuel tr r.
Proof. intros Hr Hp Hn Hs Hv. split; [lia|by destruct r|done..]. Qed.

(** An attempt that goes on, then the rest. *)
Lemma settles_next b (renewed : bool) now fuel b' (renewed' : bool) later tr1 tr2 p token r :
  puts tr1 = [p] → sends conn info token p → goes_on (ack_of p.2) →
  attempts_left b' renewed' later < attempts_left b renewed now →
  renewals tr1 + (if renewed' then 0 else 1) ≤ (if renewed then 0 else 1) →
  settles b' renewed' later fuel tr2 r →
  settles b renewed now (S fuel) (tr1 ++ tr2) r.
Proof.
  intros Hp Hs Hon Hlt Hren [H1 H2 H3 H4 H5]. split; unfold acks; rewrite ?puts_app, ?Hp.
  - cbn. lia.
  - intros. apply H2. lia.
  - rewrite renewals_app. lia.
  - constructor; eauto.
  - by apply verdict_cons.
Qed.

Lemma renewed_after_runs (renewed : bool) error token now tr now' r :
  push_runs now (renewed_after renewed error token) tr now' r →
  (now ≤ now')%Z ∧ puts tr = [] ∧ renewals tr ≤ (if renewed then 0 else 1) ∧
  (r = Ok true → renewed = false ∧ unauthorized error = true) ∧
  (r = Ok false → renewals tr = 0 ∨ (renewed = false ∧ unauthorized error = true)).
Proof.
  unfold renewed_after. destruct renewed, (unauthorized error); cbn [negb andb]; intros H.
  1,2,4: apply prog_runs_ret_inv in H as (-> & -> & ->); split_and!; [lia|done|apply Nat.le_0_l|done|by left].
  apply prog_runs_request in H as (a & n1 & tr1 & -> & Hn1 & H). cbn in Hn1.
  apply prog_runs_ret_inv in H as (-> & -> & ->). split_and!; [done|done|by unfold renewals|done|by right].
Qed.

Lemma schedule_ok_later R now later b : schedule_ok R now b → (now ≤ later)%Z → schedule_ok R later b.
Proof. intros [? ? ? ? ?] ?. split; lia || done. Qed.

(** A wait the schedule grants, then the rest; or the end. *)
Lemma wait_runs {A} now (next : Backoff * option Z) (k : Backoff → Push A) (a : A) tr now' r :
  push_runs now (match next.2 with
                 | Some wait => do _ <- request (Push_Sleep wait); k next.1
                 | None => Ret a
                 end) tr now' r →
  (next.2 = None ∧ tr = [] ∧ r = a) ∨
  ∃ wait later tr', next.2 = Some wait ∧ (now + wait ≤ later)%Z ∧ tr = Ev (Push_Sleep wait) tt :: tr' ∧
    push_runs later (k next.1) tr' now' r.
Proof.
  destruct next.2 as [wait|]; intros H.
  - right. apply prog_runs_request in H as ([] & later & tr' & -> & Hl & H). cbn in Hl. eauto 10.
  - left. by apply prog_runs_ret_inv in H as (-> & -> & ->).
Qed.

(** The iterations after this one settle the path. *)
Section iteration.
Context (R : Z) (fuel : nat).
Hypothesis IH : ∀ b renewed now tr now' r,
  push_runs now (push_loop conn fuel info b renewed) tr now' r → schedule_ok R now b →
  settles b renewed now fuel tr r.

(** A PUT is answered, and the schedule is asked for a wait. *)
Lemma settles_wait b (renewed : bool) now mid next tr1 tr2 now' p token r e :
  puts tr1 = [p] → sends conn info token p → renewals tr1 ≤ 0 ∨ (renewed = false ∧ renewals tr1 ≤ 1) →
  (∀ ack, ack_of p.2 = Ok ack → outcome_of ack = None) → (is_Some next.2 → goes_on (ack_of p.2)) →
  decreases R b now next mid →
  push_runs mid (match next.2 with
                 | Some wait => do _ <- request (Push_Sleep wait); push_loop conn fuel info next.1 renewed
                 | None => Ret (Some (Err e))
                 end) tr2 now' r →
  (is_Some next.2 → renewals tr1 = 0) →
  settles b renewed now (S fuel) (tr1 ++ tr2) r.
Proof.
  intros Hp Hs Hren Hack Hon Hdec H Hzero.
  apply (wait_runs _ next (λ b, push_loop conn fuel info b renewed)) in H
    as [(Hnone & -> & ->)|(wait & later & tr' & Hnext & Hlater & -> & H)].
  - rewrite app_nil_r. apply settles_last; unfold acks; rewrite ?Hp; cbn; [done|lia| |eauto|].
    + destruct renewed; [naive_solver|lia].
    + exists []. split; [constructor|]. right. eauto.
  - destruct (Hdec _ _ Hnext Hlater) as [Hok Hlt]. apply IH in H; [|done].
    rewrite (app_assoc tr1 [_] tr' : tr1 ++ _ :: tr' = _). eapply settles_next; [|done|by apply Hon| | |done].
    + by rewrite puts_app, Hp.
    + apply Hlt.
    + rewrite renewals_app, Hzero by done. change (renewals [_]) with 0. lia.
Qed.

Lemma decreases_before b now mid next now' :
  decreases R b mid next now' → (now ≤ mid)%Z → decreases R b now next now'.
Proof.
  intros Hdec Hle wait later Hw Hl. destruct (Hdec wait later Hw Hl) as [? Hlt]. split; [done|].
  intros renewed. specialize (Hlt renewed). pose proof (attempts_left_later b renewed now mid). lia.
Qed.

(** A PUT is acknowledged. *)
Lemma settles_ack b (renewed : bool) now mid tr1 tr2 now' p token ack r :
  puts tr1 = [p] → sends conn info token p → renewals tr1 = 0 → ack_of p.2 = Ok ack →
  (now ≤ mid)%Z → schedule_ok R mid b →
  push_runs mid
    match ack with
    | Ack_Exists => Ret (Some (Ok Deduped))
    | Ack_Created => Ret (Some (Ok Pushed))
    | Ack_InProgress =>
        do next <- in_progress b;
        match next.2 with
        | Some wait => do _ <- request (Push_Sleep wait); push_loop conn fuel info next.1 renewed
        | None => Ret (Some (Err (OtherError "another pusher is still uploading this path")))
        end
    end tr2 now' r →
  settles b renewed now (S fuel) (tr1 ++ tr2) r.
Proof.
  intros Hput Hsend Hr1 Hack Hmid Hok H.
  assert (Hlast : ∀ o, outcome_of ack = Some o → tr2 = [] ∧ r = Some (Ok o) →
    settles b renewed now (S fuel) (tr1 ++ tr2) r).
  { intros o Ho [-> ->]. rewrite app_nil_r.
    apply settles_last; unfold acks; rewrite ?Hput; cbn; [done|lia|lia|eauto|].
    exists []. split; [constructor|]. exists ack. by rewrite Hack. }
  destruct ack.
  1,2: apply prog_runs_ret_inv in H as (-> & -> & ->); by eapply Hlast.
  apply prog_runs_bind in H as (next & n3 & trc & trd & -> & Hnext & H).
  apply (in_progress_runs R) in Hnext as (Hn3 & Hpc & Hrc & Hdec); [|done].
  assert (Hren : renewals (tr1 ++ trc) = 0) by (rewrite renewals_app; lia).
  rewrite app_assoc. eapply (settles_wait _ _ _ n3 next _ _ _ p token); [|done|left; lia| | | |exact H|done].
  - by rewrite puts_app, Hpc, app_nil_r.
  - by intros ack [= <-]%(eq_trans (eq_sym Hack)).
  - intros _. rewrite Hack. by left.
  - by eapply decreases_before.
Qed.

(** A PUT fails. *)
Lemma settles_error b (renewed : bool) now mid tr1 tr2 now' p token error r :
  puts tr1 = [p] → sends conn info token p → renewals tr1 = 0 → ack_of p.2 = Err error →
  (now ≤ mid)%Z → schedule_ok R mid b →
  push_runs mid
    (do renewal <- renewed_after renewed error token;
     match renewal with
     | Err e => Ret (Some (Err (OtherError e)))
     | Ok true => push_loop conn fuel info b true
     | Ok false =>
         do next <- backoff_next b error;
         match next.2 with
         | Some wait => do _ <- request (Push_Sleep wait); push_loop conn fuel info next.1 renewed
         | None => Ret (Some (Err error))
         end
     end) tr2 now' r →
  settles b renewed now (S fuel) (tr1 ++ tr2) r.
Proof.
  intros Hput Hsend Hr1 Hack Hmid Hok H.
  apply prog_runs_bind in H as (renewal & n3 & trc & trd & -> & Hren & H).
  apply renewed_after_runs in Hren as (Hn3 & Hpc & Hrc & Htrue & Hfalse). rewrite app_assoc.
  assert (Hp2 : puts (tr1 ++ trc) = [p]) by (by rewrite puts_app, Hpc, app_nil_r).
  assert (Hr2 : renewals (tr1 ++ trc) = renewals trc) by (rewrite renewals_app; lia).
  destruct renewal as [[]|e].
  - destruct (Htrue eq_refl) as [-> Hun]. apply IH in H; [|by eapply schedule_ok_later].
    eapply settles_next; [done|done| | | |done].
    + rewrite Hack. right. eauto.
    + pose proof (attempts_left_later b true now n3). unfold attempts_left in *. lia.
    + rewrite Hr2. cbn in Hrc |- *. lia.
  - apply prog_runs_bind in H as (next & n4 & tre & trf & -> & Hnext & H).
    apply (backoff_next_runs R) in Hnext as (Hn4 & Hpe & Hre & Hdec & Hwhy);
      [|by eapply schedule_ok_later|by intros after ->; eapply ack_of_shed].
    rewrite app_assoc.
    assert (Hr3 : renewals ((tr1 ++ trc) ++ tre) = renewals trc) by (rewrite renewals_app; lia).
    eapply (settles_wait _ _ _ n4 next _ _ _ p token); [|done| | | | |exact H|].
    + by rewrite puts_app, Hp2, Hpe.
    + destruct (Hfalse eq_refl) as [?|[-> _]]; [left; lia|right; split; [done|lia]].
    + intros ack Heq. congruence.
    + intros Hsome. rewrite Hack. right. exists error. split; [done|]. destruct (Hwhy Hsome); eauto.
    + eapply decreases_before; [done|lia].
    + intros Hsome. rewrite Hr3. destruct (Hfalse eq_refl) as [?|[_ Hun]]; [done|].
      destruct error as [status body| | | |]; try done. cbn in Hun. apply Z.eqb_eq in Hun as ->.
      by destruct (Hwhy Hsome) as [[]|].
  - apply prog_runs_ret_inv in H as (-> & -> & ->). rewrite app_nil_r.
    apply settles_last; unfold acks; rewrite ?Hp2; cbn; [done|lia|lia|eauto|].
    exists []. split; [constructor|]. right. exists (ack_of p.2). split; [done|]. rewrite Hack. naive_solver.
Qed.
End iteration.

Lemma push_loop_settles R fuel b renewed now tr now' r :
  push_runs now (push_loop conn fuel info b renewed) tr now' r → schedule_ok R now b →
  settles b renewed now fuel tr r.
Proof.
  revert b renewed now tr now' r. induction fuel as [|fuel IH]; intros b renewed now tr now' r H Hok.
  { apply prog_runs_ret_inv in H as (-> & -> & ->). split; [cbn; lia|lia| |constructor|by exists []].
    change (renewals []) with 0. lia. }
  cbn [push_loop] in H. apply prog_runs_request in H as (token & n1 & tr0 & -> & Hn1 & H). cbn in Hn1.
  destruct token as [token|e].
  2: { apply prog_runs_ret_inv in H as (-> & -> & ->).
       apply settles_last; [done|cbn; lia|change (renewals [_]) with 0; lia|constructor|by exists []; auto]. }
  apply prog_runs_bind in H as (ack & n2 & tra & trb & -> & Ha & H).
  apply attempt_runs in Ha as (Hn2 & Hra & Hput). rewrite app_comm_cons.
  assert (Hp : puts (Ev Push_Token (Ok token) :: tra) = puts tra) by done.
  assert (Hr1 : renewals (Ev Push_Token (Ok token) :: tra) = 0) by done.
  revert Hp Hr1. generalize (Ev Push_Token (Ok token) :: tra). intros tr1 Hp Hr1. rewrite <-Hp in Hput.
  destruct Hput as [[Hnil [e ->]]|(p & Hput & Hsend & ->)].
  - unfold renewed_after, backoff_next in H. cbn in H. rewrite andb_false_r in H. cbn in H.
    rewrite orb_true_r in H. cbn in H. apply prog_runs_ret_inv in H as (-> & -> & ->). rewrite app_nil_r.
    apply settles_last; unfold acks; rewrite ?Hnil; [done|cbn; lia|lia|constructor|by exists []; auto].
  - destruct (ack_of p.2) as [ack|error] eqn:Hack.
    + eapply (settles_ack R _ IH _ _ _ n2); try done; [lia|]. eapply schedule_ok_later; [done|lia].
    + eapply (settles_error R _ IH _ _ _ n2); try done; [lia|]. eapply schedule_ok_later; [done|lia].
Qed.
End settle.

(** [last] moved by the ticks of [events]. *)
Fixpoint last_tick {T} (last : Z) (events : list (WatchEvent T)) : Z :=
  match events with
  | [] => last
  | Watch_Tick at_ :: events => last_tick at_ events
  | _ :: events => last_tick last events
  end.

(** An upload is given up at a timer exactly when its last tick is [idle] old. *)
Lemma unless_stalled_spec {T} idle last (events : list (WatchEvent T)) r :
  unless_stalled idle last events = Some r →
  ∃ before e after, events = before ++ e :: after ∧ (∀ v, Watch_Done v ∉ before) ∧
    (∀ pre t post, before = pre ++ Watch_Timer t :: post → (t < last_tick last pre + idle)%Z) ∧
    match r with
    | Ok v => e = Watch_Done v
    | Err _ => ∃ t, e = Watch_Timer t ∧ (last_tick last before + idle ≤ t)%Z
    end.
Proof.
  revert last. induction events as [|e events IH]; intros last; [done|].
  assert (Hskip : ∀ last', unless_stalled idle last' events = Some r →
    (∀ pre, last_tick last (e :: pre) = last_tick last' pre) → (∀ v, e ≠ Watch_Done v) →
    (∀ t, e = Watch_Timer t → (t < last + idle)%Z) →
    ∃ before e' after, e :: events = before ++ e' :: after ∧ (∀ v, Watch_Done v ∉ before) ∧
    (∀ pre t post, before = pre ++ Watch_Timer t :: post → (t < last_tick last pre + idle)%Z) ∧
    match r with
    | Ok v => e' = Watch_Done v
    | Err _ => ∃ t, e' = Watch_Timer t ∧ (last_tick last before + idle ≤ t)%Z
    end).
  { intros last' Hr Hlast Hdone Ht. apply IH in Hr as (before & e' & after & -> & Hno & Hquiet & Hend).
    exists (e :: before), e', after. split_and!; [done|set_solver| |by destruct r; rewrite ?Hlast].
    intros [|e0 pre] t post [= -> Hpre]; [by apply Ht|]. rewrite Hlast. by eapply Hquiet. }
  destruct e as [t|t|v]; cbn [unless_stalled].
  - intros Hr. by apply (Hskip t).
  - destruct (Z.leb_spec (last + idle) t).
    + intros [= <-]. exists [], (Watch_Timer t), events. split_and!; [done|set_solver|by intros []|by exists t].
    + intros Hr. apply (Hskip last); naive_solver.
  - intros [= <-]. exists [], (Watch_Done v), events. split_and!; [done|set_solver|by intros []|done].
Qed.

(** ** Properties *)

(** C13: Uploading one path ends, whatever the server answers: its waits are at least a second apart
    and end at a fifteen-minute deadline, so it makes at most 901 attempts for the first try and for
    each allowed retry, and one more for a renewed token; and that much fuel always gives an
    outcome. *)
Theorem push_one_terminates `{L : ClientLibs} conn info fuel now tr now' r :
  push_runs now (push_one conn fuel info) tr now' r → (0 ≤ co_max_retries conn)%Z →
  length (puts tr) ≤ 901 * S (Z.to_nat (co_max_retries conn)) + 1 ∧
  (901 * S (Z.to_nat (co_max_retries conn)) + 1 ≤ fuel → is_Some r).
Proof.
  intros H HR. apply prog_runs_request in H as (t & n1 & tr1 & -> & [-> Hn1] & H).
  apply (push_loop_settles _ _ (co_max_retries conn)) in H as [Hp Hr _ _ _]; [|split; cbn; lia].
  assert (Hleft : S (attempts_left (backoff_new n1 (co_max_retries conn)) false n1) =
    901 * S (Z.to_nat (co_max_retries conn)) + 1).
  { unfold attempts_left, waits_left, backoff_new. cbn. replace (n1 - n1)%Z with 0%Z by lia.
    change (Z.to_nat ((WAIT_DEADLINE - 0) / 1000)) with 900. lia. }
  rewrite Hleft in Hp. split; [done|]. intros. apply Hr. lia.
Qed.

(** Every request of push_one sends the path's own preamble and NAR, compressed at the configured
    level, to the path's own URL; it tries again only after an answer that allows it (another push
    in progress, a shed or retryable error, a 401); a path is reported pushed or deduplicated
    exactly by the last answer, never after another; and the token is renewed at most once. *)
Theorem push_one_answers `{L : ClientLibs} conn info fuel now tr now' r :
  push_runs now (push_one conn fuel info) tr now' r → (0 ≤ co_max_retries conn)%Z →
  Forall (λ p : Put, ∃ token : string, sends conn info token p) (puts tr) ∧
  verdict (acks tr) r ∧ renewals tr ≤ 1.
Proof.
  intros H HR. apply prog_runs_request in H as (t & n1 & tr1 & -> & [-> Hn1] & H).
  apply (push_loop_settles _ _ (co_max_retries conn)) in H as [_ _ Hn Hs Hv]; [done|split; cbn; lia].
Qed.

(** ** A run: turned away once, then stored *)

Definition toy_client : ClientLibs := {|
  preamble_to_json _ := Ok [123; 125]%Z;
  ack_from_json body := if bool_decide (body = "created") then Ok Ack_Created else Err "unknown status";
  hashes_from_json body :=
    Ok (if bool_decide (body = "one") then {["0123456789abcdfghijklmnpqrsvwxyz"]} else ∅);
  oauth_error _ := None;
  zstd_chunks _ _ contents := [contents];
|}.

Definition example_connection : Connection := mkConnection "https://push.example" 8 3 0 300000 (Some 4%Z).

Definition example_info : PathInfo :=
  mkPathInfo "/nix/store/0123456789abcdfghijklmnpqrsvwxyz-hello" "sha256:00" 5 [] None None [].

Definition example_body : Body := [Ok [2; 0; 0; 0; 123; 125]; Ok [1; 2; 3; 4; 5]]%Z.
Definition example_url : string := "https://push.example/api/v1/nar/0123456789abcdfghijklmnpqrsvwxyz".

(** One attempt, answered with [answer]. *)
Definition example_attempt (answer : Answer) : list (Event PushOp) :=
  [Ev Push_Token (Ok "t"); Ev (Push_Dump (pi_path example_info)) (Ok (mkDump [1; 2; 3; 4; 5]%Z None));
   Ev (Push_Put example_url "t" example_body 300000) (Ok answer)].

Definition example_trace : list (Event PushOp) :=
  Ev Push_Now 0%Z :: example_attempt (mkAnswer 429 (Some "2") (Ok "busy")) ++
  [Ev (Push_Random 2000) 7%Z; Ev Push_Now 10%Z; Ev (Push_Sleep 2007) tt] ++
  example_attempt (mkAnswer 201 None (Ok "created")).

Ltac answer b t := eapply (prog_runs_next (@push_step) _ _ _ b t); [by repeat split; vm_compute|cbn].

Lemma example_push fuel :
  prog_runs (@push_step) 0%Z (push_one (L := toy_client) example_connection (S (S fuel)) example_info)
    example_trace 2017%Z (Some (Ok Pushed)).
Proof.
  answer 0%Z 0%Z. answer (Ok "t" : Result string string) 0%Z.
  answer (Ok (mkDump [1; 2; 3; 4; 5]%Z None) : Result Dump string) 1%Z.
  answer (Ok (mkAnswer 429 (Some "2") (Ok "busy")) : Result Answer SendError) 3%Z.
  answer 7%Z 3%Z. answer 10%Z 10%Z. answer tt 2017%Z.
  answer (Ok "t" : Result string string) 2017%Z.
  answer (Ok (mkDump [1; 2; 3; 4; 5]%Z None) : Result Dump string) 2017%Z.
  answer (Ok (mkAnswer 201 None (Ok "created")) : Result Answer SendError) 2017%Z.
  constructor.
Qed.

Lemma push_one_terminates_witness :
  length (puts example_trace) ≤ 902 ∧ is_Some (Some (Ok Pushed : Result Outcome PushError)).
Proof.
  destruct (push_one_terminates (L := toy_client) example_connection example_info (S (S 900)) 0 example_trace
    2017 (Some (Ok Pushed)) (example_push 900)) as [Hp Hr]; [done|].
  change (Z.to_nat _) with 0 in Hp, Hr. split; [lia|apply Hr; lia].
Defined.

Lemma push_one_answers_witness :
  verdict [Err (Shed 2000); Ok Ack_Created] (Some (Ok Pushed)).
Proof.
  destruct (push_one_answers (L := toy_client) example_connection example_info 2 0 example_trace
    2017 (Some (Ok Pushed)) (example_push 0)) as (_ & Hv & _); [done|].
  exact Hv.
Defined.
