(* ===== verification/PathInfo.v ===== *)
(** * PathInfo: what nix says about paths

    [parse_path_info] and [path_info] of [crates/garret-client/src/push.rs]. A
    JSON document is a [Value], as in serde_json; its parser, and the
    deserialisation of one entry, are parameters. The run of [nix path-info] is
    its exit status and what it wrote. *)

From S2P Require Import Prelude Text Common Prog Upload.

#[warnings="-register-all"]
Inductive Value :=
  | V_Null
  | V_Bool (b : bool)
  | V_Number (n : Z)
  | V_String (s : string)
  | V_Array (items : list Value)
  | V_Object (fields : list (string * Value)).

(** The shape of the document, its display, and one entry as a [PathInfo]. *)
Class PathInfoJson := {
  value_from_slice : string → Result Value string;
  value_display : Value → string;
  info_from_value : Value → Result PathInfo string;
}.

(** [Value::get]; a [Map]'s entries have distinct keys. *)
Definition value_get (key : string) (v : Value) : option Value :=
  match v with
  | V_Object fields => snd <$> find (λ f, bool_decide (f.1 = key)) fields
  | _ => None
  end.

(** [v[key] = x] for a key the map does not hold yet; serde_json panics on a
    value that is no map. *)
Definition value_set (key : string) (x v : Value) : Result Value string :=
  match v with
  | V_Object fields => Ok (V_Object ((key, x) :: fields))
  | _ => Err ("cannot access key " +:+ key)
  end.

Definition value_as_str (v : Value) : option string :=
  match v with V_String s => Some s | _ => None end.

Definition is_invalid (info : Value) : bool :=
  match info with
  | V_Null => true
  | _ => match value_get "valid" info with Some (V_Bool false) => true | _ => false end
  end.

(** The name of an entry that is not valid. *)
Definition invalid_name (path : option string) (info : Value) : string :=
  match path with
  | Some path => path
  | None => default "" (v ← value_get "path" info; value_as_str v)
  end.

Section parse.
Context `{J : PathInfoJson}.

Definition entry_info (path : option string) (info : Value) : Result PathInfo string :=
  let? info := match path, value_get "path" info with
               | Some path, None => value_set "path" (V_String path) info
               | _, _ => Ok info
               end in
  info_from_value info.

Fixpoint parse_entries (entries : list (option string * Value)) (infos : list PathInfo) (invalid : list string)
    : Result (list PathInfo * list string) string :=
  match entries with
  | [] => Ok (infos, invalid)
  | (path, info) :: entries =>
      if is_invalid info then parse_entries entries infos (invalid ++ [invalid_name path info])
      else
        let? one := entry_info path info in
        parse_entries entries (infos ++ [one]) invalid
  end.

Definition entries_of (value : Value) : Result (list (option string * Value)) string :=
  match value with
  | V_Array items => Ok (map (λ i, (None, i)) items)
  | V_Object fields => Ok (map (λ f, (Some f.1, f.2)) fields)
  | other => Err ("unexpected nix path-info output: " +:+ value_display other)
  end.

Definition parse_path_info (stdout : string) : Result (list PathInfo) string :=
  let? value := map_err (λ e, "parsing nix path-info output: " +:+ e) (value_from_slice stdout) in
  let? entries := entries_of value in
  let? parsed := parse_entries entries [] [] in
  if is_nil parsed.2 then Ok parsed.1
  else Err ("not valid in the local store (build or fetch them first): " +:+ str_join " " parsed.2).

(** A finished [nix path-info]. *)
Record NixOutput := mkNixOutput {
  no_success : bool;
  no_stdout : string;
  no_stderr : string;
}.

Definition path_info (output : Result NixOutput string) : Result (list PathInfo) string :=
  let? output := map_err (λ e, "running `nix path-info` — is nix on PATH?: " +:+ e) output in
  if negb (no_success output) then Err ("nix path-info failed: " +:+ str_trim (no_stderr output))
  else parse_path_info (no_stdout output).

(** ** What is parsed *)

Lemma parse_entries_spec entries infos invalid :
  match parse_entries entries infos invalid with
  | Ok (infos', invalid') =>
      invalid' = invalid ++ omap (λ e, if is_invalid e.2 then Some (invalid_name e.1 e.2) else None) entries ∧
      ∃ more, infos' = infos ++ more ∧
        Forall2 (λ e info, entry_info e.1 e.2 = Ok info) (filter (λ e, is_invalid e.2 = false) entries) more
  | Err e => ∃ entry, entry ∈ entries ∧ is_invalid entry.2 = false ∧ entry_info entry.1 entry.2 = Err e
  end.
Proof.
  revert infos invalid. induction entries as [|[path info] entries IH]; intros infos invalid.
  - cbn. rewrite app_nil_r. split; [done|]. exists []. by rewrite app_nil_r.
  - cbn [parse_entries]. destruct (is_invalid info) eqn:Hi.
    + specialize (IH infos (invalid ++ [invalid_name path info])).
      destruct (parse_entries _ _ _) as [[infos' invalid']|e].
      * destruct IH as (-> & more & -> & Hmore). rewrite filter_cons_False by (cbn; congruence).
        cbn. rewrite Hi, <-app_assoc. split; [done|]. by exists more.
      * destruct IH as (entry & ? & ?). exists entry. by split; [right|].
    + destruct (entry_info path info) as [one|e] eqn:He.
      * specialize (IH (infos ++ [one]) invalid). destruct (parse_entries _ _ _) as [[infos' invalid']|e].
        -- destruct IH as (-> & more & -> & Hmore). rewrite filter_cons_True by done. cbn. rewrite Hi. split; [done|].
           exists (one :: more). split; [by rewrite <-app_assoc|by constructor].
        -- destruct IH as (entry & ? & ?). exists entry. by split; [right|].
      * exists (path, info). split_and!; [left|done..].
Qed.

(** A successful [parse_path_info] has every entry, decoded, in order. *)
Theorem path_info_is_whole stdout infos :
  parse_path_info stdout = Ok infos →
  ∃ value entries, value_from_slice stdout = Ok value ∧ entries_of value = Ok entries ∧
    Forall2 (λ e info, is_invalid e.2 = false ∧ entry_info e.1 e.2 = Ok info) entries infos.
Proof.
  unfold parse_path_info. destruct (value_from_slice stdout) as [value|]; [cbn|done].
  destruct (entries_of value) as [entries|] eqn:He; [|done].
  pose proof (parse_entries_spec entries [] []) as Hp.
  destruct (parse_entries entries [] []) as [[infos' invalid]|]; [|done]. cbn in Hp |- *.
  destruct Hp as (Hinv & more & -> & Hmore). destruct invalid; [|done]. intros [= <-]. exists value, entries.
  split_and!; [done|done|]. cbn.
  assert (Hall : Forall (λ e, is_invalid e.2 = false) entries).
  { apply Forall_forall. intros e Hin. destruct (is_invalid e.2) eqn:Hi; [|done]. exfalso.
    assert (Hn : invalid_name e.1 e.2 ∈ ([] : list string)); [|by apply elem_of_nil in Hn].
    rewrite Hinv. apply list_elem_of_omap. exists e. by rewrite Hi. }
  rewrite filter_all in Hmore by done.
  clear -Hall Hmore. induction Hmore; inversion Hall; subst; constructor; auto.
Qed.
End parse.
