(* ===== verification/Push.v ===== *)
(** * Push: pushing a closure

    [crates/garret-client/src/push.rs], from [push_tracked] up: the order of a
    batch, the upstream filter, the Negotiation, the pool of uploads and the
    report of a run. A run is a [Prog] over [RunOp]; the pool is a step relation,
    since [buffer_unordered] decides the interleaving. What the calls of the
    report print is in Report; here they are the events of [--json]. *)

From stdpp Require Import pretty.
From S2P Require Import Prelude Text Common Kahn Prog Upload.

(** ** References first *)

Definition batch_edges (paths : list PathInfo) : list (nat * nat) :=
  let index := index_of pi_path paths in
  concat (imap (λ i info,
    omap (λ reference,
      match index !! reference with
      | Some j => if decide (j ≠ i) then Some (j, i) else None
      | None => None
      end) (pi_references info)) paths).

(** [while let Some(&i) = order.get(next)]. *)
Fixpoint place_queue (fuel : nat) (referrers : list (list nat)) (waiting order : list nat) (next : nat)
    : list nat * list nat :=
  match fuel with
  | 0 => (waiting, order)
  | S fuel =>
      match order !! next with
      | None => (waiting, order)
      | Some i =>
          let '(waiting, fresh) := relax waiting (succ_of referrers i) in
          place_queue fuel referrers waiting (order ++ fresh) (S next)
      end
  end.

Definition references_order (paths : list PathInfo) : list nat :=
  let n := length paths in
  let '(referrers, waiting) := build_graph n (batch_edges paths) in
  let '(waiting, order) := place_queue (S n) referrers waiting (sources waiting) 0 in
  order ++ filter (λ i, 0 < nth i waiting 0) (seq 0 n).

(** Each index is placed once, so no slot is found empty. *)
Definition references_first (paths : list PathInfo) : list PathInfo :=
  omap (λ i, paths !! i) (references_order paths).

(** ** Filtering and counting *)

Definition key_name (key : string) : string :=
  match split_once ":" key with Some (name, _) => name | None => key end.

Definition signed_by (signatures key_names : list string) : bool :=
  existsb (λ sig, existsb (λ name, bool_decide (name = key_name sig)) key_names) signatures.

Definition partition_upstream (closure : list PathInfo) (upstream_keys : list string)
    : list PathInfo * list PathInfo :=
  (filter (λ p, negb (signed_by (pi_signatures p) upstream_keys)) closure,
   filter (λ p, signed_by (pi_signatures p) upstream_keys) closure).

Definition retain_missing (infos : list PathInfo) (missing : gset string) : list PathInfo :=
  filter (λ p, hash_of_store_path (pi_path p) ∈ missing) infos.

(** A sum of [u64]s, wrapping as release builds do. *)
Definition nar_bytes (paths : list PathInfo) : Z :=
  (sum_Z (map (λ p, Z.max (pi_nar_size p) 0) paths) mod 2 ^ 64)%Z.

Record Summary := mkSummary {
  su_pushed : nat;
  su_deduped : nat;
  su_failed : nat;
  su_nar_bytes : Z;
}.

Definition summary_default : Summary := mkSummary 0 0 0 0.

Definition add_assign (a b : Summary) : Summary :=
  mkSummary (su_pushed a + su_pushed b) (su_deduped a + su_deduped b) (su_failed a + su_failed b)
    ((su_nar_bytes a + su_nar_bytes b) mod 2 ^ 64)%Z.

Definition tally_one (acc : Summary * list string) (e : string * Outcome) : Summary * list string :=
  let '(s, failed) := acc in
  match e.2 with
  | Pushed => (mkSummary (S (su_pushed s)) (su_deduped s) (su_failed s) (su_nar_bytes s), failed)
  | Deduped => (mkSummary (su_pushed s) (S (su_deduped s)) (su_failed s) (su_nar_bytes s), failed)
  | Failed _ => (mkSummary (su_pushed s) (su_deduped s) (S (su_failed s)) (su_nar_bytes s), failed ++ [e.1])
  | Upstream | WouldPush => (s, failed)
  end.

Definition tally (outcomes : list (string * Outcome)) (nar_bytes : Z) : Summary * list string :=
  foldl tally_one (mkSummary 0 0 0 nar_bytes, []) outcomes.

(** ** The pool

    [buffer_unordered(jobs)] over the ordered batch: at most [jobs] uploads
    run, the next starts when one of them ends, in whatever order they end. *)

Record Pool := mkPool {
  po_queue : list PathInfo;
  po_running : list PathInfo;
  po_done : list (PathInfo * Outcome);
}.

Definition outcome_of_result (r : Result Outcome PushError) : Outcome :=
  match r with Ok outcome => outcome | Err e => Failed e end.

Inductive push_pool_step (jobs : nat) : Pool → Pool → Prop :=
  | pool_start info queue running done_ :
      length running < jobs →
      push_pool_step jobs (mkPool (info :: queue) running done_) (mkPool queue (running ++ [info]) done_)
  | pool_finish queue before info after done_ r :
      (∀ o, r = Ok o → o = Pushed ∨ o = Deduped) →
      push_pool_step jobs (mkPool queue (before ++ info :: after) done_)
        (mkPool queue (before ++ after) (done_ ++ [(info, outcome_of_result r)])).

Definition pool_init (paths : list PathInfo) : Pool := mkPool (references_first paths) [] [].

(** A run of the pool to its end, and the outcomes in the order they came. *)
Definition push_tracked (jobs : nat) (paths : list PathInfo) (outcomes : list (PathInfo * Outcome)) : Prop :=
  rtc (push_pool_step jobs) (pool_init paths) (mkPool [] [] outcomes).

(** What [push_tracked] returns. *)
Definition tracked (outcomes : list (PathInfo * Outcome)) (paths : list PathInfo) : Summary * list string :=
  tally (map (λ e, (pi_path e.1, e.2)) outcomes) (nar_bytes paths).

(** ** Reports *)

Inductive ReportEvent :=
  | Ev_Negotiated (closure upstream missing : nat) (nar_bytes : Z)
  | Ev_Path (path status : string) (nar_size : Z) (error : option PushError)
  | Ev_Rechecked (missing : nat) (nar_bytes : Z)
  | Ev_Done (summary : Summary).

Definition as_str (o : Outcome) : string :=
  match o with
  | Pushed => "pushed"
  | Deduped => "deduped"
  | Failed _ => "failed"
  | Upstream => "upstream"
  | WouldPush => "would-push"
  end.

Definition path_event (info : PathInfo) (outcome : Outcome) : ReportEvent :=
  Ev_Path (pi_path info) (as_str outcome) (pi_nar_size info)
    match outcome with Failed e => Some e | _ => None end.

Definition negotiated (closure : nat) (upstream : list PathInfo) (missing : nat) (nar_bytes : Z)
    : list ReportEvent :=
  Ev_Negotiated closure (length upstream) missing nar_bytes :: map (λ info, path_event info Upstream) upstream.

(** The calls a run makes of its [Report], and their events under [--json]. *)
Inductive ReportCall :=
  | Report_DryRun (closure : nat) (upstream missing : list PathInfo)
  | Report_Start (closure : nat) (upstream missing : list PathInfo)
  | Report_Rechecked (gone : list PathInfo)
  | Report_Finish (summary : Summary).

Definition report_events (call : ReportCall) : list ReportEvent :=
  match call with
  | Report_DryRun closure upstream missing =>
      negotiated closure upstream (length missing) (nar_bytes missing) ++
      map (λ info, path_event info WouldPush) missing ++ [Ev_Done (mkSummary 0 0 0 (nar_bytes missing))]
  | Report_Start closure upstream missing => negotiated closure upstream (length missing) (nar_bytes missing)
  | Report_Rechecked gone => [Ev_Rechecked (length gone) (nar_bytes gone)]
  | Report_Finish summary => [Ev_Done summary]
  end.

(** ** Runs *)

Inductive NegotiationError :=
  | Refused (detail : string)
  | Neg_Other (message : string).

Inductive RunOp : Type → Type :=
  | Run_Token : RunOp (Result string string)
  | Run_Renew (rejected : string) : RunOp (Result (option string) string)
  | Run_Post (url token : string) (hashes : list string) : RunOp (Result Answer string)
  | Run_Push (paths : list PathInfo) : RunOp (list (PathInfo * Outcome))
  | Run_Report (call : ReportCall) : RunOp unit.

Abbreviation Run := (Prog RunOp).

(** The reason phrase after a status code is left out of the message. *)
Definition ensure_success `{L : ClientLibs} (a : Answer) (what : string) : Result Answer string :=
  if is_success (an_status a) then Ok a
  else
    let detail := error_detail a in
    if bool_decide (detail = "") then Err (what +:+ ": " +:+ pretty (an_status a))
    else Err (what +:+ ": " +:+ pretty (an_status a) +:+ ": " +:+ detail).

Section run.
Context `{L : ClientLibs} (conn : Connection).

Definition send (hashes : list string) (token : string) : Run (Result Answer NegotiationError) :=
  do sent <- request (Run_Post (co_endpoint conn +:+ MISSING_PATHS) token hashes);
  Ret (map_err (λ e, Neg_Other ("negotiating missing paths: " +:+ e)) sent).

Definition send_again (hashes : list string) (token : string) (response : Answer)
    : Run (Result Answer NegotiationError) :=
  if (an_status response =? 401)%Z then
    do renewal <- request (Run_Renew token);
    match renewal with
    | Err e => Ret (Err (Neg_Other ("the Pusher refused the token, and renewing it failed: " +:+ e)))
    | Ok (Some token) => send hashes token
    | Ok None => Ret (Ok response)
    end
  else Ret (Ok response).

Definition answered (response : Answer) : Result (gset string) NegotiationError :=
  if (an_status response =? 403)%Z then Err (Refused (error_detail response))
  else
    let? response := map_err Neg_Other (ensure_success response "negotiation rejected") in
    match an_body response with
    | Err _ => Err (Neg_Other "parsing the negotiation response")
    | Ok text => map_err (λ e, Neg_Other ("parsing the negotiation response: " +:+ e)) (hashes_from_json text)
    end.

Definition negotiate (hashes : list string) : Run (Result (gset string) NegotiationError) :=
  do token <- request Run_Token;
  match token with
  | Err e => Ret (Err (Neg_Other e))
  | Ok token =>
      do? response <- send hashes token;
      do? response <- send_again hashes token response;
      Ret (answered response)
  end.

Definition closure_hashes (closure : list PathInfo) : list string :=
  map (λ p, hash_of_store_path (pi_path p)) closure.

Definition missing (closure : list PathInfo) : Run (Result (list PathInfo) NegotiationError) :=
  do? absent <- negotiate (closure_hashes closure);
  Ret (Ok (retain_missing closure absent)).

(** The second Negotiation, after a clean push of something. *)
Definition recheck (own missing_ : list PathInfo) (summary : Summary) : Run (Summary * option NegotiationError) :=
  if negb (is_nil missing_) && (su_failed summary =? 0) then
    do again <- missing own;
    match again with
    | Ok [] => Ret (summary, None)
    | Ok gone =>
        do _ <- request (Run_Report (Report_Rechecked gone));
        do outcomes <- request (Run_Push gone);
        Ret (add_assign summary (tracked outcomes gone).1, None)
    | Err e => Ret (summary, Some e)
    end
  else Ret (summary, None).

Definition push_closure (closure : list PathInfo) (upstream_keys : list string) (dry_run : bool)
    : Run (Result Summary NegotiationError) :=
  let '(own, upstream) := partition_upstream closure upstream_keys in
  do? missing_ <- missing own;
  if dry_run then
    do _ <- request (Run_Report (Report_DryRun (length closure) upstream missing_));
    Ret (Ok summary_default)
  else
    do _ <- request (Run_Report (Report_Start (length closure) upstream missing_));
    do outcomes <- request (Run_Push missing_);
    do checked <- recheck own missing_ (tracked outcomes missing_).1;
    do _ <- request (Run_Report (Report_Finish checked.1));
    Ret (match checked.2 with Some e => Err e | None => Ok checked.1 end).
End run.

(** ** The order of a batch *)

Lemma batch_edges_sound paths j i :
  (j, i) ∈ batch_edges paths →
  j ≠ i ∧ ∃ p q, paths !! i = Some p ∧ paths !! j = Some q ∧ pi_path q ∈ pi_references p.
Proof.
  unfold batch_edges. rewrite list_elem_of_In, in_concat. intros (l & Hl & Hin).
  apply list_elem_of_In in Hl, Hin. apply elem_of_lookup_imap in Hl as (i' & p & -> & Hp).
  apply list_elem_of_omap in Hin as (r & Hr & Heq).
  destruct (index_of pi_path paths !! r) as [j'|] eqn:Hj; [|done]. case_decide; [|done]. simplify_eq.
  apply index_of_sound in Hj as (q & Hq & <-). eauto 6.
Qed.

Lemma batch_edges_complete paths j i p q :
  NoDup (map pi_path paths) → j ≠ i → paths !! i = Some p → paths !! j = Some q →
  pi_path q ∈ pi_references p → (j, i) ∈ batch_edges paths.
Proof.
  intros Hnd Hne Hp Hq Hr. unfold batch_edges. rewrite list_elem_of_In, in_concat. eexists. split.
  - apply list_elem_of_In, elem_of_lookup_imap. by exists i, p.
  - apply list_elem_of_In, list_elem_of_omap. exists (pi_path q). split; [done|].
    rewrite (proj2 (index_of_Some pi_path paths (pi_path q) j Hnd)) by eauto. by rewrite decide_True by done.
Qed.

Lemma batch_edges_ok paths : edges_ok (length paths) (batch_edges paths).
Proof.
  apply Forall_forall. intros [j i] (_ & p & q & Hp & Hq & _)%batch_edges_sound.
  split; by eapply lookup_lt_Some.
Qed.

Lemma place_queue_inv n succs fuel waiting order next :
  (∀ j k, k ∈ succ_of succs j → k < n) →
  kahn_inv n succs waiting (take next order) (drop next order) → next ≤ length order → n < fuel + next →
  let '(w', order') := place_queue fuel succs waiting order next in kahn_inv n succs w' order' [].
Proof.
  intros Hok. revert waiting order next. induction fuel as [|fuel IH]; intros waiting order next Hinv Hle Hf.
  - pose proof (kahn_placed_length _ _ _ _ _ Hinv) as Hlen. rewrite length_take in Hlen. lia.
  - cbn [place_queue]. destruct (order !! next) as [i|] eqn:Hi.
    + destruct (relax waiting (succ_of succs i)) as [w' fresh] eqn:Hr.
      pose proof (lookup_lt_Some _ _ _ Hi). apply IH; [|rewrite length_app; lia|lia].
      rewrite take_app_le, drop_app_le by lia. rewrite (take_S_r _ _ i) by done.
      eapply kahn_step; [done|done| |done]. by rewrite (drop_S order i next).
    + apply lookup_ge_None in Hi. by rewrite take_ge, drop_ge in Hinv by lia.
Qed.

(** The order is Kahn's, with what it could not place behind. *)
Lemma references_order_split paths :
  ∃ succs waiting placed,
    (∃ w0, build_graph (length paths) (batch_edges paths) = (succs, w0)) ∧
    kahn_inv (length paths) succs waiting placed [] ∧
    references_order paths = placed ++ filter (λ i, 0 < nth i waiting 0) (seq 0 (length paths)).
Proof.
  unfold references_order. destruct (build_graph (length paths) (batch_edges paths)) as [succs w0] eqn:Hb.
  pose proof (batch_edges_ok paths) as Hok.
  pose proof (place_queue_inv (length paths) succs (S (length paths)) w0 (sources w0) 0
    (build_succs_ok _ _ _ _ Hok Hb) (kahn_start _ _ _ _ Hok Hb)) as Hinv.
  destruct (place_queue _ _ _ _ _) as [w' order]. exists succs, w', order.
  split_and!; [by exists w0|apply Hinv; lia|done].
Qed.

Lemma references_order_perm paths : references_order paths ≡ₚ seq 0 (length paths).
Proof.
  destruct (references_order_split paths) as (succs & waiting & placed & _ & Hinv & ->).
  destruct Hinv as [_ Hnd Hb _ Hz _]. rewrite app_nil_r in Hnd, Hb.
  apply NoDup_Permutation; [|apply NoDup_seq|].
  - apply NoDup_app. split_and!; [done| |apply NoDup_filter, NoDup_seq].
    intros k Hk [Hpos Hseq]%list_elem_of_filter. apply elem_of_seq in Hseq.
    specialize (Hz k). rewrite app_nil_r in Hz. apply Hz in Hk; lia.
  - intros k. rewrite elem_of_app, list_elem_of_filter, elem_of_seq. specialize (Hz k). rewrite app_nil_r in Hz.
    split; [intros [Hk%Hb|[_ ?]]; lia|]. intros [_ Hk]. cbn in Hk.
    destruct (decide (nth k waiting 0 = 0)) as [H0|]; [left; by apply Hz|right; lia].
Qed.

Lemma references_first_perm paths : references_first paths ≡ₚ paths.
Proof. unfold references_first. by rewrite references_order_perm, omap_seq_lookup. Qed.

(** [rank] witnesses that the references inside the batch have no cycle. *)
Definition batch_acyclic (paths : list PathInfo) : Prop :=
  ∃ rank : string → nat, ∀ p q, p ∈ paths → q ∈ paths → pi_path q ≠ pi_path p →
    pi_path q ∈ pi_references p → rank (pi_path q) < rank (pi_path p).

Lemma omap_split {A B} (f : A → option B) l before x after :
  omap f l = before ++ x :: after → ∃ l1 a l2, l = l1 ++ a :: l2 ∧ omap f l1 = before ∧ f a = Some x.
Proof.
  revert before. induction l as [|a l IH]; intros before Heq; [by destruct before|].
  cbn in Heq. destruct (f a) as [y|] eqn:Hf.
  - destruct before as [|y' before]; simplify_eq/=.
    + by exists [], a, l.
    + destruct (IH before) as (l1 & a' & l2 & -> & <- & ?); [done|]. exists (a :: l1), a', l2.
      split_and!; [done|cbn; by rewrite Hf|done].
  - destruct (IH before Heq) as (l1 & a' & l2 & -> & <- & ?). exists (a :: l1), a', l2.
    split_and!; [done|cbn; by rewrite Hf|done].
Qed.

Lemma references_order_placed paths :
  NoDup (map pi_path paths) → batch_acyclic paths →
  ∀ pre i post, references_order paths = pre ++ i :: post → ∀ j, (j, i) ∈ batch_edges paths → j ∈ pre.
Proof.
  intros Hnd [rank Hrank] pre i post.
  destruct (references_order_split paths) as (succs & waiting & placed & [w0 Hb] & Hinv & ->).
  pose proof (batch_edges_ok paths) as Hok.
  assert (Hfull : placed ≡ₚ seq 0 (length paths)).
  { eapply kahn_complete; [done|].
    exists (λ i, match paths !! i with Some p => rank (pi_path p) | None => 0 end).
    intros j k He. apply (build_edge _ _ _ _ _ _ Hok Hb), batch_edges_sound in He
      as (Hne & p & q & Hp & Hq & Hr). rewrite Hp, Hq.
    apply Hrank; [by eapply list_elem_of_lookup_2..| |done].
    intros Heq. apply Hne. eapply (NoDup_lookup _ _ _ _ Hnd); rewrite list_lookup_fmap; [by rewrite Hq|].
    rewrite Hp. cbn. by rewrite Heq. }
  assert (Hnil : filter (λ i, 0 < nth i waiting 0) (seq 0 (length paths)) = []).
  { apply elem_of_nil_inv. intros k [Hpos Hk]%list_elem_of_filter. rewrite <-Hfull in Hk.
    destruct Hinv as [_ _ Hbd _ Hz _]. rewrite app_nil_r in *. apply Hz in Hk; [lia|by apply Hbd]. }
  rewrite Hnil, app_nil_r. intros Heq j He. destruct Hinv as [_ _ _ _ _ Ht].
  eapply Ht; [done|]. by apply (build_edge _ _ _ _ _ _ Hok Hb).
Qed.

Lemma references_first_placed paths before info after q :
  NoDup (map pi_path paths) → batch_acyclic paths →
  references_first paths = before ++ info :: after →
  q ∈ paths → pi_path q ∈ pi_references info → pi_path q ≠ pi_path info → q ∈ before.
Proof.
  intros Hnd Hac Heq Hq Hr Hne. apply omap_split in Heq as (pre & i & post & Hord & <- & Hi).
  apply list_elem_of_lookup in Hq as [j Hj]. apply list_elem_of_omap. exists j. split; [|done].
  eapply references_order_placed; [done|done|done|]. eapply batch_edges_complete; [done| |done|done|done].
  intros ->. by simplify_eq.
Qed.

(** ** The pool's books *)

Definition settled (o : Outcome) : Prop := o = Pushed ∨ o = Deduped ∨ ∃ e, o = Failed e.

Record pool_books (jobs : nat) (paths : list PathInfo) (n : nat) (pool : Pool) (started : list PathInfo) : Prop := {
  pb_jobs : length (po_running pool) ≤ jobs;
  pb_started : references_first paths = started ++ po_queue pool;
  pb_all : started ≡ₚ po_running pool ++ map fst (po_done pool);
  pb_steps : n + length (po_running pool) + 2 * length (po_queue pool) = 2 * length paths;
  pb_settled : Forall (λ e : PathInfo * Outcome, settled e.2) (po_done pool);
  pb_serial : jobs = 1 → started = map fst (po_done pool) ++ po_running pool;
}.

Lemma pool_books_init jobs paths : pool_books jobs paths 0 (pool_init paths) [].
Proof.
  split; cbn; [lia|done|done| |constructor|done]. by rewrite references_first_perm.
Qed.

Lemma pool_books_step jobs paths n pool pool' started :
  pool_books jobs paths n pool started → push_pool_step jobs pool pool' →
  ∃ started', pool_books jobs paths (S n) pool' started'.
Proof.
  intros [Hj Hs Ha Hn Hset Hser] Hstep.
  destruct Hstep as [info queue running done_ Hlt|queue before info after done_ r Hr]; cbn in *.
  - exists (started ++ [info]). split; cbn; rewrite ?length_app; cbn in *; [lia| | |lia|done|].
    + by rewrite Hs, <-app_assoc.
    + rewrite Ha. solve_Permutation.
    + intros Hone. by rewrite Hser, <-app_assoc by done.
  - exists started. split; cbn; rewrite ?length_app in *; cbn in *; [lia|done| |lia| |].
    + rewrite Ha, map_app. cbn. solve_Permutation.
    + apply Forall_app_2, Forall_singleton; [done|]. unfold settled. cbn. destruct r as [o|e]; cbn; [|eauto].
      destruct (Hr o eq_refl) as [->| ->]; auto.
    + intros ->. rewrite Hser by done. destruct before, after; cbn in *; [|lia..].
      by rewrite map_app, app_nil_r.
Qed.

Lemma pool_books_reached jobs paths n pool :
  nsteps (push_pool_step jobs) n (pool_init paths) pool →
  ∃ started, pool_books jobs paths n pool started.
Proof.
  revert pool. induction n as [|n IH]; intros pool H.
  - inversion H; subst. eexists. apply pool_books_init.
  - apply nsteps_inv_r in H as (mid & [started Hb]%IH & Hstep). by eapply pool_books_step.
Qed.

Lemma pool_progress jobs pool :
  0 < jobs → length (po_running pool) ≤ jobs →
  pool = mkPool [] [] (po_done pool) ∨ ∃ pool', push_pool_step jobs pool pool'.
Proof.
  intros Hpos Hle. destruct pool as [[|info queue] [|r running] done_]; cbn in *; [by left|right..].
  - eexists. by apply (pool_finish _ [] [] r running done_ (Ok Pushed)); [intros o [= <-]; left].
  - eexists. by apply pool_start.
  - eexists. by apply (pool_finish _ (info :: queue) [] r running done_ (Ok Pushed)); [intros o [= <-]; left].
Qed.

(** ** Counting outcomes *)

Definition failed_path (e : string * Outcome) : option string :=
  match e.2 with Failed _ => Some e.1 | _ => None end.

Lemma tally_fold outcomes s failed :
  Forall (λ e, settled e.2) outcomes →
  let '(s', failed') := foldl tally_one (s, failed) outcomes in
  failed' = failed ++ omap failed_path outcomes ∧
  su_failed s' = su_failed s + length (omap failed_path outcomes) ∧
  su_pushed s' + su_deduped s' + su_failed s' =
    su_pushed s + su_deduped s + su_failed s + length outcomes ∧
  su_nar_bytes s' = su_nar_bytes s.
Proof.
  intros Hset. revert s failed. induction Hset as [|[path o] outcomes Ho _ IH]; intros s failed.
  - cbn. rewrite app_nil_r. split_and!; done || lia.
  - cbn [foldl tally_one snd fst].
    destruct Ho as [Ho|[Ho|[e' Ho]]]; cbn in Ho; subst o;
      match goal with |- context [foldl _ (?s', ?f) _] => specialize (IH s' f) end;
      destruct (foldl _ _ _) as [s' failed']; cbn in *; rewrite <-?app_assoc in *; naive_solver lia.
Qed.

(** A settled batch is counted whole, and its failures are named. *)
Lemma tracked_spec outcomes paths :
  Forall (λ e : PathInfo * Outcome, settled e.2) outcomes →
  let '(s, failed) := tracked outcomes paths in
  su_pushed s + su_deduped s + su_failed s = length outcomes ∧ su_failed s = length failed ∧
  su_nar_bytes s = nar_bytes paths ∧
  ∀ path, path ∈ failed ↔ ∃ info e, (info, Failed e) ∈ outcomes ∧ pi_path info = path.
Proof.
  intros Hset. unfold tracked, tally.
  assert (Hmap : Forall (λ e, settled e.2) (map (λ e : PathInfo * Outcome, (pi_path e.1, e.2)) outcomes)).
  { by apply Forall_map. }
  pose proof (tally_fold _ (mkSummary 0 0 0 (nar_bytes paths)) [] Hmap) as H.
  destruct (foldl _ _ _) as [s failed]. cbn in H. destruct H as (-> & Hf & Hsum & Hb). split_and!.
  - by rewrite Hsum, length_map.
  - done.
  - done.
  - intros path. rewrite list_elem_of_omap. split.
    + intros ([path' o] & ([info o'] & [= -> ->] & Hin)%list_elem_of_fmap & Hp).
      destruct o'; cbn in Hp; simplify_eq. by exists info, error.
    + intros (info & e & Hin & <-). exists (pi_path info, Failed e). split; [|done].
      apply list_elem_of_fmap. by exists (info, Failed e).
Qed.

Lemma push_tracked_settled jobs paths outcomes :
  push_tracked jobs paths outcomes →
  map fst outcomes ≡ₚ paths ∧
  Forall (λ e : PathInfo * Outcome, settled e.2) outcomes.
Proof.
  intros [n H]%rtc_nsteps. apply pool_books_reached in H as [started [_ Hs Ha _ Hset _]]. cbn in *.
  split; [|done]. by rewrite <-Ha, <-(app_nil_r started), <-Hs, references_first_perm.
Qed.

(** references_first permutes the batch and, when the references within it are acyclic, puts every
    path after all the paths of the batch it refers to. *)
Theorem references_first_orders paths :
  references_first paths ≡ₚ paths ∧
  (NoDup (map pi_path paths) → batch_acyclic paths →
    ∀ before info after q, references_first paths = before ++ info :: after →
      q ∈ paths → pi_path q ∈ pi_references info → pi_path q ≠ pi_path info → q ∈ before).
Proof.
  split; [apply references_first_perm|]. intros. by eapply references_first_placed.
Qed.

(** The pool of uploads never runs more than its jobs, starts the paths in references-first order,
    always can step until every path has ended, ends within two steps a path, and its summary then
    counts each path exactly once and names exactly the failed ones. *)
Theorem push_pool_accounts jobs paths n pool :
  nsteps (push_pool_step jobs) n (pool_init paths) pool →
  length (po_running pool) ≤ jobs ∧ n ≤ 2 * length paths ∧
  (∃ started, references_first paths = started ++ po_queue pool ∧
    started ≡ₚ po_running pool ++ map fst (po_done pool)) ∧
  (0 < jobs → pool = mkPool [] [] (po_done pool) ∨ ∃ pool', push_pool_step jobs pool pool') ∧
  (po_queue pool = [] → po_running pool = [] →
    map fst (po_done pool) ≡ₚ paths ∧
    match tracked (po_done pool) paths with (s, failed) =>
      su_pushed s + su_deduped s + su_failed s = length paths ∧
      ∀ path, path ∈ failed ↔ ∃ info e, (info, Failed e) ∈ po_done pool ∧ pi_path info = path
    end).
Proof.
  intros [started Hb]%pool_books_reached. pose proof Hb as [Hj Hs Ha Hn Hset _].
  split_and!; [done|lia|by exists started|intros; by apply pool_progress|].
  intros Hq Hr. rewrite Hq, app_nil_r in Hs. rewrite Hr in Ha.
  assert (Hp : map fst (po_done pool) ≡ₚ paths) by (by rewrite <-(references_first_perm paths), Hs, Ha).
  split; [done|]. pose proof (tracked_spec _ paths Hset) as H.
  destruct (tracked _ _) as [s failed]. destruct H as (Hsum & _ & _ & Hf). split; [|done].
  by rewrite Hsum, <-Hp, length_map.
Qed.

(** With one job, whenever a path's upload has been started every reference of it in the batch has
    ended, so a push that is interrupted leaves the closures of what it uploaded. *)
Theorem serial_push_leaves_whole_closures paths pool info q :
  rtc (push_pool_step 1) (pool_init paths) pool →
  NoDup (map pi_path paths) → batch_acyclic paths →
  info ∈ po_running pool ++ map fst (po_done pool) →
  q ∈ paths → pi_path q ∈ pi_references info → pi_path q ≠ pi_path info →
  ∃ outcome, (q, outcome) ∈ po_done pool.
Proof.
  intros [n H]%rtc_nsteps Hnd Hac Hin Hq Hr Hne.
  apply pool_books_reached in H as [started [Hj Hs Ha _ _ Hser]]. specialize (Hser eq_refl).
  assert (Hi : info ∈ started) by (by rewrite Ha). apply list_elem_of_split in Hi as (before & after & ->).
  assert (Hb : q ∈ before).
  { rewrite <-app_assoc in Hs. by eapply references_first_placed. }
  assert (Hd : q ∈ map fst (po_done pool)).
  { destruct (po_running pool) as [|r [|]]; [| |cbn in Hj; lia].
    - rewrite app_nil_r in Hser. rewrite <-Hser. set_solver.
    - destruct (decide (after = [])) as [->|[after' [x ->]]%exists_last].
      + apply app_inj_tail in Hser as [<- _]. done.
      + rewrite app_comm_cons, app_assoc in Hser. apply app_inj_tail in Hser as [<- _]. set_solver. }
  apply list_elem_of_fmap in Hd as ([q' o] & -> & Hd). by exists o.
Qed.

(** ** What a run asks, pushes and reports *)

Section runs.
Context `{L : ClientLibs} (conn : Connection).

(** A Negotiation that was answered: the hashes named, and those absent. *)
Definition asked_of (e : Event RunOp) : option (list string * gset string) :=
  match e with
  | Ev op b =>
      match op in RunOp B return B → option (list string * gset string) with
      | Run_Post _ _ hashes => λ answer,
          match answer with
          | Ok a => match answered a with Ok absent => Some (hashes, absent) | Err _ => None end
          | Err _ => None
          end
      | _ => λ _, None
      end b
  end.
Definition asked (tr : list (Event RunOp)) : list (list string * gset string) := omap asked_of tr.

Definition pushed_of (e : Event RunOp) : option (list PathInfo * list (PathInfo * Outcome)) :=
  match e with
  | Ev op b =>
      match op in RunOp B return B → option (list PathInfo * list (PathInfo * Outcome)) with
      | Run_Push paths => λ outcomes, Some (paths, outcomes)
      | _ => λ _, None
      end b
  end.
Definition pushes (tr : list (Event RunOp)) : list (list PathInfo * list (PathInfo * Outcome)) := omap pushed_of tr.

(** The events printed; the pool prints one as each path settles. *)
Definition path_events (outcomes : list (PathInfo * Outcome)) : list ReportEvent :=
  map (λ e, path_event e.1 e.2) outcomes.
Definition report_of (e : Event RunOp) : list ReportEvent :=
  match e with
  | Ev op b =>
      match op in RunOp B return B → list ReportEvent with
      | Run_Report call => λ _, report_events call
      | Run_Push _ => λ outcomes, path_events outcomes
      | _ => λ _, []
      end b
  end.
Definition report (tr : list (Event RunOp)) : list ReportEvent := concat (map report_of tr).

Lemma report_app tr1 tr2 : report (tr1 ++ tr2) = report tr1 ++ report tr2.
Proof. unfold report. by rewrite map_app, concat_app. Qed.

(** Only questions so far. *)
Record asks (tr : list (Event RunOp)) (answers : list (list string * gset string)) : Prop := {
  as_asked : asked tr = answers;
  as_pushes : pushes tr = [];
  as_report : report tr = [];
}.

Lemma asks_app tr1 tr2 l1 l2 : asks tr1 l1 → asks tr2 l2 → asks (tr1 ++ tr2) (l1 ++ l2).
Proof.
  intros [<- H1 H2] [<- H3 H4]. split; [apply omap_app| |by rewrite report_app, H2, H4].
  unfold pushes in *. by rewrite omap_app, H1, H3.
Qed.

Definition answer_list {E} (hashes : list string) (r : Result (gset string) E) : list (list string * gset string) :=
  match r with Ok absent => [(hashes, absent)] | Err _ => [] end.

Lemma send_asks hashes token tr r :
  run_trace (send conn hashes token) tr r →
  asks tr (match r with Ok a => answer_list hashes (answered a) | Err _ => [] end).
Proof.
  intros (sent & tr' & -> & [-> ->]%run_trace_ret)%run_trace_request_bind.
  destruct sent as [a|e]; [|done]. cbn. split; [|done|done]. cbn. by destruct (answered a).
Qed.

Lemma unauthorized_not_answered a : an_status a = 401%Z → ∃ e, answered a = Err e.
Proof.
  intros Ha. unfold answered, ensure_success. rewrite Ha. cbn. case_bool_decide; cbn; eauto.
Qed.

Lemma negotiate_asks hashes tr r : run_trace (negotiate conn hashes) tr r → asks tr (answer_list hashes r).
Proof.
  intros (token & tr1 & -> & H)%run_trace_request_bind.
  assert (Hskip : ∀ tr l, asks tr l → asks (Ev Run_Token token :: tr) l) by (intros ? ? [<- ? ?]; by split).
  apply Hskip. clear Hskip. destruct token as [token|e]; [|by apply run_trace_ret in H as [-> ->]].
  apply run_trace_bind in H as (first & tra & trb & -> & Hfirst%send_asks & H).
  destruct first as [a|e]; [|by apply run_trace_ret in H as [-> ->]; rewrite app_nil_r].
  apply run_trace_bind in H as (second & trc & trd & -> & Hsecond & H).
  assert (Hr : trd = [] ∧ r = let? a := second in answered a)
    by (destruct second; by apply run_trace_ret in H as [-> ->]).
  destruct Hr as [-> ->]. rewrite app_nil_r. unfold send_again in Hsecond.
  destruct (Z.eqb_spec (an_status a) 401) as [H401|_].
  - destruct (unauthorized_not_answered a H401) as [e0 He0]. rewrite He0 in Hfirst. cbn in Hfirst.
    change (answer_list hashes _) with ([] ++ answer_list hashes (let? a := second in answered a)).
    apply asks_app; [done|].
    apply run_trace_request_bind in Hsecond as (renewal & tr2 & -> & Hsecond).
    assert (Hskip : ∀ tr l, asks tr l → asks (Ev (Run_Renew token) renewal :: tr) l)
      by (intros ? ? [<- ? ?]; by split).
    apply Hskip. destruct renewal as [[token'|]|e].
    + apply send_asks in Hsecond. by destruct second.
    + apply run_trace_ret in Hsecond as [-> ->]. by rewrite He0.
    + by apply run_trace_ret in Hsecond as [-> ->].
  - apply run_trace_ret in Hsecond as [-> ->]. by rewrite app_nil_r.
Qed.

Lemma missing_asks own tr r :
  run_trace (missing conn own) tr r →
  ∃ answer, asks tr (answer_list (closure_hashes own) answer) ∧
    r = (let? absent := answer in Ok (retain_missing own absent)).
Proof.
  intros (answer & tra & trb & -> & Ha%negotiate_asks & H)%run_trace_bind. exists answer.
  destruct answer; apply run_trace_ret in H as [-> ->]; by rewrite app_nil_r.
Qed.

(** The runs there are: what is asked, pushed and reported, and the result. *)
Section shape.
Context (n : nat) (own upstream : list PathInfo).

Definition begun (absent : gset string) : list ReportEvent :=
  negotiated n upstream (length (retain_missing own absent)) (nar_bytes (retain_missing own absent)).

Inductive run_shape : bool → list (list string * gset string) →
    list (list PathInfo * list (PathInfo * Outcome)) → list ReportEvent →
    Result Summary NegotiationError → Prop :=
  | run_refused dry_run e : run_shape dry_run [] [] [] (Err e)
  | run_dry absent :
      run_shape true [(closure_hashes own, absent)] []
        (begun absent ++ map (λ info, path_event info WouldPush) (retain_missing own absent) ++
         [Ev_Done (mkSummary 0 0 0 (nar_bytes (retain_missing own absent)))])
        (Ok summary_default)
  | run_settled absent missing_ outcomes s :
      missing_ = retain_missing own absent → s = (tracked outcomes missing_).1 →
      missing_ = [] ∨ su_failed s ≠ 0 →
      run_shape false [(closure_hashes own, absent)] [(missing_, outcomes)]
        (begun absent ++ path_events outcomes ++ [Ev_Done s]) (Ok s)
  | run_unchecked absent missing_ outcomes s e :
      missing_ = retain_missing own absent → s = (tracked outcomes missing_).1 →
      missing_ ≠ [] → su_failed s = 0 →
      run_shape false [(closure_hashes own, absent)] [(missing_, outcomes)]
        (begun absent ++ path_events outcomes ++ [Ev_Done s]) (Err e)
  | run_checked absent absent' missing_ outcomes s :
      missing_ = retain_missing own absent → s = (tracked outcomes missing_).1 →
      missing_ ≠ [] → su_failed s = 0 → retain_missing own absent' = [] →
      run_shape false [(closure_hashes own, absent); (closure_hashes own, absent')] [(missing_, outcomes)]
        (begun absent ++ path_events outcomes ++ [Ev_Done s]) (Ok s)
  | run_again absent absent' missing_ gone outcomes outcomes' s s' :
      missing_ = retain_missing own absent → s = (tracked outcomes missing_).1 →
      missing_ ≠ [] → su_failed s = 0 → gone = retain_missing own absent' → gone ≠ [] →
      s' = add_assign s (tracked outcomes' gone).1 →
      run_shape false [(closure_hashes own, absent); (closure_hashes own, absent')]
        [(missing_, outcomes); (gone, outcomes')]
        (begun absent ++ path_events outcomes ++ Ev_Rechecked (length gone) (nar_bytes gone) ::
         path_events outcomes' ++ [Ev_Done s']) (Ok s').
End shape.

Lemma recheck_runs n own upstream absent missing_ outcomes s tr1 tr2 checked :
  missing_ = retain_missing own absent → s = (tracked outcomes missing_).1 →
  asked tr1 = [(closure_hashes own, absent)] → pushes tr1 = [(missing_, outcomes)] →
  report tr1 = begun n own upstream absent ++ path_events outcomes →
  run_trace (recheck conn own missing_ s) tr2 checked →
  run_shape n own upstream false (asked (tr1 ++ tr2)) (pushes (tr1 ++ tr2))
    (report (tr1 ++ tr2) ++ [Ev_Done checked.1])
    (match checked.2 with Some e => Err e | None => Ok checked.1 end).
Proof.
  intros Hm Hs Ha Hp Hr H. unfold recheck in H.
  rewrite report_app, Hr. unfold asked, pushes in *. rewrite !omap_app, Ha, Hp, <-!app_assoc.
  destruct (is_nil missing_) eqn:Hnil; cbn [negb andb] in H.
  { apply run_trace_ret in H as [-> ->]. apply (run_settled _ _ _ _ _ _ _ Hm Hs). left. by destruct missing_. }
  assert (Hne : missing_ ≠ []) by (by intros ->).
  destruct (Nat.eqb_spec (su_failed s) 0) as [H0|H0].
  2: { apply run_trace_ret in H as [-> ->]. apply (run_settled _ _ _ _ _ _ _ Hm Hs). by right. }
  apply run_trace_bind in H as (again & tra & trb & -> & (answer & [Hask Hpush Hrep] & ->)%missing_asks & H).
  unfold asked, pushes in *. rewrite !omap_app, report_app, Hask, Hpush, Hrep. destruct answer as [absent'|e].
  - cbn in H. destruct (retain_missing own absent') as [|g gone] eqn:Hg.
    + apply run_trace_ret in H as [-> ->]. by apply (run_checked _ _ _ absent absent' missing_).
    + apply run_trace_request_bind in H as (u & tr3 & -> & H).
      apply run_trace_request_bind in H as (outcomes' & tr4 & -> & [-> ->]%run_trace_ret).
      unfold report. cbn. rewrite app_nil_r.
      by apply (run_again _ _ _ absent absent' missing_ (g :: gone) outcomes outcomes' s).
  - apply run_trace_ret in H as [-> ->]. by apply (run_unchecked _ _ _ absent missing_).
Qed.

Lemma push_shape closure upstream_keys dry_run tr r :
  run_trace (push_closure conn closure upstream_keys dry_run) tr r →
  run_shape (length closure) (partition_upstream closure upstream_keys).1
    (partition_upstream closure upstream_keys).2 dry_run (asked tr) (pushes tr) (report tr) r.
Proof.
  unfold push_closure. destruct (partition_upstream closure upstream_keys) as [own upstream].
  intros (found & tra & trb & -> & (answer & [Hask Hpush Hrep] & ->)%missing_asks & H)%run_trace_bind.
  destruct answer as [absent|e]; cbn in H.
  2: { apply run_trace_ret in H as [-> ->]. rewrite app_nil_r, Hask, Hpush, Hrep. apply run_refused. }
  destruct dry_run.
  - apply run_trace_request_bind in H as (u & tr1 & -> & [-> ->]%run_trace_ret).
    rewrite report_app, Hrep. unfold asked, pushes in *. rewrite !omap_app, Hask, Hpush.
    unfold report. cbn. rewrite app_nil_r. apply run_dry.
  - apply run_trace_request_bind in H as (u & tr1 & -> & H).
    apply run_trace_request_bind in H as (outcomes & tr2 & -> & H).
    apply run_trace_bind in H as (checked & tr3 & tr4 & -> & Hre & H).
    apply run_trace_request_bind in H as (u' & tr5 & -> & [-> ->]%run_trace_ret).
    set (first := tra ++ [Ev (Run_Report (Report_Start (length closure) upstream (retain_missing own absent))) u;
      Ev (Run_Push (retain_missing own absent)) outcomes]).
    apply (recheck_runs (length closure) own upstream absent _ outcomes _ first) in Hre; [|done|done|..].
    + replace (tra ++ _) with ((first ++ tr3) ++ [Ev (Run_Report (Report_Finish checked.1)) u'])
        by (unfold first; by rewrite <-!app_assoc).
      generalize dependent (first ++ tr3). intros all Hall.
      rewrite report_app. unfold asked, pushes in *. rewrite !omap_app. cbn. by rewrite !app_nil_r.
    + unfold first, asked in *. by rewrite omap_app, Hask.
    + unfold first, pushes in *. by rewrite omap_app, Hpush.
    + unfold first. rewrite report_app, Hrep. unfold report. cbn. by rewrite app_nil_r.
Qed.

(** What a push run reports is what it did: the events list the closure's size, the upstream and
    missing paths, the NAR bytes, one line per outcome of each pool, the re-checked paths and the
    final summary, in that order, for the Negotiations and pools the run made, on every branch: dry
    run, nothing missing, failed uploads, a failed or an empty re-check, and a second round. *)
Theorem push_reports_its_run closure upstream_keys dry_run tr r :
  run_trace (push_closure conn closure upstream_keys dry_run) tr r →
  run_shape (length closure) (partition_upstream closure upstream_keys).1
    (partition_upstream closure upstream_keys).2 dry_run (asked tr) (pushes tr) (report tr) r.
Proof. apply push_shape. Qed.
End runs.

(** ** A clean run *)

Lemma clean_push_settles jobs paths outcomes p :
  push_tracked jobs paths outcomes → su_failed (tracked outcomes paths).1 = 0 → p ∈ paths →
  ∃ o, (p, o) ∈ outcomes ∧ (o = Pushed ∨ o = Deduped).
Proof.
  intros [Hp Hset]%push_tracked_settled Hf Hin. rewrite <-Hp in Hin.
  apply list_elem_of_fmap in Hin as ([p' o] & -> & Hin). exists o. split; [done|].
  pose proof (tracked_spec outcomes paths Hset) as H. destruct (tracked outcomes paths) as [s failed].
  destruct H as (_ & Hlen & _ & Hnames). cbn in Hf. rewrite Hf in Hlen. symmetry in Hlen.
  apply nil_length_inv in Hlen as ->. rewrite Forall_forall in Hset.
  destruct (Hset _ Hin) as [?|[?|[e He]]]; [by left|by right|]. cbn in He. subst o.
  assert (Hn : pi_path p' ∈ ([] : list string)) by (apply Hnames; eauto). by apply elem_of_nil in Hn.
Qed.

Lemma retain_missing_nil own absent p :
  retain_missing own absent = [] → p ∈ own → hash_of_store_path (pi_path p) ∉ absent.
Proof.
  intros Hnil Hp Hin. assert (Hr : p ∈ retain_missing own absent) by (by apply list_elem_of_filter).
  rewrite Hnil in Hr. by apply elem_of_nil in Hr.
Qed.

(** The last Negotiation of a run asked for [p]; it had [p], or the pool after
    it pushed [p] or found it pushed. *)
Definition covered `{L : ClientLibs} (tr : list (Event RunOp)) (p : PathInfo) : Prop :=
  ∃ hashes absent, last (asked tr) = Some (hashes, absent) ∧ hash_of_store_path (pi_path p) ∈ hashes ∧
    (hash_of_store_path (pi_path p) ∉ absent ∨
     ∃ gone outcomes o, last (pushes tr) = Some (gone, outcomes) ∧ (p, o) ∈ outcomes ∧ (o = Pushed ∨ o = Deduped)).

Lemma clean_push_covered `{L : ClientLibs} conn closure upstream_keys jobs tr s p :
  run_trace (push_closure conn closure upstream_keys false) tr (Ok s) → su_failed s = 0 →
  Forall (λ batch, push_tracked jobs batch.1 batch.2) (pushes tr) →
  p ∈ closure → signed_by (pi_signatures p) upstream_keys = false → covered tr p.
Proof.
  unfold covered. intros Hrun%push_shape Hclean Hpool Hp Hown.
  assert (Hin : p ∈ (partition_upstream closure upstream_keys).1).
  { apply list_elem_of_filter. by rewrite Hown. }
  assert (Hh : hash_of_store_path (pi_path p) ∈ closure_hashes (partition_upstream closure upstream_keys).1)
    by (apply list_elem_of_fmap; eauto).
  generalize dependent (partition_upstream closure upstream_keys). intros [own upstream]. cbn. intros Hrun Hin Hh.
  inversion Hrun as [|absent Hd Hpush Hrep Hr|absent missing_ outcomes s0 Hm Hs Hcase Hd Ha Hpush Hrep Hr
    |absent missing_ outcomes s0 e Hm Hs Hne H0 Hd Ha Hpush Hrep Hr
    |absent absent' missing_ outcomes s0 Hm Hs Hne H0 Hnil Hd Ha Hpush Hrep Hr
    |absent absent' missing_ gone outcomes outcomes' s0 s' Hm Hs Hne H0 Hg Hgne Hs' Hd Ha Hpush Hrep Hr]; subst.
  - eexists _, absent. split_and!; [done|done|]. left.
    destruct Hcase as [Hnil|Hf]; [by eapply retain_missing_nil|done].
  - eexists _, absent'. split_and!; [done|done|]. left. by eapply retain_missing_nil.
  - eexists _, absent'. split_and!; [done|done|].
    destruct (decide (hash_of_store_path (pi_path p) ∈ absent')) as [Hgone|]; [right|by left].
    rewrite <-Hpush in Hpool. apply Forall_cons in Hpool as [_ [Hpool _]%Forall_cons].
    destruct (clean_push_settles _ _ _ p Hpool) as (o & Ho & Hcase); [unfold add_assign in Hclean; cbn [su_failed] in Hclean; cbn [fst snd]; lia| |].
    { by apply list_elem_of_filter. }
    eexists _, outcomes', o. done.
Qed.

(** A push of a closure that ends with no failed path has the cache hold all of it: every path of
    the closure no upstream key signed was named in the run's last Negotiation, and was present in
    it or is pushed or deduplicated by the pool that ran after it, also when paths went missing
    between the Negotiation and the end of the uploads. *)
Theorem clean_push_covers_closure `{L : ClientLibs} conn closure upstream_keys jobs tr s p :
  run_trace (push_closure conn closure upstream_keys false) tr (Ok s) → su_failed s = 0 →
  Forall (λ batch, push_tracked jobs batch.1 batch.2) (pushes tr) →
  p ∈ closure → signed_by (pi_signatures p) upstream_keys = false →
  ∃ hashes absent, last (asked tr) = Some (hashes, absent) ∧ hash_of_store_path (pi_path p) ∈ hashes ∧
    (hash_of_store_path (pi_path p) ∉ absent ∨
     ∃ gone outcomes o, last (pushes tr) = Some (gone, outcomes) ∧ (p, o) ∈ outcomes ∧ (o = Pushed ∨ o = Deduped)).
Proof. apply clean_push_covered. Qed.

(** ** A batch of two, pushed one at a time *)

Definition example_dep : PathInfo :=
  mkPathInfo "/nix/store/1123456789abcdfghijklmnpqrsvwxyz-dep" "sha256:01" 7 [] None None ["other-1:sig"].
Definition example_user : PathInfo :=
  mkPathInfo "/nix/store/0123456789abcdfghijklmnpqrsvwxyz-user" "sha256:02" 9 [pi_path example_dep] None None [].
Definition example_batch : list PathInfo := [example_user; example_dep].

Example example_batch_order : references_first example_batch = [example_dep; example_user].
Proof. vm_compute. reflexivity. Qed.

Definition example_halfway : Pool := mkPool [] [example_user] [(example_dep, Deduped)].

Lemma example_pool_steps : nsteps (push_pool_step 1) 3 (pool_init example_batch) example_halfway.
Proof.
  apply (nsteps_l _ _ _ (mkPool [example_user] [example_dep] [])).
  { change (pool_init example_batch) with (mkPool [example_dep; example_user] [] []). by apply pool_start; cbn; lia. }
  apply (nsteps_l _ _ _ (mkPool [example_user] [] [(example_dep, Deduped)])).
  { apply (pool_finish 1 [example_user] [] example_dep [] [] (Ok Deduped)). intros o [= <-]. by right. }
  apply nsteps_once. apply (pool_start 1 example_user [] []). cbn. lia.
Qed.

Lemma example_acyclic : batch_acyclic example_batch.
Proof.
  exists (λ path, if bool_decide (path = pi_path example_user) then 1 else 0).
  intros p q [->|[->|[]%elem_of_nil]%elem_of_cons]%elem_of_cons [->|[->|[]%elem_of_nil]%elem_of_cons]%elem_of_cons
    Hne Hr; [done|vm_compute; lia|by apply elem_of_nil in Hr|done].
Qed.

Lemma push_pool_accounts_witness : length (po_running example_halfway) ≤ 1 ∧ 3 ≤ 2 * length example_batch.
Proof.
  destruct (push_pool_accounts 1 example_batch 3 example_halfway example_pool_steps) as (Hj & Hn & _). by split.
Defined.

Lemma serial_push_leaves_whole_closures_witness : ∃ outcome, (example_dep, outcome) ∈ po_done example_halfway.
Proof.
  apply (serial_push_leaves_whole_closures example_batch example_halfway example_user example_dep).
  - eapply rtc_nsteps_2, example_pool_steps.
  - apply (bool_decide_unpack _). vm_compute. exact I.
  - exact example_acyclic.
  - set_solver.
  - set_solver.
  - apply list_elem_of_here.
  - done.
Defined.

(** A closure of which one path is signed upstream and the other is absent. *)
Definition example_closure_trace : list (Event RunOp) :=
  [Ev Run_Token (Ok "t");
   Ev (Run_Post "https://push.example/api/v1/missing-paths" "t" ["0123456789abcdfghijklmnpqrsvwxyz"])
     (Ok (mkAnswer 200 None (Ok "one")));
   Ev (Run_Report (Report_Start 2 [example_dep] [example_user])) tt;
   Ev (Run_Push [example_user]) [(example_user, Pushed)];
   Ev Run_Token (Ok "t");
   Ev (Run_Post "https://push.example/api/v1/missing-paths" "t" ["0123456789abcdfghijklmnpqrsvwxyz"])
     (Ok (mkAnswer 200 None (Ok "none")));
   Ev (Run_Report (Report_Finish (mkSummary 1 0 0 9))) tt].

Lemma example_closure_runs :
  run_trace (push_closure (L := toy_client) example_connection example_batch ["other-1"] false)
    example_closure_trace (Ok (mkSummary 1 0 0 9)).
Proof. unfold example_closure_trace. repeat apply @run_step. apply run_ret. Qed.

Lemma push_reports_its_run_witness :
  run_shape 2 [example_user] [example_dep] false (asked (L := toy_client) example_closure_trace)
    [([example_user], [(example_user, Pushed)])]
    [Ev_Negotiated 2 1 1 9; path_event example_dep Upstream; path_event example_user Pushed;
     Ev_Done (mkSummary 1 0 0 9)]
    (Ok (mkSummary 1 0 0 9)).
Proof.
  exact (push_reports_its_run (L := toy_client) example_connection example_batch ["other-1"] false
    example_closure_trace (Ok (mkSummary 1 0 0 9)) example_closure_runs).
Defined.

Lemma clean_push_covers_closure_witness :
  ∃ hashes absent, last (asked (L := toy_client) example_closure_trace) = Some (hashes, absent) ∧
    hash_of_store_path (pi_path example_user) ∈ hashes.
Proof.
  destruct (clean_push_covers_closure (L := toy_client) example_connection example_batch ["other-1"] 1
    example_closure_trace (mkSummary 1 0 0 9) example_user example_closure_runs) as (hashes & absent & Hl & Hh & _).
  - done.
  - apply Forall_singleton. cbn [fst snd]. unfold push_tracked.
    eapply (rtc_nsteps_2 2), (nsteps_l _ _ _ (mkPool [] [example_user] [])).
    { apply (pool_start 1 example_user [] []). cbn. lia. }
    apply nsteps_once, (pool_finish 1 [] [] example_user [] [] (Ok Pushed)). intros o [= <-]. by left.
  - apply list_elem_of_here.
  - done.
  - by exists hashes, absent.
Defined.
