(* ===== verification/Files.v ===== *)
(** * Files: the client's own files

    [crates/garret-client/src/files.rs]. A file system is a map from paths to
    contents; each request is one system call, and a run can be cut off between
    any two. Directories, permissions and the flushing of the disk's caches are
    not modelled. *)

From stdpp Require Import pretty.
From S2P Require Import Prelude Text Prog.

Abbreviation Fs := (gmap string string).

Inductive IoError := NotFound | AlreadyExists | IoFailed (message : string).

Inductive FsOp : Type → Type :=
  | Fs_Read (path : string) : FsOp (Result string IoError)
  | Fs_CreateParent (path : string) : FsOp (Result unit IoError)
  | Fs_Remove (path : string) : FsOp (Result unit IoError)
  | Fs_CreateNew (path : string) (mode : Z) : FsOp (Result unit IoError)
  | Fs_WriteAll (path contents : string) : FsOp (Result unit IoError)
  | Fs_SyncAll (path : string) : FsOp (Result unit IoError)
  | Fs_Rename (from to : string) : FsOp (Result unit IoError)
  | Fs_Canonicalize (path : string) : FsOp (Result string IoError).

Definition is_not_found (e : IoError) : bool := match e with NotFound => true | _ => false end.

Definition read_optional (path : string) : Prog FsOp (Result (option string) IoError) :=
  do text <- request (Fs_Read path);
  Ret (match text with
       | Ok text => Ok (Some text)
       | Err e => if is_not_found e then Ok None else Err e
       end).

Definition remove_optional (path : string) : Prog FsOp (Result unit IoError) :=
  do removed <- request (Fs_Remove path);
  Ret (match removed with
       | Err NotFound => Ok tt
       | removed => removed
       end).

Definition temporary (path : string) (pid : Z) : string := path +:+ "." +:+ pretty pid +:+ ".tmp".

Definition write_tmp (path tmp contents : string) (mode : Z) : Prog FsOp (Result unit IoError) :=
  do? _ <- request (Fs_CreateParent path);
  do? _ <- remove_optional tmp;
  do? _ <- request (Fs_CreateNew tmp mode);
  do? _ <- request (Fs_WriteAll tmp contents);
  do? _ <- request (Fs_SyncAll tmp);
  request (Fs_Rename tmp path).

Definition write_atomic (pid : Z) (path contents : string) (mode : Z) : Prog FsOp (Result unit IoError) :=
  let tmp := temporary path pid in
  do written <- write_tmp path tmp contents mode;
  match written with
  | Ok _ => Ret (Ok tt)
  | Err e => do _ <- remove_optional tmp; Ret (Err e)
  end.

(** ** What a system call may do *)

Definition fs_step (fs : Fs) {B} (op : FsOp B) : B → Fs → Prop :=
  match op in FsOp B return B → Fs → Prop with
  | Fs_Read path => λ r fs', fs' = fs ∧
      match r with Ok text => fs !! path = Some text | Err NotFound => fs !! path = None | Err _ => True end
  | Fs_CreateParent _ => λ _ fs', fs' = fs
  | Fs_Remove path => λ r fs',
      match r with
      | Ok _ => fs' = delete path fs
      | Err NotFound => fs !! path = None ∧ fs' = fs
      | Err _ => fs' = fs
      end
  | Fs_CreateNew path _ => λ r fs',
      match r with Ok _ => fs !! path = None ∧ fs' = <[path := ""]> fs | Err _ => fs' = fs end
  | Fs_WriteAll path contents => λ r fs',
      match r with Ok _ => fs' = <[path := contents]> fs | Err _ => ∃ part, fs' = <[path := part]> fs end
  | Fs_SyncAll _ => λ _ fs', fs' = fs
  | Fs_Rename from to => λ r fs',
      match r with
      | Ok _ => ∃ contents, fs !! from = Some contents ∧ fs' = <[to := contents]> (delete from fs)
      | Err _ => fs' = fs
      end
  | Fs_Canonicalize path => λ r fs', fs' = fs ∧ ∀ target, r = Ok target → fs !! target = fs !! path
  end.

Lemma temporary_ne path pid : temporary path pid ≠ path.
Proof.
  unfold temporary. intros H. apply (f_equal str_len) in H. revert H. rewrite !str_len_app. cbn. lia.
Qed.

(** As before, but for the temporary file. *)
Definition same_but (tmp : string) (fs fs' : Fs) : Prop := ∀ p, p ≠ tmp → fs' !! p = fs !! p.

Lemma remove_optional_step tmp fs0 fs inv (post : Result unit IoError → Fs → Prop) :
  (∀ fs', same_but tmp fs0 fs' → inv fs') → same_but tmp fs0 fs →
  (∀ r fs', same_but tmp fs0 fs' → (is_ok r = true → fs' = delete tmp fs) → post r fs') →
  always (@fs_step) inv (remove_optional tmp) fs post.
Proof.
  intros Hinv Hs Hpost. cbn. split; [by apply Hinv|]. intros b fs' Hstep.
  assert (Hs' : same_but tmp fs0 fs' ∧ (match b with Err NotFound => True | _ => is_ok b = true end → fs' = delete tmp fs)).
  { destruct b as [[]|[| |e]]; [subst fs'|destruct Hstep as [Hnone ->]|subst fs'..].
    - split; [|done]. intros p Hp. rewrite lookup_delete_ne by done. by apply Hs.
    - split; [done|]. intros _. by rewrite delete_id.
    - by split.
    - by split. }
  destruct Hs' as [Hs' Hd]. split; [by apply Hinv|]. apply Hpost; [done|]. intros Hok. apply Hd.
  by destruct b as [[]|[| |e]].
Qed.

Lemma same_but_insert tmp fs fs' s : same_but tmp fs fs' → same_but tmp fs (<[tmp := s]> fs').
Proof. intros Hs p Hp. rewrite lookup_insert_ne by done. by apply Hs. Qed.

Lemma write_tmp_always path tmp contents mode fs inv :
  tmp ≠ path → (∀ fs', same_but tmp fs fs' → inv fs') → inv (<[path := contents]> (delete tmp fs)) →
  always (@fs_step) inv (write_tmp path tmp contents mode) fs
    (λ r fs', match r with
              | Ok _ => fs' = <[path := contents]> (delete tmp fs)
              | Err _ => same_but tmp fs fs'
              end).
Proof.
  intros Hne Hinv Hend. unfold write_tmp.
  assert (Hs0 : same_but tmp fs fs) by done.
  apply always_request; [by apply Hinv|]. intros [[]|e] fs1 ->; [|by apply always_ret; [apply Hinv|]].
  apply always_bind, (remove_optional_step _ fs); [done..|].
  intros r fs1 Hs1 Hdel. destruct r as [[]|e]; [|by apply always_ret; [apply Hinv|]]. specialize (Hdel eq_refl). clear Hs1. subst fs1.
  assert (Hs1 : same_but tmp fs (delete tmp fs)) by (intros p Hp; by rewrite lookup_delete_ne).
  apply always_request; [by apply Hinv|]. intros [[]|e] fs2; [intros [_ ->]|intros ->]; [|by apply always_ret; [apply Hinv|]].
  pose proof (same_but_insert _ _ _ "" Hs1) as Hs2.
  apply always_request; [by apply Hinv|]. intros [[]|e] fs3; [intros ->|intros [part ->]].
  2: { apply always_ret; [apply Hinv|]; by apply same_but_insert. }
  rewrite insert_insert_eq. pose proof (same_but_insert _ _ _ contents Hs1) as Hs3.
  apply always_request; [by apply Hinv|]. intros [[]|e] fs4 ->; [|by apply always_ret; [apply Hinv|]].
  split; [by apply Hinv|]. intros [[]|e] fs5; [|intros ->; by split; [apply Hinv|]].
  intros (c & Hc & ->). rewrite lookup_insert_eq in Hc. injection Hc as <-.
  rewrite delete_insert_eq, (delete_id (delete tmp fs)) by apply lookup_delete_eq. by split.
Qed.

Lemma write_atomic_always pid path contents mode fs :
  always (@fs_step)
    (λ fs', (∀ p, p ≠ path → p ≠ temporary path pid → fs' !! p = fs !! p) ∧
       (fs' !! path = fs !! path ∨ fs' !! path = Some contents))
    (write_atomic pid path contents mode) fs
    (λ r fs', match r with
              | Ok _ => fs' = <[path := contents]> (delete (temporary path pid) fs)
              | Err _ => fs' !! path = fs !! path
              end).
Proof.
  pose proof (temporary_ne path pid) as Hne. unfold write_atomic. set (tmp := temporary path pid) in *.
  set (inv := λ fs' : Fs, _). assert (Hinv : ∀ fs', same_but tmp fs fs' → inv fs').
  { intros fs' Hs. split; [|left]; intros; by apply Hs. }
  assert (Hend : inv (<[path := contents]> (delete tmp fs))).
  { split; [|right; by rewrite lookup_insert_eq]. intros p Hp Hpt. by rewrite lookup_insert_ne, lookup_delete_ne. }
  apply always_bind. eapply always_weaken; [by apply write_tmp_always|done|].
  intros [[]|e] fs' _; [by intros ->|]. intros Hs.
  apply always_bind, (remove_optional_step _ fs); [done..|].
  intros _ fs2 Hs2 _. split; [by apply Hinv|]. by apply Hs2.
Qed.

(** C21: write_atomic replaces a file whole or not at all: whichever of its file-system calls fails,
    and wherever the process is killed, the file holds what it held before or all of the new
    contents and no other file but its temporary one changes; on success the contents are the new
    ones and the temporary file is gone, on failure the file is as it was. *)
Theorem write_atomic_is_atomic pid path contents mode fs :
  always (@fs_step)
    (λ fs', (∀ p, p ≠ path → p ≠ temporary path pid → fs' !! p = fs !! p) ∧
       (fs' !! path = fs !! path ∨ fs' !! path = Some contents))
    (write_atomic pid path contents mode) fs
    (λ r fs', match r with
              | Ok _ => fs' = <[path := contents]> (delete (temporary path pid) fs)
              | Err _ => fs' !! path = fs !! path
              end).
Proof. apply write_atomic_always. Qed.
