(* ===== verification/Watch.v ===== *)
(** * Watch: the store watcher

    [crates/garret-client/src/watcher.rs]. The daemon and the drain are [Prog]s
    over [WatchOp]: one query of the Nix database, one read or write of the
    cursor or of the failed list, one [nix path-info], one Negotiation, one
    pool of uploads. [watch_loop]'s fuel counts rounds of the daemon, which only
    ends on an error; everything proved of it holds for any number of rounds,
    and wherever the process is killed.

    The wake socket's datagrams carry no data: what matters is that one of them
    cuts a wait short. Logging is not modelled. *)

From stdpp Require Import pretty.
From S2P Require Import Prelude Text Common Prog Upload Push.

(** ** Filters *)

Record ValidPath := mkValidPath {
  vp_id : Z;
  vp_path : string;
  vp_sigs : list string;
}.

Record Filters := mkFilters {
  fi_upstream_keys : list string;
  fi_exclude_patterns : list string;
  fi_own_keys : list string;
}.

Definition should_skip (f : Filters) (path : ValidPath) : option string :=
  if ends_with ".drv" (vp_path path) then Some "drv"
  else if existsb (λ p, contains p (vp_path path)) (fi_exclude_patterns f) then Some "excluded"
  else if signed_by (vp_sigs path) (fi_upstream_keys f) then Some "upstream"
  else if signed_by (vp_sigs path) (map key_name (fi_own_keys f)) then Some "own"
  else None.

Definition select (f : Filters) (batch : list ValidPath) : list string :=
  map vp_path (filter (λ entry, should_skip f entry = None) batch).

(** ** The Nix database *)

Definition BATCH_SIZE : nat := 500.

(** A row of [ValidPaths]. *)
Record ValidRow := mkValidRow {
  vr_id : Z;
  vr_path : string;
  vr_sigs : option string;
}.

Definition valid_path (row : ValidRow) : ValidPath :=
  mkValidPath (vr_id row) (vr_path row) (split_whitespace (default "" (vr_sigs row))).

(** The rows come in the order of [id], the table's primary key. *)
Definition paths_after (rows : list ValidRow) (cursor : Z) (limit : nat) : list ValidPath :=
  map valid_path (take limit (filter (λ row, (cursor < vr_id row)%Z) rows)).

Definition max_id (rows : list ValidRow) : Z :=
  match map vr_id rows with
  | [] => 0
  | id :: ids => foldl Z.max id ids
  end.

(** ** The cursor and the failed list *)

Definition read_cursor (text : Result (option string) string) : Result (option Z) string :=
  let? text := text in
  match text with
  | None => Ok None
  | Some text =>
      match parse_i64 (str_trim text) with
      | Some cursor => Ok (Some cursor)
      | None => Err ("cursor holds " +:+ text +:+ ", not a ValidPaths id")
      end
  end.

Record FailedList := mkFailedList {
  fl_paths : gset string;
  fl_attempts : gmap string Z;
}.

(** A [BTreeSet<String>] in order. *)
Definition sorted_paths (s : gset string) : list string := order_by String.le (elements s).

Definition parse_failed (text : option string) : gset string :=
  match text with
  | Some text => list_to_set (filter (λ l, l ≠ "") (text_lines text))
  | None => ∅
  end.

Definition failed_load (text : Result (option string) string) : Result FailedList string :=
  let? text := text in Ok (mkFailedList (parse_failed text) ∅).

Definition record_failure (f : FailedList) (path : string) : FailedList * Z :=
  let spent := (default 0 (fl_attempts f !! path) + 1)%Z in
  (mkFailedList ({[path]} ∪ fl_paths f) (<[path := spent]> (fl_attempts f)), spent).

Definition record_success (f : FailedList) (path : string) : FailedList :=
  mkFailedList (fl_paths f ∖ {[path]}) (delete path (fl_attempts f)).

Definition due (f : FailedList) (max : Z) : list string :=
  filter (λ p, (default 0 (fl_attempts f !! p) < max)%Z) (sorted_paths (fl_paths f)).

(** [apply]; the number of paths that came off the list. *)
Fixpoint apply_chunk (f : FailedList) (chunk : list string) (still_failed : gset string) : FailedList * nat :=
  match chunk with
  | [] => (f, 0)
  | path :: chunk =>
      if decide (path ∈ still_failed) then apply_chunk (record_failure f path).1 chunk still_failed
      else let '(f, pushed) := apply_chunk (record_success f path) chunk still_failed in (f, S pushed)
  end.

Definition failed_text (f : FailedList) : string :=
  foldr (λ p s, writeln p +:+ s) "" (sorted_paths (fl_paths f)).

(** ** Requests *)

(** How a wait ended: in time, or by a datagram or a failed receive. *)
Inductive Woken := Woken_Elapsed | Woken_Received (datagram : Result string string).

Inductive WatchOp : Type → Type :=
  | Watch_Rows : WatchOp (Result (list ValidRow) string)
  | Watch_ReadCursor : WatchOp (Result (option string) string)
  | Watch_WriteCursor (text : string) : WatchOp (Result unit string)
  | Watch_ReadFailed : WatchOp (Result (option string) string)
  | Watch_WriteFailed (text : string) : WatchOp (Result unit string)
  | Watch_RemoveFailed : WatchOp (Result unit string)
  | Watch_PathInfo (paths : list string) : WatchOp (Result (list PathInfo) string)
  | Watch_Exists (path : string) : WatchOp bool
  | Watch_Negotiate (hashes : list string) : WatchOp (Result (gset string) NegotiationError)
  | Watch_Push (paths : list PathInfo) : WatchOp (list (PathInfo * Outcome))
  | Watch_OpenDb (path : string) : WatchOp (Result unit string)
  | Watch_CountTables (name : string) : WatchOp (Result Z string)
  | Watch_CreateParents (path : string) : WatchOp (Result unit string)
  | Watch_SocketMeta (path : string) : WatchOp PathMeta
  | Watch_RemoveSocket (path : string) : WatchOp (Result unit string)
  | Watch_Bind (path : string) : WatchOp (Result unit string)
  | Watch_SetMode (path : string) (mode : Z) : WatchOp (Result unit string)
  | Watch_Sleep (interval : Z) : WatchOp unit
  | Watch_Race (interval : Z) : WatchOp Woken (* [select!] of a sleep and a receive *)
  | Watch_TryRecv : WatchOp bool.

Abbreviation Watching := (Prog WatchOp).

(** ** The Nix database and the wake socket *)

Definition open_nix_db (path : string) : Watching (Result unit string) :=
  do? _ <- request (Watch_OpenDb path);
  do? n <- request (Watch_CountTables "ValidPaths");
  Ret (if (0 <? n)%Z then Ok tt else Err (path +:+ " has no ValidPaths table — is this a nix database?")).

Definition bind_wake_socket (path : string) : Watching (Result unit string) :=
  do? _ <- request (Watch_CreateParents path);
  do meta <- request (Watch_SocketMeta path);
  do? _ <- match meta with
           | MetaSocket => do removed <- request (Watch_RemoveSocket path); Ret (remove_stale_socket meta removed)
           | _ => Ret (remove_stale_socket meta (Ok tt))
           end;
  do? _ <- request (Watch_Bind path);
  request (Watch_SetMode path 438). (* 0o666 *)

(** [while socket.try_recv(..).is_ok()]; [None] when [laps] runs out. *)
Fixpoint flush_wakes (laps : nat) : Watching (option unit) :=
  match laps with
  | 0 => Ret None
  | S laps => do received <- request Watch_TryRecv; if received : bool then flush_wakes laps else Ret (Some tt)
  end.

(** [wake] says whether there is a socket. *)
Definition wait_for_wake (laps : nat) (wake : bool) (interval : Z) : Watching (option unit) :=
  if wake then
    do woken <- request (Watch_Race interval);
    match woken with Woken_Elapsed => Ret (Some tt) | Woken_Received _ => flush_wakes laps end
  else do _ <- request (Watch_Sleep interval); Ret (Some tt).

Definition write_cursor (cursor : Z) : Watching (Result unit string) :=
  request (Watch_WriteCursor (pretty cursor)).

Definition failed_save (f : FailedList) : Watching (Result unit string) :=
  if decide (fl_paths f = ∅) then request Watch_RemoveFailed
  else request (Watch_WriteFailed (failed_text f)).

(** ** One batch *)

Fixpoint describe_each (paths : list string) (infos : list PathInfo) (failed : list string)
    : Watching (list PathInfo * list string) :=
  match paths with
  | [] => Ret (infos, failed)
  | path :: paths =>
      do one <- request (Watch_PathInfo [path]);
      match one with
      | Ok one => describe_each paths (infos ++ one) failed
      | Err _ =>
          do exists_ <- request (Watch_Exists path);
          if exists_ : bool then describe_each paths infos (failed ++ [path])
          else describe_each paths infos failed
      end
  end.

Definition describe (paths : list string) : Watching (list PathInfo * list string) :=
  do all <- request (Watch_PathInfo paths);
  match all with
  | Ok infos => Ret (infos, [])
  | Err _ => describe_each paths [] []
  end.

(** Each path and each direct reference, once, in first-seen order. *)
Definition negotiation_hashes (infos : list PathInfo) : list string :=
  first_seen ∅ (map hash_of_store_path (concat (map (λ info, pi_path info :: pi_references info) infos))).

Definition push_described (infos : list PathInfo) : Watching (list string) :=
  if is_nil infos then Ret []
  else
    do missing <- request (Watch_Negotiate (negotiation_hashes infos));
    match missing with
    | Err _ => Ret (map pi_path infos)
    | Ok missing =>
        let to_push := retain_missing infos missing in
        if is_nil to_push then Ret []
        else do outcomes <- request (Watch_Push to_push); Ret (tracked outcomes to_push).2
    end.

Definition push_batch (paths : list string) : Watching (list string) :=
  if is_nil paths then Ret []
  else
    do described <- describe paths;
    do failed <- push_described described.1;
    Ret (described.2 ++ failed).

(** ** The daemon and the drain *)

Record Watcher := mkWatcher {
  wa_nix_db : string;
  wa_cursor_path : string;
  wa_poll_interval : Z;
  wa_filters : Filters;
  wa_max_attempts : Z;
  wa_socket_path : string;
}.

Section watcher.
Context (watcher : Watcher).

Fixpoint push_chunks (chunks : list (list string)) (f : FailedList) : Watching FailedList :=
  match chunks with
  | [] => Ret f
  | chunk :: chunks =>
      do still_failed <- push_batch chunk;
      push_chunks chunks (apply_chunk f chunk (list_to_set still_failed)).1
  end.

Definition retry_failed (f : FailedList) : Watching (Result FailedList string) :=
  let due := due f (wa_max_attempts watcher) in
  if is_nil due then Ret (Ok f)
  else
    do f <- push_chunks (chunks BATCH_SIZE due) f;
    do? _ <- failed_save f;
    Ret (Ok f).

(** [wake] is the socket, if it could be bound. The fuel also counts the
    datagrams flushed after a wait. *)
Fixpoint watch_loop (fuel : nat) (wake : bool) (cursor : Z) (f : FailedList) : Watching (Result unit string) :=
  match fuel with
  | 0 => Ret (Ok tt)
  | S fuel =>
      do? rows <- request Watch_Rows;
      let batch := paths_after rows cursor BATCH_SIZE in
      match last batch with
      | None =>
          do? f <- retry_failed f;
          do waited <- wait_for_wake fuel wake (wa_poll_interval watcher);
          match waited with Some _ => watch_loop fuel wake cursor f | None => Ret (Ok tt) end
      | Some newest =>
          do failures <- push_batch (select (wa_filters watcher) batch);
          let f := foldl (λ f path, (record_failure f path).1) f failures in
          do? _ <- failed_save f;
          do? _ <- write_cursor (vp_id newest);
          watch_loop fuel wake (vp_id newest) f
      end
  end.

Definition run (fuel : nat) (full_sync : bool) : Watching (Result unit string) :=
  do? _ <- open_nix_db (wa_nix_db watcher);
  do text <- request Watch_ReadCursor;
  do? cursor <-
    match read_cursor text with
    | Err e => Ret (Err e)
    | Ok (Some cursor) => Ret (Ok cursor)
    | Ok None =>
        if full_sync then Ret (Ok 0%Z)
        else do? rows <- request Watch_Rows; Ret (Ok (max_id rows))
    end;
  do? _ <- write_cursor cursor;
  do bound <- bind_wake_socket (wa_socket_path watcher);
  do failed <- request Watch_ReadFailed;
  match failed_load failed with
  | Err e => Ret (Err e)
  | Ok f => watch_loop fuel (is_ok bound) cursor f
  end.

(** [while cursor < target]; each round moves the cursor, so [target - cursor]
    rounds are enough. *)
Fixpoint drain_collect (fuel : nat) (listed : gset string) (target cursor : Z) (todo : list string)
    : Watching (Result (Z * list string) string) :=
  match fuel with
  | 0 => Ret (Ok (cursor, todo))
  | S fuel =>
      if (cursor <? target)%Z then
        do? rows <- request Watch_Rows;
        let batch := filter (λ entry, (vp_id entry ≤ target)%Z) (paths_after rows cursor BATCH_SIZE) in
        match last batch with
        | None => Ret (Ok (cursor, todo))
        | Some newest =>
            drain_collect fuel listed target (vp_id newest)
              (todo ++ filter (λ path, path ∉ listed) (select (wa_filters watcher) batch))
        end
      else Ret (Ok (cursor, todo))
  end.

Definition drain_from (target cursor : Z) : Watching (Result (list string) string) :=
  do failed <- request Watch_ReadFailed;
  match failed_load failed with
  | Err e => Ret (Err e)
  | Ok f =>
      do? collected <- drain_collect (Z.to_nat (target - cursor)) (fl_paths f) target cursor
                         (sorted_paths (fl_paths f));
      do f <- push_chunks (chunks BATCH_SIZE collected.2) f;
      do? _ <- failed_save f;
      do? _ <- write_cursor collected.1;
      Ret (Ok (sorted_paths (fl_paths f)))
  end.

Definition drain (full_sync : bool) : Watching (Result (list string) string) :=
  do? _ <- open_nix_db (wa_nix_db watcher);
  do? rows <- request Watch_Rows;
  let target := max_id rows in
  do text <- request Watch_ReadCursor;
  match read_cursor text with
  | Err e => Ret (Err e)
  | Ok None =>
      if full_sync then drain_from target 0 else Ret (Err ("no Watcher Cursor at " +:+ wa_cursor_path watcher +:+ ": start `garret watch-store` before building so it records where"
                       +:+ " to drain from, or pass --full-sync"))
  | Ok (Some cursor) => drain_from target cursor
  end.
End watcher.

(** ** The world of a watcher

    Nix adds and removes rows at any time; ids only grow. [ww_settled] holds of
    the paths that need no push any more: the cache acknowledged them, or named
    them present in a Negotiation, or they are gone from the local store. *)

Record WatchWorld := mkWatchWorld {
  ww_rows : list ValidRow;
  ww_newest : Z;
  ww_cursor : option string;
  ww_failed : option string;
  ww_settled : string → Prop;
}.

(** Paths as nix makes them: one line each, and not empty. *)
Definition path_ok (path : string) : Prop := path ≠ "" ∧ plain_line path.

Record rows_ok (rows : list ValidRow) (newest : Z) : Prop := {
  ro_sorted : StronglySorted (λ a b, (vr_id a < vr_id b)%Z) rows;
  ro_newest : Forall (λ row, (vr_id row ≤ newest)%Z) rows;
  ro_paths : Forall (λ row, path_ok (vr_path row)) rows;
  ro_range : (0 ≤ newest ≤ i64_max)%Z;
  ro_positive : Forall (λ row, (0 < vr_id row)%Z) rows;
}.

Record nix_moves (w w' : WatchWorld) : Prop := {
  nm_rows : rows_ok (ww_rows w') (ww_newest w');
  nm_newest : (ww_newest w ≤ ww_newest w')%Z;
  nm_kept : ∀ row, row ∈ ww_rows w' → row ∈ ww_rows w ∨ (ww_newest w < vr_id row)%Z;
  nm_settled : ∀ p, ww_settled w p → ww_settled w' p;
}.

Record quiet (w w' : WatchWorld) : Prop := {
  qu_nix : nix_moves w w';
  qu_cursor : ww_cursor w' = ww_cursor w;
  qu_failed : ww_failed w' = ww_failed w;
}.

(** Files are replaced whole or not at all (see Files); [nix path-info] describes
    exactly the paths it is asked for; the pool of uploads is Push's. *)
Definition watch_step (w : WatchWorld) {B} (op : WatchOp B) : B → WatchWorld → Prop :=
  match op in WatchOp B return B → WatchWorld → Prop with
  | Watch_Rows => λ b w', quiet w w' ∧ ∀ rows, b = Ok rows → rows = ww_rows w'
  | Watch_ReadCursor => λ b w', quiet w w' ∧ ∀ text, b = Ok text → text = ww_cursor w
  | Watch_WriteCursor text => λ b w', nix_moves w w' ∧ ww_failed w' = ww_failed w ∧
      ww_cursor w' = match b with Ok _ => Some text | Err _ => ww_cursor w end
  | Watch_ReadFailed => λ b w', quiet w w' ∧ ∀ text, b = Ok text → text = ww_failed w
  | Watch_WriteFailed text => λ b w', nix_moves w w' ∧ ww_cursor w' = ww_cursor w ∧
      ww_failed w' = match b with Ok _ => Some text | Err _ => ww_failed w end
  | Watch_RemoveFailed => λ b w', nix_moves w w' ∧ ww_cursor w' = ww_cursor w ∧
      ww_failed w' = match b with Ok _ => None | Err _ => ww_failed w end
  | Watch_PathInfo paths => λ b w', quiet w w' ∧
      ∀ infos, b = Ok infos → ∀ p, p ∈ map pi_path infos ↔ p ∈ paths
  | Watch_Exists path => λ b w', quiet w w' ∧ (b = false → ww_settled w' path)
  | Watch_Negotiate hashes => λ b w', quiet w w' ∧ ∀ absent p, b = Ok absent →
      hash_of_store_path p ∈ hashes → hash_of_store_path p ∉ absent → ww_settled w' p
  | Watch_Push paths => λ outcomes w', quiet w w' ∧ (∃ jobs, push_tracked jobs paths outcomes) ∧
      ∀ info o, (info, o) ∈ outcomes → o = Pushed ∨ o = Deduped → ww_settled w' (pi_path info)
  | _ => λ _ w', quiet w w'
  end.

Lemma nix_moves_trans w1 w2 w3 : nix_moves w1 w2 → nix_moves w2 w3 → nix_moves w1 w3.
Proof.
  intros [H1 H2 H3 H4] [G1 G2 G3 G4]. split; [done|lia| |eauto].
  intros row [Hr|?]%G3; [|right; lia]. by apply H3.
Qed.

Lemma quiet_trans w1 w2 w3 : quiet w1 w2 → quiet w2 w3 → quiet w1 w3.
Proof. intros [H1 H2 H3] [G1 G2 G3]. split; [by eapply nix_moves_trans|congruence..]. Qed.

(** ** A batch settles or fails *)

Definition quietly {A} (w : WatchWorld) (p : Watching A) (post : A → WatchWorld → Prop) : Prop :=
  always (@watch_step) (quiet w) p w (λ a w', quiet w w' → post a w').

Lemma quiet_refl w w' : quiet w w' → quiet w' w'.
Proof. intros [[H _ _ _] _ _]. repeat split; try done; try apply H. by left. Qed.

Lemma quietly_ret {A} w (a : A) (post : A → WatchWorld → Prop) : quiet w w → post a w → quietly w (Ret a) post.
Proof. by split. Qed.

Lemma quietly_weaken {A} w (p : Watching A) (post post' : A → WatchWorld → Prop) :
  quietly w p post → (∀ a w', quiet w w' → post a w' → post' a w') → quietly w p post'.
Proof. intros H Hp. eapply always_weaken; [exact H|done|]. eauto. Qed.

(** What follows starts from where the world has got to. *)
Lemma quietly_from {A} w w' (p : Watching A) (post : A → WatchWorld → Prop) :
  quiet w w' → quietly w' p post → always (@watch_step) (quiet w) p w' (λ a w'', quiet w w'' → post a w'').
Proof.
  intros Hq H. eapply always_weaken; [exact H|intros ? ?; by eapply quiet_trans|].
  intros a w'' Hq'' Hp _. by apply Hp.
Qed.

(** A request that only lets nix move. *)
Lemma quietly_request {A B} w (op : WatchOp B) (f : B → Watching A) (post : A → WatchWorld → Prop) :
  quiet w w → (∀ b w', watch_step w op b w' → quiet w w') →
  (∀ b w', watch_step w op b w' → quiet w w' → quietly w' (f b) post) →
  quietly w (do b <- request op; f b) post.
Proof.
  intros Hq Hop Hf. apply always_request; [done|]. intros b w' Hs. apply quietly_from; eauto.
Qed.

Lemma quietly_bind {A B} w (p : Watching A) (f : A → Watching B) post mid :
  quietly w p mid → (∀ a w', quiet w w' → mid a w' → quietly w' (f a) post) →
  quietly w (prog_bind p f) post.
Proof.
  intros Hp Hf. apply always_bind. eapply always_weaken; [exact Hp|done|].
  intros a w' Hq Hm. apply quietly_from; auto.
Qed.

(** A request that touches no file of the watcher's. *)
Lemma quietly_plain {A B} w (op : WatchOp B) (f : B → Watching A) :
  quiet w w → (∀ w b w', watch_step w op b w' → quiet w w') →
  (∀ b w', quiet w' w' → quietly w' (f b) (λ _ _, True)) →
  quietly w (do b <- request op; f b) (λ _ _, True).
Proof. intros Hq Hs Hf. apply quietly_request; [done|apply Hs|]. intros b w' _ Hq'. by eapply Hf, quiet_refl. Qed.

Ltac quietly_through :=
  repeat first [apply quietly_ret; done | apply quietly_plain; [done|done|intros [] ? ?; cbv beta iota]].

Lemma open_nix_db_quietly path w : quiet w w → quietly w (open_nix_db path) (λ _ _, True).
Proof. intros Hq. unfold open_nix_db. quietly_through. Qed.

Lemma bind_wake_socket_quietly path w : quiet w w → quietly w (bind_wake_socket path) (λ _ _, True).
Proof.
  intros Hq. unfold bind_wake_socket. apply quietly_plain; [done..|]. intros [[]|e] w1 Hq1; [|by apply quietly_ret].
  apply quietly_plain; [done..|]. intros meta w2 Hq2.
  eapply (quietly_bind _ _ _ _ (λ _ _, True)).
  - destruct meta; [|by apply quietly_ret..]. by quietly_through.
  - intros [[]|e] w3 Hq3 _; [|by apply quietly_ret; [eapply quiet_refl|]]. apply quiet_refl in Hq3.
    apply quietly_plain; [done..|]. intros [[]|e] w4 Hq4; [|by apply quietly_ret].
    apply quietly_request; [done..|]. intros b w5 _ Hq5. by apply quietly_ret; [eapply quiet_refl|].
Qed.

Lemma wait_for_wake_quietly laps wake interval w : quiet w w → quietly w (wait_for_wake laps wake interval) (λ _ _, True).
Proof.
  intros Hq. unfold wait_for_wake. destruct wake; [|by quietly_through].
  apply quietly_plain; [done..|]. intros [|datagram] w1 Hq1; [by apply quietly_ret|]. clear Hq w.
  revert w1 Hq1. induction laps as [|laps IH]; intros w Hq; [by apply quietly_ret|].
  apply quietly_plain; [done..|]. intros [] w1 Hq1; [by apply IH|by apply quietly_ret].
Qed.

Lemma describe_each_quietly paths infos failed w :
  quiet w w →
  quietly w (describe_each paths infos failed) (λ r w',
    (∀ p, p ∈ map pi_path r.1 ∨ p ∈ r.2 → p ∈ map pi_path infos ∨ p ∈ failed ∨ p ∈ paths) ∧
    ∀ p, p ∈ map pi_path infos ∨ p ∈ failed ∨ p ∈ paths → p ∈ map pi_path r.1 ∨ p ∈ r.2 ∨ ww_settled w' p).
Proof.
  revert infos failed w. induction paths as [|path paths IH]; intros infos failed w Hq.
  { apply quietly_ret; [done|]. cbn. set_solver. }
  cbn [describe_each]. apply quietly_request; [done|by intros ? ? []|].
  intros [one|e] w1 [Hq1 Hone] _; pose proof (quiet_refl _ _ Hq1).
  - eapply quietly_weaken; [by apply (IH (infos ++ one) failed)|].
    intros r w' _ [H1 H2]. specialize (Hone _ eq_refl). rewrite map_app in H1, H2.
    split; intros p Hp.
    + destruct (H1 p Hp) as [[Hin|Hin]%elem_of_app|[Hin|Hin]]; [by left|apply Hone in Hin|..]; set_solver.
    + apply H2. rewrite elem_of_app, Hone. set_solver.
  - apply quietly_request; [done|by intros ? ? []|]. intros [] w2 [Hq2 Hgone] _; pose proof (quiet_refl _ _ Hq2).
    + eapply quietly_weaken; [by apply (IH infos (failed ++ [path]))|].
      intros r w' _ [H1 H2]. split; intros p Hp; [specialize (H1 p Hp); set_solver|apply H2; set_solver].
    + specialize (Hgone eq_refl). eapply quietly_weaken; [by apply (IH infos failed)|].
      intros r w' [[_ _ _ Hset] _ _] [H1 H2]. split; intros p Hp; [specialize (H1 p Hp); set_solver|].
      destruct Hp as [?|[?|[->|?]%elem_of_cons]]; [apply H2; auto..|right; right; by apply Hset|apply H2; auto].
Qed.

Lemma describe_quietly paths w :
  quiet w w →
  quietly w (describe paths) (λ r w',
    (∀ p, p ∈ map pi_path r.1 ∨ p ∈ r.2 → p ∈ paths) ∧
    ∀ p, p ∈ paths → p ∈ map pi_path r.1 ∨ p ∈ r.2 ∨ ww_settled w' p).
Proof.
  intros Hq. apply quietly_request; [done|by intros ? ? []|]. intros [infos|e] w1 [Hq1 Hall] _.
  - apply quietly_ret; [by eapply quiet_refl|]. specialize (Hall _ eq_refl). cbn.
    split; intros p; rewrite Hall; set_solver.
  - eapply quietly_weaken; [apply describe_each_quietly; by eapply quiet_refl|].
    intros r w' _ [H1 H2]. cbn in *. split; intros p Hp; [specialize (H1 p Hp)|apply H2]; set_solver.
Qed.

Lemma negotiation_hashes_elem infos info :
  info ∈ infos → hash_of_store_path (pi_path info) ∈ negotiation_hashes infos.
Proof.
  intros Hin. apply first_seen_elem. split; [|set_solver]. apply list_elem_of_fmap. exists (pi_path info).
  split; [done|]. apply list_elem_of_In, in_concat.
  exists (pi_path info :: pi_references info). split; [|by left]. apply in_map_iff. exists info. split; [done|by apply list_elem_of_In].
Qed.

Lemma push_described_quietly infos w :
  quiet w w →
  quietly w (push_described infos) (λ failed w',
    (∀ p, p ∈ failed → p ∈ map pi_path infos) ∧
    ∀ p, p ∈ map pi_path infos → p ∈ failed ∨ ww_settled w' p).
Proof.
  intros Hq. unfold push_described. destruct (is_nil infos) eqn:Hnil.
  { destruct infos; [|done]. apply quietly_ret; [done|]. cbn. set_solver. }
  apply quietly_request; [done|by intros ? ? []|]. intros [absent|e] w1 [Hq1 Hset] _.
  2: { apply quietly_ret; [by eapply quiet_refl|]. set_solver. }
  assert (Hpresent : ∀ info, info ∈ infos → info ∉ retain_missing infos absent → ww_settled w1 (pi_path info)).
  { intros info Hin Hn. apply (Hset absent _ eq_refl); [by apply negotiation_hashes_elem|].
    intros Hab. apply Hn. by apply list_elem_of_filter. }
  set (to_push := retain_missing infos absent) in *. destruct (is_nil to_push) eqn:Hpn.
  { destruct to_push eqn:Ht; [|done]. apply quietly_ret; [by eapply quiet_refl|]. split; [set_solver|].
    intros p (info & -> & Hin)%list_elem_of_fmap. right. apply Hpresent; [done|set_solver]. }
  apply quietly_request; [by eapply quiet_refl|by intros ? ? [? _]|].
  intros outcomes w2 (Hq2 & [jobs [Hperm Hsettled]%push_tracked_settled] & Hok) _.
  apply quietly_ret; [by eapply quiet_refl|].
  pose proof (tracked_spec outcomes to_push Hsettled) as Hspec.
  destruct (tracked outcomes to_push) as [s failed]. destruct Hspec as (_ & _ & _ & Hf). cbn.
  split; intros p.
  - intros (info & e & Hin & <-)%Hf. apply list_elem_of_fmap. exists info. split; [done|].
    assert (Hi : info ∈ to_push) by (rewrite <-Hperm; apply list_elem_of_fmap; by exists (info, Failed e)).
    by apply list_elem_of_filter in Hi as [_ ?].
  - intros (info & -> & Hin)%list_elem_of_fmap. destruct (decide (info ∈ to_push)) as [Hi|Hn].
    + rewrite <-Hperm in Hi. apply list_elem_of_fmap in Hi as ([info' o] & -> & Hi). cbn.
      rewrite Forall_forall in Hsettled. destruct (Hsettled _ Hi) as [Ho|[Ho|[e Ho]]]; cbn in Ho; subst o.
      * right. eapply Hok; [done|by left].
      * right. eapply Hok; [done|by right].
      * left. apply Hf. eauto.
    + right. destruct Hq2 as [[_ _ _ Hkeep] _ _]. by apply Hkeep, Hpresent.
Qed.

Lemma push_batch_quietly paths w :
  quiet w w →
  quietly w (push_batch paths) (λ failed w',
    (∀ p, p ∈ failed → p ∈ paths) ∧ ∀ p, p ∈ paths → p ∈ failed ∨ ww_settled w' p).
Proof.
  intros Hq. unfold push_batch. destruct (is_nil paths) eqn:Hnil.
  { destruct paths; [|done]. apply quietly_ret; [done|]. set_solver. }
  eapply quietly_bind; [by apply describe_quietly|]. intros [infos failed] w1 Hq1 [H1 H2]. cbn in *.
  eapply quietly_bind; [apply push_described_quietly; by eapply quiet_refl|]. intros more w2 Hq2 [H3 H4].
  apply quietly_ret; [by eapply quiet_refl|]. split; intros p.
  - intros [Hp|Hp%H3]%elem_of_app; apply H1; auto.
  - intros [Hp|[Hp|Hp]]%H2.
    + destruct (H4 p Hp); [left; set_solver|by right].
    + left. set_solver.
    + right. destruct Hq2 as [[_ _ _ Hset] _ _]. by apply Hset.
Qed.

(** The chunk's paths are listed as they failed, the others as they were. *)
Lemma apply_chunk_paths f chunk still p :
  p ∈ fl_paths (apply_chunk f chunk still).1 ↔
  if decide (p ∈ chunk) then p ∈ still else p ∈ fl_paths f.
Proof.
  revert f. induction chunk as [|path chunk IH]; intros f; cbn [apply_chunk].
  { by rewrite decide_False by apply not_elem_of_nil. }
  assert (Hnext : ∀ f', (p = path → p ∈ fl_paths f' ↔ p ∈ still) → (p ≠ path → p ∈ fl_paths f' ↔ p ∈ fl_paths f) →
    p ∈ fl_paths (apply_chunk f' chunk still).1 ↔ if decide (p ∈ path :: chunk) then p ∈ still else p ∈ fl_paths f).
  { intros f' Heq Hne. rewrite IH. destruct (decide (p ∈ chunk)) as [Hc|Hc].
    - by rewrite decide_True by (by right).
    - destruct (decide (p = path)) as [->|Hp].
      + rewrite decide_True by left. by apply Heq.
      + rewrite decide_False by (by rewrite not_elem_of_cons). by apply Hne. }
  destruct (decide (path ∈ still)) as [Hs|Hs].
  - apply Hnext; [intros ->; cbn; set_solver|cbn; set_solver].
  - specialize (Hnext (record_success f path)). destruct (apply_chunk _ _ _) as [f' n]. cbn in *.
    apply Hnext; [intros ->; set_solver|set_solver].
Qed.

Lemma push_chunks_quietly todo f w :
  quiet w w →
  quietly w (push_chunks todo f) (λ f' w',
    (∀ p, p ∈ fl_paths f' → p ∈ fl_paths f ∨ p ∈ concat todo) ∧
    ∀ p, p ∈ fl_paths f ∨ p ∈ concat todo → p ∈ fl_paths f' ∨ ww_settled w' p).
Proof.
  revert f w. induction todo as [|chunk todo IH]; intros f w Hq; cbn [push_chunks].
  { apply quietly_ret; [done|]. cbn. set_solver. }
  eapply quietly_bind; [by apply push_batch_quietly|]. intros still w1 Hq1 [H1 H2].
  eapply quietly_weaken; [apply IH; by eapply quiet_refl|]. intros f' w' [[_ _ _ Hset] _ _] [H3 H4].
  assert (Happly := apply_chunk_paths f chunk (list_to_set still)). cbn. split; intros p.
  - intros [Hp|Hp]%H3; [|right; apply elem_of_app; by right]. apply Happly in Hp. case_decide; [|by left].
    right. apply elem_of_app. by left.
  - intros Hp. specialize (Happly p). case_decide as Hc.
    + destruct (H2 p Hc) as [Hst|Hst]; [|right; by apply Hset].
      apply H4. left. apply Happly. by rewrite elem_of_list_to_set.
    + apply H4. destruct Hp as [Hp|[Hp|Hp]%elem_of_app]; [left; by apply Happly|done|by right].
Qed.

(** A wait is one sleep, or one race that a datagram may win, after which the
    socket is read until it is empty: a burst costs one early round. *)
Lemma wait_for_wake_trace laps wake interval tr :
  run_trace (wait_for_wake laps wake interval) tr (Some tt) →
  if wake then
    tr = [Ev (Watch_Race interval) Woken_Elapsed] ∨
    ∃ datagram n, n < laps ∧ tr = Ev (Watch_Race interval) (Woken_Received datagram) ::
      replicate n (Ev Watch_TryRecv true) ++ [Ev Watch_TryRecv false]
  else tr = [Ev (Watch_Sleep interval) tt].
Proof.
  unfold wait_for_wake. destruct wake.
  - intros ([|datagram] & t & -> & H)%run_trace_request_bind; [apply run_trace_ret in H as [-> _]; by left|right].
    exists datagram. revert t H. induction laps as [|laps IH]; intros t; [by intros [_ [=]]%run_trace_ret|].
    intros (received & t' & -> & H)%run_trace_request_bind. destruct received.
    + destruct (IH _ H) as (n & Hn & [= ->]). exists (S n). split; [lia|done].
    + apply run_trace_ret in H as [-> _]. exists 0. split; [lia|done].
  - by intros ([] & t & -> & [-> _]%run_trace_ret)%run_trace_request_bind.
Qed.

(** ** Nothing is lost *)

Section lost.
Context (watcher : Watcher) (start : Z).

(** Every row in [(start, cursor]] that is worth pushing is settled or listed. *)
Definition handled (w : WatchWorld) (listed : gset string) (cursor : Z) : Prop :=
  ∀ row, row ∈ ww_rows w → (start < vr_id row ≤ cursor)%Z →
    should_skip (wa_filters watcher) (valid_path row) = None →
    ww_settled w (vr_path row) ∨ vr_path row ∈ listed.

(** What the two files promise. *)
Definition lost_nothing (w : WatchWorld) : Prop :=
  rows_ok (ww_rows w) (ww_newest w) ∧
  (∀ p, p ∈ parse_failed (ww_failed w) → path_ok p) ∧
  ∀ cursor, read_cursor (Ok (ww_cursor w)) = Ok (Some cursor) →
    (cursor ≤ ww_newest w)%Z ∧ handled w (parse_failed (ww_failed w)) cursor.

Lemma handled_moves w w' listed cursor :
  nix_moves w w' → (cursor ≤ ww_newest w)%Z → handled w listed cursor → handled w' listed cursor.
Proof.
  intros [_ _ Hkept Hset] Hc Hh row Hrow Hid Hskip. destruct (Hkept row Hrow) as [Hold|]; [|lia].
  destruct (Hh row Hold Hid Hskip); [left; by apply Hset|by right].
Qed.

Lemma lost_nothing_moves w w' :
  lost_nothing w → nix_moves w w' → ww_cursor w' = ww_cursor w → ww_failed w' = ww_failed w → lost_nothing w'.
Proof.
  intros (_ & Hp & H) Hm Hc Hf. split; [apply Hm|]. rewrite Hc, Hf. split; [done|]. intros cursor [Hle Hh]%H.
  split; [|by eapply handled_moves]. destruct Hm. lia.
Qed.

Lemma lost_nothing_quiet w w' : lost_nothing w → quiet w w' → lost_nothing w'.
Proof. intros H [Hm Hc Hf]. by eapply lost_nothing_moves. Qed.

Lemma lost_nothing_refl w : lost_nothing w → quiet w w.
Proof. intros [H _]. repeat split; try apply H; [lia|by left|done]. Qed.

(** A quiet program, then the rest. *)
Lemma lost_nothing_bind {A B} w (p : Watching A) (f : A → Watching B) mid post :
  lost_nothing w → quietly w p mid →
  (∀ a w', lost_nothing w' → quiet w w' → mid a w' → always (@watch_step) lost_nothing (f a) w' post) →
  always (@watch_step) lost_nothing (prog_bind p f) w post.
Proof.
  intros Hl Hp Hf. apply always_bind. eapply always_weaken; [exact Hp|by intros ? ?; eapply lost_nothing_quiet|].
  intros a w' Hq Hm. apply Hf; [by eapply lost_nothing_quiet|done|by apply Hm].
Qed.

(** What the process knows: its cursor, which is the one on file if there is one, and a list that covers the rows behind it. *)
Record knows (w : WatchWorld) (cursor : Z) (f : FailedList) : Prop := {
  kn_lost : lost_nothing w;
  kn_cursor : ∀ c, read_cursor (Ok (ww_cursor w)) = Ok (Some c) → c = cursor;
  kn_bound : (cursor ≤ ww_newest w)%Z;
  kn_handled : handled w (fl_paths f) cursor;
  kn_paths : ∀ p, p ∈ fl_paths f → path_ok p;
}.

Lemma knows_quiet w w' cursor f : knows w cursor f → quiet w w' → knows w' cursor f.
Proof.
  intros [Hl Hc Hb Hh Hp] Hq. pose proof Hq as [Hm Hcur Hf]. split; [by eapply lost_nothing_quiet|by rewrite Hcur| | |done].
  - destruct Hm. lia.
  - by eapply handled_moves.
Qed.

Lemma parse_failed_text f : (∀ p, p ∈ fl_paths f → path_ok p) → parse_failed (Some (failed_text f)) = fl_paths f.
Proof.
  intros Hp. assert (Hall : Forall path_ok (sorted_paths (fl_paths f))).
  { apply Forall_forall. intros p. unfold sorted_paths. rewrite elem_of_order_by, elem_of_elements. apply Hp. }
  unfold parse_failed, failed_text. rewrite text_lines_writelns by (eapply Forall_impl; [done|by intros ? []]).
  rewrite filter_all by (eapply Forall_impl; [done|by intros ? []]).
  apply set_eq. intros p. unfold sorted_paths. by rewrite elem_of_list_to_set, elem_of_order_by, elem_of_elements.
Qed.

(** Saving the list keeps the promise of the cursor on file. *)
Lemma failed_save_always w cursor f {A} (k : Result unit string → Watching A) post :
  knows w cursor f →
  (∀ r w', lost_nothing w' → nix_moves w w' → ww_cursor w' = ww_cursor w →
    (is_ok r = true → parse_failed (ww_failed w') = fl_paths f) →
    always (@watch_step) lost_nothing (k r) w' post) →
  always (@watch_step) lost_nothing (do r <- failed_save f; k r) w post.
Proof.
  intros [Hl Hc Hb Hh Hp] Hk.
  assert (Hsaved : ∀ w' (r : Result unit string), nix_moves w w' → ww_cursor w' = ww_cursor w →
    (is_ok r = true → parse_failed (ww_failed w') = fl_paths f) → (is_ok r = false → ww_failed w' = ww_failed w) →
    always (@watch_step) lost_nothing (k r) w' post).
  { intros w' r Hm Hcur Hok Herr. apply Hk; [|done..]. destruct (is_ok r); [|by eapply lost_nothing_moves; eauto].
    split; [apply Hm|]. rewrite Hcur, Hok by done. split; [done|]. intros c Hc'. apply Hc in Hc' as ->.
    split; [destruct Hm; lia|by eapply handled_moves]. }
  unfold failed_save. case_decide as Hnil; apply always_request; try done;
    intros [[]|e] w' (Hm & Hcur & Hf); apply Hsaved; try done; intros _; rewrite Hf.
  - by rewrite Hnil.
  - by apply parse_failed_text.
Qed.

Lemma read_cursor_pretty cursor :
  (i64_min ≤ cursor ≤ i64_max)%Z → read_cursor (Ok (Some (pretty cursor))) = Ok (Some cursor).
Proof. intros Hc. cbn. by rewrite parse_trimmed_pretty. Qed.

(** The cursor may move to where the list on file covers the rows behind it. *)
Lemma write_cursor_always w cursor {A} (k : Result unit string → Watching A) post :
  lost_nothing w → (i64_min ≤ cursor ≤ ww_newest w)%Z → handled w (parse_failed (ww_failed w)) cursor →
  (∀ r w', lost_nothing w' → nix_moves w w' → ww_failed w' = ww_failed w →
    (is_ok r = true → read_cursor (Ok (ww_cursor w')) = Ok (Some cursor)) →
    always (@watch_step) lost_nothing (k r) w' post) →
  always (@watch_step) lost_nothing (do r <- write_cursor cursor; k r) w post.
Proof.
  intros Hl Hc Hh Hk. apply always_request; [done|]. intros r w' (Hm & Hf & Hcur).
  assert (Hrange : (i64_min ≤ cursor ≤ i64_max)%Z) by (destruct Hl as [[_ _ _ ? _] _]; lia).
  destruct r as [[]|e].
  - assert (Hread : read_cursor (Ok (ww_cursor w')) = Ok (Some cursor)) by (rewrite Hcur; by apply read_cursor_pretty).
    apply Hk; [|done..]. split; [apply Hm|]. rewrite Hread, Hf. split; [apply Hl|]. intros c [= <-].
    split; [destruct Hm; lia|apply (handled_moves w); [done|lia|done]].
  - apply Hk; [by eapply lost_nothing_moves|done..].
Qed.

(** ** Batches of rows *)

Lemma paths_after_elem rows cursor limit entry :
  entry ∈ paths_after rows cursor limit →
  ∃ row, row ∈ rows ∧ entry = valid_path row ∧ (cursor < vr_id row)%Z.
Proof.
  unfold paths_after. intros (row & -> & Hr)%list_elem_of_fmap. exists row.
  apply elem_of_take in Hr as (i & Hr & _). apply list_elem_of_lookup_2, list_elem_of_filter in Hr as [? ?]. done.
Qed.

Lemma StronglySorted_filter {A} (R : A → A → Prop) (P : A → Prop) `{∀ x, Decision (P x)} l :
  StronglySorted R l → StronglySorted R (filter P l).
Proof.
  induction 1 as [|x l _ IH Hall]; [constructor|]. rewrite filter_cons. case_decide; [|done].
  constructor; [done|]. rewrite Forall_forall in *. intros y [_ Hy]%list_elem_of_filter. auto.
Qed.

(** The rows after the cursor, in order, of which the batch takes the first. *)
Lemma rows_after_sorted rows cursor limit :
  StronglySorted (λ a b, (vr_id a < vr_id b)%Z) rows →
  ∀ x y, x ∈ take limit (filter (λ row, (cursor < vr_id row)%Z) rows) →
    y ∈ drop limit (filter (λ row, (cursor < vr_id row)%Z) rows) → (vr_id x < vr_id y)%Z.
Proof.
  intros Hs%(StronglySorted_filter _ (λ row, (cursor < vr_id row)%Z)).
  rewrite <-(take_drop limit (filter _ rows)) in Hs. by apply StronglySorted_app in Hs as (Hlt & _).
Qed.

(** A row after the cursor is in the batch, or after everything in it. *)
Lemma paths_after_split rows cursor limit row :
  StronglySorted (λ a b, (vr_id a < vr_id b)%Z) rows → row ∈ rows → (cursor < vr_id row)%Z →
  valid_path row ∈ paths_after rows cursor limit ∨
  (limit ≤ length (paths_after rows cursor limit) ∧
   ∀ entry, entry ∈ paths_after rows cursor limit → (vp_id entry < vr_id row)%Z).
Proof.
  unfold paths_after. intros Hs Hrow Hid. assert (Hlt := rows_after_sorted rows cursor limit Hs).
  set (l := filter _ rows) in *. assert (Hin : row ∈ l) by (by apply list_elem_of_filter).
  rewrite <-(take_drop limit l) in Hin. apply elem_of_app in Hin as [Hin|Hin]; [left; by apply list_elem_of_fmap_2|].
  right. split.
  - assert (Hlen : 0 < length (drop limit l)) by (destruct (drop limit l); [by apply not_elem_of_nil in Hin|cbn; lia]).
    rewrite length_drop in Hlen. rewrite length_map, length_take. lia.
  - intros entry (r & -> & Hr)%list_elem_of_fmap. by apply Hlt.
Qed.

(** Every row after the cursor, up to one of the batch, is in it. *)
Lemma paths_after_complete rows cursor limit newest row :
  StronglySorted (λ a b, (vr_id a < vr_id b)%Z) rows →
  newest ∈ paths_after rows cursor limit →
  row ∈ rows → (cursor < vr_id row ≤ vp_id newest)%Z → valid_path row ∈ paths_after rows cursor limit.
Proof.
  intros Hs Hnew Hrow Hid. destruct (paths_after_split rows cursor limit row) as [?|[_ Hlt]]; [done..|lia|done|].
  specialize (Hlt _ Hnew). lia.
Qed.

Lemma select_elem batch p :
  p ∈ select (wa_filters watcher) batch ↔
  ∃ entry, entry ∈ batch ∧ should_skip (wa_filters watcher) entry = None ∧ vp_path entry = p.
Proof.
  unfold select. rewrite list_elem_of_fmap. setoid_rewrite list_elem_of_filter. naive_solver.
Qed.

Lemma record_failures_paths f failures p :
  p ∈ fl_paths (foldl (λ f path, (record_failure f path).1) f failures) ↔ p ∈ failures ∨ p ∈ fl_paths f.
Proof.
  revert f. induction failures as [|path failures IH]; intros f; cbn [foldl]; [set_solver|].
  rewrite IH. cbn. set_solver.
Qed.

Lemma due_paths f max p : p ∈ due f max → p ∈ fl_paths f.
Proof.
  unfold due, sorted_paths. rewrite list_elem_of_filter, elem_of_order_by, elem_of_elements. by intros [_ ?].
Qed.

Lemma row_path_ok rows newest row : rows_ok rows newest → row ∈ rows → path_ok (vr_path row).
Proof. intros [_ _ H _ _]. rewrite Forall_forall in H. apply H. Qed.

(** ** Rounds of the daemon *)

Lemma knows_update w w' cursor f f' :
  knows w cursor f → quiet w w' → (∀ p, p ∈ fl_paths f' → p ∈ fl_paths f ∨ path_ok p) →
  (∀ p, p ∈ fl_paths f → p ∈ fl_paths f' ∨ ww_settled w' p) → knows w' cursor f'.
Proof.
  intros Hk Hq Hold Hnew. pose proof (knows_quiet _ _ _ _ Hk Hq) as [Hl Hc Hb Hh Hp]. split; try done.
  - intros row Hrow Hid Hskip. destruct (Hh row Hrow Hid Hskip) as [?|Hin]; [by left|].
    destruct (Hnew _ Hin); [by right|by left].
  - intros p [?|?]%Hold; [by apply Hp|done].
Qed.

Lemma knows_saved w w' cursor f :
  knows w cursor f → lost_nothing w' → nix_moves w w' → ww_cursor w' = ww_cursor w → knows w' cursor f.
Proof.
  intros [_ Hc Hb Hh Hp] Hl Hm Hcur. split; [done|by rewrite Hcur|destruct Hm; lia|by eapply handled_moves|done].
Qed.

Lemma retry_failed_always w cursor f :
  knows w cursor f →
  always (@watch_step) lost_nothing (retry_failed watcher f) w
    (λ r w', ∀ f', r = Ok f' → knows w' cursor f').
Proof.
  intros Hk. pose proof (kn_lost _ _ _ Hk) as Hl. unfold retry_failed.
  destruct (is_nil _); [apply always_ret; [done|]; by intros f' [= <-]|].
  eapply lost_nothing_bind; [done|by apply push_chunks_quietly, lost_nothing_refl|].
  rewrite chunks_concat by done. intros f' w1 Hl1 Hq1 [H1 H2].
  assert (Hk1 : knows w1 cursor f').
  { eapply knows_update; [done|done| |auto]. intros p [?|?%due_paths]%H1; by left. }
  eapply failed_save_always; [done|]. intros [[]|e] w2 Hl2 Hm2 Hc2 _; (apply always_ret; [done|]); [|done].
  intros f2 [= <-]. by eapply knows_saved.
Qed.

(** A batch that was pushed: the rows up to its last are settled or failed. *)
Lemma batch_handled w1 w2 cursor f newest failures :
  knows w2 cursor f → nix_moves w1 w2 → rows_ok (ww_rows w1) (ww_newest w1) →
  last (paths_after (ww_rows w1) cursor BATCH_SIZE) = Some newest →
  (∀ p, p ∈ select (wa_filters watcher) (paths_after (ww_rows w1) cursor BATCH_SIZE) →
    p ∈ failures ∨ ww_settled w2 p) →
  handled w2 (fl_paths (foldl (λ f path, (record_failure f path).1) f failures)) (vp_id newest) ∧
  (cursor < vp_id newest ≤ ww_newest w1)%Z.
Proof.
  intros Hk [_ _ Hkept _] Hok Hlast Hpush.
  destruct (paths_after_elem _ _ _ _ (last_Some_elem_of _ _ Hlast)) as (r & Hr & -> & Hid).
  pose proof Hok as [Hsorted Hle _ _ _]. rewrite Forall_forall in Hle. specialize (Hle _ Hr).
  split; [|by split]. intros row Hrow Hrange Hskip. rewrite record_failures_paths.
  destruct (decide (vr_id row ≤ cursor)%Z) as [Hold|Hnew].
  - destruct (kn_handled _ _ _ Hk row Hrow) as [?|?]; [lia|done|by left|by right; right].
  - cbn in Hrange. destruct (Hkept _ Hrow) as [Hin|]; [|lia].
    destruct (Hpush (vr_path row)) as [?|?]; [|by right; left|by left].
    apply select_elem. exists (valid_path row). split_and!; [|done|done].
    eapply paths_after_complete; [done|by apply last_Some_elem_of|done|cbn; lia].
Qed.

Lemma watch_loop_always fuel wake w cursor f :
  knows w cursor f →
  always (@watch_step) lost_nothing (watch_loop watcher fuel wake cursor f) w (λ _ _, True).
Proof.
  revert w cursor f. induction fuel as [|fuel IH]; intros w cursor f Hk; pose proof (kn_lost _ _ _ Hk) as Hl.
  { by apply always_ret. }
  apply always_request; [done|]. intros [rows|e] w1 [Hq1 Hrows].
  2: { apply always_ret; [by eapply lost_nothing_quiet|done]. }
  specialize (Hrows _ eq_refl). subst rows. pose proof (knows_quiet _ _ _ _ Hk Hq1) as Hk1.
  pose proof (kn_lost _ _ _ Hk1) as Hl1. cbv beta iota zeta.
  destruct (last (paths_after (ww_rows w1) cursor BATCH_SIZE)) as [newest|] eqn:Hlast.
  - eapply lost_nothing_bind; [done|by apply push_batch_quietly, lost_nothing_refl|].
    intros failures w2 Hl2 Hq2 [Hsub Hpush].
    set (f' := foldl _ f failures).
    assert (Hok1 : rows_ok (ww_rows w1) (ww_newest w1)) by apply Hl1.
    assert (Hk2 : knows w2 cursor f').
    { eapply knows_update; [exact Hk1|done|..]; intros p; unfold f'; rewrite record_failures_paths; [|auto].
      intros [Hp|?]; [right|by left]. apply Hsub, select_elem in Hp as (entry & He & _ & <-).
      apply paths_after_elem in He as (row & Hr & -> & _). by eapply row_path_ok. }
    destruct (batch_handled w1 w2 cursor f newest failures) as [Hh Hid];
      [by eapply knows_quiet|by apply Hq2|done|done|by intros p Hp; apply Hpush|].
    eapply failed_save_always; [done|]. intros r w3 Hl3 Hm3 Hc3 Hsaved.
    destruct r as [[]|e]; [|by apply always_ret]. specialize (Hsaved eq_refl).
    assert (Hmono : (ww_newest w1 ≤ ww_newest w2 ≤ ww_newest w3)%Z) by (destruct Hq2 as [[] _ _], Hm3; lia).
    assert (Hh3 : handled w3 (fl_paths f') (vp_id newest)) by (eapply handled_moves; [done|lia|done]).
    assert (Hlow : (i64_min ≤ vp_id newest)%Z).
    { destruct (paths_after_elem _ _ _ _ (last_Some_elem_of _ _ Hlast)) as (r & Hr & -> & _). cbn.
      destruct Hok1 as [_ _ _ _ Hpos]. rewrite Forall_forall in Hpos. specialize (Hpos _ Hr). unfold i64_min. lia. }
    eapply write_cursor_always; [done|lia|by rewrite Hsaved|]. intros r w4 Hl4 Hm4 Hf4 Hcur.
    destruct r as [[]|e]; [|by apply always_ret]. specialize (Hcur eq_refl).
    assert (Hmono4 : (ww_newest w3 ≤ ww_newest w4)%Z) by (by destruct Hm4).
    apply IH. split; [done|intros c; rewrite Hcur; by intros [= ->]|lia| |apply Hk2]. apply (handled_moves w3); [done|lia|done].
  - apply always_bind. eapply always_weaken; [by apply retry_failed_always|done|].
    intros [f'|e] w2 Hl2 Hk2; [|by apply always_ret]. specialize (Hk2 _ eq_refl).
    pose proof (kn_lost _ _ _ Hk2) as Hl2'.
    eapply lost_nothing_bind; [done|by apply wait_for_wake_quietly, lost_nothing_refl|].
    intros [[]|] w3 Hl3 Hq3 _; [apply IH; by eapply knows_quiet|by apply always_ret].
Qed.

(** A cursor to start from: the one on file, or without one a first that is not past the start. *)
Definition starts_from (w : WatchWorld) (cursor : Z) : Prop :=
  read_cursor (Ok (ww_cursor w)) = Ok (Some cursor) ∨ ww_cursor w = None ∧ (cursor ≤ start ∧ cursor ≤ ww_newest w)%Z.

Lemma starts_from_quiet w w' cursor : starts_from w cursor → quiet w w' → starts_from w' cursor.
Proof. unfold starts_from. intros Hs [Hm -> _]. pose proof (nm_newest _ _ Hm). naive_solver lia. Qed.

Lemma starts_from_handled w cursor :
  lost_nothing w → starts_from w cursor →
  (cursor ≤ ww_newest w)%Z ∧ handled w (parse_failed (ww_failed w)) cursor.
Proof.
  intros (Hr & _ & Hcur) [Hc|[Hc Hs]]; [by apply Hcur|]. split; [lia|intros row _ ?; lia].
Qed.

(** A program that starts by reading the failed list knows it. *)
Lemma knows_loaded w cursor text f :
  lost_nothing w → starts_from w cursor →
  (∀ t, text = Ok t → t = ww_failed w) → failed_load text = Ok f → knows w cursor f.
Proof.
  intros Hl Hc Ht Hf. destruct text as [t|]; [|done]. rewrite (Ht t) in Hf by done. injection Hf as <-.
  pose proof Hl as (Hr & Hp & Hcur). destruct Hc as [Hc|[Hc Hs]].
  - destruct (Hcur _ Hc). split; [done|congruence|done..].
  - split; [done|by rewrite Hc|lia|intros row _ ?; lia|done].
Qed.

(** ** Collecting the rows of a drain *)

(** The rows up to [target] are on the list or to be pushed. *)
Definition collected (w : WatchWorld) (listed : gset string) (target cursor : Z) (todo : list string) : Prop :=
  ∀ row, row ∈ ww_rows w → (cursor < vr_id row ≤ target)%Z →
    should_skip (wa_filters watcher) (valid_path row) = None → vr_path row ∈ todo ∨ vr_path row ∈ listed.

Lemma collected_moves w w' listed target cursor todo :
  nix_moves w w' → (target ≤ ww_newest w)%Z → collected w listed target cursor todo →
  collected w' listed target cursor todo.
Proof. intros [_ _ Hkept _] Ht Hc row [Hrow|?]%Hkept Hid; [by apply Hc|lia]. Qed.

Lemma last_filter_elem {A} (P : A → Prop) `{∀ x, Decision (P x)} l x : last (filter P l) = Some x → P x ∧ x ∈ l.
Proof. intros Hl%last_Some_elem_of. by apply list_elem_of_filter in Hl. Qed.

(** No entry up to the target is left: no row is. *)
Lemma no_batch_no_row rows cursor target row :
  StronglySorted (λ a b, (vr_id a < vr_id b)%Z) rows →
  last (filter (λ entry, (vp_id entry ≤ target)%Z) (paths_after rows cursor BATCH_SIZE)) = None →
  row ∈ rows → ¬ (cursor < vr_id row ≤ target)%Z.
Proof.
  intros Hs Hnone%last_None Hrow Hid.
  assert (Hno : ∀ entry, entry ∈ paths_after rows cursor BATCH_SIZE → (target < vp_id entry)%Z).
  { intros entry Hin. destruct (decide (vp_id entry ≤ target)%Z) as [Hle|]; [|lia].
    assert (Hbad : entry ∈ filter (λ entry, (vp_id entry ≤ target)%Z) (paths_after rows cursor BATCH_SIZE))
      by (by apply list_elem_of_filter). rewrite Hnone in Hbad. by apply not_elem_of_nil in Hbad. }
  destruct (paths_after_split rows cursor BATCH_SIZE row) as [Hin|[Hlen Hlt]]; [done..|lia| |].
  - specialize (Hno _ Hin). cbn in Hno. lia.
  - destruct (paths_after rows cursor BATCH_SIZE) as [|entry l]; [cbn in Hlen; unfold BATCH_SIZE in Hlen; lia|].
    specialize (Hno entry ltac:(left)). specialize (Hlt entry ltac:(left)). lia.
Qed.

Record drained (w : WatchWorld) (listed : gset string) (target cursor : Z) (todo : list string)
    (cursor' : Z) (todo' : list string) : Prop := {
  dr_cursor : (cursor ≤ cursor' ≤ cursor `max` target)%Z;
  dr_keeps : ∀ p, p ∈ todo → p ∈ todo';
  dr_paths : ∀ p, p ∈ todo' → p ∈ todo ∨ path_ok p;
  dr_collected : collected w listed target cursor todo';
}.

Lemma drain_collect_quietly fuel listed target cursor todo w :
  quiet w w → (target ≤ ww_newest w)%Z → Z.to_nat (target - cursor) ≤ fuel →
  quietly w (drain_collect watcher fuel listed target cursor todo) (λ r w',
    ∀ cursor' todo', r = Ok (cursor', todo') → drained w' listed target cursor todo cursor' todo').
Proof.
  revert cursor todo w. induction fuel as [|fuel IH]; intros cursor todo w Hq Ht Hfuel; cbn [drain_collect].
  { apply quietly_ret; [done|]. intros ?? [= <- <-]. split; [lia|auto|auto|]. intros row _ ?. lia. }
  destruct (Z.ltb_spec cursor target) as [Hlt|Hge].
  2: { apply quietly_ret; [done|]. intros ?? [= <- <-]. split; [lia|auto|auto|]. intros row _ ?. lia. }
  apply quietly_request; [done|by intros ? ? []|]. intros [rows|e] w1 [Hq1 Hrows] _; pose proof (quiet_refl _ _ Hq1) as Hq1'.
  2: by apply quietly_ret. specialize (Hrows _ eq_refl). subst rows.
  pose proof (nm_rows _ _ (qu_nix _ _ Hq1)) as Hok. cbv beta iota zeta.
  assert (Ht1 : (target ≤ ww_newest w1)%Z) by (destruct Hq1 as [[] _ _]; lia).
  destruct (last _) as [newest|] eqn:Hlast.
  2: { apply quietly_ret; [done|]. intros ?? [= <- <-]. split; [lia|auto|auto|]. intros row Hrow Hid.
       exfalso. by eapply no_batch_no_row; [apply Hok|..]. }
  apply last_filter_elem in Hlast as [Hle Hnew].
  destruct (paths_after_elem _ _ _ _ Hnew) as (r & _ & Hr & Hid). subst newest. cbn in Hle.
  eapply quietly_weaken; [apply IH; [done|done|cbn; lia]|].
  intros [[c t]|] w2 Hq2 Hd cursor' todo' [= <- <-]; destruct (Hd _ _ eq_refl) as [Hc Hkeep Hpaths Hcol]. cbn in Hc, Hcol.
  split; [lia|intros p Hp; apply Hkeep, elem_of_app; by left| |].
  - intros p [[?|Hp]%elem_of_app|?]%Hpaths; [by left| |by right]. apply list_elem_of_filter in Hp as [_ Hp].
    apply select_elem in Hp as (entry & [_ He]%list_elem_of_filter & _ & <-).
    apply paths_after_elem in He as (row & Hrow & -> & _). right. by eapply row_path_ok.
  - intros row Hrow Hrange Hskip. destruct (decide (vr_id row ≤ vr_id r)%Z); [|apply Hcol; [done|lia|done]].
    destruct (decide (vr_path row ∈ listed)) as [|Hnl]; [by right|left].
    apply Hkeep, elem_of_app. right. apply list_elem_of_filter. split; [done|].
    apply select_elem. exists (valid_path row). split_and!; [|done|done]. apply list_elem_of_filter. split; [cbn; lia|].
    destruct (nm_kept _ _ (qu_nix _ _ Hq2) _ Hrow) as [Hrow1|]; [|lia].
    eapply paths_after_complete; [apply Hok|exact Hnew|done|cbn; lia].
Qed.

(** ** The whole of a drain *)

Lemma elem_sorted_paths (s : gset string) p : p ∈ sorted_paths s ↔ p ∈ s.
Proof. unfold sorted_paths. by rewrite elem_of_order_by, elem_of_elements. Qed.

(** What is pushed of what was collected, or stays listed. *)
Lemma drained_handled w w' cursor f target cursor' todo f' :
  knows w cursor f → quiet w w' → (target ≤ ww_newest w)%Z →
  drained w (fl_paths f) target cursor (sorted_paths (fl_paths f)) cursor' todo →
  (∀ p, p ∈ fl_paths f ∨ p ∈ todo → p ∈ fl_paths f' ∨ ww_settled w' p) →
  handled w' (fl_paths f') (cursor' `max` target).
Proof.
  intros Hk Hq Ht [Hc _ _ Hcol] Hpush row Hrow Hid Hskip. destruct (knows_quiet _ _ _ _ Hk Hq) as [_ _ _ Hh _].
  assert (Hd : vr_path row ∈ fl_paths f ∨ vr_path row ∈ todo ∨ ww_settled w' (vr_path row)).
  { destruct (decide (vr_id row ≤ cursor)%Z).
    - destruct (Hh row Hrow) as [?|?]; [lia|done|auto..].
    - eapply collected_moves in Hcol; [|apply Hq|done]. destruct (Hcol row Hrow) as [?|?]; [lia|done|auto..]. }
  destruct Hd as [?|[?|?]]; [| |by left]; destruct (Hpush (vr_path row)); auto.
Qed.

Lemma concat_chunks_elem {A} (l : list A) x : x ∈ concat (chunks BATCH_SIZE l) ↔ x ∈ l.
Proof. by rewrite chunks_concat. Qed.

Lemma drain_from_always w target cursor :
  lost_nothing w → starts_from w cursor → (target ≤ ww_newest w)%Z → (i64_min ≤ cursor)%Z →
  always (@watch_step) lost_nothing (drain_from watcher target cursor) w
    (λ r w', ∀ failed, r = Ok failed → handled w' (list_to_set failed) target).
Proof.
  intros Hl Hs Ht Hlow. apply always_request; [done|]. intros text w1 [Hq1 Htext].
  pose proof (lost_nothing_quiet _ _ Hl Hq1) as Hl1.
  destruct (failed_load text) as [f|e] eqn:Hf; [|by apply always_ret].
  assert (Hk1 : knows w1 cursor f).
  { eapply (knows_loaded w1 cursor text); [done| |intros t Et; rewrite (Htext t Et); by rewrite (qu_failed _ _ Hq1)|done].
    by eapply starts_from_quiet. }
  assert (Ht1 : (target ≤ ww_newest w1)%Z) by (pose proof (nm_newest _ _ (qu_nix _ _ Hq1)); lia).
  eapply lost_nothing_bind; [done|by apply drain_collect_quietly; [apply lost_nothing_refl| |]|].
  intros [[cursor' todo]|e] w2 Hl2 Hq2 Hd; [|by apply always_ret]. specialize (Hd _ _ eq_refl). cbn [fst snd].
  pose proof (knows_quiet _ _ _ _ Hk1 Hq2) as Hk2.
  eapply lost_nothing_bind; [done|by apply push_chunks_quietly, lost_nothing_refl|].
  intros f' w3 Hl3 Hq3 [Hsub Hpush]. setoid_rewrite concat_chunks_elem in Hsub. setoid_rewrite concat_chunks_elem in Hpush.
  assert (Hk3 : knows w3 cursor f').
  { eapply knows_update; [exact Hk2|done| |auto]. intros p [?|[Hp%elem_sorted_paths|?]%(dr_paths _ _ _ _ _ _ _ Hd)]%Hsub; auto. }
  assert (Hh3 : handled w3 (fl_paths f') (cursor' `max` target)).
  { eapply drained_handled; [exact Hk2|exact Hq3| |exact Hd|auto]. pose proof (nm_newest _ _ (qu_nix _ _ Hq2)); lia. }
  eapply failed_save_always; [done|]. intros [[]|e] w4 Hl4 Hm4 Hc4 Hsaved; [|by apply always_ret].
  specialize (Hsaved eq_refl). assert (Hb : (cursor' `max` target ≤ ww_newest w4)%Z).
  { destruct Hd as [Hc _ _ _], Hq2 as [[_ ? _ _] _ _], Hq3 as [[_ ? _ _] _ _], Hm4 as [_ ? _ _], Hk1 as [_ _ ? _ _]. lia. }
  assert (Hh4 : handled w4 (fl_paths f') (cursor' `max` target)).
  { eapply handled_moves; [exact Hm4| |done]. destruct Hd as [Hc _ _ _], Hq2 as [[_ ? _ _] _ _], Hq3 as [[_ ? _ _] _ _], Hk1 as [_ _ ? _ _]. lia. }
  eapply write_cursor_always; [done|destruct Hd as [Hc _ _ _]; lia|rewrite Hsaved; intros row ? ?; apply Hh4; [done|lia]|].
  intros [[]|e] w5 Hl5 Hm5 _ _; [|by apply always_ret]. apply always_ret; [done|]. intros failed [= <-].
  intros row Hrow Hid Hskip. rewrite elem_of_list_to_set, elem_sorted_paths.
  eapply (handled_moves w4); [exact Hm5|done|exact Hh4|done|lia|done].
Qed.

Lemma parse_i64_min s z : parse_i64 s = Some z → (i64_min ≤ z)%Z.
Proof.
  unfold parse_i64, parse_int. intros (v & _ & Hv)%bind_Some. destruct (andb _ _) eqn:Hb; [|done].
  injection Hv as <-. lia.
Qed.

Lemma read_cursor_min text c : read_cursor text = Ok (Some c) → (i64_min ≤ c)%Z.
Proof.
  destruct text as [[t|]|]; cbn; [|done..]. destruct (parse_i64 (str_trim t)) as [z|] eqn:Hp; [|done].
  intros [= <-]. by eapply parse_i64_min.
Qed.

Lemma foldl_max_le (l : list Z) a z : foldl Z.max a l = z → (a ≤ z)%Z ∧ ∀ x, x ∈ l → (x ≤ z)%Z.
Proof.
  revert a. induction l as [|x l IH]; intros a; cbn [foldl]; [intros <-; split; [lia|by intros ? ?%not_elem_of_nil]|].
  intros [Ha Hl]%IH. split; [lia|]. intros y [->|?]%elem_of_cons; [lia|by apply Hl].
Qed.

Lemma foldl_max_in (l : list Z) a : foldl Z.max a l ∈ a :: l.
Proof.
  revert a. induction l as [|x l IH]; intros a; cbn [foldl]; [by left|].
  destruct (Z.max_spec a x) as [[_ ->]|[_ ->]]; specialize (IH x) as Hx; specialize (IH a) as Ha; set_solver.
Qed.

Lemma max_id_ge rows row : row ∈ rows → (vr_id row ≤ max_id rows)%Z.
Proof.
  intros Hrow%(list_elem_of_fmap_2 vr_id). unfold max_id. change (map vr_id rows) with (vr_id <$> rows).
  destruct (vr_id <$> rows) as [|id ids]; [by apply not_elem_of_nil in Hrow|].
  destruct (foldl_max_le ids id _ eq_refl) as [Hid Hids]. apply elem_of_cons in Hrow as [->|?]; [done|by apply Hids].
Qed.

Lemma max_id_bounds rows newest : rows_ok rows newest → (0 ≤ max_id rows ≤ newest)%Z.
Proof.
  intros [_ Hn _ Hr Hpos]. unfold max_id. destruct (map vr_id rows) as [|id ids] eqn:Heq; [lia|].
  assert (Hin : foldl Z.max id ids ∈ vr_id <$> rows) by (change (vr_id <$> rows) with (map vr_id rows); rewrite Heq; apply foldl_max_in).
  apply list_elem_of_fmap in Hin as (row & -> & Hrow). rewrite Forall_forall in Hn, Hpos.
  specialize (Hn _ Hrow). specialize (Hpos _ Hrow). lia.
Qed.

Lemma watch_step_moves w B (op : WatchOp B) b w' : watch_step w op b w' → nix_moves w w'.
Proof. destruct op; cbn; first [by intros [[] _] | tauto | by intros []]. Qed.

Lemma always_moves {A} (p : Watching A) w0 w :
  nix_moves w0 w → always (@watch_step) (nix_moves w0) p w (λ _ w', nix_moves w0 w').
Proof.
  revert w. induction p as [a|B op k IH]; intros w Hm; cbn; (split; [done|]); [done|].
  intros b w' Hs%watch_step_moves. apply IH. by eapply nix_moves_trans.
Qed.

(** Every row there was when the drain started, and still is, is settled or
    reported as failed. *)
Definition accounted (w w' : WatchWorld) (failed : list string) : Prop :=
  ∀ row, row ∈ ww_rows w → row ∈ ww_rows w' → (start < vr_id row)%Z →
    should_skip (wa_filters watcher) (valid_path row) = None →
    ww_settled w' (vr_path row) ∨ vr_path row ∈ failed.

(** A row that is there at both ends was there in between. *)
Lemma row_stays w w1 w2 row :
  rows_ok (ww_rows w) (ww_newest w) → nix_moves w w1 → nix_moves w1 w2 → row ∈ ww_rows w → row ∈ ww_rows w2 → row ∈ ww_rows w1.
Proof.
  intros [_ Hn _ _ _] Hm1 Hm2 Hr Hr2. destruct (nm_kept _ _ Hm2 _ Hr2) as [?|Hnew]; [done|].
  rewrite Forall_forall in Hn. specialize (Hn _ Hr). pose proof (nm_newest _ _ Hm1). lia.
Qed.

Lemma drain_from_accounts w w1 cursor rows newest :
  lost_nothing w → lost_nothing w1 → nix_moves w w1 → starts_from w1 cursor → (i64_min ≤ cursor)%Z →
  rows_ok rows newest → (newest ≤ ww_newest w1)%Z →
  (∀ row, row ∈ ww_rows w → row ∈ ww_rows w1 → row ∈ rows) →
  always (@watch_step) lost_nothing (drain_from watcher (max_id rows) cursor) w1
    (λ r w', ∀ failed, r = Ok failed → accounted w w' failed).
Proof.
  intros [[_ Hnewest _ _ _] _] Hl Hm Hs Hlow Hok Hle Hrows. pose proof (max_id_bounds _ _ Hok).
  assert (Hd : always (@watch_step) lost_nothing (drain_from watcher (max_id rows) cursor) w1
    (λ r w', ∀ failed, r = Ok failed → handled w' (list_to_set failed) (max_id rows)))
    by (apply drain_from_always; [done..|lia|done]).
  assert (Hmoves := always_moves (drain_from watcher (max_id rows) cursor) w1 w1 (qu_nix _ _ (lost_nothing_refl _ Hl))).
  eapply always_weaken; [exact (always_and _ _ _ _ _ _ _ Hd Hmoves)|by intros ? []|]. clear Hd.
  intros r w' _ [Hd Hm'] failed Hr row Hrow Hrow' Hid Hskip. specialize (Hd _ Hr).
  rewrite Forall_forall in Hnewest. specialize (Hnewest _ Hrow).
  destruct (nm_kept _ _ Hm' _ Hrow') as [Hrow1|]; [|pose proof (nm_newest _ _ Hm); lia].
  destruct (Hd row Hrow') as [?|Hf]; [split; [done|by apply max_id_ge, Hrows]|done|by left|right].
  by rewrite elem_of_list_to_set in Hf.
Qed.

(** A drain accounts for every valid path: a row the Nix database held when the drain started
    and still holds at its end, whose id is past the start and which no filter skips, is settled or
    one of the failures the drain returns, although rows are read in batches and the failed list is
    shared with the daemon; the cursor and the failed list on file keep their promise wherever the
    drain is killed. *)
Theorem drain_accounts_for_every_row w full_sync :
  lost_nothing w → (ww_cursor w = None → (0 ≤ start)%Z) →
  always (@watch_step) lost_nothing (drain watcher full_sync) w
    (λ r w', ∀ failed, r = Ok failed → accounted w w' failed).
Proof.
  intros Hl Hstart. unfold drain. eapply lost_nothing_bind; [done|by apply open_nix_db_quietly, lost_nothing_refl|].
  intros [u|e] w0 Hl0 Hq0 _; [|by apply always_ret].
  apply always_request; [done|]. intros [rows|e] w1 [Hq1%(quiet_trans _ _ _ Hq0) Hrows].
  2: { apply always_ret; [exact (lost_nothing_quiet _ _ Hl Hq1)|done]. } specialize (Hrows _ eq_refl). subst rows.
  pose proof (lost_nothing_quiet _ _ Hl Hq1) as Hl1. cbv beta iota zeta.
  apply always_request; [done|]. intros text w2 [Hq2 Htext]. pose proof (lost_nothing_quiet _ _ Hl1 Hq2) as Hl2.
  pose proof (quiet_trans _ _ _ Hq1 Hq2) as Hq. pose proof Hq as [Hm Hcur _].
  assert (Hfrom : ∀ cursor, starts_from w2 cursor → (i64_min ≤ cursor)%Z →
    always (@watch_step) lost_nothing (drain_from watcher (max_id (ww_rows w1)) cursor) w2
      (λ r w', ∀ failed, r = Ok failed → accounted w w' failed)).
  { intros cursor Hs Hlow. apply (drain_from_accounts _ _ _ _ (ww_newest w1)); try done; [apply Hl1|apply Hq2|].
    intros row. by apply (row_stays w w1 w2); [apply Hl|apply Hq1|apply Hq2]. }
  destruct text as [t|e]; [|by apply always_ret]. specialize (Htext _ eq_refl). rewrite (qu_cursor _ _ Hq1) in Htext.
  destruct (read_cursor (Ok t)) as [[cursor|]|e] eqn:Hread; [| |by apply always_ret].
  - apply Hfrom; [|by eapply read_cursor_min]. left. by rewrite Hcur, <-Htext.
  - destruct full_sync; [|by apply always_ret]. assert (Ht : t = None).
    { destruct t as [t|]; [|done]. cbn in Hread. by destruct (parse_i64 _). }
    apply Hfrom; [right|done]. rewrite Hcur, <-Htext, Ht. split_and!; [done|apply Hstart; congruence|].
    pose proof (ro_range _ _ (proj1 Hl2)). lia.
Qed.

(** What [run] does once it has its cursor. *)
Definition run_from (fuel : nat) (cursor : Z) : Watching (Result unit string) :=
  do? _ <- write_cursor cursor;
  do bound <- bind_wake_socket (wa_socket_path watcher);
  do failed <- request Watch_ReadFailed;
  match failed_load failed with
  | Err e => Ret (Err e)
  | Ok f => watch_loop watcher fuel (is_ok bound) cursor f
  end.

Lemma run_from_always fuel w cursor :
  lost_nothing w → starts_from w cursor → (i64_min ≤ cursor)%Z →
  always (@watch_step) lost_nothing (run_from fuel cursor) w (λ _ _, True).
Proof.
  intros Hl1 Hs Hlow. destruct (starts_from_handled _ _ Hl1 Hs) as [Hle Hh].
  eapply write_cursor_always; [done|done|done|]. intros [[]|e] w2 Hl2 Hm2 Hf2 Hread; [|by apply always_ret].
  specialize (Hread eq_refl).
  eapply lost_nothing_bind; [done|by apply bind_wake_socket_quietly, lost_nothing_refl|]. intros bound w2' Hl2' Hq2' _.
  apply always_request; [done|]. intros failed w3 [Hq3%(quiet_trans _ _ _ Hq2') Hfailed]. rewrite (qu_failed _ _ Hq2') in Hfailed.
  pose proof (lost_nothing_quiet _ _ Hl2 Hq3) as Hl3. destruct (failed_load failed) as [f|e] eqn:Hf; [|by apply always_ret].
  apply watch_loop_always. eapply knows_loaded; [done|left; by rewrite (qu_cursor _ _ Hq3)| |exact Hf].
  intros t Ht. rewrite (qu_failed _ _ Hq3). by apply Hfailed.
Qed.
End lost.

(** Without a cursor on file nothing is promised of any row. *)
Lemma lost_nothing_fresh watcher start start' w :
  ww_cursor w = None → lost_nothing watcher start w → lost_nothing watcher start' w.
Proof. intros Hc (Hr & Hp & _). split_and!; [done|done|]. by rewrite Hc. Qed.

(** *** Where a run starts

    A run without a cursor on file records where it starts: at 0 with
    [full_sync], or else at the largest id of the rows it reads first. *)

Definition boot_after (seen : option Z) {B} (op : WatchOp B) : B → option Z :=
  match seen with
  | Some id => λ _, Some id
  | None => match op in WatchOp B return B → option Z with
            | Watch_Rows => λ b, match b with Ok rows => Some (max_id rows) | Err _ => None end
            | _ => λ _, None
            end
  end.

(** The world, and the largest id of the rows the run read first. *)
Definition boot_step (w : WatchWorld * option Z) {B} (op : WatchOp B) (b : B) (w' : WatchWorld * option Z) : Prop :=
  watch_step w.1 op b w'.1 ∧ w'.2 = boot_after w.2 op b.

(** The cursor on file counts from [start], if there is one. *)
Definition starts_at (start : Z) (cursor : option string) (full_sync : bool) (seen : option Z) : Z :=
  match cursor with
  | Some _ => start
  | None => if full_sync then 0 else default 0%Z seen
  end.

Lemma always_boot {A} inv (inv' : WatchWorld * option Z → Prop) (p : Watching A) w seen :
  (∀ w' seen', (∀ id, seen = Some id → seen' = Some id) → inv w' → inv' (w', seen')) →
  always (@watch_step) inv p w (λ _ _, True) → always (@boot_step) inv' p (w, seen) (λ _ _, True).
Proof.
  revert w seen. induction p as [a|B op k IH]; intros w seen Hi [H0 H]; (split; [by apply Hi|]); [done|].
  intros b [w' seen'] [Hs Hb]. cbn in Hs, Hb. apply IH; [|by apply H]. intros w2 seen2 Hseen. apply Hi.
  intros id ->. apply Hseen. by rewrite Hb.
Qed.

Lemma boot_request {A B} inv' (op : WatchOp B) (f : B → Watching A) w seen post :
  inv' (w, seen) → (∀ b w', watch_step w op b w' → always (@boot_step) inv' (f b) (w', boot_after seen op b) post) →
  always (@boot_step) inv' (do b <- request op; f b) (w, seen) post.
Proof. intros Hi Hf. apply always_request; [done|]. intros b [w' seen'] [Hs Hb]. cbn in Hs, Hb. subst seen'. by apply Hf. Qed.

Section run.
Context (watcher : Watcher) (start : Z).

Lemma run_always fuel w full_sync :
  lost_nothing watcher start w →
  always (@boot_step) (λ w', lost_nothing watcher (starts_at start (ww_cursor w) full_sync w'.2) w'.1)
    (run watcher fuel full_sync) (w, None) (λ _ _, True).
Proof.
  intros Hl. set (s := starts_at start (ww_cursor w) full_sync).
  assert (Hs : ∀ seen, lost_nothing watcher (s seen) w).
  { intros seen. unfold s, starts_at. destruct (ww_cursor w) eqn:Hc; [done|by eapply lost_nothing_fresh]. }
  assert (Hany : ∀ w' seen, quiet w w' → lost_nothing watcher (s seen) w').
  { intros w' seen. by apply lost_nothing_quiet. }
  pose proof (lost_nothing_refl _ _ _ Hl) as Hq0.
  assert (Hfrom : ∀ w' cursor seen, quiet w w' → starts_from (s seen) w' cursor → (i64_min ≤ cursor)%Z →
    (∀ seen', (∀ id, seen = Some id → seen' = Some id) → s seen' = s seen) →
    always (@boot_step) (λ w', lost_nothing watcher (s w'.2) w'.1) (run_from watcher fuel cursor) (w', seen) (λ _ _, True)).
  { intros w' cursor seen Hq Hc Hlow Hseen. eapply always_boot; [|by eapply run_from_always; [apply Hany|..]].
    intros w2 seen2 Hs2 Hl2. cbn. rewrite Hseen; [exact Hl2|exact Hs2]. }
  unfold run, open_nix_db. apply boot_request; [by apply Hany|]. intros [u|e] w1 Hq1; [|apply always_ret; [by apply Hany|done]].
  apply boot_request; [by apply Hany|]. intros [n|e] w2 Hq2%(quiet_trans _ _ _ Hq1); [|apply always_ret; [by apply Hany|done]].
  cbn [prog_bind boot_after]. destruct (0 <? n)%Z; cbn [prog_bind]; [|apply always_ret; [by apply Hany|done]].
  apply boot_request; [by apply Hany|]. intros text w3 [Hq3 Htext]. cbn [boot_after].
  rewrite (qu_cursor _ _ Hq2) in Htext. pose proof (quiet_trans _ _ _ Hq2 Hq3) as Hq. pose proof (qu_cursor _ _ Hq) as Hcur.
  destruct (read_cursor text) as [[cursor|]|e] eqn:Hread; cbn [prog_bind]; [| |apply always_ret; [by apply Hany|done]].
  - destruct text as [t|]; [|done]. rewrite (Htext t) in Hread by done. apply Hfrom; [done| |by eapply read_cursor_min|].
    + left. by rewrite Hcur.
    + intros seen' _. unfold s, starts_at. destruct (ww_cursor w); done.
  - destruct text as [t|]; [|done]. destruct t as [t|]; [cbn in Hread; by destruct (parse_i64 _)|].
    specialize (Htext _ eq_refl). assert (Hrange : (0 ≤ ww_newest w3)%Z) by apply Hq. destruct full_sync; cbn [prog_bind].
    + apply Hfrom; [done| |done|intros; unfold s, starts_at; by rewrite <-Htext].
      right. rewrite Hcur, <-Htext. split; [done|]. unfold s, starts_at. rewrite <-Htext. lia.
    + apply boot_request; [by apply Hany|]. intros [rows|e] w4 [Hq4%(quiet_trans _ _ _ Hq) Hrows];
        [|apply always_ret; [by apply Hany|done]].
      cbn [boot_after prog_bind]. specialize (Hrows _ eq_refl).
      assert (Hbounds : (0 ≤ max_id rows ≤ ww_newest w4)%Z) by (rewrite Hrows; apply max_id_bounds, Hq4).
      apply Hfrom; [done| |unfold i64_min; lia|].
      * right. rewrite (qu_cursor _ _ Hq4), <-Htext. split; [done|]. unfold s, starts_at. rewrite <-Htext. cbn. lia.
      * intros seen' Hid. unfold s, starts_at. rewrite <-Htext. by rewrite (Hid _ eq_refl).
Qed.

(** *** Failed saves *)

Definition is_save {B} (op : WatchOp B) : bool :=
  match op with Watch_WriteCursor _ | Watch_WriteFailed _ | Watch_RemoveFailed => true | _ => false end.

(** The request is one of the cursor's file or the failed list's to be replaced, and failed. *)
Definition save_failed (e : Event WatchOp) : bool :=
  match e with
  | Ev op b => match op in WatchOp B return B → bool with
               | Watch_WriteCursor _ | Watch_WriteFailed _ | Watch_RemoveFailed => λ b, negb (is_ok b)
               | _ => λ _, false
               end b
  end.

(** Whatever is answered, nothing is asked after a save that failed, and the end is an error. *)
Definition stops_on_failed_save {A} (p : Watching (Result A string)) : Prop :=
  ∀ tr r, run_trace p tr r → ∀ before e after, tr = before ++ e :: after → save_failed e = true →
    after = [] ∧ is_ok r = false.

Fixpoint saveless {A} (p : Watching A) : Prop :=
  match p with
  | Ret _ => True
  | Step op k => is_save op = false ∧ ∀ b, saveless (k b)
  end.

Lemma saveless_bind {A B} (p : Watching A) (f : A → Watching B) :
  saveless p → (∀ a, saveless (f a)) → saveless (prog_bind p f).
Proof. intros Hp Hf. induction p as [a|C op k IH]; cbn; [done|]. destruct Hp as [Hop Hk]. split; [done|]. auto. Qed.

Lemma saveless_trace {A} (p : Watching A) tr a : saveless p → run_trace p tr a → Forall (λ e, save_failed e = false) tr.
Proof.
  intros Hp Hr. induction Hr as [a|B op k b tr a _ IH]; [done|]. destruct Hp as [Hop Hk]. constructor; [|by apply IH].
  by destruct op.
Qed.

Lemma stops_ret {A} (r : Result A string) : stops_on_failed_save (Ret r).
Proof. intros tr r' [-> _]%run_trace_ret before e after H%app_cons_not_nil. done. Qed.

Lemma stops_save {B A} (op : WatchOp (Result B string)) (f : Result B string → Watching (Result A string)) :
  (∀ b, save_failed (Ev op (Ok b)) = false) → (∀ b, stops_on_failed_save (f (Ok b))) → (∀ e, ∃ e', f (Err e) = Ret (Err e')) →
  stops_on_failed_save (do r <- request op; f r).
Proof.
  intros Hop Hok Herr tr r (b & tr' & -> & Hr)%run_trace_request_bind [|e0 before] ev after Heq Hf; injection Heq as <- ->.
  - destruct b as [b|err]; [by rewrite Hop in Hf|]. destruct (Herr err) as [e' He]. rewrite He in Hr.
    by apply run_trace_ret in Hr as [-> ->].
  - destruct b as [b|err]; [by eapply Hok|]. destruct (Herr err) as [e' He]. rewrite He in Hr.
    apply run_trace_ret in Hr as [H _]. by destruct before.
Qed.

Lemma stops_after {A B} (p : Watching A) (f : A → Watching (Result B string)) :
  saveless p → (∀ a, stops_on_failed_save (f a)) → stops_on_failed_save (prog_bind p f).
Proof.
  intros Hp Hf tr r (a & tr1 & tr2 & -> & Hr1 & Hr2)%run_trace_bind before e after Heq He.
  pose proof (saveless_trace _ _ _ Hp Hr1) as Hall. rewrite Forall_forall in Hall.
  apply app_eq_app in Heq as (l & [[-> Hl]|[-> Hl]]); [destruct l as [|e' l]; [by eapply (Hf a _ _ Hr2 [])|]|by eapply Hf].
  injection Hl as <- _. rewrite (Hall e) in He; [done|]. apply elem_of_app. right. left.
Qed.

Lemma stops_try {A B} (p : Watching (Result A string)) (f : Result A string → Watching (Result B string)) :
  stops_on_failed_save p → (∀ a, stops_on_failed_save (f (Ok a))) → (∀ e, ∃ e', f (Err e) = Ret (Err e')) →
  stops_on_failed_save (prog_bind p f).
Proof.
  intros Hp Hok Herr tr r (a & tr1 & tr2 & -> & Hr1 & Hr2)%run_trace_bind before e after Heq He.
  assert (Hend : (∃ l, tr1 = before ++ e :: l ∧ after = l ++ tr2) ∨ ∃ l, tr2 = l ++ e :: after).
  { apply app_eq_app in Heq as (l & [[-> Hl]|[-> Hl]]); [|right; by exists l].
    destruct l as [|e' l]; [right; by exists []|]. injection Hl as <- ->. left. by exists l. }
  destruct Hend as [(l & -> & ->)|(l & ->)].
  - destruct (Hp _ _ Hr1 before e l eq_refl He) as [-> Ha]. destruct a as [a|err]; [done|].
    destruct (Herr err) as [e' Hf]. rewrite Hf in Hr2. by apply run_trace_ret in Hr2 as [-> ->].
  - destruct a as [a|err]; [by eapply Hok|]. destruct (Herr err) as [e' Hf]. rewrite Hf in Hr2.
    apply run_trace_ret in Hr2 as [H _]. by destruct l.
Qed.

Lemma open_nix_db_saveless path : saveless (open_nix_db path).
Proof. split; [done|]. intros [[]|e]; [|done]. split; [done|]. by intros [n|e]. Qed.

Lemma bind_wake_socket_saveless path : saveless (bind_wake_socket path).
Proof.
  split; [done|]. intros [[]|e]; [|done]. split; [done|]. intros meta. cbn [prog_bind]. apply saveless_bind; [by destruct meta|].
  intros [[]|e]; [|done]. split; [done|]. by intros [[]|e].
Qed.

Lemma wait_for_wake_saveless laps wake interval : saveless (wait_for_wake laps wake interval).
Proof.
  destruct wake; [|done]. split; [done|]. intros [|datagram]; [done|]. cbn [prog_bind].
  induction laps as [|laps IH]; [done|]. split; [done|]. by intros [].
Qed.

Lemma push_batch_saveless paths : saveless (push_batch paths).
Proof.
  assert (Hdescribe : ∀ paths infos failed, saveless (describe_each paths infos failed)).
  { clear. intros paths. induction paths as [|path paths IH]; intros infos failed; [done|].
    split; [done|]. intros [one|e]; [apply IH|]. split; [done|]. intros []; apply IH. }
  unfold push_batch. destruct (is_nil paths); [done|]. apply saveless_bind; [split; [done|]; intros [infos|e]; [done|apply Hdescribe]|].
  intros [infos failed]. apply saveless_bind; [|done]. unfold push_described. destruct (is_nil _); [done|].
  split; [done|]. intros [absent|e]; [|done]. cbn [prog_bind]. by destruct (is_nil _).
Qed.

Lemma push_chunks_saveless todo f : saveless (push_chunks todo f).
Proof.
  revert f. induction todo as [|chunk todo IH]; intros f; [done|]. apply saveless_bind; [apply push_batch_saveless|]. intros still. apply IH.
Qed.

Lemma failed_save_stops f : stops_on_failed_save (failed_save f).
Proof.
  unfold failed_save. case_decide.
  - apply (stops_save Watch_RemoveFailed Ret); [done|intros; apply stops_ret|eauto].
  - apply (stops_save (Watch_WriteFailed _) Ret); [done|intros; apply stops_ret|eauto].
Qed.

Lemma write_cursor_stops cursor : stops_on_failed_save (write_cursor cursor).
Proof. apply (stops_save (Watch_WriteCursor _) Ret); [done|intros; apply stops_ret|eauto]. Qed.

Lemma retry_failed_stops f : stops_on_failed_save (retry_failed watcher f).
Proof.
  unfold retry_failed. destruct (is_nil _); [apply stops_ret|]. apply stops_after; [apply push_chunks_saveless|]. intros f'.
  apply stops_try; [apply failed_save_stops|intros; apply stops_ret|eauto].
Qed.

(** A request that is no save, answered with an error, ends a run too. *)
Lemma stops_ask {A B} (op : WatchOp B) (f : B → Watching (Result A string)) :
  is_save op = false → (∀ b, stops_on_failed_save (f b)) → stops_on_failed_save (do b <- request op; f b).
Proof. intros Hop. by apply stops_after. Qed.

Lemma watch_loop_stops fuel wake cursor f : stops_on_failed_save (watch_loop watcher fuel wake cursor f).
Proof.
  revert cursor f. induction fuel as [|fuel IH]; intros cursor f; [apply stops_ret|]. cbn [watch_loop].
  apply stops_ask; [done|]. intros [rows|e]; [|apply stops_ret]. cbv zeta. destruct (last _) as [newest|].
  - apply stops_after; [apply push_batch_saveless|]. intros failures. cbv zeta.
    apply stops_try; [apply failed_save_stops| |eauto]. intros _.
    apply stops_try; [apply write_cursor_stops| |eauto]. intros _. apply IH.
  - apply stops_try; [apply retry_failed_stops| |eauto]. intros f'.
    apply stops_after; [apply wait_for_wake_saveless|]. intros [[]|]; [apply IH|apply stops_ret].
Qed.

Lemma run_stops fuel full_sync : stops_on_failed_save (run watcher fuel full_sync).
Proof.
  unfold run. apply stops_after; [apply open_nix_db_saveless|]. intros [[]|e]; [|apply stops_ret].
  apply stops_ask; [done|]. intros text. apply stops_after.
  { destruct (read_cursor text) as [[cursor|]|e]; [done| |done]. destruct full_sync; [done|]. split; [done|]. by intros [rows|e]. }
  intros [cursor|e]; [|apply stops_ret]. apply stops_try; [apply write_cursor_stops| |eauto]. intros _.
  apply stops_after; [apply bind_wake_socket_saveless|]. intros bound. apply stops_ask; [done|]. intros failed.
  destruct (failed_load failed) as [f|e]; [apply watch_loop_stops|apply stops_ret].
Qed.

End run.

(** A database of two rows, one of them a derivation, and no files yet. *)
Definition example_watcher : Watcher :=
  mkWatcher "/nix/var/nix/db/db.sqlite" "/var/lib/garret/watcher-cursor" 30000 (mkFilters [] [] []) 3 "/run/garret/watch.sock".
Definition example_world : WatchWorld :=
  mkWatchWorld [mkValidRow 1 "/nix/store/aaa-x.drv" None; mkValidRow 4 "/nix/store/bbb-y" (Some "k:1 k:2")] 5 None None (λ _, False).

Lemma example_world_lost_nothing watcher : lost_nothing watcher 0 example_world.
Proof.
  split_and!; [split|cbn; set_solver|done].
  - repeat constructor.
  - repeat constructor; cbn; lia.
  - repeat constructor; by vm_compute.
  - cbn. unfold i64_max. lia.
  - repeat constructor; cbn; lia.
Qed.

Lemma drain_accounts_for_every_row_witness :
  lost_nothing example_watcher 0 example_world ∧
  select (wa_filters example_watcher) (paths_after (ww_rows example_world) 0 BATCH_SIZE) = ["/nix/store/bbb-y"] ∧
  always (@watch_step) (lost_nothing example_watcher 0) (drain example_watcher true) example_world
    (λ r w', ∀ failed, r = Ok failed → accounted example_watcher 0 example_world w' failed).
Proof.
  split; [apply example_world_lost_nothing|]. split; [reflexivity|].
  apply drain_accounts_for_every_row; [apply example_world_lost_nothing|done].
Defined.

