(* ===== verification/Backup.v ===== *)
(** * Backup: the online copy of the database

    [backup_to] of [crates/garret-pusher/src/admin.rs], which answers
    [Op_Backup]. One request is one system call or one call of SQLite; between
    any two the Pusher may commit. [VACUUM INTO] is documented to copy what one
    read transaction sees. *)

From S2P Require Import Prelude Text Common Db Prog Files.

Inductive BackupOp : Type → Type :=
  | Backup_CreateNew (dest : string) (mode : Z) : BackupOp (Result unit IoError)
  | Backup_OpenSource (source : string) : BackupOp (Result unit string)
  | Backup_VacuumInto (dest : string) : BackupOp (Result unit string)
  | Backup_Sync (dest : string) : BackupOp (Result unit string)
  | Backup_SyncDir (dest : string) : BackupOp (Result unit string)
  | Backup_Len (dest : string) : BackupOp (Result Z string)
  | Backup_Remove (dest : string) : BackupOp (Result unit IoError).

(** The closure [copy]; [Backup_SyncDir] is of the file's directory. *)
Definition backup_copy (source dest : string) : Prog BackupOp (Result Z string) :=
  do? _ <- request (Backup_OpenSource source);
  do? _ <- request (Backup_VacuumInto dest);
  do? _ <- request (Backup_Sync dest);
  do? _ <- request (Backup_SyncDir dest);
  request (Backup_Len dest).

Definition backup_to (source dest : string) : Prog BackupOp (Result Z string) :=
  do file <- request (Backup_CreateNew dest 384); (* 0o600 *)
  match file with
  | Err _ => Ret (Err ("creating " +:+ dest))
  | Ok _ =>
      do bytes <- backup_copy source dest;
      match bytes with
      | Ok bytes => Ret (Ok bytes)
      | Err e => do _ <- request (Backup_Remove dest); Ret (Err e)
      end
  end.

(** ** Files and the database *)

Inductive Content := Content_Copy (db : Db) | Content_Other (bytes : string).

Record BackupWorld := mkBackupWorld {
  bw_files : gmap string Content;
  bw_db : Db;
  (** The states the database has been in since the backup started. *)
  bw_past : list Db;
}.

Definition commits (w w' : BackupWorld) : Prop := ∃ later, bw_past w' = bw_past w ++ later ∧ last (bw_past w') = Some (bw_db w').

Definition backup_step (w : BackupWorld) {B} (op : BackupOp B) : B → BackupWorld → Prop :=
  match op in BackupOp B return B → BackupWorld → Prop with
  | Backup_CreateNew dest _ => λ r w', commits w w' ∧
      match r with
      | Ok _ => bw_files w !! dest = None ∧ bw_files w' = <[dest := Content_Other ""]> (bw_files w)
      | Err _ => bw_files w' = bw_files w
      end
  | Backup_OpenSource _ => λ _ w', commits w w' ∧ bw_files w' = bw_files w
  | Backup_VacuumInto dest => λ r w', commits w w' ∧
      match r with
      | Ok _ => ∃ db, db ∈ bw_past w' ∧ bw_files w' = <[dest := Content_Copy db]> (bw_files w)
      | Err _ => ∃ part, bw_files w' = <[dest := Content_Other part]> (bw_files w)
      end
  | Backup_Sync _ => λ _ w', commits w w' ∧ bw_files w' = bw_files w
  | Backup_SyncDir _ => λ _ w', commits w w' ∧ bw_files w' = bw_files w
  | Backup_Len _ => λ _ w', commits w w' ∧ bw_files w' = bw_files w
  | Backup_Remove dest => λ r w', commits w w' ∧
      match r with Ok _ => bw_files w' = delete dest (bw_files w) | Err _ => bw_files w' = bw_files w end
  end.

Lemma commits_refl w w' : commits w w' → commits w' w'.
Proof. intros (l & _ & Hl). exists []. by rewrite app_nil_r. Qed.
Lemma commits_trans w1 w2 w3 : commits w1 w2 → commits w2 w3 → commits w1 w3.
Proof. intros (l & Hl & _) (l' & Hl' & Hd). exists (l ++ l'). by rewrite app_assoc, <-Hl. Qed.
Lemma commits_past w w' db : commits w w' → db ∈ bw_past w → db ∈ bw_past w'.
Proof. intros (l & -> & _) H. apply elem_of_app. by left. Qed.

(** What a backup may have done to the files so far: nothing, or made [dest]. *)
Record backing_up (dest : string) (w w' : BackupWorld) : Prop := {
  bu_commits : commits w w';
  bu_new : bw_files w !! dest = None;
  bu_rest : ∀ p, p ≠ dest → bw_files w' !! p = bw_files w !! p;
}.

Lemma backing_up_step dest w w1 w2 files :
  backing_up dest w w1 → commits w1 w2 → bw_files w2 = files →
  (∀ p, p ≠ dest → files !! p = bw_files w1 !! p) → backing_up dest w w2.
Proof.
  intros [Hc Hn Hr] Hc' <- Hf. split; [by eapply commits_trans|done|]. intros p Hp. by rewrite Hf, Hr.
Qed.

(** Where a backup starts. *)
Definition backup_start (files : gmap string Content) (db : Db) : BackupWorld := mkBackupWorld files db [db].

(** C30: A backup never touches a file that exists and no other file than its own, wherever it fails
    or is killed; when it succeeds its file is new and holds one state the database was in while the
    backup ran. *)
Theorem backup_never_overwrites source dest files db0 :
  always (@backup_step)
    (λ w', ∀ p, (p ≠ dest ∨ is_Some (files !! p)) → bw_files w' !! p = files !! p)
    (backup_to source dest) (backup_start files db0)
    (λ r w', is_ok r = true →
      files !! dest = None ∧ ∃ db, db ∈ bw_past w' ∧ bw_files w' !! dest = Some (Content_Copy db)).
Proof.
  set (w := backup_start files db0). set (inv := λ w', _).
  assert (Hinv : ∀ w', backing_up dest w w' → inv w').
  { intros w' [_ Hn Hr] p [?|[c Hc]]; [by apply Hr|]. apply Hr. intros ->. cbn in Hn. congruence. }
  assert (Hfail : ∀ e w', backing_up dest w w' →
    always (@backup_step) inv (do _ <- request (Backup_Remove dest); Ret (Err e : Result Z string)) w' (λ r w', is_ok r = true →
      files !! dest = None ∧ ∃ db, db ∈ bw_past w' ∧ bw_files w' !! dest = Some (Content_Copy db))).
  { intros e w' Hb. apply always_request; [by apply Hinv|]. intros r w2 [Hc Hf]. apply always_ret; [|done]. apply Hinv.
    destruct r; (eapply backing_up_step; [done|done|exact Hf|intros p Hp; by rewrite ?lookup_delete_ne]). }
  apply always_request; [by intros p _|]. intros [[]|e] w1 [Hc Hf]; [|by apply always_ret; [intros p _; rewrite Hf|]].
  destruct Hf as [Hnew Hf]. assert (Hb1 : backing_up dest w w1).
  { split; [done|done|]. intros p Hp. by rewrite Hf, lookup_insert_ne. }
  clear Hf. apply always_bind. unfold backup_copy.
  apply always_request; [by apply Hinv|]. intros [[]|e] w2 [Hc2 Hf2]; pose proof (backing_up_step _ _ _ _ _ Hb1 Hc2 Hf2 (λ _ _, eq_refl)) as Hb2;
    [|by apply always_ret; [apply Hinv|apply Hfail]].
  apply always_request; [by apply Hinv|]. intros [[]|e] w3 [Hc3 Hf3].
  2: { destruct Hf3 as [part Hf3]. apply always_ret; [apply Hinv|apply Hfail];
       (eapply backing_up_step; [done|done|exact Hf3|intros p Hp; by rewrite lookup_insert_ne]). }
  destruct Hf3 as (db & Hdb & Hf3).
  assert (Hb3 : backing_up dest w w3) by (eapply backing_up_step; [done|done|exact Hf3|intros p Hp; by rewrite lookup_insert_ne]).
  assert (Hd3 : bw_files w3 !! dest = Some (Content_Copy db)) by (by rewrite Hf3, lookup_insert_eq). clear Hf3.
  (* the rest only looks *)
  apply always_request; [by apply Hinv|]. intros r4 w4 [Hc4 Hf4]. pose proof (backing_up_step _ _ _ _ _ Hb3 Hc4 Hf4 (λ _ _, eq_refl)) as Hb4.
  destruct r4; [|by apply always_ret; [apply Hinv|apply Hfail]].
  apply always_request; [by apply Hinv|]. intros r5 w5 [Hc5 Hf5]. pose proof (backing_up_step _ _ _ _ _ Hb4 Hc5 Hf5 (λ _ _, eq_refl)) as Hb5.
  destruct r5; [|by apply always_ret; [apply Hinv|apply Hfail]].
  cbn. split; [by apply Hinv|]. intros r6 w6 [Hc6 Hf6]. pose proof (backing_up_step _ _ _ _ _ Hb5 Hc6 Hf6 (λ _ _, eq_refl)) as Hb6.
  split; [by apply Hinv|]. destruct r6; [|by apply Hfail]. split; [by apply Hinv|]. intros _. split; [done|].
  exists db. split; [|by rewrite Hf6, Hf5, Hf4]. eapply commits_past; [|exact Hdb]. eauto using commits_trans.
Qed.
