(* ===== verification/AdminCli.v ===== *)
(** * AdminCli: what garret-admin makes of its command line

    [crates/garret-admin/src/main.rs]: durations and dates, key files, and which
    request each command sends. clap and the random seed of a new key
    are not modelled, what is printed is in AdminWire; a command is what clap leaves of the arguments. *)

From stdpp Require Import pretty.
From S2P Require Import Prelude Text Common InFlight Db Prune Prog Storage World Narinfo Deletion Fsck Admin Files.

(** ** Durations *)

(** [str::split_at]; [None] where it panics: inside a character. *)
Definition split_at (mid : nat) (s : string) : option (string * string) :=
  match str_drop mid s with
  | String c rest => if is_continuation c then None else Some (str_take mid s, String c rest)
  | EmptyString => Some (str_take mid s, "")
  end.

Definition duration_scale (suffix : string) : option Z :=
  if bool_decide (suffix = "s") then Some 1%Z
  else if bool_decide (suffix = "m") then Some 60%Z
  else if bool_decide (suffix = "h") then Some 3600%Z
  else if bool_decide (suffix = "d") then Some 86400%Z
  else None.

Definition bad_duration (text : string) : string :=
  "bad duration " +:+ text +:+ " — use e.g. 90s, 30m, 36h, 30d".

(** [checked_add], [checked_sub] and [checked_mul] of [i64]. *)
Definition checked_i64 (v : Z) : option Z :=
  if ((i64_min <=? v) && (v <=? i64_max))%Z then Some v else None.

(** [None]: the process panics. *)
Definition parse_duration (text : string) : option (Result Z string) :=
  '(digits, suffix) ← split_at (str_len text - 1) text;
  Some match duration_scale suffix with
       | None => Err (bad_duration text)
       | Some scale =>
           match parse_i64 digits with
           | Some n =>
               if (0 <? n)%Z then ok_or (checked_i64 (n * scale)) ("duration " +:+ text +:+ " is too long")
               else Err (bad_duration text)
           | None => Err (bad_duration text)
           end
       end.

(** ** Dates *)

Definition days_from_civil (y m d : Z) : Z :=
  let y := if (m <=? 2)%Z then (y - 1)%Z else y in
  let era := (y / 400)%Z in
  let yoe := (y - era * 400)%Z in
  let doy := (Z.quot (153 * Z.rem (m + 9) 12 + 2) 5 + d - 1)%Z in
  let doe := (yoe * 365 + Z.quot yoe 4 - Z.quot yoe 100 + doy)%Z in
  (era * 146097 + doe - 719468)%Z.

(** [splitn]. *)
Fixpoint splitn (n : nat) (c : ascii) (s : string) : list string :=
  match n with
  | 0 => []
  | S n =>
      match n, split_once c s with
      | S _, Some (part, rest) => part :: splitn n c rest
      | _, _ => [s]
      end
  end.

Definition bad_date (text : string) : string :=
  "bad date " +:+ text +:+ " — use YYYY-MM-DD or an age like 90d".

Definition parse_cutoff (text : string) (now : Z) : option (Result Z string) :=
  if negb (ascii_mem "-" text) then
    age ← parse_duration text;
    Some (let? age := age in
          ok_or (checked_i64 (now - age)) ("age " +:+ text +:+ " reaches before the clock's range"))
  else
    Some match map parse_i64 (splitn 3 "-" text) with
         | [Some y; Some m; Some d] =>
             if negb ((1 <=? y) && (y <=? 9999))%Z || negb ((1 <=? m) && (m <=? 12))%Z || (d <? 1)%Z
             then Err (bad_date text)
             else
               let first := days_from_civil y m 1 in
               let next_first :=
                 if (m =? 12)%Z then days_from_civil (y + 1) 1 1 else days_from_civil y (m + 1) 1 in
               if (next_first - first <? d)%Z then Err (bad_date text)
               else Ok ((first + d - 1) * 86400)%Z
         | _ => Err (bad_date text)
         end.

(** ** The calendar

    The reference the arithmetic above is compared with: one day after another. *)

Definition leap (y : Z) : bool := ((y mod 4 =? 0) && negb (y mod 100 =? 0) || (y mod 400 =? 0))%Z.

Definition month_length (y m : Z) : Z :=
  if (m =? 2)%Z then if leap y then 29 else 28
  else if bool_decide (m ∈ [4; 6; 9; 11]%Z) then 30 else 31.

Definition valid_date (date : Z * Z * Z) : Prop :=
  let '(y, m, d) := date in (1 ≤ y ∧ 1 ≤ m ≤ 12 ∧ 1 ≤ d ≤ month_length y m)%Z.

Definition next_day (date : Z * Z * Z) : Z * Z * Z :=
  let '(y, m, d) := date in
  if (d <? month_length y m)%Z then (y, m, d + 1)%Z
  else if (m =? 12)%Z then (y + 1, 1, 1)%Z else (y, m + 1, 1)%Z.

(** The date [n] days after the first of January of the year 1. *)
Definition date_after (n : N) : Z * Z * Z := N.iter n next_day (1, 1, 1)%Z.

(** The days from there to the epoch. *)
Definition EPOCH_DAYS : N := 719162.

Lemma epoch_date : date_after EPOCH_DAYS = (1970, 1, 1)%Z.
Proof. vm_compute. reflexivity. Qed.

(** The days of the March-based years before [y]. *)
Definition year_days (y : Z) : Z := (365 * y + y / 4 - y / 100 + y / 400)%Z.

Lemma days_from_civil_year y m d :
  (1 ≤ m ≤ 12)%Z →
  days_from_civil y m d =
    (year_days (if (m <=? 2)%Z then y - 1 else y) + (153 * ((m + 9) mod 12) + 2) / 5 + d - 719469)%Z.
Proof.
  intros Hm. unfold days_from_civil, year_days. set (y' := if (m <=? 2)%Z then _ else _). clearbody y'.
  rewrite (Z.rem_mod_nonneg (m + 9)) by lia.
  rewrite !Z.quot_div_nonneg by (try lia; Z.to_euclidean_division_equations; lia).
  Z.to_euclidean_division_equations. lia.
Qed.

Lemma year_days_leap y : (year_days y = year_days (y - 1) + if leap y then 366 else 365)%Z.
Proof.
  unfold year_days, leap.
  destruct (Z.eqb_spec (y mod 4) 0), (Z.eqb_spec (y mod 100) 0), (Z.eqb_spec (y mod 400) 0); cbn [negb andb orb];
    Z.to_euclidean_division_equations; lia.
Qed.

(** Computes the tests and quotients of constants. *)
Ltac compute_constants :=
  repeat match goal with
  | |- context [Z.eqb ?a ?b] => is_ground a; let x := eval vm_compute in (Z.eqb a b) in change (Z.eqb a b) with x
  | |- context [Z.leb ?a ?b] => is_ground a; let x := eval vm_compute in (Z.leb a b) in change (Z.leb a b) with x
  | |- context [Z.div ?a ?b] => is_ground a; let x := eval vm_compute in (Z.div a b) in change (Z.div a b) with x
  | |- context [bool_decide ?P] => is_ground P; let x := eval vm_compute in (bool_decide P) in change (bool_decide P) with x
  end; cbv iota.

Lemma month_cases m : (1 ≤ m ≤ 12)%Z → m ∈ [1; 2; 3; 4; 5; 6; 7; 8; 9; 10; 11; 12]%Z.
Proof. intros. rewrite !elem_of_cons, elem_of_nil. lia. Qed.

(** The first day of a month is the last of the one before, and one. *)
Lemma days_from_civil_month y m :
  (1 ≤ m ≤ 12)%Z →
  (days_from_civil (if (m =? 12)%Z then y + 1 else y) (if (m =? 12)%Z then 1 else m + 1) 1 =
   days_from_civil y m 1 + month_length y m)%Z.
Proof.
  intros Hm. rewrite !days_from_civil_year by (destruct (Z.eqb_spec m 12); lia).
  pose proof (year_days_leap y) as Hy. unfold month_length.
  apply month_cases in Hm. repeat (apply elem_of_cons in Hm as [->|Hm]); [..|by apply elem_of_nil in Hm];
    compute_constants; try (replace (y + 1 - 1)%Z with y by lia); destruct (leap y); lia.
Qed.

Lemma days_from_civil_day y m d : (days_from_civil y m d = days_from_civil y m 1 + (d - 1))%Z.
Proof. unfold days_from_civil. destruct (m <=? 2)%Z; lia. Qed.

Lemma month_length_bounds y m : (28 ≤ month_length y m ≤ 31)%Z.
Proof. unfold month_length. repeat case_match; lia. Qed.

Lemma next_day_valid date : valid_date date → valid_date (next_day date).
Proof.
  destruct date as [[y m] d]. cbn [valid_date next_day]. intros (Hy & Hm & Hd).
  destruct (Z.ltb_spec d (month_length y m)); [cbn [valid_date]; lia|].
  destruct (Z.eqb_spec m 12); cbn [valid_date]; [pose proof (month_length_bounds (y + 1) 1)|pose proof (month_length_bounds y (m + 1))]; lia.
Qed.

Definition day_number (date : Z * Z * Z) : Z := let '(y, m, d) := date in days_from_civil y m d.

Lemma day_number_next date : valid_date date → day_number (next_day date) = (day_number date + 1)%Z.
Proof.
  destruct date as [[y m] d]. cbn [valid_date next_day day_number]. intros (Hy & Hm & Hd).
  rewrite (days_from_civil_day y m d). pose proof (days_from_civil_month y m Hm) as Hn.
  destruct (Z.ltb_spec d (month_length y m)); [cbn; rewrite days_from_civil_day; lia|].
  assert (d = month_length y m) as -> by lia. destruct (Z.eqb_spec m 12); cbn [day_number]; lia.
Qed.

Lemma date_after_spec n : valid_date (date_after n) ∧ day_number (date_after n) = (Z.of_N n - Z.of_N EPOCH_DAYS)%Z.
Proof.
  induction n as [|n [Hv Hd]] using N.peano_ind; [split; [by vm_compute|reflexivity]|].
  unfold date_after in *. rewrite N.iter_succ. split; [by apply next_day_valid|].
  rewrite day_number_next by done. rewrite Hd. lia.
Qed.

(** Every valid date comes up. *)
Definition reached (date : Z * Z * Z) : Prop := ∃ n, date_after n = date.

Lemma reached_next date : reached date → reached (next_day date).
Proof. intros [n <-]. exists (N.succ n). unfold date_after. by rewrite N.iter_succ. Qed.

Lemma reached_day y m d : reached (y, m, 1%Z) → (1 ≤ d ≤ month_length y m)%Z → reached (y, m, d).
Proof.
  intros H1 Hd. replace d with (1 + Z.of_nat (Z.to_nat (d - 1)))%Z in * by lia.
  revert Hd. generalize (Z.to_nat (d - 1)) as k. intros k. induction k as [|k IH]; intros Hd; [exact H1|].
  specialize (IH ltac:(lia)). apply reached_next in IH. revert IH. unfold next_day.
  destruct (Z.ltb_spec (1 + Z.of_nat k) (month_length y m)); [|lia].
  by replace (1 + Z.of_nat k + 1)%Z with (1 + Z.of_nat (S k))%Z by lia.
Qed.

Lemma reached_month y m : reached (y, 1%Z, 1%Z) → (1 ≤ m ≤ 12)%Z → reached (y, m, 1%Z).
Proof.
  intros H1 Hm. replace m with (1 + Z.of_nat (Z.to_nat (m - 1)))%Z in * by lia.
  revert Hm. generalize (Z.to_nat (m - 1)) as k. intros k. induction k as [|k IH]; intros Hm; [exact H1|].
  specialize (IH ltac:(lia)). set (m' := (1 + Z.of_nat k)%Z) in *.
  apply (reached_day _ _ (month_length y m')), reached_next in IH; [|pose proof (month_length_bounds y m'); lia].
  revert IH. unfold next_day. rewrite Z.ltb_irrefl. destruct (Z.eqb_spec m' 12); [lia|].
  by replace (m' + 1)%Z with (1 + Z.of_nat (S k))%Z by lia.
Qed.

Lemma reached_year y : (1 ≤ y)%Z → reached (y, 1%Z, 1%Z).
Proof.
  intros Hy. replace y with (1 + Z.of_nat (Z.to_nat (y - 1)))%Z by lia.
  generalize (Z.to_nat (y - 1)) as k. intros k. induction k as [|k IH]; [by exists 0%N|].
  set (y' := (1 + Z.of_nat k)%Z) in *. apply (reached_month _ 12) in IH; [|lia].
  apply (reached_day _ _ (month_length y' 12)), reached_next in IH; [|pose proof (month_length_bounds y' 12); lia].
  revert IH. unfold next_day. rewrite Z.ltb_irrefl. cbn [Z.eqb Pos.eqb].
  by replace (y' + 1)%Z with (1 + Z.of_nat (S k))%Z by lia.
Qed.

Lemma valid_date_reached date : valid_date date ↔ reached date.
Proof.
  split; [|intros [n <-]; apply date_after_spec]. destruct date as [[y m] d]. intros (Hy & Hm & Hd).
  by apply reached_day, Hd; apply reached_month, Hm; apply reached_year.
Qed.

(** ** What durations and cutoffs mean *)

(** A positive number and a unit, in seconds. *)
Definition age_of (text : string) (age : Z) : Prop :=
  ∃ digits unit_ n scale, text = digits +:+ unit_ ∧ duration_scale unit_ = Some scale ∧
    parse_i64 digits = Some n ∧ (0 < n)%Z ∧ age = (n * scale)%Z ∧ (age ≤ i64_max)%Z.

(** The last character takes more than a byte. *)
Definition ends_inside_char (text : string) : Prop :=
  ∃ s c, text = s +:+ String c "" ∧ is_continuation c = true.

Lemma duration_scale_unit unit_ scale :
  duration_scale unit_ = Some scale → ∃ c, unit_ = String c "" ∧ is_continuation c = false ∧ (1 ≤ scale ≤ 86400)%Z.
Proof.
  unfold duration_scale. repeat case_bool_decide; try done; intros [= <-]; subst; eexists; (split; [done|split; [done|lia]]).
Qed.

Lemma checked_i64_Some v w : checked_i64 v = Some w ↔ w = v ∧ (i64_min ≤ v ≤ i64_max)%Z.
Proof.
  unfold checked_i64. destruct (Z.leb_spec i64_min v), (Z.leb_spec v i64_max); cbn; (split; [intros [= <-] || intros ?|]); naive_solver lia.
Qed.

(** A duration is a positive number of seconds, minutes, hours or days that fits the machine;
    parsing panics exactly when the text ends inside a character. *)
Theorem parse_duration_exact text :
  (parse_duration text = None ↔ ends_inside_char text) ∧
  ∀ age, parse_duration text = Some (Ok age) ↔ age_of text age.
Proof.
  unfold parse_duration, ends_inside_char, age_of. destruct (str_last text) as [->|(s & c & ->)].
  { cbn. split; [split; [done|by intros ([] & c & ? & _)]|]. intros age. split; [done|].
    intros (digits & u & n & scale & Heq & (c & -> & _)%duration_scale_unit & _). by destruct digits. }
  rewrite str_len_app. replace (str_len s + str_len (String c "") - 1) with (str_len s) by (cbn; lia).
  unfold split_at. rewrite str_drop_app, str_take_app by done. destruct (is_continuation c) eqn:Hc; cbn.
  { split; [split; [by exists s, c|done]|]. intros age. split; [done|].
    intros (digits & u & n & scale & Heq & (c' & -> & Hc' & _)%duration_scale_unit & _).
    apply str_snoc_inv in Heq as [_ ->]. congruence. }
  split; [split; [done|]|].
  { intros (s' & c' & Heq & Hc'). apply str_snoc_inv in Heq as [_ ->]. congruence. }
  intros age. split.
  - intros H. injection H as H. destruct (duration_scale _) as [scale|] eqn:Hs; [|done].
    destruct (parse_i64 s) as [n|] eqn:Hn; [|done]. destruct (Z.ltb_spec 0 n); [|done].
    unfold ok_or in H. destruct (checked_i64 _) as [v|] eqn:Hv; [|done]. injection H as ->.
    apply checked_i64_Some in Hv as [-> Hv]. exists s, (String c ""), n, scale. split_and!; done || lia.
  - intros (digits & u & n & scale & Heq & Hs & Hn & Hpos & -> & Hle).
    destruct (duration_scale_unit _ _ Hs) as (c' & -> & _ & Hscale). apply str_snoc_inv in Heq as [-> ->].
    rewrite Hs, Hn. destruct (Z.ltb_spec 0 n); [|lia].
    assert (Hv : checked_i64 (n * scale) = Some (n * scale)%Z) by (apply checked_i64_Some; unfold i64_min; nia).
    by rewrite Hv.
Qed.

Definition date_text (text : string) : option (Z * Z * Z) :=
  match map parse_i64 (splitn 3 "-" text) with
  | [Some y; Some m; Some d] => Some (y, m, d)
  | _ => None
  end.

Lemma date_number n y m d :
  date_after n = (y, m, d) → days_from_civil y m d = (Z.of_N n - Z.of_N EPOCH_DAYS)%Z.
Proof. intros H. destruct (date_after_spec n) as [_ Hn]. by rewrite H in Hn. Qed.

(** The test of a date in [parse_cutoff], and its result. *)
Lemma cutoff_date y m d t text :
  (if negb ((1 <=? y) && (y <=? 9999))%Z || negb ((1 <=? m) && (m <=? 12))%Z || (d <? 1)%Z
   then Err (bad_date text)
   else
     let first := days_from_civil y m 1 in
     let next_first := if (m =? 12)%Z then days_from_civil (y + 1) 1 1 else days_from_civil y (m + 1) 1 in
     if (next_first - first <? d)%Z then Err (bad_date text) else Ok ((first + d - 1) * 86400)%Z) = Ok t ↔
  valid_date (y, m, d) ∧ (y ≤ 9999)%Z ∧ t = (days_from_civil y m d * 86400)%Z.
Proof.
  rewrite (days_from_civil_day y m d). unfold valid_date.
  destruct (Z.leb_spec 1 y), (Z.leb_spec y 9999), (Z.leb_spec 1 m), (Z.leb_spec m 12), (Z.ltb_spec d 1); cbn [negb andb orb];
    try (split; [done|lia]).
  assert (Hn : ((if (m =? 12)%Z then days_from_civil (y + 1) 1 1 else days_from_civil y (m + 1) 1) =
    days_from_civil y m 1 + month_length y m)%Z).
  { rewrite <-days_from_civil_month by lia. by destruct (m =? 12)%Z. }
  cbv zeta. rewrite Hn. destruct (Z.ltb_spec (days_from_civil y m 1 + month_length y m - days_from_civil y m 1) d).
  - split; [done|lia].
  - split; [intros [= <-]; lia|intros (_ & _ & ->); f_equal; lia].
Qed.

(** A cutoff is read as the moment it names: a date is accepted exactly when it is a real day of the
    Gregorian calendar, counted out day by day from the year 1, and gives the seconds from 1970 to
    its start; any other text must be an age, and gives the moment that long ago. *)
Theorem parse_cutoff_exact text now :
  date_after EPOCH_DAYS = (1970, 1, 1)%Z ∧
  (parse_cutoff text now = None ↔ ascii_mem "-" text = false ∧ ends_inside_char text) ∧
  ∀ t, parse_cutoff text now = Some (Ok t) ↔
    if ascii_mem "-" text
    then ∃ y m d n, date_text text = Some (y, m, d) ∧ date_after n = (y, m, d) ∧ (y ≤ 9999)%Z ∧
           t = ((Z.of_N n - Z.of_N EPOCH_DAYS) * 86400)%Z
    else ∃ age, age_of text age ∧ t = (now - age)%Z ∧ (i64_min ≤ t ≤ i64_max)%Z.
Proof.
  split; [apply epoch_date|]. destruct (parse_duration_exact text) as [Hnone Hage]. unfold parse_cutoff.
  destruct (ascii_mem "-" text); cbn [negb].
  - split; [split; [done|by intros []]|]. intros t. unfold date_text.
    assert (Hdate : ∀ y m d, valid_date (y, m, d) ∧ (y ≤ 9999)%Z ∧ t = (days_from_civil y m d * 86400)%Z ↔
      ∃ y' m' d' n, Some (y, m, d) = Some (y', m', d') ∧ date_after n = (y', m', d') ∧ (y' ≤ 9999)%Z ∧
        t = ((Z.of_N n - Z.of_N EPOCH_DAYS) * 86400)%Z).
    { intros y m d. rewrite valid_date_reached. split.
      - intros ([n Hn] & Hy & ->). exists y, m, d, n. rewrite (date_number _ _ _ _ Hn). done.
      - intros (y' & m' & d' & n & [= <- <- <-] & Hn & Hy & ->). rewrite (date_number _ _ _ _ Hn). split_and!; [by exists n|done..]. }
    destruct (map parse_i64 _) as [|[y|] [|[m|] [|[d|] [|]]]]; try (split; [done|by intros (? & ? & ? & ? & ? & _)]).
    pose proof (cutoff_date y m d t text) as Hc. rewrite <-Hdate. split; [intros [= Heq]; by apply Hc|intros H; f_equal; by apply Hc].
  - destruct (parse_duration text) as [[age|e]|]; cbn; setoid_rewrite <-Hage.
    + split; [split; [done|by intros [_ ?%Hnone]]|]. intros t.
      transitivity (checked_i64 (now - age) = Some t).
      { unfold ok_or. destruct (checked_i64 _); split; congruence. }
      rewrite checked_i64_Some. split; [intros [-> ?]; by exists age|by intros (? & [= <-] & -> & ?)].
    + split; [split; [done|by intros [_ ?%Hnone]]|]. intros t. split; [done|by intros (? & ? & _)].
    + split; [split; [by intros _; split; [|apply Hnone]|done]|]. intros t. split; [done|by intros (? & ? & _)].
Qed.

(** ** Key files *)

Inductive SecretError := Secret_Exists (path : string) | Secret_Io (e : IoError).

Definition write_secret (path contents : string) : Prog FsOp (Result unit SecretError) :=
  do created <- request (Fs_CreateNew path 384); (* 0o600 *)
  match created with
  | Err AlreadyExists => Ret (Err (Secret_Exists path))
  | Err e => Ret (Err (Secret_Io e))
  | Ok _ =>
      do written <- request (Fs_WriteAll path contents);
      match written with
      | Err e => Ret (Err (Secret_Io e))
      | Ok _ => do synced <- request (Fs_SyncAll path); Ret (map_err Secret_Io synced)
      end
  end.

Section keys.
Context `{C : Crypto}.

(** Nix's format: the seed and the public half. *)
Definition key_file (name : string) (seed : list Z) : string :=
  writeln (name +:+ ":" +:+ b64_encode (seed ++ ed_public seed)).

(** [key generate]; the public key it prints. *)
Definition key_generate (name out : string) (seed : list Z) : Prog FsOp (Result string SecretError) :=
  do? _ <- write_secret out (key_file name seed);
  Ret (Ok (name +:+ ":" +:+ b64_encode (ed_public seed))).

(** [key show], of a file's text. *)
Definition key_show (text : string) : Result string string :=
  let? (name, b64) := ok_or (split_once ":" (str_trim text)) "malformed key file: expected `name:base64`" in
  let? bytes := ok_or (b64_decode b64) "key is not valid base64" in
  if length bytes <? 32 then Err "key is too short"
  else Ok (name +:+ ":" +:+ b64_encode (ed_public (take 32 bytes))).
End keys.

(** A base64 text is printable to its end. *)
Lemma b64_printable {C : Crypto} (HC : CryptoLaws C) bytes :
  bytes ≠ [] → ∃ s c, b64_encode bytes = s +:+ String c "" ∧ is_ascii_graphic c = true.
Proof.
  intros Hb. destruct (b64_shape bytes) as (data & pad & -> & Hd & Hp & Hne). specialize (Hne Hb).
  assert (Hg : ∀ c, is_base64_digit c = true ∨ Ascii.eqb "=" c = true → is_ascii_graphic c = true).
  { assert (Hall : ∀ c, implb (is_base64_digit c || Ascii.eqb "=" c) (is_ascii_graphic c) = true).
    { intros [[] [] [] [] [] [] [] []]; vm_compute; reflexivity. }
    intros c Hc. specialize (Hall c). destruct Hc as [Hc|Hc]; rewrite Hc, ?orb_true_r in Hall; exact Hall. }
  destruct (str_last pad) as [->|(p & c & ->)].
  - rewrite str_app_nil_r. destruct (str_last data) as [->|(s & c & ->)]; [done|]. exists s, c. split; [done|].
    apply Hg. left. rewrite str_all_app in Hd. apply andb_prop in Hd as [_ Hd]. unfold str_all in Hd. cbn in Hd. by rewrite andb_true_r in Hd.
  - exists (data +:+ p), c. split; [by rewrite str_app_assoc|].
    apply Hg. right. rewrite str_all_app in Hp. apply andb_prop in Hp as [_ Hp]. unfold str_all in Hp. cbn -[Ascii.eqb] in Hp. by rewrite andb_true_r in Hp.
Qed.

(** A key name nix and the services read back: printable at its start, no colon. *)
Definition key_name_ok (name : string) : Prop :=
  ascii_mem ":" name = false ∧ match name with String c _ => is_ascii_graphic c = true | EmptyString => True end.

Lemma key_file_trim {C : Crypto} (HC : CryptoLaws C) name seed :
  key_name_ok name → length seed = 32 →
  split_once ":" (str_trim (key_file name seed)) = Some (name, b64_encode (seed ++ ed_public seed)).
Proof.
  intros [Hcolon Hstart] Hlen. unfold key_file.
  destruct (b64_printable HC (seed ++ ed_public seed)) as (s & d & Hb & Hd); [by destruct seed|].
  assert (Htrim : str_trim (writeln (name +:+ ":" +:+ b64_encode (seed ++ ed_public seed))) =
    name +:+ ":" +:+ b64_encode (seed ++ ed_public seed)).
  { destruct name as [|c name].
    - cbn. eapply (str_trim_writeln _ _ d (":" +:+ s)); [done|done|]. by rewrite Hb.
    - rewrite str_app_cons. eapply (str_trim_writeln _ _ d (String c (name +:+ ":" +:+ s))); [done|done|].
      change (String c (name +:+ ":" +:+ s) +:+ String d "") with (String c ((name +:+ ":" +:+ s) +:+ String d "")).
      by rewrite Hb, !str_app_assoc. }
  rewrite Htrim. by apply split_once_Some.
Qed.

(** Generating a key touches no file that exists; on success the new file parses as the key, whose
    public half is the one printed and the one shown from the file. *)
Theorem generated_key_is_usable {C : Crypto} name out seed fs :
  CryptoLaws C → key_name_ok name → length seed = 32 →
  always (@fs_step) (λ fs', ∀ p, p ≠ out ∨ is_Some (fs !! p) → fs' !! p = fs !! p)
    (key_generate name out seed) fs
    (λ r fs', ∀ public, r = Ok public →
      fs !! out = None ∧ ∃ text, fs' !! out = Some text ∧
        key_parse text = Ok (mkSigningKey name seed) ∧
        public_key (mkSigningKey name seed) = public ∧ key_show text = Ok public).
Proof.
  intros HC Hname Hlen. set (inv := λ fs', _).
  assert (Hnew : ∀ c, fs !! out = None → inv (<[out := c]> fs)).
  { intros c Hn p [Hp|[v Hv]]; rewrite lookup_insert_ne; [done..| |done|]; congruence. }
  assert (Hinv0 : inv fs) by done.
  unfold key_generate. apply always_bind. unfold write_secret. apply always_request; [done|].
  intros [[]|e] fs1; cbn [fs_step].
  2: { intros ->. destruct e; by apply always_ret. }
  intros [Hn ->]. apply always_request; [by apply Hnew|]. intros [[]|e] fs2; cbn [fs_step].
  2: { intros [part ->]. rewrite insert_insert_eq. apply always_ret; [by apply Hnew|]. by apply always_ret; [apply Hnew|]. }
  intros ->. rewrite insert_insert_eq. apply always_request; [by apply Hnew|]. intros [[]|e] fs3 ->; cbn [map_err];
    (apply always_ret; [by apply Hnew|]); (apply always_ret; [by apply Hnew|]); [|done].
  intros public [= <-]. split; [done|]. exists (key_file name seed). split; [by rewrite lookup_insert_eq|].
  unfold key_parse, key_show. rewrite (key_file_trim HC) by done. cbn [ok_or]. rewrite b64_roundtrip. cbn [ok_or].
  rewrite length_app, Hlen, (take_app_length' seed) by done. by destruct (_ <? _) eqn:Hlt; [apply Nat.ltb_lt in Hlt; lia|].
Qed.

(** ** Commands *)

(** The arguments as typed; [hash] and [hashes] still have to be parsed. The path
    of a backup is already absolute. *)
Inductive Command :=
  | Command_Status
  | Command_GcRun
  | Command_Resign
  | Command_DeletePushedBy (subject : string) (since : option string) (apply : bool)
  | Command_Delete (hashes : list string) (apply : bool)
  | Command_Pin (name hash : string) (expires : option string)
  | Command_Unpin (name : string)
  | Command_Fsck (repair verify_sizes quiesce : bool)
  | Command_Prune (before : string) (apply : bool)
  | Command_Backup (path : string).

Definition cli_parse_store_hash (text : string) : Result string string :=
  ok_or (parse_store_hash text) (text +:+ " is not a store path or a 32-character store-path hash").

Fixpoint cli_parse_hashes (texts : list string) : Result (list string) string :=
  match texts with
  | [] => Ok []
  | text :: texts => let? hash := cli_parse_store_hash text in let? hashes := cli_parse_hashes texts in Ok (hash :: hashes)
  end.

(** An optional argument that may fail to parse, or panic. *)
Definition parse_optional {A} (parse : string → option (Result A string)) (text : option string)
    : option (Result (option A) string) :=
  match text with
  | None => Some (Ok None)
  | Some text => v ← parse text; Some (let? v := v in Ok (Some v))
  end.

Definition expires_at (now : Z) (text : string) : option (Result Z string) :=
  age ← parse_duration text;
  Some (let? age := age in ok_or (checked_i64 (age + now)) ("--expires " +:+ text +:+ " is too far in the future")).

(** What is sent to the Pusher; [None]: the process panics. *)
Definition command_request (now : Z) (c : Command) : option (Result Request string) :=
  match c with
  | Command_Status => Some (Ok Request_Status)
  | Command_GcRun => Some (Ok Request_GcRun)
  | Command_Resign => Some (Ok Request_Resign)
  | Command_DeletePushedBy subject since apply =>
      since ← parse_optional (λ text, parse_cutoff text now) since;
      Some (let? since := since in Ok (Request_DeletePushedBy subject since (negb apply)))
  | Command_Delete hashes apply =>
      Some (let? hashes := cli_parse_hashes hashes in Ok (Request_Delete hashes (negb apply)))
  | Command_Pin name hash expires =>
      expires ← parse_optional (expires_at now) expires;
      Some (let? hash := cli_parse_store_hash hash in let? expires := expires in Ok (Request_Pin name hash expires))
  | Command_Unpin name => Some (Ok (Request_Unpin name))
  | Command_Fsck repair verify_sizes quiesce =>
      if quiesce && negb repair then Some (Err "--quiesce requires --repair")
      else Some (Ok (Request_Fsck verify_sizes
             (if repair then if quiesce then Repair_Quiesced else Repair_Live else Repair_No)))
  | Command_Prune before apply =>
      before ← parse_cutoff before now;
      Some (let? before := before in Ok (Request_Prune before (negb apply)))
  | Command_Backup path => Some (Ok (Request_Backup path))
  end.

Inductive Exit := Exit_Ok | Exit_Error (message : string) | Exit_Drift | Exit_Panic.

Definition command_exit (c : Command) (reply : Response) : Exit :=
  let unexpected := Exit_Error "unexpected response" in
  match reply with
  | Response_Error message => Exit_Error message
  | _ =>
      match c, reply with
      | Command_Status, Response_Status _ _ _ _ => Exit_Ok
      | Command_GcRun, Response_Gc _ _ _ => Exit_Ok
      | Command_Resign, Response_Resign _ _ => Exit_Ok
      | Command_DeletePushedBy _ _ _, Response_DeletePushedBy _ _ => Exit_Ok
      | Command_Delete _ _, Response_Delete _ _ _ => Exit_Ok
      | Command_Pin _ _ _, Response_Pin => Exit_Ok
      | Command_Unpin _, Response_Unpin removed => if removed : bool then Exit_Ok else Exit_Error "no pin has that name"
      | Command_Fsck _ _ _, Response_Fsck report => if report_ok report then Exit_Ok else Exit_Drift
      | Command_Prune _ _, Response_Prune _ _ => Exit_Ok
      | Command_Backup _, Response_Backup _ => Exit_Ok
      | _, _ => unexpected
      end
  end.

Section command.
Context `{C : Crypto} (state : AdminState).

(** A command and the Pusher's side of it; the socket in between is in AdminWire. *)
Definition run_command (fuel : nat) (now : Z) (c : Command) : Handler Exit :=
  match command_request now c with
  | None => Ret Exit_Panic
  | Some (Err e) => Ret (Exit_Error e)
  | Some (Ok req) => do reply <- dispatch state fuel req; Ret (command_exit c reply)
  end.
End command.

(** *** Without a flag that asks for it, nothing changes *)

(** A handler none of whose requests can change the world; it returns in [post]. *)
Fixpoint looks_only {A} (p : Handler A) (post : A → Prop) : Prop :=
  match p with
  | Ret a => post a
  | Step op k => ∀ w held r w' held', op_step w held op r w' held' → w' = w ∧ held' = held ∧ looks_only (k r) post
  end.

Lemma looks_only_runs {A} (p : Handler A) post w held w' held' a :
  looks_only p post → runs w held p w' held' a → w' = w ∧ held' = held ∧ post a.
Proof.
  intros Hp Hr. induction Hr as [|B w held op k r w1 held1 w2 held2 a Hs Hr IH]; [done|].
  apply Hp in Hs as (-> & -> & Hk). by apply IH.
Qed.

Lemma looks_only_bind {A B} (p : Handler A) (f : A → Handler B) mid post :
  looks_only p mid → (∀ a, mid a → looks_only (f a) post) → looks_only (prog_bind p f) post.
Proof. intros Hp Hf. induction p as [a|C op k IH]; cbn in *; [by apply Hf|].
  intros w held r w' held' Hs. apply Hp in Hs as (-> & -> & Hk). auto.
Qed.

Lemma looks_only_try {A B} (p : Handler (Result A Failure)) (f : A → Handler (Result B Failure)) mid post :
  looks_only p (λ r, match r with Ok a => mid a | Err e => post (Err e) end) →
  (∀ a, mid a → looks_only (f a) post) → looks_only (do? a <- p; f a) post.
Proof. intros Hp Hf. eapply looks_only_bind; [exact Hp|]. intros [a|e] Ha; [by apply Hf|done]. Qed.

Lemma looks_only_then {A B} (p : Handler (Result A Failure)) (f : A → Handler (Result B Failure)) :
  looks_only p (λ _, True) → (∀ a, looks_only (f a) (λ _, True)) → looks_only (do? a <- p; f a) (λ _, True).
Proof. intros Hp Hf. eapply looks_only_bind; [exact Hp|]. by intros [a|e] _; [apply Hf|]. Qed.

(** A closure that commits nothing and leaves the in-flight set alone. *)
Lemma looks_only_db {A} (f : Z → Db → State → list Db * State * Result A Failure) (post : Result A Failure → Prop) :
  (∀ now db st, ∃ r, f now db st = ([], st, r) ∧ post r) → (∀ e, post (Err e)) → looks_only (request (Op_Db [] f)) post.
Proof.
  intros Hf Herr w held r w' held'. cbn [op_step].
  destruct (Hf (w_now w) (w_db w) (w_inflight w)) as (res & -> & Hres).
  intros [(-> & -> & ->)|(msg & db' & -> & ->%list_elem_of_singleton & -> & ->)].
  - rewrite difference_diag_L, union_empty_r_L. by destruct w.
  - split_and!; [by destruct w|done|apply Herr].
Qed.

Lemma looks_only_read {A} (f : Db → A) (post : Result A Failure → Prop) : (∀ r, post r) → looks_only (db_read f) post.
Proof. intros H. apply looks_only_db; [|auto]. intros. by exists (Ok (f db)). Qed.

Lemma looks_only_request {B} (op : Op B) (post : B → Prop) :
  match op with
  | Op_InFlight | Op_Now | Op_ListBlobs | Op_Backup _ => True
  | _ => False
  end → (∀ b, post b) → looks_only (request op) post.
Proof. destruct op; try done; intros _ Hpost w held r w' held'; cbn [op_step]; naive_solver. Qed.

Lemma dry_loop_looks hashes done_ :
  looks_only (delete_loop true hashes None done_) (λ r, ∀ out, r = Ok out → out.1 = None).
Proof.
  revert done_. induction hashes as [|h hashes IH]; intros done_; cbn [delete_loop]; [by intros out [= <-]|].
  apply (looks_only_try _ _ (λ _, True)); [apply looks_only_read; by intros []|]. intros [freed|] _; apply IH.
Qed.

Lemma admin_delete_dry hashes : looks_only (admin_delete hashes true) (λ _, True).
Proof.
  unfold admin_delete. apply (looks_only_try _ _ (λ d, d = None)); [done|]. intros ? ->.
  eapply looks_only_bind; [apply dry_loop_looks|]. intros [[d done_]|e] H; [|done]. specialize (H _ eq_refl). cbn in H. by subst.
Qed.

Lemma delete_pushed_by_dry subject since : looks_only (delete_pushed_by subject since true) (λ _, True).
Proof.
  unfold delete_pushed_by. apply (looks_only_try _ _ (λ _, True)); [apply looks_only_read; by intros []|].
  by intros matched _.
Qed.

Lemma prune_dry before : looks_only (prune before true) (λ _, True).
Proof.
  unfold prune. apply (looks_only_try _ _ (λ out, out.2 = None)).
  - apply looks_only_db; [|done]. intros now db st. unfold prune_closure.
    destruct (prunable db before now) as [doomed|e]; by eexists.
  - intros [doomed d]. cbn. by intros ->.
Qed.

Lemma fsck_dry grace vs : looks_only (fsck_run grace vs Repair_No) (λ _, True).
Proof.
  unfold fsck_run, fsck_body.
  apply (looks_only_try _ _ (λ _, True)); [by apply looks_only_request; [|intros []]|]. intros blobs _.
  apply (looks_only_try _ _ (λ _, True)); [apply looks_only_read; by intros []|]. intros rows _.
  apply (looks_only_bind _ _ (λ _, True)); [by apply looks_only_request|]. intros now _.
  apply (looks_only_bind _ _ (λ _, True)); [by apply looks_only_request|]. intros st _.
  destruct (to_wire _) as [dangling mismatches].
  apply (looks_only_bind _ _ (λ _, True)); [by apply looks_only_request|]. intros st' _. by cbn.
Qed.

Lemma status_looks_only state : looks_only (status state) (λ _, True).
Proof.
  unfold status. apply (looks_only_bind _ _ (λ _, True)); [by apply looks_only_request|]. intros st _.
  by apply looks_only_read.
Qed.

(** Asks for a change: with its flag, or by its nature. *)
Definition asks_for_change (c : Command) : bool :=
  match c with
  | Command_Status | Command_Backup _ => false
  | Command_DeletePushedBy _ _ apply | Command_Delete _ apply | Command_Prune _ apply => apply
  | Command_Fsck repair _ _ => repair
  | Command_GcRun | Command_Resign | Command_Pin _ _ _ | Command_Unpin _ => true
  end.

(** The request of a command that asks for no change does not either. *)
Definition harmless (req : Request) : bool :=
  match req with
  | Request_Status | Request_Backup _ => true
  | Request_Delete _ dry_run | Request_Prune _ dry_run | Request_DeletePushedBy _ _ dry_run => dry_run
  | Request_Fsck _ repair => bool_decide (repair = Repair_No)
  | _ => false
  end.

Lemma command_harmless now c req :
  asks_for_change c = false → command_request now c = Some (Ok req) → harmless req = true.
Proof.
  destruct c; cbn [asks_for_change command_request]; try done; intros Hc H.
  - by simplify_eq.
  - subst apply. apply bind_Some in H as ([s|e] & _ & H); [|done]. cbn in H. by simplify_eq.
  - subst apply. destruct (cli_parse_hashes hashes); [|done]. cbn in H. by simplify_eq.
  - subst repair. destruct quiesce; [done|]. cbn in H. by simplify_eq.
  - subst apply. apply bind_Some in H as ([s|e] & _ & H); [|done]. cbn in H. by simplify_eq.
  - by simplify_eq.
Qed.

Lemma dispatch_looks_only `{C : Crypto} state fuel req :
  harmless req = true → looks_only (dispatch state fuel req) (λ _, True).
Proof.
  intros H. unfold dispatch. apply (looks_only_bind _ _ (λ _, True)); [|by intros []]. destruct req; try done; cbn in H.
  - apply status_looks_only.
  - subst dry_run. apply looks_only_then; [apply admin_delete_dry|done].
  - destruct (as_gc state); [|done]. apply bool_decide_eq_true in H as ->. apply looks_only_then; [apply fsck_dry|done].
  - subst dry_run. apply prune_dry.
  - subst dry_run. apply delete_pushed_by_dry.
  - apply looks_only_then; [by apply looks_only_request|done].
Qed.

(** C29: No admin command deletes or repairs unless it was told to: without --apply or --repair a
    delete, prune or fsck leaves the database, the bucket and the claims as they were, whatever it
    is answered. *)
Theorem commands_need_consent `{C : Crypto} state fuel now c w held w' held' e :
  runs w held (run_command state fuel now c) w' held' e → asks_for_change c = false →
  w' = w ∧ held' = held.
Proof.
  intros Hr Hc. apply (looks_only_runs _ (λ _, True)) in Hr as (-> & -> & _); [done|]. unfold run_command.
  destruct (command_request now c) as [[req|err]|] eqn:Hreq; [|done..].
  apply (looks_only_bind _ _ (λ _, True)); [|done]. by eapply dispatch_looks_only, command_harmless.
Qed.

(** ** Examples *)

Lemma example_cutoffs :
  parse_cutoff "2026-06-01" 0 = Some (Ok 1780272000%Z) ∧
  parse_cutoff "2023-02-29" 0 = Some (Err (bad_date "2023-02-29")) ∧
  parse_cutoff "36h" 1000000 = Some (Ok 870400%Z) ∧
  parse_cutoff ("30" +:+ byte_string [194; 181]) 1000000 = None. (* 30µ *)
Proof. repeat split. Qed.

Definition example_seed : list Z := repeat 7%Z 32.

Lemma generated_key_is_usable_witness :
  key_name_ok "cache-1" ∧ length example_seed = 32 ∧
  always (@fs_step) (λ fs' : Fs, ∀ p, p ≠ "/key" ∨ is_Some ((∅ : Fs) !! p) → fs' !! p = (∅ : Fs) !! p)
    (@key_generate toy_crypto "cache-1" "/key" example_seed) ∅
    (λ r fs', ∀ public, r = Ok public →
      (∅ : Fs) !! "/key" = None ∧ ∃ text, fs' !! "/key" = Some text ∧
        @key_parse toy_crypto text = Ok (mkSigningKey "cache-1" example_seed) ∧
        @public_key toy_crypto (mkSigningKey "cache-1" example_seed) = public ∧ @key_show toy_crypto text = Ok public).
Proof.
  split; [by vm_compute|]. split; [reflexivity|].
  apply generated_key_is_usable; [apply toy_crypto_laws|by vm_compute|reflexivity].
Defined.

Definition example_admin : AdminState := mkAdminState [] "/nix/store" None None.

Lemma commands_need_consent_witness :
  ∃ w' held', runs world_empty ∅ (@run_command toy_crypto example_admin 1 0
      (Command_Delete ["0123456789abcdfghijklmnpqrsvwxyz"] false)) w' held' Exit_Ok ∧ w' = world_empty.
Proof.
  destruct (exec_result 0 world_empty ∅ (@run_command toy_crypto example_admin 1 0
      (Command_Delete ["0123456789abcdfghijklmnpqrsvwxyz"] false)) Exit_Ok) as (w' & held' & Hr); [reflexivity|].
  exists w', held'. split; [exact Hr|]. by apply (commands_need_consent (C := toy_crypto) _ _ _ _ _ _ _ _ _ Hr).
Defined.
