(* ===== verification/Settings.v ===== *)
(** * Settings: the client's configuration, and what a server may put in it

    [crates/garret-client/src/discovery.rs], [config.rs] and [nixconf.rs], and
    the document the Pusher serves ([main] of crates/garret-pusher/src/main.rs).
    TOML, JSON and [Url::parse] are parameters; what serde fills in for absent
    keys is [config_of_raw]. The environment is a record. Messages leave the
    quoting of values out. *)

From stdpp Require Import pretty.
From S2P Require Import Prelude Text Net Common Prog Narinfo Config Files Upload Push.

(** ** The discovery document *)

(** [wire::Oidc] and [wire::Discovery]. *)
Record Oidc := mkOidc {
  oi_audience : string;
  oi_client_id : option string;
  oi_issuer : string;
}.

Record Discovery := mkDiscovery {
  d_oidc : option Oidc;
  d_public_keys : list string;
  d_puller_endpoint : option string;
}.

(** What the Pusher serves: the first issuer with a client id, its keys, its Puller. *)
Definition discovery_document `{C : Crypto} (cfg : PusherConfig) (keys : list SigningKey) : Discovery :=
  mkDiscovery
    ((λ i, mkOidc (is_audience i) (is_client_id i) (is_issuer i)) <$>
       List.find (λ i, negb (is_none (is_client_id i))) (pc_oidc cfg))
    (map public_key keys) (pc_puller_endpoint cfg).

(** ** Checks *)

Definition double_quote : ascii := ascii_of_nat 34.

(** What a URL may hold. *)
Definition is_url_char (c : ascii) : bool :=
  is_ascii_graphic c &&
  negb (Ascii.eqb c double_quote || ascii_mem c "\{}`").

(** What an audience or a client id may hold. *)
Definition is_plain_char (c : ascii) : bool :=
  is_ascii_graphic c && negb (Ascii.eqb c double_quote || Ascii.eqb c "\").

Fixpoint trim_start_matches (c : ascii) (s : string) : string :=
  match s with
  | String a rest => if Ascii.eqb a c then trim_start_matches c rest else s
  | EmptyString => s
  end.

Definition loopback_host (host : string) : bool :=
  bool_decide (host = "localhost") ||
  match parse_ip (trim_end_matches "]" (trim_start_matches "[" host)) with
  | Some ip => is_loopback ip
  | None => false
  end.

Section checks.
Context `{U : UrlParser}.

Definition check_url (what raw : string) : Result () string :=
  if negb (str_all is_url_char raw)
  then Err (what +:+ " " +:+ raw +:+ ": URLs here must be plain printable ASCII")
  else
    match url_parse raw with
    | None => Err (what +:+ " " +:+ raw +:+ " is not a URL")
    | Some (scheme, host) =>
        if bool_decide (scheme = "https") then Ok tt
        else if bool_decide (scheme = "http") && loopback_host (default "" host) then Ok tt
        else Err (what +:+ " " +:+ raw +:+ " uses " +:+ scheme
                  +:+ "://; only https is accepted (plain http only to localhost)")
    end.

Definition check_key (key : string) : Result () string :=
  let valid :=
    match split_once ":" key with
    | Some (name, value) =>
        let data := trim_end_matches "=" value in
        negb (bool_decide (name = "")) &&
        str_all (λ c, is_ascii_alphanumeric c || ascii_mem c "._-") name &&
        negb (bool_decide (data = "")) && str_all is_base64_digit data
    | None => false
    end in
  if valid then Ok tt else Err ("public key " +:+ key +:+ " is not of the form `name:base64`").

Definition check_some {A} (check : A → Result () string) (x : option A) : Result () string :=
  match x with Some x => check x | None => Ok tt end.

Definition check_plain (what value : string) : Result () string :=
  if bool_decide (value = "") || negb (str_all is_plain_char value)
  then Err (what +:+ " " +:+ value +:+ " is empty or holds whitespace, quotes or control characters")
  else Ok tt.

Definition check (d : Discovery) : Result () string :=
  let? _ := check_some (check_url "puller_endpoint") (d_puller_endpoint d) in
  let? _ := all_ok check_key (d_public_keys d) in
  check_some (λ oidc,
    let? _ := check_url "oidc.issuer" (oi_issuer oidc) in
    let? _ := check_plain "oidc.audience" (oi_audience oidc) in
    check_some (check_plain "oidc.client_id") (oi_client_id oidc)) (d_oidc d).
End checks.

(** ** nix.conf *)

Definition nixconf_lines (puller : string) (public_keys : list string) : string :=
  writeln ("extra-substituters = " +:+ puller) +:+
  writeln ("extra-trusted-public-keys = " +:+ str_join " " public_keys).

Definition quoted (s : string) : string := String double_quote s +:+ String double_quote "".

Definition nixos_snippet (puller : string) (public_keys : list string) : string :=
  writeln "nix.settings = {" +:+
  writeln ("  substituters = [ " +:+ quoted puller +:+ " ];") +:+
  writeln ("  trusted-public-keys = [ " +:+ str_join " " (map quoted public_keys) +:+ " ];") +:+
  writeln "};".

Record Env := mkEnv {
  env_xdg_config_home : option string;
  env_home : option string;
  env_garret_endpoint : option string;
}.

(** [PathBuf::join] of a relative path. *)
Definition path_join (base rel : string) : string :=
  if bool_decide (base = "") then rel
  else if ends_with "/" base then base +:+ rel
  else base +:+ "/" +:+ rel.

Definition config_home (env : Env) : Result string string :=
  match env_xdg_config_home env, env_home env with
  | Some dir, _ => Ok dir
  | None, Some home => Ok (path_join home ".config")
  | None, None => Err "neither XDG_CONFIG_HOME nor HOME is set"
  end.

Definition nixconf_path (env : Env) : Result string string :=
  let? home := config_home env in Ok (path_join (path_join home "nix") "nix.conf").

Inductive SettingsError := Set_Io (e : IoError) | Set_Text (message : string).

Inductive NixConfOutcome := Added (path : string) | AlreadyPresent (path : string).

Definition io {A} (p : Prog FsOp (Result A IoError)) : Prog FsOp (Result A SettingsError) :=
  do r <- p; Ret (map_err Set_Io r).

(** The new text of the file. *)
Definition nixconf_appended (existing : option string) (puller : string) (public_keys : list string) : string :=
  let out := default "" existing in
  let out :=
    if negb (bool_decide (out = "")) && negb (ends_with (String newline "") out) then out +:+ String newline "" else out in
  out +:+ nixconf_lines puller public_keys.

Definition nixconf_apply (env : Env) (pid : Z) (puller : string) (public_keys : list string)
    : Prog FsOp (Result NixConfOutcome SettingsError) :=
  do? path <- Ret (map_err Set_Text (nixconf_path env));
  do? existing <- io (read_optional path);
  if match existing with Some text => contains puller text | None => false end
  then Ret (Ok (AlreadyPresent path))
  else
    do? target <- match existing with Some _ => io (request (Fs_Canonicalize path)) | None => Ret (Ok path) end;
    do? _ <- io (write_atomic pid target (nixconf_appended existing puller public_keys) 438); (* 0o666 *)
    Ret (Ok (Added path)).

(** [nix config show substituters], if it ran: its success and its output. *)
Definition honoured (puller : string) (output : option (bool * string)) : option bool :=
  '(success, stdout) ← output;
  if success : bool then Some (contains puller stdout) else None.

(** ** The client's configuration *)

Record OidcSettings := mkOidcSettings {
  os_issuer : option string;
  os_client_id : option string;
  os_client_secret_file : option string;
  os_audience : string;
  os_resource : option string;
}.

Record WatchSettings := mkWatchSettings {
  ws_nix_db : string;
  ws_cursor_path : string;
  ws_poll_interval_secs : Z;
  ws_upstream_keys : option (list string);
  ws_exclude_patterns : list string;
  ws_max_attempts : Z;
  ws_socket_path : string;
}.

Record ClientConfig := mkClientConfig {
  cc_endpoint : string;
  cc_oidc : OidcSettings;
  cc_jobs : Z;
  cc_zstd_level : Z;
  cc_max_retries : Z;
  cc_upload_idle_secs : Z;
  cc_puller_endpoint : option string;
  cc_public_keys : list string;
  cc_upstream_keys : list string;
  cc_watch : WatchSettings;
}.

(** A parsed file, its absent keys absent. *)
Record RawWatch := mkRawWatch {
  raw_nix_db : option string;
  raw_cursor_path : option string;
  raw_poll_interval_secs : option Z;
  raw_watch_upstream_keys : option (list string);
  raw_exclude_patterns : option (list string);
  raw_max_attempts : option Z;
  raw_socket_path : option string;
}.

Record RawConfig := mkRawConfig {
  raw_endpoint : string;
  raw_oidc : OidcSettings;
  raw_jobs : option Z;
  raw_zstd_level : option Z;
  raw_max_retries : option Z;
  raw_upload_idle_secs : option Z;
  raw_puller_endpoint : option string;
  raw_public_keys : option (list string);
  raw_upstream_keys : option (list string);
  raw_watch : option RawWatch;
}.

Definition jobs : Z := 8.
Definition zstd_level : Z := 3.
Definition upload_idle_secs : Z := 5 * 60.
Definition max_retries : Z := 5.
Definition upstream_keys : list string := ["cache.nixos.org-1"].
Definition DEFAULT_SOCKET_PATH : string := "/run/garret/watch.sock".

Definition watch_default : WatchSettings :=
  mkWatchSettings "/nix/var/nix/db/db.sqlite" "/var/lib/garret/watcher-cursor" 30 None [] 5 DEFAULT_SOCKET_PATH.

Definition watch_of_raw (raw : RawWatch) : WatchSettings :=
  mkWatchSettings (default (ws_nix_db watch_default) (raw_nix_db raw))
    (default (ws_cursor_path watch_default) (raw_cursor_path raw))
    (default (ws_poll_interval_secs watch_default) (raw_poll_interval_secs raw))
    (raw_watch_upstream_keys raw) (default [] (raw_exclude_patterns raw))
    (default (ws_max_attempts watch_default) (raw_max_attempts raw))
    (default (ws_socket_path watch_default) (raw_socket_path raw)).

Definition config_of_raw (raw : RawConfig) : ClientConfig := {|
  cc_endpoint := raw_endpoint raw;
  cc_oidc := raw_oidc raw;
  cc_jobs := default jobs (raw_jobs raw);
  cc_zstd_level := default zstd_level (raw_zstd_level raw);
  cc_max_retries := default max_retries (raw_max_retries raw);
  cc_upload_idle_secs := default upload_idle_secs (raw_upload_idle_secs raw);
  cc_puller_endpoint := raw_puller_endpoint raw;
  cc_public_keys := default [] (raw_public_keys raw);
  cc_upstream_keys := default upstream_keys (raw_upstream_keys raw);
  cc_watch := default watch_default (watch_of_raw <$> raw_watch raw);
|}.

(** The TOML parser, with serde's checks of keys and types, and its printer. *)
Class Toml := {
  toml_config : string → Result RawConfig string;
  toml_string : string → string;
}.

Definition client_validate (c : ClientConfig) : Result () string :=
  let? _ := if (1 <=? cc_jobs c)%Z then Ok tt else Err "jobs must be at least 1" in
  let? _ := if (1 <=? cc_upload_idle_secs c)%Z then Ok tt else Err "upload_idle_secs must be at least 1" in
  let? _ := if (1 <=? ws_poll_interval_secs (cc_watch c))%Z then Ok tt else Err "watch.poll_interval_secs must be at least 1" in
  if (1 <=? ws_max_attempts (cc_watch c))%Z then Ok tt else Err "watch.max_attempts must be at least 1".

Definition trim_trailing_slashes (url : string) : string := trim_end_matches "/" url.

Definition with_endpoints (endpoint : string) (puller : option string) (c : ClientConfig) : ClientConfig :=
  mkClientConfig endpoint (cc_oidc c) (cc_jobs c) (cc_zstd_level c) (cc_max_retries c) (cc_upload_idle_secs c)
    puller (cc_public_keys c) (cc_upstream_keys c) (cc_watch c).

Section config.
Context `{U : UrlParser}.

(** [load] from the parsed file on. *)
Definition load_parsed (garret_endpoint : option string) (cfg : ClientConfig) : Result ClientConfig string :=
  let? _ := client_validate cfg in
  let cfg := with_endpoints (trim_trailing_slashes (default (cc_endpoint cfg) garret_endpoint))
               (trim_trailing_slashes <$> cc_puller_endpoint cfg) cfg in
  let? _ := check_url "endpoint" (cc_endpoint cfg) in
  let? _ := check_some (check_url "puller_endpoint") (cc_puller_endpoint cfg) in
  let? _ := check_some (check_url "oidc.issuer") (os_issuer (cc_oidc cfg)) in
  let? _ := all_ok check_key (cc_public_keys cfg) in
  Ok cfg.

Definition resolve_path (env : Env) (explicit : option string) : Result string string :=
  match explicit with
  | Some p => Ok p
  | None => let? home := config_home env in Ok (path_join (path_join home "garret") "config.toml")
  end.

Definition config_load `{T : Toml} (env : Env) (explicit : option string) : Prog FsOp (Result ClientConfig SettingsError) :=
  do? path <- Ret (map_err Set_Text (resolve_path env explicit));
  do? text <- io (read_optional path);
  Ret (map_err Set_Text
    match text with
    | None => Err ("no config at " +:+ path +:+ " — run `garret login <pusher-url>` to create one")
    | Some text =>
        let? raw := map_err (λ e, "parsing client config: " +:+ e) (toml_config text) in
        load_parsed (env_garret_endpoint env) (config_of_raw raw)
    end).
End config.

(** [Pusher::from_config], and [Watcher::from_config] without paths. *)
Definition connection_of (cfg : ClientConfig) (cpus : option Z) : Connection :=
  mkConnection (cc_endpoint cfg) (Z.to_nat (cc_jobs cfg)) (cc_zstd_level cfg) (cc_max_retries cfg)
    (cc_upload_idle_secs cfg * 1000) cpus.

(** ** What [login] writes *)

Definition config_text `{T : Toml} (endpoint client_id : string) (oidc : Oidc) (d : Discovery) : string :=
  writeln "# Written by `garret login`. Re-run with --force to regenerate." +:+
  writeln ("endpoint = " +:+ toml_string endpoint) +:+
  match d_puller_endpoint d with
  | Some puller => writeln ("puller_endpoint = " +:+ toml_string puller)
  | None => writeln "# puller_endpoint — the server advertised none; `use`/`list`/`tree` need it"
  end +:+
  (if is_nil (d_public_keys d)
   then writeln "# public_keys — the server advertised none; `garret use` needs them"
   else writeln ("public_keys = [" +:+ str_join ", " (map toml_string (d_public_keys d)) +:+ "]")) +:+
  writeln "" +:+ writeln "[oidc]" +:+
  writeln ("issuer = " +:+ toml_string (oi_issuer oidc)) +:+
  writeln ("client_id = " +:+ toml_string client_id) +:+
  writeln ("audience = " +:+ toml_string (oi_audience oidc)) +:+
  writeln "" +:+
  writeln ("# Optional: jobs = " +:+ pretty jobs +:+ ", zstd_level = " +:+ pretty zstd_level +:+
           ", max_retries = " +:+ pretty max_retries +:+ ",") +:+
  writeln ("# upstream_keys = [" +:+ str_join ", " (map toml_string upstream_keys) +:+ "] (paths these keys sign are not pushed)").

Definition config_render `{T : Toml} (endpoint : string) (d : Discovery) : Result string string :=
  let? oidc := ok_or (d_oidc d) ("the server's discovery document has no oidc section: no issuer sets a "
    +:+ "`client_id`, so the device flow has nothing to identify itself as") in
  let? client_id := ok_or (oi_client_id oidc) "the server advertised an issuer with no `client_id`, which `garret login` requires" in
  Ok (config_text endpoint client_id oidc d).

(** ** Text that stays on its line *)

Definition is_line_char (c : ascii) : bool := is_ascii_graphic c || Ascii.eqb c " ".

Lemma line_char_plain s : str_all is_line_char s = true → plain_line s.
Proof.
  intros Hs. split; [by eapply ascii_mem_all_false; [exact Hs|]|]. unfold strip_cr.
  destruct (strip_suffix _ s) as [t|] eqn:E; [|done]. apply strip_suffix_Some in E as ->.
  rewrite str_all_app in Hs. by apply andb_prop in Hs as [_ Hs].
Qed.

Lemma line_char_join sep ws :
  str_all is_line_char sep = true → Forall (λ w, str_all is_line_char w = true) ws →
  str_all is_line_char (str_join sep ws) = true.
Proof.
  intros Hsep. induction 1 as [|w ws Hw Hall IH]; [done|]. destruct ws as [|w' ws]; [done|].
  change (str_join sep (w :: w' :: ws)) with (w +:+ sep +:+ str_join sep (w' :: ws)).
  by rewrite !str_all_app, Hw, Hsep, IH.
Qed.

(** No whitespace character starts with a printable byte. *)
Lemma strip_whitespace_graphic c s : is_ascii_graphic c = true → strip_any strip_prefix whitespace (String c s) = None.
Proof.
  intros Hc. apply strip_any_none. intros pat [He Hn]%whitespace_edges.
  destruct (strip_prefix pat _) as [r|] eqn:E; [|done]. apply strip_prefix_Some in E.
  destruct pat as [|c' pat]; [done|]. injection E as <- _. unfold edge_graphic in He. cbn in He. by rewrite Hc in He.
Qed.

Lemma strip_whitespace_space s : strip_any strip_prefix whitespace (String " " s) = Some s.
Proof. reflexivity. Qed.

Lemma split_whitespace_word fuel word w rest :
  str_all is_ascii_graphic w = true → str_len w ≤ fuel →
  split_whitespace_from fuel word (w +:+ rest) = split_whitespace_from (fuel - str_len w) (word +:+ w) rest.
Proof.
  revert fuel word. induction w as [|c w IH]; intros fuel word Hw Hf.
  { by rewrite str_app_nil_l, str_app_nil_r, Nat.sub_0_r. }
  rewrite str_all_cons in Hw. apply andb_prop in Hw as [Hc Hw]. destruct fuel as [|fuel]; [cbn in Hf; lia|].
  rewrite str_app_cons. cbn [split_whitespace_from]. rewrite strip_whitespace_graphic by done.
  rewrite IH by (done || cbn in Hf; lia). by rewrite str_app_assoc.
Qed.

Lemma split_whitespace_words ws fuel :
  Forall (λ w, w ≠ "" ∧ str_all is_ascii_graphic w = true) ws → str_len (str_join " " ws) ≤ fuel →
  split_whitespace_from fuel "" (str_join " " ws) = ws.
Proof.
  intros Hws. revert fuel. induction Hws as [|w ws [Hne Hw] Hws IH]; intros fuel Hf.
  { cbn. by destruct fuel. }
  destruct ws as [|w' ws].
  - change (str_join " " [w]) with w in *. rewrite <-(str_app_nil_r w) at 1. rewrite split_whitespace_word by done.
    rewrite str_app_nil_l. destruct (fuel - str_len w); cbn; by rewrite bool_decide_eq_false_2.
  - change (str_join " " (w :: w' :: ws)) with (w +:+ String " " (str_join " " (w' :: ws))) in *.
    rewrite str_len_app in Hf. cbn [String.length] in Hf. rewrite split_whitespace_word by (done || lia). rewrite str_app_nil_l.
    destruct (fuel - str_len w) as [|fuel'] eqn:Hfuel; [lia|]. cbn [split_whitespace_from].
    rewrite strip_whitespace_space, bool_decide_eq_false_2 by done. cbn [app]. by rewrite IH by lia.
Qed.

(** ** What the checks accept *)

(** A URL that is safe to write down and to send credentials to. *)
Definition url_ok `{U : UrlParser} (url : string) : Prop :=
  str_all is_url_char url = true ∧
  ∃ scheme host, url_parse url = Some (scheme, host) ∧
    (scheme = "https" ∨ scheme = "http" ∧ loopback_host (default "" host) = true).

(** [name:base64]. *)
Definition key_ok (key : string) : Prop :=
  ∃ name data pad, key = name +:+ ":" +:+ data +:+ pad ∧ name ≠ "" ∧ data ≠ "" ∧
    str_all (λ c, is_ascii_alphanumeric c || ascii_mem c "._-") name = true ∧
    str_all is_base64_digit data = true ∧ str_all (Ascii.eqb "=") pad = true.

Definition plain_ok (value : string) : Prop := value ≠ "" ∧ str_all is_plain_char value = true.

Lemma check_url_ok `{U : UrlParser} what url : check_url what url = Ok tt ↔ url_ok url.
Proof.
  unfold check_url, url_ok. destruct (str_all is_url_char url); cbn [negb].
  2: { split; [done|by intros [? _]]. }
  destruct (url_parse url) as [[scheme host]|].
  2: { split; [done|by intros (_ & ? & ? & ? & _)]. }
  assert (Hgoal : ∀ b : bool, (scheme = "https" ∨ scheme = "http" ∧ loopback_host (default "" host) = true ↔ b = true) →
    b = true ↔ true = true ∧ ∃ s h, Some (scheme, host) = Some (s, h) ∧ (s = "https" ∨ s = "http" ∧ loopback_host (default "" h) = true)).
  { intros b <-. split; [intros H; split; [done|by exists scheme, host]|by intros (_ & s & h & [= <- <-] & H)]. }
  destruct (bool_decide (scheme = "https")) eqn:Hs.
  - rewrite <-(Hgoal true); [by split|]. apply bool_decide_eq_true in Hs. by split; [|left].
  - destruct (bool_decide (scheme = "http") && _) eqn:Hh.
    + rewrite <-(Hgoal true); [by split|]. apply andb_prop in Hh as [Hh%bool_decide_eq_true Hl]. by split; [|right].
    + rewrite <-(Hgoal false); [by split|]. split; [|done]. intros [->|[-> Hl]]; [by apply bool_decide_eq_false in Hs|].
      by rewrite Hl in Hh.
Qed.

Lemma trim_end_split c s : ∃ pad, s = trim_end_matches c s +:+ pad ∧ str_all (Ascii.eqb c) pad = true.
Proof.
  induction s as [|a s (pad & Hs & Hp)]; [by exists ""|]. cbn [trim_end_matches].
  destruct (trim_end_matches c s) as [|b t] eqn:E.
  - destruct (Ascii.eqb_spec a c) as [->|Hne].
    + exists (String c s). split; [done|]. rewrite str_all_cons, Ascii.eqb_refl. cbn. by rewrite Hs, str_app_nil_l.
    + exists pad. by rewrite Hs at 1.
  - exists pad. split; [|done]. by rewrite Hs at 1.
Qed.

Lemma trim_end_pad c data pad :
  str_all (Ascii.eqb c) pad = true → data ≠ "" → ascii_mem c data = false →
  trim_end_matches c (data +:+ pad) = data.
Proof.
  intros Hp Hne Hd. assert (Hpad : trim_end_matches c pad = "").
  { clear Hne Hd. induction pad as [|a pad IH]; [done|]. rewrite str_all_cons in Hp. apply andb_prop in Hp as [Ha Hp].
    cbn. rewrite IH by done. by rewrite Ascii.eqb_sym, Ha. }
  revert Hne Hd. induction data as [|a data IH]; intros Hne Hd; [done|]. rewrite ascii_mem_cons in Hd.
  apply orb_false_iff in Hd as [Ha Hd]. rewrite str_app_cons. cbn [trim_end_matches]. destruct data as [|b data].
  - rewrite str_app_nil_l, Hpad. by rewrite Ascii.eqb_sym, Ha.
  - rewrite IH by done. done.
Qed.

Lemma base64_no_pad data : str_all is_base64_digit data = true → ascii_mem "=" data = false.
Proof. intros H. by eapply ascii_mem_all_false. Qed.

Lemma check_key_ok key : check_key key = Ok tt ↔ key_ok key.
Proof.
  unfold check_key, key_ok. split.
  - destruct (split_once ":" key) as [[name value]|] eqn:Hk; [|done]. apply split_once_Some in Hk as [-> _].
    destruct (trim_end_split "=" value) as (pad & Hv & Hp). set (data := trim_end_matches "=" value) in *.
    destruct (bool_decide (name = "")) eqn:Hn; [done|]. destruct (str_all _ name) eqn:Hname; [|done].
    destruct (bool_decide (data = "")) eqn:Hd; [done|]. destruct (str_all is_base64_digit data) eqn:Hdata; [|done].
    intros _. exists name, data, pad. apply bool_decide_eq_false in Hn, Hd. split_and!; try done. by rewrite <-Hv.
  - intros (name & data & pad & -> & Hn & Hd & Hname & Hdata & Hp).
    assert (Hs : split_once ":" (name +:+ ":" +:+ data +:+ pad) = Some (name, data +:+ pad)).
    { apply split_once_Some. split; [done|]. by eapply ascii_mem_all_false. }
    rewrite Hs, trim_end_pad by (done || by apply base64_no_pad). rewrite Hname, Hdata, !bool_decide_eq_false_2 by done. done.
Qed.

Lemma check_plain_ok what value : check_plain what value = Ok tt ↔ plain_ok value.
Proof.
  unfold check_plain, plain_ok. case_bool_decide; cbn [orb]; [naive_solver|].
  destruct (str_all _ _); cbn [negb]; naive_solver.
Qed.

(** What a discovery document must be for the client to use it. *)
Record discovery_ok `{U : UrlParser} (d : Discovery) : Prop := {
  do_puller : ∀ puller, d_puller_endpoint d = Some puller → url_ok puller;
  do_keys : Forall key_ok (d_public_keys d);
  do_issuer : ∀ oidc, d_oidc d = Some oidc → url_ok (oi_issuer oidc) ∧ plain_ok (oi_audience oidc) ∧
    ∀ id, oi_client_id oidc = Some id → plain_ok id;
}.

Lemma check_some_ok {A} (check : A → Result () string) (P : A → Prop) x :
  (∀ a, check a = Ok tt ↔ P a) → check_some check x = Ok tt ↔ ∀ a, x = Some a → P a.
Proof. intros H. destruct x as [a|]; cbn; [rewrite H; naive_solver|naive_solver]. Qed.

Lemma check_ok `{U : UrlParser} d : check d = Ok tt ↔ discovery_ok d.
Proof.
  unfold check. rewrite !then_ok, all_ok_ok.
  rewrite (check_some_ok (check_url _) url_ok) by apply check_url_ok.
  rewrite (check_some_ok _ (λ oidc, url_ok (oi_issuer oidc) ∧ plain_ok (oi_audience oidc) ∧
    ∀ id, oi_client_id oidc = Some id → plain_ok id)).
  2: { intros oidc. rewrite !then_ok, check_url_ok, check_plain_ok.
       by rewrite (check_some_ok (check_plain _) plain_ok) by apply check_plain_ok. }
  assert (Hkeys : ∀ ks, Forall (λ k, check_key k = Ok tt) ks ↔ Forall key_ok ks).
  { intros ks. apply Forall_proper; [|done]. intros k. apply check_key_ok. }
  rewrite Hkeys. split; [intros (? & ? & ?); by split|intros []; done].
Qed.

(** Every character of a checked key or URL is printable and not a quote. *)
Lemma url_char_line c : is_url_char c = true → is_line_char c = true.
Proof. unfold is_url_char, is_line_char. intros [-> _]%andb_prop. done. Qed.

Lemma key_ok_url key : key_ok key → key ≠ "" ∧ str_all is_url_char key = true.
Proof.
  intros (name & data & pad & -> & Hn & _ & Hname & Hdata & Hpad).
  assert (Hsub : ∀ c, implb (is_ascii_alphanumeric c || ascii_mem c "._-" || is_base64_digit c || Ascii.eqb "=" c) (is_url_char c) = true).
  { intros [[] [] [] [] [] [] [] []]; vm_compute; reflexivity. }
  assert (Himpl : ∀ s p, str_all p s = true →
    (∀ c, p c = true → is_ascii_alphanumeric c || ascii_mem c "._-" || is_base64_digit c || Ascii.eqb "=" c = true) →
    str_all is_url_char s = true).
  { intros s p Hs Hp. revert Hs. apply str_all_impl. intros c Hc. specialize (Hsub c). by rewrite (Hp c Hc) in Hsub. }
  split; [by destruct name|]. rewrite !str_all_app.
  rewrite (Himpl name _ Hname) by (intros c Hc; by rewrite Hc).
  rewrite (Himpl data _ Hdata) by (intros c Hc; by rewrite Hc, ?orb_true_r).
  by rewrite (Himpl pad _ Hpad) by (intros c Hc; by rewrite Hc, ?orb_true_r).
Qed.

Lemma url_char_graphic c : is_url_char c = true → is_ascii_graphic c = true.
Proof. by intros [-> _]%andb_prop. Qed.

Lemma key_line key : key_ok key → str_all is_line_char key = true.
Proof. intros [_ H]%key_ok_url. eapply str_all_impl; [apply url_char_line|done]. Qed.
Lemma url_line `{U : UrlParser} url : url_ok url → str_all is_line_char url = true.
Proof. intros [H _]. eapply str_all_impl; [apply url_char_line|done]. Qed.

(** Nothing that ends or opens a Nix string. *)
Definition no_nix_syntax (s : string) : Prop :=
  ascii_mem double_quote s = false ∧ ascii_mem "\" s = false ∧ ascii_mem "{" s = false.

Lemma url_chars_no_nix s : str_all is_url_char s = true → no_nix_syntax s.
Proof. intros H. split_and!; (eapply ascii_mem_all_false; [exact H|reflexivity]). Qed.

(** A text of lines, each printed by [writeln]. *)
Lemma text_lines_of ls : Forall (λ l, str_all is_line_char l = true) ls →
  text_lines (foldr (λ l s, writeln l +:+ s) "" ls) = ls.
Proof. intros H. apply text_lines_writelns. eapply Forall_impl; [exact H|apply line_char_plain]. Qed.

Lemma quoted_line s : str_all is_line_char s = true → str_all is_line_char (quoted s) = true.
Proof. intros H. unfold quoted. rewrite str_app_cons, str_all_cons, str_all_app, H. done. Qed.

(** A text of some characters only. *)
Definition made_of (characters s : string) : Prop := str_all (λ c, ascii_mem c characters) s = true.

Definition LETTERS_AND_DIGITS : string := "ABCDEFGHIJKLMNOPQRSTUVWXYZabcdefghijklmnopqrstuvwxyz0123456789".

Lemma key_ok_characters key :
  key_ok key →
  ∃ name data pad, key = name +:+ ":" +:+ data +:+ pad ∧
    name ≠ "" ∧ made_of (LETTERS_AND_DIGITS +:+ "._-") name ∧
    data ≠ "" ∧ made_of (LETTERS_AND_DIGITS +:+ "+/") data ∧ made_of "=" pad.
Proof.
  assert (Hall : ∀ p chars s, (∀ c, implb (p c) (ascii_mem c chars) = true) → str_all p s = true → made_of chars s).
  { intros p chars s Hp. apply str_all_impl. intros c Hc. specialize (Hp c). by rewrite Hc in Hp. }
  intros (name & data & pad & -> & Hn & Hd & Hname & Hdata & Hpad). exists name, data, pad.
  split_and!; [done|done| |done|..]; (eapply Hall; [|eassumption]); by intros [[] [] [] [] [] [] [] []]; vm_compute.
Qed.

(** C19: A discovery document the client accepts cannot write anything but its values into nix.conf
    or into the NixOS snippet: the text rendered from it has exactly the lines of its template, none
    of the values holds a quote, a line break or Nix syntax, and each key is a name of letters,
    digits and ._- , a colon, and base64 digits with their padding. *)
Theorem checked_values_stay_in_place `{U : UrlParser} d puller :
  check d = Ok tt → d_puller_endpoint d = Some puller →
  text_lines (nixconf_lines puller (d_public_keys d)) =
    ["extra-substituters = " +:+ puller; "extra-trusted-public-keys = " +:+ str_join " " (d_public_keys d)] ∧
  split_whitespace (str_join " " (d_public_keys d)) = d_public_keys d ∧
  text_lines (nixos_snippet puller (d_public_keys d)) =
    ["nix.settings = {"; "  substituters = [ " +:+ quoted puller +:+ " ];";
     "  trusted-public-keys = [ " +:+ str_join " " (map quoted (d_public_keys d)) +:+ " ];"; "};"] ∧
  Forall no_nix_syntax (puller :: d_public_keys d) ∧
  Forall (λ key, ∃ name data pad, key = name +:+ ":" +:+ data +:+ pad ∧
    name ≠ "" ∧ made_of (LETTERS_AND_DIGITS +:+ "._-") name ∧
    data ≠ "" ∧ made_of (LETTERS_AND_DIGITS +:+ "+/") data ∧ made_of "=" pad) (d_public_keys d).
Proof.
  intros [Hp Hkeys _]%check_ok Hpuller. specialize (Hp _ Hpuller). pose proof (url_line _ Hp) as Hpl.
  assert (Hkl : Forall (λ k, str_all is_line_char k = true) (d_public_keys d)) by (eapply Forall_impl; [exact Hkeys|apply key_line]).
  assert (Hku : Forall (λ k, k ≠ "" ∧ str_all is_url_char k = true) (d_public_keys d)) by (eapply Forall_impl; [exact Hkeys|apply key_ok_url]).
  split_and!.
  - unfold nixconf_lines. rewrite <-(str_app_nil_r (writeln ("extra-trusted-public-keys = " +:+ _))).
    apply (text_lines_of ["extra-substituters = " +:+ puller; "extra-trusted-public-keys = " +:+ str_join " " (d_public_keys d)]).
    repeat constructor; rewrite str_all_app; [by rewrite Hpl|by rewrite line_char_join].
  - apply split_whitespace_words; [|done]. eapply Forall_impl; [exact Hku|]. intros k [Hne Hk]. split; [done|].
    eapply str_all_impl; [apply url_char_graphic|done].
  - unfold nixos_snippet. rewrite <-(str_app_nil_r (writeln "};")).
    apply (text_lines_of ["nix.settings = {"; "  substituters = [ " +:+ quoted puller +:+ " ];";
      "  trusted-public-keys = [ " +:+ str_join " " (map quoted (d_public_keys d)) +:+ " ];"; "};"]).
    repeat constructor; rewrite !str_all_app; [by rewrite quoted_line|].
    rewrite line_char_join; [done|done|]. apply Forall_fmap. eapply Forall_impl; [exact Hkl|apply quoted_line].
  - constructor; [apply url_chars_no_nix, Hp|]. eapply Forall_impl; [exact Hku|]. intros k [_ Hk]. by apply url_chars_no_nix.
  - eapply Forall_impl; [exact Hkeys|apply key_ok_characters].
Qed.

(** ** Editing nix.conf *)

Lemma contains_app sub a b : contains sub (a +:+ sub +:+ b) = true.
Proof.
  induction a as [|c a IH].
  - rewrite str_app_nil_l. assert (H : starts_with sub (sub +:+ b) = true).
    { apply bool_decide_eq_true. exists b. by apply strip_prefix_Some. }
    destruct (sub +:+ b); cbn; by rewrite H.
  - rewrite str_app_cons. cbn [contains]. by rewrite IH, orb_true_r.
Qed.

Lemma nixconf_appended_spec existing puller keys :
  starts_with (default "" existing) (nixconf_appended existing puller keys) = true ∧
  contains puller (nixconf_appended existing puller keys) = true.
Proof.
  unfold nixconf_appended. set (old := default "" existing). set (out := if negb _ && negb _ then _ else old).
  assert (Hout : ∃ nl, out = old +:+ nl) by (unfold out; destruct (_ && _); eexists; [done|by rewrite str_app_nil_r]).
  destruct Hout as [nl ->]. split.
  - apply bool_decide_eq_true. eexists. apply strip_prefix_Some. by rewrite str_app_assoc.
  - unfold nixconf_lines, writeln. rewrite !str_app_assoc, <-(str_app_assoc old), <-(str_app_assoc (old +:+ nl)). apply contains_app.
Qed.

Lemma io_always {A} inv (p : Prog FsOp (Result A IoError)) fs post :
  always (@fs_step) inv p fs (λ r fs', post (map_err Set_Io r) fs') → always (@fs_step) inv (io p) fs post.
Proof.
  intros H. apply always_bind. eapply always_weaken; [exact H|done|]. intros r fs' Hi Hp. by apply always_ret.
Qed.

(** What editing nix.conf does to the files when it writes [target]. *)
Definition nixconf_edited (path puller : string) (keys : list string) (pid : Z) (fs fs' : Fs) (target : string) : Prop :=
  fs !! target = fs !! path ∧
  (∀ p, p ≠ target → p ≠ temporary target pid → fs' !! p = fs !! p) ∧
  (fs' !! target = fs !! target ∨ fs' !! target = Some (nixconf_appended (fs !! path) puller keys)).

(** Editing nix.conf keeps all that it said, adds the cache's two lines at its end, writes the file
    or what it links to at once, and changes nothing when the cache is already named or an error
    ends it. *)
Theorem nixconf_apply_appends env pid puller keys path fs :
  nixconf_path env = Ok path →
  always (@fs_step) (λ fs', ∃ target, nixconf_edited path puller keys pid fs fs' target)
    (nixconf_apply env pid puller keys) fs
    (λ r fs', match r with
              | Ok (AlreadyPresent _) => fs' = fs ∧ ∃ text, fs !! path = Some text ∧ contains puller text = true
              | Ok (Added _) => ∃ target text, fs !! target = fs !! path ∧
                  fs' = <[target := text]> (delete (temporary target pid) fs) ∧
                  text = nixconf_appended (fs !! path) puller keys ∧
                  starts_with (default "" (fs !! path)) text = true ∧ contains puller text = true
              | Err _ => ∃ target, fs !! target = fs !! path ∧ fs' !! target = fs !! target
              end).
Proof.
  intros Hpath. set (inv := λ fs', ∃ target, _). set (post := λ (r : Result NixConfOutcome SettingsError) (fs' : Fs), _).
  assert (Hnow : inv fs) by (exists path; split_and!; auto).
  assert (Herr : ∀ e, post (Err e) fs) by (intros e; by exists path).
  assert (Hwrite : ∀ target, fs !! target = fs !! path →
    always (@fs_step) inv (do? _ <- io (write_atomic pid target (nixconf_appended (fs !! path) puller keys) 438);
      Ret (Ok (Added path))) fs post).
  { intros target Ht. apply always_bind, io_always. eapply always_weaken; [apply write_atomic_always| |].
    - intros fs' [H1 H2]. by exists target.
    - intros [[]|e] fs' [H1 H2] Hr; cbn [map_err]; (apply always_ret; [by exists target|]); [|by exists target].
      exists target, (nixconf_appended (fs !! path) puller keys). destruct (nixconf_appended_spec (fs !! path) puller keys). done. }
  unfold nixconf_apply. rewrite Hpath. cbn [map_err prog_bind]. apply always_bind, io_always. unfold read_optional.
  apply always_request; [done|]. intros text fs1 [-> Htext]. apply always_ret; [done|].
  assert (Hread : ∀ old, old = fs !! path → always (@fs_step) inv
    (if match old with Some text => contains puller text | None => false end then Ret (Ok (AlreadyPresent path))
     else do? target <- match old with Some _ => io (request (Fs_Canonicalize path)) | None => Ret (Ok path) end;
          do? _ <- io (write_atomic pid target (nixconf_appended old puller keys) 438); Ret (Ok (Added path))) fs post).
  { intros old ->. destruct (fs !! path) as [old|] eqn:Hold; [|apply Hwrite; congruence].
    destruct (contains puller old) eqn:Hc; [apply always_ret; [done|split; [done|]; by exists old]|].
    apply always_bind, io_always. split; [done|]. intros r fs2 [-> Hr]. split; [done|].
    destruct r as [target|e]; cbn [map_err]; [|by apply always_ret]. apply Hwrite. rewrite <-Hold. by apply Hr. }
  destruct text as [text|e]; cbn [map_err]; [by apply (Hread (Some text))|].
  destruct e; cbn [is_not_found map_err]; [by apply (Hread None)|by apply always_ret..].
Qed.

(** ** Loading *)

(** A configuration the client can run with. *)
Record config_ok `{U : UrlParser} (c : ClientConfig) : Prop := {
  co_some_job : (1 ≤ cc_jobs c)%Z;
  co_idle : (1 ≤ cc_upload_idle_secs c)%Z;
  co_poll_interval : (1 ≤ ws_poll_interval_secs (cc_watch c))%Z;
  co_attempts : (1 ≤ ws_max_attempts (cc_watch c))%Z;
  co_endpoint_ok : url_ok (cc_endpoint c);
  co_puller : ∀ puller, cc_puller_endpoint c = Some puller → url_ok puller;
  co_issuer : ∀ issuer, os_issuer (cc_oidc c) = Some issuer → url_ok issuer;
  co_keys : Forall key_ok (cc_public_keys c);
}.

Lemma unless_ok (b : bool) (e : string) : (if b then Ok tt else Err e) = Ok tt ↔ b = true.
Proof. destruct b; split; done. Qed.

Lemma client_validate_ok c :
  client_validate c = Ok tt ↔ (1 ≤ cc_jobs c ∧ 1 ≤ cc_upload_idle_secs c ∧
    1 ≤ ws_poll_interval_secs (cc_watch c) ∧ 1 ≤ ws_max_attempts (cc_watch c))%Z.
Proof. unfold client_validate. by rewrite !then_ok, !unless_ok, !Z.leb_le. Qed.

Lemma trim_end_idemp c s : trim_end_matches c (trim_end_matches c s) = trim_end_matches c s.
Proof.
  induction s as [|a s IH]; [done|]. cbn [trim_end_matches].
  destruct (trim_end_matches c s) as [|b t] eqn:E.
  - destruct (Ascii.eqb a c) eqn:Ha; [done|]. cbn. by rewrite Ha.
  - rewrite <-IH. change (String a (trim_end_matches c (String b t))) with (String a (trim_end_matches c (String b t))).
    rewrite IH. cbn [trim_end_matches] in *. by rewrite IH.
Qed.

Lemma load_parsed_ok `{U : UrlParser} garret_endpoint cfg loaded :
  load_parsed garret_endpoint cfg = Ok loaded ↔
  config_ok loaded ∧
  loaded = with_endpoints (trim_trailing_slashes (default (cc_endpoint cfg) garret_endpoint))
             (trim_trailing_slashes <$> cc_puller_endpoint cfg) cfg.
Proof.
  unfold load_parsed. rewrite then_ok, client_validate_ok. set (trimmed := with_endpoints _ _ cfg). cbv zeta.
  rewrite !then_ok, all_ok_ok, check_url_ok.
  rewrite !(check_some_ok (check_url _) url_ok) by apply check_url_ok.
  assert (Hkeys : ∀ ks, Forall (λ k, check_key k = Ok tt) ks ↔ Forall key_ok ks).
  { intros ks. apply Forall_proper; [|done]. intros k. apply check_key_ok. }
  rewrite Hkeys. split.
  - intros ((? & ? & ? & ?) & ? & ? & ? & ? & [= <-]). split; [|done]. by split.
  - intros [[] ->]. done.
Qed.

(** C20: A client configuration loads exactly when it is well formed: each number is in range, each
    endpoint and issuer is a safe URL and each key has the form name:base64; what is loaded is the
    parsed configuration with its endpoint overridden from the environment and trailing slashes cut.
    *)
Theorem load_parsed_exact `{U : UrlParser} garret_endpoint cfg loaded :
  load_parsed garret_endpoint cfg = Ok loaded ↔
  config_ok loaded ∧
  loaded = with_endpoints (trim_trailing_slashes (default (cc_endpoint cfg) garret_endpoint))
             (trim_trailing_slashes <$> cc_puller_endpoint cfg) cfg.
Proof. apply load_parsed_ok. Qed.

(** A server whose document the client accepts: what the Pusher's own validation
    leaves open. *)
Record servable `{U : UrlParser, C : Crypto} (cfg : PusherConfig) (keys : list SigningKey) : Prop := {
  sv_puller : ∀ puller, pc_puller_endpoint cfg = Some puller → url_ok puller;
  sv_names : Forall (λ k, Narinfo.key_name k ≠ "" ∧ str_all (λ c, is_ascii_alphanumeric c || ascii_mem c "._-") (Narinfo.key_name k) = true) keys;
  sv_public : Forall (λ k, ed_public (key_seed k) ≠ []) keys;
  sv_issuers : Forall (λ i, str_all is_url_char (is_issuer i) = true ∧ str_all is_plain_char (is_audience i) = true ∧
    (∀ id, is_client_id i = Some id → plain_ok id) ∧ (is_jwks_url i ≠ None → url_ok (is_issuer i))) (pc_oidc cfg);
}.

(** The server's loopback hosts are some of the client's. *)
Lemma safe_url_ok `{U : UrlParser} url : str_all is_url_char url = true → safe_url url → url_ok url.
Proof.
  intros Hc (scheme & host & Hp & Hs). split; [done|]. exists scheme, (Some host). split; [done|].
  destruct Hs as [Hs|[Hs Hh]]; [by left|right]. split; [done|].
  repeat (apply elem_of_cons in Hh as [->|Hh]); [vm_compute; reflexivity..|by apply elem_of_nil in Hh].
Qed.

Lemma pusher_validate_issuers `{U : UrlParser} cfg :
  pusher_validate cfg = Ok tt → Forall issuer_acceptable (pc_oidc cfg).
Proof.
  unfold pusher_validate. rewrite !guard_ok, then_ok, guard_ok, then_ok, guard_ok, map_err_ok, all_ok_ok.
  intros (_ & _ & _ & _ & _ & _ & _ & _ & H). eapply Forall_impl; [exact H|]. intros i. apply issuer_validate_ok.
Qed.

Lemma public_key_ok {C : Crypto} (HC : CryptoLaws C) k :
  Narinfo.key_name k ≠ "" → str_all (λ c, is_ascii_alphanumeric c || ascii_mem c "._-") (Narinfo.key_name k) = true →
  ed_public (key_seed k) ≠ [] → key_ok (public_key k).
Proof.
  intros Hn Hc Hp. destruct (b64_shape (ed_public (key_seed k))) as (data & pad & Heq & Hd & Hpad & Hne).
  exists (Narinfo.key_name k), data, pad. unfold public_key. rewrite Heq. split_and!; auto.
Qed.

(** The two ends of discovery agree: the document a Pusher serves from a validated configuration
    with safe URLs and names, and from its signing keys, passes every check the client makes. *)
Theorem served_discovery_is_accepted `{U : UrlParser} {C : Crypto} cfg keys :
  CryptoLaws C → pusher_validate cfg = Ok tt → servable cfg keys → check (discovery_document cfg keys) = Ok tt.
Proof.
  intros HC Hv%pusher_validate_issuers [Hpuller Hnames Hpub Hissuers]. apply check_ok. split; [done|..]; cbn.
  - apply Forall_fmap, Forall_forall. intros k Hk. rewrite Forall_forall in Hnames, Hpub.
    destruct (Hnames k Hk). by apply public_key_ok; [..|apply Hpub].
  - intros oidc H. apply fmap_Some in H as (i & Hi & ->). apply List.find_some in Hi as [Hi%list_elem_of_In _]. cbn.
    rewrite Forall_forall in Hissuers, Hv. destruct (Hissuers i Hi) as (Hchars & Haud & Hid & Hjwks), (Hv i Hi) as [Hne _ Hkeys].
    split_and!; [|by split|done]. destruct (is_jwks_url i) as [url|]; [by apply Hjwks|by apply safe_url_ok].
Qed.

(** ** The file [login] writes *)

(** [toml::Value::to_string] quotes printable text that holds no quote. *)
Class TomlLaws (T : Toml) := {
  toml_plain s : str_all is_plain_char s = true → toml_string s = quoted s;
}.

Definition config_lines (endpoint client_id : string) (oidc : Oidc) (d : Discovery) : list string :=
  ["# Written by `garret login`. Re-run with --force to regenerate.";
   "endpoint = " +:+ quoted endpoint;
   match d_puller_endpoint d with
   | Some puller => "puller_endpoint = " +:+ quoted puller
   | None => "# puller_endpoint — the server advertised none; `use`/`list`/`tree` need it"
   end;
   match d_public_keys d with
   | [] => "# public_keys — the server advertised none; `garret use` needs them"
   | keys => "public_keys = [" +:+ str_join ", " (map quoted keys) +:+ "]"
   end;
   ""; "[oidc]"; "issuer = " +:+ quoted (oi_issuer oidc); "client_id = " +:+ quoted client_id;
   "audience = " +:+ quoted (oi_audience oidc); "";
   "# Optional: jobs = 8, zstd_level = 3, max_retries = 5,";
   "# upstream_keys = [" +:+ quoted "cache.nixos.org-1" +:+ "] (paths these keys sign are not pushed)"].

Lemma url_char_plain s : str_all is_url_char s = true → str_all is_plain_char s = true.
Proof.
  apply str_all_impl. intros c. unfold is_url_char, is_plain_char. intros [-> H]%andb_prop. cbn [andb].
  apply negb_true_iff, orb_false_iff in H as [-> H]. cbn [orb]. rewrite ascii_mem_cons in H.
  apply orb_false_iff in H as [H _]. by rewrite H.
Qed.

Lemma value_line key value : str_all is_line_char key = true → str_all is_line_char value = true → plain_line (key +:+ quoted value).
Proof. intros Hk Hv. apply line_char_plain. by rewrite str_all_app, Hk, quoted_line. Qed.

Lemma config_text_foldr `{U : UrlParser, T : Toml} (HT : TomlLaws T) endpoint client_id oidc d :
  url_ok endpoint → discovery_ok d → d_oidc d = Some oidc → oi_client_id oidc = Some client_id →
  config_text endpoint client_id oidc d = foldr (λ l s, writeln l +:+ s) "" (config_lines endpoint client_id oidc d).
Proof.
  intros [He _] [Hp Hk Ho] Hoidc Hid. destruct (Ho _ Hoidc) as ([Hiss _] & [_ Haud] & Hcid). specialize (Hcid _ Hid) as [_ Hcid].
  unfold config_text, config_lines. cbn [foldr].
  rewrite !toml_plain by (done || by apply url_char_plain).
  assert (Hpull : match d_puller_endpoint d with
    | Some puller => writeln ("puller_endpoint = " +:+ toml_string puller)
    | None => writeln "# puller_endpoint — the server advertised none; `use`/`list`/`tree` need it" end =
    writeln match d_puller_endpoint d with
    | Some puller => "puller_endpoint = " +:+ quoted puller
    | None => "# puller_endpoint — the server advertised none; `use`/`list`/`tree` need it" end).
  { destruct (d_puller_endpoint d) as [puller|]; [|done]. destruct (Hp _ eq_refl) as [Hc _]. by rewrite toml_plain by by apply url_char_plain. }
  assert (Hkeys : map toml_string (d_public_keys d) = map quoted (d_public_keys d)).
  { apply map_ext_in. intros k Hin%list_elem_of_In. rewrite Forall_forall in Hk. apply Hk, key_ok_url in Hin as [_ Hin].
    apply toml_plain, url_char_plain, Hin. }
  rewrite Hpull, Hkeys. rewrite str_app_nil_r. cbn [map upstream_keys str_join]. rewrite toml_plain by done.
  destruct (d_public_keys d); reflexivity.
Qed.

(** The values of a checked document. *)
Lemma discovery_values `{U : UrlParser} d oidc client_id endpoint :
  url_ok endpoint → discovery_ok d → d_oidc d = Some oidc → oi_client_id oidc = Some client_id →
  Forall (λ v, str_all is_plain_char v = true)
    (endpoint :: client_id :: oi_issuer oidc :: oi_audience oidc :: option_list (d_puller_endpoint d) ++ d_public_keys d).
Proof.
  intros [He _] [Hp Hk Ho] Hoidc Hid. destruct (Ho _ Hoidc) as ([Hiss _] & [_ Haud] & Hcid). specialize (Hcid _ Hid) as [_ Hcid].
  repeat (constructor; [first [done | by apply url_char_plain]|]). apply Forall_app. split.
  - destruct (d_puller_endpoint d) as [puller|]; [|done]. repeat constructor. destruct (Hp _ eq_refl). by apply url_char_plain.
  - eapply Forall_impl; [exact Hk|]. intros k [_ Hc]%key_ok_url. by apply url_char_plain.
Qed.

Lemma plain_char_line c : is_plain_char c = true → is_line_char c = true.
Proof. unfold is_plain_char, is_line_char. intros [-> _]%andb_prop. done. Qed.

Lemma config_lines_plain endpoint client_id oidc d :
  Forall (λ v, str_all is_plain_char v = true)
    (endpoint :: client_id :: oi_issuer oidc :: oi_audience oidc :: option_list (d_puller_endpoint d) ++ d_public_keys d) →
  Forall plain_line (config_lines endpoint client_id oidc d).
Proof.
  intros H. assert (Hline : Forall (λ v, str_all is_line_char v = true)
    (endpoint :: client_id :: oi_issuer oidc :: oi_audience oidc :: option_list (d_puller_endpoint d) ++ d_public_keys d)).
  { eapply Forall_impl; [exact H|]. intros v. apply str_all_impl, plain_char_line. }
  clear H. apply Forall_cons in Hline as [He Hline]. apply Forall_cons in Hline as [Hc Hline].
  apply Forall_cons in Hline as [Hi Hline]. apply Forall_cons in Hline as [Ha Hline].
  apply Forall_app in Hline as [Hp Hk]. unfold config_lines.
  repeat match goal with |- Forall _ (_ :: _) => apply Forall_cons; split end; try done; try (by vm_compute); try (by apply value_line).
  - destruct (d_puller_endpoint d) as [puller|]; [|by vm_compute]. apply value_line; [done|]. cbn in Hp. by apply Forall_cons in Hp as [? _].
  - destruct (d_public_keys d) as [|k ks]; [by vm_compute|]. apply line_char_plain. rewrite !str_all_app.
    rewrite line_char_join; [done|done|]. apply Forall_fmap. eapply Forall_impl; [exact Hk|]. intros v. apply quoted_line.
Qed.

(** The configuration login writes from a checked discovery document has exactly the lines of its
    template, with no value that could end a TOML string. *)
Theorem login_config_lines `{U : UrlParser, T : Toml} endpoint d text :
  TomlLaws T → url_ok endpoint → check d = Ok tt → config_render endpoint d = Ok text →
  ∃ oidc client_id, d_oidc d = Some oidc ∧ oi_client_id oidc = Some client_id ∧
    text_lines text = config_lines endpoint client_id oidc d ∧
    Forall (λ v, ascii_mem double_quote v = false ∧ ascii_mem "\" v = false)
      (endpoint :: client_id :: oi_issuer oidc :: oi_audience oidc :: option_list (d_puller_endpoint d) ++ d_public_keys d).
Proof.
  intros HT He Hd%check_ok. unfold config_render.
  destruct (d_oidc d) as [oidc|] eqn:Ho; [|done]. cbn [ok_or].
  destruct (oi_client_id oidc) as [client_id|] eqn:Hc; [|done]. cbn [ok_or].
  intros [= <-]. exists oidc, client_id. pose proof (discovery_values d oidc client_id endpoint He Hd Ho Hc) as Hv.
  split_and!; [done|done|..].
  - rewrite (config_text_foldr HT) by done. apply text_lines_writelns. by apply config_lines_plain.
  - eapply Forall_impl; [exact Hv|]. intros v Hplain. split; (eapply ascii_mem_all_false; [exact Hplain|reflexivity]).
Qed.

(** ** Examples *)

Definition example_discovery : Discovery :=
  mkDiscovery (Some (mkOidc "garret" (Some "laptop") "https://id.example")) ["garret-1:AAAA+bb/cc="; "garret-2:BBBB"]
    (Some "https://cache.example").

Lemma checked_values_stay_in_place_witness :
  check (U := toy_url) example_discovery = Ok tt ∧
  text_lines (nixconf_lines "https://cache.example" (d_public_keys example_discovery)) =
    ["extra-substituters = https://cache.example"; "extra-trusted-public-keys = garret-1:AAAA+bb/cc= garret-2:BBBB"].
Proof.
  split; [vm_compute; reflexivity|].
  by apply (checked_values_stay_in_place (U := toy_url) example_discovery "https://cache.example").
Defined.

(** A value that would start a setting of its own is refused. *)
Lemma example_injections :
  is_ok (check_url (U := toy_url) "u" ("https://cache.example" +:+ String newline "post-build-hook = /tmp/x")) = false ∧
  is_ok (check_url (U := toy_url) "u" "http://127.0.0.1.evil.example") = false ∧
  is_ok (check_url (U := toy_url) "u" "http://[::1]") = true ∧
  is_ok (check_key "garret-1:AAAA other:BBBB") = false ∧ is_ok (check_key "garret-1:AA=A") = false.
Proof. repeat split. Qed.

Definition example_env : Env := mkEnv None (Some "/home/u") None.
Definition example_nixconf : Fs := {["/home/u/.config/nix/nix.conf" := "cores = 4"]}.

Lemma nixconf_apply_appends_witness :
  nixconf_path example_env = Ok "/home/u/.config/nix/nix.conf" ∧
  nixconf_appended (example_nixconf !! "/home/u/.config/nix/nix.conf") "https://cache.example" ["k:AAAA"] =
    writeln "cores = 4" +:+ nixconf_lines "https://cache.example" ["k:AAAA"] ∧
  always (@fs_step) (λ fs', ∃ target, nixconf_edited "/home/u/.config/nix/nix.conf" "https://cache.example" ["k:AAAA"] 7
      example_nixconf fs' target)
    (nixconf_apply example_env 7 "https://cache.example" ["k:AAAA"]) example_nixconf (λ _ _, True).
Proof.
  split; [reflexivity|]. split; [vm_compute; reflexivity|].
  eapply always_weaken; [apply (nixconf_apply_appends example_env 7 "https://cache.example" ["k:AAAA"] "/home/u/.config/nix/nix.conf"); reflexivity|..]; done.
Defined.

Definition device_issuer : IssuerConfig :=
  mkIssuer "https://id.example" "garret" [] (Some "laptop") None None [] None [] [] [] [].
Definition example_server : PusherConfig :=
  mkPusherConfig "127.0.0.1:8080" "/var/lib/garret.db"
    (mkS3Config "nar" None None true None None 60 None false) "/nix/store" ["/run/key"] (Some "https://cache.example")
    [github_issuer; device_issuer] limits_default None None "127.0.0.1:9091".
Definition example_key : SigningKey := mkSigningKey "garret-1" (repeat 7%Z 32).

Lemma example_servable : servable (U := toy_url) (C := toy_crypto) example_server [example_key].
Proof.
  assert (Hurl : url_ok (U := toy_url) "https://cache.example") by (apply (check_url_ok "u"); reflexivity).
  split.
  - intros puller [= <-]. exact Hurl.
  - by repeat constructor.
  - by repeat constructor.
  - apply Forall_cons; split; [|apply Forall_cons; split; [|constructor]];
      (split_and!; [reflexivity|reflexivity|by intros id [= <-]|done]).
Qed.

Lemma served_discovery_is_accepted_witness :
  pusher_validate (U := toy_url) example_server = Ok tt ∧
  d_oidc (discovery_document (C := toy_crypto) example_server [example_key]) = Some (mkOidc "garret" (Some "laptop") "https://id.example") ∧
  check (U := toy_url) (discovery_document (C := toy_crypto) example_server [example_key]) = Ok tt.
Proof.
  split; [vm_compute; reflexivity|]. split; [reflexivity|].
  apply (served_discovery_is_accepted (U := toy_url) (C := toy_crypto)); [apply toy_crypto_laws|vm_compute; reflexivity|apply example_servable].
Defined.

Definition toy_toml : Toml := {| toml_config _ := Err "not a configuration"; toml_string := quoted |}.

Lemma login_config_lines_witness :
  ∃ text, config_render (T := toy_toml) "https://push.example" example_discovery = Ok text ∧
    nth_error (text_lines text) 3 = Some ("public_keys = [" +:+ quoted "garret-1:AAAA+bb/cc=" +:+ ", " +:+ quoted "garret-2:BBBB" +:+ "]").
Proof.
  eexists. split; [reflexivity|].
  destruct (login_config_lines (U := toy_url) (T := toy_toml) "https://push.example" example_discovery _
    ltac:(by split) ltac:(by apply (check_url_ok "u")) ltac:(reflexivity) ltac:(reflexivity)) as (oidc & id & [= <-] & [= <-] & -> & _).
  reflexivity.
Defined.
