(* ===== verification/Token.v ===== *)
(** * Token: where the client's bearer tokens come from

    [crates/garret-client/src/auth.rs]. Every flow is a [Prog] over [TokenOp]:
    one HTTP request to an issuer, one read or write of the token file, the
    clock, a sleep. The lock of a [TokenSource] is held across a mint, so calls
    of [get] and [renew] come one after the other: each takes the held token and
    gives the next. Durations are milliseconds, times of tokens seconds. JSON,
    base64 and [Url::parse] are parameters. Printing is left out. *)

From stdpp Require Import pretty.
From S2P Require Import Prelude Text Net Common Prog Config Files Upload Push Settings.

(** ** Data *)

Record Claims := mkTokenClaims {
  cl_sub : option string;
  cl_exp : option Z;
  cl_iat : option Z;
}.

Record StoredToken := mkStoredToken {
  st_refresh_token : string;
  st_issuer : string;
  st_client_id : string;
}.

(** [RawEndpoints], and [Endpoints] once checked. *)
Record Endpoints := mkEndpoints {
  ep_device_authorization_endpoint : option string;
  ep_token_endpoint : string;
}.

Record DeviceGrant := mkDeviceGrant {
  dg_device_code : string;
  dg_user_code : string;
  dg_verification_uri : string;
  dg_verification_uri_complete : option string;
  dg_interval : Z;
}.

Record TokenResponse := mkTokenResponse {
  tr_access_token : option string;
  tr_refresh_token : option string;
  tr_error : option string;
  tr_error_description : option string;
}.

(** serde_json and base64. *)
Class TokenLibs := {
  b64url_decode : string → option (list Z);
  claims_from_json : list Z → option Claims;
  endpoints_from_json : string → Result Endpoints string;
  device_grant_from_json : string → Result DeviceGrant string;
  token_response_from_json : string → Result TokenResponse string;
  github_token_from_json : string → Result string string;
  stored_token_from_json : string → Result StoredToken string;
  stored_token_to_json : StoredToken → string;
}.

(** ** Requests *)

Abbreviation Form := (list (string * string)).

Inductive TokenOp : Type → Type :=
  | Token_Now : TokenOp Z
  | Token_Sleep (seconds : Z) : TokenOp unit
  | Token_Get (url : string) : TokenOp (Result Answer string)
  | Token_Post (endpoint : string) (form : Form) : TokenOp (Result Answer string)
  | Token_Github (url request_token audience : string) : TokenOp (Result Answer string)
  | Token_ReadFile : TokenOp (Result (option string) string)
  | Token_SaveFile (text : string) : TokenOp (Result unit string).

Abbreviation Minting := (Prog TokenOp).

Definition TOKEN_TIMEOUT : Z := 60 * 1000.
Definition EXPIRY_MARGIN_SECS : Z := 60.

Definition i64_wrap (z : Z) : Z := ((z - i64_min) mod 2 ^ 64 + i64_min)%Z.

Section token.
Context `{L : ClientLibs, U : UrlParser, J : TokenLibs}.

(** ** Claims *)

(** The payload of a JWT, its signature not verified. *)
Definition peek_claims (token : string) : Result Claims string :=
  let? payload := ok_or (nth_error (str_split "." token) 1) "token is not a JWT: expected three dot-separated segments" in
  let? bytes := ok_or (b64url_decode payload) "token payload is not base64url" in
  ok_or (claims_from_json bytes) "token payload is not JSON".

(** In milliseconds. *)
Definition declared_max_age (token : string) : option Z :=
  match peek_claims token with
  | Ok claims =>
      exp ← cl_exp claims; iat ← cl_iat claims;
      Some (Z.max 0 (i64_wrap (i64_wrap (exp - iat) - EXPIRY_MARGIN_SECS)) * 1000)%Z
  | Err _ => None
  end.

(** ** Issuers *)

(** A successful answer, as JSON. *)
Definition parsed {A} (answer : Answer) (what : string) (parse : string → Result A string) : Result A string :=
  let? answer := ensure_success answer what in
  match an_body answer with
  | Ok text => parse text
  | Err _ => Err ("reading the answer to " +:+ what)
  end.

Definition endpoints_checked (raw : Endpoints) : Result Endpoints string :=
  let? _ := check_url "the OIDC token_endpoint" (ep_token_endpoint raw) in
  let? _ := check_some (check_url "the OIDC device_authorization_endpoint") (ep_device_authorization_endpoint raw) in
  Ok raw.

Definition discovery_url (issuer : string) : string :=
  trim_end_matches "/" issuer +:+ "/.well-known/openid-configuration".

Definition discover (issuer : string) : Minting (Result Endpoints string) :=
  do? _ <- Ret (check_url "the OIDC issuer" issuer);
  let url := discovery_url issuer in
  do? answer <- request (Token_Get url);
  Ret (let? raw := parsed answer ("OIDC discovery at " +:+ url) endpoints_from_json in endpoints_checked raw).

Definition post_form (endpoint : string) (form : Form) (resource : option string) : Minting (Result Answer string) :=
  request (Token_Post endpoint (form ++ match resource with Some r => [("resource", r)] | None => [] end)).

Definition save_token (token : StoredToken) : Minting (Result unit string) :=
  request (Token_SaveFile (stored_token_to_json token)).

Definition store_refresh_token (refresh_token : option string) (issuer client_id : string) : Minting (Result bool string) :=
  match refresh_token with
  | None => Ret (Ok false)
  | Some refresh_token => do? _ <- save_token (mkStoredToken refresh_token issuer client_id); Ret (Ok true)
  end.

Definition missing_token : string := "token response contained no access_token".

(** ** Grants *)

(** One answer to a poll: wait on, by how much more, or an end. *)
Inductive PollVerdict := Poll_Again (extra : Z) | Poll_Failed (message : string) | Poll_Done (refresh_token : option string).

Definition poll_verdict (response : TokenResponse) : PollVerdict :=
  match tr_error response with
  | Some other =>
      if bool_decide (other = "authorization_pending") then Poll_Again 0
      else if bool_decide (other = "slow_down") then Poll_Again 5
      else Poll_Failed (match tr_error_description response with
                        | Some why => "device authorization failed: " +:+ other +:+ ": " +:+ why
                        | None => "device authorization failed: " +:+ other
                        end)
  | None => if is_none (tr_access_token response) then Poll_Again 0 else Poll_Done (tr_refresh_token response)
  end.

(** A 400 is read for its OAuth error; any other failure ends the login. *)
Definition poll_response (answer : Answer) : Result TokenResponse string :=
  let? answer := if (an_status answer =? 400)%Z then Ok answer else ensure_success answer "polling for device approval" in
  match an_body answer with
  | Ok text => map_err (λ e, "parsing the device token response: " +:+ e) (token_response_from_json text)
  | Err _ => Err "parsing the device token response"
  end.

(** [None]: still pending when the fuel is spent. *)
Fixpoint device_poll (fuel : nat) (token_endpoint issuer client_id device_code : string) (resource : option string)
    (interval : Z) : Minting (option (Result bool string)) :=
  match fuel with
  | 0 => Ret None
  | S fuel =>
      do _ <- request (Token_Sleep interval);
      do answer <- post_form token_endpoint
        [("client_id", client_id); ("device_code", device_code);
         ("grant_type", "urn:ietf:params:oauth:grant-type:device_code")] resource;
      match (let? answer := answer in poll_response answer) with
      | Err e => Ret (Some (Err e))
      | Ok response =>
          match poll_verdict response with
          | Poll_Again extra => device_poll fuel token_endpoint issuer client_id device_code resource (interval + extra)
          | Poll_Failed e => Ret (Some (Err e))
          | Poll_Done refresh_token =>
              do stored <- store_refresh_token refresh_token issuer client_id; Ret (Some stored)
          end
      end
  end.

Definition device_login (fuel : nat) (issuer client_id : string) (resource : option string)
    : Minting (option (Result bool string)) :=
  do endpoints <- discover issuer;
  match (let? endpoints := endpoints in
         let? device := ok_or (ep_device_authorization_endpoint endpoints)
           ("the OIDC issuer advertises no device_authorization_endpoint, so it offers no " +:+ "device flow") in
         Ok (endpoints, device)) with
  | Err e => Ret (Some (Err e))
  | Ok (endpoints, device) =>
      do answer <- post_form device [("client_id", client_id); ("scope", "openid offline_access")] resource;
      match (let? answer := answer in parsed answer "requesting a device code" device_grant_from_json) with
      | Err e => Ret (Some (Err e))
      | Ok grant =>
          device_poll fuel (ep_token_endpoint endpoints) issuer client_id (dg_device_code grant) resource (dg_interval grant)
      end
  end.

Definition refresh (stored : StoredToken) (resource : option string) : Minting (Result string string) :=
  do? endpoints <- discover (st_issuer stored);
  do? answer <- post_form (ep_token_endpoint endpoints)
    [("client_id", st_client_id stored); ("refresh_token", st_refresh_token stored); ("grant_type", "refresh_token")] resource;
  if ((an_status answer =? 400) || (an_status answer =? 401))%Z
  then Ret (Err ("stored login expired or revoked; run `garret login` (" +:+ error_detail answer +:+ ")"))
  else
    do? response <- Ret (parsed answer "refreshing the stored token" token_response_from_json);
    do? _ <- store_refresh_token (tr_refresh_token response) (st_issuer stored) (st_client_id stored);
    Ret (ok_or (tr_access_token response) missing_token).

Definition github_token (url request_token audience : string) : Minting (Result string string) :=
  do? answer <- request (Token_Github url request_token audience);
  Ret (parsed answer "requesting a GitHub Actions OIDC token" github_token_from_json).

Definition client_credentials (issuer client_id client_secret : string) (resource : option string)
    : Minting (Result string string) :=
  do? endpoints <- discover issuer;
  do? answer <- post_form (ep_token_endpoint endpoints)
    [("client_id", client_id); ("client_secret", client_secret); ("grant_type", "client_credentials")] resource;
  Ret (let? response := parsed answer "requesting a client_credentials token" token_response_from_json in
       ok_or (tr_access_token response) missing_token).

(** The text of the secret file, if it could be read. *)
Definition read_client_secret (path : string) (text : Result string string) : Result string string :=
  let? text := map_err (λ e, "reading `oidc.client_secret_file` " +:+ path +:+ ": " +:+ e) text in
  let secret := str_trim text in
  if bool_decide (secret = "") then Err ("`oidc.client_secret_file` " +:+ path +:+ " is empty") else Ok secret.
End token.

(** ** Token sources *)

Inductive Mint :=
  | Mint_Given (token : string)
  | Mint_Github (url request_token audience : string)
  | Mint_Stored (resource : option string)
  | Mint_ClientCredentials (issuer client_id client_secret : string) (resource : option string).

Record GithubActions := mkGithubActions {
  ga_url : string;
  ga_request_token : string;
}.

Definition github_from_vars (url request_token : option string) : option GithubActions :=
  url ← url; request_token ← request_token; Some (mkGithubActions url request_token).

Inductive CredentialKind :=
  | Kind_ClientSecret (path : string)
  | Kind_GithubActions (github : GithubActions)
  | Kind_DeviceFlow.

Definition credential_kind (oidc : OidcSettings) (github : option GithubActions) : CredentialKind :=
  match os_client_secret_file oidc, github with
  | Some path, _ => Kind_ClientSecret path
  | None, Some github => Kind_GithubActions github
  | None, None => Kind_DeviceFlow
  end.

(** [TokenSource::select]; [secret] reads a file. *)
Definition mint_select (oidc : OidcSettings) (given : option string) (kind : CredentialKind)
    (secret : string → Result string string) : Result Mint string :=
  match given, kind with
  | Some token, _ => Ok (Mint_Given token)
  | None, Kind_ClientSecret path =>
      let? issuer := ok_or (os_issuer oidc) "`oidc.issuer` is required to use client credentials (`oidc.client_secret_file`)" in
      let? client_id := ok_or (os_client_id oidc) "`oidc.client_id` is required with `oidc.client_secret_file`" in
      let? client_secret := read_client_secret path (secret path) in
      Ok (Mint_ClientCredentials issuer client_id client_secret (os_resource oidc))
  | None, Kind_GithubActions github =>
      Ok (Mint_Github (ga_url github) (ga_request_token github) (os_audience oidc))
  | None, Kind_DeviceFlow => Ok (Mint_Stored (os_resource oidc))
  end.

Record Held := mkHeld {
  he_token : string;
  he_minted : Z;
  he_max_age : option Z;
}.

Section source.
Context `{L : ClientLibs, U : UrlParser, J : TokenLibs} (mint : Mint).

Definition mint_token : Minting (Result string string) :=
  match mint with
  | Mint_Given token => Ret (Ok token)
  | Mint_Github url request_token audience => github_token url request_token audience
  | Mint_Stored resource =>
      do? text <- request Token_ReadFile;
      do? text <- Ret (ok_or text "not logged in — run `garret login`");
      do? stored <- Ret (map_err (λ e, "the token file is corrupt — run `garret login` to replace it: " +:+ e)
                          (stored_token_from_json text));
      refresh stored resource
  | Mint_ClientCredentials issuer client_id client_secret resource =>
      client_credentials issuer client_id client_secret resource
  end.

(** The token, and what is held after. *)
Definition mint_into (held : option Held) : Minting (Result string string * option Held) :=
  do token <- mint_token;
  match token with
  | Err e => Ret (Err e, held)
  | Ok token =>
      do now <- request Token_Now;
      Ret (Ok token, Some (mkHeld token now (declared_max_age token)))
  end.

Definition token_get (held : option Held) : Minting (Result string string * option Held) :=
  match held with
  | None => mint_into held
  | Some current =>
      match he_max_age current with
      | None => Ret (Ok (he_token current), held)
      | Some max =>
          do now <- request Token_Now;
          if (now - he_minted current <? max)%Z then Ret (Ok (he_token current), held) else mint_into held
      end
  end.

Definition token_renew (rejected : string) (held : option Held) : Minting (Result (option string) string * option Held) :=
  match mint with
  | Mint_Given _ => Ret (Ok None, held)
  | _ =>
      let mint_again :=
        do minted <- mint_into held; Ret (let? token := minted.1 in Ok (Some token), minted.2) in
      match held with
      | Some current =>
          if bool_decide (he_token current ≠ rejected) then Ret (Ok (Some (he_token current)), held) else mint_again
      | None => mint_again
      end
  end.
End source.

(** ** Credentials go to checked places only *)

(** [tr] fetched the issuer's discovery document, and it names [endpoint]. *)
Definition advertised `{L : ClientLibs, J : TokenLibs} (issuer : string) (tr : list (Event TokenOp)) (endpoint : string) : Prop :=
  ∃ answer raw,
    In (Ev (Token_Get (discovery_url issuer)) (Ok answer)) tr ∧
    parsed answer ("OIDC discovery at " +:+ discovery_url issuer) endpoints_from_json = Ok raw ∧
    (endpoint = ep_token_endpoint raw ∨ ep_device_authorization_endpoint raw = Some endpoint).

(** A request to an issuer goes to its discovery document or to a checked
    endpoint which that document, fetched in the same run, names. *)
Definition goes_to `{L : ClientLibs, U : UrlParser, J : TokenLibs} (issuer : string) (tr : list (Event TokenOp))
    (e : Event TokenOp) : Prop :=
  match e with
  | Ev op _ =>
      match op with
      | Token_Get url => url_ok issuer ∧ url = discovery_url issuer
      | Token_Post endpoint _ => url_ok issuer ∧ url_ok endpoint ∧ advertised issuer tr endpoint
      | Token_Github _ _ _ => False
      | _ => True
      end
  end.

Section destinations.
Context `{L : ClientLibs, U : UrlParser, J : TokenLibs}.

Lemma endpoints_checked_ok raw endpoints :
  endpoints_checked raw = Ok endpoints →
  endpoints = raw ∧ url_ok (ep_token_endpoint raw) ∧ ∀ device, ep_device_authorization_endpoint raw = Some device → url_ok device.
Proof.
  unfold endpoints_checked. rewrite !then_ok, check_url_ok.
  rewrite (check_some_ok (check_url _) url_ok) by apply check_url_ok. intros (? & ? & [= <-]). done.
Qed.

(** What may follow the fetch of the discovery document. *)
Definition posts_to (ok : string → Prop) (e : Event TokenOp) : Prop :=
  match e with
  | Ev op _ =>
      match op with
      | Token_Get _ | Token_Github _ _ _ => False
      | Token_Post endpoint _ => ok endpoint
      | _ => True
      end
  end.

(** The endpoints of a checked discovery document. *)
Definition named_by (endpoints : Endpoints) (url : string) : Prop :=
  url_ok url ∧ (url = ep_token_endpoint endpoints ∨ ep_device_authorization_endpoint endpoints = Some url).

Lemma discover_bind {A} issuer (f : Result Endpoints string → Minting A) tr r :
  run_trace (do endpoints <- discover issuer; f endpoints) tr r →
  (∀ e tr, run_trace (f (Err e)) tr r → tr = []) →
  (∀ endpoints tr, run_trace (f (Ok endpoints)) tr r →
    url_ok (ep_token_endpoint endpoints) →
    (∀ device, ep_device_authorization_endpoint endpoints = Some device → url_ok device) →
    Forall (posts_to (named_by endpoints)) tr) →
  Forall (goes_to issuer tr) tr.
Proof.
  unfold discover. intros (endpoints & tr1 & tr2 & -> & Hd & Hf)%run_trace_bind Herr Hok.
  cbn [prog_bind] in Hd. destruct (check_url _ issuer) as [[]|e] eqn:Hc.
  2: { apply run_trace_ret in Hd as [-> ->]. by rewrite (Herr _ _ Hf). }
  apply check_url_ok in Hc. apply run_trace_request_bind in Hd as (answer & tr' & -> & Hd).
  destruct answer as [answer|e]; apply run_trace_ret in Hd as [-> ->].
  - destruct (parsed _ _ _) as [raw|e] eqn:Hraw; cbn in Hf.
    2: { rewrite (Herr _ _ Hf). by apply Forall_cons. }
    destruct (endpoints_checked raw) as [endpoints|e] eqn:He.
    2: { rewrite (Herr _ _ Hf). by apply Forall_cons. }
    apply endpoints_checked_ok in He as (-> & Ht & Hd). apply Forall_cons. split; [done|].
    cbn [app]. eapply Forall_impl; [exact (Hok _ _ Hf Ht Hd)|].
    intros [B op b] He. destruct op; try done. destruct He as [Hu Hn]. split_and!; [done|done|].
    exists answer, raw. split_and!; [by left|done|done].
  - rewrite (Herr _ _ Hf). by apply Forall_cons.
Qed.

(** *** Programs that only post to some endpoints *)

Definition only_posts {A} (ok : string → Prop) (p : Minting A) : Prop :=
  ∀ tr r, run_trace p tr r → Forall (posts_to ok) tr.

Lemma only_posts_ret {A} ok (a : A) : only_posts ok (Ret a).
Proof. by intros tr r [-> _]%run_trace_ret. Qed.
Lemma only_posts_bind {A B} ok (p : Minting A) (f : A → Minting B) :
  only_posts ok p → (∀ a, only_posts ok (f a)) → only_posts ok (prog_bind p f).
Proof. intros Hp Hf tr r (a & tr1 & tr2 & -> & H1 & H2)%run_trace_bind. apply Forall_app. split; [by eapply Hp|by eapply Hf]. Qed.
Lemma only_posts_request {B} ok (op : TokenOp B) :
  (∀ b, posts_to ok (Ev op b)) → only_posts ok (request op).
Proof. intros H tr r ->%run_trace_request. by repeat constructor. Qed.

Lemma post_form_posts ok endpoint form resource : ok endpoint → only_posts ok (post_form endpoint form resource).
Proof. intros H. by apply only_posts_request. Qed.
Lemma store_posts ok token issuer client_id : only_posts ok (store_refresh_token token issuer client_id).
Proof.
  destruct token as [token|]; [|apply only_posts_ret]. apply only_posts_bind; [by apply only_posts_request|].
  intros []; apply only_posts_ret.
Qed.

Lemma device_poll_posts (ok : string → Prop) fuel endpoint issuer client_id code resource interval :
  ok endpoint → only_posts ok (device_poll fuel endpoint issuer client_id code resource interval).
Proof.
  intros Ho. revert interval. induction fuel as [|fuel IH]; intros interval; cbn [device_poll]; [apply only_posts_ret|].
  apply only_posts_bind; [by apply only_posts_request|]. intros _.
  apply only_posts_bind; [by apply post_form_posts|]. intros answer.
  destruct (let? answer := answer in poll_response answer) as [response|e]; [|apply only_posts_ret].
  destruct (poll_verdict response); [apply IH|apply only_posts_ret|].
  apply only_posts_bind; [apply store_posts|]. intros. apply only_posts_ret.
Qed.

Lemma device_login_goes fuel issuer client_id resource tr r :
  run_trace (device_login fuel issuer client_id resource) tr r → Forall (goes_to issuer tr) tr.
Proof.
  intros H. eapply discover_bind; [exact H|..]; clear.
  - by intros e tr [-> _]%run_trace_ret.
  - intros endpoints tr H Ht Hd. revert tr r H. cbn beta iota.
    destruct (ep_device_authorization_endpoint endpoints) as [device|] eqn:Hdev; cbn [ok_or]; [|apply only_posts_ret].
    apply only_posts_bind; [apply post_form_posts; split; auto|]. intros answer.
    destruct (let? answer := answer in parsed answer _ _) as [grant|e]; [|apply only_posts_ret].
    apply device_poll_posts. split; auto.
Qed.

Lemma refresh_goes stored resource tr r :
  run_trace (refresh stored resource) tr r → Forall (goes_to (st_issuer stored) tr) tr.
Proof.
  intros H. eapply discover_bind; [exact H|..]; clear.
  - by intros e tr [-> _]%run_trace_ret.
  - intros endpoints tr H Ht Hd. revert tr r H. cbn beta iota.
    apply only_posts_bind; [apply post_form_posts; split; auto|]. intros [answer|e]; [|apply only_posts_ret].
    destruct (_ || _)%bool; [apply only_posts_ret|]. apply only_posts_bind; [apply only_posts_ret|].
    intros [response|e]; [|apply only_posts_ret]. apply only_posts_bind; [apply store_posts|].
    intros []; apply only_posts_ret.
Qed.

Lemma client_credentials_goes issuer client_id secret resource tr r :
  run_trace (client_credentials issuer client_id secret resource) tr r → Forall (goes_to issuer tr) tr.
Proof.
  intros H. eapply discover_bind; [exact H|..]; clear.
  - by intros e tr [-> _]%run_trace_ret.
  - intros endpoints tr H Ht Hd. revert tr r H. cbn beta iota.
    apply only_posts_bind; [apply post_form_posts; split; auto|]. intros [answer|e]; apply only_posts_ret.
Qed.
End destinations.

(** Who a run of the client talks to about its login. *)
Inductive Flow := Flow_Login (fuel : nat) (issuer client_id : string) (resource : option string) | Flow_Mint (mint : Mint).

Definition flow_run `{L : ClientLibs, U : UrlParser, J : TokenLibs} (flow : Flow) : Minting unit :=
  match flow with
  | Flow_Login fuel issuer client_id resource => do _ <- device_login fuel issuer client_id resource; Ret tt
  | Flow_Mint mint => do _ <- mint_token mint; Ret tt
  end.

(** The configured issuer, or the one in the token file as it was read. *)
Definition flow_issuer `{J : TokenLibs} (flow : Flow) (tr : list (Event TokenOp)) (issuer : string) : Prop :=
  match flow with
  | Flow_Login _ i _ _ | Flow_Mint (Mint_ClientCredentials i _ _ _) => issuer = i
  | Flow_Mint (Mint_Stored _) =>
      ∃ text stored, In (Ev Token_ReadFile (Ok (Some text))) tr ∧ stored_token_from_json text = Ok stored ∧
        issuer = st_issuer stored
  | Flow_Mint _ => False
  end.

(** The URL a request goes to. *)
Definition sent_to (e : Event TokenOp) : option string :=
  match e with
  | Ev op _ =>
      match op with
      | Token_Get url => Some url
      | Token_Post url _ => Some url
      | Token_Github url _ _ => Some url
      | _ => None
      end
  end.

Lemma goes_to_mono `{L : ClientLibs, U : UrlParser, J : TokenLibs} issuer tr tr' e :
  (∀ e, In e tr → In e tr') → goes_to issuer tr e → goes_to issuer tr' e.
Proof.
  intros Hin. destruct e as [B op b]. destruct op; try done. intros (? & ? & answer & raw & ? & ? & ?).
  split_and!; [done|done|]. exists answer, raw. auto.
Qed.

(** C16: Where the requests of every login and every mint go. A login with an issuer, a refresh and
    a client's own credentials send only to the discovery document of the issuer that was configured
    or read from the token file, and to endpoints which that document, fetched in the same run,
    names; the issuer and each endpoint are https or loopback URLs without characters that could end
    a setting. The one other request is a GitHub runner's: it goes, with the runner's own request
    token, to exactly the URL the runner's environment gave, which the client does not check, and
    only when that is the source of the token. (A redirect that the HTTP library follows is part of
    its request.) *)
Theorem credentials_go_to_checked_endpoints `{L : ClientLibs, U : UrlParser, J : TokenLibs} flow tr :
  run_trace (flow_run flow) tr tt →
  ∀ e, In e tr → is_Some (sent_to e) →
    (∃ issuer, flow_issuer flow tr issuer ∧ goes_to issuer tr e) ∨
    (∃ url request_token audience answer, flow = Flow_Mint (Mint_Github url request_token audience) ∧
       e = Ev (Token_Github url request_token audience) answer).
Proof.
  intros H e He Hs.
  assert (Hfound : ∀ issuer tr', Forall (goes_to issuer tr') tr' → In e tr' → (∀ e, In e tr' → In e tr) → goes_to issuer tr e).
  { intros issuer tr' Hall Hin Hsub. apply (goes_to_mono issuer tr'); [done|]. rewrite List.Forall_forall in Hall. auto. }
  destruct flow as [fuel i client_id resource|mint]; cbn [flow_run] in H.
  { apply run_trace_bind in H as (r & tr1 & tr2 & -> & H & [-> _]%run_trace_ret). rewrite app_nil_r in *.
    apply device_login_goes in H. left. exists i. split; [done|]. eauto. }
  apply run_trace_bind in H as (r & tr1 & tr2 & -> & H & [-> _]%run_trace_ret). rewrite app_nil_r in *.
  destruct mint as [token|url rt audience|resource|i client_id secret resource]; cbn [mint_token] in H.
  - by apply run_trace_ret in H as [-> _].
  - apply run_trace_request_bind in H as (b & tr' & -> & H). destruct He as [<-|He]; [right; by exists url, rt, audience, b|].
    by destruct b; apply run_trace_ret in H as [-> _].
  - apply run_trace_request_bind in H as (b & tr' & -> & H). destruct He as [<-|He]; [by destruct Hs|].
    destruct b as [[text|]|]; cbn [ok_or prog_bind] in H; try by apply run_trace_ret in H as [-> _].
    destruct (stored_token_from_json text) as [stored|e'] eqn:Hj; cbn [map_err] in H; [|by apply run_trace_ret in H as [-> _]].
    apply refresh_goes in H. left. exists (st_issuer stored). split; [|eapply Hfound; [done..|by right]].
    exists text, stored. split_and!; [by left|done|done].
  - apply client_credentials_goes in H. left. exists i. split; [done|]. eauto.
Qed.

(** ** Refresh tokens rotate

    An issuer that hands out a new refresh token with each grant and takes none
    but the newest, and the token file. Its answer to a grant may be lost on
    the way, after it has replaced the token; it may also fail without granting.
    One process at a time uses the file. *)
Record LoginWorld := mkLoginWorld {
  lw_current : string;      (* the refresh token the issuer takes *)
  lw_file : option string;
  lw_pending : bool;        (* the last request was a grant, and its new token is not written yet *)
  lw_mishap : bool;         (* an answer that granted was lost, or a write of the file failed *)
  lw_stale : bool;          (* a refresh token was presented that the issuer no longer takes *)
}.

(** Any request but a grant. *)
Definition settled (w : LoginWorld) : LoginWorld :=
  mkLoginWorld (lw_current w) (lw_file w) false (lw_mishap w) (lw_stale w).

(** The value of a form's field. *)
Fixpoint form_field (name : string) (form : Form) : option string :=
  match form with
  | [] => None
  | (n, v) :: form => if bool_decide (n = name) then Some v else form_field name form
  end.

Section rotation.
Context `{L : ClientLibs, U : UrlParser, J : TokenLibs}.

(** The newest token after a grant. *)
Definition rotated (current : string) (answer : TokenResponse) : string := default current (tr_refresh_token answer).

(** A success that can be read: the client has all that the issuer granted. *)
Definition granted (answer : Result Answer string) (response : TokenResponse) : Prop :=
  ∃ a text, answer = Ok a ∧ is_success (an_status a) = true ∧ an_body a = Ok text ∧
    token_response_from_json text = Ok response.

(** The answer to a presented refresh token: a grant; a grant whose answer is
    lost, be it a time-out, a dropped connection, a gateway's error or a body
    that breaks off; or no grant. *)
Definition grant_step (presented : string) (w : LoginWorld) (answer : Result Answer string) (w' : LoginWorld) : Prop :=
  if bool_decide (presented = lw_current w) then
    (∃ response, granted answer response ∧
       w' = mkLoginWorld (rotated (lw_current w) response) (lw_file w) (bool_decide (is_Some (tr_refresh_token response)))
              (lw_mishap w) (lw_stale w)) ∨
    (∀ response, ¬ granted answer response) ∧
      ((∃ next, w' = mkLoginWorld next (lw_file w) false true (lw_stale w)) ∨ w' = settled w)
  else (∀ response, ¬ granted answer response) ∧
    w' = mkLoginWorld (lw_current w) (lw_file w) false (lw_mishap w) true.

Definition login_step (w : LoginWorld) {B} (op : TokenOp B) : B → LoginWorld → Prop :=
  match op in TokenOp B return B → LoginWorld → Prop with
  | Token_Post _ form => λ answer w',
      match form_field "refresh_token" form with
      | Some presented => grant_step presented w answer w'
      | None => w' = settled w
      end
  | Token_ReadFile => λ text w', w' = settled w ∧ match text with Ok text => text = lw_file w | Err _ => True end
  | Token_SaveFile text => λ r w',
      match r with
      | Ok _ => w' = mkLoginWorld (lw_current w) (Some text) false (lw_mishap w) (lw_stale w)
      | Err _ => w' = mkLoginWorld (lw_current w) (lw_file w) false true (lw_stale w)
      end
  | Token_Now => λ _ w', w' = settled w
  | Token_Sleep _ => λ _ w', w' = settled w
  | Token_Get _ => λ _ w', w' = settled w
  | Token_Github _ _ _ => λ _ w', w' = settled w
  end.

(** What the process asks of its token source; a restart forgets the held token. *)
Inductive TokenCall := Call_Get | Call_Renew (rejected : string) | Call_Restart.

Fixpoint token_calls (mint : Mint) (calls : list TokenCall) (held : option Held) : Minting (option Held) :=
  match calls with
  | [] => Ret held
  | Call_Get :: calls => do got <- token_get mint held; token_calls mint calls got.2
  | Call_Renew rejected :: calls => do got <- token_renew mint rejected held; token_calls mint calls got.2
  | Call_Restart :: calls => token_calls mint calls None
  end.

(** The file holds the newest refresh token. *)
Definition login_current (w : LoginWorld) : Prop :=
  ∃ stored, lw_file w = Some (stored_token_to_json stored) ∧ st_refresh_token stored = lw_current w.

(** The login still works: the file holds the newest token and no other was
    ever presented; unless a mishap befell it. *)
Definition kept (w : LoginWorld) : Prop := lw_mishap w = true ∨ login_current w ∧ lw_stale w = false.

(** What holds wherever a run may be cut off: the login is kept, or a grant was
    answered just now and its token is the next thing to be written. *)
Definition kept_or_pending (w : LoginWorld) : Prop := kept w ∨ lw_pending w = true.

Definition keeps_login {A} (p : Minting A) : Prop :=
  ∀ w, kept w → always (@login_step) kept_or_pending p w (λ _ w', kept w').

Lemma keeps_login_ret {A} (a : A) : keeps_login (Ret a).
Proof. intros w Hw. apply always_ret; [by left|done]. Qed.

Lemma keeps_login_bind {A B} (p : Minting A) (f : A → Minting B) :
  keeps_login p → (∀ a, keeps_login (f a)) → keeps_login (prog_bind p f).
Proof.
  intros Hp Hf w Hw. apply always_bind. eapply always_weaken; [by apply Hp|done|]. intros a w' _ Hw'. by apply Hf.
Qed.

Lemma keeps_login_request {A B} (op : TokenOp B) (f : B → Minting A) :
  (∀ w b w', login_step w op b w' → w' = settled w) → (∀ b, keeps_login (f b)) →
  keeps_login (do b <- request op; f b).
Proof. intros Hop Hf w Hw. apply always_request; [by left|]. intros b w' ->%Hop. by apply Hf. Qed.

(** A mishap stays one. *)
Lemma mishap_always {A} (p : Minting A) w :
  lw_mishap w = true → always (@login_step) kept_or_pending p w (λ _ w', kept w').
Proof.
  revert w. induction p as [a|B op k IH]; intros w Hm; (split; [by left; left|]); [by left|]. intros b w' Hs. apply IH.
  destruct op as [|seconds|url|endpoint form|url request_token audience| |text]; cbn in Hs; try by subst w'.
  - destruct (form_field _ form) as [presented|]; [|by subst w']. unfold grant_step in Hs. case_bool_decide.
    + by destruct Hs as [(response & _ & ->)|(_ & [[next ->]| ->])].
    + by destruct Hs as [_ ->].
  - by destruct Hs as [-> _].
  - by destruct b; subst w'.
Qed.
End rotation.

(** Reading back what was written to the token file. *)
Definition TokenLaws (J : TokenLibs) : Prop := ∀ stored, stored_token_from_json (stored_token_to_json stored) = Ok stored.

Section rotation_proof.
Context `{L : ClientLibs, U : UrlParser, J : TokenLibs} (HJ : TokenLaws J).

Lemma parsed_granted answer what response :
  parsed answer what token_response_from_json = Ok response → granted (Ok answer) response.
Proof.
  unfold parsed, ensure_success. destruct (is_success (an_status answer)) eqn:Hs; cbn; [|by case_bool_decide].
  destruct (an_body answer) as [text|] eqn:Hb; [|by intros [=]]. intros Hp. by exists answer, text.
Qed.

(** What a refresh does with the answer to its grant. *)
Definition refreshed (stored : StoredToken) (answer : Result Answer string) : Minting (Result string string) :=
  match answer with
  | Err e => Ret (Err e)
  | Ok answer =>
      if ((an_status answer =? 400) || (an_status answer =? 401))%Z
      then Ret (Err ("stored login expired or revoked; run `garret login` (" +:+ error_detail answer +:+ ")"))
      else
        do? response <- Ret (parsed answer "refreshing the stored token" token_response_from_json);
        do? _ <- store_refresh_token (tr_refresh_token response) (st_issuer stored) (st_client_id stored);
        Ret (ok_or (tr_access_token response) missing_token)
  end.

(** An answer that grants nothing readable ends the refresh with no request more. *)
Lemma refreshed_nothing stored answer :
  (∀ response, ¬ granted answer response) → ∃ e, refreshed stored answer = Ret (Err e).
Proof.
  intros Hn. destruct answer as [a|e]; cbn; [|eauto]. destruct (_ || _)%bool; [eauto|].
  destruct (parsed _ _ _) as [response|e] eqn:Hp; cbn; [|eauto]. by apply parsed_granted, Hn in Hp.
Qed.

(** A readable grant is written to the file before anything else. *)
Lemma refreshed_granted stored answer response :
  granted answer response →
  refreshed stored answer =
    (do? _ <- store_refresh_token (tr_refresh_token response) (st_issuer stored) (st_client_id stored);
     Ret (ok_or (tr_access_token response) missing_token)).
Proof.
  intros (a & text & -> & Hs & Hb & Ht). cbn. unfold parsed, ensure_success. rewrite Hs, Hb. cbn. rewrite Ht.
  unfold is_success in Hs. by rewrite (proj2 (Z.eqb_neq _ 400)), (proj2 (Z.eqb_neq _ 401)) by lia.
Qed.

(** From the file's own token, a refresh keeps the login. *)
Lemma refresh_keeps stored resource w :
  lw_file w = Some (stored_token_to_json stored) → st_refresh_token stored = lw_current w → lw_stale w = false →
  always (@login_step _) kept_or_pending (refresh stored resource) w (λ _ w', kept w').
Proof.
  intros Hf Hc Hst. assert (Hk : ∀ pending, kept (mkLoginWorld (lw_current w) (lw_file w) pending (lw_mishap w) (lw_stale w))).
  { intros pending. right. split; [by exists stored|done]. }
  assert (Hw : kept w) by (destruct w; apply Hk).
  unfold refresh, discover. destruct (check_url _ _) as [[]|e]; cbn [prog_bind]; [|by apply always_ret; [left|]].
  apply always_request; [by left|]. intros [discovered|e] w1 ->; [|by apply always_ret; [left|]; apply Hk].
  cbn [prog_bind]. destruct (let? raw := _ in endpoints_checked raw) as [endpoints|e]; [|by apply always_ret; [left|]; apply Hk].
  change (always (@login_step _) kept_or_pending
    (do answer <- post_form (ep_token_endpoint endpoints) [("client_id", st_client_id stored); ("refresh_token", st_refresh_token stored);
       ("grant_type", "refresh_token")] resource; refreshed stored answer) (settled w) (λ _ w', kept w')).
  apply always_request; [left; apply Hk|]. intros answer w2 Hg.
  change (grant_step (st_refresh_token stored) (settled w) answer w2) in Hg. unfold grant_step in Hg. rewrite bool_decide_true in Hg by done.
  destruct Hg as [(response & Hg & ->)|(Hn & Hw2)].
  2: { destruct (refreshed_nothing stored _ Hn) as [e ->].
       destruct Hw2 as [[next ->]| ->]; (apply always_ret; [left|]); first [by left|apply Hk]. }
  rewrite (refreshed_granted _ _ _ Hg). unfold store_refresh_token, rotated.
  destruct (tr_refresh_token response) as [new|] eqn:Hnew; cbn [prog_bind default].
  - apply always_request; [by right|]. intros [[]|e] w3 ->; (apply always_ret; [left|]); try by left.
    all: right; split; [by exists (mkStoredToken new (st_issuer stored) (st_client_id stored))|done].
  - apply always_ret; [left|]; apply Hk.
Qed.

Lemma mint_stored_keeps resource : keeps_login (mint_token (Mint_Stored resource)).
Proof.
  intros w [Hm|[Hcur Hst]]; [by apply mishap_always|]. pose proof Hcur as (stored & Hf & Hc).
  assert (Hk : kept w) by (by right). assert (Hk1 : kept (settled w)) by (by right).
  cbn [mint_token]. apply always_request; [by left|]. intros text w1 [-> Ht].
  destruct text as [text|e]; [|by apply always_ret; [left|]]. subst text. rewrite Hf. cbn [ok_or prog_bind]. rewrite HJ.
  cbn [map_err prog_bind]. by apply refresh_keeps.
Qed.

Lemma mint_into_keeps resource held : keeps_login (mint_into (Mint_Stored resource) held).
Proof.
  apply keeps_login_bind; [apply mint_stored_keeps|]. intros [token|e]; [|apply keeps_login_ret].
  apply keeps_login_request; [done|]. intros now. apply keeps_login_ret.
Qed.

(** C15: A login is never locked out by its own client. Against an issuer that replaces the refresh
    token at each grant and refuses all but the newest, and that may also lose the answer of a grant
    on the way or fail without granting, one process at a time, whatever gets, renewals and restarts
    it makes, keeps the newest refresh token in the token file and never presents a replaced one: at
    the end of every run, and wherever a run is cut off, but for the one gap between a grant's
    answer and the write of the file that follows it at once. The exceptions are what no client can
    mend: an answer that granted and never arrived whole, and a write of the file that failed; the
    theorem says nothing of a login after one of these. *)
Theorem refreshes_keep_the_login resource calls held w :
  kept w →
  always (@login_step _) kept_or_pending (token_calls (Mint_Stored resource) calls held) w (λ _ w', kept w').
Proof.
  revert w. change (keeps_login (token_calls (Mint_Stored resource) calls held)).
  revert held. induction calls as [|[|rejected|] calls IH]; intros held; cbn [token_calls]; [apply keeps_login_ret|..|apply IH].
  - apply keeps_login_bind; [|intros; apply IH]. unfold token_get. destruct held as [h|]; [|apply mint_into_keeps].
    destruct (he_max_age h); [|apply keeps_login_ret]. apply keeps_login_request; [done|]. intros now.
    destruct (_ <? _)%Z; [apply keeps_login_ret|apply mint_into_keeps].
  - apply keeps_login_bind; [|intros; apply IH]. unfold token_renew.
    assert (Hm : keeps_login (do minted <- mint_into (Mint_Stored resource) held;
      Ret (let? token := minted.1 in Ok (Some token), minted.2) : Minting (Result (option string) string * option Held))).
    { apply keeps_login_bind; [apply mint_into_keeps|]. intros. apply keeps_login_ret. }
    destruct held as [h|]; [|done]. destruct (bool_decide _); [apply keeps_login_ret|done].
Qed.
End rotation_proof.

(** *** What the source answers *)

Section answers.
Context `{L : ClientLibs, U : UrlParser, J : TokenLibs} (mint : Mint).

(** [tr] minted [token], and [held'] is it, dated by the clock after. *)
Definition minted_in (tr : list (Event TokenOp)) (token : string) (held' : option Held) : Prop :=
  ∃ minting now, tr = minting ++ [Ev Token_Now now] ∧ run_trace (mint_token mint) minting (Ok token) ∧
    held' = Some (mkHeld token now (declared_max_age token)).

Lemma mint_into_trace held tr r held' :
  run_trace (mint_into mint held) tr (r, held') →
  match r with
  | Ok token => minted_in tr token held'
  | Err e => run_trace (mint_token mint) tr (Err e) ∧ held' = held
  end.
Proof.
  unfold mint_into. intros (token & tr1 & tr2 & -> & Hm & H)%run_trace_bind. destruct token as [token|e].
  - apply run_trace_request_bind in H as (now & tr3 & -> & [-> [= -> ->]]%run_trace_ret). by exists tr1, now.
  - apply run_trace_ret in H as [-> [= -> ->]]. by rewrite app_nil_r.
Qed.

(** The held token, if it may still be sent at [now]. *)
Definition fresh_at (now : Z) (h : Held) : Prop := ∀ max, he_max_age h = Some max → (now - he_minted h < max)%Z.

(** The token a get or a renewal answers is the held one, if it is still fresh or another request
    already replaced the rejected one, or else one just minted, held from then on. *)
Theorem token_source_answers call held tr token held' :
  match call with
  | Call_Get => run_trace (token_get mint held) tr (Ok token, held')
  | Call_Renew rejected => run_trace (token_renew mint rejected held) tr (Ok (Some token), held')
  | Call_Restart => False
  end →
  (∃ h, held = Some h ∧ held' = held ∧ he_token h = token ∧
     match call with
     | Call_Renew rejected => tr = [] ∧ token ≠ rejected
     | _ => he_max_age h = None ∧ tr = [] ∨ ∃ now, tr = [Ev Token_Now now] ∧ fresh_at now h
     end) ∨
  (∃ looked minted, tr = looked ++ minted ∧ minted_in minted token held' ∧
     match held, call with
     | Some h, Call_Renew rejected => looked = [] ∧ he_token h = rejected
     | Some h, _ => ∃ now, looked = [Ev Token_Now now] ∧ ¬ fresh_at now h
     | None, _ => looked = []
     end).
Proof.
  assert (Hmint : ∀ tr, run_trace (do minted <- mint_into mint held; Ret (let? token := minted.1 in Ok (Some token), minted.2)) tr
    (Ok (Some token), held') → minted_in tr token held').
  { intros tr' ([r held1] & tr1 & tr2 & -> & H & [-> Hr]%run_trace_ret)%run_trace_bind. rewrite app_nil_r.
    apply mint_into_trace in H. destruct r; [|done]. by injection Hr as <- <-. }
  destruct call as [|rejected|]; [| |done]; intros H.
  - destruct held as [h|]; cbn [token_get] in H; [|by right; exists [], tr; apply mint_into_trace in H].
    destruct (he_max_age h) as [max|] eqn:Hmax.
    2: { apply run_trace_ret in H as [-> [= -> ->]]. left. exists h. split_and!; [done..|by left]. }
    apply run_trace_request_bind in H as (now & tr' & -> & H). destruct (Z.ltb_spec (now - he_minted h) max).
    + apply run_trace_ret in H as [-> [= -> ->]]. left. exists h. split_and!; [done..|]. right. exists now. split; [done|].
      intros ?. rewrite Hmax. by intros [= <-].
    + right. exists [Ev Token_Now now], tr'. split_and!; [done|by apply mint_into_trace in H|].
      exists now. split; [done|]. intros Hf. specialize (Hf _ Hmax). lia.
  - unfold token_renew in H. destruct mint as [given| | |] eqn:Hm; [by apply run_trace_ret in H as [_ [= ]]|..]; rewrite <-Hm in *;
      (destruct held as [h|]; [case_bool_decide as Hrej|]);
      try (apply run_trace_ret in H as [-> [= -> ->]]; left; by exists h);
      right; exists [], tr; (split; [done|]; split; [by apply Hmint|]); try done;
      (split; [done|by apply dec_stable]).
Qed.
End answers.

(** ** A concrete client *)

(** A toy format of the token file: each character behind a mark, each field
    behind a stop. *)
Fixpoint toy_field (s rest : string) : string :=
  match s with
  | "" => String "." rest
  | String c s => String "x" (String c (toy_field s rest))
  end.
Fixpoint toy_field_read (s : string) : option (string * string) :=
  match s with
  | String m s =>
      if bool_decide (m = "."%char) then Some ("", s)
      else
        match s with
        | String c s => field ← toy_field_read s; Some (String c field.1, field.2)
        | "" => None
        end
  | "" => None
  end.

Lemma toy_field_roundtrip s rest : toy_field_read (toy_field s rest) = Some (s, rest).
Proof. induction s as [|c s IH]; [done|]. cbn [toy_field toy_field_read]. case_bool_decide; [done|]. by rewrite IH. Qed.

Definition toy_stored_text (t : StoredToken) : string :=
  toy_field (st_refresh_token t) (toy_field (st_issuer t) (toy_field (st_client_id t) "")).
Definition toy_stored_read (s : string) : option StoredToken :=
  token ← toy_field_read s; issuer ← toy_field_read token.2; id ← toy_field_read issuer.2;
  Some (mkStoredToken token.1 issuer.1 id.1).

(** A grant's answer is the access token and the new refresh token. *)
Definition toy_token : TokenLibs := {|
  b64url_decode s := Some [];
  claims_from_json _ := Some (mkTokenClaims None (Some 1300%Z) (Some 1000%Z));
  endpoints_from_json s := Ok (mkEndpoints (Some (s +:+ "/device")) (s +:+ "/token"));
  device_grant_from_json s := Ok (mkDeviceGrant s "code" "https://id.example/activate" None 5);
  token_response_from_json s := Ok (mkTokenResponse (Some ("access." +:+ s)) (Some s) None None);
  github_token_from_json s := Ok s;
  stored_token_from_json s := ok_or (toy_stored_read s) "corrupt";
  stored_token_to_json := toy_stored_text;
|}.

Lemma toy_token_laws : TokenLaws toy_token.
Proof.
  intros [token issuer id]. cbn. unfold toy_stored_read, toy_stored_text. cbn.
  by do 3 (rewrite toy_field_roundtrip; cbn).
Qed.

(** An issuer that marks the newest token with a prime at each grant. *)
Definition example_issuer (w : LoginWorld) {B} (op : TokenOp B) : B * LoginWorld :=
  match op in TokenOp B return B * LoginWorld with
  | Token_Now => (0%Z, settled w)
  | Token_Sleep _ => (tt, settled w)
  | Token_Get _ => (Ok (mkAnswer 200 None (Ok "https://id.example")), settled w)
  | Token_Post _ form =>
      match form_field "refresh_token" form with
      | Some presented =>
          if bool_decide (presented = lw_current w)
          then let next := lw_current w +:+ "'" in
               (Ok (mkAnswer 200 None (Ok next)), mkLoginWorld next (lw_file w) true (lw_mishap w) (lw_stale w))
          else (Ok (mkAnswer 400 None (Ok "invalid_grant")), mkLoginWorld (lw_current w) (lw_file w) false (lw_mishap w) true)
      | None => (Err "unsupported grant", settled w)
      end
  | Token_Github _ _ _ => (Err "not a runner", settled w)
  | Token_ReadFile => (Ok (lw_file w), settled w)
  | Token_SaveFile text => (Ok tt, mkLoginWorld (lw_current w) (Some text) false (lw_mishap w) (lw_stale w))
  end.

Lemma example_issuer_step w B (op : TokenOp B) :
  login_step (J := toy_token) w op (example_issuer w op).1 (example_issuer w op).2.
Proof.
  destruct op; cbn; try done. destruct (form_field _ _) as [presented|]; [|done]. unfold grant_step.
  case_bool_decide; cbn; [left|].
  - exists (mkTokenResponse (Some ("access." +:+ (lw_current w +:+ "'"))) (Some (lw_current w +:+ "'")) None None).
    split; [|done]. by exists (mkAnswer 200 None (Ok (lw_current w +:+ "'"))), (lw_current w +:+ "'").
  - split; [|done]. by intros response (a & text & [= <-] & Ha & _).
Qed.

Definition example_login : StoredToken := mkStoredToken "r" "https://id.example" "laptop".
Definition example_login_world : LoginWorld := mkLoginWorld "r" (Some (toy_stored_text example_login)) false false false.

(** A [get], a renewal, a second report of the same 401, a restart, a [get]. *)
Definition example_calls : list TokenCall :=
  [Call_Get; Call_Renew "access.r'"; Call_Renew "access.r'"; Call_Restart; Call_Get].
Definition example_token_run : list (Event TokenOp) * LoginWorld * option Held :=
  prog_exec (@example_issuer) example_login_world
    (token_calls (L := toy_client) (U := toy_url) (J := toy_token) (Mint_Stored None) example_calls None).

Lemma refreshes_keep_the_login_witness :
  lw_current example_token_run.1.2 = "r'''" ∧ lw_mishap example_token_run.1.2 = false ∧
  kept (J := toy_token) example_token_run.1.2.
Proof.
  split; [vm_compute; reflexivity|]. split; [vm_compute; reflexivity|].
  assert (H : kept (J := toy_token) example_login_world) by (right; split; [by exists example_login|done]).
  apply (always_runs _ _ _ _ _ _ _ _
    (refreshes_keep_the_login (L := toy_client) (U := toy_url) (J := toy_token) toy_token_laws None example_calls None example_login_world H)
    (prog_exec_runs _ _ _ _ example_issuer_step)).
Defined.

(** A mint from the token file: its requests, and where they went. *)
Definition example_flow : Flow := Flow_Mint (Mint_Stored None).
Definition example_flow_run : list (Event TokenOp) * LoginWorld * unit :=
  prog_exec (@example_issuer) example_login_world (flow_run (L := toy_client) (U := toy_url) (J := toy_token) example_flow).

Lemma credentials_go_to_checked_endpoints_witness :
  omap sent_to example_flow_run.1.1 = ["https://id.example/.well-known/openid-configuration"; "https://id.example/token"] ∧
  Forall (λ e, is_Some (sent_to e) →
    (∃ issuer, flow_issuer (J := toy_token) example_flow example_flow_run.1.1 issuer ∧
      goes_to (L := toy_client) (U := toy_url) (J := toy_token) issuer example_flow_run.1.1 e) ∨
    ∃ url request_token audience answer, example_flow = Flow_Mint (Mint_Github url request_token audience) ∧
      e = Ev (Token_Github url request_token audience) answer) example_flow_run.1.1.
Proof.
  split; [vm_compute; reflexivity|]. apply List.Forall_forall.
  apply (credentials_go_to_checked_endpoints (L := toy_client) (U := toy_url) (J := toy_token)).
  assert (Hr : example_flow_run.2 = tt) by (vm_compute; reflexivity). rewrite <-Hr.
  apply (prog_runs_trace _ _ _ _ _ _ (prog_exec_runs _ _ _ _ example_issuer_step)).
Defined.

Definition example_get_run (held : option Held) : list (Event TokenOp) * LoginWorld * (Result string string * option Held) :=
  prog_exec (@example_issuer) example_login_world
    (token_get (L := toy_client) (U := toy_url) (J := toy_token) (Mint_Stored None) held).

Lemma token_source_answers_witness :
  (example_get_run None).2 = (Ok "access.r'", Some (mkHeld "access.r'" 0 (Some 240000%Z))) ∧
  ∃ looked minted, (example_get_run None).1.1 = looked ++ minted ∧
    minted_in (L := toy_client) (U := toy_url) (J := toy_token) (Mint_Stored None) minted "access.r'"
      (Some (mkHeld "access.r'" 0 (Some 240000%Z))) ∧ looked = [].
Proof.
  assert (Hr : (example_get_run None).2 = (Ok "access.r'", Some (mkHeld "access.r'" 0 (Some 240000%Z)))) by (vm_compute; reflexivity).
  split; [exact Hr|].
  destruct (token_source_answers (L := toy_client) (U := toy_url) (J := toy_token) (Mint_Stored None) Call_Get None
    (example_get_run None).1.1 "access.r'" (Some (mkHeld "access.r'" 0 (Some 240000%Z)))) as [(h & [=] & _)|H]; [|exact H].
  rewrite <-Hr. apply (prog_runs_trace _ _ _ _ _ _ (prog_exec_runs _ _ _ _ example_issuer_step)).
Defined.
