(* ===== verification/Doctor.v ===== *)
(** * Doctor: whether the pipeline from client to cache works

    [crates/garret-client/src/doctor.rs], with [discovery::fetch] and
    [Pusher::authenticate]. The checks run in layer order; each probe is a
    request, and the token source and Negotiation are those of Push. JSON and the
    reason phrase after a status code are left out of what is printed. *)

From stdpp Require Import pretty.
From S2P Require Import Prelude Text Net Common Prog Config Files Upload Push Settings Token.

Inductive Status := Pass | Fail_ | Skip.

Definition status_str (s : Status) : string := match s with Pass => "pass" | Fail_ => "fail" | Skip => "skip" end.

Record Check := mkCheck {
  ck_name : string;
  ck_status : Status;
  ck_detail : string;
}.

Definition pass (name detail : string) : Check := mkCheck name Pass detail.
Definition fail (name detail : string) : Check := mkCheck name Fail_ detail.
Definition skip (name : string) : Check := mkCheck name Skip "skipped: an earlier layer failed".

(** [format!("{:<n}")]. *)
Fixpoint pad (n : nat) (s : string) : string :=
  match n, s with
  | 0, _ => s
  | S n, String c s => String c (pad n s)
  | S n, EmptyString => String " " (pad n "")
  end.

Definition doctor_render (checks : list Check) : string :=
  str_join "" (map (λ c, writeln (pad 4 (status_str (ck_status c)) +:+ " " +:+ pad 9 (ck_name c) +:+ " " +:+ ck_detail c)) checks).

Definition ABSENT_HASH : string := "00000000000000000000000000000000".

(** ** Verdicts *)

Definition fix_hint (device_flow : bool) : string :=
  if device_flow then "re-run `garret login --force`" else "update the config to match the server".

Definition cache_info_ok (body : string) : bool := existsb (starts_with "StoreDir:") (text_lines body).

Definition keys_checked (cfg : ClientConfig) (device_flow : bool) : bool := device_flow || negb (is_nil (cc_public_keys cfg)).

(** A field of the configuration that is not what the server advertises. *)
Definition drifted (field : string) (configured : option string) (advertised : string) : list string :=
  if bool_decide (configured ≠ Some advertised)
  then [field +:+ " is " +:+ default "unset" configured +:+ ", server advertises " +:+ advertised]
  else [].

Definition drift (cfg : ClientConfig) (d : Discovery) (device_flow : bool) : list string :=
  match d_puller_endpoint d with
  | Some advertised => drifted "puller_endpoint" (cc_puller_endpoint cfg) advertised
  | None => []
  end ++
  match d_oidc d with
  | Some oidc =>
      if device_flow then
        drifted "oidc.issuer" (os_issuer (cc_oidc cfg)) (oi_issuer oidc) ++
        drifted "oidc.audience" (Some (os_audience (cc_oidc cfg))) (oi_audience oidc) ++
        match oi_client_id oidc with
        | Some client_id => drifted "oidc.client_id" (os_client_id (cc_oidc cfg)) client_id
        | None => []
        end
      else []
  | None => []
  end.

Definition keys_verdict (configured advertised : list string) : Status * string :=
  if is_nil configured then
    (Fail_, "no `public_keys` in the config — nix would reject every path as unsigned; " +:+ "re-run `garret login --force`")
  else
    let stale := filter (λ k, k ∉ advertised) configured in
    if negb (is_nil stale) then
      (Fail_, "configured key(s) the server no longer advertises: " +:+ str_join ", " stale +:+ " — re-run `garret login --force`")
    else
      match length (filter (λ k, k ∉ configured) advertised) with
      | 0 => (Pass, pretty (length configured) +:+ " configured public key(s), all advertised by the server")
      | n => (Pass, "configured keys match; the server also advertises " +:+ pretty n +:+
                " newer key(s) — re-run `garret login --force` to trust them")
      end.

(** ** Probes *)

Inductive DoctorOp : Type → Type :=
  | Doctor_Get (url : string) : DoctorOp (Result Answer string)
  | Doctor_Run {B} (op : RunOp B) : DoctorOp B.

Abbreviation Probe := (Prog DoctorOp).

(** serde_json's reader of the discovery document. *)
Class DiscoveryJson := discovery_from_json : string → Result Discovery string.

Section doctor.
Context `{L : ClientLibs, U : UrlParser, J : TokenLibs, D : DiscoveryJson}.

Definition discovery_answer (url : string) (answer : Answer) : Result Discovery string :=
  if (an_status answer =? 404)%Z || (an_status answer =? 401)%Z
  then Err (url +:+ " returned " +:+ pretty (an_status answer) +:+ " — this Pusher predates `garret login <url>`")
  else
    let? answer := ensure_success answer "discovery failed" in
    let? d := match an_body answer with
              | Ok text => map_err (λ e, "parsing the discovery document: " +:+ e) (discovery_from_json text)
              | Err _ => Err "parsing the discovery document"
              end in
    let? _ := map_err (λ e, "refusing the discovery document from " +:+ url +:+ ": " +:+ e) (check d) in
    Ok d.

Definition fetch (endpoint : string) : Probe (Result Discovery string) :=
  do? _ <- Ret (check_url "the Pusher URL" endpoint);
  let url := endpoint +:+ DISCOVERY in
  do? answer <- request (Doctor_Get url);
  Ret (discovery_answer url answer).

Definition neg_message (e : NegotiationError) : string :=
  match e with Refused detail => "negotiation rejected with 403 Forbidden: " +:+ detail | Neg_Other message => message end.

(** A token that cannot be read has no claims. *)
Definition claims_of (token : string) : Claims :=
  match peek_claims token with Ok claims => claims | Err _ => mkTokenClaims None None None end.

Definition authenticate (conn : Connection) : Run (Result Claims string) :=
  do token <- request Run_Token;
  match token with
  | Err e => Ret (Err ("no token: " +:+ e))
  | Ok _ =>
      do missing <- negotiate conn [];
      match missing with
      | Err e => Ret (Err (neg_message e))
      | Ok _ => do? token <- request Run_Token; Ret (Ok (claims_of token))
      end
  end.

Definition auth_check (conn : Connection) : Probe Check :=
  do claims <- prog_lift (@Doctor_Run) (authenticate conn);
  Ret (match claims with
       | Ok claims => pass "auth" ("the Pusher accepted the token (subject " +:+ default "unknown" (cl_sub claims) +:+ ")")
       | Err e => fail "auth" e
       end).

Definition pull_check (cfg : ClientConfig) (path : option string) (device_flow : bool) : Probe Check :=
  match cc_puller_endpoint cfg with
  | None => Ret (fail "pull" ("no `puller_endpoint` in the config — " +:+ fix_hint device_flow))
  | Some puller =>
      let url := puller +:+ NIX_CACHE_INFO in
      do answer <- request (Doctor_Get url);
      match answer with
      | Err e => Ret (fail "pull" ("fetching " +:+ url +:+ ": " +:+ e))
      | Ok r =>
          if negb (is_success (an_status r)) then Ret (fail "pull" (url +:+ " answered " +:+ pretty (an_status r)))
          else if negb (cache_info_ok (match an_body r with Ok text => text | Err _ => "" end))
          then Ret (fail "pull" (url +:+ " did not return a nix-cache-info document — is this really the Puller?"))
          else
            let file := narinfo_file (default ABSENT_HASH (path ≫= parse_store_hash)) in
            let narinfo_url := puller +:+ "/" +:+ file in
            do answer <- request (Doctor_Get narinfo_url);
            Ret (match answer with
                 | Ok r =>
                     if (an_status r =? 200)%Z || (an_status r =? 404)%Z
                     then pass "pull" ("the Puller serves nix-cache-info; " +:+ file +:+ " answered " +:+ pretty (an_status r))
                     else fail "pull" (narinfo_url +:+ " answered " +:+ pretty (an_status r))
                 | Err e => fail "pull" ("fetching " +:+ narinfo_url +:+ ": " +:+ e)
                 end)
      end
  end.

Definition path_check (conn : Connection) (path : string) : Probe Check :=
  match parse_store_hash path with
  | None => Ret (fail "path" (path +:+ " does not look like a store path or 32-character hash"))
  | Some hash =>
      do missing <- prog_lift (@Doctor_Run) (negotiate conn [hash]);
      Ret (match missing with
           | Err e => fail "path" (neg_message e)
           | Ok missing =>
               if bool_decide (hash ∈ missing)
               then fail "path" ("not cached — Negotiation lists " +:+ hash +:+ " as missing; `garret push " +:+ path +:+
                      "` would upload it")
               else pass "path" ("cached — Negotiation does not list " +:+ hash +:+ " as missing")
           end)
  end.

(** The checks that compare with the discovery document. *)
Definition document_checks (cfg : ClientConfig) (device_flow : bool) (discovered : Result Discovery string) : list Check :=
  match discovered with
  | Ok d =>
      let drifted := drift cfg d device_flow in
      pass "discovery" ("the Pusher at " +:+ cc_endpoint cfg +:+ " answered") ::
      (if is_nil drifted then pass "config" "config matches the server's discovery document"
       else fail "config" ("config drift — " +:+ fix_hint device_flow +:+ ": " +:+ str_join "; " drifted)) ::
      (if keys_checked cfg device_flow
       then [let '(status, detail) := keys_verdict (cc_public_keys cfg) (d_public_keys d) in mkCheck "keys" status detail]
       else [])
  | Err e => fail "discovery" e :: skip "config" :: (if keys_checked cfg device_flow then [skip "keys"] else [])
  end.

(** [given], [github] and [secret]: what [TokenSource::for_config] finds. *)
Definition doctor (cfg : ClientConfig) (cpus : option Z) (given : option string) (github : option GithubActions)
    (secret : string → Result string string) (path : option string) : Probe (list Check) :=
  let kind := credential_kind (cc_oidc cfg) github in
  let device_flow := match kind with Kind_DeviceFlow => true | _ => false end in
  let conn := connection_of cfg cpus in
  do discovered <- fetch (cc_endpoint cfg);
  do auth <- match mint_select (cc_oidc cfg) given kind secret with
             | Ok _ => auth_check conn
             | Err e => Ret (fail "auth" ("no token: " +:+ e))
             end;
  do pull <- pull_check cfg path device_flow;
  do last <- match path with
             | None => Ret []
             | Some path =>
                 match ck_status auth with
                 | Pass => do c <- path_check conn path; Ret [c]
                 | _ => Ret [skip "path"]
                 end
             end;
  Ret (document_checks cfg device_flow discovered ++ [auth; pull] ++ last).

(** [main]: the number of failed checks is the exit. *)
Definition doctor_failed (checks : list Check) : nat :=
  length (filter (λ c, match ck_status c with Fail_ => true | _ => false end = true) checks).
End doctor.

(** ** What each layer's check means *)

(** The configuration agrees with all that the server advertises. *)
Definition agrees (cfg : ClientConfig) (d : Discovery) (device_flow : bool) : Prop :=
  (∀ puller, d_puller_endpoint d = Some puller → cc_puller_endpoint cfg = Some puller) ∧
  (device_flow = true → ∀ oidc, d_oidc d = Some oidc →
     os_issuer (cc_oidc cfg) = Some (oi_issuer oidc) ∧ os_audience (cc_oidc cfg) = oi_audience oidc ∧
     ∀ client_id, oi_client_id oidc = Some client_id → os_client_id (cc_oidc cfg) = Some client_id).

Lemma drifted_nil field configured advertised : drifted field configured advertised = [] ↔ configured = Some advertised.
Proof. unfold drifted. by case_bool_decide. Qed.

Lemma drift_nil cfg d device_flow : drift cfg d device_flow = [] ↔ agrees cfg d device_flow.
Proof.
  unfold drift, agrees. rewrite app_nil.
  assert (Hp : match d_puller_endpoint d with
               | Some advertised => drifted "puller_endpoint" (cc_puller_endpoint cfg) advertised | None => [] end = [] ↔
               ∀ puller, d_puller_endpoint d = Some puller → cc_puller_endpoint cfg = Some puller).
  { destruct (d_puller_endpoint d) as [p|]; [rewrite drifted_nil|]; naive_solver. }
  rewrite Hp. apply and_iff_compat_l. destruct (d_oidc d) as [oidc|], device_flow; [|naive_solver..].
  rewrite !app_nil, !drifted_nil. destruct (oi_client_id oidc) as [id|] eqn:Hid; [rewrite drifted_nil|]; split.
  - intros (Hi & [= Ha] & Hc) _ o [= <-]. split_and!; [done|done|]. intros c. rewrite Hid. by intros [= <-].
  - intros H. destruct (H eq_refl _ eq_refl) as (Hi & Ha & Hc). rewrite Ha. auto.
  - intros (Hi & [= Ha] & _) _ o [= <-]. split_and!; [done|done|]. intros c. by rewrite Hid.
  - intros H. destruct (H eq_refl _ eq_refl) as (Hi & Ha & Hc). by rewrite Ha.
Qed.

Lemma keys_verdict_pass configured advertised :
  (keys_verdict configured advertised).1 = Pass ↔ configured ≠ [] ∧ configured ⊆ advertised.
Proof.
  unfold keys_verdict. destruct configured as [|k ks]; [by split; [|intros []]|]. cbn [is_nil].
  set (stale := filter _ _). assert (Hs : stale = [] ↔ k :: ks ⊆ advertised).
  { unfold stale. split.
    - intros Hn x Hx. apply dec_stable. intros Hx'. assert (Hin : x ∈ ([] : list string)) by (rewrite <-Hn; by apply list_elem_of_filter).
      by apply elem_of_nil in Hin.
    - intros Hsub. destruct (filter _ _) as [|x xs] eqn:E; [done|]. exfalso.
      assert (Hin : x ∈ filter (λ k0, k0 ∉ advertised) (k :: ks)) by (rewrite E; left).
      apply list_elem_of_filter in Hin as [Hn Hin]. by apply Hn, Hsub. }
  rewrite <-Hs. destruct stale; cbn; [|split; [done|by intros []]]. by destruct (length _).
Qed.

Definition all_pass (checks : list Check) : Prop := Forall (λ c, ck_status c = Pass) checks.

(** The Negotiations answered in a probe's trace. *)
Definition probe_asked_of `{L : ClientLibs} (e : Event DoctorOp) : option (list string * gset string) :=
  match e with
  | Ev op b =>
      match op in DoctorOp B return B → option (list string * gset string) with
      | Doctor_Run op => λ b, asked_of (Ev op b)
      | Doctor_Get _ => λ _, None
      end b
  end.
Definition probe_asked `{L : ClientLibs} (tr : list (Event DoctorOp)) : list (list string * gset string) := omap probe_asked_of tr.

(** The answers to its fetches, and to its requests for a token. *)
Definition get_of (e : Event DoctorOp) : option (string * Result Answer string) :=
  match e with
  | Ev op b =>
      match op in DoctorOp B return B → option (string * Result Answer string) with
      | Doctor_Get url => λ answer, Some (url, answer)
      | Doctor_Run _ => λ _, None
      end b
  end.
Definition gets (tr : list (Event DoctorOp)) : list (string * Result Answer string) := omap get_of tr.

Definition token_of (e : Event DoctorOp) : option (Result string string) :=
  match e with
  | Ev op b =>
      match op in DoctorOp B return B → option (Result string string) with
      | Doctor_Run op =>
          match op in RunOp B return B → option (Result string string) with
          | Run_Token => λ token, Some token
          | _ => λ _, None
          end
      | Doctor_Get _ => λ _, None
      end b
  end.
Definition tokens (tr : list (Event DoctorOp)) : list (Result string string) := omap token_of tr.

Section verdicts.
Context `{L : ClientLibs, U : UrlParser, J : TokenLibs, D : DiscoveryJson}.

(** A server whose document the configuration agrees with. *)
Definition document_ok (cfg : ClientConfig) (device_flow : bool) (tr : list (Event DoctorOp)) : Prop :=
  url_ok (cc_endpoint cfg) ∧ ∃ a d,
    gets tr = [(cc_endpoint cfg +:+ DISCOVERY, Ok a)] ∧
    discovery_answer (cc_endpoint cfg +:+ DISCOVERY) a = Ok d ∧ agrees cfg d device_flow ∧
    (keys_checked cfg device_flow = true → cc_public_keys cfg ≠ [] ∧ cc_public_keys cfg ⊆ d_public_keys d).

(** The Pusher answered an empty Negotiation, and a token is held after. *)
Definition auth_ok (tr : list (Event DoctorOp)) : Prop :=
  ∃ absent token, probe_asked tr = [([], absent)] ∧ last (tokens tr) = Some (Ok token).

(** The Puller serves its cache info and answers for a narinfo. *)
Definition pull_ok (cfg : ClientConfig) (path : option string) (tr : list (Event DoctorOp)) : Prop :=
  ∃ puller info text narinfo,
    cc_puller_endpoint cfg = Some puller ∧
    gets tr = [(puller +:+ NIX_CACHE_INFO, Ok info);
               (puller +:+ "/" +:+ narinfo_file (default ABSENT_HASH (path ≫= parse_store_hash)), Ok narinfo)] ∧
    is_success (an_status info) = true ∧ an_body info = Ok text ∧ cache_info_ok text = true ∧
    (an_status narinfo = 200 ∨ an_status narinfo = 404)%Z.

(** The path asked for is in the cache. *)
Definition path_ok (path : option string) (tr : list (Event DoctorOp)) : Prop :=
  match path with
  | None => tr = []
  | Some path => ∃ hash absent, parse_store_hash path = Some hash ∧ probe_asked tr = [([hash], absent)] ∧ hash ∉ absent
  end.

Lemma probe_asked_lift tr : probe_asked (map (lift_event (@Doctor_Run)) tr) = asked tr.
Proof. unfold probe_asked, asked. induction tr as [|[B op b] tr IH]; [done|]. cbn. by rewrite IH. Qed.

Lemma fetch_trace endpoint tr r :
  run_trace (fetch endpoint) tr r →
  ∀ d, r = Ok d ↔ url_ok endpoint ∧ ∃ a,
    gets tr = [(endpoint +:+ DISCOVERY, Ok a)] ∧ discovery_answer (endpoint +:+ DISCOVERY) a = Ok d.
Proof.
  unfold fetch. cbn [prog_bind]. intros H d. destruct (check_url _ endpoint) as [[]|e] eqn:Hc.
  - apply check_url_ok in Hc. apply run_trace_request_bind in H as (answer & tr' & -> & H).
    destruct answer as [a|e]; apply run_trace_ret in H as [-> ->].
    + split; [intros ?; split; [done|]; by exists a|]. intros (_ & a' & [= ->] & Hd). exact Hd.
    + split; [done|]. intros (_ & a' & [= ] & _).
  - apply run_trace_ret in H as [-> ->]. split; [done|]. intros [Hu _]. apply (check_url_ok "the Pusher URL") in Hu. congruence.
Qed.

Lemma document_checks_pass cfg device_flow tr discovered :
  run_trace (fetch (cc_endpoint cfg)) tr discovered →
  all_pass (document_checks cfg device_flow discovered) ↔ document_ok cfg device_flow tr.
Proof.
  intros H. pose proof (fetch_trace _ _ _ H) as Hf. unfold document_ok, all_pass. destruct discovered as [d|e]; cbn.
  - destruct (proj1 (Hf d) eq_refl) as (Hu & a & Ht & Ha).
    assert (Hkeys : Forall (λ c, ck_status c = Pass) (if keys_checked cfg device_flow
        then [let '(status, detail) := keys_verdict (cc_public_keys cfg) (d_public_keys d) in mkCheck "keys" status detail] else []) ↔
      (keys_checked cfg device_flow = true → cc_public_keys cfg ≠ [] ∧ cc_public_keys cfg ⊆ d_public_keys d)).
    { rewrite <-keys_verdict_pass. destruct (keys_checked _ _); [|naive_solver]. rewrite Forall_singleton.
      destruct (keys_verdict _ _); cbn. naive_solver. }
    rewrite !Forall_cons, Hkeys. split.
    + intros (_ & Hd & Hk). split; [done|]. exists a, d. split_and!; [done|done| |done]. apply drift_nil.
      by destruct (drift cfg d device_flow).
    + intros (_ & a' & d' & Ht' & Hd' & Hag & Hk). rewrite Ht' in Ht. injection Ht as ->. rewrite Hd' in Ha. injection Ha as ->.
      split_and!; [done| |done]. apply drift_nil in Hag. by rewrite Hag.
  - split; [by intros [? _]%Forall_cons|]. intros (Hu & a & d & Ht & Hd & _).
    assert (Err e = Ok d) by (apply Hf; eauto). done.
Qed.

Lemma lift_gets tr : gets (map (lift_event (@Doctor_Run)) tr) = [].
Proof. induction tr as [|[B op b] tr IH]; [done|]. exact IH. Qed.

Lemma auth_check_pass conn tr c :
  run_trace (auth_check conn) tr c → ck_name c = "auth" ∧ ck_status c ≠ Skip ∧ (ck_status c = Pass ↔ auth_ok tr).
Proof.
  intros (claims & tr1 & tr2 & -> & (tr0 & -> & H)%run_trace_lift & [-> ->]%run_trace_ret)%run_trace_bind.
  rewrite app_nil_r. split; [by destruct claims|]. split; [by destruct claims|].
  unfold auth_ok. rewrite probe_asked_lift. unfold authenticate in H.
  apply run_trace_request_bind in H as (first & tr1 & -> & H). destruct first as [token|e].
  2: { apply run_trace_ret in H as [-> ->]. split; [done|]. by intros (? & ? & ? & _). }
  apply run_trace_bind in H as (missing & tra & trb & -> & [Hasked _ _]%negotiate_asks & H).
  change (asked (Ev Run_Token (Ok token) :: tra ++ trb)) with (asked (tra ++ trb)).
  unfold asked in *. rewrite omap_app, Hasked. destruct missing as [absent|e]; cbn [answer_list].
  2: { apply run_trace_ret in H as [-> ->]. split; [done|]. by intros (? & ? & ? & _). }
  apply run_trace_request_bind in H as (second & tr' & -> & H). cbn [map app]. rewrite map_app. cbn [map].
  assert (Hlast : ∀ l, last (tokens (lift_event (@Doctor_Run) (Ev Run_Token (Ok token : Result string string)) ::
      map (lift_event (@Doctor_Run)) tra ++ [lift_event (@Doctor_Run) (Ev Run_Token l)])) = Some l).
  { intros l. rewrite app_comm_cons. unfold tokens. rewrite omap_app. apply last_snoc. }
  destruct second as [token'|e]; apply run_trace_ret in H as [-> ->]; cbn [map]; rewrite Hlast; cbn.
  - split; [|done]. intros _. by exists absent, token'.
  - split; [done|]. by intros (? & ? & _ & ?).
Qed.

Lemma pull_check_pass cfg path device_flow tr c :
  run_trace (pull_check cfg path device_flow) tr c →
  ck_name c = "pull" ∧ ck_status c ≠ Skip ∧ (ck_status c = Pass ↔ pull_ok cfg path tr).
Proof.
  unfold pull_check, pull_ok. destruct (cc_puller_endpoint cfg) as [puller|].
  2: { intros [-> ->]%run_trace_ret. split_and!; [done..|]. split; [done|]. by intros (? & ? & ? & ? & ? & _). }
  intros (answer & tr1 & -> & H)%run_trace_request_bind. destruct answer as [r|e].
  2: { apply run_trace_ret in H as [-> ->]. split_and!; [done..|]. split; [done|]. by intros (? & ? & ? & ? & _ & ? & _). }
  destruct (is_success (an_status r)) eqn:Hs; cbn [negb] in H.
  2: { apply run_trace_ret in H as [-> ->]. split_and!; [done..|]. split; [done|]. by intros (? & ? & ? & ? & _ & ? & _). }
  destruct (cache_info_ok _) eqn:Hi; cbn [negb] in H.
  2: { apply run_trace_ret in H as [-> ->]. split_and!; [done..|]. split; [done|]. by intros (? & ? & ? & ? & _ & ? & _). }
  apply run_trace_request_bind in H as (answer & tr2 & -> & [-> ->]%run_trace_ret).
  destruct answer as [n|e].
  2: { split_and!; [done..|]. split; [done|]. by intros (? & ? & ? & ? & _ & ? & _). }
  destruct (Z.eqb_spec (an_status n) 200), (Z.eqb_spec (an_status n) 404); cbn [orb]; (split_and!; [done..|]);
    (split; [|by try (intros (? & ? & ? & ? & _ & [= _ -> _ ->] & _ & _ & _ & [?|?]))]); try done;
    (intros _; destruct (an_body r) as [text|] eqn:Hb; [|done]; exists puller, r, text, n; auto 10).
Qed.

Lemma path_check_pass conn path tr c :
  run_trace (path_check conn path) tr c →
  ck_name c = "path" ∧ ck_status c ≠ Skip ∧ (ck_status c = Pass ↔ path_ok (Some path) tr).
Proof.
  unfold path_check, path_ok. destruct (parse_store_hash path) as [hash|].
  2: { intros [-> ->]%run_trace_ret. split_and!; [done..|]. split; [done|]. by intros (? & ? & ? & _). }
  intros (missing & tr1 & tr2 & -> & (tr0 & -> & [Hasked _ _]%negotiate_asks)%run_trace_lift & [-> ->]%run_trace_ret)%run_trace_bind.
  rewrite app_nil_r, probe_asked_lift, Hasked. destruct missing as [absent|e]; cbn [answer_list].
  - case_bool_decide as Hin; (split_and!; [done..|]); split; [done| | |done].
    + intros (h & a & [= <-] & [= <-] & Hn). done.
    + intros _. by exists hash, absent.
  - split_and!; [done..|]. split; [done|]. by intros (? & ? & _ & ? & _).
Qed.

(** The layers, in order. *)
Definition layers (cfg : ClientConfig) (device_flow : bool) (path : option string) : list string :=
  "discovery" :: "config" :: (if keys_checked cfg device_flow then ["keys"] else []) ++
  ["auth"; "pull"] ++ (if is_none path then [] else ["path"]).

Lemma document_checks_names cfg device_flow discovered :
  map ck_name (document_checks cfg device_flow discovered) =
    "discovery" :: "config" :: if keys_checked cfg device_flow then ["keys"] else [].
Proof.
  destruct discovered as [d|e]; cbn.
  - destruct (is_nil (drift _ _ _)), (keys_checked _ _); cbn; try done; by destruct (keys_verdict _ _).
  - by destruct (keys_checked _ _).
Qed.

Lemma doctor_failed_none checks : doctor_failed checks = 0 ↔ Forall (λ c, ck_status c ≠ Fail_) checks.
Proof.
  unfold doctor_failed. induction checks as [|c checks IH]; [done|]. rewrite filter_cons, Forall_cons, <-IH.
  destruct (ck_status c); case_decide; cbn; naive_solver.
Qed.

(** Of the comparisons, none is skipped unless discovery failed. *)
Lemma document_checks_failed cfg device_flow discovered :
  doctor_failed (document_checks cfg device_flow discovered) = 0 → all_pass (document_checks cfg device_flow discovered).
Proof.
  rewrite doctor_failed_none. destruct discovered as [d|e]; [|by intros [? _]%Forall_cons].
  intros H. assert (Hs : Forall (λ c, ck_status c ≠ Skip) (document_checks cfg device_flow (Ok d))).
  { cbn. constructor; [done|]. constructor; [by destruct (is_nil _)|]. destruct (keys_checked _ _); [|constructor].
    constructor; [|constructor]. unfold keys_verdict. repeat case_match; simplify_eq; done. }
  unfold all_pass. rewrite Forall_forall in H, Hs |- *. intros c Hc. specialize (H c Hc). specialize (Hs c Hc).
  by destruct (ck_status c).
Qed.

(** The parts of a diagnosis, and what they each found. *)
Lemma doctor_parts cfg cpus given github secret path tr checks :
  let device_flow := match credential_kind (cc_oidc cfg) github with Kind_DeviceFlow => true | _ => false end in
  run_trace (doctor cfg cpus given github secret path) tr checks →
  map ck_name checks = layers cfg device_flow path ∧
  ∃ discovered auth pull rest t1 t2 t3 t4, tr = t1 ++ t2 ++ t3 ++ t4 ∧
    run_trace (fetch (cc_endpoint cfg)) t1 discovered ∧
    run_trace (match mint_select (cc_oidc cfg) given (credential_kind (cc_oidc cfg) github) secret with
               | Ok _ => auth_check (connection_of cfg cpus)
               | Err e => Ret (fail "auth" ("no token: " +:+ e))
               end) t2 auth ∧
    run_trace (pull_check cfg path device_flow) t3 pull ∧
    run_trace (match path with
               | None => Ret []
               | Some path =>
                   match ck_status auth with
                   | Pass => do c <- path_check (connection_of cfg cpus) path; Ret [c]
                   | _ => Ret [skip "path"]
                   end
               end) t4 rest ∧
    (doctor_failed checks = 0 ↔ document_ok cfg device_flow t1 ∧ auth_ok t2 ∧ pull_ok cfg path t3 ∧ path_ok path t4).
Proof.
  intros device_flow. unfold doctor. fold device_flow.
  intros (discovered & t1 & tr1 & -> & Hfetch & H)%run_trace_bind.
  apply run_trace_bind in H as (auth & t2 & tr2 & -> & Hauth & H).
  apply run_trace_bind in H as (pull & t3 & tr3 & -> & Hpull & H).
  apply run_trace_bind in H as (rest & t4 & tr4 & -> & Hrest & [-> ->]%run_trace_ret). rewrite app_nil_r.
  pose proof Hpull as (Hpn & Hps & Hp)%pull_check_pass. pose proof (document_checks_pass _ device_flow _ _ Hfetch) as Hdoc.
  assert (Ha : ck_name auth = "auth" ∧ ck_status auth ≠ Skip ∧ (ck_status auth = Pass ↔ auth_ok t2)).
  { destruct (mint_select _ _ _ _); [by eapply auth_check_pass|]. pose proof Hauth as [-> ->]%run_trace_ret.
    split_and!; [done..|]. split; [done|]. by intros (? & ? & ? & _). }
  destruct Ha as (Han & Has & Ha).
  assert (Hr : map ck_name rest = (if is_none path then [] else ["path"]) ∧
    (ck_status auth = Pass → Forall (λ c, ck_status c ≠ Fail_) rest ↔ path_ok path t4)).
  { clear -Hrest. destruct path as [path|]; [|by apply run_trace_ret in Hrest as [-> ->]].
    destruct (ck_status auth); [|by apply run_trace_ret in Hrest as [-> ->]; split..].
    apply run_trace_bind in Hrest as (c & ta & tb & -> & (Hn & Hs & Hc)%path_check_pass & [-> ->]%run_trace_ret).
    rewrite app_nil_r. split; [cbn; by rewrite Hn|]. intros _. rewrite Forall_singleton, <-Hc. by destruct (ck_status c). }
  destruct Hr as [Hrn Hr]. split.
  { rewrite !map_app, document_checks_names, Hrn. cbn. by rewrite Han, Hpn. }
  exists discovered, auth, pull, rest, t1, t2, t3, t4. split_and!; [done..|]. rewrite doctor_failed_none, !Forall_app, !Forall_cons, <-doctor_failed_none.
  rewrite <-Hdoc, <-Ha, <-Hp. split.
  - intros (Hd & (Ha' & Hp' & _) & Hr'). assert (ck_status auth = Pass) by by destruct (ck_status auth).
    split_and!; [by apply document_checks_failed|done|by destruct (ck_status pull)|by apply Hr].
  - intros (Hd & Hap & Hpp & Hr'). split_and!; [|congruence|congruence|done|by apply Hr].
    apply doctor_failed_none. eapply Forall_impl; [exact Hd|]. intros c Hc. cbn in Hc. congruence.
Qed.

(** ** A pipeline that works *)

Lemma discovery_answer_ok url a d :
  discovery_answer url a = Ok d ↔
  is_success (an_status a) = true ∧ check d = Ok tt ∧ ∃ text, an_body a = Ok text ∧ discovery_from_json text = Ok d.
Proof.
  unfold discovery_answer, ensure_success. destruct (is_success (an_status a)) eqn:Hs.
  - unfold is_success in Hs. rewrite (proj2 (Z.eqb_neq _ 404)), (proj2 (Z.eqb_neq _ 401)) by lia. cbn.
    destruct (an_body a) as [text|]; cbn; [|by split; [|intros (_ & _ & ? & ? & _)]].
    destruct (discovery_from_json text) as [d'|e] eqn:Hj; cbn.
    2: { split; [done|]. intros (_ & _ & ? & [= <-] & H). congruence. }
    destruct (check d') as [[]|e] eqn:Hc; cbn.
    + split; [intros [= <-]; eauto 6|]. intros (_ & _ & ? & [= <-] & H). congruence.
    + split; [done|]. intros (_ & H1 & ? & [= <-] & H2). congruence.
  - destruct (_ || _); [by split; [|intros []]|]. cbn zeta. case_bool_decide; cbn; (split; [done|by intros []]).
Qed.

(** What the Pusher and the Puller must have answered to the fetches of a
    diagnosis, all three of them. *)
Definition documents_ok (cfg : ClientConfig) (device_flow : bool) (path : option string)
    (fetched : list (string * Result Answer string)) : Prop :=
  ∃ document document_text d puller info info_text narinfo,
    cc_puller_endpoint cfg = Some puller ∧
    fetched = [(cc_endpoint cfg +:+ DISCOVERY, Ok document); (puller +:+ NIX_CACHE_INFO, Ok info);
               (puller +:+ "/" +:+ narinfo_file (default ABSENT_HASH (path ≫= parse_store_hash)), Ok narinfo)] ∧
    (* the Pusher's document is valid, and the configuration and its keys agree with it *)
    is_success (an_status document) = true ∧ an_body document = Ok document_text ∧
    discovery_from_json document_text = Ok d ∧ check d = Ok tt ∧ agrees cfg d device_flow ∧
    (device_flow = true ∨ cc_public_keys cfg ≠ [] → cc_public_keys cfg ≠ [] ∧ cc_public_keys cfg ⊆ d_public_keys d) ∧
    (* the Puller serves its cache info and answers for the path *)
    is_success (an_status info) = true ∧ an_body info = Ok info_text ∧
    Exists (λ line, starts_with "StoreDir:" line = true) (text_lines info_text) ∧
    (an_status narinfo = 200 ∨ an_status narinfo = 404)%Z.

(** The Negotiations the Pusher answered: an empty one, and one for the path. *)
Definition negotiations_ok (path : option string) (negotiated : list (list string * gset string)) : Prop :=
  ∃ absent,
    match path with
    | None => negotiated = [([], absent)]
    | Some path => ∃ hash missing_, parse_store_hash path = Some hash ∧
        negotiated = [([], absent); ([hash], missing_)] ∧ hash ∉ missing_
    end.

(** Over the whole of a diagnosis every layer answered, and each request for a
    token got one. *)
Definition healthy (cfg : ClientConfig) (device_flow : bool) (path : option string) (tr : list (Event DoctorOp)) : Prop :=
  url_ok (cc_endpoint cfg) ∧ documents_ok cfg device_flow path (gets tr) ∧
  Forall (λ token, is_ok token = true) (tokens tr) ∧ negotiations_ok path (probe_asked tr).

Lemma gets_app tr tr' : gets (tr ++ tr') = gets tr ++ gets tr'.
Proof. apply omap_app. Qed.
Lemma tokens_app tr tr' : tokens (tr ++ tr') = tokens tr ++ tokens tr'.
Proof. apply omap_app. Qed.
Lemma probe_asked_app tr tr' : probe_asked (tr ++ tr') = probe_asked tr ++ probe_asked tr'.
Proof. apply omap_app. Qed.

Lemma fetch_gets endpoint tr r :
  run_trace (fetch endpoint) tr r →
  tokens tr = [] ∧ probe_asked tr = [] ∧ (url_ok endpoint → ∃ answer, gets tr = [(endpoint +:+ DISCOVERY, answer)]).
Proof.
  unfold fetch. cbn [prog_bind]. destruct (check_url _ endpoint) as [[]|e] eqn:Hc; intros H.
  - apply run_trace_request_bind in H as (answer & tr' & -> & H).
    destruct answer; apply run_trace_ret in H as [-> ->]; split_and!; eauto.
  - apply run_trace_ret in H as [-> ->]. split_and!; [done..|]. intros Hu%(check_url_ok "the Pusher URL"). congruence.
Qed.

Lemma pull_check_gets cfg path device_flow tr c :
  run_trace (pull_check cfg path device_flow) tr c → tokens tr = [] ∧ probe_asked tr = [].
Proof.
  unfold pull_check. destruct (cc_puller_endpoint cfg) as [puller|]; [|by intros [-> _]%run_trace_ret].
  intros (answer & tr1 & -> & H)%run_trace_request_bind. destruct answer as [r|e]; [|by apply run_trace_ret in H as [-> _]].
  destruct (negb _); [by apply run_trace_ret in H as [-> _]|]. destruct (negb _); [by apply run_trace_ret in H as [-> _]|].
  by apply run_trace_request_bind in H as (answer & tr2 & -> & [-> _]%run_trace_ret).
Qed.

(** A Negotiation asks for one token, and gets one if it is answered. *)
Lemma negotiate_tokens conn hashes tr r :
  run_trace (negotiate conn hashes) tr r →
  ∃ token, tokens (map (lift_event (@Doctor_Run)) tr) = [token] ∧ (is_ok r = true → is_ok token = true).
Proof.
  assert (Hsend : ∀ token tr r, run_trace (send conn hashes token) tr r → tokens (map (lift_event (@Doctor_Run)) tr) = []).
  { by intros ??? (sent & ? & -> & [-> _]%run_trace_ret)%run_trace_request_bind. }
  intros (token & tr1 & -> & H)%run_trace_request_bind. exists token. cbn [map]. change (lift_event _ _ :: ?l) with ([lift_event (@Doctor_Run) (Ev Run_Token token)] ++ l).
  rewrite tokens_app. destruct token as [token|e]; [|by apply run_trace_ret in H as [-> ->]]. split; [|done].
  apply run_trace_bind in H as (first & tra & trb & -> & Hfirst%Hsend & H). rewrite map_app, tokens_app, Hfirst.
  destruct first as [a|e]; [|by apply run_trace_ret in H as [-> ->]].
  apply run_trace_bind in H as (second & trc & trd & -> & Hsecond & H). rewrite map_app, tokens_app.
  assert (trd = []) as -> by (destruct second; by apply run_trace_ret in H as [-> _]). rewrite app_nil_r.
  unfold send_again in Hsecond. destruct (_ =? _)%Z; [|by apply run_trace_ret in Hsecond as [-> _]].
  apply run_trace_request_bind in Hsecond as (renewal & tr2 & -> & Hsecond). 
  change (tokens (map (lift_event (@Doctor_Run)) (_ :: tr2))) with (tokens (map (lift_event (@Doctor_Run)) tr2)).
  destruct renewal as [[token'|]|e].
  - by rewrite (Hsend _ _ _ Hsecond).
  - by apply run_trace_ret in Hsecond as [-> _].
  - by apply run_trace_ret in Hsecond as [-> _].
Qed.

Lemma auth_check_asks conn tr c :
  run_trace (auth_check conn) tr c →
  gets tr = [] ∧ (probe_asked tr = [] ∨ ∃ absent, probe_asked tr = [([], absent)]) ∧ tokens tr ≠ [] ∧
  (ck_status c = Pass → Forall (λ token, is_ok token = true) (tokens tr)).
Proof.
  intros (claims & tr1 & tr2 & -> & (tr0 & -> & H)%run_trace_lift & [-> ->]%run_trace_ret)%run_trace_bind.
  rewrite app_nil_r, lift_gets, probe_asked_lift. split; [done|]. unfold authenticate in H.
  apply run_trace_request_bind in H as (first & tr1 & -> & H). destruct first as [token|e].
  2: { apply run_trace_ret in H as [-> ->]. split_and!; [by left|done|done]. }
  apply run_trace_bind in H as (missing & tra & trb & -> & Hneg & H).
  pose proof (negotiate_tokens _ _ _ _ Hneg) as (t & Ht & Hok). apply negotiate_asks in Hneg as [Hasked _ _].
  change (asked (Ev Run_Token (Ok token) :: tra ++ trb)) with (asked (tra ++ trb)). unfold asked in *. rewrite omap_app, Hasked.
  change (tokens (map _ (Ev Run_Token (Ok token) :: tra ++ trb))) with (Ok token :: tokens (map (lift_event (@Doctor_Run)) (tra ++ trb))).
  rewrite map_app, tokens_app, Ht. destruct missing as [absent|e]; cbn [answer_list].
  2: { apply run_trace_ret in H as [-> ->]. split_and!; [by left|done|done]. }
  apply run_trace_request_bind in H as (second & tr' & -> & H). specialize (Hok eq_refl).
  destruct second as [token'|e]; apply run_trace_ret in H as [-> ->]; (split_and!; [by right; exists absent|done|]); [|done].
  intros _. by repeat constructor.
Qed.

(** A token whenever one was asked for, and a Negotiation: the Pusher took the token. *)
Lemma auth_ok_whole tr :
  (probe_asked tr = [] ∨ ∃ absent, probe_asked tr = [([], absent)]) → tokens tr ≠ [] →
  probe_asked tr ≠ [] → Forall (λ token, is_ok token = true) (tokens tr) → auth_ok tr.
Proof.
  intros [?|[absent Ha]] Hne Hasked Hall; [done|]. unfold auth_ok. destruct (last (tokens tr)) as [token|] eqn:Hl.
  - pose proof (last_Some_elem_of _ _ Hl) as Hin. rewrite Forall_forall in Hall. specialize (Hall _ Hin).
    destruct token as [token|]; [|done]. by exists absent, token.
  - by apply last_None in Hl.
Qed.

Lemma path_check_asks conn path tr c :
  run_trace (path_check conn path) tr c →
  gets tr = [] ∧ (probe_asked tr = [] ∨ ∃ hash absent, parse_store_hash path = Some hash ∧ probe_asked tr = [([hash], absent)]) ∧
  (ck_status c = Pass → Forall (λ token, is_ok token = true) (tokens tr)).
Proof.
  unfold path_check. destruct (parse_store_hash path) as [hash|]; [|intros [-> ->]%run_trace_ret; split_and!; [done|by left|done]].
  intros (missing & tr1 & tr2 & -> & (tr0 & -> & H)%run_trace_lift & [-> ->]%run_trace_ret)%run_trace_bind.
  pose proof (negotiate_tokens _ _ _ _ H) as (t & Ht & Hok). apply negotiate_asks in H as [Hasked _ _].
  rewrite app_nil_r, lift_gets, probe_asked_lift, Hasked, Ht. split; [done|].
  destruct missing as [absent|e]; cbn [answer_list]; (split; [|intros Hp; constructor; [by apply Hok|done]]); [right; eauto|by left].
Qed.

Lemma existsb_Exists {A} (f : A → bool) l : existsb f l = true ↔ Exists (λ x, f x = true) l.
Proof. rewrite existsb_exists, List.Exists_exists. done. Qed.

(** The documents of both ends are good. *)
Lemma documents_whole cfg device_flow path t1 t3 :
  (url_ok (cc_endpoint cfg) → ∃ answer, gets t1 = [(cc_endpoint cfg +:+ DISCOVERY, answer)]) →
  document_ok cfg device_flow t1 ∧ pull_ok cfg path t3 ↔
  url_ok (cc_endpoint cfg) ∧ documents_ok cfg device_flow path (gets t1 ++ gets t3).
Proof.
  intros Hg. unfold document_ok, pull_ok, documents_ok. split.
  - intros ((Hu & a & d & -> & (Hs & Hc & text & Hb & Hj)%discovery_answer_ok & Hag & Hk)
      & puller & info & itext & narinfo & Hp & -> & Hi & Hib & Hlines & Hn).
    split; [done|]. exists a, text, d, puller, info, itext, narinfo. split_and!; try done.
    + intros Hkeys. apply Hk. unfold keys_checked. destruct Hkeys as [->|Hne]; [done|].
      destruct (cc_public_keys cfg); [done|]. apply orb_true_r.
    + by apply existsb_Exists.
  - intros (Hu & a & text & d & puller & info & itext & narinfo & Hp & Hgets & Hs & Hb & Hj & Hc & Hag & Hk & Hi & Hib & Hlines & Hn).
    destruct (Hg Hu) as [answer Ht1]. rewrite Ht1 in Hgets |- *. injection Hgets as -> Ht3. rewrite Ht3. split.
    + split; [done|]. exists a, d. split_and!; [done|apply discovery_answer_ok; eauto|done|].
      unfold keys_checked. intros [->|Hne]%orb_true_iff; [by apply Hk; left|apply Hk; right].
      by destruct (cc_public_keys cfg).
    + exists puller, info, itext, narinfo. split_and!; try done. by apply existsb_Exists.
Qed.

(** Both of a diagnosis' Negotiations went well. *)
Lemma negotiations_whole path t2 t4 :
  (probe_asked t2 = [] ∨ ∃ absent, probe_asked t2 = [([], absent)]) → (probe_asked t2 ≠ [] → tokens t2 ≠ []) →
  (auth_ok t2 → Forall (λ token, is_ok token = true) (tokens t2)) →
  match path with
  | None => t4 = []
  | Some path => (probe_asked t4 = [] ∨ ∃ hash absent, parse_store_hash path = Some hash ∧ probe_asked t4 = [([hash], absent)]) ∧
      (path_ok (Some path) t4 → Forall (λ token, is_ok token = true) (tokens t4))
  end →
  auth_ok t2 ∧ path_ok path t4 ↔
  Forall (λ token, is_ok token = true) (tokens t2 ++ tokens t4) ∧ negotiations_ok path (probe_asked t2 ++ probe_asked t4).
Proof.
  intros Hp2 Ht2 Hatok Hr. rewrite Forall_app. unfold negotiations_ok. split.
  - intros [Ha Hp]. pose proof (Hatok Ha). destruct Ha as (absent & token & Ha & _). rewrite Ha.
    destruct path as [path|]; [|by subst t4; split_and!; [done|done|]; exists absent].
    destruct Hr as [_ Hr]. specialize (Hr Hp). split; [done|]. destruct Hp as (hash & missing_ & Hh & -> & Hn).
    by exists absent, hash, missing_.
  - intros ([Htok Htok4] & absent & H). assert (Hne : probe_asked t2 ≠ [] → auth_ok t2).
    { intros Hne. by apply auth_ok_whole; auto. }
    destruct path as [path|].
    + destruct H as (hash & missing_ & Hh & Hasked & Hn). destruct Hr as [Hr _].
      destruct Hp2 as [Hp2|[a Hp2]]; rewrite Hp2 in Hasked, Hne.
      * exfalso. destruct Hr as [Hr|(h & a & _ & Hr)]; by rewrite Hr in Hasked.
      * injection Hasked as -> H4. split; [by apply Hne|]. by exists hash, missing_.
    + subst t4. rewrite app_nil_r in H. split; [|done]. apply Hne. by rewrite H.
Qed.

(** C18: garret doctor makes one check per layer, in order, and over its whole trace of requests
    reports no failure if and only if all is well: the endpoint is a safe URL; the discovery
    document was fetched from it, passes its checks and agrees with the configuration, and holds the
    configured public keys, of which the device flow needs one; every token asked for was given; the
    Pusher answered the Negotiation of nothing and, where a path was given, one that does not list
    its hash as missing; and the Puller served a cache-info document that names the store and
    answered 200 or 404 for the path. *)
Theorem doctor_exact cfg cpus given github secret path tr checks :
  let device_flow := match credential_kind (cc_oidc cfg) github with Kind_DeviceFlow => true | _ => false end in
  run_trace (doctor cfg cpus given github secret path) tr checks →
  map ck_name checks = layers cfg device_flow path ∧
  (doctor_failed checks = 0 ↔ healthy cfg device_flow path tr).
Proof.
  intros device_flow H. apply doctor_parts in H
    as (Hnames & discovered & auth & pull & rest & t1 & t2 & t3 & t4 & -> & Hfetch & Hauth & Hpull & Hrest & Hok).
  split; [done|]. rewrite Hok. apply fetch_gets in Hfetch as (Ht1 & Hp1 & Hg1).
  pose proof Hpull as (Ht3 & Hp3)%pull_check_gets.
  assert (Ha : gets t2 = [] ∧ (probe_asked t2 = [] ∨ ∃ absent, probe_asked t2 = [([], absent)]) ∧
    (probe_asked t2 ≠ [] → tokens t2 ≠ []) ∧ (auth_ok t2 → Forall (λ token, is_ok token = true) (tokens t2))).
  { destruct (mint_select _ _ _ _) as [mint|e].
    - pose proof (auth_check_pass _ _ _ Hauth) as (_ & _ & Hpass). apply auth_check_asks in Hauth as (? & ? & ? & Htok).
      split_and!; [done|done|done|]. intros Hao. by apply Htok, Hpass.
    - apply run_trace_ret in Hauth as [-> _]. split_and!; [done|by left|done|by intros]. }
  clear Hauth.
  assert (Hr : gets t4 = [] ∧
    match path with
    | None => t4 = []
    | Some path => (probe_asked t4 = [] ∨ ∃ hash absent, parse_store_hash path = Some hash ∧ probe_asked t4 = [([hash], absent)]) ∧
        (path_ok (Some path) t4 → Forall (λ token, is_ok token = true) (tokens t4))
    end).
  { clear -Hrest. destruct path as [path|]; [|by apply run_trace_ret in Hrest as [-> _]].
    destruct (ck_status auth); [|apply run_trace_ret in Hrest as [-> _]; split_and!; [done|by left|done]..].
    apply run_trace_bind in Hrest as (c & ta & tb & -> & Hc & [-> _]%run_trace_ret). rewrite app_nil_r.
    pose proof (path_check_pass _ _ _ _ Hc) as (_ & _ & Hpass). apply path_check_asks in Hc as (? & ? & Htok).
    split_and!; [done|done|]. intros Hpo. by apply Htok, Hpass. }
  clear Hrest. destruct Ha as (Hg2 & Hp2 & Ht2 & Hatok), Hr as (Hg4 & Hr).
  unfold healthy. rewrite !gets_app, !tokens_app, !probe_asked_app, Ht1, Hp1, Ht3, Hp3, Hg2, Hg4, ?app_nil_l; cbn [app]; rewrite ?app_nil_r.
  pose proof (documents_whole cfg device_flow path t1 t3 Hg1) as Hdocs.
  pose proof (negotiations_whole path t2 t4 Hp2 Ht2 Hatok Hr) as Hnegs. tauto.
Qed.
End verdicts.

(** ** A configuration [login] has just written *)

(** What the rendered file says, once read back. *)
Definition login_raw (endpoint client_id : string) (oidc : Oidc) (d : Discovery) : RawConfig := {|
  raw_endpoint := endpoint;
  raw_oidc := mkOidcSettings (Some (oi_issuer oidc)) (Some client_id) None (oi_audience oidc) None;
  raw_jobs := None; raw_zstd_level := None; raw_max_retries := None; raw_upload_idle_secs := None;
  raw_puller_endpoint := d_puller_endpoint d;
  raw_public_keys := if is_nil (d_public_keys d) then None else Some (d_public_keys d);
  raw_upstream_keys := None; raw_watch := None;
|}.

(** After garret login, doctor's key check passes, and its config check passes exactly when the
    advertised Puller URL does not end in a slash: login writes the URL as advertised, load cuts the
    slashes off, and drift compares the two. *)
Theorem fresh_login_is_healthy `{U : UrlParser, T : Toml} endpoint client_id oidc d text raw loaded :
  d_oidc d = Some oidc → oi_client_id oidc = Some client_id →
  config_render endpoint d = Ok text →
  toml_config text = Ok raw → raw = login_raw endpoint client_id oidc d →
  load_parsed None (config_of_raw raw) = Ok loaded →
  (d_public_keys d ≠ [] → (keys_verdict (cc_public_keys loaded) (d_public_keys d)).1 = Pass) ∧
  (drift loaded d true = [] ↔ ∀ puller, d_puller_endpoint d = Some puller → trim_trailing_slashes puller = puller).
Proof.
  intros Ho Hid _ _ -> [_ ->]%load_parsed_ok. cbn. split.
  - intros Hk. rewrite keys_verdict_pass. destruct (d_public_keys d) as [|k ks]; [done|]. by split; [|intros x].
  - rewrite drift_nil. unfold agrees. rewrite Ho. cbn. split.
    + intros [Hp _] puller Hpuller. specialize (Hp _ Hpuller). rewrite Hpuller in Hp. cbn in Hp. by injection Hp.
    + intros Hp. split; [|by intros _ o [= <-]; split_and!; [done|done|]; intros c; rewrite Hid].
      intros puller Hpuller. rewrite Hpuller. cbn. by rewrite Hp.
Qed.

(** ** Examples *)

(** A server whose administrator wrote its Puller's URL with a slash at the end. *)
Definition slash_discovery : Discovery :=
  mkDiscovery (d_oidc example_discovery) (d_public_keys example_discovery) (Some "https://cache.example/").
Definition slash_oidc : Oidc := default (mkOidc "" None "") (d_oidc slash_discovery).
Definition slash_raw : RawConfig := login_raw "https://push.example" (default "" (oi_client_id slash_oidc)) slash_oidc slash_discovery.
Definition slash_toml : Toml := {|
  toml_config text :=
    match config_render (T := toy_toml) "https://push.example" slash_discovery with
    | Ok written => if bool_decide (text = written) then Ok slash_raw else Err "not a configuration"
    | Err e => Err e
    end;
  toml_string := quoted;
|}.

(** [login] writes its URL as advertised and [load] cuts the slash off, so the
    two never agree again. *)
Lemma fresh_login_is_healthy_witness :
  ∃ loaded, load_parsed (U := toy_url) None (config_of_raw slash_raw) = Ok loaded ∧
    is_ok (check (U := toy_url) slash_discovery) = true ∧
    (keys_verdict (cc_public_keys loaded) (d_public_keys slash_discovery)).1 = Pass ∧
    drift loaded slash_discovery true =
      ["puller_endpoint is https://cache.example, server advertises https://cache.example/"] ∧
    ¬ (∀ puller, d_puller_endpoint slash_discovery = Some puller → trim_trailing_slashes puller = puller).
Proof.
  assert (H : is_ok (load_parsed (U := toy_url) None (config_of_raw slash_raw)) = true) by (vm_compute; reflexivity).
  destruct (load_parsed (U := toy_url) None (config_of_raw slash_raw)) as [loaded|] eqn:Hl; [|done].
  exists loaded. split; [done|].
  assert (Ht : ∃ text, config_render (T := slash_toml) "https://push.example" slash_discovery = Ok text ∧
    toml_config (Toml := slash_toml) text = Ok slash_raw) by (eexists; split; vm_compute; reflexivity).
  destruct Ht as (text & Hr & Hc).
  destruct (fresh_login_is_healthy (U := toy_url) (T := slash_toml) "https://push.example"
    (default "" (oi_client_id slash_oidc)) slash_oidc slash_discovery text slash_raw loaded
    eq_refl eq_refl Hr Hc eq_refl Hl) as [Hk Hd].
  split; [vm_compute; reflexivity|]. split; [by apply Hk|]. vm_compute in Hl. injection Hl as <-.
  split; [vm_compute; reflexivity|]. rewrite <-Hd. by vm_compute.
Defined.

Definition healthy_raw : RawConfig :=
  login_raw "https://push.example" "laptop" (default (mkOidc "" None "") (d_oidc example_discovery)) example_discovery.
Definition healthy_config : ClientConfig := config_of_raw healthy_raw.

(** Both services answer, and the cache lacks nothing. *)
Definition example_services (w : unit) {B} (op : DoctorOp B) : B * unit :=
  match op in DoctorOp B return B * unit with
  | Doctor_Get url =>
      if ends_with ".narinfo" url then (Ok (mkAnswer 404 None (Ok "")), w)
      else (Ok (mkAnswer 200 None (Ok "StoreDir: /nix/store")), w)
  | Doctor_Run op =>
      match op in RunOp B return B * unit with
      | Run_Token => (Ok "access.t", w)
      | Run_Renew _ => (Ok None, w)
      | Run_Post _ _ _ => (Ok (mkAnswer 200 None (Ok "none")), w)
      | Run_Push _ => ([], w)
      | Run_Report _ => (tt, w)
      end
  end.

Definition example_diagnosis : list (Event DoctorOp) * unit * list Check :=
  prog_exec (@example_services) tt
    (doctor (L := toy_client) (U := toy_url) (J := toy_token) (D := λ _, Ok example_discovery) healthy_config None None None
      (λ _, Err "no secret") (Some "0123456789abcdfghijklmnpqrsvwxyz")).

Lemma doctor_exact_witness :
  map (λ c, (ck_name c, ck_status c)) example_diagnosis.2 =
    [("discovery", Pass); ("config", Pass); ("keys", Pass); ("auth", Pass); ("pull", Pass); ("path", Pass)] ∧
  healthy (L := toy_client) (U := toy_url) (D := λ _, Ok example_discovery) healthy_config true
    (Some "0123456789abcdfghijklmnpqrsvwxyz") example_diagnosis.1.1.
Proof.
  split; [vm_compute; reflexivity|].
  apply (doctor_exact (L := toy_client) (U := toy_url) (J := toy_token) (D := λ _, Ok example_discovery) healthy_config None None
    None (λ _, Err "no secret") (Some "0123456789abcdfghijklmnpqrsvwxyz") example_diagnosis.1.1 example_diagnosis.2).
  - apply (prog_runs_trace (λ _ _ _ _ _, True) _ _ _ _ _ (prog_exec_runs (λ _ _ _ _ _, True) _ _ _ (λ _ _ _, I))).
  - vm_compute. reflexivity.
Defined.
