(* ===== verification/Stall.v ===== *)
(** * Stall: when an upload is given up for idleness

    [Progress], [unless_stalled] and [send_watched] of
    [crates/garret-client/src/push.rs]. An upload is seen as the moments the
    connection took a body chunk and the moment the request ended, if it does,
    in microseconds; [Progress] keeps whole milliseconds. Timers fire when they
    are due, and an answer that comes at that moment wins. *)

From S2P Require Import Prelude.

Local Open Scope Z_scope.

(** [Progress]: [since_start] in milliseconds. *)
Record Progress := mkProgress {
  pr_start : Z;
  pr_since_start : Z;
}.

Definition progress_new (now : Z) : Progress := mkProgress now 0.

Definition tick (p : Progress) (now : Z) : Progress := mkProgress (pr_start p) ((now - pr_start p) / 1000).

Definition last_progress (p : Progress) : Z := pr_start p + pr_since_start p * 1000.

(** The ticks of [ticks], in order, up to [now]. *)
Fixpoint ticked (p : Progress) (ticks : list Z) (now : Z) : Progress :=
  match ticks with
  | t :: ticks => if t <=? now then ticked (tick p t) ticks now else p
  | [] => p
  end.

(** What it returned, and when; [None] when [fuel] runs out. *)
Fixpoint unless_stalled (fuel : nat) (ticks : list Z) (done : option Z) (p : Progress) (idle : Z) : option (Result Z Z) :=
  match fuel with
  | O => None
  | S fuel =>
      let wake := last_progress p + idle in
      match done with
      | Some d =>
          if d <=? wake then Some (Ok d)
          else
            let p := ticked p ticks wake in
            if last_progress p + idle <=? wake then Some (Err wake) else unless_stalled fuel ticks done p idle
      | None =>
          let p := ticked p ticks wake in
          if last_progress p + idle <=? wake then Some (Err wake) else unless_stalled fuel ticks done p idle
      end
  end.

(** [fuel] for each tick and one more suffices. *)
Definition send_watched (start : Z) (ticks : list Z) (done : option Z) (idle : Z) : option (Result Z Z) :=
  unless_stalled (S (length ticks)) ticks done (progress_new start) idle.

(** ** Laps *)

(** The moment [t], to the millisecond. *)
Definition floored (start t : Z) : Z := start + (t - start) / 1000 * 1000.

Lemma floored_le start t : floored start t ≤ t.
Proof. unfold floored. pose proof (Z.mul_div_le (t - start) 1000). lia. Qed.

Lemma floored_mono start t t' : t ≤ t' → floored start t ≤ floored start t'.
Proof. intros H. unfold floored. pose proof (Z.div_le_mono (t - start) (t' - start) 1000). lia. Qed.

Lemma floored_start start : floored start start = start.
Proof. unfold floored. rewrite Z.sub_diag. change (0 / 1000 * 1000) with 0. lia. Qed.

Section watched.
Context (start idle : Z) (ticks : list Z) (done_ : option Z).
Context (sorted : StronglySorted Z.le ticks) (idle_pos : 0 ≤ idle).

(** What the latest of the ticks up to [now] left, if there is one. *)
Lemma ticked_spec l p now :
  StronglySorted Z.le l → pr_start p = start →
  pr_start (ticked p l now) = start ∧
  ((ticked p l now = p ∧ ∀ t, t ∈ l → now < t) ∨
   ∃ t, t ∈ l ∧ t ≤ now ∧ last_progress (ticked p l now) = floored start t ∧ ∀ t', t' ∈ l → t' ≤ now → t' ≤ t).
Proof.
  intros Hs. revert p. induction Hs as [|t l Hs IH Hall]; intros p Hp; cbn [ticked].
  - split; [done|]. left. split; [done|]. by intros t ?%elem_of_nil.
  - rewrite Forall_forall in Hall. destruct (Z.leb_spec t now) as [Hle|Hgt].
    + destruct (IH (tick p t) Hp) as [Hstart [[-> Hnone]|(u & Hu & Hun & Hlast & Hmax)]]; (split; [done|]); right.
      * exists t. split; [left|]. split; [done|]. split; [unfold last_progress, floored; cbn; by rewrite Hp|].
        intros t' [->|Hin]%elem_of_cons Hn; [lia|]. specialize (Hnone _ Hin). lia.
      * exists u. split; [by right|]. split_and!; [done..|]. intros t' [->|Hin]%elem_of_cons Hn; [by apply Hall|by apply Hmax].
    + split; [done|]. left. split; [done|]. intros u [->|Hin]%elem_of_cons; [done|]. specialize (Hall _ Hin). lia.
Qed.

(** The answer fits the ticks: an upload that ended kept ticking within [idle],
    one that stalled did not. *)
Definition fits (r : Result Z Z) : Prop :=
  match r with
  | Ok d => done_ = Some d ∧ ∀ t, t ∈ start :: ticks → floored start t + idle < d →
      ∃ t', t' ∈ ticks ∧ t' ≤ floored start t + idle ∧ floored start t < floored start t'
  | Err w => (∀ d, done_ = Some d → w < d) ∧ ∃ t, t ∈ start :: ticks ∧ w = floored start t + idle ∧
      ∀ t', t' ∈ ticks → t' ≤ w → floored start t' ≤ floored start t
  end.

(** Between laps: the progress is a tick's, and every earlier one was followed
    in time. *)
Record lap_inv (p : Progress) : Prop := {
  li_start : pr_start p = start;
  li_tick : ∃ t, t ∈ start :: ticks ∧ last_progress p = floored start t;
  li_followed : ∀ t, t ∈ start :: ticks → floored start t < last_progress p →
    ∃ t', t' ∈ ticks ∧ t' ≤ floored start t + idle ∧ floored start t < floored start t';
}.

Definition beyond (k : Z) (l : list Z) : nat := length (filter (λ t, k < floored start t) l).
Definition ahead (p : Progress) : nat := beyond (last_progress p) ticks.

Lemma beyond_cons k u l : beyond k (u :: l) = ((if decide (k < floored start u)%Z then 1 else 0) + beyond k l)%nat.
Proof. unfold beyond. rewrite filter_cons. by case_decide. Qed.

Lemma beyond_le k k' l : k ≤ k' → (beyond k' l ≤ beyond k l)%nat.
Proof. intros Hk. induction l as [|v l IH]; [done|]. rewrite !beyond_cons. repeat case_decide; lia. Qed.

Lemma beyond_lt k t l : k < floored start t → t ∈ l → (beyond (floored start t) l < beyond k l)%nat.
Proof.
  intros Hk. induction l as [|u l IH]; [by intros ?%elem_of_nil|]. rewrite !beyond_cons.
  pose proof (beyond_le k (floored start t) l). intros [<-|Hin]%elem_of_cons; [repeat case_decide; lia|].
  specialize (IH Hin). repeat case_decide; lia.
Qed.

Lemma ahead_decreases p p' t :
  last_progress p < last_progress p' → t ∈ ticks → last_progress p' = floored start t → (ahead p' < ahead p)%nat.
Proof. unfold ahead. intros Hlt Hin Ht. rewrite Ht in *. by apply beyond_lt. Qed.

Lemma lap_next p :
  lap_inv p → let p' := ticked p ticks (last_progress p + idle) in
  (last_progress p' ≤ last_progress p ∧ ∀ t', t' ∈ ticks → t' ≤ last_progress p + idle → floored start t' ≤ last_progress p) ∨
  (last_progress p < last_progress p' ∧ lap_inv p' ∧ (ahead p' < ahead p)%nat).
Proof.
  intros [Hs Ht Hf] p'. destruct (ticked_spec ticks p (last_progress p + idle) sorted Hs) as [Hs' [[Heq Hnone]|(t & Hin & Hle & Hlast & Hmax)]];
    fold p' in Hs'; [|fold p' in Hlast].
  - left. fold p' in Heq. rewrite Heq. split; [done|]. intros t' Hin Hn. specialize (Hnone _ Hin). lia.
  - destruct (Z.le_gt_cases (last_progress p') (last_progress p)) as [Hcase|Hcase]; [left|right].
    + split; [done|]. intros t' Hin' Hn. etrans; [by apply floored_mono, (Hmax t')|]. lia.
    + split; [done|]. split; [|by eapply ahead_decreases].
      split; [done|exists t; split; [by right|done]|]. intros u Hu Hlt.
      destruct (Z.lt_ge_cases (floored start u) (last_progress p)) as [?|?]; [by apply Hf|].
      exists t. split; [done|]. lia.
Qed.

Lemma unless_stalled_fits fuel p :
  lap_inv p → (ahead p < fuel)%nat → match unless_stalled fuel ticks done_ p idle with None => False | Some r => fits r end.
Proof.
  revert p. induction fuel as [|fuel IH]; intros p Hp Hf; [lia|]. cbn [unless_stalled].
  pose proof (lap_next p Hp) as Hnext. set (p' := ticked p ticks (last_progress p + idle)) in *. cbv zeta in Hnext |- *.
  assert (Hwait : (∀ d, done_ = Some d → last_progress p + idle < d) →
    match (if last_progress p' + idle <=? last_progress p + idle then Some (Err (last_progress p + idle))
           else unless_stalled fuel ticks done_ p' idle) with None => False | Some r => fits r end).
  { intros Hd. destruct Hnext as [[Hle Hq]|(Hlt & Hp' & Ha)].
    - rewrite (proj2 (Z.leb_le _ _)) by lia. split; [done|]. destruct (li_tick p Hp) as (t & Hin & Ht).
      exists t. split; [done|]. rewrite <-Ht. split; [done|]. exact Hq.
    - rewrite (proj2 (Z.leb_gt _ _)) by lia. apply IH; [done|lia]. }
  destruct done_ as [d|] eqn:Hdone; [|by apply Hwait]. destruct (Z.leb_spec d (last_progress p + idle)) as [Hd|Hd].
  - split; [exact Hdone|]. intros t Hin Hlt. apply (li_followed p Hp); [done|]. lia.
  - apply Hwait. by intros ? [= <-].
Qed.
End watched.

(** C14: An upload is given up exactly when it is idle: the watch always ends; if it reports a
    stall, the request had not ended and no chunk was taken for the idle time since the last one, to
    the millisecond; if it reports the request's end, every earlier chunk, and the start, was
    followed within the idle time by another one or by the end. *)
Theorem stalls_exactly_when_idle start ticks done idle :
  StronglySorted Z.le ticks → Forall (λ t, start ≤ t) ticks → 0 ≤ idle →
  match send_watched start ticks done idle with
  | None => False
  | Some r => fits start idle ticks done r
  end.
Proof.
  intros Hs Hafter Hi. unfold send_watched. apply unless_stalled_fits; [done..| |].
  - assert (Hl : last_progress (progress_new start) = floored start start) by (rewrite floored_start; unfold last_progress; cbn; lia).
    split; [done|exists start; split; [left|done]|].
    rewrite Hl. intros t Hin Hlt. assert (Hle : start ≤ t); [|pose proof (floored_mono start _ _ Hle); lia].
    apply elem_of_cons in Hin as [->|Hin]; [lia|]. rewrite Forall_forall in Hafter. by apply Hafter.
  - unfold ahead, beyond. pose proof (length_filter (λ t, last_progress (progress_new start) < floored start t) ticks). lia.
Qed.

(** A slow upload that keeps moving, and one that stops for good. *)
Lemma stalls_exactly_when_idle_witness :
  send_watched 0 [900000; 1800999; 2700000] (Some 3500000) 1000000 = Some (Ok 3500000) ∧
  send_watched 0 [500400; 600700] None 1000000 = Some (Err 1600000) ∧
  fits 0 1000000 [900000; 1800999; 2700000] (Some 3500000) (Ok 3500000) ∧
  fits 0 1000000 [500400; 600700] None (Err 1600000).
Proof.
  split; [reflexivity|]. split; [reflexivity|].
  assert (H1 : StronglySorted Z.le [900000; 1800999; 2700000]) by (repeat constructor; lia).
  assert (H2 : StronglySorted Z.le [500400; 600700]) by (repeat constructor; lia).
  assert (H3 : Forall (λ t, 0 ≤ t) [900000; 1800999; 2700000]) by (repeat constructor; lia).
  assert (H4 : Forall (λ t, 0 ≤ t) [500400; 600700]) by (repeat constructor; lia).
  split.
  - exact (stalls_exactly_when_idle 0 _ (Some 3500000) 1000000 H1 H3 ltac:(lia)).
  - exact (stalls_exactly_when_idle 0 _ None 1000000 H2 H4 ltac:(lia)).
Defined.
