(* ===== verification/Commands.v ===== *)
(** * Commands: what the client's commands do

    [crates/garret-client/src/main.rs] and [browse.rs], with [config::write],
    [auth::logout] and [human_bytes]. clap, the progress display and the JSON forms
    are left out; the file system is that of Files, the network that of Doctor
    and Token. Messages leave paths and quoted contents out. *)

From Stdlib Require Import Floats.SpecFloat.
From stdpp Require Import pretty.
From S2P Require Import Prelude Text Net Common Prog Browse Config Files Upload PathInfo Push Settings Token Doctor.

(** ** Printing *)

(** An [f64] that is not negative, in tenths, ties to even: [{:.1}]. *)
Definition tenths (x : f64) : Z :=
  match x with
  | S754_finite _ m e =>
      if (0 <=? e)%Z then (Zpos m * 2 ^ e * 10)%Z
      else
        let n := (Zpos m * 10)%Z in
        let d := (2 ^ (- e))%Z in
        let '(q, r) := (n / d, n mod d)%Z in
        if (d <? 2 * r)%Z || ((d =? 2 * r)%Z && Z.odd q) then (q + 1)%Z else q
  | _ => 0%Z
  end.

Definition one_decimal (x : f64) : string := pretty (tenths x / 10)%Z +:+ "." +:+ pretty (tenths x mod 10)%Z.

Definition f64_1024 : f64 := f64_of_Z 1024.

(** The loop over the units above the first. *)
Fixpoint scale_down (size : f64) (units : list string) (unit : string) : f64 * string :=
  match units with
  | next :: units =>
      if SFleb f64_1024 size then scale_down (SFdiv 53 1024 size f64_1024) units next else (size, unit)
  | [] => (size, unit)
  end.

Definition human_bytes (bytes : Z) : string :=
  let '(size, unit) := scale_down (f64_of_Z bytes) ["KiB"; "MiB"; "GiB"; "TiB"] "B" in
  if bool_decide (unit = "B") then pretty bytes +:+ " B" else one_decimal size +:+ " " +:+ unit.

Lemma example_sizes :
  human_bytes 0 = "0 B" ∧ human_bytes 1023 = "1023 B" ∧ human_bytes 2048 = "2.0 KiB" ∧
  human_bytes 1280 = "1.2 KiB" ∧ human_bytes (-5) = "-5 B" ∧ human_bytes (5 * 2 ^ 50) = "5120.0 TiB".
Proof. repeat split; vm_compute; reflexivity. Qed.

Definition human_duration (seconds : Z) : string :=
  if (seconds <=? 0)%Z then "expired"
  else if (seconds <? 90)%Z then "in " +:+ pretty seconds +:+ "s"
  else if (seconds <? 5400)%Z then "in " +:+ pretty (Z.quot seconds 60) +:+ "m"
  else if (seconds <? 172800)%Z then "in " +:+ pretty (Z.quot seconds 3600) +:+ "h"
  else "in " +:+ pretty (Z.quot seconds 86400) +:+ "d".

(** [{:>n}]; padding counts bytes, which are the characters of an ASCII text. *)
Definition pad_left (n : nat) (s : string) : string := str_join "" (replicate (n - str_len s) " ") +:+ s.

Definition tree_mark (node : TreeNode) : string :=
  if tn_missing node then " (missing)" else if tn_truncated node then " (…)" else "".

(** [browse::render]. *)
Fixpoint tree_render (depth : nat) (node : TreeNode) : string :=
  writeln (str_join "" (replicate depth "  ") +:+ tn_name node +:+ tree_mark node) +:+
  str_join "" (map (tree_render (S depth)) (tn_children node)).

Definition render_page (page : Page) (limit : nat) : string :=
  str_join "" (map (λ o, writeln (s_hash o +:+ "  " +:+ pad 40 (s_name o) +:+ " " +:+ pad_left 12 (human_bytes (s_file_size o)) +:+
    " on disk")) (pg_objects page)) +:+
  match pg_next_cursor page with
  | Some _ =>
      writeln (if limit <? MAX_LIMIT then "… more results; narrow the query or raise --limit" else "… more results; narrow the query")
  | None => ""
  end.

Definition pin_expiry (now : Z) (expires_at : option Z) : string :=
  match expires_at with
  | None => "permanent"
  | Some t => if (t <=? now)%Z then "expired" else "expires at " +:+ pretty t
  end.

(** The hash is cut to eight bytes: store hashes are ASCII. *)
Definition render_pins (pins : list Pin) (now : Z) : string :=
  str_join "" (map (λ pin, writeln (pad 20 (pi_name pin) +:+ " " +:+
    str_take (8 `min` str_len (pi_store_path_hash pin)) (pi_store_path_hash pin) +:+ "  " +:+ pi_store_path pin +:+
    " (" +:+ pin_expiry now (pi_expires_at pin) +:+ ")")) pins).

(** ** Commands *)

Inductive CliOp : Type → Type :=
  | Cli_CreateParents (path : string) (mode : Z) : CliOp (Result unit IoError)
  | Cli_Fs {B} (op : FsOp B) : CliOp B
  | Cli_Web {B} (op : DoctorOp B) : CliOp B
  | Cli_Grant {B} (op : TokenOp B) : CliOp B
  (** [nix config show substituters], if it could be run. *)
  | Cli_NixShow : CliOp (option (bool * string))
  | Cli_SendTo (socket payload : string) : CliOp (Result unit string)
  (** A GET with a bearer token; the query is encoded by the URL library. *)
  | Cli_Get (url : string) (params : list (string * string)) (token : string) : CliOp (Result Answer string)
  (** [nix path-info --json --recursive]. *)
  | Cli_PathInfo (paths : list string) : CliOp (Result NixOutput string)
  | Cli_Stdin : CliOp (Result string string)
  | Cli_Now : CliOp Z.

Abbreviation Cli := (Prog CliOp).

Definition settings_message (e : SettingsError) : string :=
  match e with
  | Set_Text message => message
  | Set_Io NotFound => "not found"
  | Set_Io AlreadyExists => "already exists"
  | Set_Io (IoFailed message) => message
  end.

(** A program over files, its errors as messages. *)
Definition on_files {A} (p : Prog FsOp (Result A SettingsError)) : Cli (Result A string) :=
  do r <- prog_lift (@Cli_Fs) p; Ret (map_err settings_message r).

(** [config::write]. *)
Definition config_write (pid : Z) (path contents : string) : Cli (Result unit string) :=
  do made <- request (Cli_CreateParents path 448); (* 0o700 *)
  match made with
  | Err e => Ret (Err (settings_message (Set_Io e)))
  | Ok _ => on_files (io (write_atomic pid path contents 438)) (* 0o666 *)
  end.

(** argv, or the words of the fallback when there is none. *)
Definition paths_or_fallback (args : list string) (fallback : option string) : list string :=
  match args with [] => split_whitespace (default "" fallback) | _ => args end.

(** It exits 0 whatever happens. *)
Definition enqueue (args : list string) (out_paths : option string) (socket : string) : Cli unit :=
  match paths_or_fallback args out_paths with
  | [] => Ret tt
  | paths => do _ <- request (Cli_SendTo socket (str_join " " paths)); Ret tt
  end.

Definition token_path (env : Env) : Result string string :=
  let? home := config_home env in Ok (path_join (path_join home "garret") "token.json").

Definition logout (env : Env) : Cli (Result string string) :=
  do? path <- Ret (token_path env);
  do? _ <- on_files (io (remove_optional path));
  Ret (Ok path).

Section commands.
Context `{L : ClientLibs, U : UrlParser, J : TokenLibs, D : DiscoveryJson, T : Toml} (env : Env) (pid : Z).

(** The config [login] is to use, written first when a URL is given. *)
Definition login_config (explicit url : option string) (force : bool) : Cli (Result ClientConfig string) :=
  match url with
  | None => on_files (config_load env explicit)
  | Some url =>
      do? path <- Ret (resolve_path env explicit);
      let url := trim_trailing_slashes url in
      do? discovered <- prog_lift (@Cli_Web) (fetch url);
      do? rendered <- Ret (config_render url discovered);
      do? current <- on_files (io (read_optional path));
      do? _ <- match current with
               | Some current =>
                   if bool_decide (current = rendered) then Ret (Ok tt)
                   else if negb force then Ret (Err (path +:+ " already exists. Re-run with --force to replace it"))
                   else config_write pid path rendered
               | None => config_write pid path rendered
               end;
      on_files (config_load env explicit)
  end.

(** [None]: the human has not approved within [fuel] polls. *)
Definition login (fuel : nat) (explicit url : option string) (force : bool) : Cli (option (Result bool string)) :=
  do cfg <- login_config explicit url force;
  match (let? cfg := cfg in
         let? client_id := ok_or (os_client_id (cc_oidc cfg)) "`oidc.client_id` is required for `garret login`" in
         let? issuer := ok_or (os_issuer (cc_oidc cfg)) "`oidc.issuer` is required to log in" in
         Ok (issuer, client_id, os_resource (cc_oidc cfg))) with
  | Err e => Ret (Some (Err e))
  | Ok (issuer, client_id, resource) => prog_lift (@Cli_Grant) (device_login fuel issuer client_id resource)
  end.

(** What [use --print] shows, or nothing. *)
Definition use_cache (cfg : ClientConfig) (print : bool) : Cli (Result string string) :=
  match cc_puller_endpoint cfg with
  | None => Ret (Err ("set `puller_endpoint` in the config: `use` points nix at the Puller, " +:+ "not the Pusher"))
  | Some puller =>
      if is_nil (cc_public_keys cfg) then
        Ret (Err ("no `public_keys` in the config — nix would fetch from the cache and then refuse every path as unsigned." +:+
          String newline "" +:+ "Re-run `garret login --force " +:+ cc_endpoint cfg +:+ "` to pick them up from the server."))
      else if print then
        Ret (Ok (nixconf_lines puller (cc_public_keys cfg) +:+ writeln (String newline "# Or, on NixOS:" +:+ String newline "") +:+
          nixos_snippet puller (cc_public_keys cfg)))
      else
        do? _ <- on_files (nixconf_apply env pid puller (cc_public_keys cfg));
        do shown <- request Cli_NixShow;
        Ret (match honoured puller shown with
             | Some false =>
                 Err ("nix does not list " +:+ puller +:+ " as a substituter, so it is ignoring your user nix.conf." +:+
                   String newline "" +:+ "That happens when your user is not in `trusted-users`. On NixOS, add instead:" +:+
                   String newline (String newline "") +:+ nixos_snippet puller (cc_public_keys cfg))
             | _ => Ok ""
             end)
  end.
End commands.

(** ** Commands that use a token *)

(** An answer's JSON, and the types it is read as. *)
Class BrowseJson := {
  json_value : Type;
  json_parse : string → Result json_value string;
  json_print : json_value → string;
  page_from_value : json_value → Result Page string;
  tree_from_value : json_value → Result TreeNode string;
  pins_from_value : json_value → Result (list Pin) string;
}.

Section authenticated.
Context `{L : ClientLibs, U : UrlParser, J : TokenLibs, T : Toml, PJ : PathInfoJson, BJ : BrowseJson}.
(** What [TokenSource::for_config] finds in the environment. *)
Context (env : Env) (cpus : option Z) (given : option string) (github : option GithubActions)
  (secret : string → Result string string).

(** [TokenSource::for_config]. *)
Definition for_config (cfg : ClientConfig) : Result Mint string :=
  mint_select (cc_oidc cfg) given (credential_kind (cc_oidc cfg) github) secret.

(** [browse::get]. *)
Definition browse_get (url : string) (params : list (string * string)) (token what : string) : Cli (Result json_value string) :=
  do answer <- request (Cli_Get url params token);
  Ret (let? answer := map_err (λ e, "fetching " +:+ what +:+ ": " +:+ e) answer in
       let? answer := ensure_success answer ("fetching " +:+ what) in
       match an_body answer with
       | Ok text => map_err (λ e, "parsing " +:+ what +:+ ": " +:+ e) (json_parse text)
       | Err _ => Err ("parsing " +:+ what)
       end).

(** What it prints on stdout. *)
Definition show {A} (cfg : ClientConfig) (route : string) (params : list (string * string)) (as_json : bool) (what : string)
    (from_value : json_value → Result A string) (render : A → string) : Cli (Result string string) :=
  match cc_puller_endpoint cfg with
  | None => Ret (Err "set `puller_endpoint` in the config: list/tree/pins query the Puller")
  | Some puller =>
      do? mint <- Ret (for_config cfg);
      do got <- prog_lift (@Cli_Grant) (token_get mint None);
      do? token <- Ret got.1;
      do? _ <- Ret (ok_or (url_parse (puller +:+ route)) ("building the URL for " +:+ what));
      do? raw <- browse_get (puller +:+ route) params token what;
      Ret (if as_json then Ok (writeln (json_print raw))
           else let? value := map_err (λ e, "parsing " +:+ what +:+ ": " +:+ e) (from_value raw) in Ok (render value))
  end.

Definition list_command (cfg : ClientConfig) (query : option string) (limit : nat) (as_json : bool) : Cli (Result string string) :=
  show cfg OBJECTS (("limit", pretty limit) :: match query with Some q => [("q", q)] | None => [] end) as_json
    "the object list" page_from_value (λ page, render_page page limit).

Definition tree_command (cfg : ClientConfig) (hash : string) (as_json : bool) : Cli (Result string string) :=
  match parse_store_hash hash with
  | None => Ret (Err ("`" +:+ hash +:+ "` is not a 32-character store hash or a store path"))
  | Some hash =>
      show cfg (with_hash OBJECT_TREE hash) [] as_json "the dependency tree" tree_from_value (tree_render 0)
  end.

Definition pins_command (cfg : ClientConfig) (as_json : bool) : Cli (Result string string) :=
  do now <- request Cli_Now;
  show cfg PINS [] as_json "the pin list" pins_from_value (λ pins, render_pins pins now).

Definition whoami_text (cfg : ClientConfig) (claims : Claims) (now : Z) : string :=
  writeln ("endpoint   " +:+ cc_endpoint cfg) +:+
  writeln ("puller     " +:+ default "(unset)" (cc_puller_endpoint cfg)) +:+
  writeln ("issuer     " +:+ default "(unset)" (os_issuer (cc_oidc cfg))) +:+
  writeln ("audience   " +:+ os_audience (cc_oidc cfg)) +:+
  writeln ("subject    " +:+ default "(unknown)" (cl_sub claims)) +:+
  writeln ("expires    " +:+
    match cl_exp claims with
    | Some exp => pretty exp +:+ " (" +:+ human_duration (exp - now) +:+ ")"
    | None => "(unknown)"
    end) +:+
  writeln "authenticated: the Pusher accepted this token".

Definition whoami (cfg : ClientConfig) : Cli (Result string string) :=
  do? _ <- Ret (for_config cfg);
  do? claims <- prog_lift (λ B op, Cli_Web (@Doctor_Run B op)) (authenticate (connection_of cfg cpus));
  do now <- request Cli_Now;
  Ret (Ok (whoami_text cfg claims now)).

(** [Pusher::from_config], and the flag over the configured [jobs]. *)
Definition push_connection (cfg : ClientConfig) (jobs : option nat) : Result Connection string :=
  let? _ := for_config cfg in
  let conn := connection_of cfg cpus in
  match jobs with
  | None => Ok conn
  | Some 0 => Err "--jobs must be at least 1"
  | Some jobs =>
      Ok (mkConnection (co_endpoint conn) jobs (co_zstd_level conn) (co_max_retries conn) (co_upload_idle conn) (co_cpus conn))
  end.

Definition filter_keys (cfg : ClientConfig) (no_upstream_filter : bool) : list string :=
  if no_upstream_filter then [] else cc_upstream_keys cfg.

(** [push::run]. *)
Definition push_run (conn : Connection) (paths upstream_keys : list string) (dry_run : bool) : Cli (Result Summary string) :=
  do output <- request (Cli_PathInfo paths);
  do? closure <- Ret (path_info output);
  do summary <- prog_lift (λ B op, Cli_Web (@Doctor_Run B op)) (push_closure conn closure upstream_keys dry_run);
  Ret (map_err neg_message summary).

(** [garret push]; [terminal]: whether stdin is one. *)
Definition push_command (terminal : bool) (explicit : option string) (args : list string) (jobs : option nat)
    (dry_run no_upstream_filter : bool) : Cli (Result unit string) :=
  do? cfg <- on_files (config_load env explicit);
  do? stdin <- (if is_nil args && negb terminal
                then do text <- request Cli_Stdin;
                     Ret (let? text := map_err (λ e, "reading store paths from stdin: " +:+ e) text in Ok (Some text))
                else Ret (Ok None));
  let paths := paths_or_fallback args stdin in
  if is_nil paths then Ret (Err "nothing to push")
  else
    do? conn <- Ret (push_connection cfg jobs);
    do? summary <- push_run conn paths (filter_keys cfg no_upstream_filter) dry_run;
    Ret (if 0 <? su_failed summary then Err (pretty (su_failed summary) +:+ " path(s) failed to push") else Ok tt).

(** [garret watch-store --drain], from what the watcher's drain answers. *)
Definition drain_exit (failed : Result (list string) string) : Result unit string :=
  let? failed := failed in
  if is_nil failed then Ok tt
  else Err (pretty (length failed) +:+ " path(s) failed to push and stay on the failed list:" +:+ String newline "  " +:+
         str_join (String newline "  ") failed).
End authenticated.

(** ** Files under the commands *)

(** The commands' requests act on files as those of Files do; the rest leave
    them alone. The token file is not among them. *)
Definition cli_step (fs : Fs) {B} (op : CliOp B) : B → Fs → Prop :=
  match op in CliOp B return B → Fs → Prop with
  | Cli_CreateParents _ _ => λ _ fs', fs' = fs
  | Cli_Fs op => λ b fs', fs_step fs op b fs'
  | Cli_Web _ => λ _ fs', fs' = fs
  | Cli_Grant _ => λ _ fs', fs' = fs
  | Cli_NixShow => λ _ fs', fs' = fs
  | Cli_SendTo _ _ => λ _ fs', fs' = fs
  | Cli_Get _ _ _ => λ _ fs', fs' = fs
  | Cli_PathInfo _ => λ _ fs', fs' = fs
  | Cli_Stdin => λ _ fs', fs' = fs
  | Cli_Now => λ _ fs', fs' = fs
  end.

Lemma on_files_always {A} inv (p : Prog FsOp (Result A SettingsError)) fs (post : Result A string → Fs → Prop) :
  always (@fs_step) inv p fs (λ r fs', post (map_err settings_message r) fs') → always (@cli_step) inv (on_files p) fs post.
Proof.
  intros H. apply always_bind. eapply always_weaken; [apply (always_lift (@fs_step) (@cli_step)); [done|exact H]|done|].
  intros r fs' Hi Hp. by apply always_ret.
Qed.

(** A read leaves the files alone. *)
Lemma read_optional_always (inv : Fs → Prop) path fs (post : Result (option string) IoError → Fs → Prop) :
  inv fs → (∀ text, (text = Ok (fs !! path) ∨ ∃ e, text = Err e) → post text fs) →
  always (@fs_step) inv (read_optional path) fs post.
Proof.
  intros Hi Hp. apply always_request; [done|]. intros r fs' [-> Hr]. apply always_ret; [done|]. apply Hp.
  destruct r as [text|[]]; cbn; [left; congruence|left; congruence|right; eauto..].
Qed.

Lemma config_load_always `{U : UrlParser, T : Toml} (inv : Fs → Prop) env explicit fs
    (post : Result ClientConfig SettingsError → Fs → Prop) :
  inv fs → (∀ r, post r fs) → always (@fs_step) inv (config_load env explicit) fs post.
Proof.
  intros Hi Hp. unfold config_load. destruct (resolve_path env explicit) as [path|e]; cbn [map_err prog_bind]; [|by apply always_ret].
  apply always_bind, io_always, read_optional_always; [done|]. intros [text|e] _; by apply always_ret.
Qed.

Lemma fetch_checked `{L : ClientLibs, U : UrlParser, D : DiscoveryJson} endpoint tr d :
  run_trace (fetch endpoint) tr (Ok d) → url_ok endpoint ∧ check d = Ok tt.
Proof.
  intros H. destruct (proj1 (fetch_trace _ _ _ H d) eq_refl) as (Hu & a & _ & Ha). split; [done|].
  unfold discovery_answer in Ha. destruct (_ || _)%bool; [done|]. destruct (ensure_success a _); [|done].
  destruct (match an_body v with Ok text => _ | Err _ => _ end) as [d'|]; [|done].
  destruct (check d') as [[]|] eqn:Hc; [|done]. cbn in Ha. by injection Ha as <-.
Qed.

(** ** Logging in *)

Section login.
Context `{L : ClientLibs, U : UrlParser, J : TokenLibs, D : DiscoveryJson, T : Toml}.

(** Requests that leave the files alone: their program may end in any way. *)
Lemma lifted_still {Op A} (f : ∀ B, Op B → CliOp B) inv (p : Prog Op A) fs (post : A → Fs → Prop) :
  (∀ B (op : Op B) b fs fs', cli_step fs (f B op) b fs' → fs' = fs) → inv fs →
  (∀ tr a, run_trace p tr a → post a fs) → always (@cli_step) inv (prog_lift f p) fs post.
Proof.
  intros Hf Hi Hp. apply (always_lift (λ fs B (op : Op B) b fs', fs' = fs)); [eauto|]. by apply always_still.
Qed.

(** What [login] would have the file at [path] say: what a server's discovery
    document renders to, one that passed [check]. *)
Definition advertised (url text : string) : Prop :=
  ∃ d, check d = Ok tt ∧ config_render (trim_trailing_slashes url) d = Ok text.

(** The files while [login] runs: only the configuration may have changed, and
    only with consent. *)
Definition consented (path : string) (pid : Z) (url : option string) (force : bool) (fs fs' : Fs) : Prop :=
  (∀ p, p ≠ path → p ≠ temporary path pid → fs' !! p = fs !! p) ∧
  (fs' !! path = fs !! path ∨
   (force = true ∨ fs !! path = None) ∧ ∃ u text, url = Some u ∧ advertised u text ∧ fs' !! path = Some text).

(** Once it has a configuration, the file is the server's. *)
Definition settled (path : string) (url : option string) (fs fs' : Fs) : Prop :=
  match url with
  | None => fs' = fs
  | Some u => ∃ text, advertised u text ∧ fs' !! path = Some text
  end.

Lemma consented_now path pid url force fs : consented path pid url force fs fs.
Proof. split; [done|by left]. Qed.

(** [config_write], where replacing the file is allowed. *)
Lemma config_write_always path pid u force fs text (post : Result unit string → Fs → Prop) :
  (force = true ∨ fs !! path = None) → advertised u text →
  (∀ e fs', consented path pid (Some u) force fs fs' → post (Err e) fs') →
  (∀ fs', consented path pid (Some u) force fs fs' → fs' !! path = Some text → post (Ok tt) fs') →
  always (@cli_step) (consented path pid (Some u) force fs) (config_write pid path text) fs post.
Proof.
  intros Hf Ht Herr Hok. pose proof (consented_now path pid (Some u) force fs) as Hnow.
  assert (Hin : ∀ fs', (∀ p, p ≠ path → p ≠ temporary path pid → fs' !! p = fs !! p) ∧
    (fs' !! path = fs !! path ∨ fs' !! path = Some text) → consented path pid (Some u) force fs fs').
  { intros fs' [H1 [H2|H2]]; split; [done|by left|done|right]. split; [done|]. by exists u, text. }
  apply always_request; [done|]. intros [made|e] fs1 ->; [|apply always_ret; auto].
  apply on_files_always, io_always. eapply always_weaken; [apply write_atomic_always|exact Hin|].
  intros [[]|e] fs' Hi Hr; cbn [map_err]; [|by apply Herr, Hin].
  apply Hok; [by apply Hin|]. rewrite Hr. by rewrite lookup_insert_eq.
Qed.

Lemma login_config_always env pid explicit url force path fs :
  resolve_path env explicit = Ok path →
  always (@cli_step) (consented path pid url force fs) (login_config env pid explicit url force) fs
    (λ r fs', is_ok r = true → settled path url fs fs').
Proof.
  intros Hpath. pose proof (consented_now path pid url force fs) as Hnow. unfold login_config.
  destruct url as [u|]; [|by apply on_files_always, config_load_always].
  rewrite Hpath. cbn [prog_bind].
  apply always_bind, lifted_still; [done|done|]. intros tr r Hr. destruct r as [d|e]; [|by apply always_ret].
  apply fetch_checked in Hr as [_ Hd].
  destruct (config_render (trim_trailing_slashes u) d) as [text|e] eqn:Ht; cbn [prog_bind]; [|by apply always_ret].
  assert (Ha : advertised u text) by (by exists d).
  apply always_bind, on_files_always, io_always, read_optional_always; [done|]. intros current Hc.
  assert (Hload : ∀ fs', consented path pid (Some u) force fs fs' → fs' !! path = Some text →
    always (@cli_step) (consented path pid (Some u) force fs) (on_files (config_load env explicit)) fs'
      (λ r fs', is_ok r = true → settled path (Some u) fs fs')).
  { intros fs' Hi Hf. apply on_files_always, config_load_always; [done|]. intros _ _. by exists text. }
  destruct current as [current|e]; cbn [map_err prog_bind]; [|by apply always_ret].
  destruct Hc as [[= ->]|[? [=]]]. apply always_bind.
  assert (Hwrite : force = true ∨ fs !! path = None →
    always (@cli_step) (consented path pid (Some u) force fs) (config_write pid path text) fs
      (λ r fs', always (@cli_step) (consented path pid (Some u) force fs)
         match r with Ok _ => on_files (config_load env explicit) | Err e => Ret (Err e) end fs'
         (λ r fs', is_ok r = true → settled path (Some u) fs fs'))).
  { intros Hf. apply (config_write_always _ _ u); [done|done|by intros; apply always_ret|auto]. }
  destruct (fs !! path) as [old|] eqn:Hold; [|auto].
  case_bool_decide as Heq; [apply always_ret; [done|]; apply Hload; congruence|].
  destruct force; cbn [negb]; [by apply Hwrite; left|]. by repeat apply always_ret.
Qed.

(** C17: Whatever its network and file calls answer, and wherever it is killed, garret login changes
    no file but the configuration, its temporary one and the stored token, and the configuration
    only where there was none or --force was given, and then only to the whole text rendered from a
    discovery document that passed every check; when it ends well the file is that text, or
    untouched if no URL was given. *)
Theorem login_replaces_only_with_consent env pid fuel explicit url force path fs :
  resolve_path env explicit = Ok path →
  always (@cli_step) (consented path pid url force fs) (login env pid fuel explicit url force) fs
    (λ r fs', (∃ stored, r = Some (Ok stored)) → settled path url fs fs').
Proof.
  intros Hpath. apply always_bind. eapply always_weaken; [by apply login_config_always|done|].
  intros cfg fs' Hi Hs. cbn [prog_bind].
  assert (Herr : ∀ e : string, always (@cli_step) (consented path pid url force fs) (Ret (Some (Err e))) fs'
    (λ r fs', (∃ stored : bool, r = Some (Ok stored)) → settled path url fs fs')) by (intros e; apply always_ret; [done|by intros [? [=]]]).
  destruct cfg as [cfg|e]; [|apply Herr].
  destruct (os_client_id (cc_oidc cfg)); cbn [ok_or]; [|apply Herr].
  destruct (os_issuer (cc_oidc cfg)); cbn [ok_or]; [|apply Herr].
  apply lifted_still; [done|done|]. intros tr r _ [stored ->]. by apply Hs.
Qed.
End login.

(** ** Pushing *)

Section pushing.
Context `{L : ClientLibs, U : UrlParser, J : TokenLibs, T : Toml, PJ : PathInfoJson}.

(** The requests of the push run in a command's trace. *)
Definition run_of (e : Event CliOp) : option (Event RunOp) :=
  match e with
  | Ev op b =>
      match op in CliOp B return B → option (Event RunOp) with
      | Cli_Web op =>
          match op in DoctorOp B return B → option (Event RunOp) with
          | Doctor_Run op => λ b, Some (Ev op b)
          | Doctor_Get _ => λ _, None
          end
      | _ => λ _, None
      end b
  end.

Definition run_events (tr : list (Event CliOp)) : list (Event RunOp) := omap run_of tr.

Lemma run_events_lifted tr : run_events (map (lift_event (λ B op, Cli_Web (@Doctor_Run B op))) tr) = tr.
Proof. unfold run_events. induction tr as [|[B op b] tr IH]; [done|]. cbn. by rewrite IH. Qed.

Lemma run_events_files tr : run_events (map (lift_event (@Cli_Fs)) tr) = [].
Proof. unfold run_events. induction tr as [|[B op b] tr IH]; [done|exact IH]. Qed.

Lemma on_files_trace {A} (p : Prog FsOp (Result A SettingsError)) tr r :
  run_trace (on_files p) tr r → run_events tr = [] ∧ ∃ t r', run_trace p t r' ∧ r = map_err settings_message r'.
Proof.
  intros (r' & tr1 & tr2 & -> & (t & -> & H)%run_trace_lift & [-> ->]%run_trace_ret)%run_trace_bind.
  rewrite app_nil_r. split; [apply run_events_files|eauto].
Qed.

Lemma push_run_trace conn paths keys dry_run tr s :
  run_trace (push_run conn paths keys dry_run) tr (Ok s) →
  ∃ output closure, In (Ev (Cli_PathInfo paths) output) tr ∧ path_info output = Ok closure ∧
    run_trace (push_closure conn closure keys dry_run) (run_events tr) (Ok s).
Proof.
  intros (output & tr' & -> & H)%run_trace_request_bind.
  destruct (path_info output) as [closure|e] eqn:Ho; cbn [prog_bind] in H; [|by apply run_trace_ret in H as [_ [=]]].
  apply run_trace_bind in H as (r & tr1 & tr2 & -> & (t & -> & H)%run_trace_lift & [-> Hr]%run_trace_ret).
  exists output, closure. split; [by left|]. split; [done|]. rewrite app_nil_r.
  replace (run_events _) with t by (unfold run_events; cbn [omap list_omap run_of]; symmetry; apply run_events_lifted).
  destruct r; [|done]. by injection Hr as ->.
Qed.

Lemma push_command_trace env cpus given github secret terminal explicit args jobs dry_run no_filter tr :
  run_trace (push_command env cpus given github secret terminal explicit args jobs dry_run no_filter) tr (Ok tt) →
  ∃ t cfg stdin conn s before after,
    run_trace (config_load env explicit) t (Ok cfg) ∧ tr = before ++ after ∧ run_events before = [] ∧
    (In (Ev Cli_Stdin (Ok stdin)) before ∨ stdin = "" ∨ args ≠ []) ∧
    paths_or_fallback args (Some stdin) ≠ [] ∧
    push_connection cpus given github secret cfg jobs = Ok conn ∧ su_failed s = 0 ∧
    run_trace (push_run conn (paths_or_fallback args (Some stdin)) (filter_keys cfg no_filter) dry_run) after (Ok s).
Proof.
  intros (r & tr1 & tr2 & -> & (Hno & t & cfg & Hload & ->)%on_files_trace & H)%run_trace_bind.
  destruct cfg as [cfg|e]; cbn [map_err] in H; [|by apply run_trace_ret in H as [_ [=]]].
  apply run_trace_bind in H as (stdin & tr3 & tr4 & -> & Hstdin & H).
  destruct stdin as [stdin|e]; [|by apply run_trace_ret in H as [_ [=]]]. cbv zeta in H.
  assert (Hin : run_events tr3 = [] ∧ (stdin = None ∨ ∃ text, stdin = Some text ∧ (In (Ev Cli_Stdin (Ok text)) tr3))).
  { destruct (is_nil args && negb terminal); [|by apply run_trace_ret in Hstdin as [-> [= ->]]; auto].
    apply run_trace_request_bind in Hstdin as (text & tr' & -> & [-> Ht]%run_trace_ret). split; [done|].
    destruct text as [text|]; [|done]. cbn in Ht. injection Ht as ->. right. exists text. by split; [|left]. }
  destruct Hin as [Hno3 Hin].
  assert (Hf : paths_or_fallback args stdin = paths_or_fallback args (Some (default "" stdin))) by (by destruct args, stdin).
  rewrite Hf in H. clear Hf.
  destruct (is_nil (paths_or_fallback args (Some (default "" stdin)))) eqn:Hnil; [by apply run_trace_ret in H as [_ [=]]|].
  destruct (push_connection cpus given github secret cfg jobs) as [conn|e] eqn:Hc; cbn [prog_bind] in H;
    [|by apply run_trace_ret in H as [_ [=]]].
  apply run_trace_bind in H as (s & tr5 & tr6 & -> & Hpush & H).
  destruct s as [s|e]; [|by apply run_trace_ret in H as [_ [=]]]. apply run_trace_ret in H as [-> Hs].
  exists t, cfg, (default "" stdin), conn, s, (tr1 ++ tr3), tr5. rewrite app_nil_r, <-app_assoc.
  unfold run_events in *. rewrite omap_app, Hno, Hno3.
  split_and!; [done|done|done| |by destruct (paths_or_fallback args _)|done| |done].
  - destruct Hin as [->|(text & -> & Hin)]; [by right; left|left]. apply in_or_app. by right.
  - destruct (su_failed s); [done|by cbn in Hs].
Qed.

(** C11: When garret push exits 0 it has pushed what it was asked to: the paths are those given, or
    the words of stdin, and there is one; nix reported their closure; and every path of the closure
    that no configured upstream key signs was named in the run's last Negotiation and was present in
    it, or was pushed or found stored by the pool that ran after it. *)
Theorem push_exits_clean env cpus given github secret terminal explicit args jobs no_filter tr :
  run_trace (push_command env cpus given github secret terminal explicit args jobs false no_filter) tr (Ok tt) →
  ∃ t cfg stdin conn output closure,
    run_trace (config_load env explicit) t (Ok cfg) ∧
    (In (Ev Cli_Stdin (Ok stdin)) tr ∨ stdin = "" ∨ args ≠ []) ∧
    push_connection cpus given github secret cfg jobs = Ok conn ∧
    paths_or_fallback args (Some stdin) ≠ [] ∧
    In (Ev (Cli_PathInfo (paths_or_fallback args (Some stdin))) output) tr ∧ path_info output = Ok closure ∧
    (Forall (λ batch, push_tracked (co_jobs conn) batch.1 batch.2) (pushes (run_events tr)) →
     ∀ p, p ∈ closure → signed_by (pi_signatures p) (filter_keys cfg no_filter) = false → covered (run_events tr) p).
Proof.
  intros (t & cfg & stdin & conn & s & before & after & Hload & -> & Hno & Hin & Hne & Hc & Hs & Hrun)%push_command_trace.
  apply push_run_trace in Hrun as (output & closure & Hout & Hpath & Hrun).
  exists t, cfg, stdin, conn, output, closure. unfold run_events in *. rewrite omap_app, Hno.
  split_and!; [done| |done|done|apply in_or_app; by right|done|].
  - destruct Hin as [Hin|Hin]; [left; apply in_or_app; by left|by right].
  - intros Hpool p Hp Hk. by eapply clean_push_covered.
Qed.
End pushing.

(** ** A login *)

(** Every call succeeds. *)
Definition example_files (fs : Fs) {B} (op : FsOp B) : B * Fs :=
  match op in FsOp B return B * Fs with
  | Fs_Read path => (ok_or (fs !! path) NotFound, fs)
  | Fs_CreateParent _ => (Ok tt, fs)
  | Fs_Remove path => (if bool_decide (fs !! path = None) then (Err NotFound, fs) else (Ok tt, delete path fs))
  | Fs_CreateNew path _ => (if bool_decide (fs !! path = None) then (Ok tt, <[path := ""]> fs) else (Err AlreadyExists, fs))
  | Fs_WriteAll path contents => (Ok tt, <[path := contents]> fs)
  | Fs_SyncAll _ => (Ok tt, fs)
  | Fs_Rename from to => (match fs !! from with Some c => (Ok tt, <[to := c]> (delete from fs)) | None => (Err NotFound, fs) end)
  | Fs_Canonicalize path => (Ok path, fs)
  end.

(** A server that advertises [slash_discovery], and an issuer whose human
    approves at once. *)
Definition example_login_answers (fs : Fs) {B} (op : CliOp B) : B * Fs :=
  match op in CliOp B return B * Fs with
  | Cli_CreateParents _ _ => (Ok tt, fs)
  | Cli_Fs op => example_files fs op
  | Cli_Web op => ((example_services tt op).1, fs)
  | Cli_Grant op =>
      (match op in TokenOp B return B with
       | Token_Now => 0%Z
       | Token_Sleep _ => tt
       | Token_Get _ => Ok (mkAnswer 200 None (Ok "https://id.example"))
       | Token_Post _ _ => Ok (mkAnswer 200 None (Ok "r"))
       | Token_Github _ _ _ => Err "not a runner"
       | Token_ReadFile => Ok None
       | Token_SaveFile _ => Ok tt
       end, fs)
  | Cli_NixShow => (None, fs)
  | Cli_SendTo _ _ => (Ok tt, fs)
  | Cli_Get _ _ _ => (Ok (mkAnswer 200 None (Ok "")), fs)
  | Cli_PathInfo _ => (Err "no nix", fs)
  | Cli_Stdin => (Ok "", fs)
  | Cli_Now => (0%Z, fs)
  end.

Lemma example_login_step fs B (op : CliOp B) :
  cli_step fs op (example_login_answers fs op).1 (example_login_answers fs op).2.
Proof.
  destruct op as [| B op| B op| B op| | | | | |]; try done. destruct op; cbn; try done.
  - by destruct (fs !! _).
  - case_bool_decide; [by split|done].
  - case_bool_decide; [by split|done].
  - destruct (fs !! _) eqn:?; cbn; [by eexists|done].
  - split; [done|]. by intros target [= ->].
Qed.

Definition example_config_path : string := "/home/u/.config/garret/config.toml".
Definition example_login_of (fs : Fs) (force : bool) : list (Event CliOp) * Fs * option (Result bool string) :=
  prog_exec (@example_login_answers) fs
    (login (L := toy_client) (U := toy_url) (J := toy_token) (D := λ _, Ok slash_discovery) (T := slash_toml)
       example_env 7 3 None (Some "https://push.example/") force).

Lemma example_login_always {A} inv (p : Cli A) fs post :
  always (@cli_step) inv p fs post →
  inv (prog_exec (@example_login_answers) fs p).1.2 ∧
  post (prog_exec (@example_login_answers) fs p).2 (prog_exec (@example_login_answers) fs p).1.2.
Proof. intros H. eapply always_runs; [exact H|apply prog_exec_runs, example_login_step]. Qed.

(** A file of the user's own stays without [--force]; without a file, or with
    [--force], the server's takes its place. *)
Lemma login_replaces_only_with_consent_witness :
  let mine : Fs := {[example_config_path := "jobs = 4"]} in
  (example_login_of mine false).1.2 = mine ∧
  (example_login_of mine false).2 = Some (Err "/home/u/.config/garret/config.toml already exists. Re-run with --force to replace it") ∧
  (example_login_of mine true).2 = Some (Ok true) ∧
  (example_login_of ∅ false).2 = Some (Ok true) ∧
  consented example_config_path 7 (Some "https://push.example/") false (U := toy_url) (T := slash_toml) mine
    (example_login_of mine false).1.2 ∧
  settled example_config_path (Some "https://push.example/") (U := toy_url) (T := slash_toml) ∅ (example_login_of ∅ false).1.2.
Proof.
  cbv zeta. split; [vm_compute; reflexivity|]. do 3 (split; [vm_compute; reflexivity|]). split.
  - exact (proj1 (example_login_always _ _ _ _
      (login_replaces_only_with_consent (L := toy_client) (U := toy_url) (J := toy_token) (D := λ _, Ok slash_discovery) (T := slash_toml)
         example_env 7 3 None (Some "https://push.example/") false example_config_path _ eq_refl))).
  - apply (proj2 (example_login_always _ _ _ _
      (login_replaces_only_with_consent (L := toy_client) (U := toy_url) (J := toy_token) (D := λ _, Ok slash_discovery) (T := slash_toml)
         example_env 7 3 None (Some "https://push.example/") false example_config_path _ eq_refl))).
    exists true. vm_compute. reflexivity.
Defined.

(** ** A push *)

(** nix names [example_user] and its dependency; the cache lacks [example_user]
    however often it is asked. *)
Definition example_nix : PathInfoJson := {|
  value_from_slice _ := Ok (V_Array [V_String "user"; V_String "dep"]);
  value_display _ := "";
  info_from_value v :=
    match value_as_str v with
    | Some name => Ok (if bool_decide (name = "user") then example_user else example_dep)
    | None => Err "not an entry"
    end;
|}.
Definition example_push_toml : Toml := {| toml_config _ := Ok healthy_raw; toml_string := quoted |}.

Definition example_push_answers (fs : Fs) {B} (op : CliOp B) : B * Fs :=
  match op in CliOp B return B * Fs with
  | Cli_Web op =>
      (match op in DoctorOp B return B with
       | Doctor_Get _ => Err "not asked"
       | Doctor_Run op =>
           match op in RunOp B return B with
           | Run_Token => Ok "access.t"
           | Run_Renew _ => Ok None
           | Run_Post _ _ _ => Ok (mkAnswer 200 None (Ok "one"))
           | Run_Push paths => map (λ p, (p, Pushed)) paths
           | Run_Report _ => tt
           end
       end, fs)
  | Cli_PathInfo _ => (Ok (mkNixOutput true "" ""), fs)
  | Cli_Stdin => (Ok "/nix/store/0123456789abcdfghijklmnpqrsvwxyz-user", fs)
  | op => example_login_answers fs op
  end.

Definition example_push : list (Event CliOp) * Fs * Result unit string :=
  prog_exec (@example_push_answers) {[example_config_path := ""]}
    (push_command (L := toy_client) (U := toy_url) (T := example_push_toml) (PJ := example_nix) example_env None None None
       (λ _, Err "no secret") false None [] (Some 1) false false).

Lemma push_exits_clean_witness :
  example_push.2 = Ok tt ∧
  pushes (run_events example_push.1.1) =
    [([example_user], [(example_user, Pushed)]); ([example_user], [(example_user, Pushed)])] ∧
  ∃ cfg closure, Forall (λ p, signed_by (pi_signatures p) (filter_keys cfg false) = false →
    covered (L := toy_client) (run_events example_push.1.1) p) closure.
Proof.
  assert (Hr : example_push.2 = Ok tt) by (vm_compute; reflexivity).
  assert (Hp : pushes (run_events example_push.1.1) =
    [([example_user], [(example_user, Pushed)]); ([example_user], [(example_user, Pushed)])]) by (vm_compute; reflexivity).
  split; [done|]. split; [done|].
  assert (Htr := prog_runs_trace (λ _ _ _ _ _, True) _ _ _ _ _ (prog_exec_runs (λ _ _ _ _ _, True) (@example_push_answers)
    {[example_config_path := ""]} (push_command (L := toy_client) (U := toy_url) (T := example_push_toml) (PJ := example_nix)
       example_env None None None (λ _, Err "no secret") false None [] (Some 1) false false) (λ _ _ _, I))).
  change (prog_exec (@example_push_answers) {[example_config_path := ""]} _) with example_push in Htr. rewrite Hr in Htr.
  destruct (push_exits_clean (L := toy_client) (U := toy_url) (T := example_push_toml) (PJ := example_nix) example_env None None None
    (λ _, Err "no secret") false None [] (Some 1) false _ Htr)
    as (t & cfg & stdin & conn & output & closure & _ & _ & Hc & _ & _ & _ & Hcov).
  assert (Hj : co_jobs conn = 1) by (revert Hc; unfold push_connection; by destruct (for_config _ _ _ _); intros [= <-]).
  exists cfg, closure. apply Forall_forall, Hcov. rewrite Hp, Hj.
  assert (Ho : push_tracked 1 [example_user] [(example_user, Pushed)]).
  { eapply (rtc_nsteps_2 2), (nsteps_l _ _ _ (mkPool [] [example_user] [])).
    { apply (pool_start 1 example_user [] []). cbn. lia. }
    apply nsteps_once, (pool_finish 1 [] [] example_user [] [] (Ok Pushed)). intros o [= <-]. by left. }
  by repeat constructor.
Defined.
