(* ===== verification/WatchStore.v ===== *)
(** * WatchStore: the command that runs the watcher

    [garret watch-store] of [crates/garret-client/src/main.rs] and
    [Watcher::from_config] of [watcher.rs]: the configuration, a first token, and
    then the daemon or the drain of Watch. *)

From stdpp Require Import pretty.
From S2P Require Import Prelude Text Net Common Prog Config Upload Push Files PathInfo Settings Token Doctor Commands Watch.

(** [Watcher::from_config]. *)
Definition watcher_of (cfg : ClientConfig) (cursor_path socket_path : option string) : Watcher :=
  let watch := cc_watch cfg in
  mkWatcher (ws_nix_db watch)
    (default (ws_cursor_path watch) cursor_path)
    (ws_poll_interval_secs watch)
    (mkFilters (default (cc_upstream_keys cfg) (ws_upstream_keys watch)) (ws_exclude_patterns watch) (cc_public_keys cfg))
    (ws_max_attempts watch)
    (default (ws_socket_path watch) socket_path).

Inductive StoreOp : Type → Type :=
  | Store_Cli {B} (op : CliOp B) : StoreOp B
  | Store_Watch {B} (op : WatchOp B) : StoreOp B.

Abbreviation Watched := (Prog StoreOp).

Section watch_store.
Context `{U : UrlParser, T : Toml} (env : Env) (given : option string) (github : option GithubActions)
  (secret : string → Result string string).

(** Loads the configuration and mints a token, so that a daemon that cannot
    authenticate says so at once. *)
Definition watch_prepare (explicit cursor socket : option string) : Cli (Result Watcher string) :=
  do? cfg <- on_files (config_load env explicit);
  do? _ <- Ret (for_config given github secret cfg);
  do? _ <- request (Cli_Web (Doctor_Run Run_Token));
  Ret (Ok (watcher_of cfg cursor socket)).

Definition watch_store (fuel : nat) (explicit cursor socket : option string) (full_sync drains : bool)
    : Watched (Result unit string) :=
  do? watcher <- prog_lift (@Store_Cli) (watch_prepare explicit cursor socket);
  if drains then
    do failed <- prog_lift (@Store_Watch) (drain watcher full_sync);
    Ret (drain_exit failed)
  else prog_lift (@Store_Watch) (run watcher fuel full_sync).

(** The watcher's world, in which nix moves while the command gets ready. *)
Definition store_step (w : WatchWorld) {B} (op : StoreOp B) : B → WatchWorld → Prop :=
  match op in StoreOp B return B → WatchWorld → Prop with
  | Store_Cli _ => λ _ w', quiet w w'
  | Store_Watch op => watch_step w op
  end.

Lemma prepare_quietly {A} w (p : Cli A) :
  quiet w w → always (@store_step) (quiet w) (prog_lift (@Store_Cli) p) w (λ _ _, True).
Proof.
  intros Hq. enough (H : ∀ w', quiet w w' → always (@store_step) (quiet w) (prog_lift (@Store_Cli) p) w' (λ _ _, True)) by auto.
  induction p as [a|B op k IH]; intros w' Hw; [by split|]. split; [done|]. intros b w'' Hs. apply IH. by eapply quiet_trans.
Qed.

(** A drain that reports nothing found nothing. *)
Lemma drain_exit_ok failed : drain_exit failed = Ok tt → failed = Ok [].
Proof. unfold drain_exit. destruct failed as [[|]|]; by intros [=]. Qed.

Lemma watch_prepare_ok explicit cursor socket tr watcher :
  run_trace (watch_prepare explicit cursor socket) tr (Ok watcher) →
  ∃ cfg tr1 tr2, tr = tr1 ++ tr2 ∧ run_trace (on_files (config_load env explicit)) tr1 (Ok cfg) ∧ watcher = watcher_of cfg cursor socket.
Proof.
  intros (r & tr1 & tr2 & -> & Hc & H)%run_trace_bind. destruct r as [cfg|e]; [|by apply run_trace_ret in H as [_ [=]]].
  exists cfg, tr1, tr2. split_and!; [done..|]. cbn [prog_bind] in H.
  destruct (for_config given github secret cfg) as [mint|e]; [|by apply run_trace_ret in H as [_ [=]]].
  apply run_trace_request_bind in H as ([token|e] & tr3 & _ & H); by apply run_trace_ret in H as [_ [=]].
Qed.

(** C10: When garret watch-store --drain exits 0 nothing is left to push: it loaded its
    configuration, and every row the Nix database held when the command started and still holds,
    whose id is past the start and which the configuration's filters do not skip, is settled: the
    cache acknowledged it or named it present, or the store no longer holds it. The cursor and the
    failed list on file keep their promise meanwhile. *)
Theorem drain_exits_clean fuel explicit cursor socket full_sync w tr w' :
  prog_runs (@store_step) w (watch_store fuel explicit cursor socket full_sync true) tr w' (Ok tt) →
  ∃ cfg tr1 tr2, tr = map (lift_event (@Store_Cli)) tr1 ++ tr2 ∧
    (∃ tr3 tr4, tr1 = tr3 ++ tr4 ∧ run_trace (on_files (config_load env explicit)) tr3 (Ok cfg)) ∧
    ∀ start, lost_nothing (watcher_of cfg cursor socket) start w → (ww_cursor w = None → (0 ≤ start)%Z) →
      lost_nothing (watcher_of cfg cursor socket) start w' ∧
      ∀ row, row ∈ ww_rows w → row ∈ ww_rows w' → (start < vr_id row)%Z →
        should_skip (wa_filters (watcher_of cfg cursor socket)) (valid_path row) = None →
        ww_settled w' (vr_path row).
Proof.
  intros (r & w1 & tr1 & tr2 & -> & Hp & H)%prog_runs_bind.
  pose proof (prog_runs_trace _ _ _ _ _ _ Hp) as (tr0 & -> & Ht)%run_trace_lift.
  destruct r as [watcher|e]; [|by apply prog_runs_ret_inv in H as (_ & _ & [=])].
  apply watch_prepare_ok in Ht as (cfg & tr3 & tr4 & -> & Hc & ->). exists cfg, (tr3 ++ tr4), tr2. split; [done|]. split; [eauto|].
  intros start Hl Hstart.
  apply prog_runs_bind in H as (failed & w2 & tr5 & tr6 & -> & Hd & (_ & -> & Hx)%prog_runs_ret_inv).
  symmetry in Hx. apply drain_exit_ok in Hx as ->.
  destruct (always_runs _ _ _ _ _ _ _ _ (prepare_quietly w _ (lost_nothing_refl _ _ _ Hl)) Hp) as [Hq _].
  pose proof (lost_nothing_quiet _ _ _ _ Hl Hq) as Hl1.
  set (watcher := watcher_of cfg cursor socket) in *.
  assert (Ha : always (@store_step) (λ w', lost_nothing watcher start w' ∧ nix_moves w1 w')
    (prog_lift (@Store_Watch) (drain watcher full_sync)) w1
    (λ r w', (∀ failed, r = Ok failed → accounted watcher start w1 w' failed) ∧ nix_moves w1 w')).
  { apply (always_lift (@watch_step)); [done|]. apply always_and.
    - apply drain_accounts_for_every_row; [done|]. by rewrite (qu_cursor _ _ Hq).
    - apply always_moves, (lost_nothing_refl watcher start), Hl1. }
  destruct (always_runs _ _ _ _ _ _ _ _ Ha Hd) as [[Hl2 Hm] [Hacc _]]. split; [done|]. intros row Hr Hr' Hid Hskip.
  assert (Hr1 : row ∈ ww_rows w1) by (by eapply row_stays; [apply Hl|apply Hq|done|..]).
  by destruct (Hacc _ eq_refl row Hr1 Hr' Hid Hskip) as [?|[]%not_elem_of_nil].
Qed.
End watch_store.

(** ** A drain, run *)

(** One upload at a time, each of them ending well. *)
Lemma push_each queue done_ :
  rtc (push_pool_step 1) (mkPool queue [] done_) (mkPool [] [] (done_ ++ map (λ p, (p, Deduped)) queue)).
Proof.
  revert done_. induction queue as [|info queue IH]; intros done_; cbn; [rewrite app_nil_r; constructor|].
  eapply rtc_l; [apply pool_start; cbn; lia|]. eapply rtc_l.
  - apply (pool_finish 1 queue [] info [] done_ (Ok Deduped)). intros o [= <-]. by right.
  - specialize (IH (done_ ++ [(info, Deduped)])). by rewrite <-app_assoc in IH.
Qed.

Definition settle (w : WatchWorld) : WatchWorld :=
  mkWatchWorld (ww_rows w) (ww_newest w) (ww_cursor w) (ww_failed w) (λ _, True).
Definition with_files (w : WatchWorld) (cursor failed : option string) : WatchWorld :=
  mkWatchWorld (ww_rows w) (ww_newest w) cursor failed (ww_settled w).

(** Nothing fails, and the cache holds every path. *)
Definition example_watch_answers (w : WatchWorld) {B} (op : WatchOp B) : B * WatchWorld :=
  match op in WatchOp B return B * WatchWorld with
  | Watch_Rows => (Ok (ww_rows w), w)
  | Watch_ReadCursor => (Ok (ww_cursor w), w)
  | Watch_WriteCursor text => (Ok tt, with_files w (Some text) (ww_failed w))
  | Watch_ReadFailed => (Ok (ww_failed w), w)
  | Watch_WriteFailed text => (Ok tt, with_files w (ww_cursor w) (Some text))
  | Watch_RemoveFailed => (Ok tt, with_files w (ww_cursor w) None)
  | Watch_PathInfo paths => (Ok (map (λ p, mkPathInfo p "" 0 [] None None []) paths), w)
  | Watch_Exists _ => (true, w)
  | Watch_Negotiate _ => (Ok ∅, settle w)
  | Watch_Push paths => (map (λ p, (p, Deduped)) (references_first paths), settle w)
  | Watch_OpenDb _ => (Ok tt, w)
  | Watch_CountTables _ => (Ok 1%Z, w)
  | Watch_CreateParents _ => (Ok tt, w)
  | Watch_SocketMeta _ => (MetaNotFound, w)
  | Watch_RemoveSocket _ => (Ok tt, w)
  | Watch_Bind _ => (Ok tt, w)
  | Watch_SetMode _ _ => (Ok tt, w)
  | Watch_Sleep _ => (tt, w)
  | Watch_Race _ => (Woken_Elapsed, w)
  | Watch_TryRecv => (false, w)
  end.

Definition example_store_answers (w : WatchWorld) {B} (op : StoreOp B) : B * WatchWorld :=
  match op in StoreOp B return B * WatchWorld with
  | Store_Cli op => ((example_push_answers {[example_config_path := ""]} op).1, w)
  | Store_Watch op => example_watch_answers w op
  end.

Lemma moves_files w cursor failed : rows_ok (ww_rows w) (ww_newest w) → nix_moves w (with_files w cursor failed).
Proof. intros H. split; cbn; [done|lia|by left|done]. Qed.

Lemma quiet_settle w : rows_ok (ww_rows w) (ww_newest w) → quiet w (settle w) ∧ quiet w w.
Proof. intros H. split; (split; [|done..]); (split; cbn; [done|lia|by left|done]). Qed.

Lemma example_store_step w B (op : StoreOp B) :
  rows_ok (ww_rows w) (ww_newest w) →
  store_step w op (example_store_answers w op).1 (example_store_answers w op).2 ∧
  rows_ok (ww_rows (example_store_answers w op).2) (ww_newest (example_store_answers w op).2).
Proof.
  intros Hok. pose proof (quiet_settle w Hok) as [Hs Hq]. split; [|by destruct op as [|B op]; [|destruct op]].
  destruct op as [|B op]; [done|]. destruct op; cbn; try done.
  - split; [done|]. by intros ? [= ->].
  - split; [done|]. by intros ? [= ->].
  - by split; [apply moves_files|].
  - split; [done|]. by intros ? [= ->].
  - by split; [apply moves_files|].
  - by split; [apply moves_files|].
  - split; [done|]. intros infos [= <-] p. rewrite map_map. cbn. by rewrite map_id.
  - split; [done|]. split; [|done]. exists 1. apply (push_each (references_first paths) []).
Qed.

Definition example_watch_store : list (Event StoreOp) * WatchWorld * Result unit string :=
  prog_exec (@example_store_answers) example_world
    (watch_store (U := toy_url) (T := example_push_toml) example_env None None (λ _, Err "no secret") 1 None None None true true).

(** The drain has nothing left to push, and ends with its cursor at the newest row. *)
Lemma drain_exits_clean_witness :
  example_watch_store.2 = Ok tt ∧ ww_cursor example_watch_store.1.2 = Some "4" ∧
  ∃ cfg, should_skip (wa_filters (watcher_of cfg None None)) (mkValidPath 4 "/nix/store/bbb-y" ["k:1"; "k:2"]) = None →
    ww_settled example_watch_store.1.2 "/nix/store/bbb-y".
Proof.
  assert (Hr : example_watch_store.2 = Ok tt) by (vm_compute; reflexivity). split; [exact Hr|]. split; [vm_compute; reflexivity|].
  assert (Hruns := prog_exec_runs_in (@store_step) (λ w, rows_ok (ww_rows w) (ww_newest w)) (@example_store_answers) example_world
    (watch_store (U := toy_url) (T := example_push_toml) example_env None None (λ _, Err "no secret") 1 None None None true true)
    example_store_step (proj1 (example_world_lost_nothing example_watcher))).
  change (prog_exec (@example_store_answers) example_world _) with example_watch_store in Hruns. rewrite Hr in Hruns.
  destruct (drain_exits_clean (U := toy_url) (T := example_push_toml) example_env None None (λ _, Err "no secret") _ _ _ _ _ _ _ _ Hruns)
    as (cfg & tr1 & tr2 & _ & _ & H).
  exists cfg. intros Hskip. destruct (H 0%Z (example_world_lost_nothing _)) as [_ Hset]; [done|].
  apply (Hset (mkValidRow 4 "/nix/store/bbb-y" (Some "k:1 k:2"))); [right; left| |done|exact Hskip].
  assert (Hrows : ww_rows example_watch_store.1.2 = ww_rows example_world) by (vm_compute; reflexivity).
  rewrite Hrows. right. left.
Defined.
