(* ===== verification/AdminWire.v ===== *)
(** * AdminWire: the admin socket and what garret-admin prints

    [handle] of [crates/garret-pusher/src/admin.rs] and [request] of
    [crates/garret-admin/src/main.rs], the two ends of the socket: a request and
    a response are one line of JSON each. serde_json is a parameter. Then what
    the commands print of a response; unwrapping an unexpected one is AdminCli's. *)

From Stdlib Require Import Floats.SpecFloat.
From stdpp Require Import pretty countable.
From S2P Require Import Prelude Text Common InFlight Prog Db Storage World Narinfo Deletion Fsck Admin Config AdminCli Upload Push Settings Token Doctor Commands.

(** ** The two ends *)

Class AdminJson := {
  request_to_json : Request → string;
  request_from_json : string → Result Request string;
  response_to_json : Response → string;
  response_from_json : string → Result Response string;
}.

(** Compact JSON has no line break in it, and a reader skips one after it. *)
Class AdminJsonLaws (J : AdminJson) : Prop := {
  request_json r : request_from_json (request_to_json r) = Ok r;
  request_one_line r : plain_line (request_to_json r);
  response_json r : response_from_json (writeln (response_to_json r)) = Ok r;
  response_one_line r : no_newline (response_to_json r);
}.

Inductive ConnOp : Type → Type :=
  | Conn_NextLine : ConnOp (Result (option string) string)
  | Conn_Write (text : string) : ConnOp (Result unit string)
  | Conn_Handle {B} (op : Op B) : ConnOp B.

Section wire.
Context `{C : Crypto, J : AdminJson} (state : AdminState) (fuel : nat).

Definition bad_request (e : string) : Response := Response_Error ("bad request: " +:+ e).

Definition respond_to (line : string) : Prog ConnOp Response :=
  match request_from_json line with
  | Ok req => prog_lift (@Conn_Handle) (dispatch state fuel req)
  | Err e => Ret (bad_request e)
  end.

(** One connection; [None] when [laps] runs out. *)
Fixpoint handle (laps : nat) : Prog ConnOp (option (Result unit string)) :=
  match laps with
  | 0 => Ret None
  | S laps =>
      do line <- request Conn_NextLine;
      match line with
      | Err e => Ret (Some (Err e))
      | Ok None => Ret (Some (Ok tt))
      | Ok (Some line) =>
          do response <- respond_to line;
          do written <- request (Conn_Write (writeln (response_to_json response)));
          match written with
          | Err e => Ret (Some (Err e))
          | Ok _ => handle laps
          end
      end
  end.

(** What [request] sends, and what it makes of the line it reads. *)
Definition request_line (req : Request) : string := writeln (request_to_json req).

Definition read_line (stream : string) : string :=
  match split_once newline stream with Some (line, _) => writeln line | None => stream end.

Definition reply_of (line : string) : Result Response string :=
  if bool_decide (line = "") then Err "the Pusher closed the connection without answering"
  else
    let? response := map_err (λ e, "parsing the admin response: " +:+ e) (response_from_json line) in
    match response with
    | Response_Error message => Err message
    | response => Ok response
    end.

(** ** A conversation *)

(** The lines still to come, and all that was written. *)
Record Conn := mkConn {
  cn_input : list string;
  cn_output : string;
}.

Definition conn_step (c : Conn) {B} (op : ConnOp B) : B → Conn → Prop :=
  match op in ConnOp B return B → Conn → Prop with
  | Conn_NextLine => λ line c',
      match line with
      | Ok (Some line) => ∃ rest, cn_input c = line :: rest ∧ c' = mkConn rest (cn_output c)
      | Ok None => cn_input c = [] ∧ c' = c
      | Err _ => c' = c
      end
  | Conn_Write text => λ written c',
      match written with
      | Ok _ => c' = mkConn (cn_input c) (cn_output c +:+ text)
      | Err _ => ∃ part, c' = mkConn (cn_input c) (cn_output c +:+ part)
      end
  | Conn_Handle _ => λ _ c', c' = c
  end.

Definition handled_of (e : Event ConnOp) : option (Event Op) :=
  match e with
  | Ev op b => match op in ConnOp B return B → option (Event Op) with Conn_Handle op => λ b, Some (Ev op b) | _ => λ _, None end b
  end.

Definition handled (tr : list (Event ConnOp)) : list (Event Op) := omap handled_of tr.

Lemma handled_lift tr : handled (map (lift_event (@Conn_Handle)) tr) = tr.
Proof. unfold handled. induction tr as [|[B op b] tr IH]; [done|]. cbn. by rewrite IH. Qed.

(** A line's response, and what the Pusher did for it. *)
Definition answers_line (line : string) (answer : list (Event Op) * Response) : Prop :=
  match request_from_json line with
  | Ok req => run_trace (dispatch state fuel req) answer.1 answer.2
  | Err e => answer = ([], bad_request e)
  end.

Lemma respond_to_trace line tr r : run_trace (respond_to line) tr r → answers_line line (handled tr, r).
Proof.
  unfold respond_to, answers_line. destruct (request_from_json line) as [req|e].
  - intros (t & -> & H)%run_trace_lift. by rewrite handled_lift.
  - by intros [-> ->]%run_trace_ret.
Qed.

Lemma respond_to_still line c tr c' r : prog_runs (@conn_step) c (respond_to line) tr c' r → c' = c ∧ answers_line line (handled tr, r).
Proof.
  intros H. split; [|by eapply respond_to_trace, prog_runs_trace].
  assert (Hs : always (@conn_step) (λ c', c' = c) (respond_to line) c (λ _ _, True)); [|by apply (always_runs _ _ _ _ _ _ _ _ Hs H)].
  unfold respond_to. destruct (request_from_json line); [|done].
  apply (always_lift (λ c B (op : Op B) b c', c' = c)); [done|]. by apply always_still.
Qed.

Definition output_of (answers : list (list (Event Op) * Response)) : string :=
  foldr (λ a s, writeln (response_to_json a.2) +:+ s) "" answers.

Lemma handle_trace laps c tr c' :
  prog_runs (@conn_step) c (handle laps) tr c' (Some (Ok tt)) →
  ∃ answers, Forall2 answers_line (cn_input c) answers ∧ handled tr = concat (map fst answers) ∧
    c' = mkConn [] (cn_output c +:+ output_of answers).
Proof.
  revert c tr. induction laps as [|laps IH]; intros c tr; [by intros (_ & _ & [=])%prog_runs_ret_inv|]. cbn [handle].
  intros (line & c1 & tr1 & -> & Hl & H)%prog_runs_request. destruct line as [[line|]|e]; [| |by apply prog_runs_ret_inv in H as (_ & _ & [=])].
  - destruct Hl as (rest & Hin & ->).
    apply prog_runs_bind in H as (response & c2 & tr2 & tr3 & -> & [-> Ha]%respond_to_still & H).
    apply prog_runs_request in H as (written & c3 & tr4 & -> & Hw & H).
    destruct written as [u|e]; [|by apply prog_runs_ret_inv in H as (_ & _ & [=])]. cbn in Hw. subst c3.
    apply IH in H as (answers & HF & Hh & ->). exists ((handled tr2, response) :: answers). rewrite Hin.
    split_and!; [by constructor| |cbn; by rewrite str_app_assoc].
    unfold handled in *. cbn. rewrite omap_app. cbn. by rewrite Hh.
  - destruct Hl as [Hin ->]. apply prog_runs_ret_inv in H as (-> & -> & _). exists []. rewrite Hin. cbn. rewrite str_app_nil_r.
    split_and!; [constructor|done|]. destruct c; cbn in *. by subst.
Qed.

(** A connection ends within a lap more than its lines. *)
Lemma handle_ends laps c :
  length (cn_input c) < laps → always (@conn_step) (λ _, True) (handle laps) c (λ r _, r ≠ None).
Proof.
  revert c. induction laps as [|laps IH]; intros c Hf; [lia|]. cbn [handle].
  apply always_request; [done|]. intros line c1 Hl. destruct line as [[line|]|e]; [|by split..].
  destruct Hl as (rest & Hin & ->). rewrite Hin in Hf. cbn in Hf. apply always_bind.
  assert (Hs : always (@conn_step) (λ c', c' = mkConn rest (cn_output c)) (respond_to line) (mkConn rest (cn_output c)) (λ _ _, True)).
  { unfold respond_to. destruct (request_from_json line); [|done].
    apply (always_lift (λ c B (op : Op B) b c', c' = c)); [done|]. by apply always_still. }
  eapply always_weaken; [exact Hs|done|]. intros response c2 -> _.
  apply always_request; [done|]. intros [u|e] c3 Hw; [|by split]. cbn in Hw. subst c3. apply IH. cbn. lia.
Qed.

(** C37: The two ends of the admin socket agree: whatever requests are sent, one line each, the
    Pusher ends the connection within a lap more than its lines, and if it ends well it has run the
    handler of each request once, in order, and written one response line for each; and garret-admin
    reads back from the first line exactly the response its request got, or the message of an error
    response. *)
Theorem admin_conversation `{JL : !AdminJsonLaws J} laps reqs tr c :
  length reqs < laps →
  always (@conn_step) (λ _, True) (handle laps) (mkConn (text_lines (foldr (λ r s, request_line r +:+ s) "" reqs)) "") (λ r _, r ≠ None) ∧
  (prog_runs (@conn_step) (mkConn (text_lines (foldr (λ r s, request_line r +:+ s) "" reqs)) "") (handle laps) tr c (Some (Ok tt)) →
   ∃ answers, Forall2 (λ req a, run_trace (dispatch state fuel req) a.1 a.2) reqs answers ∧
     handled tr = concat (map fst answers) ∧
     cn_output c = output_of answers ∧
     ∀ a answers', answers = a :: answers' →
       reply_of (read_line (cn_output c)) = match a.2 with Response_Error message => Err message | response => Ok response end).
Proof.
  intros Hf.
  assert (Hl : text_lines (foldr (λ r s, request_line r +:+ s) "" reqs) = map request_to_json reqs).
  { rewrite <-(text_lines_writelns (map request_to_json reqs)).
    - unfold request_line. f_equal. clear. induction reqs as [|r reqs IH]; [done|]. cbn. by rewrite IH.
    - apply Forall_fmap, Forall_true. intros r. apply request_one_line. }
  rewrite Hl. split; [apply handle_ends; cbn; by rewrite length_map|].
  intros (answers & HF & Hh & ->)%handle_trace. exists answers. cbn [cn_input cn_output] in *. split_and!; [|done|done|].
  - clear -HF JL. change (map request_to_json reqs) with (request_to_json <$> reqs) in HF. rewrite Forall2_fmap_l in HF. eapply Forall2_impl; [exact HF|]. intros req a. unfold answers_line. cbn. by rewrite request_json.
  - intros a answers' ->. rewrite str_app_nil_l. cbn [output_of foldr]. fold (output_of answers'). unfold read_line.
    assert (Hs : split_once newline (writeln (response_to_json a.2) +:+ output_of answers') = Some (response_to_json a.2, output_of answers')).
    { apply split_once_Some. split; [unfold writeln; by rewrite str_app_assoc|apply response_one_line]. }
    rewrite Hs. unfold reply_of. rewrite bool_decide_eq_false_2 by (unfold writeln; by destruct (response_to_json a.2)).
    rewrite response_json. by destruct a.2.
Qed.
End wire.

(** ** What is printed *)

(** [print_listing]. *)
Definition print_listing (dry_run : bool) (basenames : list string) (bytes_freed : Z) : string :=
  let verb := if dry_run then "would delete" else "deleted" in
  str_join "" (map (λ basename, writeln (verb +:+ " " +:+ basename)) basenames) +:+
  writeln (verb +:+ " " +:+ pretty (length basenames) +:+ " object(s), " +:+ human_bytes bytes_freed).

(** A heading, and a line per item, or that there is none. *)
Definition print_section {A} (none heading : string) (line : A → string) (items : list A) : string :=
  if is_nil items then writeln none
  else writeln heading +:+ str_join "" (map (λ item, writeln ("  " +:+ line item)) items).

Definition print_fsck_report (report : FsckReport) (repair : bool) : string :=
  print_section "dangling rows: none" ("dangling rows (" +:+ pretty (length (rp_dangling report)) +:+ "):")
    (λ row, fr_store_path_hash row +:+ " " +:+ fr_name row) (rp_dangling report) +:+
  print_section "size mismatches: none" ("size mismatches (" +:+ pretty (length (rp_size_mismatches report)) +:+ "):")
    (λ row, fm_store_path_hash row +:+ " " +:+ fm_name row +:+ " (db " +:+ pretty (fm_db_size row) +:+ " bytes, s3 " +:+
      pretty (fm_s3_size row) +:+ " bytes)") (rp_size_mismatches report) +:+
  print_section "orphan blobs: none"
    ("orphan blobs (" +:+ pretty (length (rp_orphans report)) +:+ "), informational only — handled by the orphan sweep:")
    (λ key, key) (rp_orphans report) +:+
  (if repair then writeln ("repaired " +:+ pretty (rp_repaired report) +:+ " row(s)") else "") +:+
  (if bool_decide (rp_quiesce_drained report = Some false)
   then writeln "quiesce timed out waiting for uploads to drain — no repair was performed" else "").

(** [100.0 * total as f64 / quota as f64]. *)
Definition usage_percent (total quota : Z) : f64 := SFdiv 53 1024 (f64_mul (f64_of_Z 100) (f64_of_Z total)) (f64_of_Z quota).

Definition print_status (objects total_bytes : Z) (quota_bytes : option Z) (uploads_in_flight : Z) : string :=
  writeln ("objects:           " +:+ pretty objects) +:+
  writeln ("usage:             " +:+ human_bytes total_bytes +:+
    match quota_bytes with
    | Some quota => " of " +:+ human_bytes (i64_wrap quota) +:+ " (" +:+ one_decimal (usage_percent total_bytes quota) +:+ "%)"
    | None => " (no quota)"
    end) +:+
  writeln ("uploads in flight: " +:+ pretty uploads_in_flight).

(** What a command prints of the response it expects; the JSON form of an fsck
    report is left out. *)
Definition print_response (c : Command) (response : Response) : string :=
  match c, response with
  | Command_Status, Response_Status objects total quota uploads => print_status objects total quota uploads
  | Command_GcRun, Response_Gc evicted bytes_freed exhausted =>
      writeln ("evicted " +:+ pretty evicted +:+ " object(s), freeing " +:+ human_bytes bytes_freed) +:+
      (if exhausted then writeln ("warning: still above the low watermark with nothing evictable — everything left is referenced, " +:+
         "pinned, or pushed in the last " +:+ pretty PUSH_GRACE_HOURS +:+ " hours") else "")
  | Command_Resign, Response_Resign resigned refused =>
      writeln ("re-signed " +:+ pretty resigned +:+ " object(s)") +:+
      (if 0 <? refused then writeln ("refused " +:+ pretty refused +:+ " object(s): no existing signature verifies under a configured key " +:+
         "(tampered or signed only by a key no longer configured)") else "")
  | Command_DeletePushedBy _ _ apply, Response_DeletePushedBy objects bytes_freed => print_listing (negb apply) objects bytes_freed
  | Command_Delete _ apply, Response_Delete deleted bytes_freed missing =>
      writeln ((if apply then "deleted " else "would delete ") +:+ pretty deleted +:+ " object(s), " +:+ human_bytes bytes_freed) +:+
      (if is_nil missing then "" else writeln ("not in the cache: " +:+ str_join ", " missing))
  | Command_Pin name _ _, Response_Pin => writeln ("pinned " +:+ name)
  | Command_Unpin _, Response_Unpin removed => if removed : bool then writeln "unpinned" else ""
  | Command_Fsck repair _ _, Response_Fsck report => print_fsck_report report repair
  | Command_Prune _ apply, Response_Prune pruned bytes_freed => print_listing (negb apply) pruned bytes_freed
  | Command_Backup path, Response_Backup bytes => writeln ("wrote " +:+ path +:+ " (" +:+ human_bytes (i64_wrap bytes) +:+ ")")
  | _, _ => ""
  end.

Lemma example_status :
  print_status 3 1536 (Some 4096%Z) 0 =
    writeln "objects:           3" +:+ writeln "usage:             1.5 KiB of 4.0 KiB (37.5%)" +:+ writeln "uploads in flight: 0".
Proof. vm_compute. reflexivity. Qed.


(** ** A conversation, run *)

(** A toy instance of the laws, to evaluate with: a message is one number in
    binary, over the fields and a tag. *)
Abbreviation Fields := (nat * list string * list Z * list (string * string * list Z))%type.

Definition of_opt {A} (o : option A) : list A := match o with Some a => [a] | None => [] end.
Definition to_opt {A} (l : list A) : option A := head l.
Definition of_bool (b : bool) : Z := if b then 1%Z else 0%Z.
Definition to_bool (z : Z) : bool := (z =? 1)%Z.

Lemma of_opt_to {A} (o : option A) : to_opt (of_opt o) = o.
Proof. by destruct o. Qed.
Lemma of_bool_to b : to_bool (of_bool b) = b.
Proof. by destruct b. Qed.

Definition request_fields (r : Request) : Fields :=
  match r with
  | Request_Status => (0, [], [], [])
  | Request_GcRun => (1, [], [], [])
  | Request_Resign => (2, [], [], [])
  | Request_Delete hashes dry_run => (3, hashes, [of_bool dry_run], [])
  | Request_Pin name hash expires_at => (4, [name; hash], of_opt expires_at, [])
  | Request_Unpin name => (5, [name], [], [])
  | Request_Fsck sizes repair => (6, [], [of_bool sizes; match repair with Repair_No => 0 | Repair_Live => 1 | Repair_Quiesced => 2 end%Z], [])
  | Request_Prune before dry_run => (7, [], [before; of_bool dry_run], [])
  | Request_DeletePushedBy subject since dry_run => (8, [subject], of_bool dry_run :: of_opt since, [])
  | Request_Backup path => (9, [path], [], [])
  end.

Definition fields_request (f : Fields) : option Request :=
  match f with
  | (0, [], [], []) => Some Request_Status
  | (1, [], [], []) => Some Request_GcRun
  | (2, [], [], []) => Some Request_Resign
  | (3, hashes, [dry_run], []) => Some (Request_Delete hashes (to_bool dry_run))
  | (4, [name; hash], expires_at, []) => Some (Request_Pin name hash (to_opt expires_at))
  | (5, [name], [], []) => Some (Request_Unpin name)
  | (6, [], [sizes; repair], []) =>
      Some (Request_Fsck (to_bool sizes) (if (repair =? 0)%Z then Repair_No else if (repair =? 1)%Z then Repair_Live else Repair_Quiesced))
  | (7, [], [before; dry_run], []) => Some (Request_Prune before (to_bool dry_run))
  | (8, [subject], dry_run :: since, []) => Some (Request_DeletePushedBy subject (to_opt since) (to_bool dry_run))
  | (9, [path], [], []) => Some (Request_Backup path)
  | _ => None
  end.

Lemma request_fields_back r : fields_request (request_fields r) = Some r.
Proof. destruct r as [| | | | | |? []| | |]; cbn; by rewrite ?of_opt_to, ?of_bool_to. Qed.

Definition report_rows (r : FsckReport) : list (string * string * list Z) :=
  map (λ x, (fr_store_path_hash x, fr_name x, [])) (rp_dangling r) ++
  map (λ x, (fm_store_path_hash x, fm_name x, [fm_db_size x; fm_s3_size x])) (rp_size_mismatches r).

Definition rows_dangling (l : list (string * string * list Z)) : list FsckRow :=
  omap (λ x, match x with (h, n, []) => Some (mkFsckRow h n) | _ => None end) l.
Definition rows_mismatches (l : list (string * string * list Z)) : list FsckSizeMismatch :=
  omap (λ x, match x with (h, n, [a; b]) => Some (mkMismatch h n a b) | _ => None end) l.

Definition response_fields (r : Response) : Fields :=
  match r with
  | Response_Status objects total quota uploads => (0, [], objects :: total :: uploads :: of_opt quota, [])
  | Response_Gc evicted freed exhausted => (1, [], [Z.of_nat evicted; freed; of_bool exhausted], [])
  | Response_Resign resigned refused => (2, [], [Z.of_nat resigned; Z.of_nat refused], [])
  | Response_Delete deleted freed missing => (3, missing, [Z.of_nat deleted; freed], [])
  | Response_Pin => (4, [], [], [])
  | Response_Unpin removed => (5, [], [of_bool removed], [])
  | Response_Fsck r => (6, rp_orphans r, Z.of_nat (rp_repaired r) :: of_opt (of_bool <$> rp_quiesce_drained r), report_rows r)
  | Response_Prune pruned freed => (7, pruned, [freed], [])
  | Response_DeletePushedBy objects freed => (8, objects, [freed], [])
  | Response_Backup bytes => (9, [], [bytes], [])
  | Response_Error message => (10, [message], [], [])
  end.

Definition fields_response (f : Fields) : option Response :=
  match f with
  | (0, [], objects :: total :: uploads :: quota, []) => Some (Response_Status objects total (to_opt quota) uploads)
  | (1, [], [evicted; freed; exhausted], []) => Some (Response_Gc (Z.to_nat evicted) freed (to_bool exhausted))
  | (2, [], [resigned; refused], []) => Some (Response_Resign (Z.to_nat resigned) (Z.to_nat refused))
  | (3, missing, [deleted; freed], []) => Some (Response_Delete (Z.to_nat deleted) freed missing)
  | (4, [], [], []) => Some Response_Pin
  | (5, [], [removed], []) => Some (Response_Unpin (to_bool removed))
  | (6, orphans, repaired :: drained, rows) =>
      Some (Response_Fsck (mkReport (rows_dangling rows) (rows_mismatches rows) orphans (Z.to_nat repaired) (to_bool <$> to_opt drained)))
  | (7, pruned, [freed], []) => Some (Response_Prune pruned freed)
  | (8, objects, [freed], []) => Some (Response_DeletePushedBy objects freed)
  | (9, [], [bytes], []) => Some (Response_Backup bytes)
  | (10, [message], [], []) => Some (Response_Error message)
  | _ => None
  end.

Lemma report_rows_back r : rows_dangling (report_rows r) = rp_dangling r ∧ rows_mismatches (report_rows r) = rp_size_mismatches r.
Proof.
  unfold rows_dangling, rows_mismatches, report_rows. destruct r as [d m o n q]. cbn. induction d as [|[] d [IHd IHm]]; cbn.
  - induction m as [|[] m [IHd IHm]]; [done|]. cbn in *. by rewrite IHd, IHm.
  - by rewrite IHd, IHm.
Qed.

Lemma response_fields_back r : fields_response (response_fields r) = Some r.
Proof.
  destruct r as [? ? q ?| | | | |[]|r| | | |]; cbn; rewrite ?Nat2Z.id, ?of_opt_to, ?of_bool_to; try done.
  destruct (report_rows_back r) as [-> ->]. destruct r as [? ? ? ? [[]|]]; done.
Qed.

Definition toy_admin_json : AdminJson := {|
  request_to_json r := pos_digits (encode (request_fields r));
  request_from_json s := ok_or (decode (digits_pos s) ≫= fields_request) "not a request";
  response_to_json r := pos_digits (encode (response_fields r));
  response_from_json s := ok_or (decode (digits_pos s) ≫= fields_response) "not a response";
|}.

Lemma digits_pos_digits p tail : digits_pos (pos_digits p +:+ tail) = p.
Proof. induction p as [p IH|p IH|]; [by apply (f_equal xI)|by apply (f_equal xO)|done]. Qed.

Lemma pos_digits_plain p : plain_line (pos_digits p).
Proof. apply line_char_plain. by induction p as [p IH|p IH|]; [rewrite <-IH..|]. Qed.

Lemma toy_admin_json_laws : AdminJsonLaws toy_admin_json.
Proof.
  split; cbn.
  - intros r. rewrite <-(str_app_nil_r (pos_digits _)), digits_pos_digits, decode_encode. cbn. by rewrite request_fields_back.
  - intros r. apply pos_digits_plain.
  - intros r. unfold writeln. rewrite digits_pos_digits, decode_encode. cbn. by rewrite response_fields_back.
  - intros r. apply pos_digits_plain.
Qed.

(** The Pusher's side is asked for a backup, then for a pass of a collector it
    does not have. *)
Definition example_conn_answers (c : Conn) {B} (op : ConnOp B) : B * Conn :=
  match op in ConnOp B return B * Conn with
  | Conn_NextLine =>
      match cn_input c with
      | line :: rest => (Ok (Some line), mkConn rest (cn_output c))
      | [] => (Ok None, c)
      end
  | Conn_Write text => (Ok tt, mkConn (cn_input c) (cn_output c +:+ text))
  | Conn_Handle op =>
      (match op in Op B return B with
       | Op_Claim _ => Ok tt
       | Op_ClaimDelete _ => Ok tt
       | Op_Release _ => tt
       | Op_InFlight => inflight_new
       | Op_Quiesce => tt
       | Op_Drain => true
       | Op_DropGuard => tt
       | Op_TryAcquire => true
       | Op_Now => 0%Z
       | Op_Db _ _ => Err (Fail_Other "disk I/O error")
       | Op_PutStream _ _ body _ _ => (Err (Fail_S3 "no bucket"), body)
       | Op_DeleteBlobs _ => Ok tt
       | Op_ListBlobs => Ok []
       | Op_AbortStale _ => Ok 0
       | Op_Backup _ => Ok 5%Z
       end, c)
  end.

Lemma example_conn_step c B (op : ConnOp B) :
  conn_step c op (example_conn_answers c op).1 (example_conn_answers c op).2.
Proof. destruct op; [|done..]. destruct c as [[|line rest] out]; [done|]. by exists rest. Qed.

Definition example_requests : list Request := [Request_Backup "/b"; Request_GcRun].
Definition example_conn : Conn :=
  mkConn (text_lines (foldr (λ r s, @request_line toy_admin_json r +:+ s) "" example_requests)) "".
Definition example_conversation : list (Event ConnOp) * Conn * option (Result unit string) :=
  prog_exec (@example_conn_answers) example_conn (@handle toy_crypto toy_admin_json example_admin 1 3).

(** The client of the first request reads back the backup's size. *)
Lemma admin_conversation_witness :
  prog_runs (@conn_step) example_conn (@handle toy_crypto toy_admin_json example_admin 1 3)
    example_conversation.1.1 example_conversation.1.2 (Some (Ok tt)) ∧
  ∃ answers, Forall2 (λ req a, run_trace (dispatch (C := toy_crypto) example_admin 1 req) a.1 a.2) example_requests answers ∧
    @reply_of toy_admin_json (read_line (cn_output example_conversation.1.2)) = Ok (Response_Backup 5).
Proof.
  assert (Hr : prog_runs (@conn_step) example_conn (@handle toy_crypto toy_admin_json example_admin 1 3)
    example_conversation.1.1 example_conversation.1.2 (Some (Ok tt))).
  { replace (Some (Ok tt)) with example_conversation.2 by (vm_compute; reflexivity).
    apply prog_exec_runs, example_conn_step. }
  split; [exact Hr|].
  destruct (admin_conversation (JL := toy_admin_json_laws) (C := toy_crypto) example_admin 1 3 example_requests
    example_conversation.1.1 example_conversation.1.2) as [_ H]; [cbn; lia|].
  destruct (H Hr) as (answers & HF & _). exists answers. split; [exact HF|vm_compute; reflexivity].
Defined.
