(* ===== verification/Report.v ===== *)
(** * Report: what a push prints

    [crates/garret-client/src/push.rs], [Report]: the NDJSON events of [--json] and
    the lines and the progress bar of a terminal. The calls are those the run of
    Push makes; the pool adds a line for each path as it settles. [serde_json] is a
    parameter: an event is one object of numbers and strings. *)

From Stdlib Require Import Floats.SpecFloat.
From stdpp Require Import pretty.
From S2P Require Import Prelude Text Net Common Prog Narinfo Config Upload Push Settings Token Doctor Commands AdminWire.

(** ** Times and sizes *)

Definition f64_div : f64 → f64 → f64 := SFdiv 53 1024.
Definition f64_add : f64 → f64 → f64 := SFadd 53 1024.
Definition NANOS : Z := 1000000000.

(** [Duration::as_secs_f64]: the seconds, and the rest as a fraction. *)
Definition secs_f64 (nanos : Z) : f64 := f64_add (f64_of_Z (nanos / NANOS)) (f64_div (f64_of_Z (nanos mod NANOS)) (f64_of_Z NANOS)).

(** [human_bytes(n.min(i64::MAX as u64) as i64)]. *)
Definition size_text (nar_bytes : Z) : string := human_bytes (Z.min nar_bytes i64_max).

(** ** Events *)

Inductive Field := Field_Num (n : Z) | Field_Str (s : string).

#[export] Instance Field_eq_dec : EqDecision Field.
Proof. solve_decision. Defined.
#[export] Program Instance Field_countable : Countable Field :=
  inj_countable' (λ f, match f with Field_Num n => inl n | Field_Str s => inr s end)
    (λ x, match x with inl n => Field_Num n | inr s => Field_Str s end) _.
Next Obligation. by intros []. Qed.

Definition Value : Type := gmap string Field.

Class EventJson := {
  value_to_string : Value → string;
  value_from_string : string → option Value;
  (** The texts of a status code and of a duration, and a failed request's with
      the contexts it was given. *)
  status_text : Z → string;
  duration_debug : Z → string;
  reqwest_text : ReqwestError → string;
}.

Class EventJsonLaws (J : EventJson) := {
  value_json v : value_from_string (value_to_string v) = Some v;
  value_one_line v : no_newline (value_to_string v);
}.

Section report.
Context {J : EventJson}.

(** [{e:#}] of an upload's error. *)
Definition push_error_text (e : PushError) : string :=
  match e with
  | Rejected status body => "upload rejected with " +:+ status_text status +:+ ": " +:+ body
  | Shed after => "server asked to retry after " +:+ duration_debug after
  | Stalled idle => "uploading NAR: upload stalled: no progress for " +:+ duration_debug idle
  | Reqwest e => reqwest_text e
  | OtherError message => message
  end.

Definition num (n : nat) : Field := Field_Num (Z.of_nat n).

Definition event_value (event : ReportEvent) : Value :=
  match event with
  | Ev_Negotiated closure upstream missing nar_bytes =>
      list_to_map [("event", Field_Str "negotiated"); ("closure", num closure); ("upstream", num upstream);
        ("missing", num missing); ("nar_bytes", Field_Num nar_bytes)]
  | Ev_Path path status nar_size error =>
      let event : Value := list_to_map [("event", Field_Str "path"); ("path", Field_Str path); ("status", Field_Str status);
        ("nar_size", Field_Num nar_size)] in
      match error with Some e => <["error" := Field_Str (push_error_text e)]> event | None => event end
  | Ev_Rechecked missing nar_bytes =>
      list_to_map [("event", Field_Str "rechecked"); ("missing", num missing); ("nar_bytes", Field_Num nar_bytes)]
  | Ev_Done summary =>
      list_to_map [("event", Field_Str "done"); ("pushed", num (su_pushed summary)); ("deduped", num (su_deduped summary));
        ("failed", num (su_failed summary)); ("nar_bytes", Field_Num (su_nar_bytes summary))]
  end.

(** ** The methods of [Report] *)

(** What reaches the terminal: a line on stdout, or the bar on stderr. *)
Inductive Output :=
  | Out (line : string)
  | Bar_Open (length : Z)
  | Bar_Grow (length : Z)
  | Bar_Clear.

(** Whether a bar was opened. *)
Record Report := mkReport {
  rp_json : bool;
  rp_bar : bool;
}.

Definition event (e : ReportEvent) : Output := Out (value_to_string (event_value e)).

Definition negotiated_line (closure upstream missing : nat) : string :=
  match upstream with
  | 0 => pretty closure +:+ " path(s) in closure, " +:+ pretty missing +:+ " missing"
  | u => pretty closure +:+ " path(s) in closure, " +:+ pretty u +:+ " served upstream, " +:+ pretty missing +:+ " missing"
  end.

(** [self.negotiated]: its events. *)
Definition report_negotiated (closure : nat) (upstream : list PathInfo) (missing : nat) (nar_bytes : Z) : list Output :=
  map event (negotiated closure upstream missing nar_bytes).

Definition start (json : bool) (closure : nat) (upstream missing : list PathInfo) : Report * list Output :=
  if json then (mkReport json false, report_negotiated closure upstream (length missing) (nar_bytes missing))
  else
    let line := Out (negotiated_line closure (length upstream) (length missing)) in
    if is_nil missing then (mkReport json false, [line])
    else (mkReport json true, [line; Bar_Open (nar_bytes missing)]).

(** [Report::plain], the daemon's. *)
Definition report_plain : Report := mkReport false false.

Definition report_path (r : Report) (info : PathInfo) (outcome : Outcome) : list Output :=
  [if rp_json r then event (path_event info outcome)
   else match outcome with
        | Failed error => Out ("  failed   " +:+ pi_path info +:+ ": " +:+ push_error_text error)
        | _ => Out ("  " +:+ pad 8 (as_str outcome) +:+ " " +:+ pi_path info)
        end].

Definition rechecked (r : Report) (gone : list PathInfo) : list Output :=
  (if rp_bar r then [Bar_Grow (nar_bytes gone)] else []) ++
  [if rp_json r then event (Ev_Rechecked (length gone) (nar_bytes gone))
   else Out ("re-check: " +:+ pretty (length gone) +:+ " path(s) went missing during the run, pushing them")].

(** [elapsed]: the nanoseconds since the report began. *)
Definition finish (r : Report) (summary : Summary) (elapsed : Z) : list Output :=
  (if rp_bar r then [Bar_Clear] else []) ++
  [if rp_json r then event (Ev_Done summary)
   else Out ("done: " +:+ pretty (su_pushed summary) +:+ " pushed, " +:+ pretty (su_deduped summary) +:+ " deduped, " +:+
     pretty (su_failed summary) +:+ " failed (" +:+ size_text (su_nar_bytes summary) +:+ " in " +:+
     one_decimal (secs_f64 elapsed) +:+ "s)")].

Definition dry_run (json : bool) (closure : nat) (upstream missing : list PathInfo) (elapsed : Z) : list Output :=
  let r := mkReport json false in
  if json then
    report_negotiated closure upstream (length missing) (nar_bytes missing) ++
    concat (map (λ info, report_path r info WouldPush) missing) ++
    finish r (mkSummary 0 0 0 (nar_bytes missing)) elapsed
  else
    [Out (negotiated_line closure (length upstream) (length missing))] ++
    map (λ info, Out ("  upstream   " +:+ pi_path info)) upstream ++
    map (λ info, Out ("  would-push " +:+ pi_path info)) missing ++
    [Out (size_text (nar_bytes missing) +:+ " to upload (uncompressed)")].

(** ** A run's output *)

Definition call_output (json : bool) (elapsed : Z) (r : Report) (call : ReportCall) : Report * list Output :=
  match call with
  | Report_DryRun closure upstream missing => (r, dry_run json closure upstream missing elapsed)
  | Report_Start closure upstream missing => start json closure upstream missing
  | Report_Rechecked gone => (r, rechecked r gone)
  | Report_Finish summary => (r, finish r summary elapsed)
  end.

(** One request of a run, answered. *)
Definition event_output (json : bool) (elapsed : Z) (r : Report) (e : Event RunOp) : Report * list Output :=
  match e with
  | Ev op b =>
      match op in RunOp B return B → Report * list Output with
      | Run_Report call => λ _, call_output json elapsed r call
      | Run_Push _ => λ outcomes, (r, concat (map (λ o, report_path r o.1 o.2) outcomes))
      | _ => λ _, (r, [])
      end b
  end.

Fixpoint run_output_from (json : bool) (elapsed : Z) (r : Report) (tr : list (Event RunOp)) : list Output :=
  match tr with
  | [] => []
  | e :: tr => let '(r', out) := event_output json elapsed r e in out ++ run_output_from json elapsed r' tr
  end.

(** No report exists before [start] makes it; the run asks for none until then. *)
Definition run_output (json : bool) (elapsed : Z) (tr : list (Event RunOp)) : list Output :=
  run_output_from json elapsed (mkReport json false) tr.

Definition line_of (o : Output) : option string := match o with Out line => Some line | _ => None end.
Definition stdout (out : list Output) : string := foldr (λ l s, writeln l +:+ s) "" (omap line_of out).
End report.

(** ** Reading the events *)

Section reading.
Context {J : EventJson} `{!EventJsonLaws J}.

(** A consumer: one value per line. *)
Definition read_stream (out : string) : option (list Value) := mapM value_from_string (str_lines out).

Definition is_event (name : string) (v : Value) : bool := bool_decide (v !! "event" = Some (Field_Str name)).

(** The path and the status of a path event. *)
Definition path_field (key : string) (v : Value) : option string :=
  if is_event "path" v then match v !! key with Some (Field_Str s) => Some s | _ => None end else None.

Definition status_count (status : string) (vs : list Value) : nat :=
  length (filter (λ v, path_field "status" v = Some status) vs).

Lemma status_count_app status vs vs' : status_count status (vs ++ vs') = status_count status vs + status_count status vs'.
Proof. unfold status_count. by rewrite filter_app, length_app. Qed.

Lemma path_event_fields info outcome :
  let v := event_value (path_event info outcome) in
  is_event "path" v = true ∧ is_event "done" v = false ∧
  path_field "path" v = Some (pi_path info) ∧ path_field "status" v = Some (as_str outcome).
Proof. by destruct outcome. Qed.

Lemma path_values outcomes :
  let vs := map event_value (path_events outcomes) in
  Forall (λ v, is_event "done" v = false) vs ∧
  omap (path_field "path") vs = map (λ e, pi_path e.1) outcomes ∧
  ∀ status, status_count status vs = length (filter (λ e, as_str e.2 = status) outcomes).
Proof.
  induction outcomes as [|[info o] outcomes (Hd & Hp & Hs)]; [done|].
  destruct (path_event_fields info o) as (_ & Hdone & Hpath & Hstatus).
  change (map event_value (path_events ((info, o) :: outcomes)))
    with (event_value (path_event info o) :: map event_value (path_events outcomes)).
  generalize dependent (event_value (path_event info o)). intros v Hdone Hpath Hstatus. split_and!.
  - by constructor.
  - cbn [omap list_omap]. rewrite Hpath. cbn. f_equal. exact Hp.
  - intros status. specialize (Hs status). unfold status_count in *. rewrite !filter_cons, Hstatus. cbn [snd].
    destruct (decide (Some (as_str o) = Some status)) as [[= Heq]|Hne], (decide (as_str o = status)); try congruence.
    cbn [length]. by rewrite <-Hs.
Qed.

(** ** The totals *)

Lemma tally_counts outcomes s failed :
  let s' := (foldl tally_one (s, failed) (map (λ e : PathInfo * Outcome, (pi_path e.1, e.2)) outcomes)).1 in
  let count status := length (filter (λ e, as_str e.2 = status) outcomes) in
  su_pushed s' = su_pushed s + count "pushed" ∧ su_deduped s' = su_deduped s + count "deduped" ∧
  su_failed s' = su_failed s + count "failed".
Proof.
  revert s failed. induction outcomes as [|[info o] outcomes IH]; intros s failed; [cbn; lia|].
  cbn [map foldl tally_one snd fst]. rewrite !filter_cons.
  destruct o; cbn [as_str snd]; repeat case_decide; try done;
    match goal with |- context [foldl _ (?s', ?f) _] => specialize (IH s' f) end; cbn in *; lia.
Qed.

Lemma tracked_counts outcomes paths :
  let s := (tracked outcomes paths).1 in
  let count status := status_count status (map event_value (path_events outcomes)) in
  su_pushed s = count "pushed" ∧ su_deduped s = count "deduped" ∧ su_failed s = count "failed".
Proof.
  cbv zeta. destruct (path_values outcomes) as (_ & _ & Hc). rewrite !Hc.
  exact (tally_counts outcomes (mkSummary 0 0 0 (nar_bytes paths)) []).
Qed.

(** ** The stream *)

Lemma json_output_from elapsed tr :
  run_output_from true elapsed (mkReport true false) tr = map event (report tr).
Proof.
  induction tr as [|[B op b] tr IH]; [done|].
  assert (Hone : event_output true elapsed (mkReport true false) (Ev op b) =
    (mkReport true false, map event (report_of (Ev op b)))).
  { destruct op as [| | |paths|call]; [done|done|done| |].
    - cbn. f_equal. induction b as [|[info o] b IHb]; [done|]. cbn in *. by rewrite IHb.
    - destruct call as [closure upstream missing|closure upstream missing| |]; [|done..].
      cbn [event_output call_output report_of report_events]. unfold dry_run, report_negotiated. f_equal.
      rewrite !map_app. do 2 f_equal. clear.
      induction missing as [|info missing IHm]; [done|]. cbn in *. by rewrite IHm. }
  cbn [run_output_from]. rewrite Hone, IH. unfold report. cbn [map concat]. by rewrite map_app.
Qed.

Lemma read_json_stream elapsed tr :
  read_stream (stdout (run_output true elapsed tr)) = Some (map event_value (report tr)).
Proof.
  unfold run_output. rewrite json_output_from. unfold read_stream, stdout.
  assert (Hl : omap line_of (map event (report tr)) = map (λ e, value_to_string (event_value e)) (report tr)).
  { induction (report tr) as [|e l IH]; [done|]. cbn in *. by rewrite IH. }
  rewrite Hl, str_lines_writelns.
  - apply mapM_Some_2. clear Hl. induction (report tr) as [|e l IH]; [constructor|]. constructor; [apply value_json|exact IH].
  - apply Forall_forall. intros l (e & -> & _)%list_elem_of_fmap. apply value_one_line.
Qed.

(** A whole stream of a run over a closure of [n] paths: the Negotiation first, one
    closing event, and in between a path event for each path of [upstream] and of
    [named], which the totals count. *)
Record whole_stream (n : nat) (upstream named : list PathInfo) (first : Value) (middle : list Value) (last_ : Value)
    : Prop := {
  ws_first : is_event "negotiated" first = true;
  ws_last : is_event "done" last_ = true;
  ws_once : Forall (λ v, is_event "done" v = false) (first :: middle);
  ws_closure : first !! "closure" = Some (num n);
  ws_upstream : first !! "upstream" = Some (num (status_count "upstream" middle));
  ws_pushed : last_ !! "pushed" = Some (num (status_count "pushed" middle));
  ws_deduped : last_ !! "deduped" = Some (num (status_count "deduped" middle));
  ws_failed : last_ !! "failed" = Some (num (status_count "failed" middle));
  ws_paths : omap (path_field "path") middle ≡ₚ map pi_path (upstream ++ named);
}.

Definition alike (o : Outcome) (infos : list PathInfo) : list (PathInfo * Outcome) := map (λ info, (info, o)) infos.

Lemma alike_events o infos : map (λ info, path_event info o) infos = path_events (alike o infos).
Proof. unfold path_events, alike. by rewrite map_map. Qed.

Lemma alike_count o infos status :
  status_count status (map event_value (path_events (alike o infos))) =
  if bool_decide (as_str o = status) then length infos else 0.
Proof.
  destruct (path_values (alike o infos)) as (_ & _ & ->). unfold alike.
  induction infos as [|info infos IH]; [by destruct (bool_decide _)|]. cbn [map]. rewrite filter_cons. cbn [snd].
  destruct (decide (as_str o = status)) as [H|H]; rewrite ?(bool_decide_eq_true_2 _ H), ?(bool_decide_eq_false_2 _ H) in *; [|done].
  cbn [length]. by rewrite IH.
Qed.

Lemma settled_count outcomes :
  Forall (λ e : PathInfo * Outcome, Push.settled e.2) outcomes →
  status_count "upstream" (map event_value (path_events outcomes)) = 0.
Proof.
  intros H. destruct (path_values outcomes) as (_ & _ & ->).
  induction H as [|[info o] outcomes Ho _ IH]; [done|]. rewrite filter_cons. cbn [snd] in *.
  destruct Ho as [->|[->|[e ->]]]; cbn [as_str]; by case_decide.
Qed.

(** The paths of the closure come first, whatever follows them. *)
Lemma whole_stream_intro n upstream named missing bytes (s : Summary) rest :
  Forall (λ v, is_event "done" v = false) rest → status_count "upstream" rest = 0 →
  su_pushed s = status_count "pushed" rest → su_deduped s = status_count "deduped" rest →
  su_failed s = status_count "failed" rest → omap (path_field "path") rest ≡ₚ map pi_path named →
  whole_stream n upstream named (event_value (Ev_Negotiated n (length upstream) missing bytes))
    (map event_value (path_events (alike Upstream upstream)) ++ rest) (event_value (Ev_Done s)).
Proof.
  intros Hd Hu Hp Hdd Hf Hn. destruct (path_values (alike Upstream upstream)) as (Hdone & Hpaths & _).
  split; try done.
  - constructor; [done|]. by apply Forall_app.
  - rewrite status_count_app, alike_count, Hu, Nat.add_0_r. done.
  - rewrite status_count_app, alike_count, <-Hp. done.
  - rewrite status_count_app, alike_count, <-Hdd. done.
  - rewrite status_count_app, alike_count, <-Hf. done.
  - rewrite omap_app, Hpaths, map_app, Hn. f_equiv. unfold alike. rewrite map_map. done.
Qed.
(** The rest of the stream where one pool ran, and where a second did. *)
Lemma one_pool_rest jobs paths outcomes s :
  push_tracked jobs paths outcomes → s = (tracked outcomes paths).1 →
  let rest := map event_value (path_events outcomes) in
  Forall (λ v, is_event "done" v = false) rest ∧ status_count "upstream" rest = 0 ∧
  su_pushed s = status_count "pushed" rest ∧ su_deduped s = status_count "deduped" rest ∧
  su_failed s = status_count "failed" rest ∧ omap (path_field "path") rest ≡ₚ map pi_path paths.
Proof.
  intros [Hperm Hset]%push_tracked_settled ->. destruct (tracked_counts outcomes paths) as (Hp & Hd & Hf).
  destruct (path_values outcomes) as (Hdone & Hpaths & _). split_and!; [done|by apply settled_count|done..|].
  rewrite Hpaths, <-Hperm, map_map. done.
Qed.

Lemma two_pools_rest jobs paths outcomes s paths' outcomes' s' k bytes :
  push_tracked jobs paths outcomes → s = (tracked outcomes paths).1 →
  push_tracked jobs paths' outcomes' → s' = add_assign s (tracked outcomes' paths').1 →
  let rest := map event_value (path_events outcomes) ++
    event_value (Ev_Rechecked k bytes) :: map event_value (path_events outcomes') in
  Forall (λ v, is_event "done" v = false) rest ∧ status_count "upstream" rest = 0 ∧
  su_pushed s' = status_count "pushed" rest ∧ su_deduped s' = status_count "deduped" rest ∧
  su_failed s' = status_count "failed" rest ∧ omap (path_field "path") rest ≡ₚ map pi_path (paths ++ paths').
Proof.
  intros H Hs H' ->. destruct (one_pool_rest _ _ _ _ H Hs) as (Hd & Hu & Hp & Hdd & Hf & Hn).
  destruct (one_pool_rest _ _ _ _ H' eq_refl) as (Hd' & Hu' & Hp' & Hdd' & Hf' & Hn').
  assert (Hmid : ∀ status, status_count status (event_value (Ev_Rechecked k bytes) :: map event_value (path_events outcomes')) =
    status_count status (map event_value (path_events outcomes'))) by done.
  cbv zeta. rewrite !status_count_app, !Hmid. unfold add_assign. cbn [su_pushed su_deduped su_failed]. split_and!; try lia.
  - apply Forall_app. split; [done|by constructor].
  - rewrite omap_app, map_app, Hn. f_equiv. exact Hn'.
Qed.

(** C12: What garret push --json prints reads back, line by line, as one whole report: a run that
    ended before its Negotiation prints nothing; any other run prints the Negotiation first and
    exactly one done event, last, so that a stream cut short shows, with one path event for each
    path signed upstream and for each path it named, and totals that count those events. *)
Theorem json_report_is_whole `{L : ClientLibs} conn closure upstream_keys dry_run jobs elapsed tr r :
  run_trace (push_closure conn closure upstream_keys dry_run) tr r →
  Forall (λ batch, push_tracked jobs batch.1 batch.2) (pushes tr) →
  ∃ vs, read_stream (stdout (run_output true elapsed tr)) = Some vs ∧
    ((vs = [] ∧ ∃ e, r = Err e) ∨
     ∃ first middle last_ named, vs = first :: middle ++ [last_] ∧
       whole_stream (length closure) (partition_upstream closure upstream_keys).2 named first middle last_ ∧
       (if dry_run
        then ∃ hashes absent, asked tr = [(hashes, absent)] ∧
          named = retain_missing (partition_upstream closure upstream_keys).1 absent ∧
          status_count "would-push" middle = length named
        else named = concat (map fst (pushes tr)) ∧
          ∀ s, r = Ok s → last_ = event_value (Ev_Done s))).
Proof.
  intros Hrun%push_shape Hpool. rewrite read_json_stream. eexists. split; [reflexivity|].
  revert Hrun Hpool. generalize (partition_upstream closure upstream_keys) (asked tr) (pushes tr) (report tr).
  intros [own upstream] qs ps evs Hrun Hpool. cbn [fst snd] in *.
  destruct Hrun as [d e|absent|absent missing_ outcomes s0 Hm Hs Hcase|absent missing_ outcomes s0 e Hm Hs Hne H0
    |absent absent' missing_ outcomes s0 Hm Hs Hne H0 Hnil
    |absent absent' missing_ gone outcomes outcomes' s0 s' Hm Hs Hne H0 Hg Hgne Hs'];
    [left; by eauto|right..]; unfold begun, negotiated; rewrite alike_events; rewrite <-?Hm.
  - set (missing_ := retain_missing own absent). rewrite alike_events, !map_app, app_assoc.
    eexists _, _, _, missing_. split; [reflexivity|]. destruct (path_values (alike WouldPush missing_)) as (Hdone & Hpaths & _).
    split; [|exists (closure_hashes own), absent; split_and!; [done|done|by rewrite status_count_app, !alike_count]].
    apply whole_stream_intro; rewrite ?alike_count; try done. rewrite Hpaths. unfold alike. by rewrite map_map.
  - apply Forall_inv in Hpool. rewrite !map_app, app_assoc. eexists _, _, _, missing_. split; [reflexivity|].
    split; [|split; [by cbn; rewrite app_nil_r|by intros s [= <-]]].
    destruct (one_pool_rest _ _ _ _ Hpool Hs) as (? & ? & ? & ? & ? & ?). by apply whole_stream_intro.
  - apply Forall_inv in Hpool. rewrite !map_app, app_assoc. eexists _, _, _, missing_. split; [reflexivity|].
    split; [|split; [by cbn; rewrite app_nil_r|done]].
    destruct (one_pool_rest _ _ _ _ Hpool Hs) as (? & ? & ? & ? & ? & ?). by apply whole_stream_intro.
  - apply Forall_inv in Hpool. rewrite !map_app, app_assoc. eexists _, _, _, missing_. split; [reflexivity|].
    split; [|split; [by cbn; rewrite app_nil_r|by intros s [= <-]]].
    destruct (one_pool_rest _ _ _ _ Hpool Hs) as (? & ? & ? & ? & ? & ?). by apply whole_stream_intro.
  - apply Forall_cons in Hpool as [Hpool Hpool'%Forall_inv].
    replace (path_events outcomes ++ Ev_Rechecked (length gone) (nar_bytes gone) :: path_events outcomes' ++ [Ev_Done s'])
      with ((path_events outcomes ++ Ev_Rechecked (length gone) (nar_bytes gone) :: path_events outcomes') ++ [Ev_Done s'])
      by (by rewrite <-app_assoc).
    rewrite !map_app, app_assoc. eexists _, _, _, (missing_ ++ gone). split; [reflexivity|].
    split; [|split; [by cbn; rewrite app_nil_r|by intros s [= <-]]].
    destruct (two_pools_rest _ _ _ _ _ _ _ (length gone) (nar_bytes gone) Hpool Hs Hpool' Hs') as (? & ? & ? & ? & ? & ?).
    by apply whole_stream_intro.
Qed.
End reading.

(** ** Examples *)

#[export] Instance toy_event_json : EventJson := {|
  value_to_string v := pos_digits (encode v);
  value_from_string s := decode (digits_pos s);
  status_text status := pretty status;
  duration_debug ms := pretty ms +:+ "ms";
  reqwest_text _ := "error sending request";
|}.

#[export] Instance toy_event_json_laws : EventJsonLaws toy_event_json.
Proof.
  split; intros v; cbn.
  - rewrite <-(str_app_nil_r (pos_digits _)), digits_pos_digits. apply decode_encode.
  - apply pos_digits_plain.
Qed.

(** A terminal, on a run that pushes one of two paths, and on one whose upload fails. *)
Lemma example_terminal :
  run_output false 1500000000 example_closure_trace =
    [Out "2 path(s) in closure, 1 served upstream, 1 missing"; Bar_Open 9;
     Out "  pushed   /nix/store/0123456789abcdfghijklmnpqrsvwxyz-user"; Bar_Clear;
     Out "done: 1 pushed, 0 deduped, 0 failed (9 B in 1.5s)"] ∧
  report_path report_plain example_dep (Failed (Rejected 413 "too large")) =
    [Out "  failed   /nix/store/1123456789abcdfghijklmnpqrsvwxyz-dep: upload rejected with 413: too large"] ∧
  dry_run false 2 [example_dep] [example_user] 0 =
    [Out "2 path(s) in closure, 1 served upstream, 1 missing";
     Out "  upstream   /nix/store/1123456789abcdfghijklmnpqrsvwxyz-dep";
     Out "  would-push /nix/store/0123456789abcdfghijklmnpqrsvwxyz-user"; Out "9 B to upload (uncompressed)"].
Proof. split_and!; vm_compute; reflexivity. Qed.

Lemma json_report_is_whole_witness :
  ∃ vs, read_stream (stdout (run_output true 0 example_closure_trace)) = Some vs ∧ length vs = 4.
Proof.
  assert (Hpool : Forall (λ batch, push_tracked 1 batch.1 batch.2) (pushes example_closure_trace)).
  { cbn. repeat constructor. cbn. apply (rtc_l _ _ (mkPool [] [example_user] [])).
    - apply (pool_start 1 example_user [] [] []). cbn. lia.
    - apply rtc_once. apply (pool_finish 1 [] [] example_user [] [] (Ok Pushed)). intros o [= <-]. by left. }
  destruct (json_report_is_whole (L := toy_client) example_connection example_batch ["other-1"] false 1 0
    example_closure_trace (Ok (mkSummary 1 0 0 9)) example_closure_runs Hpool) as (vs & Hr & H).
  exists vs. split; [exact Hr|]. rewrite read_json_stream in Hr. injection Hr as <-. reflexivity.
Defined.
