(* ===== verification/Metrics.v ===== *)
(** * Metrics: what the services count

    [crates/garret-server/src/metrics.rs], with the labels of [auth.rs] and
    [storage.rs] and [loggable], which renders a refused token's error for the
    log. Requests run beside each other: [service_step] interleaves them over one
    registry, and a client that goes away drops its request's future. The
    Prometheus recorder and the rendering of its text are the library's. *)

From stdpp Require Import pretty.
From S2P Require Import Prelude Text Prog Config Auth Settings Report.

(** ** Buckets *)

(** [byte_buckets], in bytes. *)
Definition byte_buckets : list Z := map (λ p, Z.shiftl 1 (Z.of_nat p)) (seq 16 18).

(** [latency_buckets], in hundred-thousandths of a second. *)
Definition latency_buckets : list Z :=
  [10; 25; 50; 100; 500; 1000; 5000; 10000; 25000; 50000; 100000; 250000; 500000; 1000000;
   3000000; 6000000; 12000000; 30000000; 90000000]%Z.

Inductive Matcher := Matcher_Suffix (s : string) | Matcher_Full (s : string).

(** The bounds [install] sets; ratios are in hundredths, like those of [latency_buckets]
    in a unit of their own. *)
Definition bucket_bounds : list (Matcher * list Z) :=
  [(Matcher_Suffix "_bytes", byte_buckets);
   (Matcher_Suffix "_wait_seconds", latency_buckets);
   (Matcher_Suffix "_duration_seconds", latency_buckets);
   (Matcher_Full "garret_negotiation_batch_size", [1; 5; 10; 50; 100; 500; 1000; 2500; 5000; 10000]%Z);
   (Matcher_Full "garret_negotiation_missing_ratio", [0; 1; 5; 10; 25; 50; 75; 90; 100]%Z)].

(** Prometheus wants bounds that ascend. *)
Lemma buckets_ascend : Forall (λ b, StronglySorted Z.lt b.2) bucket_bounds.
Proof. repeat constructor. Qed.

Lemma byte_buckets_span : head byte_buckets = Some (64 * 1024)%Z ∧ last byte_buckets = Some (8 * 1024 ^ 3)%Z.
Proof. by vm_compute. Qed.

(** ** Labels *)

(** Any code outside 1xx to 4xx counts as 5xx. *)
Definition status_class (status : Z) : string :=
  if ((100 <=? status) && (status <=? 199))%Z then "1xx"
  else if ((200 <=? status) && (status <=? 299))%Z then "2xx"
  else if ((300 <=? status) && (status <=? 399))%Z then "3xx"
  else if ((400 <=? status) && (status <=? 499))%Z then "4xx"
  else "5xx".

Definition METHODS : list string := ["GET"; "HEAD"; "POST"; "PUT"; "DELETE"].

Definition method_label (m : string) : string := if bool_decide (m ∈ METHODS) then m else "OTHER".

Definition route_label (matched : option string) : string := default "unmatched" matched.

Inductive SdkError := Sdk_Timeout | Sdk_Dispatch | Sdk_Response | Sdk_Service | Sdk_Other.

Definition error_kind (e : SdkError) : string :=
  match e with
  | Sdk_Timeout => "timeout"
  | Sdk_Dispatch => "dispatch"
  | Sdk_Response => "response"
  | Sdk_Service => "service"
  | Sdk_Other => "other"
  end.

(** [Authenticator::check]: the label is the configured issuer's URL, never the
    token's own claim. *)
Definition check `{J : Jwt} (issuers : list IssuerConfig) (token : string) : Prog AuthOp (string * Result string Refusal) :=
  match route issuers token with
  | Ok cfg => do verdict <- verify_token cfg token; Ret (is_issuer cfg, verdict)
  | Err refusal => Ret ("unknown", Err refusal)
  end.

(** The labels [authenticate] counts a verdict under. *)
Definition validation_labels (checked : string * Result string Refusal) : string * string :=
  (checked.1, outcome_as_str (match checked.2 with Ok _ => Auth_Accepted | Err refusal => rf_outcome refusal end)).

(** ** Requests *)

Inductive MetricOp : Type → Type :=
  | Metric_Now : MetricOp Z
  | Metric_InFlight (by_ : Z) : MetricOp unit
  (** The handler behind: its status, or the future was dropped first. *)
  | Metric_Next : MetricOp (option Z)
  | Metric_Total (route method status : string) : MetricOp unit
  | Metric_Duration (route method : string) (nanos : Z) : MetricOp unit.

(** [InFlight::enter], and its drop. *)
Definition in_flight_enter : Prog MetricOp unit := request (Metric_InFlight 1).
Definition in_flight_drop : Prog MetricOp unit := request (Metric_InFlight (-1)).

(** The guard is dropped with the block, also when the whole future is. *)
Definition track_http (matched : option string) (method : string) : Prog MetricOp (option Z) :=
  let route := route_label matched in
  let method := method_label method in
  do started <- request Metric_Now;
  do _ <- in_flight_enter;
  do response <- request Metric_Next;
  do _ <- in_flight_drop;
  match response with
  | None => Ret None
  | Some status =>
      do _ <- request (Metric_Total route method (status_class status));
      do ended <- request Metric_Now;
      do _ <- request (Metric_Duration route method (ended - started));
      Ret response
  end.

(** The recorder's series: [garret_http_requests_in_flight],
    [garret_http_requests_total] and the counts of the duration histogram. *)
Record Registry := mkRegistry {
  rg_in_flight : Z;
  rg_total : gmap (string * string * string) nat;
  rg_durations : gmap (string * string) nat;
}.

Definition registry_new : Registry := mkRegistry 0 ∅ ∅.

Definition count_up `{Countable K} (k : K) (m : gmap K nat) : gmap K nat := <[k := S (m !!! k)]> m.

Definition metric_step (r : Registry) {B} (op : MetricOp B) : B → Registry → Prop :=
  match op in MetricOp B return B → Registry → Prop with
  | Metric_Now | Metric_Next => λ _ r', r' = r
  | Metric_InFlight by_ => λ _ r', r' = mkRegistry (rg_in_flight r + by_) (rg_total r) (rg_durations r)
  | Metric_Total route method status => λ _ r',
      r' = mkRegistry (rg_in_flight r) (count_up (route, method, status) (rg_total r)) (rg_durations r)
  | Metric_Duration route method _ => λ _ r',
      r' = mkRegistry (rg_in_flight r) (rg_total r) (count_up (route, method) (rg_durations r))
  end.

(** What the service has answered: route and method labels, and the class. *)
Definition answer_of {B} (route method : string) (op : MetricOp B) : B → list (string * string * string) :=
  match op in MetricOp B return B → list (string * string * string) with
  | Metric_Next => λ response, match response with Some status => [(route, method, status_class status)] | None => [] end
  | _ => λ _, []
  end.

Record Request := mkRequest {
  rq_route : string;
  rq_method : string;
  rq_rest : Prog MetricOp (option Z);
}.

Record Service := mkService {
  sv_registry : Registry;
  sv_requests : list Request;
  sv_answered : list (string * string * string);
}.

Inductive service_step (routes : list string) : Service → Service → Prop :=
  | service_arrives r requests answered matched method :
      (∀ route, matched = Some route → route ∈ routes) →
      service_step routes (mkService r requests answered)
        (mkService r (requests ++ [mkRequest (route_label matched) (method_label method) (track_http matched method)]) answered)
  | service_moves r r' before after route method {B} (op : MetricOp B) k b answered :
      metric_step r op b r' →
      service_step routes (mkService r (before ++ mkRequest route method (Step op k) :: after) answered)
        (mkService r' (before ++ mkRequest route method (k b) :: after) (answered ++ answer_of route method op b))
  | service_ends r before after route method a answered :
      service_step routes (mkService r (before ++ mkRequest route method (Ret a) :: after) answered)
        (mkService r (before ++ after) answered).

Definition service_new : Service := mkService registry_new [] [].

(** ** The process's own metrics

    What of [/proc] could be read; the result is the gauges set. *)
Section process.
(** [str::parse::<f64>]. *)
Context (parse_f64 : string → option f64).

Definition rsplit_once (c : ascii) (s : string) : option string :=
  if ascii_mem c s then Some (rsplit_first c s) else None.

Definition close_paren : ascii := ")".
Definition TICKS_PER_SEC : f64 := f64_of_Z 100.

Definition cpu_seconds (stat : string) : option f64 :=
  rest ← rsplit_once close_paren stat;
  let f := split_whitespace rest in
  utime ← f !! 11 ≫= parse_f64;
  stime ← f !! 12 ≫= parse_f64;
  Some (f64_div (f64_add utime stime) TICKS_PER_SEC).

(** The number after the first line that starts with [label]. *)
Definition labelled (label text : string) : option f64 :=
  v ← head (omap (strip_prefix label) (text_lines text));
  head (split_whitespace v) ≫= parse_f64.

Definition set_gauge (name : string) (v : option f64) : list (string * f64) :=
  match v with Some v => [(name, v)] | None => [] end.

Definition record_process_metrics (stat status limits : option string) (fds : option nat) : list (string * f64) :=
  set_gauge "process_cpu_seconds_total" (stat ≫= cpu_seconds) ++
  set_gauge "process_resident_memory_bytes" ((λ kb, f64_mul kb (f64_of_Z 1024)) <$> (status ≫= labelled "VmRSS:")) ++
  set_gauge "process_open_fds" ((λ n, f64_of_Z (Z.of_nat n)) <$> fds) ++
  set_gauge "process_max_fds" (limits ≫= labelled "Max open files").
End process.

(** ** Logging a refusal

    Text as code points. [char::escape_debug] asks two tables of Unicode. *)
Class UnicodeTables := {
  grapheme_extended : Z → bool;
  printable : Z → bool;
}.

Definition is_control (c : Z) : bool := ((0 <=? c) && (c <? 32) || (127 <=? c) && (c <? 160))%Z.

Class UnicodeLaws (U : UnicodeTables) := {
  controls_are_not_printable c : is_control c = true → printable c = false;
}.

Section log.
Context {U : UnicodeTables}.

Definition hex_digit (d : Z) : Z := if (d <? 10)%Z then (48 + d)%Z else (87 + d)%Z.

Fixpoint hex_digits (fuel : nat) (n : Z) (acc : list Z) : list Z :=
  match fuel with
  | 0 => acc
  | S fuel =>
      let acc := hex_digit (n mod 16) :: acc in
      if (n / 16 =? 0)%Z then acc else hex_digits fuel (n / 16) acc
  end.

(** [\u{...}]; a code point has six digits at most. *)
Definition escape_unicode (c : Z) : list Z := [92; 117; 123]%Z ++ hex_digits 6 c [] ++ [125%Z].

(** [extended]: whether a combining character is escaped, as at the start of a text. *)
Definition escape_char (extended : bool) (c : Z) : list Z :=
  if (c =? 0)%Z then [92; 48]%Z
  else if (c =? 9)%Z then [92; 116]%Z
  else if (c =? 13)%Z then [92; 114]%Z
  else if (c =? 10)%Z then [92; 110]%Z
  else if ((c =? 34) || (c =? 39) || (c =? 92))%Z then [92%Z; c]
  else if extended && grapheme_extended c then escape_unicode c
  else if printable c then [c]
  else escape_unicode c.

(** [str::escape_debug]. *)
Definition escape_debug (s : list Z) : list Z :=
  match s with
  | [] => []
  | c :: s => escape_char true c ++ concat (map (escape_char false) s)
  end.

Definition MAX_CHARS : nat := 256.
Definition ELLIPSIS : Z := 8230.

Definition loggable (rendered : list Z) : list Z :=
  let escaped := escape_debug rendered in
  take MAX_CHARS escaped ++ (if is_nil (drop MAX_CHARS escaped) then [] else [ELLIPSIS]).
End log.

(** ** The books of the registry *)

Abbreviation Key := (string * string * string)%type.

Definition count `{EqDecision K} (k : K) (l : list K) : nat := length (filter (λ x, x = k) l).

Lemma count_app `{EqDecision K} (k : K) l l' : count k (l ++ l') = count k l + count k l'.
Proof. unfold count. by rewrite filter_app, length_app. Qed.

Lemma count_in `{EqDecision K} (k : K) l : count k l ≠ 0 → k ∈ l.
Proof.
  intros H. destruct (filter (λ x, x = k) l) as [|x l'] eqn:E; [by unfold count in H; rewrite E in H|].
  assert (Hx : x ∈ filter (λ x, x = k) l) by (rewrite E; left). by apply list_elem_of_filter in Hx as [-> ?].
Qed.

Definition series_of (a : Key) : string * string := a.1.

Section books.
Context (route method : string).

(** A request's account: its part of the gauge, and what it has been answered but
    not yet counted and not yet timed. [settles]: however its requests are
    answered, the account is balanced at the end. *)
Fixpoint settles (p : Prog MetricOp (option Z)) (gauge : Z) (uncounted : list Key) (untimed : list (string * string)) : Prop :=
  (0 ≤ gauge ≤ 1)%Z ∧
  match p with
  | Ret _ => gauge = 0%Z ∧ uncounted = [] ∧ untimed = []
  | @Step _ _ B op k =>
      match op in MetricOp B return (B → Prog MetricOp (option Z)) → (B → Z → list Key → list (string * string) → Prop) → Prop with
      | Metric_Now => λ _ rec, ∀ t, rec t gauge uncounted untimed
      | Metric_InFlight by_ => λ _ rec, ∀ u, rec u (gauge + by_)%Z uncounted untimed
      | Metric_Next => λ _ rec, ∀ response,
          rec response gauge (uncounted ++ answer_of route method Metric_Next response)
            (untimed ++ map series_of (answer_of route method Metric_Next response))
      | Metric_Total r m s => λ _ rec, ∃ rest, uncounted = (r, m, s) :: rest ∧ ∀ u, rec u gauge rest untimed
      | Metric_Duration r m _ => λ _ rec, ∃ rest, untimed = (r, m) :: rest ∧ ∀ u, rec u gauge uncounted rest
      end k (λ b, settles (k b))
  end.
End books.

Lemma track_http_settles matched m :
  settles (route_label matched) (method_label m) (track_http matched m) 0 [] [].
Proof.
  cbn. split; [lia|]. intros started. split; [lia|]. intros ?. split; [lia|]. intros response. split; [lia|]. intros ?.
  destruct response as [status|]; cbn; (split; [lia|]); [|done].
  eexists. split; [done|]. intros ?. split; [lia|]. intros ended. split; [lia|]. by eexists.
Qed.

Record Account := mkAccount {
  ac_gauge : Z;
  ac_uncounted : list Key;
  ac_untimed : list (string * string);
}.

Definition keeps (rq : Request) (a : Account) : Prop :=
  settles (rq_route rq) (rq_method rq) (rq_rest rq) (ac_gauge a) (ac_uncounted a) (ac_untimed a).

Record balanced (r : Registry) (answered : list Key) (accounts : list Account) : Prop := {
  bl_gauge : rg_in_flight r = sum_Z (map ac_gauge accounts);
  bl_total k : rg_total r !!! k + count k (concat (map ac_uncounted accounts)) = count k answered;
  bl_durations k : rg_durations r !!! k + count k (concat (map ac_untimed accounts)) = count k (map series_of answered);
}.

Lemma count_up_total `{Countable K} (k k' : K) (m : gmap K nat) :
  count_up k m !!! k' = m !!! k' + count k' [k].
Proof.
  unfold count_up, count. cbn. destruct (decide (k = k')) as [->|Hne].
  - rewrite lookup_total_insert_eq. destruct (decide (k' = k')); [cbn; lia|done].
  - rewrite lookup_total_insert_ne by done. destruct (decide (k = k')); [done|cbn; lia].
Qed.

Lemma balanced_at r answered l1 a l2 :
  balanced r answered (l1 ++ a :: l2) ↔
  rg_in_flight r = (sum_Z (map ac_gauge (l1 ++ l2)) + ac_gauge a)%Z ∧
  (∀ k, rg_total r !!! k + (count k (concat (map ac_uncounted (l1 ++ l2))) + count k (ac_uncounted a)) = count k answered) ∧
  (∀ k, rg_durations r !!! k + (count k (concat (map ac_untimed (l1 ++ l2))) + count k (ac_untimed a)) =
    count k (map series_of answered)).
Proof.
  assert (Hp : ∀ {K} `{EqDecision K} (f : Account → list K) k,
    count k (concat (map f (l1 ++ a :: l2))) = count k (concat (map f (l1 ++ l2))) + count k (f a)).
  { intros K ? f k. rewrite !map_app, !concat_app, !count_app. cbn [map concat]. rewrite count_app. lia. }
  assert (Hg : sum_Z (map ac_gauge (l1 ++ a :: l2)) = (sum_Z (map ac_gauge (l1 ++ l2)) + ac_gauge a)%Z).
  { rewrite !map_app, !sum_Z_app. cbn [map]. rewrite sum_Z_cons. lia. }
  split.
  - intros [H1 H2 H3]. rewrite Hg in H1. split_and!; [done|..]; intros k; [specialize (H2 k)|specialize (H3 k)];
      rewrite Hp in *; lia.
  - intros (H1 & H2 & H3). split; [by rewrite Hg|..]; intros k; [specialize (H2 k)|specialize (H3 k)]; rewrite Hp; lia.
Qed.

Lemma count_cons `{EqDecision K} (k x : K) l : count k (x :: l) = count k [x] + count k l.
Proof. exact (count_app k [x] l). Qed.

(** Whatever a request does next, its account takes it up. *)
Lemma account_moves route method {B} (op : MetricOp B) k b r r' answered l1 a l2 :
  settles route method (Step op k) (ac_gauge a) (ac_uncounted a) (ac_untimed a) →
  metric_step r op b r' → balanced r answered (l1 ++ a :: l2) →
  ∃ a', settles route method (k b) (ac_gauge a') (ac_uncounted a') (ac_untimed a') ∧
    balanced r' (answered ++ answer_of route method op b) (l1 ++ a' :: l2).
Proof.
  destruct a as [g T D]. cbn [ac_gauge ac_uncounted ac_untimed]. intros [_ Hs] Hstep (Hg & Ht & Hd)%balanced_at.
  cbn [ac_gauge ac_uncounted ac_untimed] in *.
  destruct op as [|by_| |rt m st|rt m n]; cbn in Hstep; subst r'; rewrite ?app_nil_r.
  - exists (mkAccount g T D). split; [exact (Hs b)|by apply balanced_at].
  - exists (mkAccount (g + by_) T D). split; [exact (Hs b)|]. apply balanced_at. cbn. split_and!; [lia|done..].
  - eexists (mkAccount g _ _). split; [exact (Hs b)|]. apply balanced_at. cbn [ac_gauge ac_uncounted ac_untimed].
    split_and!; [done|..]; intros key; [specialize (Ht key)|specialize (Hd key)]; rewrite ?(map_app series_of), !count_app; lia.
  - destruct Hs as (rest & -> & Hs). exists (mkAccount g rest D). split; [exact (Hs b)|]. apply balanced_at.
    cbn [ac_gauge ac_uncounted ac_untimed rg_in_flight rg_total rg_durations answer_of]. split_and!; [done| |done].
    intros key. specialize (Ht key). rewrite count_cons in Ht. rewrite count_up_total. lia.
  - destruct Hs as (rest & -> & Hs). exists (mkAccount g T rest). split; [exact (Hs b)|]. apply balanced_at.
    cbn [ac_gauge ac_uncounted ac_untimed rg_in_flight rg_total rg_durations answer_of]. split_and!; [done|done|].
    intros key. specialize (Hd key). rewrite count_cons in Hd. rewrite count_up_total. lia.
Qed.

(** ** Every state of the service *)

Definition CLASSES : list string := ["1xx"; "2xx"; "3xx"; "4xx"; "5xx"].

(** The series there can be for a router's templates. *)
Definition series (routes : list string) : list (string * string) :=
  list_prod ("unmatched" :: routes) ("OTHER" :: METHODS).
Definition labels (routes : list string) : list Key := list_prod (series routes) CLASSES.

Lemma elem_of_series routes route m : (route, m) ∈ series routes ↔ route ∈ "unmatched" :: routes ∧ m ∈ "OTHER" :: METHODS.
Proof. unfold series. by rewrite list_elem_of_In, in_prod_iff, <-!list_elem_of_In. Qed.

Lemma elem_of_labels routes s c : (s, c) ∈ labels routes ↔ s ∈ series routes ∧ c ∈ CLASSES.
Proof. unfold labels. by rewrite list_elem_of_In, in_prod_iff, <-!list_elem_of_In. Qed.

Lemma length_labels routes : length (series routes) = 6 * S (length routes) ∧ length (labels routes) = 30 * S (length routes).
Proof. unfold labels. rewrite length_prod. unfold series. rewrite length_prod. cbn [length METHODS CLASSES]. lia. Qed.

Record service_ok (routes : list string) (s : Service) (accounts : list Account) : Prop := {
  so_balanced : balanced (sv_registry s) (sv_answered s) accounts;
  so_keeps : Forall2 keeps (sv_requests s) accounts;
  so_series : Forall (λ rq, (rq_route rq, rq_method rq) ∈ series routes) (sv_requests s);
  so_answered : Forall (λ a, a ∈ labels routes) (sv_answered s);
  so_total k v : rg_total (sv_registry s) !! k = Some v → v ≠ 0;
  so_durations k v : rg_durations (sv_registry s) !! k = Some v → v ≠ 0;
}.

Lemma status_class_in status : status_class status ∈ CLASSES.
Proof. unfold status_class, CLASSES. repeat case_match; set_solver. Qed.

Lemma method_label_in m : method_label m ∈ "OTHER" :: METHODS.
Proof. unfold method_label. case_bool_decide; [by right|left]. Qed.

Lemma count_up_positive `{Countable K} (k : K) (m : gmap K nat) :
  (∀ k v, m !! k = Some v → v ≠ 0) → ∀ k' v, count_up k m !! k' = Some v → v ≠ 0.
Proof. intros Hm k' v. unfold count_up. intros [[_ <-]|[_ Hv]]%lookup_insert_Some; [done|by eapply Hm]. Qed.

Lemma service_ok_step routes s s' accounts :
  service_ok routes s accounts → service_step routes s s' → ∃ accounts', service_ok routes s' accounts'.
Proof.
  intros [Hb Hk Hs Ha Ht Hd] Hstep.
  destruct Hstep as [r requests answered matched m Hm|r r' before after route m B op k b answered Hstep|r before after route m a answered];
    cbn [sv_registry sv_requests sv_answered] in *.
  - exists (accounts ++ [mkAccount 0 [] []]). split; cbn [sv_registry sv_requests sv_answered]; try done.
    + apply balanced_at. rewrite app_nil_r. destruct Hb as [H1 H2 H3]. cbn. split_and!; [lia|..]; intros key; rewrite Nat.add_0_r; auto.
    + apply Forall2_app; [done|]. constructor; [apply track_http_settles|constructor].
    + apply Forall_app. split; [done|]. apply Forall_singleton. cbn [rq_route rq_method]. apply elem_of_series. split.
      * destruct matched as [route|]; [right; by apply Hm|left].
      * apply method_label_in.
  - apply Forall2_app_inv_l in Hk as (l1 & l2 & H1 & (a & l2' & Hka & H2 & ->)%Forall2_cons_inv_l & ->).
    destruct (account_moves route m op k b r r' answered l1 a l2' Hka Hstep Hb) as (a' & Hka' & Hb').
    apply Forall_app in Hs as [Hs1 [Hsr Hs2]%Forall_cons]. exists (l1 ++ a' :: l2').
    split; cbn [sv_registry sv_requests sv_answered]; [done|..].
    + apply Forall2_app; [done|by constructor].
    + apply Forall_app. split; [done|by constructor].
    + apply Forall_app. split; [done|]. destruct op; cbn [answer_of]; try constructor. destruct b as [status|]; constructor; [|constructor].
      apply elem_of_labels. split; [exact Hsr|apply status_class_in].
    + destruct op; cbn in Hstep; subst r'; [done|done|done| |done]. by apply count_up_positive.
    + destruct op; cbn in Hstep; subst r'; [done|done|done|done|]. by apply count_up_positive.
  - apply Forall2_app_inv_l in Hk as (l1 & l2 & H1 & ([g T D] & l2' & Hka & H2 & ->)%Forall2_cons_inv_l & ->).
    destruct Hka as (_ & Hg & HT & HD). cbn in Hg, HT, HD. subst. apply Forall_app in Hs as [Hs1 [_ Hs2]%Forall_cons].
    exists (l1 ++ l2'). split; cbn [sv_registry sv_requests sv_answered]; try done.
    + apply balanced_at in Hb as (Hb1 & Hb2 & Hb3). cbn in Hb1, Hb2, Hb3. split; [lia|..]; intros key; [specialize (Hb2 key)|specialize (Hb3 key)]; unfold count in *; cbn in *; lia.
    + by apply Forall2_app.
    + by apply Forall_app.
Qed.

Lemma size_list_le `{Countable K} (l : list K) : size (list_to_set l : gset K) ≤ length l.
Proof.
  induction l as [|k l IH]; [by rewrite list_to_set_nil, size_empty|]. rewrite list_to_set_cons, size_union_alt, size_singleton. cbn.
  pose proof (subseteq_size (list_to_set l ∖ {[k]}) (list_to_set l : gset K) ltac:(set_solver)). lia.
Qed.

Lemma dom_bounded `{Countable K} (m : gmap K nat) (l : list K) :
  (∀ k v, m !! k = Some v → k ∈ l) → size (dom m) ≤ length l.
Proof.
  intros Hm. etrans; [|apply size_list_le]. apply subseteq_size. intros k [v Hv]%elem_of_dom.
  apply elem_of_list_to_set. by eapply Hm.
Qed.

Lemma service_reached routes s : rtc (service_step routes) service_new s → ∃ accounts, service_ok routes s accounts.
Proof.
  assert (H : ∀ s1 s2, rtc (service_step routes) s1 s2 → (∃ a, service_ok routes s1 a) → ∃ a, service_ok routes s2 a).
  { induction 1 as [|s1 s2 s3 Hs _ IH]; [done|]. intros [a Ha]. by destruct (service_ok_step _ _ _ _ Ha Hs) as [a' ?]; eauto. }
  intros Hr. apply (H _ _ Hr). exists []. split; try constructor; cbn; try done; intros k; by rewrite lookup_total_empty.
Qed.

Lemma counted_once n m x : n + m = x → m = 0 → n = x.
Proof. lia. Qed.

Lemma account_gauge_bounds requests accounts :
  Forall2 keeps requests accounts → (0 ≤ sum_Z (map ac_gauge accounts) ≤ Z.of_nat (length requests))%Z.
Proof.
  induction 1 as [|rq a requests accounts Hk _ IH]; [done|]. cbn [map length]. rewrite sum_Z_cons.
  assert (0 ≤ ac_gauge a ≤ 1)%Z; [|lia]. unfold keeps in Hk. destruct (rq_rest rq); apply Hk.
Qed.

(** C40: However requests run beside each other, and whichever clients go away midway, the in-flight
    gauge is between zero and the requests there are, no request is counted twice, and the series
    stay within thirty a route, whatever paths and methods clients make up; once all requests have
    ended the gauge is zero and every request that was answered is counted and timed exactly once.
    *)
Theorem metrics_balance routes s :
  rtc (service_step routes) service_new s →
  (0 ≤ rg_in_flight (sv_registry s) ≤ Z.of_nat (length (sv_requests s)))%Z ∧
  (∀ k, rg_total (sv_registry s) !!! k ≤ count k (sv_answered s)) ∧
  size (dom (rg_total (sv_registry s))) ≤ 30 * S (length routes) ∧
  size (dom (rg_durations (sv_registry s))) ≤ 6 * S (length routes) ∧
  (sv_requests s = [] →
    rg_in_flight (sv_registry s) = 0%Z ∧
    (∀ k, rg_total (sv_registry s) !!! k = count k (sv_answered s)) ∧
    (∀ k, rg_durations (sv_registry s) !!! k = count k (map series_of (sv_answered s)))).
Proof.
  intros [accounts [[Hg Ht Hd] Hk Hs Ha Hpt Hpd]]%service_reached. destruct (length_labels routes) as [Hls Hll].
  pose proof (account_gauge_bounds _ _ Hk) as Hgauge. split_and!.
  - lia.
  - lia.
  - intros k. specialize (Ht k). lia.
  - rewrite <-Hll. apply dom_bounded. intros k v Hv. rewrite Forall_forall in Ha. apply Ha, count_in.
    specialize (Ht k). rewrite (lookup_total_correct _ _ _ Hv) in Ht. specialize (Hpt k v Hv). lia.
  - rewrite <-Hls. apply dom_bounded. intros k v Hv.
    assert (Hin : k ∈ map series_of (sv_answered s)).
    { apply count_in. specialize (Hd k). rewrite (lookup_total_correct _ _ _ Hv) in Hd. specialize (Hpd k v Hv). lia. }
    apply list_elem_of_fmap in Hin as ([sr c] & -> & Hin). rewrite Forall_forall in Ha. by apply Ha, elem_of_labels in Hin as [? _].
  - intros Hnil. rewrite Hnil in Hk. apply Forall2_nil_inv_l in Hk as ->. split_and!; [done|..]; intros k;
      [specialize (Ht k)|specialize (Hd k)]; by apply (counted_once _ 0).
Qed.

(** ** The log and [/proc] *)

Lemma hex_digits_clean fuel n acc :
  (0 ≤ n)%Z → Forall (λ c, is_control c = false) acc → Forall (λ c, is_control c = false) (hex_digits fuel n acc).
Proof.
  revert n acc. induction fuel as [|fuel IH]; intros n acc Hn Hacc; [done|]. cbn [hex_digits].
  assert (Hd : Forall (λ c, is_control c = false) (hex_digit (n mod 16) :: acc)).
  { constructor; [|done]. pose proof (Z.mod_pos_bound n 16 ltac:(lia)). unfold hex_digit, is_control. case_match; lia. }
  case_match; [done|]. apply IH; [apply Z.div_pos; lia|done].
Qed.

Lemma escape_unicode_clean c : (0 ≤ c)%Z → Forall (λ x, is_control x = false) (escape_unicode c).
Proof.
  intros Hc. unfold escape_unicode. apply Forall_app. split; [by repeat constructor|].
  apply Forall_app. split; [by apply hex_digits_clean|by repeat constructor].
Qed.

Section log_laws.
Context {U : UnicodeTables} `{!UnicodeLaws U}.

Lemma escape_char_clean extended c : (0 ≤ c)%Z → Forall (λ x, is_control x = false) (escape_char extended c).
Proof.
  intros Hc. unfold escape_char. repeat case_match; try (repeat constructor; done); try by apply escape_unicode_clean.
  - repeat constructor. unfold is_control. lia.
  - repeat constructor. destruct (is_control c) eqn:E; [|done]. by rewrite controls_are_not_printable in *.
Qed.

Lemma escape_debug_clean s : Forall (λ c, 0 ≤ c)%Z s → Forall (λ x, is_control x = false) (escape_debug s).
Proof.
  intros [|c s' Hc Hs]; [constructor|]. cbn [escape_debug]. apply Forall_app. split; [by apply escape_char_clean|].
  induction Hs as [|x s'' Hx _ IH]; [constructor|]. cbn [map concat]. apply Forall_app. split; [by apply escape_char_clean|done].
Qed.

(** The log text of a refused token holds no control character, so no line break an attacker chose,
    and at most 256 characters and an ellipsis; a text that fits is whole, and one that is cut says
    so. *)
Theorem loggable_is_one_bounded_line rendered :
  Forall (λ c, 0 ≤ c)%Z rendered →
  Forall (λ c, is_control c = false) (loggable rendered) ∧ length (loggable rendered) ≤ S MAX_CHARS ∧
  (length (escape_debug rendered) ≤ MAX_CHARS → loggable rendered = escape_debug rendered) ∧
  (MAX_CHARS < length (escape_debug rendered) → last (loggable rendered) = Some ELLIPSIS).
Proof.
  intros Hr. unfold loggable. assert (Hclean := escape_debug_clean _ Hr). generalize dependent (escape_debug rendered).
  intros escaped Hclean. split_and!.
  - apply Forall_app. split; [by apply Forall_take|]. destruct (is_nil _); repeat constructor.
  - rewrite length_app, length_take. destruct (is_nil _); cbn [length]; lia.
  - intros Hn. rewrite drop_ge, take_ge by done. cbn. by rewrite app_nil_r.
  - intros Hn. destruct (is_nil _) eqn:E.
    + assert (H : length (drop MAX_CHARS escaped) = 0) by (by destruct (drop _ _)).
      rewrite length_drop in H. lia.
    + by rewrite last_snoc.
Qed.
End log_laws.

Lemma split_whitespace_leading_space s : split_whitespace (String " " s) = split_whitespace s.
Proof. unfold split_whitespace. cbn [String.length split_whitespace_from]. by rewrite strip_whitespace_space. Qed.

(** The CPU time is read from the right fields of /proc/self/stat whatever name the process has,
    spaces and parentheses included. *)
Theorem cpu_is_read_past_any_name parse_f64 pid comm fields utime stime u s :
  Forall (λ w, w ≠ "" ∧ str_all is_ascii_graphic w = true ∧ ascii_mem close_paren w = false) fields →
  fields !! 11 = Some utime → fields !! 12 = Some stime → parse_f64 utime = Some u → parse_f64 stime = Some s →
  cpu_seconds parse_f64 (pid +:+ " (" +:+ comm +:+ ") " +:+ str_join " " fields) =
    Some (f64_div (f64_add u s) TICKS_PER_SEC).
Proof.
  intros Hf Hu Hs Hpu Hps. unfold cpu_seconds, rsplit_once.
  assert (Hj : ascii_mem close_paren (String " " (str_join " " fields)) = false).
  { rewrite ascii_mem_cons. apply orb_false_iff. split; [done|]. apply ascii_mem_join; [done|].
    eapply Forall_impl; [exact Hf|]. by intros w (_ & _ & ?). }
  replace (pid +:+ " (" +:+ comm +:+ ") " +:+ str_join " " fields)
    with ((pid +:+ " (" +:+ comm) +:+ String close_paren (String " " (str_join " " fields))) by (by rewrite !str_app_assoc).
  rewrite rsplit_first_app by done. rewrite ascii_mem_app, ascii_mem_cons, Ascii.eqb_refl, orb_true_r. cbn [mbind option_bind].
  rewrite split_whitespace_leading_space. unfold split_whitespace. rewrite split_whitespace_words; [|eapply Forall_impl; [exact Hf|by intros w (? & ? & _)]|done].
  rewrite Hu, Hs. cbn. by rewrite Hpu, Hps.
Qed.

(** A verdict is counted under a configured issuer or as unknown, and is the one
    [authenticate] gives. *)
Lemma labels_are_configured `{J : Jwt} issuers token tr r :
  run_trace (check issuers token) tr r →
  (validation_labels r).1 ∈ "unknown" :: map is_issuer issuers ∧ run_trace (authenticate issuers token) tr r.2.
Proof.
  unfold check, authenticate, validation_labels. destruct (route issuers token) as [cfg|refusal] eqn:Hr.
  - intros (verdict & tr1 & tr2 & -> & Hv & [-> ->]%run_trace_ret)%run_trace_bind. rewrite app_nil_r. split; [|done].
    right. apply list_elem_of_fmap. exists cfg. split; [done|]. unfold route in Hr. destruct (unverified_issuer token); [|done]. cbn in Hr.
    destruct (list_find _ issuers) as [[i c]|] eqn:E; [|done]. injection Hr as <-. apply list_find_Some in E as (Hi & _).
    by eapply list_elem_of_lookup_2.
  - intros [-> ->]%run_trace_ret. split; [left|constructor].
Qed.

(** ** Examples *)

Lemma example_labels :
  status_class 404 = "4xx" ∧ status_class 99 = "5xx" ∧ method_label "PUT" = "PUT" ∧ method_label "PROPFIND" = "OTHER".
Proof. by vm_compute. Qed.

#[export] Instance ascii_tables : UnicodeTables := {|
  grapheme_extended _ := false;
  printable c := ((32 <=? c) && (c <? 127))%Z;
|}.

#[export] Instance ascii_laws : UnicodeLaws ascii_tables.
Proof. split. intros c. cbn. unfold is_control. lia. Qed.

(** A forged line, and a long error. *)
Lemma loggable_is_one_bounded_line_witness :
  loggable [107; 10; 27; 255]%Z = [107; 92; 110; 92; 117; 123; 49; 98; 125; 92; 117; 123; 102; 102; 125]%Z ∧
  length (loggable (repeat 10%Z 200)) ≤ 257 ∧ last (loggable (repeat 10%Z 200)) = Some ELLIPSIS.
Proof.
  split; [by vm_compute|]. destruct (loggable_is_one_bounded_line (repeat 10%Z 200)) as (_ & Hn & _ & Hl).
  - apply (bool_decide_unpack _). by vm_compute.
  - split; [exact Hn|]. apply Hl. vm_compute. lia.
Defined.

(** A process that calls itself [a) 1 2]. *)
Lemma cpu_is_read_past_any_name_witness :
  cpu_seconds (λ w, Some (f64_of_Z (Z.of_nat (str_len w)))) ("77" +:+ " (" +:+ "a) 1 2" +:+ ") " +:+ str_join " "
    ["S"; "1"; "77"; "77"; "0"; "-1"; "0"; "0"; "0"; "0"; "0"; "150"; "50"; "0"]) =
  Some (f64_div (f64_add (f64_of_Z 3) (f64_of_Z 2)) TICKS_PER_SEC).
Proof.
  apply (cpu_is_read_past_any_name _ _ _ _ "150" "50"); try reflexivity. repeat constructor; done.
Defined.

Lemma alone_moves routes r r' route method {B} (op : MetricOp B) k b answered :
  metric_step r op b r' →
  service_step routes (mkService r [mkRequest route method (Step op k)] answered)
    (mkService r' [mkRequest route method (k b)] (answered ++ answer_of route method op b)).
Proof. apply (service_moves routes r r' [] []). Qed.

(** One request, answered 200. *)
Definition example_key : Key := ("/nix-cache-info", "GET", "2xx").

Definition example_served : Service :=
  mkService (mkRegistry 0 (count_up example_key ∅) (count_up (series_of example_key) ∅)) [] [example_key].

Lemma example_service_runs : rtc (service_step ["/nix-cache-info"]) service_new example_served.
Proof.
  eapply rtc_l; [apply (service_arrives _ registry_new [] [] (Some "/nix-cache-info") "GET"); intros ? [= <-]; left|].
  eapply rtc_l; [eapply (alone_moves _ _ _ _ _ Metric_Now _ 5%Z); reflexivity|].
  eapply rtc_l; [eapply (alone_moves _ _ _ _ _ (Metric_InFlight 1) _ tt); reflexivity|].
  eapply rtc_l; [eapply (alone_moves _ _ _ _ _ Metric_Next _ (Some 200%Z)); reflexivity|].
  eapply rtc_l; [eapply (alone_moves _ _ _ _ _ (Metric_InFlight (-1)) _ tt); reflexivity|].
  eapply rtc_l; [eapply (alone_moves _ _ _ _ _ (Metric_Total _ _ _) _ tt); reflexivity|].
  eapply rtc_l; [eapply (alone_moves _ _ _ _ _ Metric_Now _ 9%Z); reflexivity|].
  eapply rtc_l; [eapply (alone_moves _ _ _ _ _ (Metric_Duration _ _ _) _ tt); reflexivity|].
  eapply rtc_l; [apply (service_ends _ _ [] [])|]. apply rtc_refl.
Qed.

Lemma metrics_balance_witness :
  rtc (service_step ["/nix-cache-info"]) service_new example_served ∧
  rg_total (sv_registry example_served) !!! example_key = 1.
Proof.
  split; [exact example_service_runs|].
  destruct (metrics_balance _ _ example_service_runs) as (_ & _ & _ & _ & Hend). destruct (Hend eq_refl) as (_ & Ht & _).
  rewrite Ht. reflexivity.
Defined.
