(* ===== verification/Serve.v ===== *)
(** * Serve: the accept loop, binding and readiness

    [crates/garret-server/src/runtime.rs]: [bind] with the standard library's
    socket addresses, [serve] and [notify_ready]; [admin::serve] of the Pusher. hyper's connections are tasks
    that end when they will; [graceful.shutdown] waits for the watched ones.
    Logging is left out; times are in milliseconds. *)

From stdpp Require Import pretty.
From S2P Require Import Prelude Text Net Prog.

(** ** Socket addresses *)

Inductive SocketAddr :=
  | Sock_V4 (octets : list Z) (port : Z)
  | Sock_V6 (groups : list Z) (scope port : Z).

Definition read_char (c : ascii) (s : string) : option string :=
  match s with String d rest => if Ascii.eqb c d then Some rest else None | EmptyString => None end.

(** Any number of digits, leading zeros too. *)
Definition read_port (s : string) : option (Z * string) :=
  s ← read_char ":" s; read_number 10 (str_len s) true 65536 s.

Definition read_scope_id (s : string) : option (Z * string) :=
  s ← read_char "%" s; read_number 10 (str_len s) true (2 ^ 32) s.

Definition read_socket_v4 (s : string) : option (SocketAddr * string) :=
  '(octets, s) ← read_ipv4 s;
  '(port, s) ← read_port s;
  Some (Sock_V4 octets port, s).

Definition read_socket_v6 (s : string) : option (SocketAddr * string) :=
  s ← read_char "[" s;
  '(groups, s) ← read_ipv6 s;
  let '(scope, s) := match read_scope_id s with Some r => r | None => (0%Z, s) end in
  s ← read_char "]" s;
  '(port, s) ← read_port s;
  Some (Sock_V6 groups scope port, s).

(** [str::parse::<SocketAddr>]. *)
Definition parse_socket_addr (s : string) : option SocketAddr :=
  '(addr, rest) ← match read_socket_v4 s with Some r => Some r | None => read_socket_v6 s end;
  if bool_decide (rest = "") then Some addr else None.

Lemma example_socket_addresses :
  map parse_socket_addr ["0.0.0.0:8080"; "[::]:80"; "[::1%3]:0"; "127.0.0.1:00065535"; "127.0.0.1:65536"; "127.0.0.1"; "localhost:80";
    "::1:80"; "[127.0.0.1]:80"; "0.0.0.0:80 "] =
  [Some (Sock_V4 [0; 0; 0; 0] 8080); Some (Sock_V6 (repeat 0 8) 0 80); Some (Sock_V6 [0; 0; 0; 0; 0; 0; 0; 1] 3 0);
   Some (Sock_V4 [127; 0; 0; 1] 65535); None; None; None; None; None; None]%Z.
Proof. vm_compute. reflexivity. Qed.

(** ** System calls *)

(** Where systemd listens: a name of the abstract namespace, or a path. *)
Inductive NotifyAddr := Notify_Abstract (name : string) | Notify_Path (path : string).

Inductive SocketOp : Type → Type :=
  | So_Listen (addr : SocketAddr) : SocketOp (Result unit string)
  | So_NotifySocket : SocketOp (option string)
  | So_Unbound : SocketOp (Result unit string)
  | So_SendTo (addr : NotifyAddr) (message : string) : SocketOp (Result unit string).

Definition bind (addr name : string) : Prog SocketOp (Result unit string) :=
  match parse_socket_addr addr with
  | None => Ret (Err ("invalid " +:+ name +:+ " listen address"))
  | Some addr =>
      do listening <- request (So_Listen addr);
      Ret (map_err (λ e, "binding " +:+ name +:+ " listener: " +:+ e) listening)
  end.

(** [SocketAddr::from_abstract_name]: [sun_path] has 108 bytes, the first is 0. *)
Definition abstract_addr (name : string) : Result NotifyAddr string :=
  if 108 <? str_len name + 1 then Err "abstract socket name must be shorter than SUN_LEN" else Ok (Notify_Abstract name).

Definition send_notify (path message : string) : Prog SocketOp (Result unit string) :=
  do? _ <- request So_Unbound;
  match strip_prefix "@" path with
  | Some name => do? addr <- Ret (abstract_addr name); request (So_SendTo addr message)
  | None => request (So_SendTo (Notify_Path path) message)
  end.

(** A failure is logged only. *)
Definition notify_ready : Prog SocketOp unit :=
  do path <- request So_NotifySocket;
  match path with
  | None => Ret tt
  | Some path => do _ <- send_notify path "READY=1"; Ret tt
  end.

(** ** The accept loop *)

Definition HEADER_READ_TIMEOUT : Z := 30000.

(** Which branch of [select!] came first. *)
Inductive Woken := Accepted (conn : nat) | Accept_Failed | Shut_Down.

#[export] Instance Woken_eq_dec : EqDecision Woken.
Proof. solve_decision. Defined.

Inductive ServeOp : Type → Type :=
  | Sv_Next : ServeOp Woken
  | Sv_Sleep (ms : Z) : ServeOp unit
  (** The connection watched by [graceful] and spawned. *)
  | Sv_Spawn (conn : nat) (header_timeout : Z) : ServeOp unit
  | Sv_CloseListener : ServeOp unit
  | Sv_Drain : ServeOp unit.

(** [None]: out of laps. *)
Fixpoint serve_with_header_timeout (laps : nat) (header_timeout : Z) : Prog ServeOp (option unit) :=
  match laps with
  | 0 => Ret None
  | S laps =>
      do woken <- request Sv_Next;
      match woken with
      | Accepted conn =>
          do _ <- request (Sv_Spawn conn header_timeout);
          serve_with_header_timeout laps header_timeout
      | Accept_Failed =>
          do _ <- request (Sv_Sleep 1000);
          serve_with_header_timeout laps header_timeout
      | Shut_Down =>
          do _ <- request Sv_CloseListener;
          do _ <- request Sv_Drain;
          Ret (Some tt)
      end
  end.

Definition serve (laps : nat) : Prog ServeOp (option unit) := serve_with_header_timeout laps HEADER_READ_TIMEOUT.

(** *** The admin socket

    [admin::serve] of the Pusher: a task per connection; unlike the loop above it
    returns the first error of an accept. *)
Inductive AdminServeOp : Type → Type :=
  | As_Accept : AdminServeOp (Result nat string)
  | As_Spawn (conn : nat) : AdminServeOp unit.

Fixpoint admin_serve (laps : nat) : Prog AdminServeOp (option (Result unit string)) :=
  match laps with
  | 0 => Ret None
  | S laps =>
      do accepted <- request As_Accept;
      match accepted with
      | Err e => Ret (Some (Err e))
      | Ok conn => do _ <- request (As_Spawn conn); admin_serve laps
      end
  end.

(** What runs, and then ends, an admin socket: connections, each handed to a task,
    up to the first accept that fails, whatever it failed with. *)
Lemma admin_serve_gives_up laps tr r :
  run_trace (admin_serve laps) tr r →
  ∃ conns, match r with
    | Some r => ∃ e, r = Err e ∧
        tr = concat (map (λ conn, [Ev As_Accept (Ok conn); Ev (As_Spawn conn) tt]) conns) ++ [Ev As_Accept (Err e)]
    | None => length conns = laps ∧ tr = concat (map (λ conn, [Ev As_Accept (Ok conn); Ev (As_Spawn conn) tt]) conns)
    end.
Proof.
  revert tr r. induction laps as [|laps IH]; intros tr r; cbn [admin_serve].
  { intros [-> ->]%run_trace_ret. by exists []. }
  intros (accepted & tr1 & -> & H)%run_trace_request_bind. destruct accepted as [conn|e].
  - apply run_trace_request_bind in H as ([] & tr2 & -> & (conns & H)%IH). exists (conn :: conns).
    destruct r as [r|]; [destruct H as (e & -> & ->); by exists e|destruct H as [<- ->]; done].
  - apply run_trace_ret in H as [-> ->]. exists []. by exists e.
Qed.

(** *** The listener and its connections *)

Record Listening := mkListening {
  li_now : Z;
  li_open : bool;
  li_accepted : gset nat;
  li_watched : gset nat;
}.

(** Time passes and watched connections end between any two requests. *)
Record passes (w w' : Listening) : Prop := {
  pa_now : (li_now w ≤ li_now w')%Z;
  pa_open : li_open w' = li_open w;
  pa_accepted : li_accepted w' = li_accepted w;
  pa_watched : li_watched w' ⊆ li_watched w;
}.

Definition serve_step (w : Listening) {B} (op : ServeOp B) : B → Listening → Prop :=
  match op in ServeOp B return B → Listening → Prop with
  | Sv_Next => λ woken w', ∃ w1, passes w w1 ∧
      match woken with
      | Accepted conn => (li_open w = true ∧ conn ∉ li_accepted w) ∧
          w' = mkListening (li_now w1) (li_open w1) ({[conn]} ∪ li_accepted w1) (li_watched w1)
      | _ => w' = w1
      end
  | Sv_Sleep ms => λ _ w', passes w w' ∧ (li_now w + ms ≤ li_now w')%Z
  | Sv_Spawn conn _ => λ _ w', ∃ w1, passes w w1 ∧
      w' = mkListening (li_now w1) (li_open w1) (li_accepted w1) ({[conn]} ∪ li_watched w1)
  | Sv_CloseListener => λ _ w', ∃ w1, passes w w1 ∧ w' = mkListening (li_now w1) false (li_accepted w1) (li_watched w1)
  | Sv_Drain => λ _ w', passes w w' ∧ li_watched w' = ∅
  end.

Abbreviation serve_runs := (prog_runs (@serve_step)).

(** What a trace shows: connections accepted and spawned, failed accepts, laps. *)
Definition woken_of (e : Event ServeOp) : option Woken :=
  match e with Ev op b => match op in ServeOp B return B → option Woken with Sv_Next => (λ woken, Some woken) | _ => (λ _, None) end b end.
Definition wakes (tr : list (Event ServeOp)) : list Woken := omap woken_of tr.
Definition accepted_conn (w : Woken) : option nat := match w with Accepted conn => Some conn | _ => None end.
Definition spawned_of (e : Event ServeOp) : option (nat * Z) :=
  match e with Ev op _ => match op with Sv_Spawn conn timeout => Some (conn, timeout) | _ => None end end.
Definition failures (tr : list (Event ServeOp)) : nat := length (filter (λ w, w = Accept_Failed) (wakes tr)).

Lemma failures_next woken tr :
  failures (Ev Sv_Next woken :: tr) = (if decide (woken = Accept_Failed) then 1 else 0) + failures tr.
Proof. unfold failures. change (wakes (Ev Sv_Next woken :: tr)) with (woken :: wakes tr). rewrite filter_cons. by case_decide. Qed.

Lemma failures_else {B} (op : ServeOp B) b tr : woken_of (Ev op b) = None → failures (Ev op b :: tr) = failures tr.
Proof. unfold failures, wakes. cbn [omap list_omap]. by intros ->. Qed.

(** What a run of the loop has done. *)
Record served (timeout : Z) (w : Listening) (tr : list (Event ServeOp)) (w' : Listening) : Prop := {
  se_spawned : omap spawned_of tr = map (λ conn, (conn, timeout)) (omap accepted_conn (wakes tr));
  se_fresh : Forall (λ conn, conn ∉ li_accepted w) (omap accepted_conn (wakes tr));
  se_once : NoDup (omap accepted_conn (wakes tr));
  se_paced : (li_now w + 1000 * Z.of_nat (failures tr) ≤ li_now w')%Z;
}.

Lemma serve_trace laps timeout w tr w' r :
  serve_runs w (serve_with_header_timeout laps timeout) tr w' r →
  served timeout w tr w' ∧
  match r with
  | Some _ => li_open w' = false ∧ li_watched w' = ∅ ∧ ∃ before, wakes tr = before ++ [Shut_Down] ∧ Shut_Down ∉ before
  | None => length (wakes tr) = laps ∧ Shut_Down ∉ wakes tr
  end.
Proof.
  revert w tr r. induction laps as [|laps IH]; intros w tr r; cbn [serve_with_header_timeout].
  { intros (-> & -> & ->)%prog_runs_ret_inv. split; [split; try constructor; unfold failures; cbn; lia|]. split; [done|apply not_elem_of_nil]. }
  intros (woken & w1 & tr1 & -> & (w0 & [Hn Ho Ha Hw] & Hwoken) & H)%prog_runs_request.
  destruct woken as [conn| |]; cbn in H.
  - destruct Hwoken as ((_ & Hfresh) & ->).
    apply prog_runs_request in H as (u & w2 & tr2 & -> & (w3 & [Hn3 Ho3 Ha3 Hw3] & ->) & H). cbn in *.
    apply IH in H as ([Hs Hf Hd Hp] & Hr). cbn in *.
    assert (Hnew : Forall (λ c, c ∉ {[conn]} ∪ li_accepted w) (omap accepted_conn (wakes tr2))).
    { eapply Forall_impl; [exact Hf|]. intros c. cbn. by rewrite Ha3, Ha. }
    split.
    + split.
      * cbn. by f_equal.
      * constructor; [done|]. eapply Forall_impl; [exact Hnew|]. cbn. set_solver.
      * constructor; [|done]. intros Hin. rewrite Forall_forall in Hnew. apply Hnew in Hin. set_solver.
      * rewrite failures_next, failures_else by done. case_decide; [done|lia].
    + destruct r as [[]|].
      * destruct Hr as (? & ? & before & Hb & Hnb). split_and!; [done..|]. exists (Accepted conn :: before). cbn.
        split; [by f_equal|]. by apply not_elem_of_cons.
      * destruct Hr as [Hl Hn']. cbn. split; [by f_equal|]. by apply not_elem_of_cons.
  - subst w1. apply prog_runs_request in H as (u & w2 & tr2 & -> & ([Hn3 Ho3 Ha3 Hw3] & Hsleep) & H). cbn in *.
    apply IH in H as ([Hs Hf Hd Hp] & Hr). split.
    + split; [done| |done|].
      * eapply Forall_impl; [exact Hf|]. intros c. cbn. by rewrite Ha3, Ha.
      * rewrite failures_next, failures_else by done. case_decide; [lia|done].
    + destruct r as [[]|].
      * destruct Hr as (? & ? & before & Hb & Hnb). split_and!; [done..|]. exists (Accept_Failed :: before). cbn.
        split; [by f_equal|]. by apply not_elem_of_cons.
      * destruct Hr as [Hl Hn']. cbn. split; [by f_equal|]. by apply not_elem_of_cons.
  - subst w1. apply prog_runs_request in H as (u & w2 & tr2 & -> & (w3 & [Hn3 Ho3 Ha3 Hw3] & ->) & H).
    apply prog_runs_request in H as (u' & w4 & tr3 & -> & ([Hn4 Ho4 Ha4 Hw4] & Hdrained) & H).
    apply prog_runs_ret_inv in H as (-> & -> & ->). cbn in *. split.
    + split; try constructor. rewrite failures_next, !failures_else by done. case_decide; [done|unfold failures; cbn; lia].
    + split_and!; [done..|]. exists []. split; [done|apply not_elem_of_nil].
Qed.

(** The accept loop hands every connection it accepts to one watched task, once and under the header
    timeout, waits a second after each accept that fails, and ends only when told to stop; then its
    listener is closed and every connection has ended. *)
Theorem serve_stops_clean laps w tr w' r :
  serve_runs w (serve laps) tr w' r →
  served HEADER_READ_TIMEOUT w tr w' ∧
  match r with
  | Some _ => li_open w' = false ∧ li_watched w' = ∅ ∧ ∃ before, wakes tr = before ++ [Shut_Down] ∧ Shut_Down ∉ before
  | None => length (wakes tr) = laps ∧ Shut_Down ∉ wakes tr
  end.
Proof. apply serve_trace. Qed.

(** Readiness is told once, and to the socket the environment names. *)
Lemma notify_ready_once tr u :
  run_trace notify_ready tr u →
  ∀ addr message r, Ev (So_SendTo addr message) r ∈ tr →
    message = "READY=1" ∧ ∃ path, Ev So_NotifySocket (Some path) ∈ tr ∧
      addr = match strip_prefix "@" path with Some name => Notify_Abstract name | None => Notify_Path path end.
Proof.
  intros (path & tr1 & -> & H)%run_trace_request_bind. destruct path as [path|].
  2: { apply run_trace_ret in H as [-> _]. by intros addr message r [?|?%elem_of_nil]%elem_of_cons. }
  apply run_trace_bind in H as (sent & tr2 & tr3 & -> & Hsent & [-> _]%run_trace_ret).
  apply run_trace_request_bind in Hsent as (unbound & tr4 & -> & Hsent). rewrite app_nil_r.
  intros addr message r Hin. destruct unbound as [[]|].
  2: { apply run_trace_ret in Hsent as [-> _]. repeat (apply elem_of_cons in Hin as [?|Hin]; [done|]). by apply elem_of_nil in Hin. }
  assert (Hdest : (addr, message) = (match strip_prefix "@" path with Some name => Notify_Abstract name | None => Notify_Path path end, "READY=1")).
  { repeat (apply elem_of_cons in Hin as [Hin|Hin]; [done|]). destruct (strip_prefix "@" path) as [name|].
    - apply run_trace_bind in Hsent as (dest & tr5 & tr6 & -> & [-> ->]%run_trace_ret & Hsend). unfold abstract_addr in Hsend.
      destruct (108 <? _); [apply run_trace_ret in Hsend as [-> _]; by apply elem_of_nil in Hin|].
      apply run_trace_step in Hsend as (b & tr7 & -> & [-> _]%run_trace_ret). by apply list_elem_of_singleton in Hin as [= -> ->].
    - apply run_trace_step in Hsent as (b & tr7 & -> & [-> _]%run_trace_ret). by apply list_elem_of_singleton in Hin as [= -> ->]. }
  injection Hdest as -> ->. split; [done|]. exists path. split; [left|done].
Qed.

(** ** Examples *)

(** A connection, an accept that fails, and the end. *)
Definition example_answers (w : Listening) {B} (op : ServeOp B) : B * Listening :=
  match op in ServeOp B return B * Listening with
  | Sv_Next =>
      if bool_decide (li_open w = true ∧ 7 ∉ li_accepted w)
      then (Accepted 7, mkListening (li_now w) (li_open w) ({[7]} ∪ li_accepted w) (li_watched w))
      else if (li_now w =? 0)%Z then (Accept_Failed, w) else (Shut_Down, w)
  | Sv_Sleep ms => (tt, mkListening (li_now w + Z.max ms 0) (li_open w) (li_accepted w) (li_watched w))
  | Sv_Spawn conn _ => (tt, mkListening (li_now w) (li_open w) (li_accepted w) ({[conn]} ∪ li_watched w))
  | Sv_CloseListener => (tt, mkListening (li_now w) false (li_accepted w) (li_watched w))
  | Sv_Drain => (tt, mkListening (li_now w) (li_open w) (li_accepted w) ∅)
  end.

Lemma example_answers_step w {B} (op : ServeOp B) :
  serve_step w op (example_answers w op).1 (example_answers w op).2.
Proof.
  destruct op as [|ms|conn timeout| |]; cbn.
  - exists w. case_bool_decide as H; [split; [by split|]; by split|]. by destruct (li_now w =? 0)%Z; split.
  - split; [split; cbn; [lia|done..]|lia].
  - exists w. by split.
  - exists w. by split.
  - split; [|done]. by split; cbn.
Qed.

Definition example_serve : list (Event ServeOp) * Listening * option unit :=
  prog_exec (@example_answers) (mkListening 0 true ∅ ∅) (serve 5).

Lemma serve_stops_clean_witness :
  example_serve.2 = Some tt ∧ omap spawned_of example_serve.1.1 = [(7, 30000%Z)] ∧
  (1000 * Z.of_nat (failures example_serve.1.1) ≤ li_now example_serve.1.2)%Z.
Proof.
  split; [reflexivity|].
  assert (Hrun : serve_runs (mkListening 0 true ∅ ∅) (serve 5) example_serve.1.1 example_serve.1.2 example_serve.2).
  { apply prog_exec_runs. intros w B op. apply example_answers_step. }
  destruct (serve_stops_clean 5 (mkListening 0 true ∅ ∅) example_serve.1.1 example_serve.1.2 example_serve.2 Hrun) as [[Hs _ _ Hp] _].
  split; [rewrite Hs; reflexivity|exact Hp].
Defined.
