(* ===== verification/Corpus.v ===== *)
(** * Corpus: the benchmark's seeded corpus

    [crates/garret-bench/src/corpus.rs]: the generator, the entries of a corpus
    and their bodies, as functions of the seed. A [u64] is a [Z] with its
    wrap-around written out; a generator's state is passed along. *)

From stdpp Require Import pretty.
From S2P Require Import Prelude Text Common.

(** ** The generator *)

Definition VERSION : Z := 2.

Definition wrap64 (z : Z) : Z := (z mod 2 ^ 64)%Z.

(** [Rng::new]. *)
Definition rng_new (seed : Z) : Z := Z.max seed 1.

(** The state after, and the number. *)
Definition next_u64 (x : Z) : Z * Z :=
  let x := Z.lxor x (Z.shiftr x 12) in
  let x := Z.lxor x (wrap64 (Z.shiftl x 25)) in
  let x := Z.lxor x (Z.shiftr x 27) in
  (x, wrap64 (x * 2685821657736338717)). (* 0x2545F4914F6CDD1D *)

Definition below (x n : Z) : Z * Z :=
  if (n =? 0)%Z then (x, 0%Z) else let '(x, v) := next_u64 x in (x, v mod n)%Z.

(** ** Entries *)

Record Entry := mkEntry {
  en_hash : string;
  en_name : string;
  en_size : Z;
  en_compressibility : Z;
}.

#[export] Instance Entry_eq_dec : EqDecision Entry.
Proof. solve_decision. Defined.

Definition en_store_path (e : Entry) : string := "/nix/store/" +:+ en_hash e +:+ "-" +:+ en_name e.

(** FNV-1a over the hash's bytes. *)
Definition entry_rng (hash : string) : Z :=
  rng_new (foldl (λ h c, wrap64 (Z.lxor h (Z.of_nat (ascii_code c)) * 1099511628211)) 14695981039346656037%Z (chars hash)).

Definition u64_to_le_bytes (v : Z) : list Z := le_bytes 8 v.

(** The loop of [body]; [left] bytes are missing. *)
Fixpoint body_loop (fuel : nat) (rng compressibility left : Z) : list Z :=
  match fuel with
  | 0 => []
  | S fuel =>
      if (0 <? left)%Z then
        let '(rng, roll) := below rng 100 in
        if (roll <? compressibility)%Z then
          let run := Z.min 64 left in
          repeat 97%Z (Z.to_nat run) ++ body_loop fuel rng compressibility (left - run)
        else
          let '(rng, word) := next_u64 rng in
          let take_ := Z.min 8 left in
          take (Z.to_nat take_) (u64_to_le_bytes word) ++ body_loop fuel rng compressibility (left - take_)
      else []
  end.

(** Each round adds a byte at least. *)
Definition body (e : Entry) : list Z := body_loop (Z.to_nat (en_size e)) (entry_rng (en_hash e)) (en_compressibility e) (en_size e).

(** [out.chunks_mut(8)], each word filled. *)
Fixpoint fill_words (words : nat) (rng : Z) (len : nat) : list Z * Z :=
  match words with
  | 0 => ([], rng)
  | S words =>
      let '(rng, word) := next_u64 rng in
      let '(rest, rng) := fill_words words rng (len - 8) in
      (take (len `min` 8) (u64_to_le_bytes word) ++ rest, rng)
  end.

Definition fill_chunk (rng : Z) (len : nat) : list Z * Z := fill_words ((len + 7) / 8) rng len.

(** The iterator [chunks], run to its end. *)
Fixpoint chunks_from (fuel : nat) (rng : Z) (chunk_size remaining : nat) : list (list Z) :=
  match fuel, remaining with
  | _, 0 => []
  | 0, _ => []
  | S fuel, _ =>
      let len := chunk_size `min` remaining in
      let '(out, rng) := fill_chunk rng len in
      out :: chunks_from fuel rng chunk_size (remaining - len)
  end.

Definition entry_chunks (e : Entry) (chunk_size : nat) : list (list Z) :=
  chunks_from (Z.to_nat (en_size e)) (entry_rng (en_hash e)) chunk_size (Z.to_nat (en_size e)).

(** ** Corpora *)

(** 32 characters, and the state after. *)
Fixpoint random_chars (n : nat) (rng : Z) : string * Z :=
  match n with
  | 0 => ("", rng)
  | S n =>
      let '(rng, i) := below rng 32 in
      let '(s, rng) := random_chars n rng in
      (String (alphabet_char i) s, rng)
  end.
Definition random_hash (rng : Z) : string * Z := random_chars 32 rng.

Definition stream_entry (seed size rep salt : Z) : Entry :=
  let rng := rng_new (Z.lxor (Z.lxor (Z.lxor seed salt) (wrap64 (Z.shiftl size 8))) rep) in
  mkEntry (random_hash rng).1 ("bench-stream-" +:+ pretty size +:+ "-" +:+ pretty rep) size 0.

Fixpoint generate_from (i count : nat) (rng : Z) : list Entry * Z :=
  match count with
  | 0 => ([], rng)
  | S count =>
      let '(hash, rng) := random_hash rng in
      let '(rng, magnitude) := below rng 5 in
      let '(rng, extra) := below rng 4096 in
      let size := (Z.shiftl 4096 (magnitude * 3) + extra)%Z in
      let '(rng, inert) := below rng 5 in
      let '(entries, rng) := generate_from (S i) count rng in
      (mkEntry hash ("bench-" +:+ pretty i) size (if (inert =? 0)%Z then 0 else 70) :: entries, rng)
  end.

Definition GIANT_SIZE : Z := 2 * 1024 * 1024 * 1024.

Definition generate (seed : Z) (count : nat) (with_giant : bool) : list Entry :=
  let '(entries, rng) := generate_from 0 count (rng_new seed) in
  if with_giant then entries ++ [mkEntry (random_hash rng).1 "bench-giant" GIANT_SIZE 0] else entries.

(** The alphabet's next character after the first of [hash]; [unwrap_or(0)] when
    it is none of the alphabet's. *)
Definition next_char (hash : string) : ascii :=
  let first := match hash with String c _ => c | EmptyString => "0"%char end in
  let index := default 0%Z (alphabet_index first (chars NIX_BASE32_ALPHABET)) in
  alphabet_char ((index + 1) mod 32).

(** [None]: [hash[1..]] is out of bounds or inside a character, which panics. *)
Definition rekey_hash (hash : string) : option string :=
  match hash with
  | String _ EmptyString => Some (String (next_char hash) EmptyString)
  | String _ (String c _ as rest) => if is_continuation c then None else Some (String (next_char hash) rest)
  | EmptyString => None
  end.

Definition rekey_entry (e : Entry) : option Entry :=
  hash ← rekey_hash (en_hash e);
  Some (mkEntry hash (en_name e +:+ "-baseline") (en_size e) (en_compressibility e)).

Definition rekey (entries : list Entry) : option (list Entry) := mapM rekey_entry entries.

(** ** The generator never gets stuck *)

Definition is_u64 (z : Z) : Prop := (0 ≤ z < 2 ^ 64)%Z.

Lemma wrap64_u64 z : is_u64 (wrap64 z).
Proof. apply Z.mod_pos_bound. lia. Qed.

(** The bits of a [u64] stop at 64. *)
Lemma u64_high x k : is_u64 x → (64 ≤ k)%Z → Z.testbit x k = false.
Proof. intros Hx Hk. rewrite <-(Z.mod_small x (2 ^ 64)) by apply Hx. apply Z.mod_pow2_bits_high. lia. Qed.

Lemma lxor_u64 x y : is_u64 x → is_u64 y → is_u64 (Z.lxor x y).
Proof.
  intros Hx Hy. assert (Hn : (0 ≤ Z.lxor x y)%Z) by (apply Z.lxor_nonneg; unfold is_u64 in *; lia). split; [done|].
  destruct (decide (Z.lxor x y = 0)%Z) as [->|Hz]; [lia|]. apply Z.log2_lt_pow2; [lia|]. apply Z.nle_gt. intros Hk.
  pose proof (Z.bit_log2 (Z.lxor x y)) as Hb. rewrite Z.lxor_spec, !u64_high in Hb by done. by specialize (Hb ltac:(lia)).
Qed.

Lemma shiftr_u64 x k : is_u64 x → (0 ≤ k)%Z → is_u64 (Z.shiftr x k).
Proof.
  intros [Hx Hx'] Hk. rewrite Z.shiftr_div_pow2 by done.
  assert (0 < 2 ^ k)%Z by (apply Z.pow_pos_nonneg; lia). split; [by apply Z.div_pos|].
  eapply Z.le_lt_trans; [apply Z.div_le_upper_bound; [done|]|done]. nia.
Qed.

(** A right shift that changes nothing shifts nothing. *)
Lemma xor_shiftr_zero x k : (0 ≤ x)%Z → (0 < k)%Z → Z.lxor x (Z.shiftr x k) = 0%Z → x = 0%Z.
Proof.
  intros Hx Hk Heq%Z.lxor_eq. rewrite Z.shiftr_div_pow2 in Heq by lia.
  destruct (decide (x = 0)%Z) as [|Hz]; [done|].
  assert (1 < 2 ^ k)%Z by (by apply Z.pow_gt_1).
  assert (x / 2 ^ k < x)%Z by (apply Z.div_lt; lia). lia.
Qed.

(** 2^25 - 1 has an inverse modulo 2^64. *)
Lemma xor_shiftl_zero x : is_u64 x → Z.lxor x (wrap64 (Z.shiftl x 25)) = 0%Z → x = 0%Z.
Proof.
  intros [Hx Hx'] Heq%Z.lxor_eq. rewrite Z.shiftl_mul_pow2 in Heq by lia. unfold wrap64 in Heq.
  pose proof (Z.div_mod (x * 2 ^ 25) (2 ^ 64) ltac:(lia)) as Hdiv. rewrite <-Heq in Hdiv.
  set (q := (x * 2 ^ 25 / 2 ^ 64)%Z) in *.
  assert (Hone : (x = (q * 18445618173769154559 - x * 33552383) * 2 ^ 64)%Z) by lia. nia.
Qed.

Lemma next_u64_state x : is_u64 x → x ≠ 0%Z → is_u64 (next_u64 x).1 ∧ (next_u64 x).1 ≠ 0%Z.
Proof.
  intros Hx Hz. unfold next_u64. cbn [fst].
  set (a := Z.lxor x (Z.shiftr x 12)). assert (Ha : is_u64 a) by (apply lxor_u64, shiftr_u64; done || lia).
  set (b := Z.lxor a (wrap64 (Z.shiftl a 25))). assert (Hb : is_u64 b) by (apply lxor_u64, wrap64_u64; done).
  split; [apply lxor_u64, shiftr_u64; done || lia|].
  intros H%xor_shiftr_zero; [|apply Hb|lia]. apply xor_shiftl_zero in H; [|done].
  apply xor_shiftr_zero in H; [done|apply Hx|lia].
Qed.

(** ** Bodies *)

Lemma length_le_bytes n v : length (le_bytes n v) = n.
Proof. revert v. induction n as [|n IH]; intros v; cbn; [done|by rewrite IH]. Qed.

Lemma le_bytes_ok n v : Forall byte_ok (le_bytes n v).
Proof.
  revert v. induction n as [|n IH]; intros v; cbn; constructor; [|done].
  unfold byte_ok. change 255%Z with (Z.ones 8). rewrite Z.land_ones by lia. apply Z.mod_pos_bound. lia.
Qed.

Lemma body_loop_spec fuel rng c left :
  (0 ≤ left ≤ Z.of_nat fuel)%Z → len_Z (body_loop fuel rng c left) = left ∧ Forall byte_ok (body_loop fuel rng c left).
Proof.
  unfold len_Z. revert rng left. induction fuel as [|fuel IH]; intros rng left Hl; cbn [body_loop]; [split; [cbn; lia|constructor]|].
  destruct (Z.ltb_spec 0 left) as [Hpos|]; cbn iota; [|split; [cbn; lia|constructor]].
  destruct (below rng 100) as [rng1 roll]. destruct (roll <? c)%Z.
  - destruct (IH rng1 (left - Z.min 64 left)%Z ltac:(lia)) as [Hlen Hok]. rewrite length_app, repeat_length. split; [lia|].
    apply Forall_app. split; [|done]. apply Forall_forall. intros b Hb%list_elem_of_In%repeat_spec. by subst.
  - destruct (next_u64 rng1) as [rng2 word]. destruct (IH rng2 (left - Z.min 8 left)%Z ltac:(lia)) as [Hlen Hok].
    rewrite length_app, length_take. unfold u64_to_le_bytes. rewrite length_le_bytes. split; [lia|].
    apply Forall_app. split; [apply Forall_take, le_bytes_ok|done].
Qed.

(** The bytes of the next [n] words, and the state after them. *)
Fixpoint words (n : nat) (rng : Z) : list Z * Z :=
  match n with
  | 0 => ([], rng)
  | S n => let '(rng, word) := next_u64 rng in let '(rest, rng) := words n rng in (u64_to_le_bytes word ++ rest, rng)
  end.

Lemma words_S n rng :
  words (S n) rng = (u64_to_le_bytes (next_u64 rng).2 ++ (words n (next_u64 rng).1).1, (words n (next_u64 rng).1).2).
Proof. cbn [words]. destruct (next_u64 rng) as [r w]. cbn [fst snd]. by destruct (words n r). Qed.

Lemma length_words n rng : length (words n rng).1 = 8 * n.
Proof.
  revert rng. induction n as [|n IH]; intros rng; [done|]. rewrite words_S. cbn [fst]. rewrite length_app, IH.
  unfold u64_to_le_bytes. rewrite length_le_bytes. lia.
Qed.

Lemma words_add m n rng :
  words (m + n) rng = ((words m rng).1 ++ (words n (words m rng).2).1, (words n (words m rng).2).2).
Proof.
  revert rng. induction m as [|m IH]; intros rng; [by destruct (words n rng) eqn:E; cbn; rewrite E|].
  cbn [Nat.add]. rewrite !words_S, IH. cbn [fst snd]. by rewrite app_assoc.
Qed.

Lemma fill_words_spec w rng len :
  len ≤ 8 * w → fill_words w rng len = (take len (words w rng).1, (words w rng).2).
Proof.
  revert rng len. induction w as [|w IH]; intros rng len Hl; cbn [fill_words].
  { replace len with 0 by lia. done. }
  rewrite words_S. destruct (next_u64 rng) as [rng1 word]. cbn [fst snd]. rewrite IH by lia. f_equal.
  assert (H8 : length (u64_to_le_bytes word) = 8) by apply length_le_bytes.
  rewrite take_app, H8. f_equal. destruct (decide (len ≤ 8)).
  - by rewrite Nat.min_l by lia.
  - rewrite Nat.min_r by lia. by rewrite !take_ge by lia.
Qed.

Lemma fill_chunk_spec rng len :
  fill_chunk rng len = (take len (words ((len + 7) / 8) rng).1, (words ((len + 7) / 8) rng).2).
Proof. apply fill_words_spec. pose proof (Nat.div_mod_eq (len + 7) 8). pose proof (Nat.mod_upper_bound (len + 7) 8). lia. Qed.

(** What a whole number of words spells does not depend on how it is cut. *)
Lemma chunks_from_concat k fuel rng remaining w :
  k ≠ 0 → remaining ≤ fuel → remaining ≤ 8 * w →
  concat (chunks_from fuel rng (8 * k) remaining) = take remaining (words w rng).1.
Proof.
  intros Hk. revert rng remaining w. induction fuel as [|fuel IH]; intros rng remaining w Hf Hw.
  { by replace remaining with 0 by lia. }
  cbn [chunks_from]. destruct remaining as [|r]; [done|]. set (remaining := S r) in *. rewrite fill_chunk_spec. cbn [concat].
  destruct (decide (remaining ≤ 8 * k)) as [Hlast|Hmore].
  - rewrite Nat.min_r by lia. replace (remaining - remaining) with 0 by lia. replace (chunks_from _ _ _ 0) with (@nil (list Z)) by by destruct fuel.
    cbn [concat]. rewrite app_nil_r. set (v := (remaining + 7) / 8).
    assert (Hv : v ≤ w ∧ remaining ≤ 8 * v).
    { pose proof (Nat.div_mod_eq (remaining + 7) 8). pose proof (Nat.mod_upper_bound (remaining + 7) 8). unfold v. lia. }
    replace w with (v + (w - v)) by lia. rewrite words_add. cbn [fst]. rewrite take_app_le; [done|]. rewrite length_words. lia.
  - rewrite Nat.min_l by lia. replace ((8 * k + 7) / 8) with k.
    2: { apply (Nat.div_unique _ _ _ 7); lia. }
    rewrite (IH _ _ (w - k)) by lia. replace w with (k + (w - k)) at 2 by lia. rewrite words_add. cbn [fst].
    rewrite take_app, length_words.
    by rewrite !(take_ge (words k rng).1) by (rewrite length_words; lia).
Qed.

Lemma chunks_from_each c fuel rng remaining :
  c ≠ 0 → Forall (λ chunk, 0 < length chunk ≤ c ∧ Forall byte_ok chunk) (chunks_from fuel rng c remaining).
Proof.
  intros Hc. revert rng remaining. induction fuel as [|fuel IH]; intros rng [|r]; cbn [chunks_from]; try constructor.
  rewrite fill_chunk_spec. set (len := c `min` S r). constructor; [|apply IH].
  assert (Hlen : len ≤ 8 * ((len + 7) / 8)).
  { pose proof (Nat.div_mod_eq (len + 7) 8). pose proof (Nat.mod_upper_bound (len + 7) 8). lia. }
  rewrite length_take, length_words. split; [lia|]. apply Forall_take.
  generalize ((len + 7) / 8). clear. intros n. revert rng. induction n as [|n IH]; intros rng; [constructor|].
  rewrite words_S. apply Forall_app. split; [apply le_bytes_ok|apply IH].
Qed.

(** An entry's chunks spell the same body of its size however they are cut, at
    any multiple of a word; none is empty, none is over the size asked for. *)
Theorem chunks_spell_one_body e k :
  (0 ≤ en_size e)%Z → k ≠ 0 →
  concat (entry_chunks e (8 * k)) = concat (entry_chunks e 8) ∧
  len_Z (concat (entry_chunks e (8 * k))) = en_size e ∧
  Forall (λ chunk, 0 < length chunk ≤ 8 * k ∧ Forall byte_ok chunk) (entry_chunks e (8 * k)).
Proof.
  intros Hs Hk. unfold entry_chunks. set (n := Z.to_nat (en_size e)).
  rewrite (chunks_from_concat k _ _ _ n) by lia. 
  pose proof (chunks_from_concat 1 n (entry_rng (en_hash e)) n n ltac:(lia) ltac:(lia) ltac:(lia)) as H1.
  change (8 * 1) with 8 in H1. rewrite H1.
  split_and!; [done| |apply chunks_from_each; lia]. unfold len_Z. rewrite length_take, length_words. lia.
Qed.

(** A body has the size of its entry. *)
Theorem body_has_its_size e : (0 ≤ en_size e)%Z → len_Z (body e) = en_size e ∧ Forall byte_ok (body e).
Proof. intros Hs. apply body_loop_spec. rewrite Z2Nat.id by done. lia. Qed.

(** ** Hashes and names *)

Lemma below_range rng n : (0 < n)%Z → (0 ≤ (below rng n).2 < n)%Z.
Proof.
  intros Hn. unfold below. destruct (Z.eqb_spec n 0); [lia|]. destruct (next_u64 rng) as [r v]. by apply Z.mod_pos_bound.
Qed.

Lemma random_chars_ok n rng : str_len (random_chars n rng).1 = n ∧ is_nix_base32 (random_chars n rng).1 = true.
Proof.
  revert rng. induction n as [|n IH]; intros rng; [done|]. cbn [random_chars].
  pose proof (below_range rng 32 ltac:(lia)) as Hi. destruct (below rng 32) as [rng1 i]. cbn [snd] in Hi.
  destruct (IH rng1) as [Hl Hok]. destruct (random_chars n rng1) as [s rng2]. cbn [fst] in *. split; [cbn; by rewrite Hl|].
  unfold is_nix_base32 in *. by rewrite str_all_cons, Hok, alphabet_char_in.
Qed.

Lemma random_hash_ok rng : is_store_hash (random_hash rng).1 = true.
Proof. unfold random_hash, is_store_hash. destruct (random_chars_ok 32 rng) as [-> ->]. done. Qed.

Lemma is_store_hash_cons c s : is_store_hash (String c s) = true →
  ascii_mem c NIX_BASE32_ALPHABET = true ∧ str_len s = 31 ∧ is_nix_base32 s = true.
Proof.
  unfold is_store_hash, is_nix_base32. rewrite str_all_cons. cbn. intros [Hl%Nat.eqb_eq [Hc Hs]%andb_true_iff]%andb_true_iff.
  split_and!; [done|lia|done].
Qed.

(** The alphabet's characters are single bytes. *)
Lemma alphabet_plain c : ascii_mem c NIX_BASE32_ALPHABET = true → is_continuation c = false.
Proof. destruct c as [[] [] [] [] [] [] [] []]; vm_compute; congruence. Qed.

Lemma alphabet_index_mem c : ascii_mem c NIX_BASE32_ALPHABET = true →
  ∃ i, alphabet_index c (chars NIX_BASE32_ALPHABET) = Some i ∧ (0 ≤ i < 32)%Z ∧ c = alphabet_char i.
Proof. destruct c as [[] [] [] [] [] [] [] []]; vm_compute; (congruence || (intros _; eexists; split_and!; [reflexivity|done..])). Qed.

Lemma rekey_hash_ok hash : is_store_hash hash = true →
  ∃ hash', rekey_hash hash = Some hash' ∧ is_store_hash hash' = true ∧ hash' ≠ hash.
Proof.
  destruct hash as [|c s]; [done|]. intros (Hc & Hl & Hs)%is_store_hash_cons.
  assert (Hn : rekey_hash (String c s) = Some (String (next_char (String c s)) s)).
  { destruct s as [|d s]; [done|]. unfold rekey_hash. unfold is_nix_base32 in Hs. rewrite str_all_cons in Hs.
    apply andb_true_iff in Hs as [Hd _]. by rewrite (alphabet_plain _ Hd). }
  eexists. split; [exact Hn|]. apply alphabet_index_mem in Hc as (i & Hi & Hr & ->). unfold next_char. rewrite Hi. cbn [default from_option].
  assert (Hm : (0 ≤ (i + 1) mod 32 < 32)%Z) by (apply Z.mod_pos_bound; lia). split.
  - unfold is_store_hash, is_nix_base32 in *. rewrite str_all_cons, Hs, alphabet_char_in by done. cbn. by rewrite Hl.
  - intros [= Heq]. apply (f_equal (λ c, alphabet_index c (chars NIX_BASE32_ALPHABET))) in Heq.
    rewrite !alphabet_index_char in Heq by done. injection Heq as Heq.
    destruct (decide (i = 31)%Z) as [->|]; [done|]. rewrite Z.mod_small in Heq by lia. lia.
Qed.

Lemma wrap_next i : (0 ≤ i < 32)%Z → ((i + 1) mod 32 = if decide (i = 31) then 0 else i + 1)%Z.
Proof. intros Hi. destruct (decide (i = 31)%Z) as [->|]; [done|]. apply Z.mod_small. lia. Qed.

Lemma wrap_next_inj i j : (0 ≤ i < 32)%Z → (0 ≤ j < 32)%Z → ((i + 1) mod 32 = (j + 1) mod 32)%Z → i = j.
Proof. intros Hi Hj. rewrite !wrap_next by done. repeat case_decide; lia. Qed.

Lemma rekey_hash_inj h1 h2 h : is_store_hash h1 = true → is_store_hash h2 = true →
  rekey_hash h1 = Some h → rekey_hash h2 = Some h → h1 = h2.
Proof.
  intros H1 H2 R1 R2. destruct h1 as [|c1 s1]; [done|]. destruct h2 as [|c2 s2]; [done|].
  apply is_store_hash_cons in H1 as ((i1 & Hi1 & Hr1 & ->)%alphabet_index_mem & Hl1 & _).
  apply is_store_hash_cons in H2 as ((i2 & Hi2 & Hr2 & ->)%alphabet_index_mem & Hl2 & _).
  destruct s1 as [|d1 s1]; [done|]. destruct s2 as [|d2 s2]; [done|].
  unfold rekey_hash, next_char in R1, R2. destruct (is_continuation d1), (is_continuation d2); try done.
  rewrite Hi1 in R1. rewrite Hi2 in R2. cbn [default from_option] in R1, R2.
  injection R1 as <-. injection R2 as Heq -> ->. f_equal.
  apply (f_equal (λ c, alphabet_index c (chars NIX_BASE32_ALPHABET))) in Heq.
  rewrite !alphabet_index_char in Heq by (apply Z.mod_pos_bound; lia). injection Heq as Heq. f_equal.
  by apply (wrap_next_inj i1 i2).
Qed.

Lemma pretty_N_go_len k (x : N) s : (x < 10 ^ N.of_nat k)%N → str_len (pretty_N_go x s) ≤ k + str_len s.
Proof.
  revert x s. induction k as [|k IH]; intros x s Hx.
  { replace x with 0%N by (cbn in Hx; lia). by rewrite pretty_N_go_0. }
  destruct (decide (x = 0%N)) as [->|Hz]; [rewrite pretty_N_go_0; lia|]. rewrite pretty_N_go_step by lia.
  etrans; [apply IH|cbn; lia]. apply N.Div0.div_lt_upper_bound. by rewrite <-N.pow_succ_r', <-Nat2N.inj_succ.
Qed.

Lemma pretty_nat_name (n : nat) (k : nat) :
  (N.of_nat n < 10 ^ N.of_nat k)%N → 1 ≤ k →
  1 ≤ str_len (pretty n) ≤ k ∧ str_all is_decimal_char (pretty n) = true.
Proof.
  intros Hn Hk. change (pretty n) with (pretty (N.of_nat n)). split; [|apply pretty_N_chars].
  unfold pretty, pretty_N. case_decide as Hz; [cbn; lia|]. split; [|by pose proof (pretty_N_go_len k (N.of_nat n) "" Hn); cbn in *; lia].
  pose proof (digits_from_pretty (N.of_nat n) "") as Hd. destruct (pretty_N_go (N.of_nat n) ""); [|cbn; lia].
  cbn in Hd. injection Hd as Hd. lia.
Qed.

Lemma bench_name_ok s : str_all is_decimal_char s = true → str_len s ≤ 200 → name_ok ("bench-" +:+ s) = true.
Proof.
  intros Hs Hl. unfold name_ok. rewrite str_all_app, str_len_app.
  rewrite (str_all_impl is_decimal_char _ s) by (done || intros [[] [] [] [] [] [] [] []]; vm_compute; congruence).
  cbn. rewrite andb_true_r. apply Nat.leb_le. lia.
Qed.

(** ** Corpora *)

(** An entry the Pusher can take: a store hash and a name nix accepts. *)
Definition entry_ok (e : Entry) : Prop := is_store_hash (en_hash e) = true ∧ name_ok (en_name e) = true.

(** One of the spread's five steps, and less than 4 KiB more. *)
Definition size_ok (z : Z) : Prop :=
  ∃ step extra, (0 ≤ step ≤ 4)%Z ∧ (0 ≤ extra < 4096)%Z ∧ z = (4096 * 8 ^ step + extra)%Z.

Lemma size_ok_bounds z : size_ok z → (4096 ≤ z < 16 * 1024 * 1024 + 4096)%Z.
Proof.
  intros (step & extra & Hs & He & ->). assert (1 ≤ 8 ^ step ≤ 8 ^ 4)%Z; [|lia].
  split; [apply (Z.pow_le_mono_r 8 0); lia|apply Z.pow_le_mono_r; lia].
Qed.

Lemma generate_from_spec i count rng :
  (N.of_nat (i + count) < 10 ^ 20)%N →
  length (generate_from i count rng).1 = count ∧
  Forall (λ e, entry_ok e ∧ size_ok (en_size e) ∧ (en_compressibility e = 0 ∨ en_compressibility e = 70)%Z)
    (generate_from i count rng).1.
Proof.
  revert i rng. induction count as [|count IH]; intros i rng Hi; [by split|]. cbn [generate_from].
  pose proof (random_hash_ok rng) as Hh. destruct (random_hash rng) as [hash rng1]. cbn [fst] in Hh.
  pose proof (below_range rng1 5 ltac:(lia)) as Hm. destruct (below rng1 5) as [rng2 magnitude]. cbn [snd] in Hm.
  pose proof (below_range rng2 4096 ltac:(lia)) as He. destruct (below rng2 4096) as [rng3 extra]. cbn [snd] in He.
  destruct (below rng3 5) as [rng4 inert]. destruct (IH (S i) rng4 ltac:(lia)) as [Hl HF].
  destruct (generate_from (S i) count rng4) as [entries rng5]. cbn [fst] in *. split; [cbn; by rewrite Hl|].
  constructor; [|done]. cbn. split_and!.
  - split; [done|]. cbn [en_name].
    destruct (pretty_nat_name i 20) as [? Hp]; [lia..|]. apply bench_name_ok; [done|lia].
  - exists magnitude, extra. split_and!; [lia..|]. rewrite Z.shiftl_mul_pow2 by lia.
    replace (magnitude * 3)%Z with (3 * magnitude)%Z by lia. by rewrite Z.pow_mul_r by lia.
  - destruct (inert =? 0)%Z; [by left|by right].
Qed.

(** A corpus has the entries asked for, each one a path nix accepts, its size
    within the spread; the giant comes last. *)
Lemma generate_spec seed count (with_giant : bool) :
  (N.of_nat count < 10 ^ 20)%N →
  length (generate seed count with_giant) = count + (if with_giant then 1 else 0) ∧
  Forall (λ e, entry_ok e ∧ (size_ok (en_size e) ∨ with_giant = true ∧ en_size e = GIANT_SIZE)) (generate seed count with_giant).
Proof.
  intros Hc. unfold generate. destruct (generate_from_spec 0 count (rng_new seed) Hc) as [Hl HF].
  destruct (generate_from 0 count (rng_new seed)) as [entries rng]. cbn [fst] in *.
  assert (HF' : Forall (λ e, entry_ok e ∧ (size_ok (en_size e) ∨ with_giant = true ∧ en_size e = GIANT_SIZE)) entries).
  { eapply Forall_impl; [exact HF|]. cbn. tauto. }
  destruct with_giant; [|by split; [lia|]]. rewrite length_app, Hl. split; [done|]. apply Forall_app. split; [done|].
  constructor; [|constructor]. split; [|by right]. split; [apply random_hash_ok|by vm_compute].
Qed.

(** The keys of a corpus. *)
Definition keys (entries : list Entry) : list string := map en_hash entries.

Lemma rekey_spec entries :
  Forall (λ e, is_store_hash (en_hash e) = true) entries →
  ∃ entries', rekey entries = Some entries' ∧
    Forall2 (λ e e', rekey_hash (en_hash e) = Some (en_hash e') ∧ is_store_hash (en_hash e') = true ∧ en_hash e' ≠ en_hash e ∧
      en_size e' = en_size e ∧ en_compressibility e' = en_compressibility e) entries entries'.
Proof.
  induction 1 as [|e entries He _ (entries' & Hr & HF)]; [by exists []|].
  destruct (rekey_hash_ok _ He) as (hash & Hh & Hok & Hne).
  set (e' := mkEntry hash (en_name e +:+ "-baseline") (en_size e) (en_compressibility e)).
  assert (He' : rekey_entry e = Some e') by (unfold rekey_entry; by rewrite Hh).
  exists (e' :: entries'). split; [unfold rekey in *; simpl; by rewrite He', Hr|by constructor].
Qed.

(** The baseline is the load's work under other keys: as many entries, each of
    the size and compressibility of its own, under a key that is not its own and
    that no two entries share unless they did before. *)
Theorem baseline_is_the_same_work seed count (with_giant : bool) :
  (N.of_nat count < 10 ^ 20)%N →
  ∃ baseline, rekey (generate seed count with_giant) = Some baseline ∧
    map (λ e, (en_size e, en_compressibility e)) baseline = map (λ e, (en_size e, en_compressibility e)) (generate seed count with_giant) ∧
    Forall2 (λ e e', is_store_hash (en_hash e') = true ∧ en_hash e' ≠ en_hash e) (generate seed count with_giant) baseline ∧
    (NoDup (keys (generate seed count with_giant)) → NoDup (keys baseline)).
Proof.
  intros Hc. destruct (generate_spec seed count with_giant Hc) as [_ HF].
  assert (Hh : Forall (λ e, is_store_hash (en_hash e) = true) (generate seed count with_giant)).
  { eapply Forall_impl; [exact HF|]. by intros e [[? _] _]. }
  destruct (rekey_spec _ Hh) as (baseline & Hr & H2). exists baseline. split; [done|]. clear HF Hr. split_and!.
  - clear Hh. induction H2 as [|e e' l l' (_ & _ & _ & Hs & Hk) _ IH]; [done|]. cbn. by rewrite Hs, Hk, IH.
  - eapply Forall2_impl; [exact H2|]. by intros e e' (_ & ? & ? & _).
  - unfold keys. induction H2 as [|e e' l l' (Hk & _) H2 IH]; [done|]. cbn. apply Forall_cons in Hh as [He Hh].
    intros [Hn Hnd]%NoDup_cons. constructor; [|by apply IH]. intros Hin. apply Hn. clear IH Hnd Hn.
    induction H2 as [|x x' l l' (Hx & _) H2 IH]; [by apply elem_of_nil in Hin|]. cbn in *. apply Forall_cons in Hh as [Hxo Hh].
    apply elem_of_cons in Hin as [Heq|Hin]; [|right; by apply IH].
    assert (en_hash e = en_hash x) as ->; [|by left]. rewrite Heq in Hk. by eapply rekey_hash_inj.
Qed.

(** ** Examples *)

Lemma example_corpus :
  map (λ e, (en_hash e, en_name e, en_size e, en_compressibility e)) (generate 42 2 true) =
    [("0snz63jgh6dbn1n4hidg96q44g1hxs77", "bench-0", 2099910, 0);
     ("30503802zrzsxj4lv6zvaipk8mp21x3c", "bench-1", 4261, 70);
     ("fwcdawb3izr3hh84b8x0hyglyl3arl9h", "bench-giant", 2147483648, 0)]%Z ∧
  len_Z (body (mkEntry "h" "n" 10 0)) = 10%Z ∧ body (mkEntry "h" "n" 70 100) = repeat 97%Z 70.
Proof. split_and!; vm_compute; reflexivity. Qed.

(** The salt of a run is mixed with the repetition by exclusive or, so two runs
    whose times differ in their low bits alone share keys: the second repetition
    of one is the first of the other. *)
Lemma stream_salt_collides :
  en_hash (stream_entry 1 4096 1 100) = en_hash (stream_entry 1 4096 0 101).
Proof. vm_compute. reflexivity. Qed.
