(* ===== verification/Bench.v ===== *)
(** * Bench: the load benchmark

    [crates/garret-bench/src/main.rs]: the bodies it uploads, the retries, the
    three scenarios with the figures they report, and the verdict. The clock is
    in nanoseconds. The concurrent part of a scenario is one request, answered by
    what the futures came to, in the order they ended; printing is left out. *)

From Stdlib Require Import Floats.SpecFloat.
From stdpp Require Import pretty.
From S2P Require Import Prelude Text Net Common Prog Db Narinfo Verify Pusher Config Upload Push Settings Token Doctor Commands Report Corpus.

(** ** A frame of stored blocks *)

Definition RAW_BLOCK : Z := 128 * 1024.

Fixpoint trailing_zeros (p : positive) : Z :=
  match p with xO p => (1 + trailing_zeros p)%Z | _ => 0%Z end.

Definition WINDOW_DESCRIPTOR : Z := (Z.shiftl (trailing_zeros (Z.to_pos RAW_BLOCK) - 10) 3 mod 256)%Z.

(** A block header: size, type 0 and the last-block bit, little-endian. *)
Definition raw_block (len : Z) (last_ : bool) : list Z :=
  take 3 (u32_to_le_bytes (Z.lor (Z.shiftl (len mod 2 ^ 32) 3 mod 2 ^ 32) (if last_ then 1 else 0))).

Definition frame_header : list Z := [40; 181; 47; 253; 0; WINDOW_DESCRIPTOR]%Z.

Definition raw_zstd_frame (chunks : list (list Z)) : list (list Z) :=
  frame_header :: concat (map (λ c, [raw_block (len_Z c) false; c]) chunks) ++ [raw_block 0 true].

(** ** Percentiles *)

(** [round() as usize] of a number that is not negative: half away from zero. *)
Definition f64_round (x : f64) : Z :=
  match x with
  | S754_finite _ m e =>
      if (0 <=? e)%Z then (Zpos m * 2 ^ e)%Z
      else let d := (2 ^ (- e))%Z in
           if (d <=? 2 * (Zpos m mod d))%Z then (Zpos m / d + 1)%Z else (Zpos m / d)%Z
  | S754_infinity _ => usize_max
  | _ => 0%Z
  end.

Definition percentile_index (n : nat) (p : f64) : nat :=
  Z.to_nat (f64_round (f64_mul (f64_div p (f64_of_Z 100)) (f64_of_Z (Z.of_nat n - 1)))) `min` (n - 1).

Definition percentile (sorted : list Z) (p : f64) : Z :=
  if is_nil sorted then 0%Z else nth (percentile_index (length sorted) p) sorted 0%Z.

(** ** Requests *)

Inductive Counter := Counter_Shed | Counter_Dropped | Counter_Wire.

(** A GET's status, or the error it failed with, and the microseconds it took. *)
Record Got := mkGot {
  got_is_nar : bool;
  got_status : Result Z string;
  got_micros : Z;
}.

Inductive BenchOp : Type → Type :=
  | Bench_Now : BenchOp Z
  | Bench_Put (url token : string) (body : list (list Z)) : BenchOp (Result Answer ReqwestError)
  | Bench_Count (counter : Counter) (n : Z) : BenchOp unit
  | Bench_Read (counter : Counter) : BenchOp Z
  | Bench_Reset : BenchOp unit
  | Bench_Sleep (ms : Z) : BenchOp unit
  (** [buffer_unordered(concurrency)] over the entries' pushes: each one's index
      and the nanoseconds it took, unless it failed. *)
  | Bench_Load (concurrency : nat) (entries : list Entry) : BenchOp (list (nat * option Z))
  (** The client configuration's token. *)
  | Bench_Token : BenchOp (Result string string)
  | Bench_WriteReport (path : string) : BenchOp (Result unit string)
  | Bench_Gets (concurrency : nat) (requests : list (string * bool)) : BenchOp (list Got).

Abbreviation Bench := (Prog BenchOp).

Section bench.
Context `{L : ClientLibs, C : Crypto, Zs : Zstd}.
(** [zstd::encode_all]. *)
Context (encode_all : list Z → Z → Result (list Z) string).

(** ** One push *)

(** [sha256-] and base 64 of the chunks' bytes. *)
Definition nar_hash (chunks : list (list Z)) : string := "sha256-" +:+ b64_encode (sha256 (concat chunks)).

Definition preamble_for (e : Entry) (hash : string) : Preamble :=
  mkPreamble (en_store_path e) hash (en_size e) [] None None.

Definition bench_upload_url (endpoint : string) (e : Entry) : string := endpoint +:+ with_hash NAR_UPLOAD (en_hash e).

(** A request that was answered, but not with a shed. *)
Definition settled (answer : Answer) : Result unit string :=
  if negb (is_success (an_status answer)) then
    Err (pretty (an_status answer) +:+ ": " +:+ match an_body answer with Ok text => text | Err _ => "" end)
  else
    match an_body answer with
    | Err _ => Err "parsing upload response"
    | Ok text =>
        match ack_from_json text with
        | Err _ => Err "parsing upload response"
        | Ok Ack_InProgress => Err "another upload of this path is in progress"
        | Ok _ => Ok tt
        end
    end.

(** Which counter a retried answer goes to. *)
Definition retried (answer : Result Answer ReqwestError) : option Counter :=
  match answer with
  | Ok a => if (an_status a =? 429)%Z then Some Counter_Shed else None
  | Err e => if connection_dropped (re_chain e) then Some Counter_Dropped else None
  end.

(** The attempts left, and how many were made. *)
Fixpoint put_loop (tries : nat) (attempt delay : Z) (url token : string) (make_body : Result (list (list Z)) string)
    : Bench (Result unit string) :=
  match tries with
  | 0 => Ret (Err "still shed or dropped after 6 attempts")
  | S tries =>
      match make_body with
      | Err e => Ret (Err e)
      | Ok body =>
          do answer <- request (Bench_Put url token body);
          match retried answer with
          | Some counter =>
              do _ <- request (Bench_Count counter 1);
              do _ <- request (Bench_Sleep (delay + attempt * 17));
              put_loop tries (attempt + 1) (delay * 2) url token make_body
          | None => Ret (match answer with Ok a => settled a | Err _ => Err "sending the upload" end)
          end
      end
  end.

Definition put_with_retry := put_loop 6 0 100.

Definition push (endpoint token : string) (e : Entry) (level : Z) : Bench (Result unit string) :=
  let nar := Corpus.body e in
  do? framed <- Ret (to_framed preamble_to_json (preamble_for e (nar_hash [nar])));
  do? compressed <- Ret (map_err (λ e, "compressing: " +:+ e) (encode_all nar level));
  let body := framed ++ compressed in
  do _ <- request (Bench_Count Counter_Wire (len_Z body));
  put_with_retry (bench_upload_url endpoint e) token (Ok [body]).

Definition stream_body (e : Entry) (hash : string) : Result (list (list Z)) string :=
  let? framed := to_framed preamble_to_json (preamble_for e hash) in
  Ok (framed :: raw_zstd_frame (entry_chunks e (Z.to_nat RAW_BLOCK))).

Definition push_streaming (endpoint token : string) (e : Entry) (hash : string) : Bench (Result unit string) :=
  put_with_retry (bench_upload_url endpoint e) token (stream_body e hash).

(** ** Scenarios *)

Definition millis (nanos : Z) : Z := (nanos / 1000000)%Z.
Definition f64_MIB : f64 := f64_mul (f64_of_Z 1024) (f64_of_Z 1024).
Definition percent_50 : f64 := f64_of_Z 50.
Definition percent_99 : f64 := f64_of_Z 99.

Definition sorted_Z (l : list Z) : list Z := order_by Z.le l.

Record PushResults := mkPushResults {
  pr_concurrency : nat;
  pr_corpus_entries : nat;
  pr_corpus_bytes : Z;
  pr_wire_bytes : Z;
  pr_pushed : nat;
  pr_failed : nat;
  pr_shed_retries : Z;
  pr_dropped_retries : Z;
  pr_wall_seconds : f64;
  pr_nar_mib_per_sec : f64;
  pr_wire_mib_per_sec : f64;
  pr_median_ms : Z;
  pr_p99_ms : Z;
  pr_max_ms : Z;
  pr_uncontended_median_ms : Z;
  pr_p99_slowdown : f64;
  pr_zero_failures : bool;
}.

Record PushArgs := mkPushArgs {
  pa_concurrency : nat;
  pa_with_giant : bool;
  pa_zstd_level : Z;
  pa_max_p99_slowdown : option f64;
}.

(** The baseline: each push's milliseconds, one at least. *)
Fixpoint run_baseline (endpoint token : string) (level : Z) (entries : list Entry) : Bench (Result (list Z) string) :=
  match entries with
  | [] => Ret (Ok [])
  | e :: entries =>
      do started <- request Bench_Now;
      do? _ <- push endpoint token e level;
      do ended <- request Bench_Now;
      do? rest <- run_baseline endpoint token level entries;
      Ret (Ok (Z.max (millis (ended - started)) 1 :: rest))
  end.

(** A loaded push's time over its own uncontended one, in thousandths. *)
Definition slowdown (baseline : list Z) (outcome : nat * option Z) : option Z :=
  l ← outcome.2; base ← baseline !! outcome.1; Some (Z.max (millis l) 1 * 1000 / base)%Z.

Definition push_results (args : PushArgs) (corpus_bytes wire shed dropped wall : Z) (baseline : list Z)
    (latencies : list (nat * option Z)) : PushResults :=
  let ok := sorted_Z (map millis (omap snd latencies)) in
  let failed := length (filter (λ o, o.2 = None) latencies) in
  mkPushResults (pa_concurrency args) (length latencies) corpus_bytes wire (length ok) failed shed dropped
    (secs_f64 wall)
    (f64_div (f64_div (f64_of_Z corpus_bytes) f64_MIB) (secs_f64 wall))
    (f64_div (f64_div (f64_of_Z wire) f64_MIB) (secs_f64 wall))
    (percentile ok percent_50) (percentile ok percent_99) (default 0%Z (last ok))
    (percentile (sorted_Z baseline) percent_50)
    (f64_div (f64_of_Z (percentile (sorted_Z (omap (slowdown baseline) latencies)) percent_99)) (f64_of_Z 1000))
    (failed =? 0).

Definition run_push (seed : Z) (count : nat) (endpoint token : string) (args : PushArgs) : Bench (option (Result PushResults string)) :=
  let entries := generate seed count (pa_with_giant args) in
  match rekey (generate seed count false) with
  | None => Ret None
  | Some baseline_entries =>
      do _ <- request Bench_Reset;
      do baseline <- run_baseline endpoint token (pa_zstd_level args) baseline_entries;
      match baseline with
      | Err e => Ret (Some (Err e))
      | Ok baseline =>
          do _ <- request Bench_Reset;
          do started <- request Bench_Now;
          do latencies <- request (Bench_Load (pa_concurrency args) entries);
          do ended <- request Bench_Now;
          do wire <- request (Bench_Read Counter_Wire);
          do shed <- request (Bench_Read Counter_Shed);
          do dropped <- request (Bench_Read Counter_Dropped);
          Ret (Some (Ok (push_results args (sum_Z (map en_size entries)) wire shed dropped (ended - started) baseline latencies)))
      end
  end.

Record StreamResult := mkStreamResult {
  sr_size_bytes : Z;
  sr_reps : nat;
  sr_median_seconds : f64;
  sr_mib_per_sec : f64;
  sr_failed : nat;
  sr_shed_retries : Z;
  sr_dropped_retries : Z;
}.

(** The seconds of the pushes that went well, and how many did not. *)
Fixpoint stream_reps (endpoint token : string) (seed size salt : Z) (reps : list nat) : Bench (list f64 * nat) :=
  match reps with
  | [] => Ret ([], 0)
  | rep :: reps =>
      let e := stream_entry seed size (Z.of_nat rep) salt in
      let hash := nar_hash (entry_chunks e (Z.to_nat RAW_BLOCK)) in
      do started <- request Bench_Now;
      do pushed <- push_streaming endpoint token e hash;
      match pushed with
      | Ok _ =>
          do ended <- request Bench_Now;
          do rest <- stream_reps endpoint token seed size salt reps;
          Ret (secs_f64 (ended - started) :: rest.1, rest.2)
      | Err _ =>
          do rest <- stream_reps endpoint token seed size salt reps;
          Ret (rest.1, S rest.2)
      end
  end.

Definition f64_le (x y : f64) : Prop := SFleb x y = true.
#[local] Instance f64_le_dec : RelDecision f64_le.
Proof. intros x y. unfold f64_le. apply _. Defined.

Definition stream_result (size : Z) (reps : nat) (walls : list f64) (failed : nat) (shed dropped : Z) : StreamResult :=
  let walls := order_by f64_le walls in
  let median := walls !! ((length walls - 1) / 2) in
  mkStreamResult size reps (default S754_nan median)
    (match median with Some m => f64_div (f64_div (f64_of_Z size) f64_MIB) m | None => S754_nan end)
    failed shed dropped.

Fixpoint stream_sizes (endpoint token : string) (seed salt : Z) (sizes : list (Z * nat)) : Bench (list StreamResult) :=
  match sizes with
  | [] => Ret []
  | (size, reps) :: sizes =>
      do _ <- request Bench_Reset;
      do walls <- stream_reps endpoint token seed size salt (seq 0 reps);
      do shed <- request (Bench_Read Counter_Shed);
      do dropped <- request (Bench_Read Counter_Dropped);
      do rest <- stream_sizes endpoint token seed salt sizes;
      Ret (stream_result size reps walls.1 walls.2 shed dropped :: rest)
  end.

Definition MIB : Z := 1024 * 1024.

Definition stream_plan (reps : nat) (no_giant : bool) : list (Z * nat) :=
  [(MIB, reps); ((100 * MIB)%Z, reps)] ++ if no_giant then [] else [((2048 * MIB)%Z, 1)].

Definition run_stream (seed : Z) (endpoint token : string) (reps : nat) (no_giant : bool) (salt : Z) : Bench (list StreamResult) :=
  stream_sizes endpoint token seed salt (stream_plan reps no_giant).

Record PullResults := mkPullResults {
  pl_concurrency : nat;
  pl_passes : nat;
  pl_requests : nat;
  pl_failed : nat;
  pl_wall_seconds : f64;
  pl_requests_per_sec : f64;
  pl_narinfo_p50_ms : f64;
  pl_narinfo_p99_ms : f64;
  pl_redirect_p50_ms : f64;
  pl_redirect_p99_ms : f64;
  pl_zero_failures : bool;
}.

(** A narinfo and a NAR request per entry and pass. *)
Definition pull_requests (puller : string) (passes : nat) (entries : list Entry) : list (string * bool) :=
  concat (repeat (concat (map (λ e, [(puller +:+ "/" +:+ narinfo_file (en_hash e), false); (puller +:+ "/" +:+ nar_url (en_hash e), true)])
    entries)) passes).

Definition is_redirection (status : Z) : bool := ((300 <=? status) && (status <? 400))%Z.

(** The answer each kind of request is to get. *)
Definition got_ok (g : Got) : bool :=
  match got_status g with
  | Ok status => if got_is_nar g then is_redirection status else is_success status
  | Err _ => false
  end.

Definition collect_micros (nar : bool) (gots : list Got) : list Z :=
  sorted_Z (map got_micros (filter (λ g, got_is_nar g = nar ∧ got_ok g = true) gots)).

Definition f64_ms (micros : Z) : f64 := f64_div (f64_of_Z micros) (f64_of_Z 1000).

Definition pull_results (concurrency passes total : nat) (wall : Z) (gots : list Got) : PullResults :=
  let narinfo := collect_micros false gots in
  let redirect := collect_micros true gots in
  let failed := total - (length narinfo + length redirect) in
  mkPullResults concurrency passes total failed (secs_f64 wall) (f64_div (f64_of_Z (Z.of_nat total)) (secs_f64 wall))
    (f64_ms (percentile narinfo percent_50)) (f64_ms (percentile narinfo percent_99))
    (f64_ms (percentile redirect percent_50)) (f64_ms (percentile redirect percent_99)) (failed =? 0).

Definition pull_step (puller : string) (passes : nat) (entries : list Entry) (concurrency : nat) : Bench PullResults :=
  let requests := pull_requests puller passes entries in
  do started <- request Bench_Now;
  do gots <- request (Bench_Gets concurrency requests);
  do ended <- request Bench_Now;
  Ret (pull_results concurrency passes (length requests) (ended - started) gots).

Fixpoint pull_steps (puller : string) (passes : nat) (entries : list Entry) (sweep : list nat) : Bench (list PullResults) :=
  match sweep with
  | [] => Ret []
  | concurrency :: sweep =>
      do result <- pull_step puller passes entries concurrency;
      do rest <- pull_steps puller passes entries sweep;
      Ret (result :: rest)
  end.

Definition run_pull (seed : Z) (count : nat) (puller : string) (passes : nat) (sweep : list nat) : Bench (list PullResults) :=
  pull_steps puller passes (generate seed count false) sweep.

(** ** The verdict *)

(** What [main] makes of the results: [PASS], or why not. *)
Definition verdict (push : option PushResults) (max_p99_slowdown : option f64) (stream : option (list StreamResult))
    (pull : option (list PullResults)) : Result unit string :=
  let? _ := match push with
            | Some push =>
                if negb (pr_zero_failures push) then Err ("FAIL: " +:+ pretty (pr_failed push) +:+ " push(es) failed")
                else match max_p99_slowdown with
                     | Some budget =>
                         if SFltb budget (pr_p99_slowdown push) then
                           Err ("FAIL: p99 slowdown under load is " +:+ one_decimal (pr_p99_slowdown push) +:+
                             "x, above the requested " +:+ one_decimal budget +:+ "x")
                         else Ok tt
                     | None => Ok tt
                     end
            | None => Ok tt
            end in
  let? _ := match stream with
            | Some results => if existsb (λ r, 0 <? sr_failed r) results then Err "FAIL: streaming push(es) failed" else Ok tt
            | None => Ok tt
            end in
  match pull with
  | Some results =>
      let failed := sum_list (map pl_failed results) in
      if 0 <? failed then Err ("FAIL: " +:+ pretty failed +:+ " pull request(s) failed") else Ok tt
  | None => Ok tt
  end.

Record BenchCli := mkBenchCli {
  bc_endpoint : string;
  bc_token : option string;
  bc_seed : Z;
  bc_count : nat;
  bc_json : option string;
  bc_push : option PushArgs;
  bc_stream : option (nat * bool);
  bc_pull : option (string * nat * list nat);
}.

(** A scenario that was asked for. *)
Definition when_asked {A B} (args : option A) (run : A → Bench B) : Bench (option B) :=
  match args with None => Ret None | Some args => do result <- run args; Ret (Some result) end.

(** [?] on the push scenario's results. *)
Definition push_outcome (push : option (option (Result PushResults string))) : option (Result (option PushResults) string) :=
  match push with
  | None => Some (Ok None)
  | Some None => None
  | Some (Some (Err e)) => Some (Err e)
  | Some (Some (Ok results)) => Some (Ok (Some results))
  end.

(** Pull is anonymous; the uploads need a token. *)
Definition bench_token (cli : BenchCli) : Bench (Result string string) :=
  match bc_push cli, bc_stream cli, bc_token cli with
  | None, None, _ => Ret (Ok "")
  | _, _, Some token => Ret (Ok token)
  | _, _, None => request Bench_Token
  end.

Definition write_report (path : option string) : Bench (Result unit string) :=
  match path with Some path => request (Bench_WriteReport path) | None => Ret (Ok tt) end.

(** [main] at the time [timestamp]; [None]: it panicked. *)
Definition bench_main (cli : BenchCli) (timestamp : Z) : Bench (option (Result unit string)) :=
  do token <- bench_token cli;
  match token with
  | Err e => Ret (Some (Err e))
  | Ok token =>
      do push <- when_asked (bc_push cli) (run_push (bc_seed cli) (bc_count cli) (bc_endpoint cli) token);
      match push_outcome push with
      | None => Ret None
      | Some (Err e) => Ret (Some (Err e))
      | Some (Ok push) =>
          do stream <- when_asked (bc_stream cli) (λ args, run_stream (bc_seed cli) (bc_endpoint cli) token args.1 args.2 (wrap64 timestamp));
          do pull <- when_asked (bc_pull cli) (λ args, run_pull (bc_seed cli) (bc_count cli) args.1.1 args.1.2 args.2);
          do written <- write_report (bc_json cli);
          Ret (Some (let? _ := written in verdict push (bc_push cli ≫= pa_max_p99_slowdown) stream pull))
      end
  end.
End bench.

(** ** A stored frame, as RFC 8878 reads it *)

(** One block: whether it is the last, its contents and what follows; only
    stored blocks are read. *)
Definition read_block (max : Z) (bytes : list Z) : option (bool * list Z * list Z) :=
  match bytes with
  | b0 :: b1 :: b2 :: rest =>
      let header := (b0 + b1 * 2 ^ 8 + b2 * 2 ^ 16)%Z in
      let size := (header / 8)%Z in
      if ((header / 2) mod 4 =? 0)%Z && (size <=? max)%Z && (size <=? len_Z rest)%Z
      then Some (Z.odd header, take (Z.to_nat size) rest, drop (Z.to_nat size) rest) else None
  | _ => None
  end.

Fixpoint read_blocks (fuel : nat) (max : Z) (bytes : list Z) : option (list Z) :=
  match fuel with
  | 0 => None
  | S fuel =>
      '(last_, contents, rest) ← read_block max bytes;
      if last_ : bool then if is_nil rest then Some contents else None
      else more ← read_blocks fuel max rest; Some (contents ++ more)
  end.

(** The window a descriptor byte stands for, and the block size under it. *)
Definition window_size (descriptor : Z) : Z :=
  let base := (2 ^ (10 + descriptor / 8))%Z in (base + base / 8 * (descriptor mod 8))%Z.
Definition block_max (descriptor : Z) : Z := Z.min (window_size descriptor) (128 * 1024).

(** A whole frame without content size, dictionary or checksum, its window within
    what the Pusher's decoder allows. *)
Definition read_stored_frame (bytes : list Z) : option (list Z) :=
  match bytes with
  | 40 :: 181 :: 47 :: 253 :: 0 :: descriptor :: rest =>
      if window_size descriptor <=? 2 ^ WINDOW_LOG_MAX then read_blocks (length rest) (block_max descriptor) rest else None
  | _ => None
  end%Z.

Lemma raw_block_bytes len (last_ : bool) :
  (0 ≤ len < 2 ^ 21)%Z →
  ∃ b0 b1 b2, raw_block len last_ = [b0; b1; b2] ∧ (b0 + b1 * 2 ^ 8 + b2 * 2 ^ 16 = len * 8 + (if last_ then 1 else 0))%Z.
Proof.
  intros Hl. set (h := Z.lor (Z.shiftl (len mod 2 ^ 32) 3 mod 2 ^ 32) (if last_ then 1 else 0)).
  assert (Hh : h = (len * 8 + (if last_ then 1 else 0))%Z).
  { unfold h. rewrite !Z.mod_small by (rewrite ?Z.shiftl_mul_pow2, ?Z.mod_small; lia). rewrite Z.shiftl_mul_pow2 by lia.
    destruct last_; [|by rewrite Z.lor_0_r, Z.add_0_r].
    rewrite <-(Z.lxor_lor _ _), <-Z.add_nocarry_lxor; [done| |].
    all: apply Z.bits_inj'; intros k Hk; rewrite Z.land_spec, Z.bits_0; destruct (decide (k = 0)%Z) as [->|Hn].
    all: try (rewrite Z.mul_pow2_bits_low by lia; done).
    all: rewrite andb_comm; apply andb_false_iff; left; destruct k; [done|by destruct p|lia]. }
  unfold raw_block, u32_to_le_bytes. fold h. cbn [take]. do 3 eexists. split; [reflexivity|].
  assert (Hb : (0 ≤ h < 2 ^ 24)%Z) by (rewrite Hh; destruct last_; lia).
  change 255%Z with (Z.ones 8). rewrite !Z.land_ones, !Z.shiftr_div_pow2 by lia. rewrite <-Hh.
  rewrite (Z.mod_small (h / 2 ^ 16)).
  2: { split; [apply Z.div_pos; lia|apply Z.div_lt_upper_bound; lia]. }
  pose proof (Z.div_mod h (2 ^ 8) ltac:(lia)). pose proof (Z.div_mod (h / 2 ^ 8) (2 ^ 8) ltac:(lia)) as H2.
  rewrite Z.div_div in H2 by lia. change (2 ^ 8 * 2 ^ 8)%Z with (2 ^ 16)%Z in H2. lia.
Qed.

Lemma read_raw_block max last_ contents rest :
  (len_Z contents ≤ max)%Z → (len_Z contents < 2 ^ 21)%Z →
  read_block max (raw_block (len_Z contents) last_ ++ contents ++ rest) = Some (last_, contents, rest).
Proof.
  intros Hm Hl. assert (Hpos : (0 ≤ len_Z contents)%Z) by (unfold len_Z; lia).
  destruct (raw_block_bytes (len_Z contents) last_ ltac:(lia)) as (b0 & b1 & b2 & -> & Hh). cbn [app read_block]. rewrite Hh.
  set (n := len_Z contents) in *. set (b := (if last_ then 1 else 0)%Z). assert (Hb : (0 ≤ b < 2)%Z) by (unfold b; destruct last_; lia).
  assert (H8 : ((n * 8 + b) / 8 = n)%Z) by (symmetry; apply (Z.div_unique _ _ _ b); lia).
  assert (H2 : ((n * 8 + b) / 2 = n * 4)%Z) by (symmetry; apply (Z.div_unique _ _ _ b); lia).
  rewrite H8, H2, Z.mod_mul by lia. assert (Hlen : len_Z (contents ++ rest) = (n + len_Z rest)%Z) by (unfold n, len_Z; rewrite length_app; lia).
  assert (Hfit : (n <=? n + len_Z rest)%Z = true) by (apply Z.leb_le; unfold len_Z; lia).
  rewrite Hlen, (proj2 (Z.leb_le n max) Hm), Hfit. cbn [andb Z.eqb].
  assert (Hn : Z.to_nat n = length contents) by (unfold n, len_Z; lia).
  rewrite Hn, take_app_length, drop_app_length. repeat f_equal.
  unfold b. rewrite Z.odd_add, Z.odd_mul, andb_false_r. by destruct last_.
Qed.

Lemma read_blocks_spec fuel max chunks :
  Forall (λ c, len_Z c ≤ max ∧ len_Z c < 2 ^ 21)%Z chunks → (0 ≤ max)%Z → length chunks < fuel →
  read_blocks fuel max (concat (concat (map (λ c, [raw_block (len_Z c) false; c]) chunks) ++ [raw_block 0 true])) = Some (concat chunks).
Proof.
  intros HF Hm. revert fuel. induction HF as [|c chunks [Hc Hl] HF IH]; intros [|fuel] Hf; [cbn in Hf; lia| |cbn in Hf; lia|].
  - pose proof (read_raw_block max true [] [] Hm ltac:(done)) as Hr. cbn [app] in Hr. change (len_Z (@nil Z)) with 0%Z in Hr.
    cbn [map concat app read_blocks]. by rewrite Hr.
  - cbn [map concat app read_blocks].
    rewrite (read_raw_block max false c _ Hc Hl). cbn. rewrite IH by (cbn in Hf; lia). done.
Qed.

(** A frame of chunks of a block or less is read back as their bytes, and is
    three bytes a block longer than them. *)
Lemma read_raw_frame chunks :
  Forall (λ c, len_Z c ≤ RAW_BLOCK)%Z chunks →
  read_stored_frame (concat (raw_zstd_frame chunks)) = Some (concat chunks) ∧
  len_Z (concat (raw_zstd_frame chunks)) = (len_Z (concat chunks) + 3 * len_Z chunks + 9)%Z.
Proof.
  intros HF.
  assert (Hlen : ∀ c l, length (raw_block c l) = 3) by done. split.
  - unfold raw_zstd_frame, frame_header. rewrite concat_cons. cbn [app read_stored_frame].
    change (window_size WINDOW_DESCRIPTOR <=? 2 ^ WINDOW_LOG_MAX)%Z with true. cbv iota.
    apply read_blocks_spec; [|by vm_compute|].
    + eapply Forall_impl; [exact HF|]. intros c Hc. change (block_max WINDOW_DESCRIPTOR) with RAW_BLOCK. unfold RAW_BLOCK in *. lia.
    + clear HF. induction chunks as [|c chunks IH]; [cbn; lia|].
      cbn [map concat app]. rewrite !length_app, Hlen. cbn [length]. lia.
  - clear HF. unfold raw_zstd_frame. rewrite concat_cons. unfold len_Z. rewrite length_app. change (length frame_header) with 6.
    induction chunks as [|c chunks IH]; [done|]. cbn [map concat app]. rewrite !length_app, Hlen in *.
    cbn [length concat] in *. lia.
Qed.

(** ** The streamed body is an honest upload *)

(** What the format (RFC 8878) and ZSTD_compressBound promise. *)
Class StoredLaws `{Zs : Zstd} (unzstd : list Z → option (list Z)) : Prop := {
  stored_frames bytes data : read_stored_frame bytes = Some data → unzstd bytes = Some data;
  bound_covers n : (0 ≤ n)%Z → (n ≤ compress_bound n)%Z;
}.

Lemma raw_block_words : Z.to_nat RAW_BLOCK = 8 * Z.to_nat 16384.
Proof. unfold RAW_BLOCK. lia. Qed.

(** A chunk per block begun. *)
Lemma chunks_from_count c fuel rng remaining :
  c ≠ 0 → c * length (chunks_from fuel rng c remaining) < remaining + c.
Proof.
  intros Hc. revert rng remaining. induction fuel as [|fuel IH]; intros rng [|r]; cbn [chunks_from]; try (cbn [length]; lia).
  destruct (fill_chunk rng (c `min` S r)) as [out rng1]. cbn [length]. specialize (IH rng1 (S r - c `min` S r)).
  destruct (decide (S r ≤ c)) as [Hl|Hl]; [|lia]. replace (S r - c `min` S r) with 0 by lia.
  replace (chunks_from fuel rng1 c 0) with (@nil (list Z)) by by destruct fuel. cbn [length]. lia.
Qed.

Lemma pretty_Z_len z k : (0 ≤ z < 10 ^ Z.of_nat k)%Z → 1 ≤ k → str_len (pretty z) ≤ k.
Proof.
  intros Hz Hk. assert (Hn : pretty z = pretty (Z.to_nat z)).
  { destruct z as [|q|q]; [done| |lia]. change (pretty (Z.to_nat (Z.pos q))) with (pretty (N.of_nat (Z.to_nat (Z.pos q)))).
    rewrite Z_nat_N. done. }
  rewrite Hn. apply (pretty_nat_name (Z.to_nat z) k); [|done].
  apply N2Z.inj_lt. rewrite nat_N_Z, N2Z.inj_pow, nat_N_Z, Z2Nat.id by lia. apply Hz.
Qed.

Lemma stream_name_ok size rep :
  (0 ≤ size < 10 ^ 20)%Z → (0 ≤ rep < 10 ^ 20)%Z → name_ok ("bench-stream-" +:+ pretty size +:+ "-" +:+ pretty rep) = true.
Proof.
  intros Hs Hr. pose proof (pretty_Z_len size 20 Hs ltac:(lia)). pose proof (pretty_Z_len rep 20 Hr ltac:(lia)).
  change ("bench-stream-" +:+ pretty size +:+ "-" +:+ pretty rep) with ("bench-" +:+ ("stream-" +:+ pretty size +:+ "-" +:+ pretty rep)).
  unfold name_ok. rewrite !str_all_app, !str_len_app.
  assert (Hd : ∀ z : Z, str_all (λ b, is_ascii_alphanumeric b || ascii_mem b "+-._?=") (pretty z) = true).
  { intros z. eapply str_all_impl; [|apply pretty_Z_chars]. intros [[] [] [] [] [] [] [] []]; vm_compute; congruence. }
  rewrite !Hd. cbn. rewrite andb_true_r. apply Nat.leb_le. lia.
Qed.

Section honest.
Context `{L : ClientLibs, C : Crypto, Zs : Zstd} (unzstd : list Z → option (list Z)) `{!StoredLaws unzstd}.
Context (HC : CryptoLaws C) (Hsha : ∀ bytes, length (sha256 bytes) = 32).

(** A preamble the Pusher takes for the entry's key. *)
Lemma preamble_for_ok e chunks :
  entry_ok e → preamble_ok (en_hash e) (preamble_for e (nar_hash chunks)) "/nix/store".
Proof.
  intros [Hh Hn]. split; try done.
  - by exists (en_name e).
  - cbn. unfold nar_hash. destruct (proj2 (normalize_hash_canonical HC) (sha256 (concat chunks)) (Hsha _)) as [-> _]. done.
Qed.

(** The streamed upload of the benchmark is one the Pusher can accept: its body starts with a framed
    preamble that build_object finds well formed, and the rest is one zstd frame that a reader of
    RFC 8878 decompresses to the entry's bytes, whose length and digest are those the preamble
    claims, within the compression bound. *)
Theorem streamed_upload_is_honest seed size rep salt body max json :
  (0 ≤ size ≤ GIANT_SIZE)%Z → (0 ≤ rep < 10 ^ 20)%Z →
  let e := stream_entry seed size rep salt in
  let chunks := entry_chunks e (Z.to_nat RAW_BLOCK) in
  let preamble := preamble_for e (nar_hash chunks) in
  stream_body e (nar_hash chunks) = Ok body →
  preamble_to_json preamble = Ok json → (len_Z json ≤ max < 2 ^ 32)%Z →
  ∃ framed frame, concat body = framed ++ frame ∧
    preamble_end (concat body) max = Ok (Some (len_Z framed)) ∧ drop 4 framed = json ∧
    preamble_ok (en_hash e) preamble "/nix/store" ∧
    unzstd frame = Some (concat chunks) ∧ len_Z (concat chunks) = pre_nar_size preamble ∧
    normalize_hash b64_decode (pre_nar_hash preamble) = Ok (sha256_nix32 (sha256 (concat chunks))) ∧
    (len_Z frame ≤ max_compressed_len (pre_nar_size preamble))%Z.
Proof.
  intros Hs Hr e chunks preamble Hb Hj Hmax. unfold stream_body in Hb. fold preamble in Hb.
  destruct (to_framed preamble_to_json preamble) as [framed|] eqn:Hf; [|done]. injection Hb as <-.
  assert (He : entry_ok e) by (split; [apply random_hash_ok|apply stream_name_ok; [unfold GIANT_SIZE in Hs; lia|done]]).
  destruct (chunks_spell_one_body e (Z.to_nat 16384)) as (_ & Hlen & Hchunks); [apply Hs|lia|].
  rewrite <-raw_block_words in Hlen, Hchunks. fold chunks in Hlen, Hchunks. change (en_size e) with size in Hlen.
  assert (HF : Forall (λ c, len_Z c ≤ RAW_BLOCK)%Z chunks).
  { eapply Forall_impl; [exact Hchunks|]. intros c [Hc _]. unfold len_Z. lia. }
  destruct (read_raw_frame chunks HF) as [Hread Hlong].
  exists framed, (concat (raw_zstd_frame chunks)). split_and!.
  - done.
  - destruct (preamble_framing preamble_to_json preamble json framed max Hj Hf ltac:(lia)) as [[Hend _] _]; [lia|].
    apply (Hend (concat (raw_zstd_frame chunks))).
  - apply to_framed_Ok in Hf as (json' & Hj' & ->). rewrite Hj in Hj'. injection Hj' as <-. done.
  - by apply preamble_for_ok.
  - by apply stored_frames.
  - done.
  - apply (normalize_hash_canonical HC), Hsha.
  - rewrite Hlong, Hlen. cbn [pre_nar_size preamble preamble_for]. change (en_size e) with size.
    unfold max_compressed_len. rewrite Z.max_l by lia. pose proof (bound_covers size (proj1 Hs)).
    assert (Hcount : (RAW_BLOCK * len_Z chunks < size + RAW_BLOCK)%Z).
    { pose proof (chunks_from_count (Z.to_nat RAW_BLOCK) (Z.to_nat size) (entry_rng (en_hash e)) (Z.to_nat size) ltac:(unfold RAW_BLOCK; lia)) as Hc.
      change (chunks_from _ _ _ _) with chunks in Hc.
      apply Nat2Z.inj_lt in Hc. rewrite Nat2Z.inj_mul, Nat2Z.inj_add, !Z2Nat.id in Hc by (unfold RAW_BLOCK; lia). exact Hc. }
    unfold COMPRESSED_SLACK, GIANT_SIZE, RAW_BLOCK, usize_max in *. lia.
Qed.
End honest.

(** ** Percentiles and retries *)

Lemma percentile_in l p : l ≠ [] → percentile l p ∈ l.
Proof.
  intros Hl. unfold percentile, percentile_index. destruct l as [|x l]; [done|]. cbn [is_nil].
  apply list_elem_of_In, nth_In. cbn [length]. lia.
Qed.

(** The rank is the nearest one, in integers, whatever binary64 rounds, on every
    corpus the harness is run with. *)
Lemma percentile_index_nearest :
  forallb (λ n, (percentile_index n percent_50 =? n / 2) && (percentile_index n percent_99 =? (99 * (n - 1) + 50) / 100)) (seq 1 500) = true.
Proof. vm_compute. reflexivity. Qed.

Section retries.
Context `{L : ClientLibs}.

Definition ev_sleep (e : Event BenchOp) : option Z :=
  match e with Ev op _ => match op with Bench_Sleep ms => Some ms | _ => None end end.
Definition ev_put (e : Event BenchOp) : option (string * Result Answer ReqwestError) :=
  match e with
  | Ev op b => match op in BenchOp B return B → option (string * Result Answer ReqwestError) with
               | Bench_Put url _ _ => λ b, Some (url, b) | _ => λ _, None end b
  end.

(** An answer that makes an upload count as pushed. *)
Definition acknowledged (url : string) (p : string * Result Answer ReqwestError) : Prop :=
  p.1 = url ∧ ∃ a, p.2 = Ok a ∧ retried (Ok a) = None ∧ settled a = Ok tt.

Fixpoint waits (n : nat) (attempt delay : Z) : list Z :=
  match n with 0 => [] | S n => (delay + attempt * 17)%Z :: waits n (attempt + 1) (delay * 2) end.

Lemma put_loop_spec tries attempt delay url token make_body tr r :
  run_trace (put_loop tries attempt delay url token make_body) tr r →
  length (omap ev_put tr) ≤ tries ∧ omap ev_sleep tr `prefix_of` waits tries attempt delay ∧
  (r = Ok tt → ∃ p, last (omap ev_put tr) = Some p ∧ acknowledged url p).
Proof.
  revert attempt delay tr. induction tries as [|tries IH]; intros attempt delay tr; cbn [put_loop].
  { intros [-> ->]%run_trace_ret. split_and!; [done|done|done]. }
  destruct make_body as [body|e]; [|intros [-> ->]%run_trace_ret; split_and!; [cbn; lia|apply prefix_nil|done]].
  intros (answer & tr1 & -> & H)%run_trace_request_bind. destruct (retried answer) as [counter|] eqn:Hr.
  - apply run_trace_request_bind in H as ([] & tr2 & -> & H). apply run_trace_request_bind in H as ([] & tr3 & -> & H).
    apply IH in H as (Hn & Hw & Hok). cbn. split_and!; [lia|by apply prefix_cons|].
    intros (p & Hl & Hp)%Hok. exists p. split; [|done]. change (last (omap ev_put tr3) = Some p) in Hl.
    destruct (omap ev_put tr3) as [|q l]; [done|]. by rewrite last_cons_cons.
  - apply run_trace_ret in H as [-> ->]. cbn. split_and!; [lia|apply prefix_nil|]. intros Hs. eexists. split; [done|].
    destruct answer as [a|e]; [|done]. split; [done|]. by exists a.
Qed.

(** At most six PUTs, with waits that double between them, and success only on an
    acknowledgement. *)
Lemma put_with_retry_spec url token make_body tr r :
  run_trace (put_with_retry url token make_body) tr r →
  length (omap ev_put tr) ≤ 6 ∧ omap ev_sleep tr `prefix_of` [100; 217; 434; 851; 1668; 3285]%Z ∧
  (r = Ok tt → ∃ p, p ∈ omap ev_put tr ∧ acknowledged url p).
Proof.
  intros (Hn & Hw & Hok)%put_loop_spec. split_and!; [done|done|].
  intros (p & Hl & Hp)%Hok. exists p. split; [by apply last_Some_elem_of|done].
Qed.
End retries.

(** ** What a PASS means *)

Section passes.
Context `{L : ClientLibs, C : Crypto, Zs : Zstd} (encode_all : list Z → Z → Result (list Z) string).

Lemma push_results_clean args corpus wire shed dropped wall baseline latencies :
  pr_zero_failures (push_results args corpus wire shed dropped wall baseline latencies) = true →
  Forall (λ o, is_Some o.2) latencies.
Proof.
  cbn. intros Hn%Nat.eqb_eq%length_zero_iff_nil. apply Forall_forall. intros o Ho. destruct (o.2) eqn:E; [done|].
  assert (o ∈ filter (λ o, o.2 = None) latencies) as Hin by (by apply list_elem_of_filter).
  rewrite Hn in Hin. by apply elem_of_nil in Hin.
Qed.

Lemma collect_micros_length nar gots :
  length (collect_micros nar gots) = length (filter (λ g, got_is_nar g = nar ∧ got_ok g = true) gots).
Proof. unfold collect_micros, sorted_Z. by rewrite order_by_perm, length_map. Qed.

Lemma both_kinds gots :
  length (filter (λ g, got_is_nar g = false ∧ got_ok g = true) gots) + length (filter (λ g, got_is_nar g = true ∧ got_ok g = true) gots) =
  length (filter (λ g, got_ok g = true) gots).
Proof.
  induction gots as [|g gots IH]; [done|]. rewrite !filter_cons.
  destruct (got_is_nar g), (got_ok g); repeat case_decide; cbn in *; try lia; naive_solver.
Qed.

Lemma pull_results_clean concurrency passes total wall gots :
  pl_failed (pull_results concurrency passes total wall gots) = 0 → total ≤ length (filter (λ g, got_ok g = true) gots).
Proof. cbn. rewrite !collect_micros_length, <-both_kinds. lia. Qed.

(** An upload of [e] was acknowledged in the run. *)
Definition uploaded (endpoint : string) (tr : list (Event BenchOp)) (e : Entry) : Prop :=
  ∃ p, p ∈ omap ev_put tr ∧ acknowledged (bench_upload_url endpoint e) p.

Lemma uploaded_within endpoint tr tr' e : tr ⊆ tr' → uploaded endpoint tr e → uploaded endpoint tr' e.
Proof. intros Hs (p & (ev & Hin & Hp)%list_elem_of_omap & Ha). exists p. split; [|done]. apply list_elem_of_omap. exists ev. auto. Qed.

Lemma push_uploads endpoint token e level tr :
  run_trace (push encode_all endpoint token e level) tr (Ok tt) → uploaded endpoint tr e.
Proof.
  unfold push. cbn [prog_bind]. destruct (to_framed _ _) as [framed|]; [|by intros [_ [=]]%run_trace_ret]. cbn [prog_bind].
  destruct (map_err _ _) as [compressed|]; [|by intros [_ [=]]%run_trace_ret].
  intros ([] & tr1 & -> & H)%run_trace_request_bind. apply put_with_retry_spec in H as (_ & _ & Hok).
  apply (uploaded_within endpoint tr1); [set_solver|by apply Hok].
Qed.

Lemma baseline_uploads endpoint token level entries tr l :
  run_trace (run_baseline encode_all endpoint token level entries) tr (Ok l) → Forall (uploaded endpoint tr) entries.
Proof.
  revert tr l. induction entries as [|e entries IH]; intros tr l; [constructor|]. cbn [run_baseline].
  intros (started & tr1 & -> & H)%run_trace_request_bind. apply run_trace_bind in H as (r & tr2 & tr3 & -> & Hp & H).
  destruct r as [[]|]; [|by apply run_trace_ret in H as [_ [=]]].
  apply run_trace_request_bind in H as (ended & tr4 & -> & H). apply run_trace_bind in H as (r & tr5 & tr6 & -> & Hb & H).
  destruct r as [rest|]; [|by apply run_trace_ret in H as [_ [=]]]. apply run_trace_ret in H as [-> _].
  apply push_uploads in Hp. apply IH in Hb. constructor.
  - apply (uploaded_within endpoint tr2); [set_solver|done].
  - eapply Forall_impl; [exact Hb|]. intros e' He'. apply (uploaded_within endpoint tr5); [set_solver|done].
Qed.

Lemma stream_reps_upload endpoint token seed size salt reps tr walls :
  run_trace (stream_reps endpoint token seed size salt reps) tr (walls, 0) →
  Forall (λ rep, uploaded endpoint tr (stream_entry seed size (Z.of_nat rep) salt)) reps.
Proof.
  revert tr walls. induction reps as [|rep reps IH]; intros tr walls; [constructor|]. cbn [stream_reps].
  intros (started & tr1 & -> & H)%run_trace_request_bind. apply run_trace_bind in H as (r & tr2 & tr3 & -> & Hp & H).
  destruct r as [[]|]; [|by apply run_trace_bind in H as (? & ? & ? & _ & _ & [_ [=]]%run_trace_ret)].
  apply run_trace_request_bind in H as (ended & tr4 & -> & H). apply run_trace_bind in H as ([w f] & tr5 & tr6 & -> & Hb & H).
  apply run_trace_ret in H as [-> [= -> <-]]. apply put_with_retry_spec in Hp as (_ & _ & Hok). apply IH in Hb. constructor.
  - apply (uploaded_within endpoint tr2); [set_solver|by apply Hok].
  - eapply Forall_impl; [exact Hb|]. intros rep' He'. apply (uploaded_within endpoint tr5); [set_solver|done].
Qed.

Lemma stream_sizes_upload endpoint token seed salt sizes tr results :
  run_trace (stream_sizes endpoint token seed salt sizes) tr results →
  existsb (λ r, 0 <? sr_failed r) results = false →
  ∀ size n rep, (size, n) ∈ sizes → rep < n → uploaded endpoint tr (stream_entry seed size (Z.of_nat rep) salt).
Proof.
  revert tr results. induction sizes as [|[size n] sizes IH]; intros tr results; [by intros _ _ ? ? ? ?%elem_of_nil|]. cbn [stream_sizes].
  intros ([] & tr1 & -> & H)%run_trace_request_bind. apply run_trace_bind in H as ([walls failed] & tr2 & tr3 & -> & Hw & H).
  apply run_trace_request_bind in H as (shed & tr4 & -> & H). apply run_trace_request_bind in H as (dropped & tr5 & -> & H).
  apply run_trace_bind in H as (rest & tr6 & tr7 & -> & Hr & H). apply run_trace_ret in H as [-> ->].
  cbn [existsb sr_failed stream_result fst snd]. intros [Hf Hrest]%orb_false_iff. intros size' n' rep [[= -> ->]|Hin]%elem_of_cons Hrep.
  - apply Nat.ltb_ge in Hf. replace failed with 0 in Hw by lia. apply stream_reps_upload in Hw. rewrite Forall_forall in Hw.
    apply (uploaded_within endpoint tr2); [set_solver|]. apply Hw, elem_of_seq. lia.
  - apply (uploaded_within endpoint tr6); [set_solver|]. by eapply IH.
Qed.

Lemma pull_steps_clean puller passes entries sweep tr results :
  run_trace (pull_steps puller passes entries sweep) tr results → sum_list (map pl_failed results) = 0 →
  ∀ c, c ∈ sweep → ∃ gots, Ev (Bench_Gets c (pull_requests puller passes entries)) gots ∈ tr ∧
    length (pull_requests puller passes entries) ≤ length (filter (λ g, got_ok g = true) gots).
Proof.
  revert tr results. induction sweep as [|c sweep IH]; intros tr results; [by intros _ _ ? ?%elem_of_nil|]. cbn [pull_steps].
  intros (result & tr1 & tr2 & -> & Hs & H)%run_trace_bind. apply run_trace_bind in H as (rest & tr3 & tr4 & -> & Hr & H).
  apply run_trace_ret in H as [-> ->]. intros Hsum c' Hc.
  assert (Hz : pl_failed result = 0 ∧ sum_list (map pl_failed rest) = 0) by (cbn in Hsum; lia).
  destruct Hz as [Hz Hrest]. apply elem_of_cons in Hc as [->|Hin].
  - unfold pull_step in Hs. apply run_trace_request_bind in Hs as (started & tr5 & -> & Hs).
    apply run_trace_request_bind in Hs as (gots & tr6 & -> & Hs). apply run_trace_request_bind in Hs as (ended & tr7 & -> & Hs).
    apply run_trace_ret in Hs as [-> ->]. exists gots. split; [set_solver|]. by eapply pull_results_clean.
  - destruct (IH _ _ Hr Hrest c' Hin) as (gots & Hg & Hn). exists gots. split; [set_solver|done].
Qed.

Lemma verdict_ok push budget stream pull :
  verdict push budget stream pull = Ok tt →
  (∀ results, push = Some results → pr_zero_failures results = true ∧
    ∀ b, budget = Some b → SFltb b (pr_p99_slowdown results) = false) ∧
  (∀ results, stream = Some results → existsb (λ r, 0 <? sr_failed r) results = false) ∧
  (∀ results, pull = Some results → sum_list (map pl_failed results) = 0).
Proof.
  unfold verdict. intros Hv. split_and!; intros results ->.
  - destruct (pr_zero_failures results); [|done]. split; [done|]. intros b ->. by destruct (SFltb b (pr_p99_slowdown results)).
  - destruct (match push with None => _ | Some _ => _ end) as [[]|]; [|done]. by destruct (existsb _ results).
  - destruct (match push with None => _ | Some _ => _ end) as [[]|]; [|done].
    destruct (match stream with None => _ | Some _ => _ end) as [[]|]; [|done].
    destruct (Nat.ltb_spec 0 (sum_list (map pl_failed results))); [done|lia].
Qed.

Lemma run_push_trace seed count endpoint token args tr results :
  run_trace (run_push encode_all seed count endpoint token args) tr (Some (Ok results)) →
  (∃ baseline, rekey (generate seed count false) = Some baseline ∧ Forall (uploaded endpoint tr) baseline) ∧
  ∃ latencies, Ev (Bench_Load (pa_concurrency args) (generate seed count (pa_with_giant args))) latencies ∈ tr ∧
    (pr_zero_failures results = true → Forall (λ o, is_Some o.2) latencies).
Proof.
  unfold run_push. destruct (rekey _) as [baseline|]; [|by intros [_ [=]]%run_trace_ret].
  intros ([] & tr1 & -> & H)%run_trace_request_bind. apply run_trace_bind in H as (r & tr2 & tr3 & -> & Hb & H).
  destruct r as [times|]; [|by apply run_trace_ret in H as [_ [=]]]. apply baseline_uploads in Hb.
  apply run_trace_request_bind in H as ([] & tr4 & -> & H). apply run_trace_request_bind in H as (started & tr5 & -> & H).
  apply run_trace_request_bind in H as (latencies & tr6 & -> & H). apply run_trace_request_bind in H as (ended & tr7 & -> & H).
  apply run_trace_request_bind in H as (wire & tr8 & -> & H). apply run_trace_request_bind in H as (shed & tr9 & -> & H).
  apply run_trace_request_bind in H as (dropped & tr10 & -> & H). apply run_trace_ret in H as [-> [= ->]]. split.
  - exists baseline. split; [done|]. eapply Forall_impl; [exact Hb|]. intros e. apply uploaded_within. set_solver.
  - exists latencies. split; [set_solver|apply push_results_clean].
Qed.

Lemma when_asked_trace {A B} (args : option A) (run : A → Bench B) tr r :
  run_trace (when_asked args run) tr r →
  match args with Some args => ∃ b, r = Some b ∧ run_trace (run args) tr b | None => r = None end.
Proof.
  destruct args as [args|]; cbn; [|by intros [_ ->]%run_trace_ret].
  intros (b & tr1 & tr2 & -> & H & [-> ->]%run_trace_ret)%run_trace_bind. exists b. by rewrite app_nil_r.
Qed.

(** When garret-bench passes, nothing failed: the baseline uploaded the whole corpus under other
    keys, every push of the load went well, every repetition of every stream size was uploaded, and
    every pull got the answer its kind should get, in each step of the sweep. *)
Theorem bench_passes_clean cli timestamp tr :
  run_trace (bench_main encode_all cli timestamp) tr (Some (Ok tt)) →
  (∀ args, bc_push cli = Some args →
    (∃ baseline, rekey (generate (bc_seed cli) (bc_count cli) false) = Some baseline ∧
      Forall (uploaded (bc_endpoint cli) tr) baseline) ∧
    ∃ latencies,
      Ev (Bench_Load (pa_concurrency args) (generate (bc_seed cli) (bc_count cli) (pa_with_giant args))) latencies ∈ tr ∧
      Forall (λ o, is_Some o.2) latencies) ∧
  (∀ reps no_giant, bc_stream cli = Some (reps, no_giant) →
    ∀ size n rep, (size, n) ∈ stream_plan reps no_giant → rep < n →
      uploaded (bc_endpoint cli) tr (stream_entry (bc_seed cli) size (Z.of_nat rep) (wrap64 timestamp))) ∧
  (∀ puller passes sweep, bc_pull cli = Some (puller, passes, sweep) →
    ∀ c, c ∈ sweep → ∃ gots,
      Ev (Bench_Gets c (pull_requests puller passes (generate (bc_seed cli) (bc_count cli) false))) gots ∈ tr ∧
      length (pull_requests puller passes (generate (bc_seed cli) (bc_count cli) false)) ≤ length (filter (λ g, got_ok g = true) gots)).
Proof.
  unfold bench_main. intros (token & tr1 & tr2 & -> & _ & H)%run_trace_bind.
  destruct token as [token|]; [|by apply run_trace_ret in H as [_ [=]]].
  apply run_trace_bind in H as (push & tr3 & tr4 & -> & Hpush%when_asked_trace & H).
  destruct (push_outcome push) as [[results|]|] eqn:Ho; [|by apply run_trace_ret in H as [_ [=]]..].
  apply run_trace_bind in H as (stream & tr5 & tr6 & -> & Hstream%when_asked_trace & H).
  apply run_trace_bind in H as (pull & tr7 & tr8 & -> & Hpull%when_asked_trace & H).
  apply run_trace_bind in H as (written & tr9 & tr10 & -> & _ & H). apply run_trace_ret in H as [-> [= Hv]].
  destruct written as [[]|]; [|done]. symmetry in Hv. apply verdict_ok in Hv as (Hv1 & Hv2 & Hv3). split_and!.
  - intros args Hargs. rewrite Hargs in Hpush. destruct Hpush as (b & -> & Hb).
    destruct b as [[r|]|]; [injection Ho as <-|done..]. apply run_push_trace in Hb as ((baseline & Hr & Hu) & latencies & Hl & Hz). split.
    + exists baseline. split; [done|]. eapply Forall_impl; [exact Hu|]. intros e. apply uploaded_within. set_solver.
    + exists latencies. split; [set_solver|]. by apply Hz, Hv1.
  - intros reps no_giant Hargs size n rep Hin Hrep. rewrite Hargs in Hstream. destruct Hstream as (b & -> & Hb).
    apply (uploaded_within _ tr5); [set_solver|]. eapply stream_sizes_upload; [exact Hb|by apply Hv2|exact Hin|exact Hrep].
  - intros puller passes sweep Hargs c Hc. rewrite Hargs in Hpull. destruct Hpull as (b & -> & Hb).
    destruct (pull_steps_clean _ _ _ _ _ _ Hb (Hv3 _ eq_refl) c Hc) as (gots & Hg & Hn). exists gots. split; [set_solver|done].
Qed.
End passes.

(** ** Examples *)

(** A decoder for stored frames only, and a digest of the right length. *)
Definition stored_zstd : Zstd := {|
  Decoder := unit;
  dec_new _ := Ok tt;
  dec_run _ _ _ := Err "not a streaming decoder";
  compress_bound n := n;
  sha256 bytes := repeat (len_Z bytes mod 256)%Z 32;
|}.

Lemma stored_zstd_laws : StoredLaws (Zs := stored_zstd) read_stored_frame.
Proof. by split. Qed.

Lemma streamed_upload_is_honest_witness :
  let e := stream_entry 42 20 0 0 in
  let preamble := preamble_for e (nar_hash (C := toy_crypto) (Zs := stored_zstd) (entry_chunks e (Z.to_nat RAW_BLOCK))) in
  ∃ body framed frame, stream_body (L := toy_client) e (pre_nar_hash preamble) = Ok body ∧ concat body = framed ++ frame ∧
    preamble_end (concat body) 100 = Ok (Some (len_Z framed)) ∧
    read_stored_frame frame = Some (concat (entry_chunks e 8)).
Proof.
  intros e preamble.
  assert (Hbody : ∃ body, stream_body (L := toy_client) e (pre_nar_hash preamble) = Ok body) by (eexists; reflexivity).
  destruct Hbody as [body Hbody]. exists body.
  destruct (streamed_upload_is_honest (L := toy_client) (C := toy_crypto) (Zs := stored_zstd)
    read_stored_frame (StoredLaws0 := stored_zstd_laws) toy_crypto_laws (λ _, eq_refl) 42 20 0 0 body 100 [123; 125]%Z
    ltac:(by vm_compute) ltac:(by vm_compute) Hbody eq_refl ltac:(by vm_compute))
    as (framed & frame & Hb & He & _ & _ & Hz & _).
  exists framed, frame. split; [exact Hbody|]. split; [exact Hb|]. split; [exact He|].
  fold e in Hz. rewrite Hz. f_equal.
Defined.

(** Two entries pushed, and pulled by one client and then by two. *)
Definition example_bench_cli : BenchCli :=
  mkBenchCli "https://push.example" (Some "t") 13 1 None (Some (mkPushArgs 20 false 3 None)) (Some (0, true))
    (Some ("https://cache.example", 1, [1; 2])).

Definition example_bench_answers (now : Z) {B} (op : BenchOp B) : B * Z :=
  match op in BenchOp B return B * Z with
  | Bench_Now => (now, (now + 7000000)%Z)
  | Bench_Put _ _ _ => (Ok (mkAnswer 200 None (Ok "created")), now)
  | Bench_Count _ _ => (tt, now)
  | Bench_Read _ => (0%Z, now)
  | Bench_Reset => (tt, now)
  | Bench_Sleep _ => (tt, now)
  | Bench_Load _ entries => (imap (λ i _, (i, Some 9000000%Z)) entries, now)
  | Bench_Token => (Err "no configuration", now)
  | Bench_WriteReport _ => (Ok tt, now)
  | Bench_Gets _ requests => (map (λ r, mkGot r.2 (Ok (if r.2 : bool then 307 else 200)%Z) 500) requests, now)
  end.

Abbreviation example_bench_program :=
  (bench_main (L := toy_client) (C := toy_crypto) (Zs := stored_zstd) (λ _ _, Ok []) example_bench_cli 1000%Z).

Lemma bench_passes_clean_witness :
  ∃ tr, run_trace example_bench_program tr (Some (Ok tt)) ∧
  ∃ baseline, rekey (generate 13 1 false) = Some baseline ∧
    Forall (uploaded (L := toy_client) "https://push.example" tr) baseline.
Proof.
  assert (Hok : ∀ tr, run_trace example_bench_program tr (Some (Ok tt)) →
    ∃ baseline, rekey (generate 13 1 false) = Some baseline ∧
      Forall (uploaded (L := toy_client) "https://push.example" tr) baseline).
  { intros tr Htr. apply (bench_passes_clean (L := toy_client) (C := toy_crypto) (Zs := stored_zstd) (λ _ _, Ok [])) in Htr as [H _].
    exact (proj1 (H _ eq_refl)). }
  assert (Hr : (prog_exec (@example_bench_answers) 0%Z example_bench_program).2 = Some (Ok tt)) by (vm_compute; reflexivity).
  assert (Hex : ∀ A (p : Bench A) r, (prog_exec (@example_bench_answers) 0%Z p).2 = r →
    ∃ tr, run_trace p tr r).
  { intros A p r <-. eexists. eapply prog_runs_trace, (prog_exec_runs (λ _ _ _ _ _, True)). done. }
  destruct (Hex _ _ _ Hr) as [tr Htr]. exists tr. split; [exact Htr|exact (Hok tr Htr)].
Defined.
