(* ===== verification/Routes.v ===== *)
(** * Routes: what each service answers where, and to whom

    The routers of [crates/garret-pusher/src/main.rs] and
    [crates/garret-puller/src/main.rs] with their middleware ([require_oidc],
    [require_browse_oidc]) in front of the handlers of Pusher and Puller. axum's
    matching of a request to a route, its extractors and serde_json's printer
    are parameters. A router is the table its builder makes: [route] adds a
    row, [route_layer] puts a guard before the rows added so far. Metrics,
    logging and the content types axum adds itself are left out. *)

From stdpp Require Import pretty.
From S2P Require Import Prelude Text Common Prog Db Storage World Narinfo Verify Upload Push Settings Token Doctor Config Auth Browse Pusher Puller.

(** ** Requests and responses *)

Inductive Method := GET | POST | PUT.

Record Request (Body : Type) := mkRequest {
  rq_method : string;
  rq_path : string;
  (** The [Authorization] header, if it is readable text. *)
  rq_authorization : option string;
  rq_query : string;
  rq_body : Body;
}.
Arguments mkRequest {Body} _ _ _ _ _.
Arguments rq_method {Body} _.
Arguments rq_path {Body} _.
Arguments rq_authorization {Body} _.
Arguments rq_query {Body} _.
Arguments rq_body {Body} _.

Record HttpResponse := mkHttp {
  hr_status : Z;
  hr_headers : list (string * string);
  hr_body : string;
}.

(** Which row a request reaches, with its path parameter. *)
Inductive Dispatch := Reached (row : nat) (param : string) | No_Route | Wrong_Method.

(** axum: matching and extractors, which answer themselves when they fail. *)
Class Axum (Body : Type) := {
  dispatch : list (Method * string) → string → string → Dispatch;
  extract_hashes : Body → Result (list string) HttpResponse;
  extract_query : string → Result ListQuery HttpResponse;
}.

(** serde_json's printer. *)
Class ResponseJson := {
  error_json : string → string;
  hashes_json : list string → string;
  ack_json : UploadAck → string;
  page_json : Page → string;
  detail_json : ObjectDetail → string;
  tree_json : TreeNode → string;
  summaries_json : list Summary → string;
  pins_json : list Pin → string;
}.

(** ** Routers *)

Record Route (Endpoint : Type) := mkRoute {
  rt_method : Method;
  rt_pattern : string;
  rt_guarded : bool;
  rt_endpoint : Endpoint;
}.
Arguments mkRoute {Endpoint} _ _ _ _.
Arguments rt_method {Endpoint} _.
Arguments rt_pattern {Endpoint} _.
Arguments rt_guarded {Endpoint} _.
Arguments rt_endpoint {Endpoint} _.

Definition Router (Endpoint : Type) : Type := list (Route Endpoint).

Definition route {E} (method : Method) (pattern : string) (endpoint : E) (router : Router E) : Router E :=
  router ++ [mkRoute method pattern false endpoint].

Definition route_layer {E} (router : Router E) : Router E :=
  map (λ r, mkRoute (rt_method r) (rt_pattern r) true (rt_endpoint r)) router.

(** A service's requests: its authenticator's and its handlers'. *)
Inductive WebOp `{J : Jwt} (Served : Type → Type) : Type → Type :=
  | Web_Auth {B} (op : AuthOp B) : WebOp Served B
  | Web_Serve {B} (op : Served B) : WebOp Served B.
Arguments Web_Auth {J Served B} op.
Arguments Web_Serve {J Served B} op.

Section serving.
Context `{J : Jwt} {Served : Type → Type}.

Abbreviation Web := (Prog (WebOp Served)).

Definition rejected (rejection : Rejection) (body : string) : HttpResponse :=
  let '(status, bearer) := respond rejection in
  mkHttp status (if bearer then [("www-authenticate", "Bearer")] else []) body.

(** The middleware: [next] runs for a subject only. *)
Definition require_bearer (issuers : list IssuerConfig) (authorization : option string) (body : Rejection → string)
    (next : string → Web HttpResponse) : Web HttpResponse :=
  do verdict <- prog_lift (@Web_Auth J Served) (bearer issuers authorization);
  match verdict with
  | Ok subject => next subject
  | Err rejection => Ret (rejected rejection (body rejection))
  end.

(** A handler without a guard finds no subject. *)
Definition serve_request {Body E} `{A : Axum Body} (router : Router E) (guard : (string → Web HttpResponse) → Web HttpResponse)
    (handle : E → string → option string → Web HttpResponse) (rq : Request Body) : Web HttpResponse :=
  match dispatch (map (λ r, (rt_method r, rt_pattern r)) router) (rq_method rq) (rq_path rq) with
  | No_Route => Ret (mkHttp 404 [] "")
  | Wrong_Method => Ret (mkHttp 405 [] "")
  | Reached row param =>
      match router !! row with
      | None => Ret (mkHttp 404 [] "")
      | Some r =>
          if rt_guarded r then guard (λ subject, handle (rt_endpoint r) param (Some subject))
          else handle (rt_endpoint r) param None
      end
  end.
End serving.

(** ** The Pusher's *)

Inductive PusherEndpoint := Ep_MissingPaths | Ep_Upload | Ep_Discovery.

(** Discovery is added after the layer, so it stays anonymous. *)
Definition pusher_router : Router PusherEndpoint :=
  route GET DISCOVERY Ep_Discovery
    (route_layer (route PUT NAR_UPLOAD Ep_Upload (route POST MISSING_PATHS Ep_MissingPaths []))).

Section pusher.
Context `{R : ResponseJson}.

Definition into_response (e : HttpError) : HttpResponse :=
  mkHttp (er_status e) (if er_retry_after e then [("retry-after", "1")] else []) (error_json (er_message e)).

Definition rejection_error (r : Rejection) : string :=
  match r with
  | Rej_Missing => "missing bearer token"
  | Rej_Invalid _ => "invalid token"
  | Rej_Refused _ => "not authorized"
  end.

Definition ack_response (answer : Result UploadAck HttpError) : HttpResponse :=
  match answer with
  | Ok ack => mkHttp (ack_status ack) [] (ack_json ack)
  | Err e => into_response e
  end.

Definition missing_response (answer : Result (list string) HttpError) : HttpResponse :=
  match answer with
  | Ok missing => mkHttp 200 [] (hashes_json missing)
  | Err e => into_response e
  end.

Context `{Jw : Jwt, Js : Json, C : Crypto, Zs : Zstd} {Body : Type} `{St : ByteStream Body, A : Axum Body}.

(** axum's answer where a handler wants a subject and no middleware left one. *)
Definition missing_extension : HttpResponse := mkHttp 500 [] "Missing request extension".

(** [notices] and [dies]: the check thread's timing (see Verify). *)
Definition pusher_handle (state : UploadState) (discovery : string) (rq : Request Body) (notices : list bool) (dies : bool)
    (endpoint : PusherEndpoint) (param : string) (subject : option string) : Prog (WebOp Op) HttpResponse :=
  match endpoint, subject with
  | Ep_Discovery, _ => Ret (mkHttp 200 [("content-type", "application/json")] discovery)
  | Ep_MissingPaths, Some _ =>
      match extract_hashes (rq_body rq) with
      | Err rejected => Ret rejected
      | Ok hashes => do answer <- prog_lift (@Web_Serve Jw Op) (missing_paths hashes); Ret (missing_response answer)
      end
  | Ep_Upload, Some subject =>
      do answer <- prog_lift (@Web_Serve Jw Op) (upload state param subject (rq_body rq) notices dies); Ret (ack_response answer)
  | _, None => Ret missing_extension
  end.

Definition require_oidc (issuers : list IssuerConfig) (authorization : option string)
    (next : string → Prog (WebOp Op) HttpResponse) : Prog (WebOp Op) HttpResponse :=
  require_bearer issuers authorization (λ rejection, error_json (rejection_error rejection)) next.

Definition pusher_app (issuers : list IssuerConfig) (state : UploadState) (discovery : string) (rq : Request Body)
    (notices : list bool) (dies : bool) : Prog (WebOp Op) HttpResponse :=
  serve_request pusher_router (require_oidc issuers (rq_authorization rq)) (pusher_handle state discovery rq notices dies) rq.
End pusher.

(** ** The Puller's *)

Inductive PullerEndpoint :=
  | Ep_CacheInfo | Ep_Ready | Ep_ReadyDeep | Ep_Narinfo | Ep_Nar
  | Ep_Objects | Ep_Object | Ep_Tree | Ep_Referrers | Ep_Pins.

Definition pull_routes : Router PullerEndpoint :=
  route GET NAR_FILE Ep_Nar (route GET "/{file}" Ep_Narinfo []).

Definition browse_routes (issuer : option IssuerConfig) : Router PullerEndpoint :=
  match issuer with
  | None => []
  | Some _ =>
      route_layer
        (route GET PINS Ep_Pins (route GET OBJECT_REFERRERS Ep_Referrers (route GET OBJECT_TREE Ep_Tree
           (route GET OBJECT Ep_Object (route GET OBJECTS Ep_Objects [])))))
  end.

Definition puller_router (issuer : option IssuerConfig) : Router PullerEndpoint :=
  route GET "/ready/deep" Ep_ReadyDeep (route GET "/ready" Ep_Ready (route GET NIX_CACHE_INFO Ep_CacheInfo []))
  ++ pull_routes ++ browse_routes issuer.

Definition cache_info (store_dir : string) : string :=
  writeln ("StoreDir: " +:+ store_dir) +:+ writeln "WantMassQuery: 1" +:+ writeln "Priority: 40".

(** The handlers' requests, and the answer of [ready_deep], which shares its
    probe's cache with other requests. *)
Inductive PullerOp : Type → Type :=
  | Puller_Pull {B} (op : PullOp B) : PullerOp B
  | Puller_ReadyDeep : PullerOp Response.

Definition http_of (r : Response) : HttpResponse :=
  mkHttp (rs_status r)
    (match rs_content_type r with Some t => [("content-type", t)] | None => [] end ++
     match rs_location r with Some l => [("location", l)] | None => [] end) (rs_body r).

Definition browse_rejection (r : Rejection) : string :=
  match r with Rej_Refused _ => "not authorized" | Rej_Missing | Rej_Invalid _ => "unauthorized" end.

Section puller.
Context `{R : ResponseJson, Jw : Jwt} {Body : Type} `{A : Axum Body}.

Abbreviation Serving := (Prog (WebOp PullerOp)).

Definition pulled {A} (p : Pull A) : Serving A := prog_lift (λ B op, Web_Serve (@Puller_Pull B op)) p.

Definition browsed {A} (json : A → string) (p : Pull (Result A Response)) : Serving HttpResponse :=
  do answer <- pulled p;
  Ret (match answer with
       | Ok value => mkHttp 200 [] (json value)
       | Err response => http_of response
       end).

Definition puller_handle (state : PullState) (store_dir : string) (rq : Request Body) (endpoint : PullerEndpoint) (param : string)
    (subject : option string) : Serving HttpResponse :=
  match endpoint with
  | Ep_CacheInfo => Ret (mkHttp 200 [] (cache_info store_dir))
  | Ep_Ready => do opened <- pulled (request Pull_Opened); Ret (http_of (ready opened))
  | Ep_ReadyDeep => do response <- request (Web_Serve Puller_ReadyDeep); Ret (http_of response)
  | Ep_Narinfo => do outcome <- pulled (narinfo state param); Ret (http_of (counted outcome).2)
  | Ep_Nar => do outcome <- pulled (nar_redirect state param); Ret (http_of (counted outcome).2)
  | Ep_Objects =>
      match extract_query (rq_query rq) with
      | Err rejected => Ret rejected
      | Ok query => browsed page_json (list_objects query)
      end
  | Ep_Object => browsed detail_json (get_object_detail param)
  | Ep_Tree => browsed tree_json (object_tree param)
  | Ep_Referrers => browsed summaries_json (object_referrers param)
  | Ep_Pins => browsed pins_json get_pins
  end.

Definition require_browse_oidc (issuer : option IssuerConfig) (authorization : option string)
    (next : string → Serving HttpResponse) : Serving HttpResponse :=
  require_bearer (option_list issuer) authorization browse_rejection next.

Definition puller_app (issuer : option IssuerConfig) (state : PullState) (store_dir : string) (rq : Request Body)
    : Serving HttpResponse :=
  serve_request (puller_router issuer) (require_browse_oidc issuer (rq_authorization rq)) (puller_handle state store_dir rq) rq.
End puller.

(** ** What stands behind the guard *)

Section guard.
Context `{Jw : Jwt} {Served : Type → Type}.

Definition served_of (e : Event (WebOp Served)) : option (Event Served) :=
  match e with
  | Ev op b =>
      match op in WebOp _ B return B → option (Event Served) with
      | Web_Serve op => λ b, Some (Ev op b)
      | Web_Auth _ => λ _, None
      end b
  end.

(** What the handlers asked for. *)
Definition served (tr : list (Event (WebOp Served))) : list (Event Served) := omap served_of tr.

Lemma served_auth tr : served (map (lift_event (@Web_Auth Jw Served)) tr) = [].
Proof. unfold served. induction tr as [|[B op b] tr IH]; [done|exact IH]. Qed.

(** [subject] is that of a token a configured issuer's key vouches for and its
    policy grants. *)
Definition authorised (issuers : list IssuerConfig) (authorization : option string) (tr : list (Event AuthOp)) (subject : string) : Prop :=
  ∃ token cfg claims, authorization = Some ("Bearer " +:+ token) ∧ routed issuers token cfg ∧
    vouched cfg token tr claims ∧ granted cfg claims ∧ subject = cl_iss claims +:+ "#" +:+ cl_sub claims.

Lemma require_bearer_trace issuers authorization body next tr (r : HttpResponse) :
  run_trace (require_bearer issuers authorization body next) tr r →
  ∃ asked, (∃ rejection, tr = map (lift_event (@Web_Auth Jw Served)) asked ∧ r = rejected rejection (body rejection)) ∨
    ∃ subject after, tr = map (lift_event (@Web_Auth Jw Served)) asked ++ after ∧
      authorised issuers authorization asked subject ∧ run_trace (next subject) after r.
Proof.
  intros (verdict & tr1 & after & -> & (asked & -> & H)%run_trace_lift & Hr)%run_trace_bind. exists asked.
  apply bearer_verdict in H. destruct verdict as [subject|rejection].
  - right. by exists subject, after.
  - left. apply run_trace_ret in Hr as [-> ->]. exists rejection. by rewrite app_nil_r.
Qed.
End guard.

(** Answers of the router itself. *)
Definition not_routed (r : HttpResponse) : Prop := r = mkHttp 404 [] "" ∨ r = mkHttp 405 [] "".

Section pusher_gate.
Context `{R : ResponseJson, Jw : Jwt, Js : Json, C : Crypto, Zs : Zstd} {Body : Type} `{St : ByteStream Body, A : Axum Body}.

Lemma pusher_router_guards row rt :
  pusher_router !! row = Some rt → (rt_guarded rt = true ∧ rt_endpoint rt ≠ Ep_Discovery) ∨ (rt_guarded rt = false ∧ rt_endpoint rt = Ep_Discovery).
Proof.
  intros Hr%list_elem_of_lookup_2. revert Hr. unfold pusher_router. cbn. rewrite !elem_of_cons, elem_of_nil.
  intros H. repeat destruct H as [->|H]; [by left|by left|by right|done].
Qed.

(** What a handler the guard let through does. *)
Definition answered_for (state : UploadState) (rq : Request Body) (notices : list bool) (dies : bool) (subject : string)
    (after : list (Event Op)) (r : HttpResponse) : Prop :=
  (after = [] ∧ extract_hashes (rq_body rq) = Err r) ∨
  (∃ hashes answer, extract_hashes (rq_body rq) = Ok hashes ∧
     run_trace (missing_paths hashes) after answer ∧ r = missing_response answer) ∨
  (∃ hash answer, run_trace (upload state hash subject (rq_body rq) notices dies) after answer ∧ r = ack_response answer).

Lemma served_trace {B} (p : Prog Op B) (f : B → HttpResponse) tr r :
  run_trace (do answer <- prog_lift (@Web_Serve Jw Op) p; Ret (f answer)) tr r →
  ∃ after answer, tr = map (lift_event (@Web_Serve Jw Op)) after ∧ run_trace p after answer ∧ r = f answer.
Proof.
  intros (answer & tr1 & tr2 & -> & (t & -> & H)%run_trace_lift & [-> ->]%run_trace_ret)%run_trace_bind.
  exists t, answer. by rewrite app_nil_r.
Qed.

Lemma pusher_handle_trace state discovery rq notices dies endpoint param subject tr r :
  endpoint ≠ Ep_Discovery →
  run_trace (pusher_handle state discovery rq notices dies endpoint param (Some subject)) tr r →
  ∃ after, tr = map (lift_event (@Web_Serve Jw Op)) after ∧ answered_for state rq notices dies subject after r.
Proof.
  unfold pusher_handle, answered_for. destruct endpoint; [| |done]; intros _.
  - destruct (extract_hashes (rq_body rq)) as [hashes|rejected] eqn:Hx.
    + intros (after & answer & -> & H & ->)%served_trace. exists after. split; [done|]. right. left. by exists hashes, answer.
    + intros [-> ->]%run_trace_ret. exists []. split; [done|by left].
  - intros (after & answer & -> & H & ->)%served_trace. exists after. split; [done|]. right. right. by exists param, answer.
Qed.

(** C4: Behind the Pusher's router nothing runs without a token: a request either is not routed, or
    asks for the anonymous discovery document, which touches nothing, or is turned away with an
    answer that depends only on the kind of rejection and without one handler request, or its
    Authorization header carries a token that is routed to a configured issuer, vouched for by one
    of its keys and granted by its policy; then it is answered by the negotiation or the upload
    handler, the upload in the name of that token's issuer and subject. *)
Theorem pusher_needs_a_token issuers state discovery (rq : Request Body) notices dies tr r :
  run_trace (pusher_app issuers state discovery rq notices dies) tr r →
  (tr = [] ∧ (not_routed r ∨ r = mkHttp 200 [("content-type", "application/json")] discovery)) ∨
  (served tr = [] ∧ ∃ rejection, r = rejected rejection (error_json (rejection_error rejection))) ∨
  ∃ asked after subject, tr = map (lift_event (@Web_Auth Jw Op)) asked ++ map (lift_event (@Web_Serve Jw Op)) after ∧
    authorised issuers (rq_authorization rq) asked subject ∧ answered_for state rq notices dies subject after r.
Proof.
  unfold pusher_app, serve_request. destruct (dispatch _ _ _) as [row param| |].
  2,3: intros [-> ->]%run_trace_ret; left; split; [done|left]; (by left) || by right.
  destruct (pusher_router !! row) as [rt|] eqn:Hrow.
  2: intros [-> ->]%run_trace_ret; left; split; [done|left]; by left.
  apply pusher_router_guards in Hrow as [[-> Hd]|[-> ->]].
  - intros (asked & [(rejection & -> & ->)|(subject & tra & -> & Hs & H)])%require_bearer_trace; right.
    + left. rewrite served_auth. eauto.
    + right. apply pusher_handle_trace in H as (after & -> & H); [|done]. by exists asked, after, subject.
  - intros [-> ->]%run_trace_ret. left. split; [done|by right].
Qed.
End pusher_gate.

(** Routes anyone may ask. *)
Definition anonymous (e : PullerEndpoint) : bool :=
  match e with
  | Ep_CacheInfo | Ep_Ready | Ep_ReadyDeep | Ep_Narinfo | Ep_Nar => true
  | Ep_Objects | Ep_Object | Ep_Tree | Ep_Referrers | Ep_Pins => false
  end.

Lemma puller_router_guards issuer row r :
  puller_router issuer !! row = Some r → rt_guarded r = negb (anonymous (rt_endpoint r)) ∧ (rt_guarded r = true → is_Some issuer).
Proof.
  intros Hr%list_elem_of_lookup_2. revert Hr. destruct issuer as [cfg|]; unfold puller_router; cbn; rewrite !elem_of_cons, elem_of_nil;
    intros H; repeat destruct H as [->|H]; by try split.
Qed.

Section puller_gate.
Context `{R : ResponseJson, Jw : Jwt} {Body : Type} `{A : Axum Body}.

(** The Puller's browse routes exist only where an issuer is configured, and answer only a token
    that issuer vouches for and grants; every other answer is of the routes anyone may ask, of the
    router itself, or a rejection before any handler request. *)
Theorem browse_needs_a_token issuer state store_dir (rq : Request Body) tr r :
  run_trace (puller_app issuer state store_dir rq) tr r →
  (served tr = [] ∧ (not_routed r ∨ ∃ rejection, r = rejected rejection (browse_rejection rejection))) ∨
  (∃ endpoint param, anonymous endpoint = true ∧ run_trace (puller_handle state store_dir rq endpoint param None) tr r) ∨
  (∃ cfg subject asked after endpoint param, issuer = Some cfg ∧ anonymous endpoint = false ∧
     tr = map (lift_event (@Web_Auth Jw PullerOp)) asked ++ after ∧
     authorised [cfg] (rq_authorization rq) asked subject ∧
     run_trace (puller_handle state store_dir rq endpoint param (Some subject)) after r).
Proof.
  unfold puller_app, serve_request. destruct (dispatch _ _ _) as [row param| |].
  2,3: intros [-> ->]%run_trace_ret; left; split; [done|left]; (by left) || by right.
  destruct (puller_router issuer !! row) as [rt|] eqn:Hrow.
  2: intros [-> ->]%run_trace_ret; left; split; [done|left]; by left.
  apply puller_router_guards in Hrow as [Hg Hi]. destruct (rt_guarded rt).
  - destruct (Hi eq_refl) as [cfg ->].
    intros (asked & [(rejection & -> & ->)|(subject & after & -> & Hs & H)])%require_bearer_trace.
    + left. rewrite served_auth. eauto.
    + right. right. exists cfg, subject, asked, after, (rt_endpoint rt), param. split_and!; [done| |done..]. by destruct (anonymous _).
  - intros H. right. left. exists (rt_endpoint rt), param. split; [by destruct (anonymous _)|done].
Qed.
End puller_gate.

(** [doctor] knows the document the Puller serves. *)
Lemma cache_info_recognised store_dir : plain_line ("StoreDir: " +:+ store_dir) → cache_info_ok (cache_info store_dir) = true.
Proof.
  intros [Hn Hcr]. unfold cache_info_ok, cache_info, text_lines. rewrite text_lines_from_writeln by done.
  rewrite str_app_nil_l, Hcr. cbn [existsb]. apply orb_true_iff. left. apply starts_with_spec. by eexists (" " +:+ store_dir).
Qed.

(** ** Examples *)

(** A matcher for patterns that are a path, or end in one parameter. *)
Definition matches (pattern path : string) : option string :=
  match str_split_once "{" pattern with
  | None => if bool_decide (pattern = path) then Some "" else None
  | Some (before, _) =>
      rest ← strip_prefix before path;
      if ascii_mem (ascii_of_nat 47) rest || bool_decide (rest = "") then None else Some rest
  end.

Definition method_name (m : Method) : string := match m with GET => "GET" | POST => "POST" | PUT => "PUT" end.

Definition toy_axum : Axum (list Item) := {|
  dispatch table method path :=
    match list_find (λ row, is_Some (matches row.2 path)) table with
    | None => No_Route
    | Some (i, (m, pattern)) =>
        if bool_decide (method_name m = method) then Reached i (default "" (matches pattern path)) else Wrong_Method
    end;
  extract_hashes _ := Ok ["0123456789abcdfghijklmnpqrsvwxyz"];
  extract_query _ := Ok (mkListQuery None None None);
|}.

Definition toy_responses : ResponseJson := {|
  error_json message := "error: " +:+ message;
  hashes_json hashes := str_join "," hashes;
  ack_json ack := match ack with Ack_Created => "created" | Ack_Exists => "exists" | Ack_InProgress => "in-progress" end;
  page_json _ := "page";
  detail_json _ := "detail";
  tree_json _ := "tree";
  summaries_json _ := "summaries";
  pins_json _ := "pins";
|}.

Definition example_request (method path : string) (authorization : option string) : Request (list Item) :=
  mkRequest method path authorization "" [].

(** A key in the cache, an empty database. *)
Definition example_pusher_answers (w : unit) {B} (op : WebOp (J := toy_jwt) Op B) : B * unit :=
  match op in WebOp _ B return B * unit with
  | Web_Auth op =>
      match op in AuthOp B return B * unit with
      | Auth_CachedKey _ _ => ((Some 7, false), w)
      | Auth_Refresh _ => (false, w)
      | Auth_Await _ => (Ok tt, w)
      end
  | Web_Serve op => ((answer 0 world_empty ∅ op).1.1, w)
  end.

Definition example_ask (method path : string) (authorization : option string) : list (Event (WebOp (J := toy_jwt) Op)) * unit * HttpResponse :=
  prog_exec (@example_pusher_answers) tt
    (pusher_app (R := toy_responses) (Jw := toy_jwt) (Js := toy_json) (C := toy_crypto) (Zs := toy_zstd) (A := toy_axum) [github_issuer]
       example_state "{}" (example_request method path authorization) [] false).

Lemma pusher_needs_a_token_witness :
  (example_ask "POST" MISSING_PATHS (Some "Bearer h.p.s")).2 = mkHttp 200 [] "0123456789abcdfghijklmnpqrsvwxyz" ∧
  (example_ask "POST" MISSING_PATHS None).2 = mkHttp 401 [("www-authenticate", "Bearer")] "error: missing bearer token" ∧
  (example_ask "GET" DISCOVERY None).2 = mkHttp 200 [("content-type", "application/json")] "{}" ∧
  (example_ask "GET" "/api/v1/nar/x" None).2 = mkHttp 405 [] "" ∧
  ∃ asked subject, authorised (Jw := toy_jwt) [github_issuer] (Some "Bearer h.p.s") asked subject.
Proof.
  do 4 (split; [vm_compute; reflexivity|]).
  destruct (pusher_needs_a_token (R := toy_responses) (Jw := toy_jwt) (Js := toy_json) (C := toy_crypto) (Zs := toy_zstd) (A := toy_axum)
    [github_issuer] example_state "{}" (example_request "POST" MISSING_PATHS (Some "Bearer h.p.s")) [] false
    (example_ask "POST" MISSING_PATHS (Some "Bearer h.p.s")).1.1 (example_ask "POST" MISSING_PATHS (Some "Bearer h.p.s")).2)
    as [[_ [[H|H]|H]]|[[H _]|(asked & after & subject & _ & Hs & _)]]; try by vm_compute in H.
  - apply (prog_runs_trace (λ _ _ _ _ _, True) _ _ _ _ _ (prog_exec_runs (λ _ _ _ _ _, True) _ _ _ (λ _ _ _, I))).
  - by exists asked, subject.
Defined.

(** An empty database, every read at once. *)
Definition example_puller_answers (w : unit) {B} (op : WebOp (J := toy_jwt) PullerOp B) : B * unit :=
  match op in WebOp _ B return B * unit with
  | Web_Auth op =>
      match op in AuthOp B return B * unit with
      | Auth_CachedKey _ _ => ((Some 7, false), w)
      | Auth_Refresh _ => (false, w)
      | Auth_Await _ => (Ok tt, w)
      end
  | Web_Serve op =>
      match op in PullerOp B return B * unit with
      | Puller_ReadyDeep => (plain 200 "ready", w)
      | Puller_Pull op =>
          match op in PullOp B return B * unit with
          | Pull_Opened => (true, w)
          | Pull_Lock => (0%Z, w)
          | Pull_Query read => ((Ok (read db_empty), 0%Z), w)
          | Pull_Now => (0%Z, w)
          | Pull_Hit _ _ _ => (tt, w)
          | Pull_Presign _ => ((Err "no bucket", 0%Z), w)
          | Pull_Fetch _ => (Err "no bucket", w)
          end
      end
  end.

Definition example_browse (issuer : option IssuerConfig) (path : string) (authorization : option string)
    : list (Event (WebOp (J := toy_jwt) PullerOp)) * unit * HttpResponse :=
  prog_exec (@example_puller_answers) tt
    (puller_app (R := toy_responses) (Jw := toy_jwt) (A := toy_axum) issuer example_pull_state "/nix/store"
       (example_request "GET" path authorization)).

Lemma browse_needs_a_token_witness :
  (example_browse (Some github_issuer) OBJECTS (Some "Bearer h.p.s")).2 = mkHttp 200 [] "page" ∧
  (example_browse (Some github_issuer) OBJECTS None).2 = mkHttp 401 [("www-authenticate", "Bearer")] "unauthorized" ∧
  (example_browse None OBJECTS (Some "Bearer h.p.s")).2 = mkHttp 404 [] "" ∧
  (example_browse None NIX_CACHE_INFO None).2 = mkHttp 200 [] (cache_info "/nix/store") ∧
  (served (example_browse None OBJECTS (Some "Bearer h.p.s")).1.1 = [] ∨
   ∃ endpoint param, anonymous endpoint = true ∧
     run_trace (puller_handle (R := toy_responses) (Jw := toy_jwt) (A := toy_axum) example_pull_state "/nix/store"
       (example_request "GET" OBJECTS (Some "Bearer h.p.s")) endpoint param None)
       (example_browse None OBJECTS (Some "Bearer h.p.s")).1.1 (mkHttp 404 [] "")).
Proof.
  do 4 (split; [vm_compute; reflexivity|]).
  destruct (browse_needs_a_token (R := toy_responses) (Jw := toy_jwt) (A := toy_axum) None example_pull_state "/nix/store"
    (example_request "GET" OBJECTS (Some "Bearer h.p.s")) (example_browse None OBJECTS (Some "Bearer h.p.s")).1.1
    (example_browse None OBJECTS (Some "Bearer h.p.s")).2) as [[H _]|[H|(cfg & _ & _ & _ & _ & _ & [=] & _)]].
  - apply (prog_runs_trace (λ _ _ _ _ _, True) _ _ _ _ _ (prog_exec_runs (λ _ _ _ _ _, True) _ _ _ (λ _ _ _, I))).
  - by left.
  - right. exact H.
Defined.
