(* ===== verification/Startup.v ===== *)
(** * Startup: how the services start and the Pusher stops

    [start] and [bind] of [crates/garret-server/src/runtime.rs], [load_signing_keys]
    of [lib.rs], [open], [migrate] and [open_when_ready] of [db.rs], [admin::bind],
    [serve_until_stopped] and the two [main]s. A program's requests are system
    calls, the libraries it starts and the tasks it spawns; times are in
    milliseconds. The accept loop is in Serve; tracing and gauges are left out. *)

From stdpp Require Import pretty.
From S2P Require Import Prelude Text Net Common Prog Db Storage Narinfo Config Settings.

(** ** System calls and what is spawned *)

(** [std::fs::metadata]: a file's length. *)
Inductive FileMeta := Meta_Absent | Meta_Failed (e : string) | Meta_Length (len : Z).

Inductive StartOp : Type → Type :=
  | St_ConfigPath : StartOp (option string)
  | St_ReadFile (path : string) : StartOp (Result string string)
  | St_Metadata (path : string) : StartOp FileMeta
  (** A file's permission bits, if they can be read. *)
  | St_Mode (path : string) : StartOp (option Z)
  | St_InstallMetrics (service : string) : StartOp (Result unit string)
  | St_Bind (addr name : string) : StartOp (Result unit string)
  | St_SpawnMetrics : StartOp unit
  | St_CreateParents (path : string) : StartOp (Result unit string)
  | St_SocketMeta (path : string) : StartOp PathMeta
  | St_RemoveFile (path : string) : StartOp (Result unit string)
  | St_BindUnix (path : string) : StartOp (Result unit string)
  | St_SetMode (path : string) (mode : Z) : StartOp (Result unit string)
  | St_HttpClient : StartOp (Result unit string)
  (** [Connection::open_with_flags], then a pragma, a query. *)
  | St_OpenDb (path : string) (create : bool) : StartOp (Result unit string)
  | St_Pragma (name value : string) : StartOp (Result unit string)
  | St_PersistWal : StartOp (Result unit string)
  | St_HasObjects : StartOp (Result bool string)
  | St_Migrate : StartOp (Result unit string)
  | St_Storage : StartOp (Result unit string)
  | St_SpawnAdmin : StartOp unit
  | St_SpawnGc : StartOp unit
  | St_SpawnOpen : StartOp unit
  | St_NotifyReady : StartOp unit
  (** The server ended by itself, or the drain's deadline passed first. *)
  | St_Serve (drain : Z) : StartOp (option (Result unit string))
  (** [abort_stale_multiparts] with no grace, and how long it took. *)
  | St_AbortAll : StartOp (Result nat string * Z)
  | St_Clock : StartOp Z
  | St_Sleep (ms : Z) : StartOp unit.

Abbreviation Starting := (Prog StartOp).

(** ** The database *)

(** [open]. *)
Definition open_db (path : string) (create : bool) : Starting (Result unit string) :=
  do opened <- request (St_OpenDb path create);
  do? _ <- Ret (map_err (λ e, "opening database " +:+ path +:+ ": " +:+ e) opened);
  do? _ <- request (St_Pragma "journal_mode" "WAL");
  do? _ <- request (St_Pragma "journal_size_limit" (pretty (64 * 1024 * 1024)%Z));
  do? _ <- request (St_Pragma "synchronous" "NORMAL");
  do? _ <- request (St_Pragma "busy_timeout" "5000");
  do? _ <- request (St_Pragma "mmap_size" (pretty (512 * 1024 * 1024)%Z));
  do? _ <- request (St_Pragma "foreign_keys" "ON");
  request St_PersistWal.

(** One look of [open_when_ready]: whether the database is there and migrated. *)
Definition look (path : string) : Starting (Result bool string) :=
  do meta <- request (St_Metadata path);
  match meta with
  | Meta_Absent => Ret (Ok false)
  | Meta_Failed e => Ret (Err ("checking database " +:+ path +:+ ": " +:+ e))
  | Meta_Length len =>
      if (len =? 0)%Z then Ret (Ok false)
      else
        do? _ <- open_db path false;
        do migrated <- request St_HasObjects;
        Ret (map_err (λ e, "checking for schema: " +:+ e) migrated)
  end.

Definition FIRST_DELAY : Z := 250.
Definition MAX_DELAY : Z := 15000.

(** The loop of [open_when_ready]; [None] when [fuel] runs out. *)
Fixpoint wait_ready (fuel : nat) (path : string) (deadline delay : Z) : Starting (option (Result unit string)) :=
  match fuel with
  | 0 => Ret None
  | S fuel =>
      do seen <- look path;
      match seen with
      | Err e => Ret (Some (Err e))
      | Ok true => Ret (Some (Ok tt))
      | Ok false =>
          do now <- request St_Clock;
          if (now <? deadline)%Z then
            do _ <- request (St_Sleep (Z.min delay (deadline - now)));
            wait_ready fuel path deadline (Z.min (delay * 2) MAX_DELAY)
          else Ret (Some (Err ("database " +:+ path +:+ " was not created in time — is the pusher running?")))
      end
  end.

Definition open_when_ready (fuel : nat) (path : string) (timeout : Z) : Starting (option (Result unit string)) :=
  do now <- request St_Clock;
  wait_ready fuel path (now + timeout) FIRST_DELAY.

(** *** Migration

    A database file: whether its tables are there, and whether [objects] has
    its [pushed_at] column; without it, the rows' [r_pushed_at] means nothing. *)
Record Stored := mkStored {
  sd_tables : bool;
  sd_pushed_at : bool;
  sd_db : Db;
}.

(** [SCHEMA]: [IF NOT EXISTS] throughout. *)
Definition apply_schema (s : Stored) : Stored := if sd_tables s then s else mkStored true true db_empty.

Definition backfill (row : Row) : Row := set_pushed_at (r_created_at row) row.

(** [ALTER TABLE] and [UPDATE], in one transaction. *)
Definition add_pushed_at (s : Stored) : Stored :=
  let db := sd_db s in
  mkStored (sd_tables s) true (mkDb (backfill <$> objects db) (object_refs db) (pins db) (total_bytes db)).

Definition migrate (s : Stored) : Stored :=
  let s := apply_schema s in
  if sd_pushed_at s then s else add_pushed_at s.

(** What a migration that is cut short may leave. *)
Definition migrate_commits (s : Stored) : list Stored := [s; apply_schema s; migrate s].

(** ** Signing keys *)

(** The part of the mode that lets others in: [mode & 0o077]. *)
Definition open_to_others (mode : Z) : bool := negb (Z.land mode 63 =? 0)%Z.

Section keys.
Context `{C : Crypto}.

Definition load_signing_key (path : string) : Starting (Result SigningKey string) :=
  do mode <- request (St_Mode path);
  if match mode with Some mode => open_to_others (Z.land mode 511) | None => false end
  then Ret (Err ("signing key " +:+ path +:+ " is readable by group/other"))
  else
    do text <- request (St_ReadFile path);
    Ret (let? text := map_err (λ e, "reading signing key " +:+ path +:+ ": " +:+ e) text in key_parse text).

Fixpoint load_signing_keys (paths : list string) : Starting (Result (list SigningKey) string) :=
  match paths with
  | [] => Ret (Ok [])
  | path :: paths =>
      do? key <- load_signing_key path;
      do? keys <- load_signing_keys paths;
      Ret (Ok (key :: keys))
  end.
End keys.

(** ** Starting *)

(** [runtime::start]: the configuration of a service, its listeners bound. *)
Definition start {T} (service : string) (from_str : string → Result T string) (validate : T → Result unit string)
    (listen metrics_listen : T → string) : Starting (Result T string) :=
  do path <- request St_ConfigPath;
  do? path <- Ret (ok_or path ("usage: garret-" +:+ service +:+ " <config.toml>"));
  do text <- request (St_ReadFile path);
  do? config <- Ret (load from_str validate path text);
  do? _ <- request (St_InstallMetrics service);
  do? _ <- request (St_Bind (metrics_listen config) "metrics");
  do? _ <- request (St_Bind (listen config) service);
  do _ <- request St_SpawnMetrics;
  Ret (Ok config).

(** [admin::bind]. *)
Definition bind_admin (path : string) : Starting (Result unit string) :=
  do? _ <- request (St_CreateParents path);
  do meta <- request (St_SocketMeta path);
  do? _ <- match meta with
           | MetaSocket => do removed <- request (St_RemoveFile path); Ret (remove_stale_socket meta removed)
           | _ => Ret (remove_stale_socket meta (Ok tt))
           end;
  do? _ <- request (St_BindUnix path);
  request (St_SetMode path 384). (* 0o600 *)

Definition DRAIN : Z := 60000.
Definition ABORT_BUDGET : Z := 20000.

(** The loop under [timeout(ABORT_BUDGET)]: whether a pass found nothing in
    [left] milliseconds; [None] when [fuel] runs out. *)
Fixpoint abort_all (fuel : nat) (left : Z) : Starting (option bool) :=
  match fuel with
  | 0 => Ret None
  | S fuel =>
      do pass <- request St_AbortAll;
      let left := (left - pass.2)%Z in
      if (left <? 0)%Z then Ret (Some false)
      else match pass.1 with
           | Ok 0 => Ret (Some true)
           | Ok _ => abort_all fuel left
           | Err _ =>
               do _ <- request (St_Sleep (Z.min 1000 left));
               if (left <? 1000)%Z then Ret (Some false) else abort_all fuel (left - 1000)
           end
  end.

Definition serve_until_stopped (fuel : nat) : Starting (option (Result unit string)) :=
  do served <- request (St_Serve DRAIN);
  match served with
  | Some served => Ret (Some served)
  | None => do aborted <- abort_all fuel ABORT_BUDGET; Ret (match aborted with Some _ => Some (Ok tt) | None => None end)
  end.

Section services.
Context `{C : Crypto, U : UrlParser} (pusher_toml : string → Result PusherConfig string)
  (puller_toml : string → Result PullerConfig string).

(** Everything that must work before the Pusher spawns or serves anything. *)
Definition pusher_prepare : Starting (Result (PusherConfig * list SigningKey) string) :=
  do? cfg <- start "pusher" pusher_toml pusher_validate pc_listen pc_metrics_listen;
  do? _ <- match pc_admin_socket cfg with Some path => bind_admin path | None => Ret (Ok tt) end;
  do? _ <- request St_HttpClient;
  do? _ <- open_db (pc_db_path cfg) true;
  do? _ <- request St_Migrate;
  do _ <- request (St_Pragma "wal_checkpoint" "TRUNCATE");
  do? _ <- request St_Storage;
  do? keys <- load_signing_keys (pc_signing_key_files cfg);
  Ret (Ok (cfg, keys)).

(** What the Pusher serves with: its configuration, its keys and the discovery
    document. *)
Definition pusher_start : Starting (Result (PusherConfig * list SigningKey * Discovery) string) :=
  do? prepared <- pusher_prepare;
  let '(cfg, keys) := prepared in
  do _ <- match pc_admin_socket cfg with Some _ => request St_SpawnAdmin | None => Ret tt end;
  do _ <- match pc_gc cfg with Some _ => request St_SpawnGc | None => Ret tt end;
  do _ <- request St_NotifyReady;
  Ret (Ok (cfg, keys, discovery_document cfg keys)).

Definition pusher_main (fuel : nat) : Starting (option (Result unit string)) :=
  do started <- pusher_start;
  match started with
  | Err e => Ret (Some (Err e))
  | Ok _ => serve_until_stopped fuel
  end.

Definition puller_start : Starting (Result PullerConfig string) :=
  do? cfg <- start "puller" puller_toml puller_validate pu_listen pu_metrics_listen;
  do? _ <- request St_Storage;
  do _ <- request St_SpawnOpen;
  do? _ <- match pu_browse_oidc cfg with Some _ => request St_HttpClient | None => Ret (Ok tt) end;
  do _ <- request St_NotifyReady;
  Ret (Ok cfg).

(** The task the Puller spawns; on an error the process exits with 1. *)
Definition open_all (fuel : nat) (cfg : PullerConfig) : Starting (option (Result unit string)) :=
  do pull <- open_when_ready fuel (pu_db_path cfg) (pu_db_wait_timeout_secs cfg * 1000);
  match pull with
  | None => Ret None
  | Some (Err e) => Ret (Some (Err e))
  | Some (Ok _) =>
      do opened <-
        (do? _ <- request (St_Pragma "busy_timeout" (pretty (pu_db_read_budget_ms cfg)));
         do? _ <- open_db (pu_db_path cfg) false;
         do? _ <- request (St_Pragma "busy_timeout" "1000");
         open_db (pu_db_path cfg) false);
      Ret (Some opened)
  end.
End services.

(** ** The garbage collector's timer

    One lap of [Gc::run_forever]; times in seconds. *)
Inductive TimerOp : Type → Type :=
  | Tm_Elapsed (since : Z) : TimerOp Z
  | Tm_Now : TimerOp Z
  | Tm_SweepOrphans : TimerOp (Result nat string)
  | Tm_Tick : TimerOp unit
  | Tm_Pass : TimerOp (Result unit string).

Definition SWEEP_INTERVAL : Z := 7 * 24 * 60 * 60.

(** The last successful sweep after this lap. *)
Definition gc_lap (last_sweep : option Z) : Prog TimerOp (option Z) :=
  do due <- match last_sweep with
            | None => Ret true
            | Some at_ => do elapsed <- request (Tm_Elapsed at_); Ret (SWEEP_INTERVAL <=? elapsed)%Z
            end;
  do last_sweep <- (if due
                    then do swept <- request Tm_SweepOrphans;
                         match swept with
                         | Ok _ => do now <- request Tm_Now; Ret (Some now)
                         | Err _ => Ret last_sweep
                         end
                    else Ret last_sweep);
  do _ <- request Tm_Tick;
  do _ <- request Tm_Pass;
  Ret last_sweep.

Fixpoint run_forever (laps : nat) (last_sweep : option Z) : Prog TimerOp (option Z) :=
  match laps with
  | 0 => Ret last_sweep
  | S laps => do last_sweep <- gc_lap last_sweep; run_forever laps last_sweep
  end.

(** ** Waiting for the database *)

(** Time passes; a sleep is no shorter than asked. *)
Definition start_step (now : Z) {B} (op : StartOp B) : B → Z → Prop :=
  match op in StartOp B return B → Z → Prop with
  | St_Clock => λ b now', b = now ∧ (now ≤ now')%Z
  | St_Sleep ms => λ _ now', (now + ms ≤ now')%Z ∧ (now ≤ now')%Z
  | _ => λ _ now', (now ≤ now')%Z
  end.

Lemma start_step_later now B (op : StartOp B) b now' : start_step now op b now' → (now ≤ now')%Z.
Proof. by destruct op; cbn; [..|intros [_ ?]|intros [_ ?]]. Qed.

Lemma later_always {A} (p : Starting A) now post :
  (∀ a now', (now ≤ now')%Z → post a now') → always (@start_step) (λ _, True) p now post.
Proof.
  revert now post. induction p as [a|B op k IH]; intros now post Hp; cbn; (split; [done|]); [apply Hp; lia|].
  intros b now' Hs%start_step_later. apply IH. intros a now2 Hle. apply Hp. lia.
Qed.

Lemma wait_ready_ends fuel path deadline delay now (n : nat) :
  (FIRST_DELAY ≤ delay)%Z → (deadline - now ≤ FIRST_DELAY * Z.of_nat n)%Z → n < fuel →
  always (@start_step) (λ _, True) (wait_ready fuel path deadline delay) now (λ r _, r ≠ None).
Proof.
  unfold FIRST_DELAY. revert delay now n. induction fuel as [|fuel IH]; intros delay now n Hd Hn Hf; [lia|].
  cbn [wait_ready]. apply always_bind, later_always. intros seen now1 H1.
  destruct seen as [[]|e]; [by split| |by split].
  apply always_request; [done|]. intros b now2 [-> H2]. destruct (Z.ltb_spec now1 deadline) as [Hlt|]; [|by split].
  apply always_request; [done|]. intros [] now3 [H3 _]. destruct n as [|n]; [lia|].
  apply (IH _ _ n); unfold MAX_DELAY; lia.
Qed.

(** The database was there, not empty, opened and migrated. *)
Definition seen_ready (path : string) (tr : list (Event StartOp)) : Prop :=
  ∃ len opened, (len ≠ 0)%Z ∧ run_trace (open_db path false) opened (Ok tt) ∧
    tr = Ev (St_Metadata path) (Meta_Length len) :: opened ++ [Ev St_HasObjects (Ok true)].

Lemma look_true path tr : run_trace (look path) tr (Ok true) → seen_ready path tr.
Proof.
  intros (meta & tr' & -> & H)%run_trace_request_bind.
  destruct meta as [|e|len]; [by apply run_trace_ret in H as [_ [=]]..|].
  destruct (Z.eqb_spec len 0); [by apply run_trace_ret in H as [_ [=]]|].
  apply run_trace_bind in H as ([[]|e] & opened & tr2 & -> & Ho & H); [|by apply run_trace_ret in H as [_ [=]]].
  apply run_trace_request_bind in H as (migrated & tr3 & -> & [-> Hm]%run_trace_ret).
  destruct migrated; [|done]. injection Hm as <-. by exists len, opened.
Qed.

Definition slept (e : Event StartOp) : option Z :=
  match e with Ev op _ => match op in StartOp B return option Z with St_Sleep ms => Some ms | _ => None end end.

(** Which requests a program may make. *)
Fixpoint only {A} (allowed : ∀ B, StartOp B → Prop) (p : Starting A) : Prop :=
  match p with
  | Ret _ => True
  | Step op k => allowed _ op ∧ ∀ b, only allowed (k b)
  end.

Lemma only_bind {A B} allowed (p : Starting A) (f : A → Starting B) :
  only allowed p → (∀ a, only allowed (f a)) → only allowed (prog_bind p f).
Proof. intros Hp Hf. induction p as [a|C op k IH]; cbn; [apply Hf|]. destruct Hp as [? Hp]. eauto. Qed.

Lemma only_trace {A} allowed (p : Starting A) tr a :
  only allowed p → run_trace p tr a → Forall (λ e, match e with Ev op _ => allowed _ op end) tr.
Proof. intros Hp H. induction H as [a|B op k b tr a _ IH]; constructor; destruct Hp; eauto. Qed.

Lemma only_request {A B} allowed (op : StartOp B) (f : B → Starting A) :
  allowed B op → (∀ b, only allowed (f b)) → only allowed (do b <- request op; f b).
Proof. by split. Qed.

Ltac only_asks := repeat first
  [ done
  | apply only_request; [|intros]
  | apply only_bind; [|intros]
  | match goal with |- only _ (match ?x with _ => _ end) => destruct x end
  | split; [|intros] ].

(** A wait is short, and ends at the deadline. *)
Definition short_sleep {B} (op : StartOp B) : Prop :=
  match op with St_Sleep ms => (0 < ms ≤ MAX_DELAY)%Z | _ => True end.

Lemma open_db_short path create : only (@short_sleep) (open_db path create).
Proof. unfold open_db. only_asks. Qed.

Lemma look_short path : only (@short_sleep) (look path).
Proof.
  apply only_request; [done|]. intros [|e|len]; [done..|]. destruct (len =? 0)%Z; [done|].
  apply only_bind; [apply open_db_short|]. intros []; only_asks.
Qed.

Lemma wait_ready_short fuel path deadline delay :
  (0 < delay ≤ MAX_DELAY)%Z → only (@short_sleep) (wait_ready fuel path deadline delay).
Proof.
  revert delay. induction fuel as [|fuel IH]; intros delay Hd; [done|]. cbn [wait_ready].
  apply only_bind; [apply look_short|]. intros [[]|e]; [done| |done]. apply only_request; [done|]. intros now.
  destruct (Z.ltb_spec now deadline); [|done]. apply only_request; [cbn; lia|]. intros _. apply IH. unfold MAX_DELAY in *. lia.
Qed.

Lemma wait_ready_seen fuel path deadline delay tr :
  run_trace (wait_ready fuel path deadline delay) tr (Some (Ok tt)) → ∃ before last, tr = before ++ last ∧ seen_ready path last.
Proof.
  revert delay tr. induction fuel as [|fuel IH]; intros delay tr; [by intros [_ [=]]%run_trace_ret|]. cbn [wait_ready].
  intros (seen & tr1 & tr2 & -> & Hl & H)%run_trace_bind. destruct seen as [[]|e]; [| |by apply run_trace_ret in H as [_ [=]]].
  - apply run_trace_ret in H as [-> _]. exists [], tr1. rewrite app_nil_r. split; [done|]. by apply look_true.
  - apply run_trace_request_bind in H as (now & tr3 & -> & H). destruct (now <? deadline)%Z; [|by apply run_trace_ret in H as [_ [=]]].
    apply run_trace_request_bind in H as (? & tr4 & -> & (before & last & -> & Hs)%IH).
    exists (tr1 ++ Ev St_Clock now :: Ev (St_Sleep (Z.min delay (deadline - now))) tt :: before), last.
    split; [|done]. by rewrite <-app_assoc; destruct x.
Qed.

(** A Puller that waits for its database always ends its wait: with a lap per quarter second of the
    timeout and one more it returns, whatever each look finds and however long the calls take; no
    sleep is longer than fifteen seconds; and it reports success only after a look that found the
    file, not empty, opened it and saw the migrated schema. *)
Theorem open_when_ready_ends fuel path timeout (n : nat) now :
  (timeout ≤ FIRST_DELAY * Z.of_nat n)%Z → n < fuel →
  always (@start_step) (λ _, True) (open_when_ready fuel path timeout) now (λ r _, r ≠ None) ∧
  ∀ tr r, run_trace (open_when_ready fuel path timeout) tr r →
    Forall (λ e, match slept e with Some ms => (0 < ms ≤ MAX_DELAY)%Z | None => True end) tr ∧
    (r = Some (Ok tt) → ∃ before last, tr = before ++ last ∧ seen_ready path last).
Proof.
  intros Ht Hf. split.
  - apply always_request; [done|]. intros b now1 [-> H1]. apply (wait_ready_ends _ _ _ _ _ n); [done|lia|done].
  - intros tr r H. split.
    + assert (Ho : only (@short_sleep) (open_when_ready fuel path timeout)).
      { apply only_request; [done|]. intros b. apply wait_ready_short. unfold FIRST_DELAY, MAX_DELAY. lia. }
      eapply Forall_impl; [by eapply only_trace|]. intros [B op b]. by destruct op.
    + intros ->. apply run_trace_request_bind in H as (b & tr' & -> & (before & last & -> & Hs)%wait_ready_seen).
      by exists (Ev St_Clock b :: before), last.
Qed.

(** ** Migration *)

(** A file some version of the Pusher wrote. *)
Definition stored_wf (s : Stored) : Prop := sd_tables s = true → db_wf (sd_db s).

Lemma sum_file_size_backfill rows : sum_file_size (backfill <$> rows) = sum_file_size rows.
Proof.
  induction rows as [|h row rows Hh IH] using map_ind; [by rewrite fmap_empty|].
  rewrite fmap_insert, !sum_file_size_insert, IH; [done|done|]. by rewrite lookup_fmap, Hh.
Qed.

Lemma add_pushed_at_wf s : db_wf (sd_db s) → db_wf (sd_db (add_pushed_at s)).
Proof.
  intros [Ht Hs Hr Hp]. split; cbn.
  - by rewrite sum_file_size_backfill.
  - intros h row (row' & <- & Hrow)%lookup_fmap_Some. by apply (Hs h row').
  - intros h r Hin. rewrite lookup_fmap, fmap_is_Some. by eapply Hr.
  - intros n p Hpin. rewrite lookup_fmap, fmap_is_Some. by eapply Hp.
Qed.

(** What the newest Pusher runs on. *)
Definition current (s : Stored) : Prop := sd_tables s = true ∧ sd_pushed_at s = true ∧ db_wf (sd_db s).

(** Migrating a database file of any version gives well-formed tables with every column, keeps its
    rows, references, pins and usage, and dates a row that never had a push time by its creation; a
    migration that is killed between its commits and run again ends in the same database. *)
Theorem migration_can_be_cut_short s s' :
  stored_wf s → s' ∈ migrate_commits s →
  current (migrate s) ∧ migrate s' = migrate s ∧
  (sd_tables s = true →
     object_refs (sd_db (migrate s)) = object_refs (sd_db s) ∧ pins (sd_db (migrate s)) = pins (sd_db s) ∧
     total_bytes (sd_db (migrate s)) = total_bytes (sd_db s) ∧
     ∀ h, objects (sd_db (migrate s)) !! h =
       (λ row, if sd_pushed_at s then row else set_pushed_at (r_created_at row) row) <$> objects (sd_db s) !! h) ∧
  (sd_tables s = false → migrate s = mkStored true true db_empty).
Proof.
  intros Hwf Hin.
  assert (Hcur : current (migrate s)).
  { unfold migrate, apply_schema. destruct s as [[] [] db]; cbn; (split; [done|split; [done|]]).
    - by apply Hwf.
    - apply (add_pushed_at_wf (mkStored true false db)). by apply Hwf.
    - apply db_wf_empty.
    - apply db_wf_empty. }
  assert (Hidem : migrate (migrate s) = migrate s).
  { destruct Hcur as (Ht & Hp & _). unfold migrate at 1, apply_schema. by rewrite Ht, Hp. }
  assert (Hsch : migrate (apply_schema s) = migrate s) by (unfold migrate, apply_schema; by destruct s as [[] [] db]).
  split; [done|]. split.
  { unfold migrate_commits in Hin. rewrite !elem_of_cons, elem_of_nil in Hin. by destruct Hin as [->|[->|[->|[]]]]. }
  unfold migrate, apply_schema. split; intros ->; [|done].
  destruct (sd_pushed_at s); cbn; [|split_and!; try done; intros h; apply lookup_fmap].
  split_and!; [done..|]. intros h. by rewrite option_fmap_id.
Qed.

(** ** Starting and stopping *)

Section starting.
Context `{C : Crypto, U : UrlParser} (pusher_toml : string → Result PusherConfig string).

(** A key that was loaded: its text parses, and its mode, if readable, lets
    nobody but the owner in. *)
Definition private_key (tr : list (Event StartOp)) (path : string) (key : SigningKey) : Prop :=
  (∃ text, In (Ev (St_ReadFile path) (Ok text)) tr ∧ key_parse text = Ok key) ∧
  ∃ mode, In (Ev (St_Mode path) mode) tr ∧ ∀ m, mode = Some m → Z.land m 63 = 0%Z.

Lemma private_key_mono tr tr' path key : (∀ e, In e tr → In e tr') → private_key tr path key → private_key tr' path key.
Proof. intros Hi [(text & H1 & H2) (mode & H3 & H4)]. split; [exists text|exists mode]; auto. Qed.

Lemma low_bits m : Z.land (Z.land m 511) 63 = Z.land m 63.
Proof. by rewrite <-Z.land_assoc. Qed.

Lemma load_signing_key_ok path tr key : run_trace (load_signing_key path) tr (Ok key) → private_key tr path key.
Proof.
  intros (mode & tr1 & -> & H)%run_trace_request_bind.
  destruct (match mode with Some _ => _ | None => _ end) eqn:Hm; [by apply run_trace_ret in H as [_ [=]]|].
  apply run_trace_request_bind in H as (text & tr2 & -> & [-> Hk]%run_trace_ret). split.
  - destruct text as [text|]; [|done]. exists text. split; [right; by left|done].
  - exists mode. split; [by left|]. intros m ->. unfold open_to_others in Hm.
    apply negb_false_iff, Z.eqb_eq in Hm. by rewrite low_bits in Hm.
Qed.

Lemma load_signing_keys_ok paths tr keys :
  run_trace (load_signing_keys paths) tr (Ok keys) → Forall2 (private_key tr) paths keys.
Proof.
  revert tr keys. induction paths as [|path paths IH]; intros tr keys.
  - by intros [_ [= ->]]%run_trace_ret.
  - intros ([key|e] & tr1 & tr2 & -> & H1 & H)%run_trace_bind; [|by apply run_trace_ret in H as [_ [=]]].
    apply run_trace_bind in H as ([more|e] & tr3 & tr4 & -> & H3 & [-> Hk]%run_trace_ret); [|done]. injection Hk as ->.
    constructor.
    + eapply private_key_mono; [|by apply load_signing_key_ok]. intros e He. apply in_or_app. by left.
    + eapply Forall2_impl; [by apply IH|]. intros p k. apply private_key_mono. intros e He. rewrite app_nil_r. apply in_or_app. by right.
Qed.

(** Requests that let anyone in. *)
Definition quiet {B} (op : StartOp B) : Prop :=
  match op with St_SpawnAdmin | St_SpawnGc | St_NotifyReady | St_Serve _ => False | _ => True end.

Definition opens (e : Event StartOp) : bool :=
  match e with Ev op _ => match op with St_SpawnAdmin | St_SpawnGc | St_NotifyReady | St_Serve _ => true | _ => false end end.

Lemma quiet_opens {A} (p : Starting A) tr a : only (@quiet) p → run_trace p tr a → existsb opens tr = false.
Proof.
  intros Ho H%(only_trace (@quiet)); [|done]. induction H as [|[B op b] tr Hq _ IH]; [done|]. cbn [existsb].
  rewrite IH, orb_false_r. by destruct op.
Qed.

Lemma open_db_quiet path create : only (@quiet) (open_db path create).
Proof. unfold open_db. only_asks. Qed.

Lemma load_signing_key_quiet path : only (@quiet) (load_signing_key path).
Proof. apply only_request; [done|]. intros mode. destruct (match mode with Some _ => _ | None => _ end); [done|]. by apply only_request. Qed.

Lemma load_signing_keys_quiet paths : only (@quiet) (load_signing_keys paths).
Proof.
  induction paths as [|path paths IH]; [done|]. apply only_bind; [apply load_signing_key_quiet|]. intros [key|e]; [|done].
  apply only_bind; [done|]. by intros [].
Qed.

Lemma bind_admin_quiet path : only (@quiet) (bind_admin path).
Proof.
  apply only_request; [done|]. intros [[]|e]; [|done]. apply only_request; [done|]. intros meta.
  apply only_bind; [by destruct meta; [apply only_request|..]|]. intros []; [|done]. apply only_request; [done|]. by intros [].
Qed.

Lemma start_quiet {T} service from_str validate (listen metrics : T → string) :
  only (@quiet) (start service from_str validate listen metrics).
Proof.
  apply only_request; [done|]. intros [path|]; [|done]. apply only_request; [done|]. intros text.
  apply only_bind; [done|]. intros [cfg|]; [|done]. only_asks.
Qed.

Lemma pusher_prepare_quiet : only (@quiet) (pusher_prepare pusher_toml).
Proof.
  apply only_bind; [apply start_quiet|]. intros [cfg|]; [|done].
  apply only_bind; [destruct (pc_admin_socket cfg); [apply bind_admin_quiet|done]|]. intros []; [|done].
  apply only_request; [done|]. intros []; [|done]. apply only_bind; [apply open_db_quiet|]. intros []; [|done].
  apply only_request; [done|]. intros []; [|done]. apply only_request; [done|]. intros _. apply only_request; [done|].
  intros []; [|done]. apply only_bind; [apply load_signing_keys_quiet|]. by intros [].
Qed.

Lemma run_trace_try {Op : Type → Type} {A B E} (p : Prog Op (Result A E)) (f : A → Prog Op (Result B E)) tr b :
  run_trace (do? x <- p; f x) tr (Ok b) →
  ∃ a tr1 tr2, tr = tr1 ++ tr2 ∧ run_trace p tr1 (Ok a) ∧ run_trace (f a) tr2 (Ok b).
Proof.
  intros ([a|e] & tr1 & tr2 & -> & H1 & H2)%run_trace_bind; [by exists a, tr1, tr2|]. by apply run_trace_ret in H2 as [_ [=]].
Qed.

Ltac in_trace := repeat (rewrite ?in_app_iff; cbn [In app]); tauto.

(** What has succeeded once the Pusher is prepared. *)
Record prepared (tr : list (Event StartOp)) (cfg : PusherConfig) (keys : list SigningKey) : Prop := {
  pp_config : pusher_validate cfg = Ok tt ∧ ∃ path text, In (Ev (St_ReadFile path) (Ok text)) tr ∧ pusher_toml text = Ok cfg;
  pp_listener : In (Ev (St_Bind (pc_listen cfg) "pusher") (Ok tt)) tr;
  pp_metrics : In (Ev (St_Bind (pc_metrics_listen cfg) "metrics") (Ok tt)) tr;
  pp_admin : ∀ path, pc_admin_socket cfg = Some path →
    In (Ev (St_BindUnix path) (Ok tt)) tr ∧ In (Ev (St_SetMode path 384) (Ok tt)) tr;
  pp_database : In (Ev (St_OpenDb (pc_db_path cfg) true) (Ok tt)) tr ∧ In (Ev St_Migrate (Ok tt)) tr;
  pp_keys : Forall2 (private_key tr) (pc_signing_key_files cfg) keys;
}.

Lemma start_ok {T} service from_str validate (listen metrics : T → string) tr cfg :
  run_trace (start service from_str validate listen metrics) tr (Ok cfg) →
  (validate cfg = Ok tt ∧ ∃ path text, In (Ev (St_ReadFile path) (Ok text)) tr ∧ from_str text = Ok cfg) ∧
  In (Ev (St_Bind (listen cfg) service) (Ok tt)) tr ∧ In (Ev (St_Bind (metrics cfg) "metrics") (Ok tt)) tr.
Proof.
  intros (path & tr1 & -> & H)%run_trace_request_bind. destruct path as [path|]; [|by apply run_trace_ret in H as [_ [=]]].
  apply run_trace_request_bind in H as (text & tr2 & -> & H). unfold load in H.
  destruct text as [text|e]; cbn [map_err prog_bind] in H; [|by apply run_trace_ret in H as [_ [=]]].
  destruct (from_str text) as [config|e] eqn:Hf; cbn [map_err prog_bind] in H; [|by apply run_trace_ret in H as [_ [=]]].
  destruct (validate config) as [[]|e] eqn:Hv; cbn [prog_bind] in H; [|by apply run_trace_ret in H as [_ [=]]].
  apply run_trace_try in H as ([] & tr3 & tr4 & -> & ->%run_trace_request & H).
  apply run_trace_try in H as ([] & tr5 & tr6 & -> & ->%run_trace_request & H).
  apply run_trace_try in H as ([] & tr7 & tr8 & -> & ->%run_trace_request & H).
  apply run_trace_request_bind in H as (u & tr9 & -> & [-> [= <-]]%run_trace_ret).
  split_and!; [done|exists path, text; split; [right; by left|done]|..]; cbn; tauto.
Qed.

Lemma bind_admin_ok path tr :
  run_trace (bind_admin path) tr (Ok tt) → In (Ev (St_BindUnix path) (Ok tt)) tr ∧ In (Ev (St_SetMode path 384) (Ok tt)) tr.
Proof.
  intros ([] & tr1 & tr2 & -> & _ & H)%run_trace_try.
  apply run_trace_request_bind in H as (meta & tr3 & -> & H).
  apply run_trace_try in H as ([] & tr4 & tr5 & -> & _ & H).
  apply run_trace_try in H as ([] & tr6 & tr7 & -> & ->%run_trace_request & ->%run_trace_request).
  in_trace.
Qed.

Lemma prepared_ok tr cfg keys : run_trace (pusher_prepare pusher_toml) tr (Ok (cfg, keys)) → prepared tr cfg keys.
Proof.
  intros (cfg' & tr1 & tr2 & -> & (Hc & Hl & Hm)%start_ok & H)%run_trace_try.
  apply run_trace_try in H as ([] & tr3 & tr4 & -> & Ha & H).
  apply run_trace_try in H as ([] & tr5 & tr6 & -> & _ & H).
  apply run_trace_try in H as ([] & tr7 & tr8 & -> & Ho & H).
  apply run_trace_try in H as ([] & tr9 & tr10 & -> & ->%run_trace_request & H).
  apply run_trace_request_bind in H as (checkpoint & tr11 & -> & H).
  apply run_trace_try in H as ([] & tr12 & tr13 & -> & _ & H).
  apply run_trace_try in H as (keys' & tr14 & tr15 & -> & Hk & [-> [= -> ->]]%run_trace_ret).
  apply run_trace_request_bind in Ho as (opened & tr16 & -> & Ho).
  destruct opened as [[]|e]; [|by apply run_trace_ret in Ho as [_ [=]]].
  apply load_signing_keys_ok in Hk. rewrite app_nil_r. split.
  - destruct Hc as [Hv (path & text & Hin & Hf)]. split; [done|]. exists path, text. split; [in_trace|done].
  - in_trace.
  - in_trace.
  - intros path Hp. rewrite Hp in Ha. apply bind_admin_ok in Ha as [? ?]. split; in_trace.
  - split; in_trace.
  - eapply Forall2_impl; [exact Hk|]. intros p k. apply private_key_mono. intros e He. in_trace.
Qed.

(** The Pusher lets nobody in before it can serve: it opens its admin socket, starts collecting
    garbage and reports ready only after its configuration was validated, its listeners bound, the
    admin socket made private, its database opened and migrated, and every configured signing key
    parsed from a file only its owner can read; an error before that ends it with nothing opened. *)
Theorem pusher_opens_when_prepared tr r :
  run_trace (pusher_start pusher_toml) tr r →
  match r with
  | Err _ => existsb opens tr = false
  | Ok (cfg, keys, discovery) =>
      discovery = discovery_document cfg keys ∧
      ∃ before after, tr = before ++ after ∧ existsb opens before = false ∧ prepared before cfg keys ∧
        (∃ spawned, after = spawned ++ [Ev St_NotifyReady tt] ∧
           (In (Ev St_SpawnAdmin tt) spawned ↔ is_Some (pc_admin_socket cfg)) ∧ (In (Ev St_SpawnGc tt) spawned ↔ is_Some (pc_gc cfg)))
  end.
Proof.
  intros (done_ & tr1 & tr2 & -> & Hp & H)%run_trace_bind. pose proof (quiet_opens _ _ _ pusher_prepare_quiet Hp) as Hq.
  destruct done_ as [[cfg keys]|e]; [|by apply run_trace_ret in H as [-> ->]; rewrite app_nil_r].
  apply prepared_ok in Hp.
  apply run_trace_bind in H as ([] & ta & tb & -> & Ha & H). apply run_trace_bind in H as ([] & tg & th & -> & Hg & H).
  apply run_trace_request_bind in H as ([] & ti & -> & [-> ->]%run_trace_ret). split; [done|].
  exists tr1, (ta ++ tg ++ [Ev St_NotifyReady tt]). split_and!; [done..|]. exists (ta ++ tg). rewrite <-app_assoc. split; [done|].
  rewrite !in_app_iff.
  assert (Hspawn : ∀ (c : bool) (op : StartOp unit) t, run_trace (if c then request op else Ret tt) t tt → t = if c then [Ev op tt] else []).
  { intros [] op t; [by intros ->%run_trace_request|by intros [-> _]%run_trace_ret]. }
  assert (ta = if negb (is_none (pc_admin_socket cfg)) then [Ev St_SpawnAdmin tt] else []) as -> by (apply Hspawn; by destruct (pc_admin_socket cfg)).
  assert (tg = if negb (is_none (pc_gc cfg)) then [Ev St_SpawnGc tt] else []) as -> by (apply Hspawn; by destruct (pc_gc cfg)).
  destruct (pc_admin_socket cfg), (pc_gc cfg); cbn; split; split; try (intros [? [=]]); naive_solver.
Qed.
End starting.

(** A shutdown that ran out of patience for nothing: the last listing found no
    multipart to abort. *)
Lemma abort_all_drained fuel left tr :
  run_trace (abort_all fuel left) tr (Some true) → ∃ before took, tr = before ++ [Ev St_AbortAll (Ok 0, took)].
Proof.
  revert left tr. induction fuel as [|fuel IH]; intros left tr; [by intros [_ [=]]%run_trace_ret|]. cbn [abort_all].
  intros ([pass took] & tr1 & -> & H)%run_trace_request_bind. cbn [fst snd] in H.
  destruct (left - took <? 0)%Z; [by apply run_trace_ret in H as [_ [=]]|].
  destruct pass as [[|n]|e].
  - apply run_trace_ret in H as [-> _]. by exists [], took.
  - apply IH in H as (before & took' & ->). by eexists (_ :: before), took'.
  - apply run_trace_request_bind in H as (u & tr2 & -> & H).
    destruct (left - took <? 1000)%Z; [by apply run_trace_ret in H as [_ [=]]|].
    apply IH in H as (before & took' & ->). by eexists (_ :: _ :: before), took'.
Qed.

(** A lap sweeps when a sweep is due, records only a sweep that succeeded, and
    then always waits a tick and makes a pass. *)
Lemma gc_lap_trace last tr last' :
  run_trace (gc_lap last) tr last' →
  ∃ before tick pass, tr = before ++ [Ev Tm_Tick tick; Ev Tm_Pass pass] ∧
    ((∃ elapsed, last = Some elapsed.1 ∧ before = [Ev (Tm_Elapsed elapsed.1) elapsed.2] ∧ (elapsed.2 < SWEEP_INTERVAL)%Z ∧ last' = last) ∨
     (∃ asked swept rest, before = asked ++ Ev Tm_SweepOrphans swept :: rest ∧
        (∀ at_, last = Some at_ → ∃ elapsed, asked = [Ev (Tm_Elapsed at_) elapsed] ∧ (SWEEP_INTERVAL ≤ elapsed)%Z) ∧
        match swept with Ok _ => ∃ now, rest = [Ev Tm_Now now] ∧ last' = Some now | Err _ => rest = [] ∧ last' = last end)).
Proof.
  intros (due & tr1 & tr2 & -> & Hd & H)%run_trace_bind.
  apply run_trace_bind in H as (last1 & tr3 & tr4 & -> & Hs & H).
  apply run_trace_request_bind in H as (tick & tr5 & -> & H). apply run_trace_request_bind in H as (pass & tr6 & -> & [-> ->]%run_trace_ret).
  exists (tr1 ++ tr3), tick, pass. split; [by rewrite <-app_assoc|]. destruct due.
  - right. apply run_trace_request_bind in Hs as (swept & tr7 & -> & Hs). exists tr1, swept, tr7. split; [done|]. split.
    + intros at_ ->. apply run_trace_request_bind in Hd as (elapsed & tr8 & -> & [-> Hdue]%run_trace_ret).
      exists elapsed. split; [done|]. symmetry in Hdue. by apply Z.leb_le in Hdue.
    + destruct swept; [|by apply run_trace_ret in Hs as [-> ->]].
      apply run_trace_request_bind in Hs as (now & tr8 & -> & [-> ->]%run_trace_ret). by exists now.
  - left. apply run_trace_ret in Hs as [-> ->]. destruct last as [at_|]; [|by apply run_trace_ret in Hd as [_ [=]]].
    apply run_trace_request_bind in Hd as (elapsed & tr8 & -> & [-> Hdue]%run_trace_ret).
    exists (at_, elapsed). split_and!; [done|by rewrite app_nil_r| |done]. cbn. symmetry in Hdue. apply Z.leb_gt in Hdue. lia.
Qed.

(** ** Examples *)

Definition example_key_text : string := "garret-1:" +:+ b64_encode (Crypto := toy_crypto) (repeat 7%Z 64).

(** A Puller that starts first: the Pusher creates the file within the first
    second and has migrated it after two. *)
Definition example_waiting (now : Z) {B} (op : StartOp B) : B * Z :=
  match op in StartOp B return B * Z with
  | St_Clock => (now, now)
  | St_Sleep ms => (tt, now + Z.max 0 ms)%Z
  | St_Metadata _ => (if (now <? 1000)%Z then Meta_Absent else Meta_Length 4096, now)
  | St_HasObjects => (Ok (2000 <=? now)%Z, now)
  | St_OpenDb _ _ => (Ok tt, now)
  | St_Pragma _ _ => (Ok tt, now)
  | St_PersistWal => (Ok tt, now)
  | St_ConfigPath => (Some "/etc/garret.toml", now)
  | St_ReadFile path => (Ok (if bool_decide (path = "/run/key") then example_key_text else ""), now)
  | St_Mode _ => (Some 256%Z, now) (* 0o400 *)
  | St_InstallMetrics _ => (Ok tt, now)
  | St_Bind _ _ => (Ok tt, now)
  | St_SpawnMetrics => (tt, now)
  | St_CreateParents _ => (Ok tt, now)
  | St_SocketMeta _ => (MetaNotFound, now)
  | St_RemoveFile _ => (Ok tt, now)
  | St_BindUnix _ => (Ok tt, now)
  | St_SetMode _ _ => (Ok tt, now)
  | St_HttpClient => (Ok tt, now)
  | St_Migrate => (Ok tt, now)
  | St_Storage => (Ok tt, now)
  | St_SpawnAdmin => (tt, now)
  | St_SpawnGc => (tt, now)
  | St_SpawnOpen => (tt, now)
  | St_NotifyReady => (tt, now)
  | St_Serve _ => (None, now)
  | St_AbortAll => ((Ok 0, 0%Z), now)
  end.

Lemma example_waiting_step now B (op : StartOp B) : start_step now op (example_waiting now op).1 (example_waiting now op).2.
Proof. destruct op; cbn; lia. Qed.

Definition example_wait (fuel : nat) (timeout : Z) : list (Event StartOp) * Z * option (Result unit string) :=
  prog_exec (@example_waiting) 0%Z (open_when_ready fuel "/var/lib/garret.db" timeout).

Lemma open_when_ready_ends_witness :
  omap slept (example_wait 41 10000).1.1 = [250; 500; 1000; 2000]%Z ∧ (example_wait 41 10000).2 = Some (Ok tt) ∧
  omap slept (example_wait 5 900).1.1 = [250; 500; 150]%Z ∧
  (10000 ≤ FIRST_DELAY * Z.of_nat 40)%Z ∧ 40 < 41 ∧ (example_wait 41 10000).2 ≠ None ∧
  ∃ before last, (example_wait 41 10000).1.1 = before ++ last ∧ seen_ready "/var/lib/garret.db" last.
Proof.
  do 3 (split; [vm_compute; reflexivity|]).
  assert (Ht : (10000 ≤ FIRST_DELAY * Z.of_nat 40)%Z) by (unfold FIRST_DELAY; lia). assert (Hf : 40 < 41) by lia.
  destruct (open_when_ready_ends 41 "/var/lib/garret.db" 10000 40 0 Ht Hf) as [Ha Hs].
  pose proof (prog_exec_runs _ _ 0%Z (open_when_ready 41 "/var/lib/garret.db" 10000) example_waiting_step) as Hr.
  split; [done|]. split; [done|]. split; [exact (proj2 (always_runs _ _ _ _ _ _ _ _ Ha Hr))|].
  destruct (Hs _ _ (prog_runs_trace _ _ _ _ _ _ Hr)) as [_ Hok]. apply Hok. vm_compute. reflexivity.
Defined.

(** A database from before [pushed_at], its row never pushed as far as it knows. *)
Definition example_stored : Stored := mkStored true false (mkDb {["a" := set_pushed_at 0 (example_row "a" 7 100)]} ∅ ∅ 7).

Lemma migration_can_be_cut_short_witness :
  stored_wf example_stored ∧ migrate (apply_schema example_stored) = migrate example_stored ∧
  objects (sd_db (migrate example_stored)) !! "a" = Some (example_row "a" 7 100).
Proof.
  assert (Hwf : stored_wf example_stored).
  { intros _. split; cbn.
    - vm_compute. reflexivity.
    - apply map_Forall_singleton. cbn. lia.
    - intros h r Hin. set_solver.
    - apply map_Forall_empty. }
  destruct (migration_can_be_cut_short example_stored (apply_schema example_stored) Hwf) as (_ & Hm & Hk & _).
  { right. left. }
  split; [done|]. split; [done|]. destruct (Hk eq_refl) as (_ & _ & _ & Hrow). rewrite Hrow. reflexivity.
Defined.

Definition example_start : list (Event StartOp) * Z * Result (PusherConfig * list SigningKey * Discovery) string :=
  prog_exec (@example_waiting) 0%Z (pusher_start (C := toy_crypto) (U := toy_url) (λ _, Ok example_server)).

Lemma pusher_opens_when_prepared_witness :
  example_start.2 = Ok (example_server, [example_key], discovery_document (C := toy_crypto) example_server [example_key]) ∧
  ∃ before after, example_start.1.1 = before ++ after ∧ existsb opens before = false ∧
    prepared (C := toy_crypto) (U := toy_url) (λ _, Ok example_server) before example_server [example_key].
Proof.
  assert (Hr : example_start.2 = Ok (example_server, [example_key], discovery_document (C := toy_crypto) example_server [example_key]))
    by (vm_compute; reflexivity).
  split; [done|].
  pose proof (prog_runs_trace _ _ _ _ _ _ (prog_exec_runs _ _ 0%Z (pusher_start (C := toy_crypto) (U := toy_url) (λ _, Ok example_server))
    example_waiting_step)) as Ht.
  pose proof (pusher_opens_when_prepared (C := toy_crypto) (U := toy_url) (λ _, Ok example_server) _ _ Ht) as H.
  change (prog_exec (@example_waiting) 0%Z _) with example_start in H. rewrite Hr in H.
  destruct H as (_ & before & after & He & Hq & Hp & _). exists before, after. split; [exact He|]. split; [exact Hq|exact Hp].
Defined.
