(* ===== verification/Handover.v ===== *)
(** * Handover: an honest upload, from the client's dump to the Pusher's verdict

    [attempt] of [crates/garret-client/src/push.rs] (Upload) writes the body
    that [upload] of [crates/garret-pusher/src/main.rs] (Pusher) reads through
    the verifier (Verify) into the bucket (Storage). Here the two meet: what one
    end does with the bytes of the other. Nothing of the program is defined in
    this file but what HTTP does between them, a body that arrives in other
    chunks and a response read as an answer. *)

From S2P Require Import Prelude Text Common InFlight Prog Db Storage World Narinfo Verify Upload Push Settings Token Doctor Config Auth Browse Pusher Puller Routes.

(** ** Streams that bring what they promise *)

(** A failure that says nothing about the body. *)
Definition benign (e : Failure) : Prop :=
  match e with Fail_S3 _ | Fail_Other _ => True | _ => False end.

Definition ok_or_benign {A} (r : Result A Failure) : Prop :=
  match r with Ok _ => True | Err e => benign e end.

(** [I s left]: the bytes [left] are still to come. A calm stream brings them
    all and then ends, without an error or a stall. *)
Class Calm {S : Type} `{ByteStream S} (I : S → list Z → Prop) : Prop :=
  calm_pull s left : I s left →
    match pull s with
    | (Some (Item_Data chunk), s') => ∃ left', left = chunk ++ left' ∧ I s' left'
    | (Some _, _) => False
    | (None, s') => left = [] ∧ I s' []
    end.

Section reader.
Context {S : Type} `{BS : ByteStream S} (I : S → list Z → Prop) `{!Calm I}.

Definition reader_at (r : BodyReader S) (left : list Z) : Prop :=
  ∃ rest, I (br_body r) rest ∧ left = default [] (br_carry r) ++ rest.

Lemma reader_next_calm r left phase res r' :
  reader_at r left → reader_next r phase = (res, r') →
  br_carry r' = None ∧
  match res with
  | Ok (Some chunk) => ∃ left', left = chunk ++ left' ∧ reader_at r' left'
  | Ok None => left = [] ∧ reader_at r' []
  | Err _ => False
  end.
Proof.
  intros (rest & HI & ->). unfold reader_next, next_chunk.
  destruct (br_carry r) as [carry|]; [intros [= <- <-]; split; [done|by exists rest; split; [|exists rest]]|].
  pose proof (calm_pull _ _ HI) as Hp. destruct (pull (br_body r)) as [[[chunk|e|]|] s']; try done.
  - destruct Hp as (left' & -> & HI'). intros [= <- <-]. split; [done|].
    exists left'. split; [done|]. by exists left'.
  - destruct Hp as [-> HI']. intros [= <- <-]. split; [done|]. split; [done|]. by exists [].
Qed.

Lemma fill_loop_calm fuel r left part cap phase res r' :
  reader_at r left → fill_loop fuel r part cap phase = (res, r') →
  ∃ left', reader_at r' left' ∧
    match res with Ok part' => part ++ left = part' ++ left' | Err e => benign e end.
Proof.
  revert r left part. induction fuel as [|fuel IH]; intros r left part Hr; cbn [fill_loop];
    (destruct (cap <=? len_Z part)%Z; [by intros [= <- <-]; exists left|]).
  { intros [= <- <-]. by exists left. }
  destruct (reader_next r phase) as [[[chunk|]|e] r1] eqn:Hn;
    apply (reader_next_calm _ _ _ _ _ Hr) in Hn as [Hc Hn]; [| |done].
  2: { destruct Hn as [-> Hr1]. intros [= <- <-]. by exists []. }
  destruct Hn as (left' & -> & rest & HI & ->). rewrite Hc. cbn [default].
  destruct (_ <? len_Z chunk)%Z.
  - set (n := Z.to_nat _). intros [= <- <-]. exists (drop n chunk ++ rest).
    split; [by exists rest|]. by rewrite <-app_assoc, (app_assoc (take _ _)), take_drop.
  - intros Hf. apply (IH _ rest) in Hf as (left'' & Hr' & Hres).
    2: { exists rest. split; [done|]. cbn. by rewrite Hc. }
    exists left''. split; [done|]. destruct res; [|done]. by rewrite <-Hres, <-app_assoc.
Qed.

Lemma fill_calm r left part cap phase res r' :
  reader_at r left → fill r part cap phase = (res, r') →
  ∃ left', reader_at r' left' ∧
    match res with Ok part' => part ++ left = part' ++ left' | Err e => benign e end.
Proof. apply fill_loop_calm. Qed.

Lemma has_more_loop_calm fuel r left phase res r' :
  reader_at r left → has_more_loop fuel r phase = (res, r') →
  (∃ left', reader_at r' left') ∧
  match res with Ok more => more = true → left ≠ [] | Err e => benign e end.
Proof.
  revert r left. induction fuel as [|fuel IH]; intros r left Hr; cbn [has_more_loop].
  { intros [= <- <-]. split; [by exists left|done]. }
  destruct (reader_next r phase) as [[[[|b chunk]|]|e] r1] eqn:Hn;
    apply (reader_next_calm _ _ _ _ _ Hr) in Hn as [Hc Hn]; [| | |done].
  - destruct Hn as (left' & -> & Hr1). by apply IH.
  - destruct Hn as (left' & -> & rest & HI & ->). intros [= <- <-]. split; [|done].
    exists ((b :: chunk) ++ rest). by exists rest.
  - destruct Hn as [-> Hr1]. intros [= <- <-]. split; [by exists []|done].
Qed.

(** ** The upload to S3 *)

Lemma collect_below_calm fuel key limit in_flight completed tr res :
  run_trace (collect_below fuel key limit in_flight completed) tr res → ok_or_benign res.
Proof.
  revert in_flight completed tr. induction fuel as [|fuel IH]; intros inf comp tr; cbn [collect_below];
    (destruct (_ <? limit)%Z; [by intros [_ ->]%run_trace_ret|]).
  { by intros [_ ->]%run_trace_ret. }
  intros (done & tr1 & tr2 & -> & Hc & Hk)%run_trace_bind. unfold collect in Hc.
  destruct inf as [|n inf]; [apply run_trace_ret in Hc as [_ ->]; by apply run_trace_ret in Hk as [_ ->]|].
  apply run_trace_request_bind in Hc as (a & tr' & -> & [_ ->]%run_trace_ret).
  destruct a.2; [by eapply IH|]. by apply run_trace_ret in Hk as [_ ->].
Qed.

Lemma multipart_parts_calm fuel key id limits inf comp n r left tr res r' :
  reader_at r left → run_trace (multipart_parts fuel key id limits inf comp n r) tr (res, r') →
  (∃ left', reader_at r' left') ∧ ok_or_benign res.
Proof.
  revert inf comp n r left tr. induction fuel as [|fuel IH]; intros inf comp n r left tr Hr; cbn [multipart_parts].
  { intros [_ [= -> ->]]%run_trace_ret. split; [by exists left|done]. }
  intros (room & tr1 & tr2 & -> & Hroom%collect_below_calm & Hk)%run_trace_bind.
  destruct room as [[inf1 comp1]|e]; [|apply run_trace_ret in Hk as [_ [= -> ->]]; split; [by exists left|done]].
  destruct (fill r [] (part_size limits) "multipart") as [part r1] eqn:Hf.
  apply (fill_calm _ left) in Hf as (left' & Hr1 & Hres); [|done].
  destruct part as [[|b part]|e]; [by apply run_trace_ret in Hk as [_ [= -> ->]]; eauto| |
    by apply run_trace_ret in Hk as [_ [= -> ->]]; eauto].
  apply run_trace_request_bind in Hk as (u & tr' & -> & Hk).
  destruct (_ <? part_size limits)%Z; [by apply run_trace_ret in Hk as [_ [= -> ->]]; eauto|].
  by eapply IH.
Qed.

Lemma multipart_body_calm key id limits inf r left tr res r' :
  reader_at r left → run_trace (multipart_body key id limits inf r) tr (res, r') →
  (∃ left', reader_at r' left') ∧ ok_or_benign res.
Proof.
  intros Hr ([parts r1] & tr1 & tr2 & -> & Hp & Hk)%run_trace_bind.
  apply (multipart_parts_calm _ _ _ _ _ _ _ _ _ _ _ _ Hr) in Hp as [Hr1 Hres].
  destruct parts as [[inf1 comp1]|e]; [|by apply run_trace_ret in Hk as [_ [= -> ->]]].
  apply run_trace_bind in Hk as (all & tr3 & tr4 & -> & Hall%collect_below_calm & Hk).
  destruct all as [[inf2 comp2]|e]; [|by apply run_trace_ret in Hk as [_ [= -> ->]]].
  apply run_trace_request_bind in Hk as (d & tr5 & -> & [_ [= -> ->]]%run_trace_ret).
  split; [done|]. by destruct d.
Qed.

Lemma reader_at_body r left : reader_at r left → ∃ left', I (br_body r) left'.
Proof. intros (rest & HI & _). by exists rest. Qed.

(** A body within the hint is stored, or S3 is to blame. *)
Lemma put_streaming_calm sha256 key body left limits hint tr res s' :
  (0 < part_size limits)%Z → I body left → (len_Z left ≤ hint)%Z →
  run_trace (put_streaming sha256 key body limits hint) tr (res, s') →
  (∃ left', I s' left') ∧ ok_or_benign res.
Proof.
  intros Hps HI Hlen. unfold put_streaming.
  assert (Hr0 : reader_at (reader_new body) left) by by exists left.
  destruct (fill _ _ _ _) as [[first|e] r] eqn:Hf; apply (fill_calm _ _ _ _ _ _ _ Hr0) in Hf as (left1 & Hr & Hres).
  2: { intros [_ [= -> ->]]%run_trace_ret. split; [by eapply reader_at_body|done]. }
  destruct (if _ : bool then has_more r "first_part" else _) as [over r1] eqn:Hover.
  assert ((∃ left2, reader_at r1 left2) ∧ match over with Ok b => b = false | Err e => benign e end)
    as [[left2 Hr1] Hov].
  { destruct ((len_Z first =? _)%Z && _) eqn:Hfull; [|injection Hover as <- <-; eauto].
    apply (has_more_loop_calm _ _ _ _ _ _ Hr) in Hover as [? Ho]. split; [done|].
    destruct over as [[]|]; [|done|done]. exfalso.
    apply andb_true_iff in Hfull as [Heq%Z.eqb_eq Hlt%Z.ltb_lt]. unfold first_reserve in *. rewrite clampZ_min_max in Heq, Hlt by lia.
    cbn [app] in Hres. subst left. destruct left1; [by apply Ho|].
    unfold len_Z in *. rewrite length_app in Hlen. simpl in Hlen. lia. }
  destruct over as [[]|e]; [done| |intros [_ [= -> ->]]%run_trace_ret; split; [by eapply reader_at_body|done]].
  destruct (len_Z first <? part_size limits)%Z.
  - intros (put & tr1 & tr2 & -> & Hput & [_ [= -> ->]]%run_trace_ret)%run_trace_bind.
    apply run_trace_request_bind in Hput as (a & tr' & -> & [_ ->]%run_trace_ret).
    split; [by eapply reader_at_body|]. by destruct a.
  - intros (created & tr1 & -> & Hk)%run_trace_request_bind.
    destruct created as [[id|]|e]; [|by apply run_trace_ret in Hk as [_ [= -> ->]];
      split; [eapply reader_at_body|]..].
    apply run_trace_request_bind in Hk as (u & tr2 & -> & Hk).
    apply run_trace_bind in Hk as ([res2 r2] & tr3 & tr4 & -> & Hb & Hk).
    apply (multipart_body_calm _ _ _ _ _ _ _ _ _ Hr1) in Hb as [[left3 Hr2] Hres2].
    destruct res2 as [v|e]; [apply run_trace_ret in Hk as [_ [= -> ->]]; split; [by eapply reader_at_body|done]|].
    apply run_trace_request_bind in Hk as (u1 & tr5 & -> & Hk).
    apply run_trace_request_bind in Hk as (u2 & tr6 & -> & Hk).
    apply run_trace_ret in Hk as [_ [= -> ->]]. split; [by eapply reader_at_body|done].
Qed.
End reader.

(** ** The streams of an upload *)

(** A received body: the bytes [left], in any chunks. *)
Definition carries (items : list Item) (left : list Z) : Prop :=
  ∃ parts, items = map Item_Data parts ∧ concat parts = left.

#[export] Instance carries_calm : Calm carries.
Proof.
  intros items left (parts & -> & <-). destruct parts as [|p parts]; cbn; [by split; [|exists []]|].
  exists (concat parts). split; [done|]. by exists parts.
Qed.

Section chained.
Context {S : Type} `{BS : ByteStream S} (I : S → list Z → Prop) `{!Calm I}.

Definition chained (c : Chain S) (left : list Z) : Prop :=
  ∃ rest, I (ch_rest c) rest ∧ left = default [] (ch_first c) ++ rest.

#[export] Instance chained_calm : Calm chained.
Proof.
  intros [[first|] rest0] left (rest & HI & ->); cbn in *.
  - exists rest. split; [done|]. by exists rest.
  - pose proof (calm_pull _ _ HI) as Hp. unfold chain_pull. cbn.
    destruct (pull rest0) as [[[chunk|e|]|] s']; try done.
    + destruct Hp as (left' & -> & HI'). exists left'. split; [done|]. by exists left'.
    + destruct Hp as [-> HI']. split; [done|]. by exists [].
Qed.
End chained.

Section verified.
Context `{Zs : Zstd} (unzstd : list Z → option (list Z)) `{!ZstdLaws unzstd}.
Context {S : Type} `{BS : ByteStream S} (I : S → list Z → Prop) `{!Calm I}.
Context (body nar : list Z) (hash : string) (size : Z).
Context (Hne : body ≠ []) (Hun : unzstd body = Some nar) (Hsize : len_Z nar = size)
        (Hhash : sha256_nix32 (sha256 nar) = hash) (Hmax : (len_Z body ≤ max_compressed_len size)%Z).

(** The verifier over an honest body: still checking, or content. *)
Definition verifying (vn : VerifiedNar S) (left : list Z) : Prop :=
  (∃ ins c, honest body nar hash size vn ins left c ∧ I (vn_inner vn) left) ∨
  (vn_outcome vn = Some Outcome_Accepted ∧ left = []).

Lemma verifying_calm : Calm verifying.
Proof.
  intros vn left [(ins & c & Hc & HI)|[Ho ->]].
  2: { cbn [pull nar_stream]. unfold nar_pull. rewrite Ho. split; [done|]. by right. }
  pose proof (calm_pull _ _ HI) as Hp. destruct (pull (vn_inner vn)) as [[[chunk|e|]|] inner] eqn:Hpull; try done.
  - destruct Hp as (left' & -> & HI').
    destruct (honest_data unzstd _ _ _ _ Hun Hsize Hmax _ _ _ _ _ _ Hc Hpull) as (vn' & c' & -> & Hi & Hc').
    exists left'. split; [done|]. left. exists (ins ++ chunk), c'. by rewrite Hi.
  - destruct Hp as [-> HI'].
    destruct (honest_end _ _ _ _ Hsize Hhash _ _ _ _ Hc Hne Hpull) as (vn' & -> & Ho).
    split; [done|]. by right.
Qed.

Lemma verifying_outcome vn left :
  verifying vn left → vn_outcome vn = None ∨ vn_outcome vn = Some Outcome_Accepted.
Proof. intros [(ins & c & Hc & _)|[Ho _]]; [left|by right]. apply Hc. Qed.
End verified.

(** ** Reading the preamble *)

Section preamble.
Context `{J : Json} {E : Type} (to_json : Preamble → Result (list Z) E).
Context (p : Preamble) (json framed : list Z).
Context (Hjson : to_json p = Ok json) (Hframed : to_framed to_json p = Ok framed)
        (Hparse : preamble_from_slice json = Ok p) (Hsmall : (len_Z json ≤ MAX_PREAMBLE)%Z).

Lemma framed_ends :
  (∀ rest, preamble_end (framed ++ rest) MAX_PREAMBLE = Ok (Some (len_Z framed))) ∧
  (∀ n, n < length framed → preamble_end (take n framed) MAX_PREAMBLE = Ok None).
Proof.
  destruct (preamble_framing to_json p json framed MAX_PREAMBLE Hjson Hframed) as [H _]; [|by apply H].
  unfold MAX_PREAMBLE in Hsmall. lia.
Qed.

Lemma take_preamble_framed more : take_preamble (framed ++ more) = Ok (Some (p, more)).
Proof.
  unfold take_preamble. rewrite (proj1 framed_ends). unfold len_Z. rewrite Nat2Z.id, take_app_length, drop_app_length.
  destruct (to_framed_Ok _ _ _ Hframed) as (json' & Hj & ->). rewrite Hjson in Hj. injection Hj as <-.
  change (drop 4 (_ ++ json)) with json. by rewrite Hparse.
Qed.

Lemma take_preamble_part n : n < length framed → take_preamble (take n framed) = Ok None.
Proof. intros Hn. unfold take_preamble. by rewrite (proj2 framed_ends). Qed.

(** What was read and what is to come make the framed preamble and [rest]. *)
Lemma read_preamble_framed fuel items head left rest :
  items_left items < fuel → carries items left → head ++ left = framed ++ rest →
  ∃ leftover items' left', read_preamble fuel items head = (Ok (p, leftover), items') ∧
    carries items' left' ∧ leftover ++ left' = rest.
Proof.
  revert items head left. induction fuel as [|fuel IH]; intros items head left Hfuel Hc Heq; [lia|].
  cbn [read_preamble]. destruct (decide (length framed ≤ length head)) as [Hle|Hlt].
  - assert (∃ more, head = framed ++ more) as [more ->].
    { exists (drop (length framed) head). rewrite <-(take_drop (length framed) head) at 1. f_equal.
      rewrite <-(take_app_le head left) by done. rewrite Heq. apply take_app_length. }
    rewrite take_preamble_framed. rewrite <-app_assoc in Heq. apply (inj (app framed)) in Heq.
    by exists more, items, left.
  - assert (head = take (length head) framed) as Hhead.
    { rewrite <-(take_app_le framed rest) by lia. rewrite <-Heq. by rewrite take_app_length. }
    rewrite Hhead, take_preamble_part by lia. rewrite <-Hhead.
    destruct Hc as (parts & -> & <-). destruct parts as [|chunk parts].
    { exfalso. apply (f_equal length) in Heq. rewrite !length_app in Heq. simpl in Heq. lia. }
    cbn [map next_chunk pull list_stream]. unfold next_chunk. cbn.
    apply (IH _ _ (concat parts)); [|by exists parts|by rewrite <-app_assoc].
    cbn in Hfuel. cbn. lia.
Qed.
End preamble.

(** ** What the two ends agree on *)

(** The highest zstd level whose window the Pusher's decoder takes (its
    [WINDOW_LOG_MAX]); the client does not bound its [zstd_level]. *)
Definition HIGHEST_LEVEL : Z := 19.

(** The libraries of the two processes understand each other: serde_json reads
    back what it printed, and a zstd encoder's output is a frame of the
    contents, within the worst case zstd documents. *)
Class Wire `{L : ClientLibs, J : Json, R : ResponseJson, Zs : Zstd} (unzstd : list Z → option (list Z)) : Prop := {
  wire_preamble p json : preamble_to_json p = Ok json → preamble_from_slice json = Ok p;
  wire_ack ack : ack_from_json (ack_json ack) = Ok ack;
  wire_frame level workers nar : (level ≤ HIGHEST_LEVEL)%Z → nar ≠ [] → (len_Z nar < 2 ^ 63)%Z →
    let frame := concat (zstd_chunks level workers nar) in
    frame ≠ [] ∧ unzstd frame = Some nar ∧ (len_Z frame ≤ max_compressed_len (len_Z nar))%Z;
}.

(** HTTP cuts a body that did not fail into chunks of its own. *)
Definition arrives (sent : Upload.Body) (items : list Item) : Prop :=
  ∃ chunks, sent = map Ok chunks ∧ carries items (concat chunks).

(** What reqwest shows of a response, whose body may break off. *)
Definition received (r : HttpResponse) (a : Answer) : Prop :=
  an_status a = hr_status r ∧
  an_retry_after a = snd <$> List.find (λ h, bool_decide (h.1 = "retry-after")) (hr_headers r) ∧
  (an_body a = Ok (hr_body r) ∨ ∃ e, an_body a = Err e).

(** A request answered as the world may answer it at that moment. *)
Definition served (e : Event Op) : Prop :=
  match e with Ev op r => ∃ w held w' held', op_step w held op r w' held' end.

Lemma runs_served {A} w held (p : Handler A) w' held' a :
  runs w held p w' held' a → ∃ tr, run_trace p tr a ∧ Forall served tr.
Proof.
  induction 1 as [w held a|B w held op k r w1 held1 w2 held2 a Hs _ (tr & Htr & Hserved)].
  - exists []. split; [constructor|done].
  - exists (Ev op r :: tr). split; [by constructor|]. constructor; [|done]. by exists w, held, w1, held1.
Qed.

(** Answers a client comes back after. *)
Definition try_later (e : HttpError) : Prop :=
  er_status e = 500%Z ∨ er_status e = 429%Z ∨ (er_status e = 503%Z ∧ er_retry_after e = true).

Lemma internal_try_later e :
  match e with Fail_BodyOverLimit _ => False | _ => True end → try_later (error_from e).
Proof. by destruct e; left. Qed.

(** ** The handler, on an honest body *)

Section handler.
Context `{J : Json, C : Crypto, Zs : Zstd} (unzstd : list Z → option (list Z)) `{!ZstdLaws unzstd}.
Context (state : UploadState) (Hps : (0 < part_size (us_limits state))%Z).
Context {E : Type} (to_json : Preamble → Result (list Z) E).

(** The body's parts, and what they claim of each other. *)
Record honest_body (hash : string) (p : Preamble) (framed nar : list Z) : Prop := {
  hb_framed : ∃ json, to_json p = Ok json ∧ to_framed to_json p = Ok framed ∧
    preamble_from_slice json = Ok p ∧ (len_Z json ≤ MAX_PREAMBLE)%Z;
  hb_preamble : is_store_hash hash = true ∧ preamble_ok hash p (us_store_dir state);
  hb_size : len_Z nar = pre_nar_size p;
  hb_hash : normalize_hash b64_decode (pre_nar_hash p) = Ok (sha256_nix32 (sha256 nar));
}.

Lemma put_is_benign {S} `{ByteStream S} (I : S → list Z → Prop) `{!Calm I} key body left hint out :
  I body left → (len_Z left ≤ hint)%Z →
  served (Ev (Op_PutStream sha256 key body (us_limits state) hint) out) →
  (∃ left', I out.2 left') ∧ ok_or_benign out.1.
Proof.
  intros HI Hlen (w & held & w' & held' & _ & tr & Hput & _). destruct out as [res body'].
  by eapply (put_streaming_calm I).
Qed.

Lemma db_failure {B} moved (f : Z → Db → State → list Db * State * Result B Failure) r :
  served (Ev (Op_Db moved f) r) →
  (∀ now db st e, (f now db st).2 = Err e → match e with Fail_BodyOverLimit _ => False | _ => True end) →
  match r with Ok _ => True | Err e => try_later (error_from e) end.
Proof.
  intros (w & held & w' & held' & Hs) Hf. cbn [op_step] in Hs.
  specialize (Hf (w_now w) (w_db w) (w_inflight w)).
  destruct (f (w_now w) (w_db w) (w_inflight w)) as [[commits st] res].
  destruct Hs as [(-> & _)|(msg & db' & -> & _)]; [|by left].
  destruct res as [|e]; [done|]. by apply internal_try_later, Hf.
Qed.

Lemma store_upload_honest hash p framed nar frame subject items notices tr answer :
  honest_body hash p framed nar →
  frame ≠ [] → unzstd frame = Some nar → (len_Z frame ≤ max_compressed_len (len_Z nar))%Z →
  carries items (framed ++ frame) →
  run_trace (store_upload state hash subject items notices false) tr answer → Forall served tr →
  match answer with Ok _ => True | Err e => try_later e end.
Proof.
  intros [(json & Hj & Hfr & Hparse & Hsmall) [Hh Hp] Hsize Hhash] Hne Hun Hmax Hitems. unfold store_upload.
  destruct (read_preamble_framed to_json p json framed Hj Hfr Hparse Hsmall
    (S (items_left items)) items [] _ frame ltac:(lia) Hitems eq_refl)
    as (leftover & rest & left & -> & Hrest & Hcat).
  pose proof (build_object_checked hash p (us_store_dir state) subject Hh) as Hb.
  destruct (build_object hash p (us_store_dir state) subject) as [obj|e]; [|by destruct Hb].
  destruct Hb as (_ & Hobj & Hnar). rewrite Hhash in Hnar. injection Hnar as Hnar.
  apply dp_nar_size in Hobj. rewrite <-Hsize in Hobj. rewrite <-Hnar, Hobj.
  destruct (verified_nar _ _ _ _ _) as [vn|e] eqn:Hvn.
  2: { intros [_ ->]%run_trace_ret _. by left. }
  set (hash0 := sha256_nix32 (sha256 nar)) in *.
  pose proof (verifying_calm unzstd (chained carries) frame nar hash0 (len_Z nar) Hne Hun eq_refl eq_refl Hmax) as Hcalm.
  destruct (honest_new frame nar _ _ _ _ _ Hvn) as [c Hc].
  pose proof (verified_nar_new _ _ _ _ _ _ Hvn) as (_ & _ & _ & _ & _ & Hin).
  assert (Hver : verifying (chained carries) frame nar hash0 (len_Z nar) vn frame).
  { left. exists [], c. split; [done|]. rewrite Hin. by exists left. }
  intros (out & tr' & -> & Hk)%run_trace_request_bind [Hput Hserved]%Forall_cons.
  apply (put_is_benign (verifying (chained carries) frame nar hash0 (len_Z nar)) _ _ _ _ _ Hver Hmax) in Hput
    as [[left' Hv'] Hben].
  apply verifying_outcome in Hv' as [Ho|Ho]; rewrite Ho in Hk.
  - apply run_trace_ret in Hk as [_ ->]. apply internal_try_later. by destruct out.1 as [|[]].
  - destruct out.1 as [[digest fsize]|e]; [|apply run_trace_ret in Hk as [_ ->]; apply internal_try_later; by destruct e].
    unfold signed_object in Hk. destruct (sign _ _ _) as [sigs|e]; cbn [map_err] in Hk;
      [|by apply run_trace_ret in Hk as [_ ->]; left].
    apply run_trace_request_bind in Hk as (at_ & tr2 & -> & Hk).
    apply Forall_cons in Hserved as [_ Hserved].
    apply run_trace_request_bind in Hk as (ins & tr3 & -> & [-> ->]%run_trace_ret).
    apply Forall_cons in Hserved as [Hins _]. apply db_failure in Hins; [by destruct ins|].
    intros now db st e'. by destruct (insert_object _ _ _) as [|]; cbn; intros [= <-].
Qed.

Lemma already_stored_served hash tr r :
  run_trace (already_stored hash) tr r → Forall served tr →
  match r with Ok _ => True | Err e => try_later e end.
Proof.
  unfold already_stored. intros (stored & tr' & -> & [-> ->]%run_trace_ret)%run_trace_request_bind [Hs _]%Forall_cons.
  apply db_failure in Hs; [by destruct stored|]. by intros now db st e [=].
Qed.

Lemma upload_honest hash p framed nar frame subject items notices tr answer :
  honest_body hash p framed nar →
  frame ≠ [] → unzstd frame = Some nar → (len_Z frame ≤ max_compressed_len (len_Z nar))%Z →
  carries items (framed ++ frame) →
  run_trace (upload state hash subject items notices false) tr answer → Forall served tr →
  match answer with Ok _ => True | Err e => try_later e end.
Proof.
  intros Hbody Hne Hun Hmax Hitems. pose proof Hbody as [_ [Hh _] _ _]. unfold upload. rewrite Hh. cbn [negb].
  assert (Hq : try_later quiescing) by (right; by right).
  intros (st & tr1 & -> & Hk)%run_trace_request_bind [_ Hs]%Forall_cons.
  destruct (is_quiescing st); [by apply run_trace_ret in Hk as [_ ->]|].
  apply run_trace_bind in Hk as (r & tr2 & tr3 & -> & Hst & Hk). apply Forall_app in Hs as [Hs1 Hs].
  apply already_stored_served in Hst; [|done].
  destruct r as [[]|e]; [by apply run_trace_ret in Hk as [_ ->]| |by apply run_trace_ret in Hk as [_ ->]].
  apply run_trace_request_bind in Hk as (slot & tr4 & -> & Hk). apply Forall_cons in Hs as [_ Hs].
  destruct slot; cbn [negb] in Hk; [|apply run_trace_ret in Hk as [_ ->]; right; by left].
  apply run_trace_request_bind in Hk as (cl & tr5 & -> & Hk). apply Forall_cons in Hs as [_ Hs].
  destruct cl as [u|[]]; [|by apply run_trace_ret in Hk as [_ ->]; try (right; right)..].
  apply run_trace_bind in Hk as (r & tr6 & tr7 & -> & Hst2 & Hk). apply Forall_app in Hs as [Hs2 Hs].
  apply already_stored_served in Hst2; [|done].
  destruct r as [[]|e]; [by apply run_trace_ret in Hk as [_ ->]| |by apply run_trace_ret in Hk as [_ ->]].
  apply run_trace_bind in Hk as (r & tr8 & tr9 & -> & Hup & Hk). apply Forall_app in Hs as [Hs3 _].
  apply (store_upload_honest hash p framed nar frame) in Hup; [|done..].
  apply run_trace_request_bind in Hk as (u' & tr10 & -> & [_ ->]%run_trace_ret). by destruct r.
Qed.
End handler.

(** ** The two together *)

(** What a client of an honest path may be left with: a lost connection, a
    Pusher that was busy, or one that failed; never a refusal. *)
Definition passing (e : PushError) : Prop :=
  match e with
  | Rejected status _ => status = 500%Z
  | Shed _ | Stalled _ | Reqwest _ => True
  | OtherError _ => False
  end.

(** What the client makes of the handler's answers. *)
Lemma ack_of_answer `{L : ClientLibs, R : ResponseJson} answer a :
  (∀ ack, ack_from_json (ack_json ack) = Ok ack) →
  match answer with Ok _ => True | Err e => try_later e end → received (ack_response answer) a →
  match ack_of (Ok a) with Ok ack => answer = Ok ack | Err e => passing e end.
Proof.
  intros Hack Hlater (Hs & Hh & Hb). unfold ack_of. rewrite Hs, Hh. unfold ack_response in *.
  destruct answer as [ack|[status message reason after]]; cbn [into_response hr_status hr_headers hr_body er_status er_retry_after er_message] in *.
  - destruct Hb as [Hb|[e Hb]]; rewrite Hb; [|by destruct ack].
    unfold parse_ack. cbn [map_err]. rewrite Hack. by destruct ack.
  - by destruct Hlater as [Hl|[Hl|[Hl Ha]]]; cbn in *; subst.
Qed.

Lemma map_Ok_inj {A E} (l l' : list A) : map (@Ok A E) l = map Ok l' → l = l'.
Proof. revert l'. induction l as [|x l IH]; intros [|y l'] [=]; [done|]. f_equal; auto. Qed.

Lemma upload_route_inj h h' : with_hash NAR_UPLOAD h = with_hash NAR_UPLOAD h' → h = h'.
Proof.
  assert (∀ h, with_hash NAR_UPLOAD h = "/api/v1/nar/" +:+ h +:+ "") as Heq by done.
  rewrite !Heq. intros H%(inj (String.app _)). by rewrite !str_app_nil_r in H.
Qed.

(** What the client holds when it told no lie: a dump that ended well, of the
    path that was described, with a preamble that is not too long. *)
Record honest_path `{L : ClientLibs, C : Crypto, Zs : Zstd} (store_dir : string) (info : PathInfo) (dump : Dump) : Prop := {
  hp_whole : du_failure dump = None ∧ du_stdout dump ≠ [];
  hp_size : len_Z (du_stdout dump) = pi_nar_size info ∧ (pi_nar_size info < 2 ^ 63)%Z;
  hp_hash : normalize_hash b64_decode (pi_nar_hash info) = Ok (sha256_nix32 (sha256 (du_stdout dump)));
  hp_store_hash : is_store_hash (hash_of_store_path (pi_path info)) = true;
  hp_preamble : preamble_ok (hash_of_store_path (pi_path info)) (preamble_of info) store_dir;
  hp_json : ∃ json, preamble_to_json (preamble_of info) = Ok json ∧ (len_Z json ≤ MAX_PREAMBLE)%Z;
}.

Section handover.
Context `{L : ClientLibs, J : Json, C : Crypto, R : ResponseJson, Zs : Zstd}.
Context (unzstd : list Z → option (list Z)) `{!ZstdLaws unzstd, !Wire unzstd}.
Context (state : UploadState) (conn : Connection) (info : PathInfo) (dump : Dump).

(** The client's requests where a Pusher serves its PUTs, in whatever state it
    is in then. The world is the last PUT's answer, if the Pusher gave one. *)
Definition handover_step (last : option (Result UploadAck HttpError)) {B} (op : PushOp B) :
    B → option (Result UploadAck HttpError) → Prop :=
  match op in PushOp B return B → _ → Prop with
  | Push_Token => λ r last', is_ok r = true ∧ last' = last
  | Push_Dump _ => λ r last', r = Ok dump ∧ last' = last
  | Push_Put url _ sent _ => λ r last',
      (∃ e, r = Err e ∧ last' = None) ∨
      ∃ hash subject items notices tr answer a,
        url = co_endpoint conn +:+ with_hash NAR_UPLOAD hash ∧ arrives sent items ∧
        run_trace (upload state hash subject items notices false) tr answer ∧ Forall served tr ∧
        received (ack_response answer) a ∧ r = Ok a ∧ last' = Some answer
  | _ => λ _ last', last' = last
  end.

Context (Hps : (0 < part_size (us_limits state))%Z) (Hlevel : (co_zstd_level conn ≤ HIGHEST_LEVEL)%Z).
Context (Hpath : honest_path (us_store_dir state) info dump).

Abbreviation handed := (always (@handover_step) (λ _, True)).

Lemma put_handed url token sent idle framed last r last' :
  url = upload_url conn info → to_framed preamble_to_json (preamble_of info) = Ok framed →
  sent = Ok framed :: compressed_nar dump (co_zstd_level conn) (zstd_workers conn (pi_nar_size info)) →
  handover_step last (Push_Put url token sent idle) r last' →
  match ack_of r with Ok ack => last' = Some (Ok ack) | Err e => passing e end.
Proof.
  destruct Hpath as [[Hwhole Hnar] [Hsize Hbig] Hhash Hsh Hpre (json & Hjson & Hsmall)].
  intros -> Hframed -> [([] & -> & _)|(hash & subject & items & notices & tr & answer & a & Hurl & Harr & Hup & Hs & Ha & -> & ->)];
    [done..|].
  unfold upload_url in Hurl. apply (inj (String.app _)), upload_route_inj in Hurl. subst hash.
  destruct (wire_frame (unzstd := unzstd) (co_zstd_level conn) (zstd_workers conn (pi_nar_size info)) _ Hlevel Hnar ltac:(lia))
    as (Hne & Hun & Hmax).
  destruct Harr as (chunks & Hch & Hitems). unfold compressed_nar in Hch. rewrite Hwhole, app_nil_r in Hch.
  change (Ok framed :: map Ok ?l) with (map (@Ok (list Z) string) (framed :: l)) in Hch.
  apply map_Ok_inj in Hch. subst chunks. cbn [concat] in Hitems.
  eapply (upload_honest unzstd state Hps preamble_to_json _ (preamble_of info) framed (du_stdout dump)) in Hup;
    [|split; eauto|done..].
  - apply (ack_of_answer _ _ (wire_ack (unzstd := unzstd)) Hup) in Ha.
    destruct (ack_of _); [by subst|done].
  - exists json. split_and!; [done|done|by apply (wire_preamble (unzstd := unzstd))|done].
Qed.

Lemma attempt_handed token last post :
  (∀ ack, post (Ok ack) (Some (Ok ack))) → (∀ e last', passing e → post (Err e) last') →
  handed (attempt conn info token) last post.
Proof.
  intros Hok Herr. unfold attempt. apply always_request; [done|]. intros d last1 [-> ->].
  pose proof Hpath as [_ _ _ _ _ (json & Hjson & _)].
  destruct (to_framed preamble_to_json (preamble_of info)) as [framed|e] eqn:Hf;
    [|by unfold to_framed in Hf; rewrite Hjson in Hf].
  apply always_request; [done|]. intros r last2 Hput. apply always_ret; [done|].
  eapply put_handed in Hput; [|done..]. destruct (ack_of r); [subst|]; auto.
Qed.

(** How the path may be settled, by the last answer. *)
Definition settled (r : option (Result Upload.Outcome PushError)) (last : option (Result UploadAck HttpError)) : Prop :=
  match r with
  | Some (Ok Pushed) => last = Some (Ok Ack_Created)
  | Some (Ok Deduped) => last = Some (Ok Ack_Exists)
  | Some (Ok _) => False
  | Some (Err (OtherError _)) => last = Some (Ok Ack_InProgress)
  | Some (Err e) => passing e
  | None => True
  end.

Lemma queued_handed b base last : handed (queued b base) last (λ _ last', last' = last).
Proof. repeat (cbn; split_and!; try intros ? ? ->). all: done. Qed.

Lemma backoff_next_handed b e last : handed (backoff_next b e) last (λ _ last', last' = last).
Proof.
  unfold backoff_next. destruct (as_shed e); [apply queued_handed|].
  destruct (_ || _); [by apply always_ret|]. by apply always_request; [|intros ? ? ->; apply always_ret].
Qed.

(** A wait, if one is granted, and the rest. *)
Lemma wait_handed (wait : option Z) (k : Push (option (Result Upload.Outcome PushError))) r last :
  handed k last settled → settled r last →
  handed (match wait with Some wait => do _ <- request (Push_Sleep wait); k | None => Ret r end) last settled.
Proof.
  intros Hk Hr. destruct wait as [wait|]; [|by apply always_ret].
  apply always_request; [done|]. by intros ? ? ->.
Qed.

Lemma push_loop_handed fuel b renewed last : handed (push_loop conn fuel info b renewed) last settled.
Proof.
  revert b renewed last. induction fuel as [|fuel IH]; intros b renewed last; cbn [push_loop]; [by apply always_ret|].
  apply always_request; [done|]. intros [token|e] last1 [Htok ->]; [|done].
  apply always_bind, attempt_handed.
  - intros []; try by apply always_ret.
    apply always_bind. eapply always_weaken; [apply queued_handed|done|].
    intros next ? _ ->. by apply wait_handed; [apply IH|].
  - intros e last2 He. apply always_bind.
    assert (unauthorized e = false) as Hun.
    { destruct e as [status ?| | | |]; try done. cbn in He. by subst status. }
    unfold renewed_after. rewrite Hun, andb_false_r. apply always_ret; [done|]. apply always_bind.
    eapply always_weaken; [apply backoff_next_handed|done|].
    intros next ? _ ->. apply wait_handed; [apply IH|]. by destruct e.
Qed.
End handover.

(** C6: The two ends of an upload agree: where a client pushes the dump nix describes, of at most an
    i64's size, with a preamble within the Pusher's limit and a zstd level whose window its decoder
    takes, and a Pusher serves each of its PUTs, in whatever state it is in, however HTTP cuts the
    body, and as long as its check thread does not die, no PUT is refused: the push ends Pushed or
    Deduped exactly as the handler's last answer said, or gives up because of a busy or failing
    Pusher, a lost connection, or another upload of the path still in progress. *)
Theorem honest_push_is_never_refused `{L : ClientLibs, J : Json, C : Crypto, R : ResponseJson, Zs : Zstd}
    unzstd `{!ZstdLaws unzstd, !Wire unzstd} state conn info dump fuel tr last r :
  (0 < part_size (us_limits state))%Z → (co_zstd_level conn ≤ HIGHEST_LEVEL)%Z →
  honest_path (us_store_dir state) info dump →
  prog_runs (@handover_step _ _ _ _ state conn dump) None (push_one conn fuel info) tr last r →
  match r with
  | Some (Ok Pushed) => last = Some (Ok Ack_Created)
  | Some (Ok Deduped) => last = Some (Ok Ack_Exists)
  | Some (Ok _) => False
  | Some (Err (OtherError _)) => last = Some (Ok Ack_InProgress)
  | Some (Err (Rejected status _)) => status = 500%Z
  | Some (Err _) | None => True
  end.
Proof.
  intros Hps Hlevel Hpath Hr. unfold push_one in Hr.
  apply prog_runs_request in Hr as (started & w & tr' & -> & -> & Hr).
  eapply always_runs in Hr as [_ Hr]; [|by eapply (push_loop_handed unzstd)].
  destruct r as [[[]|[]]|]; done.
Qed.

(** ** An example *)

#[local] Instance Preamble_eq_dec : EqDecision Preamble.
Proof. solve_decision. Defined.

Definition example_libs : ClientLibs := {|
  preamble_to_json p := if decide (p = example_preamble) then Ok [123; 125]%Z else Err "not the example";
  ack_from_json body :=
    if bool_decide (body = "created") then Ok Ack_Created
    else if bool_decide (body = "exists") then Ok Ack_Exists
    else if bool_decide (body = "in-progress") then Ok Ack_InProgress else Err "unknown status";
  hashes_from_json _ := Err "no hashes";
  oauth_error _ := None;
  zstd_chunks _ _ nar := [nar];
|}.

#[local] Instance example_wire :
  Wire (L := example_libs) (J := toy_json) (R := toy_responses) (Zs := toy_zstd) Some.
Proof.
  split.
  - intros p json. cbn. by case_decide as Hp; intros; simplify_eq.
  - by intros [].
  - intros level workers nar _ Hne Hbig. cbn. rewrite app_nil_r. split_and!; [done|done|].
    unfold max_compressed_len, usize_max, COMPRESSED_SLACK. cbn. unfold len_Z in *. lia.
Qed.

Definition example_info : PathInfo :=
  mkPathInfo (pre_store_path example_preamble) (pre_nar_hash example_preamble) 3
    (pre_references example_preamble) None None [].
Definition example_dump : Dump := mkDump example_nar None.

#[local] Existing Instances example_libs toy_json toy_crypto toy_responses toy_zstd.

Lemma example_path_honest : honest_path "/nix/store" example_info example_dump.
Proof.
  split; try by_computation.
  - done.
  - done.
  - pose proof (build_object_checked example_hash example_preamble "/nix/store" "ci" ltac:(by_computation)) as H.
    destruct (build_object example_hash example_preamble "/nix/store" "ci") as [obj|e] eqn:E; [exact (proj1 H)|].
    exfalso. clear H. vm_compute in E. discriminate E.
  - exists [123; 125]%Z. split; [by_computation|unfold MAX_PREAMBLE, len_Z; cbn; lia].
Qed.

Lemma honest_push_is_never_refused_witness :
  ∃ tr last, prog_runs (@handover_step _ _ _ _ example_state example_connection example_dump)
    None (push_one example_connection 1 example_info) tr last (Some (Ok Pushed)) ∧
    last = Some (Ok Ack_Created).
Proof.
  destruct (exec_result 0 world_empty ∅ (upload example_state example_hash "ci" example_body [] false)
    (Ok Ack_Created) ltac:(by_computation)) as (w' & held' & Hup).
  apply runs_served in Hup as (tr & Hup & Hserved).
  assert (∃ tr last, prog_runs (@handover_step _ _ _ _ example_state example_connection example_dump)
    None (push_one example_connection 1 example_info) tr last (Some (Ok Pushed))) as (tr' & last & Hr).
  { eexists _, _. apply (prog_runs_next _ _ Push_Now _ 0%Z None); [done|].
    apply (prog_runs_next _ _ Push_Token _ (Ok "token") None); [done|].
    apply (prog_runs_next _ _ (Push_Dump _) _ (Ok example_dump) None); [done|].
    apply (prog_runs_next _ _ (Push_Put _ _ _ _) _ (Ok (mkAnswer 201 None (Ok "created"))) (Some (Ok Ack_Created)));
      [|apply prog_runs_ret].
    right. exists example_hash, "ci", example_body, [], tr, (Ok Ack_Created), (mkAnswer 201 None (Ok "created")).
    split; [vm_compute; reflexivity|]. split; [|split; [exact Hup|split; [exact Hserved|split; [split_and!; [done|done|by left]|done]]]].
    exists [[2; 0; 0; 0; 123; 125]; [7; 7; 8]]%Z. split; [vm_compute; reflexivity|].
    exists [[2; 0; 0]; [0; 123; 125; 7]; [7; 8]]%Z. done. }
  exists tr', last. split; [exact Hr|].
  exact (honest_push_is_never_refused Some example_state example_connection example_info example_dump 1
    tr' last (Some (Ok Pushed)) ltac:(done) ltac:(done) example_path_honest Hr).
Defined.
